(* ===== verification/_CoqProject ===== *)
-Q . S2P
Prelude.v
Regexp.v
GoStd.v
Sha.v
NetworkId.v
Endpoint.v
Parcel.v
ParcelChannel.v
PeerHashCache.v
Limiter.v
Dialer.v
Configuration.v
Listen.v
PeerStore.v
Handshake.v
Stream.v
V11Wire.v
V11Codec.v
V11Decode.v
Protocol.v
ProtocolV11.v
Rng.v
Controller.v
Online.v
Routing.v
Cat.v
Async.v
Seed.v
Metrics.v
Readers.v
Gob.v
GobSpec.v
Json.v
JsonSpec.v
GoTime.v
GoFmt.v
Crc.v
ProtocolV9.v
ProtocolV10.v
Legacy.v
PeerFile.v
Connections.v
ConnectionsSpec.v
Replenish.v
PeerLoops.v
Network.v
Debug.v
DebugPages.v
LockSource.v
Prometheus.v
Admission.v
EndToEnd.v
