(* ===== verification/Prelude.v ===== *)
(** * Verification of the factom-p2p gossip network

    The Go package [p2p] keeps a node of a gossip network connected: it dials other
    nodes and lets them dial in, agrees with each on one of three wire protocols,
    passes parcels between the application and the peers, bans addresses, mixes the
    network by rounds, and finds new peers through a seed list, a peer file and the
    peers themselves.  This library models the package in Rocq and proves what the
    parts promise each other.

    ** Conventions

    - A function that returns [(T, error)] is a function into [outcome]: [Ok], [Err],
      [Panic] for a run-time panic, and [OutOfFuel], which is no behaviour of the code
      (each looping definition has a lemma that its fuel suffices).
    - A machine integer is the [Z] it denotes and is wrapped to its width where the
      code can exceed it ([u16], [u32], [u64], [i64]); strings are [string], bytes are
      [list byte], times and durations are nanoseconds.
    - Mutable objects that goroutines share have addresses: a [Peer] is the constant
      part of the Go object with the address [peer_ref], [heap] of the controller maps
      the address to what changes ([PeerState]).
    - The clock, the order in which Go visits a map, random draws, the answers of the
      operating system and the bytes that arrive are arguments.
    - Names are those of the code; a method [m] of [T] is [T_m] where [m] alone is taken.

    ** The files

    - Foundations: [Regexp], [GoStd] (strconv, strings, net, encoding/binary), [Sha]
      (SHA-1 and SHA-256), [Stream] (a connection as a stream in chunks), [Gob] and
      [GobSpec] (encoding/gob), [Json] and [JsonSpec] (encoding/json), [GoTime] (the
      JSON of [time.Time]: the calendar, RFC 3339 as Go 1.13 prints and parses it),
      [GoFmt] (floats that fmt rounds, text/tabwriter, the text of a time), [Crc]
      (hash/crc32), [Readers] (readers of a buffer, and that they end), [Rng] (Perm and
      Shuffle of math/rand).  They model what the code uses of the standard library.
    - Data: [NetworkId], [Endpoint] (endpoint.go, util.go), [Parcel] (parcel.go,
      parcelType.go), [Configuration], [Handshake].
    - Components with a state of their own: [ParcelChannel], [PeerHashCache], [Limiter],
      [Dialer], [PeerStore], [Seed] (seed.go and WebScanner), [Metrics]
      (metricsReadWriter.go, statLoop, GetMetrics), [LockSource].
    - Protocols: [Protocol] (the interface as the class [Protocol], its contract between
      two ends of a connection as [ProtocolWire]); [V11Wire], [V11Codec], [V11Decode]
      (protocolV11.pb.go) and [ProtocolV11]; [ProtocolV9], [ProtocolV10] and what
      holds of both in [Legacy].
    - The controller: [Controller] (controller.go, controller_persistence.go: the shared
      state, bans, special endpoints, the peer file), [PeerFile] (the text of the peer
      file), [Listen] (listen), [Routing] (route and the peer selections), [Cat] (rounds
      and shares), [Online] (manageOnline), [Async] (the answer to a peer request
      between two goroutines), [Connections] and [ConnectionsSpec]
      (controller_connections.go, newPeer), [Replenish] (catReplenish), [PeerLoops]
      (readLoop, sendLoop, manageData), [Network] (network.go, newController,
      controller_run.go), [Admission] (the connections under way, from listen to
      manageOnline, as one step relation), [Debug] and [DebugPages] (debug.go),
      [Prometheus] (prometheus.go and the code behind [prom != nil], which the other
      files leave out), [EndToEnd] (a parcel through two nodes).

    ** How the parts interact

    [Network.NewNetwork] makes a controller.  [Listen.listen] and
    [Replenish.catReplenish] make connections through [handshakeIncoming] and
    [controller_Dial]; a handshake that succeeds makes a [Peer] and sends a status to
    [Online.manageOnline_step], which keeps the [PeerStore].  [PeerLoops.readLoop]
    delivers to [PeerLoops.manageData], which answers pings and peer requests
    ([Cat.makePeerShare], [Cat.sharePeers]), hands an answer to the replenish loop
    ([Async]) and messages to the application.  [Routing.route] takes parcels from the
    application and puts them into the channels that [PeerLoops.sendLoop] empties.

    ** What is proved

    - End to end: [EndToEnd.conversation] (from the handshake of two nodes to the
      application that reads the parcels), through
      [ConnectionsSpec.handshake_negotiation] (two nodes agree on a protocol and their
      codecs are in step afterwards) and [PeerLoops.gossip_end_to_end], with
      [ProtocolV11.V11_delivery] and [Legacy.legacy_delivery] (parcels arrive unchanged
      and in order, through every cut of the stream); [Routing.route_spec] says who gets
      a parcel.
    - Codecs: round trips of messages, handshakes, shares and endpoints; decoders and
      receivers that answer on every input; size limits and checksums.
    - State: invariants of the peer store, the channels, the controller
      ([Network.run_invariant], [Online.orderly_no_zombie]) and what every
      operation does to it (bans, rounds, selections, the cache file, the seed list);
      [PeerHashCache.PeerHashCache_refines] and [LockSource.lockSource_serialized]
      relate an implementation to its abstract specification.
    - Loops end: [PeerLoops.readLoop_terminates], [Replenish.dial_loop_terminates], and
      the decoders.  The loops that run for ever go on: [Replenish.catReplenish_runs] and
      [Network.run_invariant] say beside which acts of other goroutines they do, and that
      they panic when [Peer.Send] is overtaken by the end of [sendLoop]
      ([Replenish.catReplenish_panics], [Network.run_panics]).
    - Connections from outside: [Listen.listen_spec] (each is handed over or closed, one
      host at a time) and [Admission.incoming_limits] (how far the limits hold).
    - Pages: [Debug.DebugHalfviz_spec], [DebugPages.DebugMessage_spec] and
      [DebugPages.stats_page_spec] (one entry for every peer, in order), with
      [DebugPages.table_lines] (the columns of a table stand below each other).
    - Interleavings that go wrong, as reachable states of step relations:
      [Online.manageOnline_deadlock], [Online.online_zombie], [Async.async_deadlock],
      [PeerLoops.peer_send_race], [Network.network_lifecycle],
      [ParcelChannel.ParcelChannel_Send_can_block].
    - Instruments: [Prometheus.instruments_transparent] (instruments that exist change
      nothing, so that the theorems of the other files hold with them),
      [Prometheus.gauges_balance], and [Prometheus.second_network_panics] (a process
      with two networks).

    A theorem with hypotheses is followed by its [_witness] at a concrete input.

    ** Fuel and bounds

    Decoders run on the length of their input, the gob decoder on the bytes that are
    left on its connection, the dial loop on the length of its list (each turn takes an
    endpoint from it), the dropping loop of a channel on what the channel holds; the
    theorems named above show that none of these runs out.  [readLoop], [sendLoop],
    [manageData], [run] and [replenish_turns] are given the turns they make.

    ** Parameters

    The protobuf library between [ProtocolV11] and the generated code ([ProtoLib], with
    the laws its documentation states), the client library of Prometheus ([PromLib],
    [PromLaws]), the identifiers gob gives to types, the time zones of the machine and
    what its clock notes besides the instant, the order [sort.Slice] leaves to equal
    elements, and the source of random numbers ([Rng]).  The JSON of the peer file is an
    interface ([CacheJson]) with [PeerFile.Go_json] as its instance.  The other
    goroutines of the replenish loop, the clock and the network are an [oracle].

    ** Not modelled

    - Logging and its setup; the goroutines themselves ([Start] and the [go] statements
      only start the loops above); [Addr] and [Close] of the listener, which pass a call on.
    - Floats beyond the range of a float64, which no counter reaches, and control
      characters in the cells of a table (a peer file can name such an address).
    - Other goroutines in the middle of the [Send]s of [route], of pongs and of shares:
      these use [Peer_Send], where nothing happens between the test of [p.stop] and the
      send.  The loops of [Replenish] and [Network] use [Peer_Send_beside], where anything
      may, and [PeerLoops.peer_send_race] shows what comes of it.
    - The error of [newLockSource] for a source that is no [Source64], which those of
      math/rand have been since Go 1.8.
    - Deadlines: an expired deadline is an error of a read or write, which the model
      shows as the end of the stream or as a write that fails.
    - Gob values of unknown fields that are maps or interfaces (read as an error), the
      nesting limit of encoding/json, sleeping, and the sockets themselves.
    - Registration and descriptors of protocolV11.pb.go, which belong to the library. *)
From Stdlib Require Export ZArith Lia Strings.Byte.
From stdpp Require Export base numbers strings gmap sets list.

#[global] Open Scope Z_scope.

(** ** Outcomes of Go functions

    A Go function that returns [(T, error)] is a function into [outcome E T]:
    [Ok] for a nil error, [Err] for a non-nil one, [Panic] for a run-time panic
    (index or slice bounds out of range, send on a closed channel), and
    [OutOfFuel] when the fuel given to a loop of the model is used up.  The last
    one is not a behaviour of the code: each looping definition has a theorem
    that its fuel suffices. *)
Inductive outcome (E A : Type) : Type :=
  | Ok (a : A)
  | Err (e : E)
  | Panic
  | OutOfFuel.
Arguments Ok {E A} a.
Arguments Err {E A} e.
Arguments Panic {E A}.
Arguments OutOfFuel {E A}.

#[export] Instance outcome_ret E : MRet (outcome E) := λ A a, Ok a.
#[export] Instance outcome_bind E : MBind (outcome E) := λ A B f m,
  match m with
  | Ok a => f a
  | Err e => Err e
  | Panic => Panic
  | OutOfFuel => OutOfFuel
  end.

#[export] Instance outcome_eq_dec E A `{EqDecision E, EqDecision A} : EqDecision (outcome E A).
Proof. solve_decision. Defined.

Declare Scope go_scope.
Delimit Scope go_scope with go.
(** the guard of an early return: [if c { return ..., e }] *)
Notation "'return_err_if' c 'with' e ';;' k" := (if c then Err e else k)
  (at level 10, c at level 99, e at level 99, k at level 200,
   format "'[v' 'return_err_if'  c  'with'  e  ';;' '/' k ']'") : go_scope.
(** statements in sequence, each a function of the state the last one left *)
Notation "m |>= f" := (mbind f m) (at level 62, left associativity) : go_scope.
#[global] Open Scope go_scope.

Definition is_ok {E A} (o : outcome E A) : bool := match o with Ok _ => true | _ => false end.

(** the two answers a total Go function may give *)
Definition returns {E A} (o : outcome E A) : Prop :=
  match o with Ok _ | Err _ => True | Panic | OutOfFuel => False end.

Lemma bind_Ok {E A B} (a : A) (f : A → outcome E B) : (Ok a ≫= f) = f a.
Proof. done. Qed.

Lemma bind_Ok_inv {E A B} (m : outcome E A) (f : A → outcome E B) b :
  m ≫= f = Ok b → ∃ a, m = Ok a ∧ f a = Ok b.
Proof. destruct m; simpl; naive_solver. Qed.

Lemma returns_bind {E A B} (m : outcome E A) (f : A → outcome E B) :
  returns m → (∀ a, m = Ok a → returns (f a)) → returns (m ≫= f).
Proof. destruct m; simpl; naive_solver. Qed.

(** ** Machine integers

    The value of a w-bit Go integer is the [Z] it denotes; a conversion or an
    arithmetic result is wrapped to its width where the code can exceed it. *)
Definition u8 (z : Z) : Z := z mod 2 ^ 8.
Definition u16 (z : Z) : Z := z mod 2 ^ 16.
Definition u32 (z : Z) : Z := z mod 2 ^ 32.
Definition u64 (z : Z) : Z := z mod 2 ^ 64.
Definition i32 (z : Z) : Z := (z + 2 ^ 31) mod 2 ^ 32 - 2 ^ 31.
Definition i64 (z : Z) : Z := (z + 2 ^ 63) mod 2 ^ 64 - 2 ^ 63.

Definition is_u8 (z : Z) : Prop := 0 ≤ z < 2 ^ 8.
Definition is_u16 (z : Z) : Prop := 0 ≤ z < 2 ^ 16.
Definition is_u32 (z : Z) : Prop := 0 ≤ z < 2 ^ 32.
Definition is_u64 (z : Z) : Prop := 0 ≤ z < 2 ^ 64.
Definition is_i64 (z : Z) : Prop := - 2 ^ 63 ≤ z < 2 ^ 63.

Lemma u16_id z : is_u16 z → u16 z = z.
Proof. apply Z.mod_small. Qed.
Lemma u32_id z : is_u32 z → u32 z = z.
Proof. apply Z.mod_small. Qed.
Lemma u64_id z : is_u64 z → u64 z = z.
Proof. apply Z.mod_small. Qed.
Lemma i64_id z : is_i64 z → i64 z = z.
Proof. unfold is_i64, i64; intros. rewrite Z.mod_small; lia. Qed.
Lemma u16_range z : is_u16 (u16 z).
Proof. apply Z.mod_pos_bound. lia. Qed.
Lemma u32_range z : is_u32 (u32 z).
Proof. apply Z.mod_pos_bound. lia. Qed.
Lemma u64_range z : is_u64 (u64 z).
Proof. apply Z.mod_pos_bound. lia. Qed.
Lemma i64_range z : is_i64 (i64 z).
Proof. unfold is_i64, i64. pose proof (Z.mod_pos_bound (z + 2 ^ 63) (2 ^ 64)). lia. Qed.

(** ** Time

    [time.Time] and [time.Duration] are nanoseconds; [time.Since] saturates at
    the ends of the 64-bit duration range. *)
Definition Second : Z := 1000000000.
Definition Minute : Z := 60 * Second.
Definition Hour : Z := 60 * Minute.
Definition min_duration : Z := - 2 ^ 63.
Definition max_duration : Z := 2 ^ 63 - 1.
(** the zero [time.Time]: January 1, year 1, relative to the Unix epoch *)
Definition zero_time : Z := -62135596800 * Second.
Definition time_since (now t : Z) : Z := Z.max min_duration (Z.min max_duration (now - t)).

Lemma time_since_ge now t d :
  is_i64 d → d ≤ time_since now t ↔ d ≤ now - t ∨ d = min_duration.
Proof. unfold is_i64, time_since, min_duration, max_duration. lia. Qed.

Lemma time_since_lt now t d :
  0 ≤ d → is_i64 d → time_since now t < d ↔ now - t < d.
Proof. unfold is_i64, time_since, min_duration, max_duration. lia. Qed.

(** ** Bytes *)
Definition byte_val (b : byte) : Z := Z.of_N (Byte.to_N b).
Definition byte_of (z : Z) : byte := default x00 (Byte.of_N (Z.to_N (z mod 256))).

Lemma byte_val_range b : 0 ≤ byte_val b < 256.
Proof. unfold byte_val. pose proof (Byte.to_N_bounded b). lia. Qed.

Lemma byte_val_of z : byte_val (byte_of z) = z mod 256.
Proof.
  unfold byte_val, byte_of. pose proof (Z.mod_pos_bound z 256 ltac:(lia)) as Hz.
  destruct (Byte.of_N (Z.to_N (z mod 256))) as [b|] eqn:E; simpl.
  - apply Byte.to_of_N in E. rewrite E. lia.
  - apply Byte.of_N_None_iff in E. lia.
Qed.

Lemma byte_val_inj b1 b2 : byte_val b1 = byte_val b2 → b1 = b2.
Proof.
  unfold byte_val. intros H%N2Z.inj.
  pose proof (Byte.of_to_N b1). pose proof (Byte.of_to_N b2). congruence.
Qed.

Lemma byte_of_val b : byte_of (byte_val b) = b.
Proof. apply byte_val_inj. rewrite byte_val_of. apply Z.mod_small, byte_val_range. Qed.

#[export] Instance byte_eq_dec : EqDecision byte := Byte.byte_eq_dec.
#[export] Instance byte_countable : Countable byte.
Proof.
  refine (inj_countable' Byte.to_N (λ n, default x00 (Byte.of_N n)) _).
  intros b. by rewrite Byte.of_to_N.
Defined.

(** the bytes of a Go string and back *)
Definition str_bytes (s : string) : list byte := String.list_byte_of_string s.
Definition bytes_str (l : list byte) : string := String.string_of_list_byte l.

Lemma bytes_str_bytes s : bytes_str (str_bytes s) = s.
Proof. apply String.string_of_list_byte_of_string. Qed.
Lemma str_bytes_str l : str_bytes (bytes_str l) = l.
Proof. apply String.list_byte_of_string_of_list_byte. Qed.
#[export] Instance str_bytes_inj : Inj (=) (=) str_bytes.
Proof. intros s t H. by rewrite <-(bytes_str_bytes s), H, bytes_str_bytes. Qed.
Lemma str_bytes_app s t : str_bytes (s +:+ t) = str_bytes s ++ str_bytes t.
Proof.
  induction s as [|a s IH]; [done|]. change (String a s +:+ t) with (String a (s +:+ t)).
  unfold str_bytes in *. cbn [String.list_byte_of_string]. unfold String.list_byte_of_string in *. simpl. by rewrite IH.
Qed.

(** [len] of a slice or string as the Go [int] it returns *)
Definition zlen {A} (l : list A) : Z := Z.of_nat (length l).
Lemma zlen_nonneg {A} (l : list A) : 0 ≤ zlen l.
Proof. unfold zlen. lia. Qed.
Lemma zlen_app {A} (l k : list A) : zlen (l ++ k) = zlen l + zlen k.
Proof. unfold zlen. rewrite length_app. lia. Qed.
Lemma zlen_cons {A} (x : A) l : zlen (x :: l) = 1 + zlen l.
Proof. unfold zlen. simpl. lia. Qed.
Lemma zlen_nil {A} : zlen (@nil A) = 0.
Proof. done. Qed.
Lemma zlen_0 {A} (l : list A) : zlen l = 0 → l = [].
Proof. destruct l; [done|]. rewrite zlen_cons. pose proof (zlen_nonneg l). lia. Qed.

Create HintDb p2p.
Create Rewrite HintDb zlen.
#[export] Hint Rewrite @zlen_app @zlen_cons @zlen_nil : zlen.
#[export] Hint Resolve zlen_nonneg byte_val_range u64_range i64_range : p2p.

(** solves goals on machine integers once their definitions are unfolded *)
Ltac int_lia :=
  unfold is_u8, is_u16, is_u32, is_u64, is_i64, min_duration, max_duration in *; lia.

(** ** Sums over the values of a map *)
Section MapSum.
Context {K : Type} `{Countable K} {V : Type}.

Definition map_sum (f : V → Z) (m : gmap K V) : Z := map_fold (λ _ v acc, f v + acc) 0 m.

Lemma map_sum_empty f : map_sum f ∅ = 0.
Proof. apply map_fold_empty. Qed.

Lemma map_sum_insert f m k v :
  m !! k = None → map_sum f (<[k:=v]> m) = f v + map_sum f m.
Proof.
  intros Hk. unfold map_sum. rewrite map_fold_insert_L; [done| |done].
  intros. lia.
Qed.

Lemma map_sum_delete f m k v :
  m !! k = Some v → map_sum f m = f v + map_sum f (delete k m).
Proof.
  intros Hk. rewrite <-(insert_delete_id m k v) at 1 by done.
  apply map_sum_insert, lookup_delete_eq.
Qed.

Lemma map_sum_nonneg f m : (∀ v, 0 ≤ f v) → 0 ≤ map_sum f m.
Proof.
  intros Hf. induction m as [|k v m Hk IH] using map_ind.
  - by rewrite map_sum_empty.
  - rewrite map_sum_insert by done. specialize (Hf v). lia.
Qed.

Lemma map_sum_pos f m :
  (∀ v, 0 ≤ f v) → 0 < map_sum f m ↔ ∃ k v, m !! k = Some v ∧ 0 < f v.
Proof.
  intros Hf. split.
  - induction m as [|k v m Hk IH] using map_ind; [by rewrite map_sum_empty|].
    rewrite map_sum_insert by done. intros Hsum.
    destruct (decide (0 < f v)); [exists k, v; by rewrite lookup_insert_eq|].
    destruct IH as (k' & v' & Hk' & Hv'); [specialize (Hf v); lia|].
    exists k', v'. split; [|done]. rewrite lookup_insert_ne; [done|]. congruence.
  - intros (k & v & Hk & Hv). rewrite (map_sum_delete f m k v) by done.
    pose proof (map_sum_nonneg f (delete k m) Hf). lia.
Qed.

Lemma map_sum_le f g m : (∀ v, f v ≤ g v) → map_sum f m ≤ map_sum g m.
Proof.
  intros Hfg. induction m as [|k v m Hk IH] using map_ind; [by rewrite !map_sum_empty|].
  rewrite !map_sum_insert by done. specialize (Hfg v). lia.
Qed.

Lemma map_sum_delete_le f m k : (∀ v, 0 ≤ f v) → map_sum f (delete k m) ≤ map_sum f m.
Proof.
  intros Hf. destruct (m !! k) as [v|] eqn:Hk; [|by rewrite delete_id].
  rewrite (map_sum_delete f m k v) by done. specialize (Hf v). lia.
Qed.

Lemma map_sum_insert_le f m k v : (∀ v, 0 ≤ f v) → map_sum f (<[k:=v]> m) ≤ f v + map_sum f m.
Proof.
  intros Hf. rewrite <-insert_delete_eq, map_sum_insert by apply lookup_delete_eq.
  pose proof (map_sum_delete_le f m k Hf). lia.
Qed.

Lemma map_sum_add f g m : map_sum (λ v, f v + g v) m = map_sum f m + map_sum g m.
Proof.
  induction m as [|k v m Hk IH] using map_ind; [by rewrite !map_sum_empty|].
  rewrite !map_sum_insert, IH by done. lia.
Qed.

Lemma map_sum_ext f g m : (∀ v, f v = g v) → map_sum f m = map_sum g m.
Proof.
  intros Hfg. induction m as [|k v m Hk IH] using map_ind; [by rewrite !map_sum_empty|].
  rewrite !map_sum_insert, IH, Hfg by done. done.
Qed.

Lemma map_sum_size m : map_sum (λ _, 1) m = Z.of_nat (size m).
Proof.
  induction m as [|k v m Hk IH] using map_ind; [by rewrite map_sum_empty, map_size_empty|].
  rewrite map_sum_insert, IH, map_size_insert_None by done. lia.
Qed.
End MapSum.

Definition bool_Z (b : bool) : Z := if b then 1 else 0.
Lemma bool_Z_nonneg b : 0 ≤ bool_Z b.
Proof. by destruct b. Qed.
#[export] Hint Resolve bool_Z_nonneg : p2p.

(** ** Go maps whose values are numbers: a missing key reads as zero *)
Definition get0 {K} `{Countable K} (m : gmap K Z) (k : K) : Z := default 0 (m !! k).
