(* ===== verification/Regexp.v ===== *)
(** * Regular expressions of the standard library

    The fragment of package [regexp] that [endpoint.go] uses, anchored at both
    ends: classes of characters, sequence, star and bounded repetition.
    [rmatch] decides by derivatives the language that [matches] denotes. *)
From S2P Require Import Prelude.

Inductive regex : Type :=
  | RNone
  | REps
  | RClass (f : byte → bool)
  | RSeq (r s : regex)
  | RAlt (r s : regex)
  | RStar (r : regex)
  | RUpto (r : regex) (n : nat). (* r{0,n} *)

Inductive matches : regex → list byte → Prop :=
  | m_eps : matches REps []
  | m_class f c : f c = true → matches (RClass f) [c]
  | m_seq r s u v : matches r u → matches s v → matches (RSeq r s) (u ++ v)
  | m_alt_l r s u : matches r u → matches (RAlt r s) u
  | m_alt_r r s u : matches s u → matches (RAlt r s) u
  | m_star_nil r : matches (RStar r) []
  | m_star_app r u v : matches r u → matches (RStar r) v → matches (RStar r) (u ++ v)
  | m_upto_nil r n : matches (RUpto r n) []
  | m_upto_app r n u v : matches r u → matches (RUpto r n) v → matches (RUpto r (S n)) (u ++ v).

Fixpoint nullable (r : regex) : bool :=
  match r with
  | RNone | RClass _ => false
  | REps | RStar _ | RUpto _ _ => true
  | RSeq r s => nullable r && nullable s
  | RAlt r s => nullable r || nullable s
  end.

Fixpoint deriv (c : byte) (r : regex) : regex :=
  match r with
  | RNone | REps => RNone
  | RClass f => if f c then REps else RNone
  | RSeq r s => if nullable r then RAlt (RSeq (deriv c r) s) (deriv c s) else RSeq (deriv c r) s
  | RAlt r s => RAlt (deriv c r) (deriv c s)
  | RStar r => RSeq (deriv c r) (RStar r)
  | RUpto r n => match n with O => RNone | S n => RSeq (deriv c r) (RUpto r n) end
  end.

Fixpoint rmatch (r : regex) (l : list byte) : bool :=
  match l with
  | [] => nullable r
  | c :: l => rmatch (deriv c r) l
  end.

#[local] Hint Constructors matches : p2p.

Lemma nullable_matches r : nullable r = true ↔ matches r [].
Proof.
  split.
  - induction r; simpl; intros; try discriminate; eauto with p2p.
    + apply andb_true_iff in H as [??]. apply (m_seq _ _ [] []); auto.
    + apply orb_true_iff in H as [?|?]; auto with p2p.
  - remember [] as l eqn:El. intros H. revert El.
    induction H; simpl; intros El; try done;
      try (apply app_nil in El as [-> ->]); repeat match goal with
      | IH : _ → nullable _ = true |- _ => rewrite IH by done end; try done.
    apply orb_true_r.
Qed.

Lemma matches_upto_le r n m l : (n ≤ m)%nat → matches (RUpto r n) l → matches (RUpto r m) l.
Proof.
  remember (RUpto r n) as q eqn:Eq. intros Hle H. revert n m Hle Eq.
  induction H; intros n' m Hle Eq; simplify_eq; [constructor|].
  destruct m as [|m]; [lia|]. apply m_upto_app; [done|]. eapply IHmatches2; [|done]. lia.
Qed.

Lemma matches_star_cons r c l :
  matches (RStar r) (c :: l) → ∃ u v, l = u ++ v ∧ matches r (c :: u) ∧ matches (RStar r) v.
Proof.
  remember (RStar r) as q eqn:Eq. remember (c :: l) as w eqn:Ew. intros H. revert Eq Ew.
  induction H; intros Eq Ew; simplify_eq.
  destruct u as [|d u]; simplify_eq/=; [eauto|]. eauto.
Qed.

Lemma matches_upto_cons r n c l :
  matches (RUpto r n) (c :: l) →
  ∃ u v m, n = S m ∧ l = u ++ v ∧ matches r (c :: u) ∧ matches (RUpto r m) v.
Proof.
  remember (RUpto r n) as q eqn:Eq. remember (c :: l) as w eqn:Ew. intros H. revert n Eq Ew.
  induction H; intros n' Eq Ew; simplify_eq.
  destruct u as [|d u]; simplify_eq/=; [|by eauto 10].
  destruct (IHmatches2 _ eq_refl eq_refl) as (u & w & m & -> & -> & ? & ?).
  exists u, w, (S m). split_and!; [done..|]. eapply matches_upto_le; [|done]. lia.
Qed.

Lemma deriv_sound r c l : matches (deriv c r) l → matches r (c :: l).
Proof.
  revert l. induction r; simpl; intros l H; try by inversion H.
  - destruct (f c) eqn:E; inversion H; subst. auto with p2p.
  - destruct (nullable r1) eqn:E.
    + inversion H as [| | |? ? ? H1|? ? ? H1| | | |]; subst.
      * inversion H1; subst. rewrite app_comm_cons. auto with p2p.
      * apply (m_seq _ _ [] (c :: l)); [by apply nullable_matches|auto].
    + inversion H; subst. rewrite app_comm_cons. auto with p2p.
  - inversion H; subst; auto with p2p.
  - inversion H; subst. rewrite app_comm_cons. auto with p2p.
  - destruct n; inversion H; subst. rewrite app_comm_cons. auto with p2p.
Qed.

Lemma deriv_complete r c l : matches r (c :: l) → matches (deriv c r) l.
Proof.
  revert l. induction r; simpl; intros l H.
  1, 2: by inversion H.
  - inversion H as [|? ? Hf| | | | | | |]; subst. rewrite Hf. constructor.
  - inversion H as [| |? ? u v Hu Hv Hl| | | | | |]; subst. destruct u as [|d u]; simplify_eq/=.
    + apply nullable_matches in Hu as ->. auto with p2p.
    + destruct (nullable r1); auto with p2p.
  - inversion H; subst; auto with p2p.
  - destruct (matches_star_cons _ _ _ H) as (u & v & -> & ? & ?). auto with p2p.
  - destruct (matches_upto_cons _ _ _ _ H) as (u & v & m & -> & -> & ? & ?). auto with p2p.
Qed.

Lemma rmatch_spec r l : rmatch r l = true ↔ matches r l.
Proof.
  revert r. induction l as [|c l IH]; intros r; simpl; [apply nullable_matches|].
  rewrite IH. split; [apply deriv_sound|apply deriv_complete].
Qed.
