(* ===== verification/GoStd.v ===== *)
(** * Standard-library functions the package calls

    [strconv.Atoi], [strings.Split] and [strings.TrimSpace],
    [net.SplitHostPort], [net.ParseIP] and [encoding/binary]'s byte orders, as
    executable functions on the bytes of a string.  Errors of the parsers carry
    no value: every caller in the package only tests for [err != nil]. *)
From S2P Require Import Prelude.

Abbreviation ch := byte_val (only parsing).
Definition c_colon : byte := x3a.
Definition c_dot : byte := x2e.
Definition c_comma : byte := x2c.
Definition c_lbracket : byte := x5b.
Definition c_rbracket : byte := x5d.
Definition c_minus : byte := x2d.
Definition c_plus : byte := x2b.

Definition in_range (lo hi : byte) (c : byte) : bool :=
  (ch lo <=? ch c) && (ch c <=? ch hi).
Definition is_digit : byte → bool := in_range x30 x39.
Definition is_upper : byte → bool := in_range x41 x5a.
Definition is_lower : byte → bool := in_range x61 x7a.

(** ** strconv.Atoi *)
Fixpoint digits_value (acc : Z) (l : list byte) : option Z :=
  match l with
  | [] => Some acc
  | c :: l => if is_digit c then digits_value (acc * 10 + (ch c - 48)) l else None
  end.

Definition Atoi_bytes (l : list byte) : option Z :=
  let '(neg, ds) := match l with
    | c :: l' => if decide (c = c_minus) then (true, l')
                 else if decide (c = c_plus) then (false, l') else (false, l)
    | [] => (false, l)
    end in
  match ds with
  | [] => None (* ErrSyntax *)
  | _ => v ← digits_value 0 ds;
         let v := if neg : bool then - v else v in
         if (- 2 ^ 63 <=? v) && (v <? 2 ^ 63) then Some v else None (* ErrRange *)
  end.
Definition Atoi (s : string) : option Z := Atoi_bytes (str_bytes s).

(** ** strings *)
(** position of the first and last occurrence of a byte *)
Fixpoint index_byte (c : byte) (l : list byte) : option nat :=
  match l with
  | [] => None
  | d :: l => if decide (d = c) then Some O else S <$> index_byte c l
  end.
Fixpoint last_index_byte (c : byte) (l : list byte) : option nat :=
  match l with
  | [] => None
  | d :: l => match last_index_byte c l with
              | Some i => Some (S i)
              | None => if decide (d = c) then Some O else None
              end
  end.

(** strings.Split for a separator of one byte *)
Fixpoint Split (c : byte) (l : list byte) : list (list byte) :=
  match l with
  | [] => [[]]
  | d :: l => if decide (d = c) then [] :: Split c l
              else match Split c l with
                   | w :: ws => (d :: w) :: ws
                   | [] => [[d]]
                   end
  end.

(** the UTF-8 encodings of the characters [unicode.IsSpace] holds of *)
Definition spaces : list (list byte) :=
  [[x09]; [x0a]; [x0b]; [x0c]; [x0d]; [x20]; [xc2; x85]; [xc2; xa0]; [xe1; x9a; x80];
   [xe2; x80; x80]; [xe2; x80; x81]; [xe2; x80; x82]; [xe2; x80; x83]; [xe2; x80; x84];
   [xe2; x80; x85]; [xe2; x80; x86]; [xe2; x80; x87]; [xe2; x80; x88]; [xe2; x80; x89];
   [xe2; x80; x8a]; [xe2; x80; xa8]; [xe2; x80; xa9]; [xe2; x80; xaf]; [xe2; x81; x9f];
   [xe3; x80; x80]].

Fixpoint strip_prefix (p l : list byte) : option (list byte) :=
  match p, l with
  | [], _ => Some l
  | c :: p, d :: l => if decide (c = d) then strip_prefix p l else None
  | _ :: _, [] => None
  end.
Definition strip_any (ps : list (list byte)) (l : list byte) : option (list byte) :=
  head (omap (λ p, strip_prefix p l) ps).
Fixpoint trim_left (fuel : nat) (ps : list (list byte)) (l : list byte) : list byte :=
  match fuel with
  | O => l
  | S fuel => match strip_any ps l with
              | Some l' => trim_left fuel ps l'
              | None => l
              end
  end.
Definition TrimSpace_bytes (l : list byte) : list byte :=
  let l := trim_left (length l) spaces l in
  reverse (trim_left (length l) (reverse <$> spaces) (reverse l)).
Definition TrimSpace (s : string) : string := bytes_str (TrimSpace_bytes (str_bytes s)).

(** ** net.SplitHostPort *)
Definition SplitHostPort_bytes (l : list byte) : option (list byte * list byte) :=
  match last_index_byte c_colon l with
  | None => None (* missing port *)
  | Some i =>
      let finish host j k :=
        match index_byte c_lbracket (drop j l), index_byte c_rbracket (drop k l) with
        | None, None => Some (host, drop (S i) l)
        | _, _ => None
        end in
      if decide (head l = Some c_lbracket) then
        match index_byte c_rbracket l with
        | None => None (* missing ']' *)
        | Some e => if decide (S e = i) then finish (drop 1 (take e l)) 1%nat (S e) else None
        end
      else
        let host := take i l in
        match index_byte c_colon host with
        | Some _ => None (* too many colons *)
        | None => finish host O O
        end
  end.
Definition SplitHostPort (s : string) : option (string * string) :=
  '(h, p) ← SplitHostPort_bytes (str_bytes s); Some (bytes_str h, bytes_str p).

(** ** net.ParseIP

    The result is the 16-byte form, as in Go. *)
Definition big : Z := 16777215. (* 0xFFFFFF *)

(** [dtoi]/[xtoi]: the value of the longest prefix of digits and its length;
    fails on an empty prefix or a value of at least [big] *)
Fixpoint scan_digits (base : Z) (val : byte → option Z) (n : Z) (i : nat) (l : list byte)
    : option (Z * nat) :=
  let stop := match i with O => None | S _ => Some (n, i) end in
  match l with
  | [] => stop
  | c :: l => match val c with
              | None => stop
              | Some d => let n := n * base + d in
                          if big <=? n then None else scan_digits base val n (S i) l
              end
  end.
Definition dec_digit (c : byte) : option Z := if is_digit c then Some (ch c - 48) else None.
Definition hex_digit (c : byte) : option Z :=
  if is_digit c then Some (ch c - 48)
  else if in_range x61 x66 c then Some (ch c - 97 + 10)
  else if in_range x41 x46 c then Some (ch c - 65 + 10)
  else None.
Definition dtoi (l : list byte) := scan_digits 10 dec_digit 0 O l.
Definition xtoi (l : list byte) := scan_digits 16 hex_digit 0 O l.

Fixpoint parseIPv4_fields (n : nat) (first : bool) (l : list byte) : option (list byte) :=
  match n with
  | O => match l with [] => Some [] | _ => None end
  | S n =>
      l ← (if first then Some l
           else match l with c :: l => if decide (c = c_dot) then Some l else None | [] => None end);
      '(v, c) ← dtoi l;
      if 255 <? v then None
      else rest ← parseIPv4_fields n false (drop c l); Some (byte_of v :: rest)
  end.
(** the four bytes of a dotted decimal address *)
Definition parseIPv4 (l : list byte) : option (list byte) := parseIPv4_fields 4 true l.
Definition v4InV6Prefix : list byte := replicate 10 x00 ++ [xff; xff].

(** the loop of [parseIPv6]: [ip] holds the bytes written so far and [ellipsis]
    the position of "::" in them; yields both and the rest of the string *)
Fixpoint parseIPv6_loop (fuel : nat) (l ip : list byte) (ellipsis : option nat)
    : option (list byte * option nat * list byte) :=
  if decide (16 ≤ length ip)%nat then Some (ip, ellipsis, l) else
  match fuel with
  | O => None
  | S fuel =>
      '(n, c) ← xtoi l;
      if 65535 <? n then None else
      if decide (l !! c = Some c_dot) then
        if bool_decide (ellipsis = None) && bool_decide (length ip ≠ 12%nat) then None else
        if decide (16 < length ip + 4)%nat then None else
        ip4 ← parseIPv4 l; Some (ip ++ ip4, ellipsis, [])
      else
        let ip := ip ++ [byte_of (n / 256); byte_of n] in
        match drop c l with
        | [] => Some (ip, ellipsis, [])
        | d :: l =>
            if bool_decide (d ≠ c_colon) || bool_decide (l = []) then None else
            match l with
            | e :: l' =>
                if decide (e = c_colon) then
                  match ellipsis with
                  | Some _ => None
                  | None => match l' with
                            | [] => Some (ip, Some (length ip), [])
                            | _ => parseIPv6_loop fuel l' ip (Some (length ip))
                            end
                  end
                else parseIPv6_loop fuel l ip ellipsis
            | [] => None
            end
        end
  end.

Definition parseIPv6 (l : list byte) : option (list byte) :=
  let '(ellipsis, l) := match l with
    | a :: b :: l' => if bool_decide (a = c_colon) && bool_decide (b = c_colon)
                      then (Some O, l') else (None, l)
    | _ => (None, l)
    end in
  if bool_decide (ellipsis = Some O) && bool_decide (l = []) then Some (replicate 16 x00) else
  '(ip, ellipsis, rest) ← parseIPv6_loop 9 l [] ellipsis;
  match rest with
  | _ :: _ => None
  | [] =>
      if decide (length ip < 16)%nat then
        match ellipsis with
        | None => None
        | Some e => Some (take e ip ++ replicate (16 - length ip) x00 ++ drop e ip)
        end
      else match ellipsis with Some _ => None | None => Some ip end
  end.

Fixpoint ParseIP_dispatch (rest l : list byte) : option (list byte) :=
  match rest with
  | [] => None
  | c :: rest => if decide (c = c_dot) then (v4InV6Prefix ++.) <$> parseIPv4 l
                 else if decide (c = c_colon) then parseIPv6 l
                 else ParseIP_dispatch rest l
  end.
Definition ParseIP_bytes (l : list byte) : option (list byte) := ParseIP_dispatch l l.
Definition ParseIP (s : string) : option (list byte) := ParseIP_bytes (str_bytes s).

(** ** encoding/binary *)
Fixpoint le_bytes (n : nat) (z : Z) : list byte :=
  match n with
  | O => []
  | S n => byte_of z :: le_bytes n (Z.shiftr z 8)
  end.
Fixpoint le_value (l : list byte) : Z :=
  match l with
  | [] => 0
  | b :: l => byte_val b + 256 * le_value l
  end.
(** [LittleEndian.PutUint64]/[Uint64] and [BigEndian.PutUint32]/[Uint32] *)
Definition le_PutUint64 (z : Z) : list byte := le_bytes 8 z.
Definition le_Uint64 (l : list byte) : Z := le_value (take 8 l).
Definition be_PutUint32 (z : Z) : list byte := reverse (le_bytes 4 z).
Definition be_Uint32 (l : list byte) : Z := le_value (reverse (take 4 l)).

Lemma le_bytes_length n z : length (le_bytes n z) = n.
Proof. revert z. induction n; simpl; auto. Qed.

Lemma le_value_bytes n z : le_value (le_bytes n z) = z mod 2 ^ (8 * Z.of_nat n).
Proof.
  revert z. induction n as [|n IH]; intros z; simpl.
  { by rewrite Z.mod_1_r. }
  rewrite byte_val_of, IH, Z.shiftr_div_pow2 by lia.
  replace (8 * Z.of_nat (S n)) with (8 + 8 * Z.of_nat n) by lia.
  rewrite Z.pow_add_r by lia. change (2 ^ 8) with 256.
  rewrite Z.rem_mul_r by lia. lia.
Qed.

Lemma le_value_range l : 0 ≤ le_value l < 2 ^ (8 * zlen l).
Proof.
  induction l as [|b l IH]; [done|]. cbn [le_value]. rewrite zlen_cons.
  pose proof (byte_val_range b). pose proof (zlen_nonneg l).
  replace (8 * (1 + zlen l)) with (8 + 8 * zlen l) by lia.
  rewrite Z.pow_add_r by lia. change (2 ^ 8) with 256. lia.
Qed.

Lemma le_Uint64_Put z : is_u64 z → le_Uint64 (le_PutUint64 z) = z.
Proof.
  intros. unfold le_Uint64, le_PutUint64. rewrite take_ge by (by rewrite le_bytes_length).
  rewrite le_value_bytes. by apply Z.mod_small.
Qed.

Lemma be_PutUint32_length z : length (be_PutUint32 z) = 4%nat.
Proof. unfold be_PutUint32. by rewrite length_reverse, le_bytes_length. Qed.

Lemma be_Uint32_Put z : is_u32 z → be_Uint32 (be_PutUint32 z) = z.
Proof.
  intros. unfold be_Uint32. rewrite take_ge by (by rewrite be_PutUint32_length).
  unfold be_PutUint32. rewrite reverse_involutive, le_value_bytes. by apply Z.mod_small.
Qed.

Lemma be_Uint32_range l : is_u32 (be_Uint32 l).
Proof.
  unfold be_Uint32, is_u32. pose proof (le_value_range (reverse (take 4 l))) as H.
  unfold zlen in H. rewrite length_reverse, length_take in H.
  assert (2 ^ (8 * Z.of_nat (4 `min` length l)) ≤ 2 ^ 32) by (apply Z.pow_le_mono_r; lia). lia.
Qed.

(** strings.Split and strings.Join are inverse *)
Lemma Split_nonempty c l : Split c l ≠ [].
Proof. destruct l; simpl; repeat case_decide; repeat case_match; done. Qed.

Lemma last_index_byte_spec c l :
  match last_index_byte c l with
  | Some i => ∃ p q, l = p ++ c :: q ∧ length p = i ∧ c ∉ q
  | None => c ∉ l
  end.
Proof.
  induction l as [|d l IH]; simpl; [set_solver|].
  destruct (last_index_byte c l) as [i|].
  - destruct IH as (p & q & -> & <- & Hq). by exists (d :: p), q.
  - case_decide as Hd; subst; [by exists [], l|]. set_solver.
Qed.

Lemma index_byte_Some c l i :
  index_byte c l = Some i → ∃ p q, l = p ++ c :: q ∧ length p = i.
Proof.
  revert i. induction l as [|d l IH]; simpl; intros i H; [done|].
  case_decide as Hd; simplify_eq; [by exists [], l|].
  apply fmap_Some in H as (j & (p & q & -> & <-)%IH & ->). by exists (d :: p), q.
Qed.

Lemma index_byte_None c l : index_byte c l = None ↔ c ∉ l.
Proof.
  induction l as [|d l IH]; simpl; [set_solver|].
  case_decide; [set_solver|]. destruct (index_byte c l); simpl; set_solver.
Qed.

Lemma Split_no c l : c ∉ l → Split c l = [l].
Proof.
  induction l as [|d l IH]; [done|]. rewrite not_elem_of_cons. intros [? ?]. simpl.
  rewrite decide_False by done. by rewrite IH.
Qed.

Lemma Split_app c w l : c ∉ w → Split c (w ++ c :: l) = w :: Split c l.
Proof.
  induction w as [|d w IH]; simpl; [by rewrite decide_True|].
  rewrite not_elem_of_cons. intros [? ?]. rewrite decide_False by done. by rewrite IH.
Qed.

Lemma Split_cases c l :
  ((c ∉ l) ∧ Split c l = [l]) ∨ (∃ w r, l = w ++ c :: r ∧ (c ∉ w) ∧ Split c l = w :: Split c r).
Proof.
  destruct (decide (c ∈ l)) as [H|H]; [right|left; auto using Split_no].
  apply list_elem_of_split_l in H as (w & r & -> & Hw).
  exists w, r. split_and!; [done..|]. by apply Split_app.
Qed.

Lemma Split_ind c (P : list byte → Prop) :
  (∀ l, c ∉ l → P l) → (∀ w l, c ∉ w → P l → P (w ++ c :: l)) → ∀ l, P l.
Proof.
  intros Hno Happ l. remember (length l) as n eqn:En. revert l En.
  induction (Nat.lt_wf_0 n) as [n _ IH]. intros l ->.
  destruct (Split_cases c l) as [[? _]|(w & r & -> & ? & _)]; [auto|].
  apply Happ; [done|]. eapply IH; [|done]. rewrite length_app. simpl. lia.
Qed.

(** what a split yields, joined again, is the input, but for brackets *)
Lemma SplitHostPort_bytes_Some l h p :
  SplitHostPort_bytes l = Some (h, p) →
  l = h ++ c_colon :: p ∨ l = [c_lbracket] ++ h ++ [c_rbracket; c_colon] ++ p.
Proof.
  unfold SplitHostPort_bytes. pose proof (last_index_byte_spec c_colon l) as Hl.
  destruct (last_index_byte c_colon l) as [i|]; [|done].
  destruct Hl as (a & b & El & <- & _).
  assert (Hdrop : drop (S (length a)) l = b).
  { rewrite El, drop_app_ge by lia.
    by replace (S (length a) - length a)%nat with 1%nat by lia. }
  rewrite Hdrop. case_decide as Hh.
  - destruct (index_byte c_rbracket l) as [e|] eqn:Ee; [|done].
    case_decide as He; [|done]. repeat (case_match; try done). intros [= <- <-]. right.
    apply index_byte_Some in Ee as (u & v & Eu & <-). rewrite Eu, take_app_length.
    assert (a = u ++ [c_rbracket] ∧ c_colon :: b = v) as [-> <-].
    { apply app_inj_1; [rewrite length_app; simpl; lia|].
      rewrite <-app_assoc. simpl. congruence. }
    destruct u as [|d u]; rewrite Eu in Hh; simplify_eq/=. by rewrite drop_0.
  - repeat (case_match; try done). intros [= <- <-]. left.
    rewrite El at 1. by rewrite El, take_app_length.
Qed.

(** a host without colons and brackets, joined to such a port, splits back *)
Lemma SplitHostPort_join h p :
  c_colon ∉ h → c_lbracket ∉ h → c_rbracket ∉ h →
  c_colon ∉ p → c_lbracket ∉ p → c_rbracket ∉ p →
  SplitHostPort_bytes (h ++ c_colon :: p) = Some (h, p).
Proof.
  intros Hh1 Hh2 Hh3 Hp1 Hp2 Hp3. unfold SplitHostPort_bytes.
  pose proof (last_index_byte_spec c_colon (h ++ c_colon :: p)) as Hi.
  destruct (last_index_byte _ _) as [i|]; [|set_solver].
  destruct Hi as (p' & q' & E & <- & Hq).
  assert (p' = h ∧ q' = p) as [-> ->].
  { apply app_eq_inv in E as [(k & -> & E)|(k & -> & E)]; destruct k as [|? k]; simplify_eq/=;
      rewrite ?app_nil_r in *; set_solver. }
  rewrite decide_False.
  2: { destruct h as [|c h]; simpl; [discriminate|]. intros [= ->]. set_solver. }
  rewrite take_app_length. rewrite (proj2 (index_byte_None _ h)) by done. simpl.
  rewrite !drop_0.
  assert (index_byte c_lbracket (h ++ c_colon :: p) = None) as ->
    by (apply index_byte_None; rewrite not_elem_of_app, not_elem_of_cons; done).
  assert (index_byte c_rbracket (h ++ c_colon :: p) = None) as ->
    by (apply index_byte_None; rewrite not_elem_of_app, not_elem_of_cons; done).
  do 2 f_equal. rewrite drop_app_ge by lia.
  by replace (S (length h) - length h)%nat with 1%nat by lia.
Qed.
