(* ===== verification/Sha.v ===== *)
(** * The hashes of Go's [crypto/sha1] and [crypto/sha256]

    The functions of FIPS 180-4 on lists of bytes, which the package uses to name
    networks and to recognise payloads it has seen. *)
From S2P Require Import Prelude GoStd.

Definition rotl (x n : Z) : Z := Z.lor (u32 (Z.shiftl x n)) (Z.shiftr x (32 - n)).
Definition rotr (x n : Z) : Z := rotl x (32 - n).

(** the message, a one bit, zeros, and the 64-bit length, in blocks of 64 bytes *)
Definition pad (m : list byte) : list byte :=
  let n := length m in
  m ++ x80 :: replicate ((119 - n mod 64) mod 64) x00 ++ reverse (le_bytes 8 (8 * Z.of_nat n)).

Fixpoint chunks {A} (fuel k : nat) (l : list A) : list (list A) :=
  match fuel, l with
  | S fuel, _ :: _ => take k l :: chunks fuel k (drop k l)
  | _, _ => []
  end.

Definition block_words (b : list byte) : list Z :=
  (λ w, le_value (reverse w)) <$> chunks 16 4 b.

Definition words_bytes (ws : list Z) : list byte :=
  ws ≫= λ w, reverse (le_bytes 4 w).

(** the message schedule: [step] computes the next word from the last sixteen *)
Fixpoint schedule (step : list Z → Z) (n : nat) (win : list Z) : list Z :=
  match n with
  | O => win
  | S n => match win with
           | [] => []
           | w :: win' => w :: schedule step n (win' ++ [step win])
           end
  end.
Definition word (l : list Z) (i : nat) : Z := default 0 (l !! i).

Definition add_words (a b : list Z) : list Z := zip_with (λ x y, u32 (x + y)) a b.

(** ** SHA-1 *)
Definition sha1_next (win : list Z) : Z :=
  rotl (Z.lxor (Z.lxor (word win 13) (word win 8)) (Z.lxor (word win 2) (word win 0))) 1.

Definition sha1_round (s : list Z) (tw : nat * Z) : list Z :=
  match s with
  | [a; b; c; d; e] =>
      let parity := Z.lxor (Z.lxor b c) d in
      let '(f, k) :=
        if Nat.ltb tw.1 20 then (Z.lxor d (Z.land b (Z.lxor c d)), 0x5A827999)
        else if Nat.ltb tw.1 40 then (parity, 0x6ED9EBA1)
        else if Nat.ltb tw.1 60 then (Z.lor (Z.lor (Z.land b c) (Z.land b d)) (Z.land c d), 0x8F1BBCDC)
        else (parity, 0xCA62C1D6) in
      [u32 (rotl a 5 + f + e + k + tw.2); a; rotl b 30; c; d]
  | _ => s
  end.

Definition sha1_block (h : list Z) (b : list byte) : list Z :=
  add_words h (foldl sha1_round h (zip (seq 0 80) (schedule sha1_next 64 (block_words b)))).

Definition sha1_Sum (m : list byte) : list byte :=
  let p := pad m in
  words_bytes (foldl sha1_block [0x67452301; 0xEFCDAB89; 0x98BADCFE; 0x10325476; 0xC3D2E1F0]
    (chunks (length p) 64 p)).

(** ** SHA-256 *)
(** The constants are given as what they are: the first 32 bits of the fractional
    parts of the cube roots of the first 64 primes, and of the square roots of the
    first eight. *)
Definition is_prime (p : Z) : bool :=
  forallb (λ d, negb (p mod Z.of_nat d =? 0)) (seq 2 (Z.to_nat (Z.sqrt p) - 1)).
Definition primes : list Z := filter (λ p, is_prime p = true) (Z.of_nat <$> seq 2 310).

(** the cube root rounded down, bit by bit from bit [n] *)
Fixpoint cube_root (n : nat) (acc x : Z) : Z :=
  match n with
  | O => acc
  | S n => let acc' := acc + 2 ^ Z.of_nat n in
           cube_root n (if acc' * acc' * acc' <=? x then acc' else acc) x
  end.

Definition sha256_k : list Z :=
  Eval vm_compute in (λ p, u32 (cube_root 36 0 (p * 2 ^ 96))) <$> take 64 primes.
Definition sha256_h0 : list Z :=
  Eval vm_compute in (λ p, u32 (Z.sqrt (p * 2 ^ 64))) <$> take 8 primes.

Definition sha256_next (win : list Z) : Z :=
  let s0 := let x := word win 1 in Z.lxor (Z.lxor (rotr x 7) (rotr x 18)) (Z.shiftr x 3) in
  let s1 := let x := word win 14 in Z.lxor (Z.lxor (rotr x 17) (rotr x 19)) (Z.shiftr x 10) in
  u32 (word win 0 + s0 + word win 9 + s1).

Definition sha256_round (s : list Z) (kw : Z * Z) : list Z :=
  match s with
  | [a; b; c; d; e; f; g; h] =>
      let S1 := Z.lxor (Z.lxor (rotr e 6) (rotr e 11)) (rotr e 25) in
      let ch := Z.lxor g (Z.land e (Z.lxor f g)) in
      let t1 := h + S1 + ch + kw.1 + kw.2 in
      let S0 := Z.lxor (Z.lxor (rotr a 2) (rotr a 13)) (rotr a 22) in
      let maj := Z.lor (Z.land a b) (Z.land c (Z.lor a b)) in
      [u32 (t1 + S0 + maj); a; b; c; u32 (d + t1); e; f; g]
  | _ => s
  end.

Definition sha256_block (h : list Z) (b : list byte) : list Z :=
  add_words h (foldl sha256_round h (zip sha256_k (schedule sha256_next 48 (block_words b)))).

Definition sha256_Sum256 (m : list byte) : list byte :=
  let p := pad m in
  words_bytes (foldl sha256_block sha256_h0 (chunks (length p) 64 p)).

(** the published values for "abc" and for the two-block message of the standard *)
Example sha1_abc : block_words (sha1_Sum (str_bytes "abc")) =
  [0xA9993E36; 0x4706816A; 0xBA3E2571; 0x7850C26C; 0x9CD0D89D].
Proof. by vm_compute. Qed.
Example sha1_two_blocks :
  block_words (sha1_Sum (str_bytes "abcdbcdecdefdefgefghfghighijhijkijkljklmklmnlmnomnopnopq")) =
  [0x84983E44; 0x1C3BD26E; 0xBAAE4AA1; 0xF95129E5; 0xE54670F1].
Proof. by vm_compute. Qed.
Example sha256_abc : block_words (sha256_Sum256 (str_bytes "abc")) =
  [0xBA7816BF; 0x8F01CFEA; 0x414140DE; 0x5DAE2223; 0xB00361A3; 0x96177A9C; 0xB410FF61; 0xF20015AD].
Proof. by vm_compute. Qed.
