(* ===== verification/NetworkId.v ===== *)
(** * Network identifiers ([networkId.go], [StringToUint32] of [util.go]) *)
From S2P Require Import Prelude GoStd Sha.

Definition MainNet : Z := 0xfeedbeef.
Definition TestNet : Z := 0xdeadbeef.
Definition LocalNet : Z := 0xbeaded.

Definition StringToUint32 (input : string) : Z := be_Uint32 (take 4 (sha256_Sum256 (str_bytes input))).
Definition NewNetworkID (name : string) : Z := StringToUint32 name.

(** [%x]: lower case hexadecimal without leading zeros *)
Definition hex_char (d : Z) : byte := byte_of (if d <? 10 then 48 + d else 87 + d).
Fixpoint hex_digits (fuel : nat) (n : Z) (acc : list byte) : list byte :=
  match fuel with
  | O => acc
  | S fuel =>
      let acc := hex_char (n mod 16) :: acc in
      if n <? 16 then acc else hex_digits fuel (n / 16) acc
  end.
Definition format_x (n : Z) : string := bytes_str (hex_digits 16 n []).

Definition NetworkID_String (n : Z) : string :=
  if n =? MainNet then "MainNet"
  else if n =? TestNet then "TestNet"
  else if n =? LocalNet then "LocalNet"
  else ("CustomNet ID: " +:+ format_x (u32 n))%string.

(** the cases of the package's own test *)
Example NetworkID_String_zero : NetworkID_String 0 = "CustomNet ID: 0"%string.
Proof. by vm_compute. Qed.
Example NetworkID_String_community :
  NetworkID_String (StringToUint32 "fct_community_test") = "CustomNet ID: 883e093b"%string.
Proof. by vm_compute. Qed.

(** ** The printed form identifies the network *)

Definition hex_char_val (c : byte) : Z :=
  let v := byte_val c in if v <? 87 then v - 48 else v - 87.
Definition hex_value (l : list byte) : Z := foldl (λ a c, a * 16 + hex_char_val c) 0 l.

Lemma hex_char_val_char d : 0 ≤ d < 16 → hex_char_val (hex_char d) = d.
Proof.
  intros Hd. unfold hex_char_val, hex_char. rewrite byte_val_of, Z.mod_small by (case_match; lia).
  destruct (Z.ltb_spec d 10); case_match; lia.
Qed.

Lemma foldl_hex_acc l a :
  foldl (λ a c, a * 16 + hex_char_val c) a l = a * 16 ^ Z.of_nat (length l) + hex_value l.
Proof.
  unfold hex_value. revert a. induction l as [|c l IH]; intros a; [simpl; lia|].
  cbn [foldl length]. rewrite (IH (a * 16 + hex_char_val c)), (IH (0 * 16 + hex_char_val c)).
  replace (Z.of_nat (S (length l))) with (Z.of_nat (length l) + 1) by lia.
  rewrite Z.pow_add_r by lia. lia.
Qed.

Lemma hex_digits_value fuel n acc :
  0 ≤ n < 16 ^ Z.of_nat fuel →
  hex_value (hex_digits fuel n acc) = n * 16 ^ Z.of_nat (length acc) + hex_value acc.
Proof.
  revert n acc. induction fuel as [|fuel IH]; intros n acc Hn; [simpl in Hn; replace n with 0 by lia; done|].
  cbn [hex_digits]. pose proof (Z.mod_pos_bound n 16 ltac:(lia)) as Hm.
  assert (Hcons : hex_value (hex_char (n mod 16) :: acc) =
    n mod 16 * 16 ^ Z.of_nat (length acc) + hex_value acc).
  { unfold hex_value at 1. cbn [foldl]. rewrite foldl_hex_acc.
    rewrite hex_char_val_char by done. lia. }
  destruct (Z.ltb_spec n 16).
  - rewrite Hcons, Z.mod_small by lia. done.
  - rewrite IH.
    + rewrite Hcons. simpl length. rewrite (Z_div_mod_eq_full n 16) at 3.
      replace (Z.of_nat (S (length acc))) with (Z.of_nat (length acc) + 1) by lia.
      rewrite Z.pow_add_r by lia. lia.
    + replace (Z.of_nat (S fuel)) with (Z.of_nat fuel + 1) in Hn by lia.
      rewrite Z.pow_add_r in Hn by lia. split; [apply Z.div_pos; lia|].
      apply Z.div_lt_upper_bound; lia.
Qed.

Lemma format_x_inj n m : is_u32 n → is_u32 m → format_x n = format_x m → n = m.
Proof.
  unfold is_u32. intros Hn Hm H. unfold format_x in H.
  apply (f_equal str_bytes) in H. rewrite !str_bytes_str in H.
  assert (Hlt : 2 ^ 32 < 16 ^ Z.of_nat 16) by done.
  apply (f_equal hex_value) in H. rewrite !hex_digits_value in H by lia.
  change (Z.of_nat (length (@nil byte))) with 0 in H. change (hex_value []) with 0 in H. lia.
Qed.

(** Two networks print alike only if they are the same: neither two custom
    identifiers nor a custom one and a named one share a printed form. *)
Theorem NetworkID_String_injective n m :
  is_u32 n → is_u32 m → NetworkID_String n = NetworkID_String m → n = m.
Proof.
  intros Hn Hm. unfold NetworkID_String. rewrite !u32_id by done.
  destruct (Z.eqb_spec n MainNet), (Z.eqb_spec n TestNet), (Z.eqb_spec n LocalNet),
    (Z.eqb_spec m MainNet), (Z.eqb_spec m TestNet), (Z.eqb_spec m LocalNet);
    try (intros; congruence); try discriminate.
  intros H. apply (f_equal str_bytes) in H. simpl in H.
  repeat (injection H as H). apply str_bytes_inj in H. by apply format_x_inj.
Qed.

Theorem NetworkID_String_injective_witness : MainNet = 0xfeedbeef.
Proof. apply NetworkID_String_injective; [unfold is_u32, MainNet; lia..|by vm_compute]. Defined.
