(* ===== verification/Endpoint.v ===== *)
(** * Endpoints ([endpoint.go], [parseSpecial] and the address helpers of [util.go])

    An endpoint is an internet location, a host and a port kept as the strings
    they arrived as.  Operations: construction with validation, parsing of
    "host:port", printing and comparison. *)
From S2P Require Import Prelude Regexp GoStd.

Record Endpoint : Type := MkEndpoint { IP : string; Port : string }.
#[export] Instance Endpoint_eq_dec : EqDecision Endpoint.
Proof. solve_decision. Defined.
#[export] Instance Endpoint_countable : Countable Endpoint :=
  inj_countable' (λ e, (IP e, Port e)) (λ p, MkEndpoint p.1 p.2) ltac:(by intros []).

(** [^([0-9A-Za-z][0-9A-Za-z\-]{0,62}\.)*[0-9A-Za-z][0-9A-Za-z\-]{0,62}$] *)
Definition is_alnum (c : byte) : bool := is_digit c || is_upper c || is_lower c.
Definition is_alnum_dash (c : byte) : bool := is_alnum c || bool_decide (c = c_minus).
Definition hostnameLabel : regex := RSeq (RClass is_alnum) (RUpto (RClass is_alnum_dash) 62).
Definition hostnameRegex : regex :=
  RSeq (RStar (RSeq hostnameLabel (RClass (λ c, bool_decide (c = c_dot))))) hostnameLabel.

Inductive endpoint_error : Type :=
  | ErrNotValid         (* NewEndpoint: not a valid endpoint *)
  | ErrSplitHostPort
  | ErrPortNumber
  | ErrPortRange.
#[export] Instance endpoint_error_eq_dec : EqDecision endpoint_error.
Proof. solve_decision. Defined.

Definition Endpoint_Valid (ep : Endpoint) : bool :=
  if bool_decide (IP ep = EmptyString) || bool_decide (Port ep = EmptyString)
     || (253 <? zlen (str_bytes (IP ep))) then false else
  match Atoi (Port ep) with
  | None => false
  | Some p =>
      if p =? 0 then false else
      match ParseIP (IP ep) with
      | None => rmatch hostnameRegex (str_bytes (IP ep))
      | Some _ => true
      end
  end.

Definition NewEndpoint (ip port : string) : outcome endpoint_error Endpoint :=
  let ep := MkEndpoint ip port in
  return_err_if negb (Endpoint_Valid ep) with ErrNotValid;;
  Ok ep.

Definition ParseEndpoint (s : string) : outcome endpoint_error Endpoint :=
  match SplitHostPort s with
  | None => Err ErrSplitHostPort
  | Some (ip, port) =>
      match Atoi port with
      | None => Err ErrPortNumber
      | Some p =>
          return_err_if (p <? 1) || (65535 <? p) with ErrPortRange;;
          NewEndpoint ip port
      end
  end.

(** [fmt.Sprintf("%s:%s", ep.IP, ep.Port)] *)
Definition Endpoint_String (ep : Endpoint) : string :=
  bytes_str (str_bytes (IP ep) ++ c_colon :: str_bytes (Port ep)).

Definition Endpoint_Equal (ep o : Endpoint) : bool :=
  bool_decide (IP ep = IP o) && bool_decide (Port ep = Port o).

(** [parseSpecial]: a comma separated list, all of it or an error *)
Fixpoint parseSpecial_items (items : list (list byte)) : outcome endpoint_error (list Endpoint) :=
  match items with
  | [] => Ok []
  | item :: items =>
      ep ← ParseEndpoint (TrimSpace (bytes_str item));
      eps ← parseSpecial_items items;
      Ok (ep :: eps)
  end.
Definition parseSpecial (raw : string) : outcome endpoint_error (list Endpoint) :=
  parseSpecial_items (Split c_comma (str_bytes raw)).

(** [IP2LocationQuick]: the last four bytes of the address, big endian *)
Definition IP2LocationQuick (addr : string) : Z :=
  match ParseIP addr with
  | None => 0
  | Some ip => be_Uint32 (if decide (length ip = 16%nat) then drop 12 ip else ip)
  end.

(** [IP2Location]: an address that is not an IP is looked up first.  [lookup] is
    [net.LookupHost]; its first answer is parsed again, and [Uint32] panics on fewer
    than four bytes. *)
Definition IP2Location (lookup : string → option (list string)) (addr : string) : outcome () Z :=
  let value (ip : option (list byte)) :=
    let ip := default [] ip in
    let ip := if decide (length ip = 16%nat) then drop 12 ip else ip in
    if (length ip <? 4)%nat then Panic else Ok (be_Uint32 ip) in
  match ParseIP addr with
  | Some ip => value (Some ip)
  | None =>
      match lookup addr with
      | None => Err tt
      | Some [] => Panic
      | Some (a :: _) => value (ParseIP a)
      end
  end.

(** ** Strings of endpoints *)

Lemma str_bytes_Endpoint_String ep :
  str_bytes (Endpoint_String ep) = str_bytes (IP ep) ++ c_colon :: str_bytes (Port ep).
Proof. apply str_bytes_str. Qed.

Lemma digits_value_digits acc l v c : digits_value acc l = Some v → c ∈ l → is_digit c = true.
Proof.
  revert acc. induction l as [|d l IH]; simpl; intros acc H Hc; [set_solver|].
  destruct (is_digit d) eqn:E; [|done]. apply elem_of_cons in Hc as [->|?]; eauto.
Qed.

Lemma Atoi_chars s v c :
  Atoi s = Some v → c ∈ str_bytes s → is_digit c = true ∨ c = c_minus ∨ c = c_plus.
Proof.
  unfold Atoi, Atoi_bytes. destruct (str_bytes s) as [|d l]; [done|].
  set (sd := if decide (d = c_minus) then _ else _). destruct sd as [neg ds] eqn:Esd.
  intros H Hc.
  assert (∃ u, digits_value 0 ds = Some u) as [u Hu].
  { destruct ds; [done|]. apply bind_Some in H as (u & ? & _). eauto. }
  revert Esd. unfold sd. repeat case_decide; intros; simplify_eq;
    apply elem_of_cons in Hc as [->|?]; eauto using digits_value_digits.
  all: left; eapply digits_value_digits; [done|set_solver].
Qed.

Lemma Atoi_no_char s v c :
  Atoi s = Some v → is_digit c = false → c ≠ c_minus → c ≠ c_plus → c ∉ str_bytes s.
Proof. intros Hs ??? Hc. destruct (Atoi_chars _ _ _ Hs Hc) as [|[]]; congruence. Qed.

Lemma Endpoint_Valid_port ep :
  Endpoint_Valid ep = true → ∃ p, Atoi (Port ep) = Some p ∧ p ≠ 0.
Proof.
  unfold Endpoint_Valid. repeat case_match; try done; intros; try (by eexists; split; [done|lia]).
Qed.

(** ** Characters of valid hosts *)

Definition is_host_char (c : byte) : bool := is_alnum_dash c || bool_decide (c = c_dot).

Lemma matches_class f l : matches (RClass f) l ↔ ∃ c, l = [c] ∧ f c = true.
Proof. split; [inversion 1; eauto|intros (c & -> & ?); by constructor]. Qed.

Lemma matches_upto_class f n l :
  matches (RUpto (RClass f) n) l ↔ (length l ≤ n)%nat ∧ forallb f l = true.
Proof.
  split.
  - remember (RUpto (RClass f) n) as r eqn:Er. intros H. revert n Er.
    induction H; intros m Er; simplify_eq; simpl; [split; [lia|done]|].
    apply matches_class in H as (c & -> & Hc). destruct (IHmatches2 _ eq_refl) as [? Hf].
    simpl. rewrite Hc, Hf. split; [lia|done].
  - revert n. induction l as [|c l IH]; intros n [Hn Hf]; [constructor|].
    simpl in Hn, Hf. apply andb_true_iff in Hf as [Hc Hf]. destruct n as [|n]; [lia|].
    apply (m_upto_app _ _ [c] l); [by apply matches_class; eauto|]. apply IH. split; [lia|done].
Qed.

(** one label of a host name, without the dot *)
Definition label_ok (w : list byte) : bool :=
  match w with
  | [] => false
  | c :: w => is_alnum c && forallb is_alnum_dash w && (length w <=? 62)%nat
  end.

Lemma matches_label w : matches hostnameLabel w ↔ label_ok w = true.
Proof.
  unfold label_ok, hostnameLabel. split.
  - inversion 1 as [| |? ? u v Hu Hv| | | | | |]; subst.
    apply matches_class in Hu as (c & -> & Hc). apply matches_upto_class in Hv as [Hl Hf].
    simpl. rewrite Hc, Hf. simpl. by apply Nat.leb_le.
  - destruct w as [|c w]; [done|]. rewrite !andb_true_iff, Nat.leb_le. intros [[??]?].
    apply (m_seq _ _ [c] w); [by apply matches_class; eauto|]. by apply matches_upto_class.
Qed.

Lemma label_no_dot w : label_ok w = true → c_dot ∉ w.
Proof.
  destruct w as [|c w]; [done|]. simpl. rewrite !andb_true_iff. intros [[Hc Hw] _].
  rewrite not_elem_of_cons. split; [by intros <-|]. rewrite forallb_forall in Hw.
  intros Hin%list_elem_of_In%Hw. done.
Qed.

(** The host name test of [Endpoint.Valid] (the compiled regular expression)
    accepts exactly the dot separated sequences of labels, each of 1 to 63
    characters, alphanumeric at its start and alphanumeric or a dash after. *)
Theorem hostname_labels l :
  rmatch hostnameRegex l = true ↔ Forall (λ w, label_ok w = true) (Split c_dot l).
Proof.
  rewrite rmatch_spec. unfold hostnameRegex. split.
  - inversion 1 as [| |? ? u v Hu Hv| | | | | |]; subst. clear H.
    apply matches_label in Hv. remember (RStar _) as r eqn:Er. revert Er.
    induction Hu; intros Er; simplify_eq.
    + rewrite app_nil_l, Split_no by auto using label_no_dot. by apply Forall_singleton.
    + inversion Hu1 as [| |? ? w d Hw Hd| | | | | |]; subst.
      apply matches_class in Hd as (c & -> & Hc%bool_decide_eq_true). subst c.
      apply matches_label in Hw. rewrite <-!app_assoc. simpl.
      rewrite Split_app by auto using label_no_dot. apply Forall_cons; auto.
  - induction l as [l Hl|w l Hw IH] using (Split_ind c_dot).
    + rewrite Split_no, Forall_singleton by done. intros H.
      apply (m_seq _ _ [] l); [constructor|]. apply matches_label, H.
    + rewrite Split_app, Forall_cons by done. intros [Hlab Hr]. apply matches_label in Hlab.
      specialize (IH Hr). inversion IH as [| |? ? u v Hu Hv| | | | | |]; subst.
      replace (w ++ c_dot :: u ++ v) with (((w ++ [c_dot]) ++ u) ++ v)
        by (by rewrite <-!app_assoc).
      constructor; [|done]. constructor; [|done]. constructor; [done|].
      by apply matches_class; exists c_dot.
Qed.

(** ** Which characters a valid host can hold *)

Lemma scan_digits_take base val n i l v k :
  scan_digits base val n i l = Some (v, k) →
  (i ≤ k ≤ i + length l)%nat ∧ ∀ c, c ∈ take (k - i) l → val c ≠ None.
Proof.
  revert n i. induction l as [|d l IH]; simpl; intros n i H.
  { destruct i; simplify_eq. split; [lia|]. rewrite take_nil. set_solver. }
  destruct (val d) as [x|] eqn:Ed.
  - case_match; [done|]. destruct (IH _ _ H) as [Hk Hin]. split; [lia|]. intros c.
    replace (k - i)%nat with (S (k - S i)) by lia. simpl.
    intros [->|?]%elem_of_cons; [congruence|auto].
  - destruct i; simplify_eq. split; [lia|]. rewrite Nat.sub_diag. set_solver.
Qed.

Lemma dec_digit_Some c : dec_digit c ≠ None → is_digit c = true.
Proof. unfold dec_digit. by destruct (is_digit c). Qed.

Lemma parseIPv4_chars n first l ip :
  parseIPv4_fields n first l = Some ip → ∀ c, c ∈ l → is_digit c = true ∨ c = c_dot.
Proof.
  revert first l ip. induction n as [|n IH]; simpl; intros first l ip H c Hc.
  { destruct l; [set_solver|done]. }
  apply bind_Some in H as (l' & Hl' & H). apply bind_Some in H as ([v k] & Hd & H).
  case_match; [done|]. apply bind_Some in H as (rest & Hrest & _).
  apply scan_digits_take in Hd as [Hk Hin]. rewrite Nat.sub_0_r in Hin.
  assert (Hl : c ∈ l' → is_digit c = true ∨ c = c_dot).
  { intros Hc'. rewrite <-(take_drop k l') in Hc'. apply elem_of_app in Hc' as [Hc'|Hc'].
    - left. by apply dec_digit_Some, Hin.
    - by eapply IH. }
  destruct first; simplify_eq; [auto|]. destruct l as [|d l]; [done|].
  case_decide; simplify_eq. apply elem_of_cons in Hc as [->|?]; auto.
Qed.

Lemma ParseIP_no_colon l ip :
  c_colon ∉ l → ParseIP_bytes l = Some ip → ∀ c, c ∈ l → is_digit c = true ∨ c = c_dot.
Proof.
  unfold ParseIP_bytes. intros Hl H.
  assert (Hd : ∀ rest, c_colon ∉ rest → ParseIP_dispatch rest l = Some ip →
                 ∃ ip4, parseIPv4 l = Some ip4).
  { clear. induction rest as [|d rest IH]; simpl; [done|].
    rewrite not_elem_of_cons. intros [? ?] Hm. case_decide.
    - apply fmap_Some in Hm as (ip4 & ? & _). eauto.
    - rewrite decide_False in Hm by congruence. auto. }
  destruct (Hd _ Hl H) as [ip4 H4]. by eapply parseIPv4_chars.
Qed.

Lemma hostname_chars l c : matches hostnameRegex l → c ∈ l → is_host_char c = true.
Proof.
  unfold is_host_char.
  assert (Hlab : ∀ w, matches hostnameLabel w → c ∈ w → is_alnum_dash c = true).
  { intros [|d w] H%matches_label; [done|]. simpl in H. rewrite !andb_true_iff in H.
    destruct H as [[Hd Hw] _]. rewrite forallb_forall in Hw. intros [->|Hc]%elem_of_cons.
    - unfold is_alnum_dash. by rewrite Hd.
    - by apply Hw, list_elem_of_In. }
  inversion 1 as [| |? ? u v Hu Hv| | | | | |]; subst. clear H.
  intros [Hc|Hc]%elem_of_app; [|by rewrite (Hlab _ Hv Hc)].
  remember (RStar _) as r eqn:Er. revert Er. induction Hu; intros Er; simplify_eq; [set_solver|].
  apply elem_of_app in Hc as [Hc|Hc]; [|auto].
  inversion Hu1 as [| |? ? w d Hw Hd| | | | | |]; subst.
  apply elem_of_app in Hc as [Hc|Hc]; [by rewrite (Hlab _ Hw Hc)|].
  apply matches_class in Hd as (d' & -> & Hd%bool_decide_eq_true). subst.
  apply list_elem_of_singleton in Hc as ->. done.
Qed.

Lemma digit_host_char c : is_digit c = true ∨ c = c_dot → is_host_char c = true.
Proof.
  unfold is_host_char, is_alnum_dash, is_alnum. intros [->| ->]; [done|].
  by rewrite orb_true_r.
Qed.

Lemma Endpoint_Valid_inv ep :
  Endpoint_Valid ep = true →
  (∃ p, Atoi (Port ep) = Some p ∧ p ≠ 0) ∧ zlen (str_bytes (IP ep)) ≤ 253 ∧
  ((∃ ip, ParseIP (IP ep) = Some ip) ∨ matches hostnameRegex (str_bytes (IP ep))).
Proof.
  unfold Endpoint_Valid. case_match eqn:Hempty; [done|].
  rewrite !orb_false_iff, Z.ltb_ge in Hempty.
  destruct (Atoi (Port ep)) as [p|]; [|done]. case_match eqn:Hp; [done|].
  intros H. split_and!; [exists p; split; [done|lia]|lia|].
  destruct (ParseIP (IP ep)) as [ip|]; [by eauto|]. right. by apply rmatch_spec.
Qed.

Lemma Endpoint_Valid_chars ep c :
  Endpoint_Valid ep = true → c_colon ∉ str_bytes (IP ep) →
  c ∈ str_bytes (IP ep) → is_host_char c = true.
Proof.
  intros (_ & _ & [[ip Hip]|Hm])%Endpoint_Valid_inv Hno Hc.
  - apply digit_host_char. by eapply ParseIP_no_colon.
  - by eapply hostname_chars.
Qed.

Lemma Endpoint_Valid_Port_no_char ep c :
  Endpoint_Valid ep = true → is_digit c = false → c ≠ c_minus → c ≠ c_plus →
  c ∉ str_bytes (Port ep).
Proof. intros (p & Hp & _)%Endpoint_Valid_port. by apply (Atoi_no_char _ p). Qed.

(** ** Printing and parsing *)

Lemma app_cons_last_inj {A} (c : A) l1 r1 l2 r2 :
  c ∉ r1 → c ∉ r2 → l1 ++ c :: r1 = l2 ++ c :: r2 → l1 = l2 ∧ r1 = r2.
Proof.
  intros H1 H2 E. apply app_eq_inv in E as [(k & -> & E)|(k & -> & E)];
    destruct k as [|? k]; simplify_eq/=; rewrite ?app_nil_r in *; set_solver.
Qed.

Lemma Port_no_colon ep : Endpoint_Valid ep = true → c_colon ∉ str_bytes (Port ep).
Proof. intros H. by apply Endpoint_Valid_Port_no_char. Qed.

Lemma Endpoint_String_inj e1 e2 :
  Endpoint_Valid e1 = true → Endpoint_Valid e2 = true →
  Endpoint_String e1 = Endpoint_String e2 → e1 = e2.
Proof.
  intros H1%Port_no_colon H2%Port_no_colon E%(f_equal str_bytes).
  rewrite !str_bytes_Endpoint_String in E.
  apply app_cons_last_inj in E as [Ei%(inj _) Ep%(inj _)]; [|done..].
  destruct e1, e2; simpl in *; congruence.
Qed.

(** Two valid endpoints with the same "ip:port" string are the same
    endpoint, so the string can key the maps of connections and bans. *)
Theorem Endpoint_String_injective e1 e2 :
  Endpoint_Valid e1 = true → Endpoint_Valid e2 = true →
  Endpoint_String e1 = Endpoint_String e2 → e1 = e2.
Proof. apply Endpoint_String_inj. Qed.

Definition ep_a : Endpoint := MkEndpoint "52.17.183.121" "8108".
Definition ep_v6 : Endpoint := MkEndpoint "::1" "80".

Theorem Endpoint_String_injective_witness :
  Endpoint_Valid ep_a = true ∧ ep_a = ep_a.
Proof.
  split; [by vm_compute|].
  by apply Endpoint_String_injective; [vm_compute; reflexivity..|].
Defined.

Lemma SplitHostPort_String ep :
  Endpoint_Valid ep = true → c_colon ∉ str_bytes (IP ep) →
  SplitHostPort (Endpoint_String ep) = Some (IP ep, Port ep).
Proof.
  intros Hv Hno. unfold SplitHostPort. rewrite str_bytes_Endpoint_String.
  rewrite SplitHostPort_join.
  - simpl. by rewrite !bytes_str_bytes.
  - done.
  - intros Hc. by apply Endpoint_Valid_chars in Hc.
  - intros Hc. by apply Endpoint_Valid_chars in Hc.
  - by apply Port_no_colon.
  - by apply Endpoint_Valid_Port_no_char.
  - by apply Endpoint_Valid_Port_no_char.
Qed.

(** Round trip: a valid endpoint with a host name or IPv4 address and a port
    in range is recovered from its printed form. *)
Theorem ParseEndpoint_String ep p :
  Endpoint_Valid ep = true → c_colon ∉ str_bytes (IP ep) →
  Atoi (Port ep) = Some p → 1 ≤ p ≤ 65535 →
  ParseEndpoint (Endpoint_String ep) = Ok ep.
Proof.
  intros Hv Hno Hp Hr. unfold ParseEndpoint. rewrite SplitHostPort_String, Hp by done.
  assert ((p <? 1) || (65535 <? p) = false) as -> by lia.
  unfold NewEndpoint. destruct ep; simpl in *. by rewrite Hv.
Qed.

Theorem ParseEndpoint_String_witness :
  Endpoint_Valid ep_a = true ∧ ParseEndpoint (Endpoint_String ep_a) = Ok ep_a.
Proof.
  split; [by vm_compute|]. apply (ParseEndpoint_String ep_a 8108).
  - by vm_compute.
  - apply (bool_decide_unpack _). by vm_compute.
  - by vm_compute.
  - lia.
Defined.

(** [C39] What [ParseEndpoint] accepts is valid, has a port from 1 to 65535, and
    prints back to the parsed text, unless that text is an address in brackets,
    which are removed. *)
Theorem ParseEndpoint_sound s ep :
  ParseEndpoint s = Ok ep →
  Endpoint_Valid ep = true ∧
  (∃ p, Atoi (Port ep) = Some p ∧ 1 ≤ p ≤ 65535) ∧
  (Endpoint_String ep = s ∨
   str_bytes s = [c_lbracket] ++ str_bytes (IP ep) ++ [c_rbracket; c_colon] ++ str_bytes (Port ep)).
Proof.
  unfold ParseEndpoint, SplitHostPort.
  destruct (SplitHostPort_bytes (str_bytes s)) as [[h q]|] eqn:E; simpl; [|done].
  destruct (Atoi (bytes_str q)) as [p|] eqn:Ep; [|done].
  destruct ((p <? 1) || (65535 <? p)) eqn:Er; [done|].
  unfold NewEndpoint. destruct (Endpoint_Valid _) eqn:Ev; simpl; intros [= <-]; simpl.
  split_and!; [done|exists p; split; [done|lia]|]. rewrite !str_bytes_str.
  apply SplitHostPort_bytes_Some in E as [E|E]; [left|right; done].
  apply (inj str_bytes). rewrite E, str_bytes_Endpoint_String. simpl. by rewrite !str_bytes_str.
Qed.

Theorem ParseEndpoint_sound_witness :
  ParseEndpoint "[::1]:80" = Ok ep_v6 ∧ Endpoint_Valid ep_v6 = true.
Proof.
  assert (H : ParseEndpoint "[::1]:80" = Ok ep_v6) by (vm_compute; reflexivity).
  split; [exact H|]. apply (ParseEndpoint_sound _ _ H).
Defined.

Lemma ParseIP_lbracket l : ParseIP_bytes (c_lbracket :: l) = None.
Proof.
  unfold ParseIP_bytes. change (ParseIP_dispatch (c_lbracket :: l) (c_lbracket :: l))
    with (ParseIP_dispatch l (c_lbracket :: l)).
  assert (H : ∀ rest, ParseIP_dispatch rest (c_lbracket :: l) = None); [|apply H].
  induction rest as [|d rest IH]; simpl; [done|].
  case_decide; [done|]. case_decide; [|done]. by destruct l.
Qed.

(** The printed form of a valid IPv6 endpoint has no host and port that
    [net.SplitHostPort] (and so [net.Dial] or [ParseEndpoint]) could find in it. *)
Theorem Endpoint_String_ipv6_unparsable ep :
  Endpoint_Valid ep = true → c_colon ∈ str_bytes (IP ep) →
  SplitHostPort (Endpoint_String ep) = None ∧
  ParseEndpoint (Endpoint_String ep) = Err ErrSplitHostPort.
Proof.
  intros Hv Hc.
  assert (Hs : SplitHostPort (Endpoint_String ep) = None).
  { apply Endpoint_Valid_inv in Hv as Hi. destruct Hi as (_ & _ & Hip).
    apply Port_no_colon in Hv. unfold SplitHostPort, SplitHostPort_bytes.
    rewrite str_bytes_Endpoint_String.
    pose proof (last_index_byte_spec c_colon
      (str_bytes (IP ep) ++ c_colon :: str_bytes (Port ep))) as Hl.
    destruct (last_index_byte _ _) as [i|]; [|done].
    destruct Hl as (a & b & E & <- & Hb).
    apply app_cons_last_inj in E as [Ea _]; [|done..]. rewrite decide_False.
    - rewrite <-Ea, take_app_length.
      destruct (index_byte c_colon (str_bytes (IP ep))) eqn:Ei; [done|].
      by apply index_byte_None in Ei.
    - intros Hh. unfold ParseIP in Hip.
      destruct (str_bytes (IP ep)) as [|d h]; [set_solver|]. simplify_eq/=.
      destruct Hip as [[ip Hip]|Hm].
      + by rewrite ParseIP_lbracket in Hip.
      + by apply (hostname_chars _ c_colon) in Hm. }
  split; [done|]. unfold ParseEndpoint. by rewrite Hs.
Qed.

Theorem Endpoint_String_ipv6_unparsable_witness :
  Endpoint_Valid ep_v6 = true ∧ ParseEndpoint (Endpoint_String ep_v6) = Err ErrSplitHostPort.
Proof.
  split; [by vm_compute|]. apply (Endpoint_String_ipv6_unparsable ep_v6); [by vm_compute|].
  apply (bool_decide_unpack _). by vm_compute.
Defined.

(** The port test of [Endpoint.Valid] only excludes zero: [NewEndpoint] accepts
    any decimal integer of 64 bits as port, negative or above 65535. *)
Theorem NewEndpoint_port_unbounded ip port p :
  Atoi port = Some p → p ≠ 0 → (∃ a, ParseIP ip = Some a) → zlen (str_bytes ip) ≤ 253 →
  NewEndpoint ip port = Ok (MkEndpoint ip port).
Proof.
  intros Hp Hz [a Ha] Hl. unfold NewEndpoint, Endpoint_Valid. simpl. rewrite Hp, Ha.
  destruct (bool_decide_reflect (ip = EmptyString)) as [->|]; [done|].
  destruct (bool_decide_reflect (port = EmptyString)) as [->|]; [done|].
  assert ((253 <? zlen (str_bytes ip)) = false) as -> by lia.
  assert ((p =? 0) = false) as -> by lia. done.
Qed.

Theorem NewEndpoint_port_unbounded_witness :
  Atoi "-7" = Some (-7) ∧ NewEndpoint "1.2.3.4" "-7" = Ok (MkEndpoint "1.2.3.4" "-7").
Proof.
  split; [by vm_compute|]. apply (NewEndpoint_port_unbounded _ _ (-7)).
  - by vm_compute.
  - lia.
  - eexists. by vm_compute.
  - by vm_compute.
Defined.

(** ** Lists of special endpoints *)

Definition is_graph (c : byte) : bool := in_range x21 x7e c.

Lemma strip_any_graph c l :
  is_graph c = true → strip_any spaces (c :: l) = None ∧
                      strip_any (reverse <$> spaces) (c :: l) = None.
Proof. destruct c; try discriminate; intros _; split; reflexivity. Qed.

Lemma trim_left_graph fuel c l :
  is_graph c = true → trim_left fuel spaces (c :: l) = c :: l ∧
                      trim_left fuel (reverse <$> spaces) (c :: l) = c :: l.
Proof.
  intros H. destruct (strip_any_graph c l H) as [H1 H2]. destruct fuel as [|fuel]; [done|].
  cbn [trim_left]. by rewrite H1, H2.
Qed.

Lemma TrimSpace_graph l : Forall (λ c, is_graph c = true) l → TrimSpace_bytes l = l.
Proof.
  intros H. unfold TrimSpace_bytes. destruct l as [|c l]; [done|].
  apply Forall_cons_1 in H as Hc. destruct Hc as [Hc _].
  rewrite (proj1 (trim_left_graph _ _ _ Hc)).
  apply Forall_reverse in H. destruct (reverse (c :: l)) as [|d r] eqn:Er.
  { apply (f_equal length) in Er. by rewrite length_reverse in Er. }
  apply Forall_cons_1 in H as [Hd _]. rewrite (proj2 (trim_left_graph _ _ _ Hd)).
  by rewrite <-Er, reverse_involutive.
Qed.

Lemma host_char_graph c : is_host_char c = true → is_graph c = true ∧ c ≠ c_comma.
Proof. by destruct c. Qed.
Lemma port_char_graph c :
  is_digit c = true ∨ c = c_minus ∨ c = c_plus → is_graph c = true ∧ c ≠ c_comma.
Proof. intros [H|[->| ->]]; [by destruct c|done..]. Qed.

Lemma Endpoint_String_graph ep :
  Endpoint_Valid ep = true → c_colon ∉ str_bytes (IP ep) →
  Forall (λ c, is_graph c = true ∧ c ≠ c_comma) (str_bytes (Endpoint_String ep)).
Proof.
  intros Hv Hno. rewrite str_bytes_Endpoint_String, Forall_app, Forall_cons.
  split_and!; [|done|done|].
  - apply Forall_forall. intros c Hc. apply host_char_graph. by apply (Endpoint_Valid_chars ep).
  - apply Forall_forall. intros c Hc. apply Endpoint_Valid_port in Hv as (p & Hp & _).
    apply port_char_graph. by apply (Atoi_chars (Port ep) p).
Qed.

(** [strings.Join] of the printed endpoints *)
Fixpoint join_comma (eps : list Endpoint) : list byte :=
  match eps with
  | [] => []
  | [ep] => str_bytes (Endpoint_String ep)
  | ep :: eps => str_bytes (Endpoint_String ep) ++ c_comma :: join_comma eps
  end.

Definition special_ok (ep : Endpoint) : Prop :=
  Endpoint_Valid ep = true ∧ (c_colon ∉ str_bytes (IP ep)) ∧
  ∃ p, Atoi (Port ep) = Some p ∧ 1 ≤ p ≤ 65535.

Lemma parseSpecial_item ep :
  special_ok ep →
  ParseEndpoint (TrimSpace (bytes_str (str_bytes (Endpoint_String ep)))) = Ok ep ∧
  c_comma ∉ str_bytes (Endpoint_String ep).
Proof.
  intros (Hv & Hno & p & Hp & Hr). pose proof (Endpoint_String_graph ep Hv Hno) as Hg.
  split.
  - unfold TrimSpace. rewrite str_bytes_str, TrimSpace_graph.
    2: { eapply Forall_impl; [exact Hg|]. by intros ? []. }
    rewrite bytes_str_bytes. unfold ParseEndpoint. rewrite SplitHostPort_String, Hp by done.
    assert ((p <? 1) || (65535 <? p) = false) as -> by lia.
    unfold NewEndpoint. destruct ep; simpl in *. by rewrite Hv.
  - intros Hc. rewrite Forall_forall in Hg. by destruct (Hg _ Hc).
Qed.

(** Round trip: the special-peer setting that lists endpoints by their printed
    form, separated by commas, parses to exactly those endpoints in order. *)
Theorem parseSpecial_join eps :
  eps ≠ [] → Forall special_ok eps → parseSpecial (bytes_str (join_comma eps)) = Ok eps.
Proof.
  unfold parseSpecial. rewrite str_bytes_str. intros Hne H.
  induction H as [|ep eps Hep H IH]; [done|]. clear Hne.
  apply parseSpecial_item in Hep as [Hp Hc]. destruct eps as [|ep' eps].
  - simpl. rewrite Split_no by done. cbn [parseSpecial_items]. by rewrite Hp.
  - change (join_comma (ep :: ep' :: eps))
      with (str_bytes (Endpoint_String ep) ++ c_comma :: join_comma (ep' :: eps)).
    rewrite Split_app by done. cbn [parseSpecial_items]. rewrite Hp, bind_Ok.
    by rewrite IH.
Qed.

Theorem parseSpecial_join_witness :
  parseSpecial (bytes_str (join_comma [ep_a; ep_a])) = Ok [ep_a; ep_a].
Proof.
  apply parseSpecial_join; [done|].
  assert (special_ok ep_a).
  { split_and!; [by vm_compute|apply (bool_decide_unpack _); by vm_compute|].
    exists 8108. split; [by vm_compute|lia]. }
  by rewrite Forall_cons, Forall_singleton.
Defined.

Lemma ParseEndpoint_valid s ep : ParseEndpoint s = Ok ep → Endpoint_Valid ep = true.
Proof.
  unfold ParseEndpoint. repeat case_match; try done.
  unfold NewEndpoint. destruct (Endpoint_Valid (MkEndpoint _ _)) eqn:Ev; intros; by simplify_eq/=.
Qed.

Lemma parseSpecial_items_Ok items eps :
  parseSpecial_items items = Ok eps →
  Forall (λ ep, Endpoint_Valid ep = true) eps ∧ length eps = length items.
Proof.
  revert eps. induction items as [|item items IH]; simpl; intros eps H; [by simplify_eq|].
  apply bind_Ok_inv in H as (ep & Hep%ParseEndpoint_valid & H).
  apply bind_Ok_inv in H as (es' & Hes & H). simplify_eq. destruct (IH _ Hes) as [? Hlen].
  split; [by apply Forall_cons|simpl; lia].
Qed.

(** [parseSpecial] yields all the items or an error: an accepted list has one
    endpoint per comma separated item, all of them valid. *)
Theorem parseSpecial_sound raw eps :
  parseSpecial raw = Ok eps →
  Forall (λ ep, Endpoint_Valid ep = true) eps ∧
  length eps = length (Split c_comma (str_bytes raw)) ∧ eps ≠ [].
Proof.
  unfold parseSpecial. pose proof (Split_nonempty c_comma (str_bytes raw)) as Hne.
  intros [? Hl]%parseSpecial_items_Ok. split_and!; [done..|].
  destruct eps; [|done]. by destruct (Split _ _).
Qed.

Theorem parseSpecial_sound_witness :
  Forall (λ ep, Endpoint_Valid ep = true) [ep_a; ep_a] ∧
  length [ep_a; ep_a] = length (Split c_comma (str_bytes "52.17.183.121:8108, 52.17.183.121:8108")) ∧
  [ep_a; ep_a] ≠ [].
Proof. apply parseSpecial_sound. by vm_compute. Defined.
