(* ===== verification/Parcel.v ===== *)
(** * Parcels ([parcel.go], [parcelType.go])

    The unit of communication between the application, the network layer and the
    wire.  A Go [*Parcel] is an [option Parcel], [None] for the nil pointer. *)
From stdpp Require Import pretty.
From S2P Require Import Prelude.

(** [ParcelType] is a [uint16]; the constants are the [iota] of [parcelType.go] *)
Definition TypeHeartbeat : Z := 0.
Definition TypePing : Z := 1.
Definition TypePong : Z := 2.
Definition TypePeerRequest : Z := 3.
Definition TypePeerResponse : Z := 4.
Definition TypeAlert : Z := 5.
Definition TypeMessage : Z := 6.
Definition TypeMessagePart : Z := 7.
Definition TypeHandshake : Z := 8.
Definition TypeRejectAlternative : Z := 9.

Definition typeStrings : gmap Z string := list_to_map
  [(TypeHeartbeat, "Heartbeat"); (TypePing, "Ping"); (TypePong, "Pong");
   (TypePeerRequest, "Peer-Request"); (TypePeerResponse, "Peer-Response");
   (TypeAlert, "Alert"); (TypeMessage, "Message"); (TypeMessagePart, "MessagePart");
   (TypeHandshake, "Handshake"); (TypeRejectAlternative, "Rejection-Alternative")]%string.

(** [typeStrings[t]]: a missing key reads as the empty string *)
Definition ParcelType_String (t : Z) : string := default EmptyString (typeStrings !! t).

Record Parcel := MkParcel {
  ptype : Z;
  Address : string;
  Payload : list byte;
}.

#[export] Instance Parcel_eq_dec : EqDecision Parcel.
Proof. solve_decision. Defined.

Definition IsApplicationMessage (p : Parcel) : bool :=
  (ptype p =? TypeMessage) || (ptype p =? TypeMessagePart).

Definition Parcel_String (p : Parcel) : string :=
  ("[" +:+ ParcelType_String (ptype p) +:+ "] " +:+ pretty (zlen (Payload p)) +:+ "B")%string.

Definition newParcel (command : Z) (payload : list byte) : Parcel :=
  {| ptype := command; Address := EmptyString; Payload := payload |}.

Definition NewParcel (target : string) (payload : list byte) : Parcel :=
  let p := newParcel TypeMessage payload in
  {| ptype := ptype p; Address := target; Payload := Payload p |}.

Inductive parcel_error := ErrNilParcel | ErrUnknownType | ErrZeroLengthPayload.

#[export] Instance parcel_error_eq_dec : EqDecision parcel_error.
Proof. solve_decision. Defined.

Definition Parcel_Valid (p : option Parcel) : outcome parcel_error unit :=
  match p with
  | None => Err ErrNilParcel
  | Some p =>
      return_err_if u16 (Z.of_nat (size typeStrings)) <=? ptype p with ErrUnknownType;;
      return_err_if zlen (Payload p) =? 0 with ErrZeroLengthPayload;;
      Ok tt
  end.

(** ** The type test of [Valid]

    The code compares the type with the number of names; that this is the same as
    having a name depends on the names being those of a full initial segment. *)
Lemma typeStrings_size : size typeStrings = 10%nat.
Proof. by vm_compute. Qed.

Lemma typeStrings_named t : 0 ≤ t → is_Some (typeStrings !! t) ↔ t < 10.
Proof.
  intros Ht. split.
  - intros [n Hn]. apply elem_of_list_to_map_2 in Hn.
    apply list_elem_of_In in Hn. simpl in Hn. unfold TypeHeartbeat, TypePing, TypePong,
      TypePeerRequest, TypePeerResponse, TypeAlert, TypeMessage, TypeMessagePart,
      TypeHandshake, TypeRejectAlternative in Hn.
    repeat (destruct Hn as [Hn|Hn]; [simplify_eq; lia|]). done.
  - intros Hlt. assert (Hall : Forall (λ k, bool_decide (is_Some (typeStrings !! Z.of_nat k)) = true)
      (seq 0 10)) by (apply (bool_decide_unpack _); by vm_compute).
    rewrite Forall_forall in Hall. specialize (Hall (Z.to_nat t)).
    rewrite Z2Nat.id in Hall by done. eapply bool_decide_eq_true_1, Hall. apply elem_of_seq. lia.
Qed.

(** A parcel passes [Valid] exactly when it is not nil, its type is one of the
    declared, named parcel types and it carries data; the three errors are
    reported in that order. *)
Theorem Parcel_Valid_spec (p : option Parcel) :
  (∀ q, p = Some q → is_u16 (ptype q)) →
  match Parcel_Valid p with
  | Ok _ => ∃ q, p = Some q ∧ is_Some (typeStrings !! ptype q) ∧ Payload q ≠ []
  | Err ErrNilParcel => p = None
  | Err ErrUnknownType => ∃ q, p = Some q ∧ typeStrings !! ptype q = None
  | Err ErrZeroLengthPayload =>
      ∃ q, p = Some q ∧ is_Some (typeStrings !! ptype q) ∧ Payload q = []
  | _ => False
  end.
Proof.
  intros Hp. destruct p as [q|]; [|done]. unfold Parcel_Valid.
  specialize (Hp q eq_refl) as Hq. unfold is_u16 in Hq.
  rewrite typeStrings_size. change (u16 (Z.of_nat 10)) with 10.
  pose proof (typeStrings_named (ptype q) ltac:(lia)) as Hn.
  destruct (Z.leb_spec 10 (ptype q)).
  - exists q. split; [done|]. apply eq_None_not_Some. rewrite Hn. lia.
  - destruct (Z.eqb_spec (zlen (Payload q)) 0) as [H0|H0]; exists q.
    + split_and!; [done|by apply Hn|by apply zlen_0].
    + split_and!; [done|by apply Hn|]. intros E. by rewrite E in H0.
Qed.

Theorem Parcel_Valid_spec_witness :
  match Parcel_Valid (Some (NewParcel "x" [x00])) with
  | Ok _ => ∃ q, Some (NewParcel "x" [x00]) = Some q ∧
      is_Some (typeStrings !! ptype q) ∧ Payload q ≠ []
  | Err ErrNilParcel => Some (NewParcel "x" [x00]) = None
  | Err ErrUnknownType => ∃ q, Some (NewParcel "x" [x00]) = Some q ∧ typeStrings !! ptype q = None
  | Err ErrZeroLengthPayload =>
      ∃ q, Some (NewParcel "x" [x00]) = Some q ∧ is_Some (typeStrings !! ptype q) ∧ Payload q = []
  | _ => False
  end.
Proof. apply Parcel_Valid_spec. intros q [= <-]. change (0 ≤ 6 < 2 ^ 16). lia. Defined.
