(* ===== verification/ParcelChannel.v ===== *)
(** * Parcel channels ([parcelChannel.go])

    A Go channel of [cap] slots with the dropping [Send] of the package: first a
    sequential model of the whole method, then a small-step model in which several
    [Send]s interleave with the goroutine that reads the channel. *)
From S2P Require Import Prelude Parcel.

(** ** The channel

    [pc_items] are the buffered values, oldest first.  A send on a closed channel
    panics; a receive from an empty one blocks (or yields nil once it is closed). *)
Record ParcelChannel := MkPC {
  pc_cap : Z;
  pc_items : list (option Parcel);
  pc_closed : bool;
}.

Definition newParcelChannel (capacity : Z) : ParcelChannel := MkPC capacity [] false.

Definition set_items (pc : ParcelChannel) (l : list (option Parcel)) : ParcelChannel :=
  MkPC (pc_cap pc) l (pc_closed pc).

(** [select { case pc <- parcel: ...; default: ... }] *)
Definition try_send (pc : ParcelChannel) (p : option Parcel) : outcome () (option ParcelChannel) :=
  if pc_closed pc then Panic
  else if zlen (pc_items pc) <? pc_cap pc then Ok (Some (set_items pc (pc_items pc ++ [p])))
  else Ok None.

(** the loop that drops the oldest parcels: [for len(pc) > cap(pc)/2] *)
Fixpoint drop_loop (fuel : nat) (cap : Z) (l : list (option Parcel)) (dropped : Z)
    : outcome () (list (option Parcel) * Z) :=
  match fuel with
  | O => OutOfFuel
  | S fuel =>
      if Z.quot cap 2 <? zlen l then
        match l with
        | [] => Panic
        | _ :: l => drop_loop fuel cap l (dropped + 1)
        end
      else Ok (l, dropped)
  end.

Definition ParcelChannel_Send (pc : ParcelChannel) (p : option Parcel)
    : outcome () (ParcelChannel * (bool * Z)) :=
  try_send pc p ≫= λ r,
  match r with
  | Some pc => Ok (pc, (true, 0))
  | None =>
      drop_loop (S (length (pc_items pc))) (pc_cap pc) (pc_items pc) 0 ≫= λ ld,
      let pc := set_items pc (fst ld) in
      try_send pc p ≫= λ r,
      match r with
      | Some pc => Ok (pc, (true, snd ld))
      | None => Ok (pc, (false, snd ld))
      end
  end.

(** a receive that does not block: the value and the channel without it *)
Definition ParcelChannel_recv (pc : ParcelChannel) : option (option Parcel * ParcelChannel) :=
  match pc_items pc with
  | p :: l => Some (p, set_items pc l)
  | [] => if pc_closed pc then Some (None, pc) else None
  end.

(** [FillRatio] as the fraction [len / cap] *)
Definition FillRatio (pc : ParcelChannel) : Z * Z := (zlen (pc_items pc), pc_cap pc).

Definition pc_wf (pc : ParcelChannel) : Prop :=
  0 ≤ pc_cap pc ∧ zlen (pc_items pc) ≤ pc_cap pc.

(** ** The sequential [Send] *)

Lemma drop_loop_spec fuel cap l d :
  0 ≤ cap → (length l < fuel)%nat →
  drop_loop fuel cap l d =
    let n := Z.max 0 (zlen l - cap / 2) in Ok (drop (Z.to_nat n) l, d + n).
Proof.
  intros Hcap. revert l d. induction fuel as [|fuel IH]; intros l d Hf; [lia|].
  cbn [drop_loop]. rewrite Z.quot_div_nonneg by lia.
  pose proof (Z.div_pos cap 2 Hcap ltac:(lia)).
  destruct (Z.ltb_spec (cap / 2) (zlen l)).
  - destruct l as [|x l]; [unfold zlen in *; simpl in *; lia|].
    rewrite zlen_cons in *. pose proof (zlen_nonneg l). rewrite IH by (simpl in Hf; lia). cbn zeta.
    destruct (decide (zlen l ≤ cap / 2)).
    + rewrite (Z.max_l 0 (zlen l - cap / 2)) by lia.
      assert (Z.max 0 (1 + zlen l - cap / 2) = 1) as -> by lia.
      change (Z.to_nat 0) with 0%nat. change (Z.to_nat 1) with 1%nat. simpl.
      rewrite drop_0. do 2 f_equal. lia.
    + rewrite !Z.max_r by lia.
      assert (Z.to_nat (1 + zlen l - cap / 2) = S (Z.to_nat (zlen l - cap / 2))) as -> by lia.
      simpl. do 2 f_equal. lia.
  - rewrite Z.max_l by lia. cbn. rewrite drop_0. do 2 f_equal. lia.
Qed.

(** a send ends, or panics on a closed channel *)
Lemma Send_returns pc p :
  0 ≤ pc_cap pc →
  if pc_closed pc then ParcelChannel_Send pc p = Panic else ∃ r, ParcelChannel_Send pc p = Ok r.
Proof.
  intros Hc. unfold ParcelChannel_Send, try_send. destruct (pc_closed pc) eqn:Hcl; [done|].
  destruct (zlen (pc_items pc) <? pc_cap pc); rewrite bind_Ok; [by eexists|].
  rewrite drop_loop_spec by lia. cbv zeta. rewrite bind_Ok. cbn [set_items pc_closed pc_items pc_cap fst snd].
  rewrite Hcl. case_match; rewrite bind_Ok; by eexists.
Qed.

Lemma Send_open pc p :
  pc_wf pc → 0 < pc_cap pc → pc_closed pc = false →
  let n := if zlen (pc_items pc) =? pc_cap pc then pc_cap pc - pc_cap pc / 2 else 0 in
  ParcelChannel_Send pc p =
    Ok (set_items pc (drop (Z.to_nat n) (pc_items pc) ++ [p]), (true, n)) ∧
  pc_wf (set_items pc (drop (Z.to_nat n) (pc_items pc) ++ [p])).
Proof.
  intros [Hc Hl] Hpos Hopen n.
  assert (Hhalf : 0 ≤ pc_cap pc / 2 < pc_cap pc).
  { split; [apply Z.div_pos; lia|apply Z.div_lt; lia]. }
  assert (Hn : 0 ≤ n ≤ zlen (pc_items pc) ∧ zlen (pc_items pc) - n < pc_cap pc).
  { unfold n. destruct (Z.eqb_spec (zlen (pc_items pc)) (pc_cap pc)); pose proof (zlen_nonneg (pc_items pc)); lia. }
  assert (Hlen : zlen (drop (Z.to_nat n) (pc_items pc)) = zlen (pc_items pc) - n).
  { unfold zlen in *. rewrite length_drop. lia. }
  split.
  - unfold ParcelChannel_Send, try_send. rewrite Hopen.
    destruct (Z.ltb_spec (zlen (pc_items pc)) (pc_cap pc)).
    + rewrite bind_Ok. assert (n = 0) as ->.
      { unfold n. rewrite (proj2 (Z.eqb_neq _ _)) by lia. done. }
      change (Z.to_nat 0) with 0%nat. by rewrite drop_0.
    + rewrite bind_Ok. cbv beta iota. rewrite drop_loop_spec by lia.
      cbn zeta. rewrite bind_Ok. cbn [set_items pc_closed pc_items pc_cap fst snd].
      rewrite Hopen.
      assert (Z.max 0 (zlen (pc_items pc) - pc_cap pc / 2) = n) as ->.
      { unfold n. rewrite (proj2 (Z.eqb_eq _ _)) by lia. lia. }
      rewrite (proj2 (Z.ltb_lt _ _)) by lia. by rewrite bind_Ok.
  - split; [done|]. cbn [set_items pc_items pc_cap]. autorewrite with zlen. lia.
Qed.

(** [Send] on an open channel of positive capacity, whatever it holds: it
    returns, the parcel is enqueued last, only the oldest parcels go, and it drops
    none unless the channel was full, when it drops down to half the capacity. *)
Theorem ParcelChannel_Send_spec pc p :
  pc_wf pc → 0 < pc_cap pc → pc_closed pc = false →
  let n := if zlen (pc_items pc) =? pc_cap pc then pc_cap pc - pc_cap pc / 2 else 0 in
  ParcelChannel_Send pc p =
    Ok (set_items pc (drop (Z.to_nat n) (pc_items pc) ++ [p]), (true, n)) ∧
  pc_wf (set_items pc (drop (Z.to_nat n) (pc_items pc) ++ [p])).
Proof. apply Send_open. Qed.

Definition pc_full : ParcelChannel :=
  MkPC 3 (Some <$> [NewParcel "a" [x00]; NewParcel "b" [x00]; NewParcel "c" [x00]]) false.

Theorem ParcelChannel_Send_spec_witness :
  let n := if zlen (pc_items pc_full) =? pc_cap pc_full
           then pc_cap pc_full - pc_cap pc_full / 2 else 0 in
  ParcelChannel_Send pc_full None =
    Ok (set_items pc_full (drop (Z.to_nat n) (pc_items pc_full) ++ [None]), (true, n)) ∧
  pc_wf (set_items pc_full (drop (Z.to_nat n) (pc_items pc_full) ++ [None])).
Proof. apply ParcelChannel_Send_spec; [split; vm_compute; congruence|vm_compute; congruence|done]. Defined.

(** ** Interleaved sends

    Every channel operation of [Send] is one step; the goroutine that reads the
    channel may receive between any two of them. *)
Inductive send_pc :=
  | SFirst                            (* the first [select] *)
  | SLoop (dropped : Z)               (* the test [len(pc) > cap(pc)/2] *)
  | SRecv (dropped : Z)               (* [<-pc] *)
  | SSecond (dropped : Z)             (* the second [select] *)
  | SDone (sent : bool) (dropped : Z).

Record sender := MkSender { s_parcel : option Parcel; s_pc : send_pc }.

(** the channel, the senders, every value ever enqueued and every value ever taken,
    with [true] for those a sender dropped *)
Record pc_system := MkSys {
  sys_chan : ParcelChannel;
  sys_senders : list sender;
  sys_in : list (option Parcel);
  sys_out : list (bool * option Parcel);
}.

(** one step of a sender: [None] when it blocks or has returned *)
Definition sender_step (pc : ParcelChannel) (s : sender)
    : option (ParcelChannel * send_pc * list (option Parcel) * list (bool * option Parcel)) :=
  match s_pc s with
  | SFirst =>
      match try_send pc (s_parcel s) with
      | Ok (Some pc) => Some (pc, SDone true 0, [s_parcel s], [])
      | Ok None => Some (pc, SLoop 0, [], [])
      | _ => None
      end
  | SLoop d =>
      Some (pc, if Z.quot (pc_cap pc) 2 <? zlen (pc_items pc) then SRecv d else SSecond d, [], [])
  | SRecv d =>
      match ParcelChannel_recv pc with
      | Some (p, pc) => Some (pc, SLoop (d + 1), [], [(true, p)])
      | None => None
      end
  | SSecond d =>
      match try_send pc (s_parcel s) with
      | Ok (Some pc) => Some (pc, SDone true d, [s_parcel s], [])
      | Ok None => Some (pc, SDone false d, [], [])
      | _ => None
      end
  | SDone _ _ => None
  end.

Inductive sys_step : pc_system → pc_system → Prop :=
  | step_sender sys i s pc st ins outs :
      sys_senders sys !! i = Some s →
      sender_step (sys_chan sys) s = Some (pc, st, ins, outs) →
      sys_step sys (MkSys pc (<[i:=MkSender (s_parcel s) st]> (sys_senders sys))
                      (sys_in sys ++ ins) (sys_out sys ++ outs))
  | step_reader sys p pc :
      ParcelChannel_recv (sys_chan sys) = Some (p, pc) →
      sys_step sys (MkSys pc (sys_senders sys) (sys_in sys) (sys_out sys ++ [(false, p)])).

(** all senders of the parcels [ps] about to call [Send] on a new channel *)
Definition sys_init (cap : Z) (ps : list (option Parcel)) : pc_system :=
  MkSys (newParcelChannel cap) ((λ p, MkSender p SFirst) <$> ps) [] [].

Definition sys_reachable (cap : Z) (ps : list (option Parcel)) : pc_system → Prop :=
  rtc sys_step (sys_init cap ps).

Definition sender_dropped (s : sender) : Z :=
  match s_pc s with SFirst => 0 | SLoop d | SRecv d | SSecond d | SDone _ d => d end.

Definition sender_sent (s : sender) : list (option Parcel) :=
  match s_pc s with SDone true _ => [s_parcel s] | _ => [] end.

Definition total (f : sender → Z) (l : list sender) : Z := foldr (λ s z, f s + z) 0 l.

Definition dropped_values (l : list (bool * option Parcel)) : list (bool * option Parcel) :=
  filter (λ o, fst o = true) l.

Record sys_wf (cap : Z) (sys : pc_system) : Prop := {
  wf_chan : pc_wf (sys_chan sys);
  wf_cap : pc_cap (sys_chan sys) = cap;
  wf_open : pc_closed (sys_chan sys) = false;
  wf_fifo : sys_in sys = (snd <$> sys_out sys) ++ pc_items (sys_chan sys);
  wf_sent : sys_in sys ≡ₚ (sys_senders sys ≫= sender_sent);
  wf_dropped : zlen (dropped_values (sys_out sys)) = total sender_dropped (sys_senders sys);
}.

Lemma total_insert f l i s s' :
  l !! i = Some s → total f (<[i:=s']> l) = total f l - f s + f s'.
Proof.
  revert i. induction l as [|x l IH]; intros [|i] H; simplify_eq/=; [lia|].
  rewrite (IH _ H). lia.
Qed.

Lemma sent_insert l i s s' ins :
  l !! i = Some s → sender_sent s = [] → sender_sent s' = ins →
  (<[i:=s']> l ≫= sender_sent) ≡ₚ (l ≫= sender_sent) ++ ins.
Proof.
  intros H H0 <-. revert i H. induction l as [|x l IH]; intros [|i] H; simplify_eq/=.
  - rewrite H0. simpl. apply Permutation_app_comm.
  - by rewrite (IH _ H), app_assoc.
Qed.

Lemma try_send_Some pc p pc' :
  try_send pc p = Ok (Some pc') →
  pc_closed pc = false ∧ zlen (pc_items pc) < pc_cap pc ∧ pc' = set_items pc (pc_items pc ++ [p]).
Proof. unfold try_send. repeat case_match; intros; simplify_eq. split_and!; [done|lia|done]. Qed.

Lemma recv_Some pc p pc' :
  pc_closed pc = false → ParcelChannel_recv pc = Some (p, pc') →
  pc_items pc = p :: pc_items pc' ∧ pc' = set_items pc (pc_items pc').
Proof. unfold ParcelChannel_recv. repeat case_match; intros; simplify_eq/=; done. Qed.

Lemma recv_wf pc p pc' :
  pc_wf pc → pc_closed pc = false → ParcelChannel_recv pc = Some (p, pc') →
  pc_wf pc' ∧ pc_cap pc' = pc_cap pc ∧ pc_closed pc' = false ∧ pc_items pc = p :: pc_items pc'.
Proof.
  unfold pc_wf. intros [? Hl] Hc Hr. apply recv_Some in Hr as [Hi ->]; [|done]. rewrite Hi, zlen_cons in Hl.
  split_and!; simpl in *; try done. lia.
Qed.

Lemma send_wf pc p pc' :
  pc_wf pc → try_send pc p = Ok (Some pc') →
  pc_wf pc' ∧ pc_cap pc' = pc_cap pc ∧ pc_closed pc' = false ∧ pc_items pc' = pc_items pc ++ [p].
Proof.
  unfold pc_wf. intros [? ?] (? & ? & ->)%try_send_Some.
  split_and!; simpl; try done. autorewrite with zlen. lia.
Qed.

(** a sender step in terms of the invariant's quantities *)
Lemma sender_step_spec pc s pc' st ins outs :
  pc_wf pc → pc_closed pc = false →
  sender_step pc s = Some (pc', st, ins, outs) →
  pc_wf pc' ∧ pc_cap pc' = pc_cap pc ∧ pc_closed pc' = false ∧
  pc_items pc ++ ins = (snd <$> outs) ++ pc_items pc' ∧
  sender_sent s = [] ∧ sender_sent (MkSender (s_parcel s) st) = ins ∧
  sender_dropped (MkSender (s_parcel s) st) = sender_dropped s + zlen (dropped_values outs).
Proof.
  intros Hwf Hopen H. unfold sender_step in H. unfold sender_sent, sender_dropped. simpl.
  destruct (s_pc s) as [|d|d|d|] eqn:Hpc; try done.
  - destruct (try_send pc (s_parcel s)) as [[pc1|]| | |] eqn:Ht; simplify_eq; simpl.
    + apply send_wf in Ht as (? & ? & ? & ->); done.
    + by rewrite app_nil_r.
  - simplify_eq. rewrite app_nil_r. simpl. change (zlen (dropped_values [])) with 0.
    destruct (Z.quot (pc_cap pc') 2 <? _); split_and!; try done; lia.
  - destruct (ParcelChannel_recv pc) as [[p pc1]|] eqn:Hr; simplify_eq.
    apply recv_wf in Hr as (? & ? & ? & ->); [|done..]. rewrite app_nil_r.
    split_and!; try done.
  - destruct (try_send pc (s_parcel s)) as [[pc1|]| | |] eqn:Ht; simplify_eq; simpl.
    + apply send_wf in Ht as (? & ? & ? & ->); [|done]. change (zlen (dropped_values [])) with 0.
      split_and!; try done; lia.
    + rewrite app_nil_r. change (zlen (dropped_values [])) with 0.
      split_and!; try done; lia.
Qed.

Lemma sys_step_wf cap sys sys' : sys_wf cap sys → sys_step sys sys' → sys_wf cap sys'.
Proof.
  intros [Hwf Hcap Hopen Hfifo Hsent Hdrop] Hstep.
  destruct Hstep as [sys i s pc st ins outs Hi Hs|sys p pc Hr].
  - apply sender_step_spec in Hs as (? & ? & ? & Hio & Hs0 & Hs1 & Hd); [|done..].
    split; simpl; [done|congruence|done|..].
    + by rewrite Hfifo, <-app_assoc, Hio, fmap_app, app_assoc.
    + rewrite Hsent. symmetry. by apply (sent_insert _ _ s).
    + unfold dropped_values in *. rewrite filter_app, zlen_app, Hdrop.
      rewrite (total_insert _ _ _ s) by done. lia.
  - apply recv_wf in Hr as (? & ? & ? & Hp); [|done..].
    split; simpl; [done|congruence|done|..|done|].
    + by rewrite Hfifo, Hp, fmap_app, <-app_assoc.
    + unfold dropped_values in *. rewrite filter_app, zlen_app, Hdrop. unfold zlen at 1. simpl. lia.
Qed.

(** [C11] In every interleaving of any number of [Send]s with the reader, the channel
    stays within its capacity and FIFO: what the reader and the senders took, in
    order, followed by what is buffered is exactly what was enqueued, nothing is
    enqueued but the parcels of the calls that report success, and the numbers of
    dropped parcels the calls count add up to those that were dropped. *)
Theorem ParcelChannel_interleaved cap ps sys :
  0 ≤ cap → sys_reachable cap ps sys → sys_wf cap sys.
Proof.
  intros Hcap Hr. unfold sys_reachable in Hr.
  assert (Hinit : sys_wf cap (sys_init cap ps)).
  { clear Hr. split; simpl; try done.
    - by induction ps as [|p ps IH]; [|simpl].
    - induction ps as [|p ps IH]; [done|]. exact IH. }
  revert Hinit. induction Hr as [|s1 s2 s3 Hstep _ IH]; [done|].
  intros H. apply IH. by apply (sys_step_wf _ s1).
Qed.

Definition sys_ab : pc_system :=
  MkSys (MkPC 1 [None] false) [MkSender None (SDone true 0); MkSender None SFirst] [None] [].

Theorem ParcelChannel_interleaved_witness : sys_wf 1 sys_ab.
Proof.
  apply (ParcelChannel_interleaved 1 [None; None]); [lia|].
  apply rtc_once.
  by apply (step_sender (sys_init 1 [None; None]) 0 (MkSender None SFirst)
    (MkPC 1 [None] false) (SDone true 0) [None] []).
Defined.

(** [Send] is not non-blocking once the reader runs beside it: with a capacity
    of two the reader may empty the channel between the length test and the
    receive of the dropping loop, and the sender then waits for another send. *)
Theorem ParcelChannel_Send_can_block a b c :
  ∃ sys, sys_reachable 2 [a; b; c] sys ∧
    sys_senders sys !! 2%nat = Some (MkSender c (SRecv 0)) ∧
    sender_step (sys_chan sys) (MkSender c (SRecv 0)) = None ∧
    ParcelChannel_recv (sys_chan sys) = None ∧
    Forall (λ s, s = MkSender c (SRecv 0) ∨ s_pc s = SDone true 0) (sys_senders sys).
Proof.
  eexists (MkSys (MkPC 2 [] false) [_; _; _] _ _). split.
  - unfold sys_reachable, sys_init, newParcelChannel. simpl.
    eapply rtc_l; [by eapply (step_sender _ 0%nat)|]. simpl.
    eapply rtc_l; [by eapply (step_sender _ 1%nat)|]. simpl.
    eapply rtc_l; [by eapply (step_sender _ 2%nat)|]. simpl.
    eapply rtc_l; [by eapply (step_sender _ 2%nat)|]. simpl.
    eapply rtc_l; [by eapply step_reader|]. simpl.
    eapply rtc_l; [by eapply step_reader|]. simpl. apply rtc_refl.
  - simpl. split_and!; [done..|]. rewrite !Forall_cons. naive_solver.
Qed.
