(* ===== verification/PeerHashCache.v ===== *)
(** * The cache of message hashes of a peer ([peerHashCache.go])

    A ring of buckets, each a Go map from hashes to [true]; the pointer [phc_pc]
    is the current bucket, and every interval the ring turns by one bucket, which
    forgets the oldest hashes.  The theorems show that the ring implements a list
    of buckets, newest first. *)
From S2P Require Import Prelude.

Definition Digest : Type := list byte.
Definition phcBucket : Type := gmap Digest bool.

Definition newphcBucket : phcBucket := ∅.
Definition phcBucket_Has (b : phcBucket) (h : Digest) : bool := default false (b !! h).
Definition phcBucket_Add (b : phcBucket) (h : Digest) : phcBucket := <[h:=true]> b.

Record PeerHashCache := MkPHC {
  phc_buckets : list phcBucket;
  phc_pc : Z;
  phc_stopped : bool;   (* the channel [stopper] is closed *)
}.

(** [make] panics on a negative length *)
Definition NewPeerHashCache (buckets : Z) : outcome () PeerHashCache :=
  if buckets <? 0 then Panic
  else Ok (MkPHC (replicate (Z.to_nat buckets) newphcBucket) 0 false).

(** [pr.buckets[i]] with Go's bounds check *)
Definition get_bucket (pr : PeerHashCache) (i : Z) : outcome () phcBucket :=
  if i <? 0 then Panic
  else match phc_buckets pr !! Z.to_nat i with Some b => Ok b | None => Panic end.

Definition set_bucket (pr : PeerHashCache) (i : Z) (b : phcBucket) : outcome () PeerHashCache :=
  get_bucket pr i ≫= λ _,
  Ok (MkPHC (<[Z.to_nat i:=b]> (phc_buckets pr)) (phc_pc pr) (phc_stopped pr)).

Definition phc_ptr (pr : PeerHashCache) (offset : Z) : outcome () Z :=
  if zlen (phc_buckets pr) =? 0 then Panic
  else Ok (Z.rem (phc_pc pr + offset) (zlen (phc_buckets pr))).

(** the loop of [Has], [i] running over the bucket numbers [idx] *)
Fixpoint has_loop (pr : PeerHashCache) (h : Digest) (idx : list Z) : outcome () bool :=
  match idx with
  | [] => Ok false
  | i :: idx =>
      phc_ptr pr i ≫= λ j, get_bucket pr j ≫= λ b,
      if phcBucket_Has b h then Ok true else has_loop pr h idx
  end.

Definition PeerHashCache_Has (pr : PeerHashCache) (h : Digest) : outcome () bool :=
  has_loop pr h (Z.of_nat <$> seq 0 (length (phc_buckets pr))).

Definition PeerHashCache_Add (pr : PeerHashCache) (h : Digest) : outcome () PeerHashCache :=
  get_bucket pr (phc_pc pr) ≫= λ b,
  set_bucket pr (phc_pc pr) (phcBucket_Add b h).

Definition dropOldestBucket (pr : PeerHashCache) : outcome () PeerHashCache :=
  let pc := phc_pc pr - 1 in
  let pc := if pc <? 0 then pc + zlen (phc_buckets pr) else pc in
  set_bucket (MkPHC (phc_buckets pr) pc (phc_stopped pr)) pc newphcBucket.

(** closing a closed channel panics *)
Definition PeerHashCache_Stop (pr : PeerHashCache) : outcome () PeerHashCache :=
  if phc_stopped pr then Panic else Ok (MkPHC (phc_buckets pr) (phc_pc pr) true).

(** What happens to the cache between its creation and its end: hashes are added by
    the peer, and the ticker of [cleanup] fires. *)
Inductive phc_event := EvAdd (h : Digest) | EvTick.

Definition phc_step (pr : PeerHashCache) (e : phc_event) : outcome () PeerHashCache :=
  match e with EvAdd h => PeerHashCache_Add pr h | EvTick => dropOldestBucket pr end.

Fixpoint phc_run (pr : PeerHashCache) (es : list phc_event) : outcome () PeerHashCache :=
  match es with [] => Ok pr | e :: es => phc_step pr e ≫= λ pr, phc_run pr es end.

(** [cleanup] starts with [time.NewTicker], which panics on an interval that is not
    positive, and ends with the stop signal. *)
Definition phc_cleanup (interval : Z) (pr : PeerHashCache) (ticks : nat) : outcome () PeerHashCache :=
  if interval <=? 0 then Panic else phc_run pr (replicate ticks EvTick).

(** ** The specification: a list of buckets, newest first *)

Definition phc_view (pr : PeerHashCache) : list phcBucket :=
  drop (Z.to_nat (phc_pc pr)) (phc_buckets pr) ++ take (Z.to_nat (phc_pc pr)) (phc_buckets pr).

Definition phc_wf (pr : PeerHashCache) : Prop :=
  0 ≤ phc_pc pr < zlen (phc_buckets pr).

Definition spec_add (l : list phcBucket) (h : Digest) : list phcBucket :=
  match l with [] => [] | b :: l => phcBucket_Add b h :: l end.
Definition spec_drop (l : list phcBucket) : list phcBucket := newphcBucket :: removelast l.
Definition spec_step (l : list phcBucket) (e : phc_event) : list phcBucket :=
  match e with EvAdd h => spec_add l h | EvTick => spec_drop l end.
Definition spec_has (l : list phcBucket) (h : Digest) : bool := existsb (λ b, phcBucket_Has b h) l.

Lemma get_bucket_Some pr i b :
  0 ≤ i → phc_buckets pr !! Z.to_nat i = Some b → get_bucket pr i = Ok b.
Proof. intros Hi Hb. unfold get_bucket. rewrite (proj2 (Z.ltb_ge _ _)) by lia. by rewrite Hb. Qed.

Lemma phc_view_lookup pr i :
  phc_wf pr → (i < length (phc_buckets pr))%nat →
  phc_view pr !! i =
    phc_buckets pr !! Z.to_nat (Z.rem (phc_pc pr + Z.of_nat i) (zlen (phc_buckets pr))).
Proof.
  unfold phc_wf, zlen, phc_view. intros Hpc Hi.
  destruct (decide (Z.to_nat (phc_pc pr) + i < length (phc_buckets pr))%nat).
  - rewrite lookup_app_l by (rewrite length_drop; lia).
    rewrite lookup_drop, Z.rem_small by lia. f_equal. lia.
  - rewrite lookup_app_r, length_drop by (rewrite length_drop; lia).
    rewrite lookup_take_lt by lia. f_equal.
    rewrite Z.rem_mod_nonneg by lia.
    rewrite <-(Z.mod_unique_pos _ _ 1 (phc_pc pr + Z.of_nat i - Z.of_nat (length (phc_buckets pr)))); lia.
Qed.

Lemma length_view pr : length (phc_view pr) = length (phc_buckets pr).
Proof. unfold phc_view. rewrite length_app, length_drop, length_take. lia. Qed.

(** *** The ring implements the list *)

Lemma has_loop_view pr h k :
  phc_wf pr → (k ≤ length (phc_buckets pr))%nat →
  has_loop pr h (Z.of_nat <$> seq (length (phc_buckets pr) - k) k) =
    Ok (spec_has (drop (length (phc_buckets pr) - k) (phc_view pr)) h).
Proof.
  intros Hwf. induction k as [|k IH]; intros Hk.
  - rewrite drop_ge by (rewrite length_view; lia). done.
  - set (n := length (phc_buckets pr)) in *. cbn [seq fmap list_fmap has_loop].
    assert (∃ b, phc_view pr !! (n - S k)%nat = Some b) as [b Hb].
    { apply lookup_lt_is_Some. rewrite length_view. fold n. lia. }
    rewrite (drop_S _ _ _ Hb). rewrite phc_view_lookup in Hb by (done || fold n; lia).
    unfold phc_ptr. unfold phc_wf in Hwf. rewrite (proj2 (Z.eqb_neq _ _)) by lia.
    rewrite bind_Ok, (get_bucket_Some _ _ b);
      [|apply Z.rem_nonneg; unfold zlen; lia|done].
    rewrite bind_Ok. cbn [spec_has existsb]. destruct (phcBucket_Has b h); [done|].
    replace (S (n - S k)) with (n - k)%nat by lia. by rewrite IH by lia.
Qed.

Lemma Has_view pr h : phc_wf pr → PeerHashCache_Has pr h = Ok (spec_has (phc_view pr) h).
Proof.
  intros Hwf. unfold PeerHashCache_Has.
  pose proof (has_loop_view pr h (length (phc_buckets pr)) Hwf ltac:(lia)) as H.
  by rewrite Nat.sub_diag, drop_0 in H.
Qed.

Lemma set_bucket_wf pr i b :
  0 ≤ i < zlen (phc_buckets pr) →
  set_bucket pr i b = Ok (MkPHC (<[Z.to_nat i:=b]> (phc_buckets pr)) (phc_pc pr) (phc_stopped pr)).
Proof.
  unfold zlen. intros Hi. unfold set_bucket.
  destruct (lookup_lt_is_Some_2 (phc_buckets pr) (Z.to_nat i) ltac:(lia)) as [b' Hb].
  by rewrite (get_bucket_Some _ _ b') by (done || lia).
Qed.

Lemma Add_view pr h :
  phc_wf pr → ∃ pr', PeerHashCache_Add pr h = Ok pr' ∧ phc_wf pr' ∧
    length (phc_buckets pr') = length (phc_buckets pr) ∧
    phc_view pr' = spec_add (phc_view pr) h.
Proof.
  intros Hwf. unfold PeerHashCache_Add. pose proof Hwf as Hwf'. unfold phc_wf, zlen in Hwf'.
  destruct (lookup_lt_is_Some_2 (phc_buckets pr) (Z.to_nat (phc_pc pr)) ltac:(lia)) as [b Hb].
  rewrite (get_bucket_Some _ _ b), bind_Ok, set_bucket_wf by (done || lia).
  eexists. split; [done|]. unfold phc_wf, phc_view, zlen. cbn [phc_buckets phc_pc].
  rewrite !length_insert. split_and!; [lia..|].
  rewrite (drop_S (phc_buckets pr) b) by done. rewrite take_insert_ge by lia.
  rewrite (drop_S _ (phcBucket_Add b h)) by (apply list_lookup_insert_eq; lia).
  rewrite drop_insert_lt by lia. done.
Qed.

Lemma drop_view pr :
  phc_wf pr → ∃ pr', dropOldestBucket pr = Ok pr' ∧ phc_wf pr' ∧
    length (phc_buckets pr') = length (phc_buckets pr) ∧
    phc_view pr' = spec_drop (phc_view pr).
Proof.
  intros Hwf. unfold dropOldestBucket. unfold phc_wf, zlen in Hwf.
  set (q := if phc_pc pr - 1 <? 0 then _ else _).
  assert (Hq : 0 ≤ q < zlen (phc_buckets pr)) by (unfold q, zlen; case_match; lia).
  rewrite set_bucket_wf by done. eexists. split; [done|].
  unfold phc_wf, phc_view, zlen. cbn [phc_buckets phc_pc]. rewrite !length_insert.
  split_and!; [unfold zlen in Hq; lia..|].
  rewrite (drop_S _ newphcBucket) by (apply list_lookup_insert_eq; unfold zlen in Hq; lia).
  rewrite drop_insert_lt, take_insert_ge by lia. unfold spec_drop. cbn [app]. f_equal.
  unfold q, zlen in *. clear q. destruct (Z.ltb_spec (phc_pc pr - 1) 0).
  - assert (phc_pc pr = 0) as -> by lia. cbn [Z.to_nat]. rewrite drop_0, app_nil_r.
    rewrite drop_ge by lia. cbn [app]. rewrite removelast_firstn_len. f_equal. lia.
  - destruct (lookup_lt_is_Some_2 (phc_buckets pr) (Z.to_nat (phc_pc pr - 1)) ltac:(lia)) as [b Hb].
    assert (Z.to_nat (phc_pc pr) = S (Z.to_nat (phc_pc pr - 1))) as -> by lia.
    rewrite (take_S_r _ _ _ Hb), app_assoc, removelast_last. done.
Qed.

(** ** What the cache remembers *)

#[export] Instance phc_event_eq_dec : EqDecision phc_event.
Proof. solve_decision. Defined.

Definition ticks (es : list phc_event) : nat := length (filter (λ e, e = EvTick) es).

Lemma phc_step_view pr e :
  phc_wf pr → ∃ pr', phc_step pr e = Ok pr' ∧ phc_wf pr' ∧
    length (phc_buckets pr') = length (phc_buckets pr) ∧
    phc_view pr' = spec_step (phc_view pr) e.
Proof. destruct e; [apply Add_view|apply drop_view]. Qed.

Lemma phc_run_view es pr :
  phc_wf pr → ∃ pr', phc_run pr es = Ok pr' ∧ phc_wf pr' ∧
    length (phc_buckets pr') = length (phc_buckets pr) ∧
    phc_view pr' = foldl spec_step (phc_view pr) es.
Proof.
  revert pr. induction es as [|e es IH]; intros pr Hwf; [by exists pr|].
  destruct (phc_step_view pr e Hwf) as (pr1 & Hs & Hwf1 & Hl & Hv).
  destruct (IH pr1 Hwf1) as (pr2 & Hr & ? & ? & Hv2). exists pr2.
  cbn [phc_run foldl]. rewrite Hs, bind_Ok, <-Hv. by rewrite <-Hl.
Qed.

Lemma PeerHashCache_view_run n es h :
  0 < n →
  ∃ pr0 pr, NewPeerHashCache n = Ok pr0 ∧ phc_run pr0 es = Ok pr ∧
    zlen (phc_buckets pr) = n ∧ 0 ≤ phc_pc pr < n ∧
    phc_view pr = foldl spec_step (replicate (Z.to_nat n) newphcBucket) es ∧
    PeerHashCache_Has pr h = Ok (spec_has (phc_view pr) h).
Proof.
  intros Hn. unfold NewPeerHashCache. rewrite (proj2 (Z.ltb_ge _ _)) by lia.
  set (pr0 := MkPHC _ 0 false).
  assert (Hwf : phc_wf pr0) by (unfold phc_wf, zlen; simpl; rewrite length_replicate; lia).
  destruct (phc_run_view es pr0 Hwf) as (pr & Hr & Hwf' & Hl & Hv).
  simpl in Hl. rewrite length_replicate in Hl. unfold phc_wf in Hwf'.
  exists pr0, pr. split_and!; try done; try (unfold zlen in *; lia).
  - rewrite Hv. unfold phc_view, pr0. simpl. by rewrite app_nil_r.
  - by apply Has_view.
Qed.

(** [C12] The ring of buckets refines the list of buckets, newest first: after any
    sequence of additions and ticks no index was out of range, the ring has its
    number of buckets, reading it from the current bucket on yields the list the
    specification computes, and [Has] looks through that whole list. *)
Theorem PeerHashCache_refines n es h :
  0 < n →
  ∃ pr0 pr, NewPeerHashCache n = Ok pr0 ∧ phc_run pr0 es = Ok pr ∧
    zlen (phc_buckets pr) = n ∧ 0 ≤ phc_pc pr < n ∧
    phc_view pr = foldl spec_step (replicate (Z.to_nat n) newphcBucket) es ∧
    PeerHashCache_Has pr h = Ok (spec_has (phc_view pr) h).
Proof. apply PeerHashCache_view_run. Qed.

Theorem PeerHashCache_refines_witness :
  ∃ pr0 pr, NewPeerHashCache 3 = Ok pr0 ∧ phc_run pr0 [EvAdd [x01]; EvTick] = Ok pr ∧
    zlen (phc_buckets pr) = 3 ∧ 0 ≤ phc_pc pr < 3 ∧
    phc_view pr = foldl spec_step (replicate (Z.to_nat 3) newphcBucket) [EvAdd [x01]; EvTick] ∧
    PeerHashCache_Has pr [x01] = Ok (spec_has (phc_view pr) [x01]).
Proof. apply PeerHashCache_refines. lia. Defined.

(** [h] was added exactly [i] ticks before the end of [es] *)
Definition added_ago (es : list phc_event) (h : Digest) (i : nat) : Prop :=
  ∃ pre post, es = pre ++ EvAdd h :: post ∧ ticks post = i.

Lemma ticks_snoc es e : ticks (es ++ [e]) = (ticks es + if decide (e = EvTick) then 1 else 0)%nat.
Proof. unfold ticks. rewrite filter_app, length_app. by destruct e. Qed.

Lemma added_ago_snoc es e h i :
  added_ago (es ++ [e]) h i ↔
  match e with
  | EvAdd h' => (h = h' ∧ i = 0%nat) ∨ added_ago es h i
  | EvTick => ∃ j, i = S j ∧ added_ago es h j
  end.
Proof.
  unfold added_ago. split.
  - intros (pre & post & He & <-). destruct post as [|e' post _] using rev_ind.
    + apply app_inj_tail in He as [-> ->]. by left.
    + rewrite app_comm_cons, app_assoc in He. apply app_inj_tail in He as [-> <-].
      rewrite ticks_snoc. destruct e; simpl.
      * right. exists pre, post. split; [done|lia].
      * exists (ticks post). split; [lia|]. by exists pre, post.
  - destruct e as [h'|].
    + intros [[-> ->]|(pre & post & -> & <-)]; [by exists es, []|].
      exists pre, (post ++ [EvAdd h']). rewrite ticks_snoc, <-app_assoc. simpl. split; [done|lia].
    + intros (j & -> & pre & post & -> & <-).
      exists pre, (post ++ [EvTick]). rewrite ticks_snoc, <-app_assoc. simpl. split; [done|lia].
Qed.

Lemma phcBucket_Has_Add b h h' :
  phcBucket_Has (phcBucket_Add b h') h = true ↔ h = h' ∨ phcBucket_Has b h = true.
Proof.
  unfold phcBucket_Has, phcBucket_Add. unfold phcBucket in *. rewrite lookup_insert.
  case_decide; naive_solver.
Qed.

(** bucket [i] of the list holds the hashes added [i] ticks ago *)
Lemma spec_view_lookup n es i b h :
  foldl spec_step (replicate n newphcBucket) es !! i = Some b →
  phcBucket_Has b h = true ↔ added_ago es h i.
Proof.
  revert i b. induction es as [|e es IH] using rev_ind; intros i b.
  - simpl. intros [-> ?]%lookup_replicate. split; [done|]. intros (pre & post & He & _).
    by destruct pre.
  - rewrite foldl_app, added_ago_snoc. cbn [foldl]. set (l := foldl _ _ es) in *.
    intros Hb. destruct e as [h'|]; cbn [spec_step] in Hb.
    + destruct l as [|b0 l]; [done|]. destruct i as [|i]; simpl in Hb; simplify_eq.
      * rewrite phcBucket_Has_Add, (IH 0%nat b0 eq_refl). naive_solver.
      * rewrite (IH (S i) b Hb). naive_solver.
    + destruct i as [|i]; simpl in Hb; simplify_eq.
      * split; [done|]. naive_solver.
      * rewrite removelast_firstn_len, lookup_take in Hb. case_decide; [|done].
        rewrite (IH _ _ Hb). naive_solver.
Qed.

(** What the cache remembers: [Has] answers true for exactly the hashes that
    were added with fewer ticks since than there are buckets. *)
Theorem PeerHashCache_Has_spec n es h :
  0 < n →
  ∃ b, (NewPeerHashCache n |>= (λ pr, phc_run pr es) |>= (λ pr, PeerHashCache_Has pr h)) = Ok b ∧
  (b = true ↔ ∃ pre post, es = pre ++ EvAdd h :: post ∧ Z.of_nat (ticks post) < n).
Proof.
  intros Hn. destruct (PeerHashCache_view_run n es h Hn) as (pr0 & pr & Hnew & Hrun & Hlen & _ & Hv & Hhas).
  eexists. rewrite Hnew, bind_Ok, Hrun, bind_Ok, Hhas. split; [done|].
  unfold spec_has. rewrite existsb_exists, Hv. split.
  - intros (b & Hb%list_elem_of_In & Hh). apply list_elem_of_lookup in Hb as [i Hi].
    pose proof (lookup_lt_Some _ _ _ Hi) as Hlt. apply (spec_view_lookup _ _ _ _ h) in Hi.
    apply Hi in Hh as (pre & post & -> & <-). exists pre, post. split; [done|].
    rewrite <-Hv in Hlt. rewrite length_view in Hlt. unfold zlen in Hlen. lia.
  - intros (pre & post & -> & Ht).
    destruct (lookup_lt_is_Some_2 (foldl spec_step (replicate (Z.to_nat n) newphcBucket)
      (pre ++ EvAdd h :: post)) (ticks post)) as [b Hb].
    { rewrite <-Hv, length_view. unfold zlen in Hlen. lia. }
    exists b. split; [by apply list_elem_of_In, (list_elem_of_lookup_2 _ (ticks post))|].
    apply (spec_view_lookup _ _ _ _ h Hb). by exists pre, post.
Qed.

Theorem PeerHashCache_Has_spec_witness :
  ∃ b, (NewPeerHashCache 2 |>= (λ pr, phc_run pr [EvAdd [x01]; EvTick; EvTick])
    |>= (λ pr, PeerHashCache_Has pr [x01])) = Ok b ∧
  (b = true ↔ ∃ pre post, [EvAdd [x01]; EvTick; EvTick] = pre ++ EvAdd [x01] :: post ∧
    Z.of_nat (ticks post) < 2).
Proof. apply PeerHashCache_Has_spec. lia. Defined.

(** A cache of no buckets, which [NewPeerHashCache 0] returns without complaint,
    panics at the first hash a peer adds and at the first tick. *)
Theorem PeerHashCache_zero_buckets h :
  NewPeerHashCache 0 = Ok (MkPHC [] 0 false) ∧
  PeerHashCache_Add (MkPHC [] 0 false) h = Panic ∧
  dropOldestBucket (MkPHC [] 0 false) = Panic.
Proof. done. Qed.
