(* ===== verification/Limiter.v ===== *)
(** * The rate-limited listener ([limiter.go])

    A listener that refuses a second connection from one host within [limit].
    The clock readings of the code are arguments, in the order it takes them; the
    address of the next TCP connection, or [None] when accepting failed, comes
    from the operating system. *)
From S2P Require Import Prelude GoStd.

Record attempt := MkAttempt { host : string; at_time : Z }.

#[export] Instance attempt_eq_dec : EqDecision attempt.
Proof. solve_decision. Defined.

Record LimitedListener := MkLL {
  limit : Z;
  lastConnection : Z;
  history : list attempt;
}.

Inductive listen_error := ErrNegativeLimit | ErrListen | ErrAccept | ErrRemoteAddr | ErrRateLimit.

#[export] Instance listen_error_eq_dec : EqDecision listen_error.
Proof. solve_decision. Defined.

(** [listens]: whether the address could be bound *)
Definition NewLimitedListener (listens : bool) (lim : Z) : outcome listen_error LimitedListener :=
  return_err_if lim <? 0 with ErrNegativeLimit;;
  return_err_if negb listens with ErrListen;;
  Ok (MkLL lim zero_time []).

(** the index loop of [clearHistory]: the entries from the first one after [tl] on *)
Fixpoint clear_loop (tl : Z) (l : list attempt) : list attempt :=
  match l with
  | [] => []
  | a :: l' => if tl <? at_time a then l else clear_loop tl l'
  end.

Definition clearHistory (now : Z) (ll : LimitedListener) : LimitedListener :=
  let tl := now + - limit ll in
  let h := if lastConnection ll <? tl then [] else history ll in
  let h := if 0 <? zlen h then clear_loop tl h else h in
  MkLL (limit ll) (lastConnection ll) h.

Definition isInHistory (now : Z) (h : string) (ll : LimitedListener) : LimitedListener * bool :=
  let ll := clearHistory now ll in
  (ll, existsb (λ a, bool_decide (host a = h)) (history ll)).

Definition addToHistory (now1 now2 : Z) (h : string) (ll : LimitedListener) : LimitedListener :=
  MkLL (limit ll) now2 (history ll ++ [MkAttempt h now1]).

(** the host of the accepted connection stands for the connection itself *)
Definition LimitedListener_Accept (con : option string) (now now1 now2 : Z) (ll : LimitedListener)
    : LimitedListener * outcome listen_error string :=
  match con with
  | None => (ll, Err ErrAccept)
  | Some addr =>
      match SplitHostPort addr with
      | None => (ll, Err ErrRemoteAddr)
      | Some (h, _) =>
          let (ll, seen) := isInHistory now h ll in
          if seen then (ll, Err ErrRateLimit)
          else (addToHistory now1 now2 h ll, Ok h)
      end
  end.

(** ** Runs of the accept loop

    [ll_run ll log t]: a listener in state [ll] after accepting the connections of
    [log], oldest first, the last clock reading being [t].  The clock does not go
    back. *)
Inductive ll_run (lim : Z) : LimitedListener → list attempt → Z → Prop :=
  | run_start t : ll_run lim (MkLL lim zero_time []) [] t
  | run_accept ll log t con now now1 now2 ll' h :
      ll_run lim ll log t → t ≤ now → now ≤ now1 → now1 ≤ now2 →
      LimitedListener_Accept con now now1 now2 ll = (ll', Ok h) →
      ll_run lim ll' (log ++ [MkAttempt h now1]) now2
  | run_refuse ll log t con now now1 now2 ll' e :
      ll_run lim ll log t → t ≤ now →
      LimitedListener_Accept con now now1 now2 ll = (ll', Err e) →
      ll_run lim ll' log now.

(** The invariant: the history is the log without a prefix of entries that are all
    out of the window, for every window from now on. *)
Record ll_inv (lim : Z) (ll : LimitedListener) (log : list attempt) (t : Z) : Prop := {
  inv_limit : limit ll = lim;
  inv_suffix : ∃ old, log = old ++ history ll ∧ Forall (λ a, at_time a ≤ t - lim) old;
  inv_sorted : ∀ i j a b, log !! i = Some a → log !! j = Some b → (i ≤ j)%nat → at_time a ≤ at_time b;
  inv_last : Forall (λ a, at_time a ≤ lastConnection ll) log;
  inv_now : Forall (λ a, at_time a ≤ t) log;
}.

Lemma clear_loop_suffix tl l :
  ∃ old, l = old ++ clear_loop tl l ∧ Forall (λ a, at_time a ≤ tl) old.
Proof.
  induction l as [|a l (old & Hl & Hold)]; [by exists []|]. simpl.
  destruct (Z.ltb_spec tl (at_time a)); [by exists []|].
  exists (a :: old). split; [by rewrite Hl at 1|]. apply Forall_cons. done.
Qed.

Lemma clear_loop_head tl l a l' : clear_loop tl l = a :: l' → tl < at_time a.
Proof. induction l as [|b l IH]; simpl; [done|]. case_match; [intros; simplify_eq; lia|done]. Qed.

Lemma clearHistory_history now ll :
  history (clearHistory now ll) =
    if lastConnection ll <? now - limit ll then [] else clear_loop (now - limit ll) (history ll).
Proof.
  unfold clearHistory. simpl. replace (now + - limit ll) with (now - limit ll) by lia.
  destruct (lastConnection ll <? now - limit ll); [done|]. by destruct (history ll).
Qed.

Lemma clearHistory_inv lim ll log t now :
  ll_inv lim ll log t → t ≤ now →
  ll_inv lim (clearHistory now ll) log now ∧
  (∀ a, a ∈ history (clearHistory now ll) ↔ a ∈ log ∧ now - lim < at_time a).
Proof.
  intros [Hlim (old & Hlog & Hold) Hsort Hlast Hnow] Ht. rewrite <-Hlim in *.
  assert (Hsplit : ∃ old', log = old' ++ history (clearHistory now ll) ∧
    Forall (λ a, at_time a ≤ now - limit ll) old').
  { rewrite clearHistory_history. destruct (Z.ltb_spec (lastConnection ll) (now - limit ll)).
    - exists log. rewrite app_nil_r. split; [done|]. eapply Forall_impl; [exact Hlast|].
      simpl. lia.
    - destruct (clear_loop_suffix (now - limit ll) (history ll)) as (old2 & Hh & Hold2).
      exists (old ++ old2). rewrite <-app_assoc, <-Hh. split; [done|].
      apply Forall_app; split; [|done]. eapply Forall_impl; [exact Hold|]. simpl. lia. }
  split.
  - split; [done|exact Hsplit|exact Hsort|exact Hlast|].
    eapply Forall_impl; [exact Hnow|]. simpl. lia.
  - intros a. destruct Hsplit as (old' & Hlog' & Hold'). split.
    + intros Ha. split; [rewrite Hlog'; set_solver|].
      rewrite clearHistory_history in Hlog', Ha.
      destruct (_ <? _); [set_solver|].
      destruct (clear_loop _ _) as [|a0 h] eqn:Hc; [set_solver|].
      apply clear_loop_head in Hc. apply list_elem_of_lookup in Ha as [i Hi].
      enough (at_time a0 ≤ at_time a) by lia.
      apply (Hsort (length old') (length old' + i)%nat); [..|lia]; rewrite Hlog'.
      * by rewrite list_lookup_middle.
      * rewrite lookup_app_r by lia. by replace (length old' + i - length old')%nat with i by lia.
    + intros [Ha Hlt]. rewrite Hlog' in Ha. apply elem_of_app in Ha as [Ha|Ha]; [|done].
      rewrite Forall_forall in Hold'. specialize (Hold' _ Ha). simpl in Hold'. lia.
Qed.

Lemma ll_inv_init lim t : ll_inv lim (MkLL lim zero_time []) [] t.
Proof. split; [done|by exists []|done..]. Qed.

Lemma addToHistory_inv lim ll log t now1 now2 h :
  ll_inv lim ll log t → t ≤ now1 ≤ now2 → 
  ll_inv lim (addToHistory now1 now2 h ll) (log ++ [MkAttempt h now1]) now2.
Proof.
  intros [Hlim (old & Hlog & Hold) Hsort Hlast Hnow] Ht. rewrite Forall_forall in Hnow.
  assert (Hle : ∀ a, a ∈ log ++ [MkAttempt h now1] → at_time a ≤ now1).
  { intros a [Ha|Ha]%elem_of_app; [apply Hnow in Ha; simpl in Ha; lia|].
    apply list_elem_of_singleton in Ha as ->. done. }
  split; [done|..].
  - exists old. simpl. rewrite Hlog, <-app_assoc. split; [done|].
    eapply Forall_impl; [exact Hold|]. simpl. lia.
  - intros i j a b Hi Hj Hij.
    rewrite lookup_app in Hj. destruct (log !! j) as [b'|] eqn:Hj'.
    + simplify_eq. rewrite lookup_app_l in Hi; [by eapply Hsort|].
      apply lookup_lt_Some in Hj'. lia.
    + apply list_lookup_singleton_Some in Hj as [_ <-]. simpl.
      apply Hle. by eapply list_elem_of_lookup_2.
  - apply Forall_forall. intros a Ha. apply Hle in Ha. simpl. lia.
  - apply Forall_forall. intros a Ha. apply Hle in Ha. simpl. lia.
Qed.

Lemma ll_inv_mono lim ll log t t' : ll_inv lim ll log t → t ≤ t' → ll_inv lim ll log t'.
Proof.
  intros [? (old & ? & Hold) ? ? Hnow] Ht. split; [done| |done|done|].
  - exists old. split; [done|]. eapply Forall_impl; [exact Hold|]. simpl. lia.
  - eapply Forall_impl; [exact Hnow|]. simpl. lia.
Qed.

(** one call of [Accept] on a state with the invariant *)
Lemma Accept_inv lim ll log t con now now1 now2 :
  ll_inv lim ll log t → t ≤ now → now ≤ now1 ≤ now2 →
  match con ≫= SplitHostPort with
  | None => ∃ e, LimitedListener_Accept con now now1 now2 ll = (ll, Err e) ∧ e ≠ ErrRateLimit
  | Some (h, _) =>
      let recent := ∃ a, a ∈ log ∧ host a = h ∧ now - lim < at_time a in
      (recent ∧ LimitedListener_Accept con now now1 now2 ll = (clearHistory now ll, Err ErrRateLimit)) ∨
      (¬ recent ∧ LimitedListener_Accept con now now1 now2 ll =
        (addToHistory now1 now2 h (clearHistory now ll), Ok h))
  end.
Proof.
  intros Hinv Ht Ht1. destruct con as [addr|]; [simpl|by exists ErrAccept].
  destruct (SplitHostPort addr) as [[h p]|]; [|by exists ErrRemoteAddr].
  destruct (clearHistory_inv _ _ _ _ _ Hinv Ht) as [_ Hh].
  destruct (existsb _ _) eqn:E.
  - left. split; [|done]. apply existsb_exists in E as (a & Ha & Hhost).
    apply list_elem_of_In, Hh in Ha as [? ?]. apply bool_decide_eq_true in Hhost. by exists a.
  - right. split; [|done]. intros (a & Ha & Hhost & Hlt).
    apply not_true_iff_false in E. apply E, existsb_exists. exists a.
    split; [by apply list_elem_of_In, Hh|by apply bool_decide_eq_true].
Qed.

Lemma ll_run_inv lim ll log t : ll_run lim ll log t → ll_inv lim ll log t.
Proof.
  induction 1 as [t|ll log t con now now1 now2 ll' h _ IH ? ? ? Hacc
                   |ll log t con now now1 now2 ll' e _ IH ? Hacc]; [apply ll_inv_init|..].
  - pose proof (Accept_inv _ _ _ _ con now now1 now2 IH ltac:(lia) ltac:(lia)) as HA.
    rewrite Hacc in HA. destruct (con ≫= SplitHostPort) as [[h' p]|]; [|naive_solver].
    destruct HA as [[_ HA]|[_ HA]]; simplify_eq.
    apply (addToHistory_inv _ _ _ now); [|lia]. by apply (clearHistory_inv _ _ _ t).
  - unfold LimitedListener_Accept in Hacc. destruct con as [addr|]; [|simplify_eq; by eapply ll_inv_mono].
    destruct (SplitHostPort addr) as [[h' p]|]; [|simplify_eq; by eapply ll_inv_mono].
    unfold isInHistory in Hacc. cbv zeta beta in Hacc.
    destruct (existsb _ _); simplify_eq. by apply (clearHistory_inv _ _ _ t).
Qed.

(** [C35] At any point of its life the listener refuses a parsable address for its
    rate exactly when it accepted a connection of that host less than [limit] ago:
    forgetting history, with its shortcut for quiet times, never changes an answer. *)
Theorem LimitedListener_Accept_spec lim ll log t addr h p now now1 now2 :
  ll_run lim ll log t → t ≤ now → now ≤ now1 → now1 ≤ now2 →
  SplitHostPort addr = Some (h, p) →
  snd (LimitedListener_Accept (Some addr) now now1 now2 ll) =
    if decide (Exists (λ a, host a = h ∧ now - lim < at_time a) log)
    then Err ErrRateLimit else Ok h.
Proof.
  intros Hrun Ht H1 H2 Haddr. apply ll_run_inv in Hrun.
  pose proof (Accept_inv _ _ _ _ (Some addr) now now1 now2 Hrun Ht ltac:(lia)) as HA.
  change (Some addr ≫= SplitHostPort) with (SplitHostPort addr) in HA.
  rewrite Haddr in HA. cbv beta iota zeta in HA.
  case_decide as Hd; rewrite Exists_exists in Hd;
    by destruct HA as [[? ->]|[? ->]].
Qed.

(** Connections of one host that the listener lets through are at least [limit]
    apart, whatever else it accepts and refuses in between. *)
Theorem LimitedListener_spacing lim ll log t i j a b :
  ll_run lim ll log t → log !! i = Some a → log !! j = Some b → (i < j)%nat →
  host a = host b → at_time a + lim ≤ at_time b.
Proof.
  intros Hrun. revert i j a b.
  induction Hrun as [t|ll log t con now now1 now2 ll' h Hrun IH ? ? ? Hacc
    |ll log t con now now1 now2 ll' e Hrun IH ? Hacc]; intros i j a b Hi Hj Hij Hhost.
  - by rewrite lookup_nil in Hi.
  - rewrite lookup_app in Hj. destruct (log !! j) as [b'|] eqn:Hj'.
    + simplify_eq. rewrite lookup_app_l in Hi; [by eapply IH|].
      apply lookup_lt_Some in Hj'. lia.
    + apply list_lookup_singleton_Some in Hj as [Hj <-]. apply lookup_ge_None_1 in Hj'.
      rewrite lookup_app_l in Hi by lia. simpl in Hhost |- *.
      apply ll_run_inv in Hrun.
      pose proof (Accept_inv _ _ _ _ con now now1 now2 Hrun ltac:(lia) ltac:(lia)) as HA.
      rewrite Hacc in HA. destruct (con ≫= SplitHostPort) as [[h' p]|]; [|naive_solver].
      destruct HA as [[_ HA]|[Hno HA]]; simplify_eq.
      destruct (decide (now - lim < at_time a)); [|lia].
      exfalso. apply Hno. exists a. split_and!; [by eapply list_elem_of_lookup_2|done|done].
  - by eapply IH.
Qed.

Definition ll_addr : string := "1.2.3.4:80".
Definition ll_state (t : Z) : LimitedListener := MkLL 5 t [MkAttempt "1.2.3.4" t].

Lemma ll_run_one : ll_run 5 (ll_state 10) [MkAttempt "1.2.3.4" 10] 10.
Proof.
  apply (run_accept 5 (MkLL 5 zero_time []) [] 0 (Some ll_addr) 10 10 10 (ll_state 10)); [apply run_start|lia..|by vm_compute].
Qed.

Theorem LimitedListener_Accept_spec_witness :
  snd (LimitedListener_Accept (Some ll_addr) 14 14 14 (ll_state 10)) =
    if decide (Exists (λ a, host a = "1.2.3.4"%string ∧ 14 - 5 < at_time a) [MkAttempt "1.2.3.4" 10])
    then Err ErrRateLimit else Ok "1.2.3.4"%string.
Proof.
  apply (LimitedListener_Accept_spec 5 _ _ 10 _ _ "80"); [apply ll_run_one|lia..|by vm_compute].
Defined.

Theorem LimitedListener_spacing_witness : 10 + 5 ≤ 15.
Proof.
  apply (LimitedListener_spacing 5 (ll_state 15) [MkAttempt "1.2.3.4" 10; MkAttempt "1.2.3.4" 15] 15 0 1
    (MkAttempt "1.2.3.4" 10) (MkAttempt "1.2.3.4" 15)); [|done|done|lia|done].
  apply (run_accept 5 (ll_state 10) [MkAttempt "1.2.3.4" 10] 10 (Some ll_addr) 15 15 15);
    [apply ll_run_one|lia..|by vm_compute].
Defined.
