(* ===== verification/Dialer.v ===== *)
(** * The throttled dialer ([dialer.go])

    The dialer remembers when each endpoint was last dialed and refuses to dial it
    again within [interval].  The outcome of the TCP connection itself and of
    resolving the local address come from the operating system and are arguments,
    as are the clock readings. *)
From S2P Require Import Prelude GoStd Endpoint.

Record Dialer := MkDialer {
  bindTo : string;
  interval : Z;
  timeout : Z;
  attempts : gmap Endpoint Z;
}.

Inductive dial_error := ErrResolve | ErrTooSoon | ErrConnect.

#[export] Instance dial_error_eq_dec : EqDecision dial_error.
Proof. solve_decision. Defined.

Definition Dialer_Bind (resolves : bool) (to : string) (d : Dialer) : outcome dial_error Dialer :=
  return_err_if negb resolves with ErrResolve;;
  Ok (MkDialer to (interval d) (timeout d) (attempts d)).

Definition NewDialer (resolves : bool) (to : string) (ivl tmo : Z) : outcome dial_error Dialer :=
  Dialer_Bind resolves to (MkDialer EmptyString ivl tmo ∅).

Definition CanDial (now : Z) (d : Dialer) (ep : Endpoint) : bool :=
  match attempts d !! ep with
  | None => true
  | Some a => interval d <=? time_since now a
  end.

(** [t, ok := d.attempts[ep]; ok && time.Since(t) < d.interval] *)
Definition too_soon (now : Z) (d : Dialer) (ep : Endpoint) : bool :=
  match attempts d !! ep with
  | Some t => time_since now t <? interval d
  | None => false
  end.

(** [con]: the connection, or [None] when dialing fails; [now] is read for the
    test, [now'] for the new attempt *)
Definition Dialer_Dial {C} (now now' : Z) (con : option C) (d : Dialer) (ep : Endpoint)
    : Dialer * outcome dial_error C :=
  if too_soon now d ep then (d, Err ErrTooSoon)
  else
    let d := MkDialer (bindTo d) (interval d) (timeout d) (<[ep:=now']> (attempts d)) in
    (d, match con with None => Err ErrConnect | Some c => Ok c end).

(** The life of a dialer: [log] holds the attempts it made, oldest first, each with
    the clock reading it recorded. *)
Inductive dialer_run {C} (ivl tmo : Z) : Dialer → list (Endpoint * Z) → Z → Prop :=
  | dr_new to t d : NewDialer true to ivl tmo = Ok d → dialer_run ivl tmo d [] t
  | dr_bind b to d d' log t :
      dialer_run ivl tmo d log t → Dialer_Bind b to d = Ok d' → dialer_run ivl tmo d' log t
  | dr_refused d ep log t now now' (con : option C) d' :
      dialer_run ivl tmo d log t → t ≤ now → now ≤ now' →
      Dialer_Dial now now' con d ep = (d', Err ErrTooSoon) → dialer_run ivl tmo d' log now
  | dr_dial d ep log t now now' (con : option C) d' r :
      dialer_run ivl tmo d log t → t ≤ now → now ≤ now' →
      Dialer_Dial now now' con d ep = (d', r) → r ≠ Err ErrTooSoon →
      dialer_run ivl tmo d' (log ++ [(ep, now')]) now'.

(** the time of the last attempt at an endpoint *)
Definition last_attempt (log : list (Endpoint * Z)) (ep : Endpoint) : option Z :=
  foldl (λ o e, if decide (fst e = ep) then Some (snd e) else o) None log.

Lemma last_attempt_snoc log e ep :
  last_attempt (log ++ [e]) ep = if decide (fst e = ep) then Some (snd e) else last_attempt log ep.
Proof. unfold last_attempt. by rewrite foldl_app. Qed.

Lemma last_attempt_lookup log ep i ti :
  log !! i = Some (ep, ti) →
  ∃ j tl, (i ≤ j)%nat ∧ log !! j = Some (ep, tl) ∧ last_attempt log ep = Some tl.
Proof.
  induction log as [|[ep' t'] log IH] using rev_ind; [by rewrite lookup_nil|].
  rewrite last_attempt_snoc. simpl. rewrite lookup_app.
  destruct (decide (ep' = ep)) as [->|Hne].
  - intros Hi. exists (length log), t'. rewrite list_lookup_middle by done. split; [|done].
    destruct (log !! i) eqn:E; [apply lookup_lt_Some in E; lia|].
    apply list_lookup_singleton_Some in Hi as [? _]. apply lookup_ge_None_1 in E. lia.
  - destruct (log !! i) as [e|] eqn:E.
    + intros [= ->]. destruct (IH eq_refl) as (j & tl & ? & Hj & ?). exists j, tl.
      rewrite lookup_app_l by (by eapply lookup_lt_Some). done.
    + intros [_ [= -> _]]%list_lookup_singleton_Some. done.
Qed.

Lemma dialer_run_inv {C} ivl tmo d log t :
  @dialer_run C ivl tmo d log t →
  interval d = ivl ∧ (∀ ep, attempts d !! ep = last_attempt log ep) ∧
  Forall (λ e, snd e ≤ t) log.
Proof.
  induction 1 as [to t d Hd|b to d d' log t _ (?&?&?) Hd
    |d ep log t now now' con d' _ (?&?&Hf) ? ? Hd|d ep log t now now' con d' r _ (?&Ha&Hf) ? ? Hd Hr].
  - unfold NewDialer, Dialer_Bind in Hd. simplify_eq/=. split_and!; [done| |done].
    intros ep. apply lookup_empty.
  - unfold Dialer_Bind in Hd. destruct b; simplify_eq/=. done.
  - unfold Dialer_Dial in Hd. destruct (too_soon now d ep); simplify_eq/=.
    + split_and!; [done..|]. eapply Forall_impl; [exact Hf|]. simpl. lia.
    + by destruct con.
  - unfold Dialer_Dial in Hd. destruct (too_soon now d ep); simplify_eq/=.
    split_and!; [done|..].
    + intros ep'. rewrite last_attempt_snoc, <-Ha. simpl. rewrite lookup_insert.
      by repeat case_decide.
    + apply Forall_app. split; [eapply Forall_impl; [exact Hf|simpl; lia]|].
      rewrite Forall_singleton. simpl. lia.
Qed.

(** [CanDial] foretells [Dial]: at one clock reading an endpoint can be dialed
    exactly when [Dial] does not refuse it as too soon; a refusal leaves the dialer
    as it was, and an attempt, whether it connects or fails, locks exactly this
    endpoint for the interval. *)
Theorem Dialer_CanDial_Dial {C} now now' (con : option C) d ep :
  0 < interval d → is_i64 (interval d) →
  match Dialer_Dial now now' con d ep with
  | (d', Err ErrTooSoon) => CanDial now d ep = false ∧ d' = d
  | (d', r) => CanDial now d ep = true ∧
      r = match con with Some c => Ok c | None => Err ErrConnect end ∧
      (∀ later, CanDial later d' ep = true ↔ now' + interval d ≤ later) ∧
      (∀ later ep', ep' ≠ ep → CanDial later d' ep' = CanDial later d ep')
  end.
Proof.
  intros Hpos Hi. unfold Dialer_Dial.
  assert (CanDial now d ep = negb (too_soon now d ep)) as ->.
  { unfold CanDial, too_soon. destruct (attempts d !! ep); [apply Z.leb_antisym|done]. }
  destruct (too_soon now d ep); [done|]. unfold CanDial. cbn [attempts interval].
  destruct con as [c|]; cbn [negb].
  all: split_and!; [done|done|..];
    [intros later; rewrite lookup_insert_eq; unfold is_i64, time_since, min_duration, max_duration in *; lia
    |intros later ep' Hne; by rewrite lookup_insert_ne by done].
Qed.

Theorem Dialer_CanDial_Dial_witness :
  let d := MkDialer EmptyString 120 5 {[ ep_a := 10 ]} in
  match Dialer_Dial 50 50 (Some tt) d ep_a with
  | (d', Err ErrTooSoon) => CanDial 50 d ep_a = false ∧ d' = d
  | (d', r) => CanDial 50 d ep_a = true ∧ r = Ok tt ∧
      (∀ later, CanDial later d' ep_a = true ↔ 50 + interval d ≤ later) ∧
      (∀ later ep', ep' ≠ ep_a → CanDial later d' ep' = CanDial later d ep')
  end.
Proof.
  exact (Dialer_CanDial_Dial 50 50 (Some tt) (MkDialer EmptyString 120 5 {[ ep_a := 10 ]}) ep_a
    ltac:(simpl; lia) ltac:(unfold is_i64; simpl; lia)).
Defined.

(** Whatever sequence of dials and refusals a dialer goes through, two attempts
    at one endpoint are at least the interval apart. *)
Theorem Dialer_spacing {C} ivl tmo d log t i j ep ti tj :
  @dialer_run C ivl tmo d log t → 0 ≤ ivl → is_i64 ivl →
  log !! i = Some (ep, ti) → log !! j = Some (ep, tj) → (i < j)%nat → ti + ivl ≤ tj.
Proof.
  intros Hrun Hpos Hi64. revert i j ep ti tj.
  induction Hrun as [|b to d d' log t Hrun IH ?|d ep0 log t now now' con d' Hrun IH|d ep0 log t now now' con d' r Hrun IH ? ? Hd Hr];
    intros i j ep ti tj Hi Hj Hij; [by rewrite lookup_nil in Hi|by eapply IH|by eapply IH|].
  destruct (dialer_run_inv _ _ _ _ _ Hrun) as (<- & Ha & Hf).
  rewrite lookup_app in Hj. destruct (log !! j) as [b'|] eqn:Hj'.
  { simplify_eq. rewrite lookup_app_l in Hi; [by eapply IH|]. apply lookup_lt_Some in Hj'. lia. }
  apply list_lookup_singleton_Some in Hj as [Hj [= -> ->]]. apply lookup_ge_None_1 in Hj'.
  rewrite lookup_app_l in Hi by lia.
  assert (∃ tl, last_attempt log ep = Some tl ∧ ti ≤ tl ∧ (time_since now tl <? interval d) = false)
    as (tl & Hl & Hle & Hs).
  2: { apply Z.ltb_ge in Hs. unfold is_i64, time_since, min_duration, max_duration in *. lia. }
  destruct (last_attempt_lookup _ _ _ _ Hi) as (k & tl & Hik & Hk & Hl). exists tl.
  split; [done|]. split.
  - destruct (decide (i = k)) as [->|]; [simplify_eq; lia|].
    pose proof (IH i k ep ti tl Hi Hk ltac:(lia)). lia.
  - unfold Dialer_Dial, too_soon in Hd. rewrite Ha, Hl in Hd. by destruct (_ <? _); simplify_eq.
Qed.

Theorem Dialer_spacing_witness : 10 + 120 ≤ 130.
Proof.
  apply (Dialer_spacing (C:=()) 120 5 (MkDialer EmptyString 120 5 {[ ep_a := 130 ]})
    [(ep_a, 10); (ep_a, 130)] 130 0 1 ep_a); [|lia|unfold is_i64; lia|done|done|lia].
  apply (dr_dial 120 5 (MkDialer EmptyString 120 5 {[ ep_a := 10 ]}) ep_a [(ep_a, 10)] 10 130 130
    None _ (Err ErrConnect)); [|lia|lia|by vm_compute|done].
  apply (dr_dial 120 5 (MkDialer EmptyString 120 5 ∅) ep_a [] 0 10 10
    None _ (Err ErrConnect)); [|lia|lia|by vm_compute|done].
  by apply (dr_new 120 5 EmptyString).
Defined.
