(* ===== verification/Configuration.v ===== *)
(** * Configuration ([configuration.go])

    The settings of a node.  A [uint] is its value below [2^64], a duration its
    nanoseconds. *)
From S2P Require Import Prelude GoStd Endpoint NetworkId.

Definition Broadcast : string := "<BROADCAST>".
Definition FullBroadcast : string := "<FULLBORADCAST>".
Definition RandomPeer : string := "<RANDOMPEER>".

Record Configuration := MkConfiguration {
  Network : Z;
  NodeID : Z;
  NodeName : string;
  PeerRequestInterval : Z;
  PeerReseedInterval : Z;
  PeerIPLimitIncoming : Z;
  PeerIPLimitOutgoing : Z;
  Special : string;
  PeerCacheFile : string;
  PeerCacheAge : Z;
  PeerShareAmount : Z;
  PeerShareTimeout : Z;
  RoundTime : Z;
  TargetPeers : Z;
  MaxPeers : Z;
  DropTo : Z;
  MinReseed : Z;
  MaxIncoming : Z;
  Fanout : Z;
  SeedURL : string;
  BindIP : string;
  ListenPort : string;
  ListenLimit : Z;
  PingInterval : Z;
  RedialInterval : Z;
  ManualBan : Z;
  HandshakeTimeout : Z;
  DialTimeout : Z;
  ReadDeadline : Z;
  WriteDeadline : Z;
  ProtocolVersion : Z;
  ProtocolVersionMinimum : Z;
  ChannelCapacity : Z;
  EnablePrometheus : bool;
  PeerResendFilter : bool;
  PeerResendBuckets : Z;
  PeerResendInterval : Z;
}.

Definition DefaultP2PConfiguration : Configuration := {|
  Network := MainNet;
  NodeID := 0;
  NodeName := "FNode0";
  PeerRequestInterval := Second * 5;
  PeerReseedInterval := Hour * 4;
  PeerIPLimitIncoming := 0;
  PeerIPLimitOutgoing := 0;
  Special := EmptyString;
  PeerCacheFile := EmptyString;
  PeerCacheAge := Hour;
  PeerShareAmount := 3;
  PeerShareTimeout := Second * 5;
  RoundTime := Minute * 15;
  TargetPeers := 32;
  MaxPeers := 36;
  DropTo := 30;
  MinReseed := 10;
  MaxIncoming := 36;
  Fanout := 8;
  SeedURL := EmptyString;
  BindIP := EmptyString;
  ListenPort := "8108";
  ListenLimit := Second;
  PingInterval := Second * 15;
  RedialInterval := Minute * 2;
  ManualBan := Hour * 24 * 7;
  HandshakeTimeout := Second * 5;
  DialTimeout := Second * 5;
  ReadDeadline := Minute * 5;
  WriteDeadline := Minute * 5;
  ProtocolVersion := 10;
  ProtocolVersionMinimum := 9;
  ChannelCapacity := 1000;
  EnablePrometheus := true;
  PeerResendFilter := true;
  PeerResendBuckets := 3;
  PeerResendInterval := Second * 20;
|}.

(** the two assignments of [Sanitize] *)
Definition set_MaxIncoming (v : Z) (c : Configuration) : Configuration :=
  MkConfiguration (Network c) (NodeID c) (NodeName c) (PeerRequestInterval c)
    (PeerReseedInterval c) (PeerIPLimitIncoming c) (PeerIPLimitOutgoing c) (Special c)
    (PeerCacheFile c) (PeerCacheAge c) (PeerShareAmount c) (PeerShareTimeout c)
    (RoundTime c) (TargetPeers c) (MaxPeers c) (DropTo c) (MinReseed c) v
    (Fanout c) (SeedURL c) (BindIP c) (ListenPort c) (ListenLimit c) (PingInterval c)
    (RedialInterval c) (ManualBan c) (HandshakeTimeout c) (DialTimeout c) (ReadDeadline c)
    (WriteDeadline c) (ProtocolVersion c) (ProtocolVersionMinimum c) (ChannelCapacity c)
    (EnablePrometheus c) (PeerResendFilter c) (PeerResendBuckets c) (PeerResendInterval c).
Definition set_DropTo (v : Z) (c : Configuration) : Configuration :=
  MkConfiguration (Network c) (NodeID c) (NodeName c) (PeerRequestInterval c)
    (PeerReseedInterval c) (PeerIPLimitIncoming c) (PeerIPLimitOutgoing c) (Special c)
    (PeerCacheFile c) (PeerCacheAge c) (PeerShareAmount c) (PeerShareTimeout c)
    (RoundTime c) (TargetPeers c) (MaxPeers c) v (MinReseed c) (MaxIncoming c)
    (Fanout c) (SeedURL c) (BindIP c) (ListenPort c) (ListenLimit c) (PingInterval c)
    (RedialInterval c) (ManualBan c) (HandshakeTimeout c) (DialTimeout c) (ReadDeadline c)
    (WriteDeadline c) (ProtocolVersion c) (ProtocolVersionMinimum c) (ChannelCapacity c)
    (EnablePrometheus c) (PeerResendFilter c) (PeerResendBuckets c) (PeerResendInterval c).

Definition Sanitize (c : Configuration) : Configuration :=
  let c := if MaxPeers c <? MaxIncoming c then set_MaxIncoming (MaxPeers c) c else c in
  if MaxPeers c <? DropTo c then set_DropTo (MaxPeers c) c else c.

Inductive config_error :=
  | ErrListenPortEmpty | ErrListenPortNumber | ErrPeerShareAmount | ErrRoundTime
  | ErrTargetPeers | ErrFanout | ErrHandshakeTimeout | ErrDialTimeout | ErrReadDeadline
  | ErrWriteDeadline | ErrProtocolVersion | ErrProtocolVersionMinimum
  | ErrChannelCapacity | ErrPeerShareTimeout | ErrSpecial.

#[export] Instance config_error_eq_dec : EqDecision config_error.
Proof. solve_decision. Defined.

Definition str_empty (s : string) : bool := bool_decide (s = EmptyString).
Definition is_none {A} (o : option A) : bool := match o with None => true | Some _ => false end.

Definition Configuration_Check (c : Configuration) : outcome config_error () :=
  return_err_if str_empty (ListenPort c) with ErrListenPortEmpty;;
  return_err_if is_none (Atoi (ListenPort c)) with ErrListenPortNumber;;
  return_err_if PeerShareAmount c =? 0 with ErrPeerShareAmount;;
  return_err_if RoundTime c =? 0 with ErrRoundTime;;
  return_err_if TargetPeers c =? 0 with ErrTargetPeers;;
  return_err_if Fanout c =? 0 with ErrFanout;;
  return_err_if HandshakeTimeout c =? 0 with ErrHandshakeTimeout;;
  return_err_if DialTimeout c =? 0 with ErrDialTimeout;;
  return_err_if ReadDeadline c =? 0 with ErrReadDeadline;;
  return_err_if WriteDeadline c =? 0 with ErrWriteDeadline;;
  return_err_if (ProtocolVersion c <? 9) || (11 <? ProtocolVersion c) with ErrProtocolVersion;;
  return_err_if 11 <? ProtocolVersionMinimum c with ErrProtocolVersionMinimum;;
  return_err_if ChannelCapacity c =? 0 with ErrChannelCapacity;;
  return_err_if PeerShareTimeout c =? 0 with ErrPeerShareTimeout;;
  return_err_if negb (str_empty (Special c)) && negb (is_ok (parseSpecial (Special c)))
    with ErrSpecial;;
  Ok tt.

(** ** What the checks establish *)

Record config_checked (c : Configuration) : Prop := {
  cc_port : ∃ p, Atoi (ListenPort c) = Some p;
  cc_share : PeerShareAmount c ≠ 0;
  cc_round : RoundTime c ≠ 0;
  cc_target : TargetPeers c ≠ 0;
  cc_fanout : Fanout c ≠ 0;
  cc_handshake : HandshakeTimeout c ≠ 0;
  cc_dial : DialTimeout c ≠ 0;
  cc_deadlines : ReadDeadline c ≠ 0 ∧ WriteDeadline c ≠ 0;
  cc_version : ProtocolVersion c ∈ [9; 10; 11];
  cc_minimum : ProtocolVersionMinimum c ≤ 11;
  cc_capacity : ChannelCapacity c ≠ 0;
  cc_timeout : PeerShareTimeout c ≠ 0;
  cc_special : Special c = EmptyString ∨ ∃ eps, parseSpecial (Special c) = Ok eps ∧
    Forall (λ ep, Endpoint_Valid ep = true) eps;
}.

Lemma return_err_if_Ok {E A} (c : bool) (e : E) (k : outcome E A) a :
  (return_err_if c with e;; k) = Ok a → c = false ∧ k = Ok a.
Proof. by destruct c. Qed.

Lemma return_err_if_Ok_iff {E A} (c : bool) (e : E) (k : outcome E A) a :
  (return_err_if c with e;; k) = Ok a ↔ c = false ∧ k = Ok a.
Proof. destruct c; naive_solver. Qed.

Lemma special_check_spec raw :
  negb (str_empty raw) && negb (is_ok (parseSpecial raw)) = false ↔
  raw = EmptyString ∨ ∃ eps, parseSpecial raw = Ok eps ∧ Forall (λ ep, Endpoint_Valid ep = true) eps.
Proof.
  unfold str_empty. case_bool_decide as Hs; simpl; [naive_solver|].
  destruct (parseSpecial raw) as [eps|e| |] eqn:Hp; simpl; try naive_solver.
  split; [|done]. intros _. right. exists eps. split; [done|]. by eapply parseSpecial_items_Ok.
Qed.

Lemma Configuration_Check_Ok c : Configuration_Check c = Ok tt ↔ config_checked c.
Proof.
  unfold Configuration_Check. rewrite !return_err_if_Ok_iff, special_check_spec.
  split.
  - intros (_ & Hport & Hrest). destruct_and! Hrest.
    split; try done; try (by apply Z.eqb_neq); try (split; by apply Z.eqb_neq).
    + destruct (Atoi (ListenPort c)); [eauto|done].
    + rewrite !elem_of_cons. lia.
    + lia.
  - intros [[p Hp] ? ? ? ? ? ? [? ?] Hv ? ? ? ?]. rewrite !Z.eqb_neq, Hp.
    rewrite !elem_of_cons, elem_of_nil in Hv.
    split_and!; try done; try lia.
    unfold str_empty. case_bool_decide as He; [|done]. by rewrite He in Hp.
Qed.

(** [Check] accepts a configuration exactly when it has a numeric port, none of
    the limits that would stop a node is zero, both protocol versions are ones the
    package supports, and the special peers are absent or all valid endpoints. *)
Theorem Configuration_Check_spec c : Configuration_Check c = Ok tt ↔ config_checked c.
Proof. apply Configuration_Check_Ok. Qed.

Lemma set_MaxIncoming_id c : set_MaxIncoming (MaxIncoming c) c = c.
Proof. by destruct c. Qed.
Lemma set_DropTo_id c : set_DropTo (DropTo c) c = c.
Proof. by destruct c. Qed.

Lemma Sanitize_min c :
  Sanitize c = set_DropTo (Z.min (DropTo c) (MaxPeers c))
    (set_MaxIncoming (Z.min (MaxIncoming c) (MaxPeers c)) c).
Proof.
  unfold Sanitize. cbv zeta.
  assert ((if MaxPeers c <? MaxIncoming c then set_MaxIncoming (MaxPeers c) c else c) =
    set_MaxIncoming (Z.min (MaxIncoming c) (MaxPeers c)) c) as ->.
  { destruct (Z.ltb_spec (MaxPeers c) (MaxIncoming c)); [by rewrite Z.min_r by lia|].
    by rewrite Z.min_l, set_MaxIncoming_id by lia. }
  set (c1 := set_MaxIncoming _ c).
  change (MaxPeers c) with (MaxPeers c1). change (DropTo c) with (DropTo c1).
  destruct (Z.ltb_spec (MaxPeers c1) (DropTo c1)); [by rewrite Z.min_r by lia|].
  by rewrite Z.min_l, set_DropTo_id by lia.
Qed.

Lemma Sanitize_within c : MaxIncoming c ≤ MaxPeers c → DropTo c ≤ MaxPeers c → Sanitize c = c.
Proof.
  intros. rewrite Sanitize_min, !Z.min_l, set_MaxIncoming_id by lia. apply set_DropTo_id.
Qed.

(** [Sanitize] bounds the incoming and the kept peers by [MaxPeers], changes
    nothing when they are, is idempotent, and does not affect what [Check] says. *)
Theorem Sanitize_spec c :
  MaxIncoming (Sanitize c) = Z.min (MaxIncoming c) (MaxPeers c) ∧
  DropTo (Sanitize c) = Z.min (DropTo c) (MaxPeers c) ∧
  (Sanitize c = c ↔ MaxIncoming c ≤ MaxPeers c ∧ DropTo c ≤ MaxPeers c) ∧
  Sanitize (Sanitize c) = Sanitize c ∧
  Configuration_Check (Sanitize c) = Configuration_Check c.
Proof.
  assert (H1 : MaxIncoming (Sanitize c) = Z.min (MaxIncoming c) (MaxPeers c)) by by rewrite Sanitize_min.
  assert (H2 : DropTo (Sanitize c) = Z.min (DropTo c) (MaxPeers c)) by by rewrite Sanitize_min.
  assert (H3 : MaxPeers (Sanitize c) = MaxPeers c) by by rewrite Sanitize_min.
  split_and!; [done|done|..].
  - split; [intros E; rewrite E in H1, H2; lia|intros []; by apply Sanitize_within].
  - apply Sanitize_within; lia.
  - by rewrite Sanitize_min.
Qed.

(** The default configuration passes [Check], and [Sanitize] leaves it alone. *)
Theorem DefaultP2PConfiguration_ok :
  Configuration_Check DefaultP2PConfiguration = Ok tt ∧
  Sanitize DefaultP2PConfiguration = DefaultP2PConfiguration.
Proof. by vm_compute. Qed.
