(* ===== verification/Listen.v ===== *)
(** * Listening for connections ([listen] of [controller_connections.go])

    The loop that takes connections through the [LimitedListener] and hands each to a
    goroutine of its own for the handshake. *)
From stdpp Require Import sorting.
From S2P Require Import Prelude GoStd Endpoint Configuration Limiter.

(** what the socket's [Accept] fails with: a [*net.OpError] says whether it is a timeout
    and temporary *)
Record accept_error := MkAcceptError { ae_op : bool; ae_timeout : bool; ae_temporary : bool }.
Definition ends_loop (e : accept_error) : bool := ae_op e && negb (ae_timeout e) && negb (ae_temporary e).

Definition incoming_endpoint (addr : string) : option Endpoint :=
  match SplitHostPort addr with
  | Some (host, port) => match NewEndpoint host port with Ok ep => Some ep | _ => None end
  | None => None
  end.

Section Listen.
Context {C : Type}.

(** a connection and its remote address, or an error, and the clock as the limiter reads it *)
Record arrival := MkArrival {
  ar_con : outcome accept_error (C * string);
  ar_now : Z; ar_now1 : Z; ar_now2 : Z;
}.

(** [handshakeIncoming(con, ep)], with the time the limiter wrote down *)
Record handed := MkHanded { hd_con : C; hd_time : Z; hd_ep : Endpoint }.

(** the connections handed over and those closed, until an error ends the loop; errors of
    the limiter are none of a socket *)
Fixpoint listen_loop (ll : LimitedListener) (l : list arrival) : list handed * list C :=
  match l with
  | MkArrival (Ok (con, addr)) now now1 now2 :: l =>
      match LimitedListener_Accept (Some addr) now now1 now2 ll with
      | (ll, Ok _) =>
          let (h, closed) := listen_loop ll l in
          match incoming_endpoint addr with
          | Some ep => (MkHanded con now1 ep :: h, closed)
          | None => (h, con :: closed)
          end
      | (ll, _) => let (h, closed) := listen_loop ll l in (h, con :: closed)
      end
  | MkArrival (Err e) _ _ _ :: l => if ends_loop e then ([], []) else listen_loop ll l
  | _ => ([], [])
  end.

(** [listens]: whether the address can be bound *)
Definition listen (conf : Configuration) (listens : bool) (l : list arrival) : list handed * list C :=
  match NewLimitedListener listens (ListenLimit conf) with
  | Ok ll => listen_loop ll l
  | _ => ([], [])
  end.

(** ** Every connection is handed over or closed *)

(** the connections that arrive before the loop ends *)
Fixpoint accepted (l : list arrival) : list C :=
  match l with
  | MkArrival (Ok (con, _)) _ _ _ :: l => con :: accepted l
  | MkArrival (Err e) _ _ _ :: l => if ends_loop e then [] else accepted l
  | _ => []
  end.

(** a clock that does not go back *)
Fixpoint clock_ok (t : Z) (l : list arrival) : Prop :=
  match l with
  | [] => True
  | a :: l => t ≤ ar_now a ∧ ar_now a ≤ ar_now1 a ∧ ar_now1 a ≤ ar_now2 a ∧ clock_ok (ar_now2 a) l
  end.

Lemma clock_ok_mono t t' l : t ≤ t' → clock_ok t' l → clock_ok t l.
Proof. destruct l; [done|]. simpl. intuition lia. Qed.

Lemma listen_loop_all ll l : (hd_con <$> (listen_loop ll l).1) ++ (listen_loop ll l).2 ≡ₚ accepted l.
Proof.
  revert ll. induction l as [|[[[con addr]|e| |] now now1 now2] l IH]; intros ll; cbn [listen_loop accepted]; try done.
  - destruct (LimitedListener_Accept _ _ _ _ _) as [ll' r]. specialize (IH ll').
    destruct (listen_loop ll' l) as [h closed]. cbn [fst snd] in IH.
    destruct r as [host|e| |]; [destruct (incoming_endpoint addr)|..]; cbn [fst snd fmap list_fmap hd_con app];
      try (by rewrite <-IH); rewrite <-IH; by rewrite <-Permutation_middle.
  - destruct (ends_loop e); [done|apply IH].
Qed.

(** ** One host at a time *)

Definition as_attempt (h : handed) : attempt := MkAttempt (IP (hd_ep h)) (hd_time h).

Lemma incoming_endpoint_host addr ep :
  incoming_endpoint addr = Some ep → Endpoint_Valid ep = true ∧ ∃ port, SplitHostPort addr = Some (IP ep, port).
Proof.
  unfold incoming_endpoint. destruct (SplitHostPort addr) as [[host port]|]; [|done].
  unfold NewEndpoint. destruct (Endpoint_Valid (MkEndpoint host port)) eqn:Hv; [|done].
  intros [= <-]. split; [done|]. by exists port.
Qed.

Lemma Accept_host addr now now1 now2 ll ll' h host port :
  LimitedListener_Accept (Some addr) now now1 now2 ll = (ll', Ok h) → SplitHostPort addr = Some (host, port) → h = host.
Proof. cbn [LimitedListener_Accept]. intros HA Hs. rewrite Hs in HA. destruct (isInHistory _ _ _) as [? []]; by simplify_eq. Qed.

(** the attempts the limiter has let through have those of the handed connections among them *)
Lemma listen_loop_log lim ll log t l :
  ll_run lim ll log t → clock_ok t l →
  ∃ more ll' t', ll_run lim ll' (log ++ more) t' ∧ (as_attempt <$> (listen_loop ll l).1) `sublist_of` more ∧
    Forall (λ h, Endpoint_Valid (hd_ep h) = true) (listen_loop ll l).1.
Proof.
  revert ll log t. induction l as [|[[[con addr]|e| |] now now1 now2] l IH]; intros ll log t Hrun Hclk; cbn [listen_loop];
    try (by exists [], ll, t; rewrite app_nil_r; split_and!).
  - destruct Hclk as (H1 & H2 & H3 & Hclk). cbn [ar_now ar_now1 ar_now2] in *.
    destruct (LimitedListener_Accept _ _ _ _ _) as [ll' [h|e| |]] eqn:HA.
    + pose proof (run_accept lim ll log t _ _ _ _ _ _ Hrun H1 H2 H3 HA) as Hrun'.
      destruct (IH _ _ _ Hrun' Hclk) as (more & ll2 & t2 & Hr & Hsub & Hval).
      exists (MkAttempt h now1 :: more), ll2, t2. rewrite <-app_assoc in Hr. split; [exact Hr|].
      destruct (listen_loop ll' l) as [hs closed]. cbn [fst] in *.
      destruct (incoming_endpoint addr) as [ep|] eqn:Hep; cbn [fst fmap list_fmap].
      * apply incoming_endpoint_host in Hep as [Hv [port Hs]]. rewrite (Accept_host _ _ _ _ _ _ _ _ _ HA Hs).
        split; [by apply sublist_skip|by constructor].
      * split; [by apply sublist_cons|done].
    + pose proof (run_refuse lim ll log t _ _ _ _ _ _ Hrun H1 HA) as Hrun'.
      destruct (IH _ _ _ Hrun' ltac:(eapply clock_ok_mono; [|done]; lia)) as (more & ll2 & t2 & Hr & Hsub & Hval).
      exists more, ll2, t2. by destruct (listen_loop ll' l).
    + exfalso. unfold LimitedListener_Accept in HA. repeat case_match; by simplify_eq.
    + exfalso. unfold LimitedListener_Accept in HA. repeat case_match; by simplify_eq.
  - destruct (ends_loop e); [by exists [], ll, t; rewrite app_nil_r; split_and!|].
    destruct Hclk as (H1 & H2 & H3 & Hclk). cbn [ar_now ar_now1 ar_now2] in *.
    apply (IH ll log t Hrun). by eapply clock_ok_mono; [|done]; lia.
Qed.

(** attempts of one host are at least [lim] apart *)
Definition spaced (lim : Z) (a b : attempt) : Prop := host a = host b → at_time a + lim ≤ at_time b.

Lemma ll_run_spaced lim ll log t : ll_run lim ll log t → StronglySorted (spaced lim) log.
Proof.
  intros Hrun. pose proof (λ i j a b, LimitedListener_spacing lim ll log t i j a b Hrun) as Hsp. clear Hrun.
  induction log as [|a log IH]; constructor.
  - apply IH. intros i j a' b Hi Hj Hij. by apply (Hsp (S i) (S j)); [..|lia].
  - apply Forall_forall. intros b [j Hj]%list_elem_of_lookup. intros Hh. by apply (Hsp 0%nat (S j)); [..|lia|].
Qed.

Lemma StronglySorted_sublist {A} (R : A → A → Prop) l k : l `sublist_of` k → StronglySorted R k → StronglySorted R l.
Proof.
  induction 1 as [|x l k Hs IH|x l k Hs IH]; [done|..]; intros [Hk Hx]%StronglySorted_inv.
  - constructor; [by apply IH|]. rewrite Forall_forall in Hx. apply Forall_forall.
    intros y Hy. apply Hx. by eapply elem_of_submseteq; [|by apply sublist_submseteq].
  - by apply IH.
Qed.

(** [C40] Listening.  Every connection that arrives before the listener is closed is handed
    to a handshake or closed, none is forgotten; the endpoints handed over are valid, and
    two connections from one host are handed over at least [ListenLimit] apart.  With a
    negative limit, or an address that cannot be bound, nothing is accepted. *)
Theorem listen_spec conf listens t l :
  clock_ok t l →
  let r := listen conf listens l in
  if listens && (0 <=? ListenLimit conf) then
    (hd_con <$> r.1) ++ r.2 ≡ₚ accepted l ∧ Forall (λ h, Endpoint_Valid (hd_ep h) = true) r.1 ∧
    (∀ i j a b, r.1 !! i = Some a → r.1 !! j = Some b → (i < j)%nat → IP (hd_ep a) = IP (hd_ep b) →
       hd_time a + ListenLimit conf ≤ hd_time b)
  else r = ([], []).
Proof.
  intros Hclk. unfold listen, NewLimitedListener. cbv zeta. rewrite Z.ltb_antisym.
  destruct (0 <=? ListenLimit conf); [|by rewrite andb_false_r]. destruct listens; [|done]. cbn [negb andb].
  set (ll := MkLL _ _ _). split; [apply listen_loop_all|].
  destruct (listen_loop_log (ListenLimit conf) ll [] t l (run_start _ t) Hclk) as (more & ll' & t' & Hr & Hsub & Hval).
  split; [done|]. pose proof (StronglySorted_sublist _ _ _ Hsub (ll_run_spaced _ _ _ _ Hr)) as Hss.
  intros i j a b Hi Hj Hij Hip. revert i j Hi Hj Hij. revert Hss. generalize (listen_loop ll l).1 as hs. intros hs.
  induction hs as [|h hs IH]; intros Hss i j Hi Hj Hij; [done|]. rewrite fmap_cons in Hss.
  apply StronglySorted_inv in Hss as [Hss Hh]. destruct i as [|i], j as [|j]; simpl in *; try lia.
  - simplify_eq. rewrite Forall_forall in Hh. apply (Hh (as_attempt b)); [|done].
    apply list_elem_of_fmap. exists b. split; [done|]. by apply list_elem_of_lookup_2 in Hj.
  - by apply (IH Hss i j); [..|lia].
Qed.
End Listen.
Arguments arrival : clear implicits.
Arguments handed : clear implicits.

(** ** An example *)

Definition quick_pair : list (arrival nat) :=
  [MkArrival (Ok (1%nat, "1.2.3.4:80"%string)) 10 10 10; MkArrival (Ok (2%nat, "1.2.3.4:81"%string)) 11 11 11;
   MkArrival (Err (MkAcceptError true false true)) 12 12 12;
   MkArrival (Ok (3%nat, "1.2.3.4:82"%string)) (10 + Second) (10 + Second) (10 + Second)].

Theorem listen_spec_witness :
  let r := listen DefaultP2PConfiguration true quick_pair in
  (hd_con <$> r.1) = [1; 3]%nat ∧ r.2 = [2%nat] ∧ (hd_con <$> r.1) ++ r.2 ≡ₚ [1; 2; 3]%nat.
Proof.
  destruct (listen_spec DefaultP2PConfiguration true 10 quick_pair) as (H & _); [cbn; unfold Second; lia|].
  split_and!; [by vm_compute..|exact H].
Defined.
