(* ===== verification/PeerStore.v ===== *)
(** * The store of active peers ([peerStore.go])

    Peers indexed by hash, with counters per address and direction and a cached
    slice.  A [*Peer] is modelled by its address [peer_ref] and the fields that
    are constant once it exists; comparing two of them compares the pointers. *)
From S2P Require Import Prelude GoStd Endpoint.

Record Peer : Type := MkPeer {
  peer_ref : nat;
  Hash : string;
  peer_Endpoint : Endpoint;
  IsIncoming : bool;
}.
#[export] Instance Peer_eq_dec : EqDecision Peer.
Proof. solve_decision. Defined.

Record PeerStore : Type := MkPeerStore {
  peers : gmap string Peer;         (* hash -> peer *)
  connected : gmap string Z;        (* (ip|ip:port) -> count *)
  curSlice : option (list Peer);    (* reset when changes are made *)
  incoming : Z;
  outgoing : Z;
}.

Definition NewPeerStore : PeerStore := MkPeerStore ∅ ∅ None 0 0.

Inductive store_error : Type := ErrAddNil | ErrPeerExists.

(** [connected[a]++] *)
Definition incr (a : string) (m : gmap string Z) : gmap string Z := <[a := get0 m a + 1]> m.
(** [connected[a]--; if connected[a] == 0 { delete(connected, a) }] *)
Definition decr (a : string) (m : gmap string Z) : gmap string Z :=
  let m := <[a := get0 m a - 1]> m in
  if get0 m a =? 0 then delete a m else m.

(** [Add]: the new store, or the error, which leaves the store as it was *)
Definition PeerStore_Add (ps : PeerStore) (p : option Peer) : outcome store_error PeerStore :=
  match p with
  | None => Err ErrAddNil
  | Some p =>
      match peers ps !! Hash p with
      | Some _ => Err ErrPeerExists
      | None =>
          Ok (MkPeerStore
            (<[Hash p := p]> (peers ps))
            (incr (Endpoint_String (peer_Endpoint p)) (incr (IP (peer_Endpoint p)) (connected ps)))
            None
            (if IsIncoming p then incoming ps + 1 else incoming ps)
            (if IsIncoming p then outgoing ps else outgoing ps + 1))
      end
  end.

Definition PeerStore_Remove (ps : PeerStore) (p : option Peer) : PeerStore :=
  match p with
  | None => ps
  | Some p =>
      match peers ps !! Hash p with
      | Some old =>
          if decide (old = p) then
            MkPeerStore
              (delete (Hash p) (peers ps))
              (decr (Endpoint_String (peer_Endpoint p)) (decr (IP (peer_Endpoint p)) (connected ps)))
              None
              (if IsIncoming old then incoming ps - 1 else incoming ps)
              (if IsIncoming old then outgoing ps else outgoing ps - 1)
          else ps
      | None => ps
      end
  end.

Definition PeerStore_Total (ps : PeerStore) : Z := Z.of_nat (size (peers ps)).
Definition PeerStore_Outgoing (ps : PeerStore) : Z := outgoing ps.
Definition PeerStore_Incoming (ps : PeerStore) : Z := incoming ps.
Definition PeerStore_Get (ps : PeerStore) (hash : string) : option Peer := peers ps !! hash.
Definition PeerStore_Connections (ps : PeerStore) (addr : string) : Z := get0 (connected ps) addr.
Definition PeerStore_Connected (ps : PeerStore) (ep : Endpoint) : bool :=
  0 <? get0 (connected ps) (Endpoint_String ep).
Definition PeerStore_Count (ps : PeerStore) (addr : string) : Z := get0 (connected ps) addr.

(** the values of a map in the order [range] visits them: [order] permutes them *)
Definition range_values (order : list Peer → list Peer) (m : gmap string Peer) : list Peer :=
  order (map_to_list m).*2.
Definition PeerStore_Slice (order : list Peer → list Peer) (ps : PeerStore)
    : list Peer * PeerStore :=
  match curSlice ps with
  | Some l => (l, ps)
  | None =>
      let r := range_values order (peers ps) in
      (r, MkPeerStore (peers ps) (connected ps) (Some r) (incoming ps) (outgoing ps))
  end.

(** the iteration order of Go is unspecified, but visits every entry once *)
Definition is_order (order : list Peer → list Peer) : Prop := ∀ l, order l ≡ₚ l.

(** ** The invariant

    Each counter of [connected] is the number of peers it counts, and absent
    when that is zero.  An address can count a peer twice, by its IP and by its
    "ip:port", should the two strings coincide. *)
Definition addr_uses (a : string) (p : Peer) : Z :=
  bool_Z (bool_decide (IP (peer_Endpoint p) = a))
  + bool_Z (bool_decide (Endpoint_String (peer_Endpoint p) = a)).
Definition count_addr (a : string) (m : gmap string Peer) : Z := map_sum (addr_uses a) m.

Record PeerStore_wf (ps : PeerStore) : Prop := {
  wf_hash : ∀ h p, peers ps !! h = Some p → Hash p = h;
  wf_connected : ∀ a, connected ps !! a =
    (if count_addr a (peers ps) =? 0 then None else Some (count_addr a (peers ps)));
  wf_incoming : incoming ps = map_sum (λ p, bool_Z (IsIncoming p)) (peers ps);
  wf_outgoing : outgoing ps = map_sum (λ p, bool_Z (negb (IsIncoming p))) (peers ps);
  wf_slice : ∀ l, curSlice ps = Some l → l ≡ₚ (map_to_list (peers ps)).*2;
}.

Lemma addr_uses_nonneg a p : 0 ≤ addr_uses a p.
Proof. unfold addr_uses. pose proof bool_Z_nonneg. auto using Z.add_nonneg_nonneg. Qed.
#[export] Hint Resolve addr_uses_nonneg : p2p.

Lemma count_addr_nonneg a m : 0 ≤ count_addr a m.
Proof. apply map_sum_nonneg. auto with p2p. Qed.

(** the counter of [a] as the option a Go map holds: no entry for zero *)
Definition counter (n : Z) : option Z := if n =? 0 then None else Some n.

Lemma counter_get0 n : default 0 (counter n) = n.
Proof. unfold counter. destruct (Z.eqb_spec n 0); simpl; lia. Qed.

Lemma incr_lookup a m b n :
  m !! b = counter n → 0 ≤ n →
  incr a m !! b = counter (n + bool_Z (bool_decide (a = b))).
Proof.
  intros Hb Hn. unfold incr, get0. rewrite lookup_insert. case_decide as Hab.
  - subst. rewrite Hb, counter_get0, bool_decide_eq_true_2 by done.
    unfold counter, bool_Z. destruct (Z.eqb_spec (n + 1) 0); [lia|done].
  - rewrite bool_decide_eq_false_2 by done. by rewrite Hb, Z.add_0_r.
Qed.

Lemma decr_lookup a m b n :
  m !! b = counter n → m !! a ≠ None →
  decr a m !! b = counter (n - bool_Z (bool_decide (a = b))).
Proof.
  intros Hb Ha. unfold decr, get0. rewrite lookup_insert_eq. simpl.
  destruct (decide (a = b)) as [->|Hab].
  - rewrite bool_decide_eq_true_2, Hb, counter_get0 by done. unfold counter, bool_Z.
    destruct (Z.eqb_spec (n - 1) 0); [by rewrite lookup_delete_eq|by rewrite lookup_insert_eq].
  - rewrite bool_decide_eq_false_2, Z.sub_0_r by done.
    destruct (_ =? 0); rewrite ?lookup_delete_ne, lookup_insert_ne by done; done.
Qed.

Lemma NewPeerStore_wf : PeerStore_wf NewPeerStore.
Proof.
  split; simpl.
  - intros h p. by rewrite lookup_empty.
  - intros a. unfold count_addr. by rewrite map_sum_empty, lookup_empty.
  - by rewrite map_sum_empty.
  - by rewrite map_sum_empty.
  - done.
Qed.

Lemma Add_wf ps p ps' : PeerStore_wf ps → PeerStore_Add ps p = Ok ps' → PeerStore_wf ps'.
Proof.
  intros [Hh Hc Hi Ho _]. unfold PeerStore_Add. destruct p as [p|]; [|done].
  destruct (peers ps !! Hash p) eqn:E; [done|]. intros [= <-]. split; simpl.
  - intros h q. rewrite lookup_insert_Some. naive_solver.
  - intros a. unfold count_addr. rewrite map_sum_insert by done.
    fold (count_addr a (peers ps)). pose proof (count_addr_nonneg a (peers ps)).
    pose proof (bool_Z_nonneg (bool_decide (IP (peer_Endpoint p) = a))).
    rewrite (incr_lookup _ _ _ (count_addr a (peers ps) + bool_Z (bool_decide (IP (peer_Endpoint p) = a)))).
    + unfold addr_uses. unfold counter. by rewrite <-Z.add_assoc, Z.add_comm.
    + apply incr_lookup; [apply Hc|done].
    + lia.
  - rewrite map_sum_insert, <-Hi by done. destruct (IsIncoming p); simpl; lia.
  - rewrite map_sum_insert, <-Ho by done. destruct (IsIncoming p); simpl; lia.
  - done.
Qed.

Lemma Remove_wf ps p : PeerStore_wf ps → PeerStore_wf (PeerStore_Remove ps p).
Proof.
  intros Hwf. destruct p as [p|]; [|done]. unfold PeerStore_Remove.
  destruct (peers ps !! Hash p) as [old|] eqn:E; [|done].
  destruct (decide (old = p)) as [->|]; [|done]. destruct Hwf as [Hh Hc Hi Ho _].
  assert (Hcount : ∀ a, count_addr a (peers ps) =
    addr_uses a p + count_addr a (delete (Hash p) (peers ps))).
  { intros a. unfold count_addr. by apply map_sum_delete. }
  split; simpl.
  - intros h q. rewrite lookup_delete_Some. naive_solver.
  - intros a. set (ip := IP (peer_Endpoint p)) in *. set (s := Endpoint_String (peer_Endpoint p)) in *.
    assert (Hip : ∀ b, decr ip (connected ps) !! b =
      counter (count_addr b (peers ps) - bool_Z (bool_decide (ip = b)))).
    { intros b. apply decr_lookup; [apply Hc|]. rewrite Hc, Hcount.
      pose proof (count_addr_nonneg ip (delete (Hash p) (peers ps))).
      pose proof (bool_Z_nonneg (bool_decide (s = ip))).
      unfold addr_uses. fold ip s. rewrite (bool_decide_eq_true_2 (ip = ip)) by done. simpl.
      destruct (Z.eqb_spec (1 + bool_Z (bool_decide (s = ip)) +
        count_addr ip (delete (Hash p) (peers ps))) 0); [lia|done]. }
    rewrite (decr_lookup s _ a _ (Hip a)).
    + rewrite Hcount. unfold addr_uses. fold ip s. unfold counter.
      set (x := bool_Z _). set (y := bool_Z _).
      by replace (x + y + count_addr a (delete (Hash p) (peers ps)) - x - y)
        with (count_addr a (delete (Hash p) (peers ps))) by lia.
    + rewrite Hip, Hcount. unfold addr_uses. fold ip s.
      rewrite (bool_decide_eq_true_2 (s = s)) by done.
      pose proof (count_addr_nonneg s (delete (Hash p) (peers ps))). unfold counter.
      destruct (Z.eqb_spec (bool_Z (bool_decide (ip = s)) + bool_Z true +
        count_addr s (delete (Hash p) (peers ps)) - bool_Z (bool_decide (ip = s))) 0); [|done].
      simpl in *. lia.
  - rewrite (map_sum_delete _ _ _ _ E) in Hi. destruct (IsIncoming p); simpl in *; lia.
  - rewrite (map_sum_delete _ _ _ _ E) in Ho. destruct (IsIncoming p); simpl in *; lia.
  - done.
Qed.

Lemma Slice_wf order ps : is_order order → PeerStore_wf ps → PeerStore_wf (PeerStore_Slice order ps).2.
Proof.
  intros Ho [Hh Hc Hi Hout Hs]. unfold PeerStore_Slice.
  destruct (curSlice ps) as [l|] eqn:E; split; simpl; try done; [by rewrite E|].
  intros l [= <-]. apply Ho.
Qed.

#[export] Hint Resolve NewPeerStore_wf Add_wf Remove_wf Slice_wf : p2p.

(** the stores the exported operations lead to *)
Inductive store_reachable : PeerStore → Prop :=
  | sr_new : store_reachable NewPeerStore
  | sr_add ps p ps' : store_reachable ps → PeerStore_Add ps p = Ok ps' → store_reachable ps'
  | sr_remove ps p : store_reachable ps → store_reachable (PeerStore_Remove ps p)
  | sr_slice order ps : is_order order → store_reachable ps →
      store_reachable (PeerStore_Slice order ps).2.

Lemma reachable_wf ps : store_reachable ps → PeerStore_wf ps.
Proof. induction 1; eauto with p2p. Qed.

Lemma in_and_out ps :
  PeerStore_wf ps → PeerStore_Incoming ps + PeerStore_Outgoing ps = PeerStore_Total ps.
Proof.
  intros Hwf. unfold PeerStore_Incoming, PeerStore_Outgoing, PeerStore_Total.
  rewrite (wf_incoming _ Hwf), (wf_outgoing _ Hwf), <-map_sum_add, <-map_sum_size.
  apply map_sum_ext. by intros [? ? ? []].
Qed.

(** [C24] Invariant of the peer store: after any sequence of [Add], [Remove] and
    [Slice] every peer is under its own hash, each address counter is the number
    of peers it counts and absent when zero, the direction counters add up to
    [Total], and a cached slice lists exactly the stored peers. *)
Theorem PeerStore_invariant ps :
  store_reachable ps →
  PeerStore_wf ps ∧ PeerStore_Incoming ps + PeerStore_Outgoing ps = PeerStore_Total ps.
Proof.
  intros Hwf%reachable_wf. split; [done|by apply in_and_out].
Qed.

Definition peer_a : Peer := MkPeer 1 "52.17.183.121:8108 0000002a" ep_a true.
(** another object with the values of [peer_a] *)
Definition peer_a' : Peer := MkPeer 2 "52.17.183.121:8108 0000002a" ep_a true.
Definition peer_b : Peer :=
  MkPeer 3 "52.17.183.121:8110 00000001" (MkEndpoint "52.17.183.121" "8110") false.

Definition store_a : PeerStore :=
  match PeerStore_Add NewPeerStore (Some peer_a) with Ok ps => ps | _ => NewPeerStore end.
Definition store_ab : PeerStore :=
  match PeerStore_Add store_a (Some peer_b) with Ok ps => ps | _ => NewPeerStore end.

Lemma store_ab_reachable : store_reachable store_ab.
Proof.
  apply (sr_add store_a (Some peer_b)); [|by vm_compute].
  apply (sr_add NewPeerStore (Some peer_a)); [constructor|by vm_compute].
Qed.

Theorem PeerStore_invariant_witness :
  store_reachable store_ab ∧
  PeerStore_Incoming store_ab + PeerStore_Outgoing store_ab = PeerStore_Total store_ab.
Proof.
  split; [apply store_ab_reachable|]. apply (PeerStore_invariant store_ab store_ab_reachable).
Defined.

Lemma wf_get0 ps a : PeerStore_wf ps → get0 (connected ps) a = count_addr a (peers ps).
Proof.
  intros Hwf. unfold get0. rewrite (wf_connected _ Hwf). apply (counter_get0 (count_addr a (peers ps))).
Qed.

(** [Connected], [Connections] and [Count] tell what they promise: an endpoint
    is connected exactly when a stored peer has its "ip:port" string (or, for
    ambiguous IPv6 text, an IP equal to that string), and an IP is counted
    once for every stored peer from it. *)
Theorem PeerStore_counters ps ep ip :
  PeerStore_wf ps →
  (PeerStore_Connected ps ep = true ↔
     ∃ h p, peers ps !! h = Some p ∧
            (Endpoint_String (peer_Endpoint p) = Endpoint_String ep ∨
             IP (peer_Endpoint p) = Endpoint_String ep)) ∧
  PeerStore_Count ps ip = count_addr ip (peers ps) ∧
  PeerStore_Connections ps ip = PeerStore_Count ps ip ∧
  ((∀ h p, peers ps !! h = Some p → Endpoint_String (peer_Endpoint p) ≠ ip) →
   PeerStore_Count ps ip =
     Z.of_nat (size (filter (λ hp, IP (peer_Endpoint hp.2) = ip) (peers ps)))).
Proof.
  intros Hwf. unfold PeerStore_Connected, PeerStore_Connections, PeerStore_Count.
  rewrite !wf_get0 by done. split_and!; [|done..|].
  - rewrite Z.ltb_lt. unfold count_addr. rewrite map_sum_pos by auto with p2p.
    split; intros (h & p & Hp & Hu); exists h, p; (split; [done|]); unfold addr_uses in *.
    + destruct (bool_decide_reflect (IP (peer_Endpoint p) = Endpoint_String ep)); [by right|left].
      by destruct (bool_decide_reflect (Endpoint_String (peer_Endpoint p) = Endpoint_String ep)).
    + pose proof bool_Z_nonneg as Hn.
      pose proof (Hn (bool_decide (IP (peer_Endpoint p) = Endpoint_String ep))).
      pose proof (Hn (bool_decide (Endpoint_String (peer_Endpoint p) = Endpoint_String ep))).
      destruct Hu as [Hu|Hu]; rewrite (bool_decide_eq_true_2 _ Hu) in *; unfold bool_Z in *; lia.
  - intros Hno. unfold count_addr. clear Hwf. revert Hno.
    induction (peers ps) as [|h p m Hh IH] using map_ind; intros Hno.
    { by rewrite map_sum_empty, map_filter_empty, map_size_empty. }
    rewrite map_sum_insert, IH by (try done; intros h' p' Hp'; apply (Hno h');
      rewrite lookup_insert_ne by congruence; done).
    unfold addr_uses at 1. rewrite (bool_decide_eq_false_2 (Endpoint_String _ = ip)).
    2: { apply (Hno h). by rewrite lookup_insert_eq. }
    rewrite map_filter_insert. simpl. case_decide as Hip.
    + rewrite bool_decide_eq_true_2 by done. rewrite map_size_insert_None; [simpl; lia|].
      apply map_lookup_filter_None. by left.
    + rewrite bool_decide_eq_false_2 by done. simpl. rewrite delete_id by done. lia.
Qed.

Theorem PeerStore_counters_witness :
  PeerStore_Connected store_ab ep_a = true ∧
  PeerStore_Count store_ab "52.17.183.121" = count_addr "52.17.183.121" (peers store_ab).
Proof.
  split; [by vm_compute|].
  destruct (PeerStore_counters store_ab ep_a "52.17.183.121") as (_ & H & _); [|exact H].
  apply reachable_wf, store_ab_reachable.
Defined.

(** Adding a peer and removing the same object again restores every field of
    the store, except that the cached slice is reset. *)
Theorem PeerStore_Add_Remove ps p ps' :
  PeerStore_wf ps → PeerStore_Add ps (Some p) = Ok ps' →
  PeerStore_Get ps' (Hash p) = Some p ∧ PeerStore_Total ps' = PeerStore_Total ps + 1 ∧
  PeerStore_Remove ps' (Some p) =
    MkPeerStore (peers ps) (connected ps) None (incoming ps) (outgoing ps).
Proof.
  intros Hwf HAdd. pose proof (Add_wf _ _ _ Hwf HAdd) as Hwf'.
  pose proof (Remove_wf ps' (Some p) Hwf') as Hwf''.
  unfold PeerStore_Add in HAdd. destruct (peers ps !! Hash p) eqn:E; [done|].
  injection HAdd as <-. unfold PeerStore_Get, PeerStore_Total. simpl in *.
  rewrite lookup_insert_eq, map_size_insert_None, decide_True in * by done.
  split_and!; [done|lia|]. f_equal.
  - by rewrite delete_insert_id.
  - apply map_eq. intros a. rewrite (wf_connected _ Hwf).
    pose proof (wf_connected _ Hwf'' a) as H. simpl in H. rewrite H.
    by rewrite delete_insert_id.
  - destruct (IsIncoming p); lia.
  - destruct (IsIncoming p); lia.
Qed.

Theorem PeerStore_Add_Remove_witness :
  PeerStore_Add store_a (Some peer_b) = Ok store_ab ∧
  PeerStore_Remove store_ab (Some peer_b) = store_a.
Proof.
  assert (HAdd : PeerStore_Add store_a (Some peer_b) = Ok store_ab) by (by vm_compute).
  split; [done|].
  destruct (PeerStore_Add_Remove store_a peer_b store_ab) as (_ & _ & H); [|done|exact H].
  apply reachable_wf, (sr_add NewPeerStore (Some peer_a)); [constructor|by vm_compute].
Defined.

(** [Add] refuses exactly nil and a hash already present, and [Remove] of an
    object that is not the stored one, even with the same hash and values,
    changes nothing. *)
Theorem PeerStore_refusals ps p :
  (PeerStore_Add ps None = Err ErrAddNil) ∧
  (is_Some (PeerStore_Get ps (Hash p)) ↔ PeerStore_Add ps (Some p) = Err ErrPeerExists) ∧
  (PeerStore_Get ps (Hash p) = None ↔ is_ok (PeerStore_Add ps (Some p)) = true) ∧
  (PeerStore_Get ps (Hash p) ≠ Some p → PeerStore_Remove ps (Some p) = ps) ∧
  PeerStore_Remove ps None = ps.
Proof.
  unfold PeerStore_Add, PeerStore_Remove, PeerStore_Get.
  destruct (peers ps !! Hash p) as [q|] eqn:E; split_and!; try done;
    try (split; [by intros [? ?]|done]).
  intros Hq. rewrite decide_False; [done|congruence].
Qed.

Lemma Slice_spec order order' ps l ps' :
  PeerStore_wf ps → is_order order → PeerStore_Slice order ps = (l, ps') →
  NoDup l ∧ zlen l = PeerStore_Total ps ∧
  (∀ p, p ∈ l ↔ PeerStore_Get ps (Hash p) = Some p) ∧
  PeerStore_Slice order' ps' = (l, ps').
Proof.
  intros Hwf Ho HS.
  assert (Hl : l ≡ₚ (map_to_list (peers ps)).*2 ∧ curSlice ps' = Some l ∧ ps' = (PeerStore_Slice order ps).2).
  { rewrite HS. unfold PeerStore_Slice in HS. destruct (curSlice ps) as [l'|] eqn:E;
      injection HS as <- <-; split_and!; try done.
    - by apply (wf_slice _ Hwf).
    - apply Ho. }
  destruct Hl as (Hl & Hc & _).
  assert (Hin : ∀ p, p ∈ l ↔ PeerStore_Get ps (Hash p) = Some p).
  { intros p. rewrite Hl, list_elem_of_fmap. unfold PeerStore_Get. split.
    - intros ([h q] & -> & Hq%elem_of_map_to_list). simpl. by rewrite (wf_hash _ Hwf h q Hq).
    - intros Hp%elem_of_map_to_list. by exists (Hash p, p). }
  split_and!; [| |done|by unfold PeerStore_Slice; rewrite Hc].
  - rewrite Hl. apply NoDup_fmap_2_strong; [|apply NoDup_map_to_list].
    intros [h q] [h' q'] Hq%elem_of_map_to_list Hq'%elem_of_map_to_list. simpl. intros <-.
    by rewrite <-(wf_hash _ Hwf h q Hq), <-(wf_hash _ Hwf h' q Hq').
  - unfold zlen, PeerStore_Total. by rewrite Hl, length_fmap, length_map_to_list.
Qed.

(** [Slice] lists every stored peer exactly once, in any order Go's map
    iteration takes, and until the next change it answers the same list again. *)
Theorem PeerStore_Slice_spec order order' ps l ps' :
  PeerStore_wf ps → is_order order → PeerStore_Slice order ps = (l, ps') →
  NoDup l ∧ zlen l = PeerStore_Total ps ∧
  (∀ p, p ∈ l ↔ PeerStore_Get ps (Hash p) = Some p) ∧
  PeerStore_Slice order' ps' = (l, ps').
Proof. apply Slice_spec. Qed.

Theorem PeerStore_Slice_spec_witness :
  NoDup [peer_a] ∧ PeerStore_Total store_a = 1.
Proof.
  assert (Hwf : PeerStore_wf store_a).
  { apply reachable_wf, (sr_add NewPeerStore (Some peer_a));
      [constructor|by vm_compute]. }
  assert (Hid : is_order (λ l, l)) by (intros l; reflexivity).
  assert (HS : PeerStore_Slice (λ l, l) store_a = ([peer_a], (PeerStore_Slice (λ l, l) store_a).2))
    by (vm_compute; reflexivity).
  destruct (PeerStore_Slice_spec _ (λ l, l) _ _ _ Hwf Hid HS) as (H1 & H2 & _).
  split; [exact H1|]. rewrite <-H2. reflexivity.
Defined.

Theorem PeerStore_refusals_witness :
  PeerStore_Get store_a (Hash peer_a') ≠ Some peer_a' ∧
  PeerStore_Remove store_a (Some peer_a') = store_a.
Proof.
  assert (H : PeerStore_Get store_a (Hash peer_a') ≠ Some peer_a') by (by vm_compute).
  split; [exact H|]. by apply (PeerStore_refusals store_a peer_a').
Defined.
