(* ===== verification/Handshake.v ===== *)
(** * Handshakes ([handshake.go]) *)
From S2P Require Import Prelude GoStd Endpoint Parcel Configuration.

Record Handshake := MkHandshake {
  h_Network : Z;       (* uint32 *)
  h_Version : Z;       (* uint16 *)
  h_Type : Z;          (* uint16 *)
  h_NodeID : Z;        (* uint32 *)
  h_ListenPort : string;
  h_Loopback : Z;      (* uint64 *)
  h_Alternatives : list Endpoint;
}.

#[export] Instance Handshake_eq_dec : EqDecision Handshake.
Proof. solve_decision. Defined.

Inductive handshake_error :=
  | ErrBelowMinimum | ErrWrongNetwork | ErrUnparsablePort | ErrPortOutOfRange | ErrAlternatives.

#[export] Instance handshake_error_eq_dec : EqDecision handshake_error.
Proof. solve_decision. Defined.

(** the loop over the alternatives, which returns at the first invalid one *)
Fixpoint check_alternatives (l : list Endpoint) : outcome handshake_error () :=
  match l with
  | [] => Ok tt
  | ep :: l =>
      return_err_if negb (Endpoint_Valid ep) with ErrAlternatives;;
      check_alternatives l
  end.

Definition Handshake_Valid (h : Handshake) (conf : Configuration) : outcome handshake_error () :=
  return_err_if h_Version h <? ProtocolVersionMinimum conf with ErrBelowMinimum;;
  return_err_if negb (h_Network h =? Network conf) with ErrWrongNetwork;;
  match Atoi (h_ListenPort h) with
  | None => Err ErrUnparsablePort
  | Some port =>
      return_err_if (port <? 1) || (65535 <? port) with ErrPortOutOfRange;;
      check_alternatives (h_Alternatives h)
  end.

Definition newHandshake (conf : Configuration) (loopback : Z) : Handshake := {|
  h_Type := TypeHandshake;
  h_Network := Network conf;
  h_Version := ProtocolVersion conf;
  h_NodeID := NodeID conf;
  h_ListenPort := ListenPort conf;
  h_Loopback := loopback;
  h_Alternatives := [];
|}.

(** ** What a valid handshake guarantees *)

Definition port_in_range (s : string) : Prop := ∃ p, Atoi s = Some p ∧ 1 ≤ p ≤ 65535.

Lemma check_alternatives_Ok l :
  check_alternatives l = Ok tt ↔ Forall (λ ep, Endpoint_Valid ep = true) l.
Proof.
  induction l as [|ep l IH]; [done|]. simpl.
  rewrite return_err_if_Ok_iff, IH, Forall_cons, negb_false_iff. done.
Qed.

Lemma Handshake_Valid_Ok h conf :
  Handshake_Valid h conf = Ok tt ↔
  ProtocolVersionMinimum conf ≤ h_Version h ∧ h_Network h = Network conf ∧
  port_in_range (h_ListenPort h) ∧ Forall (λ ep, Endpoint_Valid ep = true) (h_Alternatives h).
Proof.
  unfold Handshake_Valid, port_in_range. rewrite !return_err_if_Ok_iff, negb_false_iff.
  rewrite Z.ltb_ge, Z.eqb_eq.
  destruct (Atoi (h_ListenPort h)) as [port|]; [|naive_solver].
  rewrite return_err_if_Ok_iff, check_alternatives_Ok, orb_false_iff, !Z.ltb_ge.
  split; [naive_solver|]. intros (? & ? & (p & [= <-] & ?) & ?). split_and!; done || lia.
Qed.

(** A handshake is accepted exactly when it speaks a version and a network this
    node does, listens on a port in range, and offers valid alternatives only. *)
Theorem Handshake_Valid_spec h conf :
  Handshake_Valid h conf = Ok tt ↔
  ProtocolVersionMinimum conf ≤ h_Version h ∧ h_Network h = Network conf ∧
  port_in_range (h_ListenPort h) ∧ Forall (λ ep, Endpoint_Valid ep = true) (h_Alternatives h).
Proof. apply Handshake_Valid_Ok. Qed.

(** The handshake a checked configuration sends is acceptable to a node with the
    same settings exactly when its own version is not below the minimum and its
    listening port is a usable one, and it is refused for no other reason: [Check]
    ensures neither of the two. *)
Theorem newHandshake_Valid conf loopback :
  config_checked conf →
  (Handshake_Valid (newHandshake conf loopback) conf = Ok tt ↔
   ProtocolVersionMinimum conf ≤ ProtocolVersion conf ∧ port_in_range (ListenPort conf)) ∧
  (∀ e, Handshake_Valid (newHandshake conf loopback) conf = Err e →
    e = ErrBelowMinimum ∨ e = ErrPortOutOfRange).
Proof.
  intros Hc. split.
  - rewrite Handshake_Valid_Ok. cbn [newHandshake h_Version h_Network h_ListenPort h_Alternatives].
    split; [by intros (? & _ & ? & _)|]. intros []. split_and!; done.
  - destruct (cc_port _ Hc) as [p Hp]. unfold Handshake_Valid.
    cbn [newHandshake h_Version h_Network h_ListenPort h_Alternatives check_alternatives].
    rewrite Z.eqb_refl, Hp. cbn [negb]. intros e.
    destruct (_ <? _); [intros [= <-]; by left|].
    destruct (_ || _); [intros [= <-]; by right|done].
Qed.

Theorem newHandshake_Valid_witness :
  let conf := DefaultP2PConfiguration in
  (Handshake_Valid (newHandshake conf 7) conf = Ok tt ↔
   ProtocolVersionMinimum conf ≤ ProtocolVersion conf ∧ port_in_range (ListenPort conf)) ∧
  (∀ e, Handshake_Valid (newHandshake conf 7) conf = Err e →
    e = ErrBelowMinimum ∨ e = ErrPortOutOfRange).
Proof.
  apply newHandshake_Valid, Configuration_Check_Ok. by vm_compute.
Defined.
