(* ===== verification/Stream.v ===== *)
(** * Connections as byte streams

    The [io.ReadWriter] under a protocol.  What the remote side sends arrives in
    chunks of the network's choosing; [io.ReadFull] loops over [Read], and what it
    returns does not depend on the chunks.  A write may be cut short by the
    connection, which then reports an error as [io.Writer] requires. *)
From S2P Require Import Prelude.

Inductive io_error := EOF | UnexpectedEOF | ErrWrite.

#[export] Instance io_error_eq_dec : EqDecision io_error.
Proof. solve_decision. Defined.

Record conn := MkConn {
  c_in : list (list byte);   (* the chunks that arrive, then the end of the stream *)
  c_out : list byte;         (* what has been written *)
  c_room : option Z;         (* how much more can be written before an error *)
}.

(** [Read(p)] for a [p] of [n > 0] bytes: what is there of the first chunk that is
    not empty *)
Fixpoint read_chunk (n : nat) (l : list (list byte)) : list (list byte) * option (list byte) :=
  match l with
  | [] => ([], None)
  | [] :: l => read_chunk n l
  | c :: l => (drop n c :: l, Some (take n c))
  end.

(** the loop of [io.ReadFull]: [acc] has been read, [n] bytes are missing *)
Fixpoint read_full_loop (fuel n : nat) (acc : list byte) (l : list (list byte))
    : list (list byte) * outcome io_error (list byte) :=
  match n, fuel with
  | O, _ => (l, Ok acc)
  | _, O => (l, OutOfFuel)
  | _, S fuel =>
      match read_chunk n l with
      | (l, Some d) => read_full_loop fuel (n - length d) (acc ++ d) l
      | (l, None) => (l, Err (if decide (acc = []) then EOF else UnexpectedEOF))
      end
  end.

Definition set_in (l : list (list byte)) (c : conn) : conn := MkConn l (c_out c) (c_room c).

Definition ReadFull (n : Z) (c : conn) : conn * outcome io_error (list byte) :=
  let r := read_full_loop (Z.to_nat n) (Z.to_nat n) [] (c_in c) in (set_in r.1 c, r.2).

(** [Write]: the number of bytes written, and whether it failed *)
Definition Write (data : list byte) (c : conn) : conn * (Z * bool) :=
  match c_room c with
  | None => (MkConn (c_in c) (c_out c ++ data) None, (zlen data, false))
  | Some k =>
      if zlen data <=? k then (MkConn (c_in c) (c_out c ++ data) (Some (k - zlen data)), (zlen data, false))
      else (MkConn (c_in c) (c_out c ++ take (Z.to_nat k) data) (Some 0), (Z.max 0 k, true))
  end.

(** ** [ReadFull] sees a stream, not chunks *)

Definition bytes_in (c : conn) : list byte := concat (c_in c).

Lemma read_chunk_spec n l :
  (0 < n)%nat →
  match read_chunk n l with
  | (l', Some d) => concat l = d ++ concat l' ∧ (0 < length d ≤ n)%nat
  | (l', None) => concat l = [] ∧ concat l' = []
  end.
Proof.
  intros Hn. induction l as [|[|b c] l IH]; [done|exact IH|]. cbn [read_chunk].
  split.
  - cbn [concat]. by rewrite app_assoc, take_drop.
  - rewrite length_take. simpl. lia.
Qed.

Lemma read_full_loop_spec fuel n acc l :
  (n ≤ fuel)%nat →
  match read_full_loop fuel n acc l with
  | (l', Ok d) => (n ≤ length (concat l))%nat ∧ d = acc ++ take n (concat l) ∧ concat l' = drop n (concat l)
  | (l', Err e) => (length (concat l) < n)%nat ∧ concat l' = [] ∧
      e = if decide (acc ++ concat l = []) then EOF else UnexpectedEOF
  | _ => False
  end.
Proof.
  revert n acc l. induction fuel as [|fuel IH]; intros n acc l Hn.
  - destruct n; [|lia]. simpl. rewrite take_0, app_nil_r, drop_0. split_and!; [lia|done..].
  - destruct n as [|n]; [simpl; rewrite take_0, app_nil_r, drop_0; split_and!; [lia|done..]|].
    cbn [read_full_loop]. pose proof (read_chunk_spec (S n) l ltac:(lia)) as Hr.
    destruct (read_chunk (S n) l) as [l1 [d|]].
    + destruct Hr as [Hl Hd]. specialize (IH (S n - length d)%nat (acc ++ d) l1 ltac:(lia)).
      destruct (read_full_loop _ _ _ l1) as [l2 [d2|e| |]]; try done; rewrite Hl, length_app.
      * destruct IH as (? & -> & ->). rewrite take_app_ge, drop_app_ge, app_assoc by lia.
        split_and!; [lia|done..].
      * destruct IH as (? & ? & ->). rewrite app_assoc. split_and!; [lia|done..].
    + destruct Hr as [Hl Hl1]. rewrite Hl, app_nil_r. split_and!; [simpl; lia|done..].
Qed.

(** [ReadFull] on the stream of bytes: it takes exactly what it is asked for, or
    fails when the stream ends before *)
Lemma ReadFull_stream n c :
  0 ≤ n →
  let '(c', r) := ReadFull n c in
  c_out c' = c_out c ∧ c_room c' = c_room c ∧
  if n <=? zlen (bytes_in c)
  then r = Ok (take (Z.to_nat n) (bytes_in c)) ∧ bytes_in c' = drop (Z.to_nat n) (bytes_in c)
  else r = Err (if decide (bytes_in c = []) then EOF else UnexpectedEOF) ∧ bytes_in c' = [].
Proof.
  intros Hn. unfold ReadFull, bytes_in, zlen.
  pose proof (read_full_loop_spec (Z.to_nat n) (Z.to_nat n) [] (c_in c) ltac:(lia)) as H.
  destruct (read_full_loop _ _ _ _) as [l [d|e| |]]; simpl in *; split_and!; try done.
  - destruct H as (? & -> & ->). by rewrite (proj2 (Z.leb_le _ _)) by lia.
  - destruct H as (? & -> & ->). by rewrite (proj2 (Z.leb_gt _ _)) by lia.
Qed.

(** what is read from a prefix of the stream *)
Lemma ReadFull_app d rest c :
  bytes_in c = d ++ rest →
  ∃ c', ReadFull (zlen d) c = (c', Ok d) ∧ bytes_in c' = rest ∧
    c_out c' = c_out c ∧ c_room c' = c_room c.
Proof.
  intros Hb. pose proof (ReadFull_stream (zlen d) c (zlen_nonneg d)) as H.
  destruct (ReadFull (zlen d) c) as [c' r]. destruct H as (? & ? & H). exists c'.
  rewrite Hb, zlen_app in H. pose proof (zlen_nonneg rest).
  rewrite (proj2 (Z.leb_le _ _)) in H by lia. unfold zlen in H. rewrite Nat2Z.id in H.
  rewrite take_app_length, drop_app_length in H. by destruct H as [-> ?].
Qed.

Lemma Write_ok data c :
  c_room c = None →
  Write data c = (MkConn (c_in c) (c_out c ++ data) None, (zlen data, false)).
Proof. intros Hr. unfold Write. by rewrite Hr. Qed.

(** [io.ReadFull] depends on the bytes of the stream only: two connections with
    the same bytes in different chunks give the same data or the same error, and
    keep the same bytes for the next read. *)
Lemma ReadFull_chunking n c1 c2 :
  0 ≤ n → bytes_in c1 = bytes_in c2 →
  (ReadFull n c1).2 = (ReadFull n c2).2 ∧ bytes_in (ReadFull n c1).1 = bytes_in (ReadFull n c2).1 ∧
  returns (ReadFull n c1).2.
Proof.
  intros Hn Hb. pose proof (ReadFull_stream n c1 Hn) as H1. pose proof (ReadFull_stream n c2 Hn) as H2.
  destruct (ReadFull n c1) as [c1' r1], (ReadFull n c2) as [c2' r2]. simpl.
  destruct H1 as (_ & _ & H1), H2 as (_ & _ & H2). rewrite <-Hb in H2.
  destruct (n <=? zlen (bytes_in c1)); destruct H1 as [-> ->], H2 as [-> ->]; done.
Qed.
