(* ===== verification/V11Wire.v ===== *)
(** * The wire format of protocol V11 ([protocolV11.pb.go])

    Encoders and decoders of the four protobuf messages.  Section [Reading] has
    the loops that [Unmarshal] repeats, over a byte slice and an index; section
    [Writing] the backwards writes of [MarshalToSizedBuffer] into a sized buffer.
    Every slice access is checked: an access out of bounds is [Panic].  A call
    that fails returns the error only, as no caller looks at the message then. *)
From S2P Require Import Prelude.

Inductive proto_error : Type :=
  | ErrInvalidLengthProtocolV11
  | ErrIntOverflowProtocolV11
  | ErrUnexpectedEndOfGroupProtocolV11
  | ErrUnexpectedEOF
  | ErrEndGroup                              (* wiretype end group for non-group *)
  | ErrIllegalTag (fieldNum wire : Z)
  | ErrWrongWireType (wireType : Z)
  | ErrIllegalWireType (wireType : Z).
#[export] Instance proto_error_eq_dec : EqDecision proto_error.
Proof. solve_decision. Defined.

Abbreviation res := (outcome proto_error).

(** ** Go slices *)

(** [s[i]] *)
Definition at_index (s : list byte) (i : Z) : res byte :=
  if i <? 0 then Panic else match s !! Z.to_nat i with Some b => Ok b | None => Panic end.
(** [s[lo:hi]] *)
Definition subslice (s : list byte) (lo hi : Z) : res (list byte) :=
  if (0 <=? lo) && (lo <=? hi) && (hi <=? zlen s)
  then Ok (take (Z.to_nat (hi - lo)) (drop (Z.to_nat lo) s)) else Panic.
(** [s[i] = b] *)
Definition set_index (s : list byte) (i : Z) (b : byte) : res (list byte) :=
  if (0 <=? i) && (i <? zlen s) then Ok (<[Z.to_nat i := b]> s) else Panic.
(** [copy(s[i:], src)] *)
Definition copy_at (s : list byte) (i : Z) (src : list byte) : res (list byte) :=
  if (0 <=? i) && (i <=? zlen s)
  then Ok (take (Z.to_nat i) s ++ take (length s - Z.to_nat i) src
           ++ drop (Z.to_nat i + length src) s)
  else Panic.

(** ** Reading *)
Section Reading.
(** [for shift := uint(0); ; shift += 7 { ... acc |= T(b&0x7F) << shift ... }],
    with the conversion [conv] to the type [T] of the accumulator *)
Fixpoint varint_loop (fuel : nat) (conv : Z → Z) (dAtA : list byte) (iNdEx shift acc : Z)
    : res (Z * Z) :=
  match fuel with
  | O => OutOfFuel
  | S fuel =>
      return_err_if 64 <=? shift with ErrIntOverflowProtocolV11;;
      return_err_if zlen dAtA <=? iNdEx with ErrUnexpectedEOF;;
      b ← at_index dAtA iNdEx;
      let iNdEx := iNdEx + 1 in
      let acc := Z.lor acc (conv (Z.shiftl (Z.land (byte_val b) 127) shift)) in
      if byte_val b <? 128 then Ok (acc, iNdEx)
      else varint_loop fuel conv dAtA iNdEx (shift + 7) acc
  end.
(** the shift passes 63 at the eleventh turn *)
Definition read_varint (conv : Z → Z) (dAtA : list byte) (iNdEx : Z) : res (Z * Z) :=
  varint_loop 11 conv dAtA iNdEx 0 0.

(** a length and as many bytes: the bytes and the index behind them *)
Definition read_delimited (conv : Z → Z) (dAtA : list byte) (iNdEx : Z) : res (list byte * Z) :=
  '(n, iNdEx) ← read_varint conv dAtA iNdEx;
  let len := i64 n in
  return_err_if len <? 0 with ErrInvalidLengthProtocolV11;;
  let postIndex := i64 (iNdEx + len) in
  return_err_if postIndex <? 0 with ErrInvalidLengthProtocolV11;;
  return_err_if zlen dAtA <? postIndex with ErrUnexpectedEOF;;
  s ← subslice dAtA iNdEx postIndex;
  Ok (s, postIndex).

(** [skipProtocolV11]: the length of the field that starts at the head of the
    slice, with everything nested in it when it is a group *)
Definition skip_field (wireType : Z) (dAtA : list byte) (iNdEx depth : Z) : res (Z * Z) :=
  if wireType =? 0 then
    '(_, iNdEx) ← read_varint u64 dAtA iNdEx; Ok (iNdEx, depth)
  else if wireType =? 1 then Ok (i64 (iNdEx + 8), depth)
  else if wireType =? 2 then
    '(length, iNdEx) ← read_varint i64 dAtA iNdEx;
    return_err_if length <? 0 with ErrInvalidLengthProtocolV11;;
    Ok (i64 (iNdEx + length), depth)
  else if wireType =? 3 then Ok (iNdEx, depth + 1)
  else if wireType =? 4 then
    return_err_if depth =? 0 with ErrUnexpectedEndOfGroupProtocolV11;;
    Ok (iNdEx, depth - 1)
  else if wireType =? 5 then Ok (i64 (iNdEx + 4), depth)
  else Err (ErrIllegalWireType wireType).

Fixpoint skip_loop (fuel : nat) (dAtA : list byte) (iNdEx depth : Z) : res Z :=
  if zlen dAtA <=? iNdEx then Err ErrUnexpectedEOF else
  match fuel with
  | O => OutOfFuel
  | S fuel =>
      '(wire, iNdEx) ← read_varint u64 dAtA iNdEx;
      let wireType := Z.land wire 7 in
      '(iNdEx, depth) ← skip_field wireType dAtA iNdEx depth;
      return_err_if iNdEx <? 0 with ErrInvalidLengthProtocolV11;;
      if depth =? 0 then Ok iNdEx else skip_loop fuel dAtA iNdEx depth
  end.
Definition skipProtocolV11 (dAtA : list byte) : res Z := skip_loop (length dAtA) dAtA 0 0.

Context {M : Type}.
(** the [switch] on the field number of one message type, [None] in its
    default case; and the append to [XXX_unrecognized] *)
Variable field : Z → Z → list byte → Z → M → option (res (M * Z)).
Variable add_unrecognized : list byte → M → M.

Definition unknown_field (dAtA : list byte) (preIndex : Z) (m : M) : res (M * Z) :=
  rest ← subslice dAtA preIndex (zlen dAtA);
  skippy ← skipProtocolV11 rest;
  return_err_if skippy <? 0 with ErrInvalidLengthProtocolV11;;
  return_err_if i64 (preIndex + skippy) <? 0 with ErrInvalidLengthProtocolV11;;
  return_err_if zlen dAtA <? i64 (preIndex + skippy) with ErrUnexpectedEOF;;
  s ← subslice dAtA preIndex (preIndex + skippy);
  Ok (add_unrecognized s m, preIndex + skippy).

Definition unmarshal_step (dAtA : list byte) (iNdEx : Z) (m : M) : res (M * Z) :=
  let preIndex := iNdEx in
  '(wire, iNdEx) ← read_varint u64 dAtA iNdEx;
  let fieldNum := i32 (Z.shiftr wire 3) in
  let wireType := Z.land wire 7 in
  return_err_if wireType =? 4 with ErrEndGroup;;
  return_err_if fieldNum <=? 0 with ErrIllegalTag fieldNum wire;;
  match field fieldNum wireType dAtA iNdEx m with
  | Some r => r
  | None => unknown_field dAtA preIndex m
  end.

Fixpoint unmarshal_loop (fuel : nat) (dAtA : list byte) (iNdEx : Z) (m : M) : res M :=
  if zlen dAtA <=? iNdEx
  then (if zlen dAtA <? iNdEx then Err ErrUnexpectedEOF else Ok m)
  else match fuel with
       | O => OutOfFuel
       | S fuel =>
           '(m, iNdEx) ← unmarshal_step dAtA iNdEx m;
           unmarshal_loop fuel dAtA iNdEx m
       end.
Definition unmarshal_message (dAtA : list byte) (m : M) : res M :=
  unmarshal_loop (length dAtA) dAtA 0 m.
End Reading.

(** [if wireType != want { return fmt.Errorf("wrong wireType") }] around a field *)
Definition expect_wire {A} (want wireType : Z) (k : res A) : res A :=
  return_err_if negb (wireType =? want) with ErrWrongWireType wireType;; k.

(** ** The messages and their decoders *)

Record V11Endpoint : Type := MkV11Endpoint {
  Host : string;
  HostPort : string; (* Port *)
  ep_unrecognized : list byte;
}.
Record V11Handshake : Type := MkV11Handshake {
  hs_Type : Z;     (* uint32 *)
  hs_Network : Z;  (* uint32 *)
  hs_Version : Z;  (* uint32 *)
  hs_NodeID : Z;   (* uint32 *)
  hs_ListenPort : string;
  hs_Loopback : Z; (* uint64 *)
  hs_Alternatives : list V11Endpoint;
  hs_unrecognized : list byte;
}.
Record V11Msg : Type := MkV11Msg {
  msg_Type : Z; (* uint32 *)
  msg_Payload : list byte;
  msg_unrecognized : list byte;
}.
Record V11Share : Type := MkV11Share {
  share_Share : list V11Endpoint;
  share_unrecognized : list byte;
}.

(** the zero values, which [Reset] restores and [new] yields *)
Definition V11Endpoint_zero : V11Endpoint := MkV11Endpoint EmptyString EmptyString [].
Definition V11Handshake_zero : V11Handshake := MkV11Handshake 0 0 0 0 EmptyString 0 [] [].
Definition V11Msg_zero : V11Msg := MkV11Msg 0 [] [].
Definition V11Share_zero : V11Share := MkV11Share [] [].

Definition V11Endpoint_field (fieldNum wireType : Z) (dAtA : list byte) (iNdEx : Z)
    (m : V11Endpoint) : option (res (V11Endpoint * Z)) :=
  if fieldNum =? 1 then Some (expect_wire 2 wireType (
    '(s, iNdEx) ← read_delimited u64 dAtA iNdEx;
    Ok (MkV11Endpoint (bytes_str s) (HostPort m) (ep_unrecognized m), iNdEx)))
  else if fieldNum =? 2 then Some (expect_wire 2 wireType (
    '(s, iNdEx) ← read_delimited u64 dAtA iNdEx;
    Ok (MkV11Endpoint (Host m) (bytes_str s) (ep_unrecognized m), iNdEx)))
  else None.
Definition V11Endpoint_add_unrecognized (s : list byte) (m : V11Endpoint) : V11Endpoint :=
  MkV11Endpoint (Host m) (HostPort m) (ep_unrecognized m ++ s).
Definition V11Endpoint_Unmarshal (dAtA : list byte) (m : V11Endpoint) : res V11Endpoint :=
  unmarshal_message V11Endpoint_field V11Endpoint_add_unrecognized dAtA m.

Definition V11Msg_field (fieldNum wireType : Z) (dAtA : list byte) (iNdEx : Z)
    (m : V11Msg) : option (res (V11Msg * Z)) :=
  if fieldNum =? 1 then Some (expect_wire 0 wireType (
    '(v, iNdEx) ← read_varint u32 dAtA iNdEx;
    Ok (MkV11Msg v (msg_Payload m) (msg_unrecognized m), iNdEx)))
  else if fieldNum =? 2 then Some (expect_wire 2 wireType (
    '(s, iNdEx) ← read_delimited i64 dAtA iNdEx;
    Ok (MkV11Msg (msg_Type m) s (msg_unrecognized m), iNdEx)))
  else None.
Definition V11Msg_add_unrecognized (s : list byte) (m : V11Msg) : V11Msg :=
  MkV11Msg (msg_Type m) (msg_Payload m) (msg_unrecognized m ++ s).
Definition V11Msg_Unmarshal (dAtA : list byte) (m : V11Msg) : res V11Msg :=
  unmarshal_message V11Msg_field V11Msg_add_unrecognized dAtA m.

Definition V11Share_field (fieldNum wireType : Z) (dAtA : list byte) (iNdEx : Z)
    (m : V11Share) : option (res (V11Share * Z)) :=
  if fieldNum =? 1 then Some (expect_wire 2 wireType (
    '(s, iNdEx) ← read_delimited i64 dAtA iNdEx;
    e ← V11Endpoint_Unmarshal s V11Endpoint_zero;
    Ok (MkV11Share (share_Share m ++ [e]) (share_unrecognized m), iNdEx)))
  else None.
Definition V11Share_add_unrecognized (s : list byte) (m : V11Share) : V11Share :=
  MkV11Share (share_Share m) (share_unrecognized m ++ s).
Definition V11Share_Unmarshal (dAtA : list byte) (m : V11Share) : res V11Share :=
  unmarshal_message V11Share_field V11Share_add_unrecognized dAtA m.

Definition V11Handshake_field (fieldNum wireType : Z) (dAtA : list byte) (iNdEx : Z)
    (m : V11Handshake) : option (res (V11Handshake * Z)) :=
  let 'MkV11Handshake ty nw ve id lp lb al un := m in
  if fieldNum =? 1 then Some (expect_wire 0 wireType (
    '(v, iNdEx) ← read_varint u32 dAtA iNdEx;
    Ok (MkV11Handshake v nw ve id lp lb al un, iNdEx)))
  else if fieldNum =? 2 then Some (expect_wire 0 wireType (
    '(v, iNdEx) ← read_varint u32 dAtA iNdEx;
    Ok (MkV11Handshake ty v ve id lp lb al un, iNdEx)))
  else if fieldNum =? 3 then Some (expect_wire 0 wireType (
    '(v, iNdEx) ← read_varint u32 dAtA iNdEx;
    Ok (MkV11Handshake ty nw v id lp lb al un, iNdEx)))
  else if fieldNum =? 4 then Some (expect_wire 0 wireType (
    '(v, iNdEx) ← read_varint u32 dAtA iNdEx;
    Ok (MkV11Handshake ty nw ve v lp lb al un, iNdEx)))
  else if fieldNum =? 5 then Some (expect_wire 2 wireType (
    '(s, iNdEx) ← read_delimited u64 dAtA iNdEx;
    Ok (MkV11Handshake ty nw ve id (bytes_str s) lb al un, iNdEx)))
  else if fieldNum =? 6 then Some (expect_wire 0 wireType (
    '(v, iNdEx) ← read_varint u64 dAtA iNdEx;
    Ok (MkV11Handshake ty nw ve id lp v al un, iNdEx)))
  else if fieldNum =? 7 then Some (expect_wire 2 wireType (
    '(s, iNdEx) ← read_delimited i64 dAtA iNdEx;
    e ← V11Endpoint_Unmarshal s V11Endpoint_zero;
    Ok (MkV11Handshake ty nw ve id lp lb (al ++ [e]) un, iNdEx)))
  else None.
Definition V11Handshake_add_unrecognized (s : list byte) (m : V11Handshake) : V11Handshake :=
  let 'MkV11Handshake ty nw ve id lp lb al un := m in
  MkV11Handshake ty nw ve id lp lb al (un ++ s).
Definition V11Handshake_Unmarshal (dAtA : list byte) (m : V11Handshake) : res V11Handshake :=
  unmarshal_message V11Handshake_field V11Handshake_add_unrecognized dAtA m.

(** ** Writing *)

(** [bits.Len64] and [sovProtocolV11]: the bytes the varint of [x] takes *)
Definition Len64 (x : Z) : Z := if x =? 0 then 0 else Z.log2 x + 1.
Definition sovProtocolV11 (x : Z) : Z := (Len64 (Z.lor x 1) + 6) / 7.
(** [sozProtocolV11], the same for the zigzag encoding of a signed integer *)
Definition sozProtocolV11 (x : Z) : Z :=
  sovProtocolV11 (Z.lxor (u64 (Z.shiftl x 1)) (u64 (Z.shiftr (i64 x) 63))).

Section Writing.
Fixpoint varint_write_loop (fuel : nat) (dAtA : list byte) (offset v : Z) : res (list byte) :=
  match fuel with
  | O => OutOfFuel
  | S fuel =>
      if 128 <=? v then
        dAtA ← set_index dAtA offset (byte_of (Z.lor (Z.land v 127) 128));
        varint_write_loop fuel dAtA (offset + 1) (Z.shiftr v 7)
      else set_index dAtA offset (byte_of v)
  end.
(** the buffer and the offset the varint now starts at; ten bytes hold 64 bits *)
Definition encodeVarintProtocolV11 (dAtA : list byte) (offset v : Z) : res (list byte * Z) :=
  let offset := offset - sovProtocolV11 v in
  dAtA ← varint_write_loop 10 dAtA offset v;
  Ok (dAtA, offset).

(** the steps of the marshallers on the buffer [dAtA] and the index [i] *)
Definition put_varint (v : Z) (st : list byte * Z) : res (list byte * Z) :=
  encodeVarintProtocolV11 st.1 st.2 v.
(** [i--; dAtA[i] = b] *)
Definition put_byte (b : byte) (st : list byte * Z) : res (list byte * Z) :=
  let i := st.2 - 1 in dAtA ← set_index st.1 i b; Ok (dAtA, i).
(** [i -= len(src); copy(dAtA[i:], src)] *)
Definition put_bytes (src : list byte) (st : list byte * Z) : res (list byte * Z) :=
  let i := st.2 - zlen src in dAtA ← copy_at st.1 i src; Ok (dAtA, i).
(** a message written by [marshal] into [dAtA[:i]], its length, and a tag; [marshal]
    returns the slice it wrote into and the size of what it wrote *)
Definition put_nested (tag : byte) (marshal : list byte → res (list byte * Z))
    (st : list byte * Z) : res (list byte * Z) :=
  sub ← subslice st.1 0 st.2;
  '(sub, size) ← marshal sub;
  st ← put_varint (u64 size) (sub ++ drop (Z.to_nat st.2) st.1, st.2 - size);
  put_byte tag st.
(** [if c { ... }] *)
Definition put_if (c : bool) (w : list byte * Z → res (list byte * Z)) (st : list byte * Z)
    : res (list byte * Z) := if c then w st else Ok st.
Definition put_uint (tag : byte) (v : Z) (st : list byte * Z) : res (list byte * Z) :=
  put_if (negb (v =? 0)) (λ st, put_varint (u64 v) st |>= put_byte tag) st.
Definition put_delimited (tag : byte) (s : list byte) (st : list byte * Z)
    : res (list byte * Z) :=
  put_if (0 <? zlen s)
    (λ st, put_bytes s st |>= put_varint (u64 (zlen s)) |>= put_byte tag) st.
(** the loop over a repeated field, from its last element to its first *)
Fixpoint put_repeated {A} (tag : byte) (marshal : A → list byte → res (list byte * Z))
    (l : list A) (st : list byte * Z) : res (list byte * Z) :=
  match l with
  | [] => Ok st
  | e :: l => put_repeated tag marshal l st |>= put_nested tag (marshal e)
  end.
End Writing.

Definition V11Endpoint_MarshalToSizedBuffer (m : V11Endpoint) (dAtA : list byte)
    : res (list byte * Z) :=
  '(dAtA, i) ← put_bytes (ep_unrecognized m) (dAtA, zlen dAtA)
    |>= put_delimited x12 (str_bytes (HostPort m)) |>= put_delimited x0a (str_bytes (Host m));
  Ok (dAtA, zlen dAtA - i).

Definition V11Msg_MarshalToSizedBuffer (m : V11Msg) (dAtA : list byte) : res (list byte * Z) :=
  '(dAtA, i) ← put_bytes (msg_unrecognized m) (dAtA, zlen dAtA)
    |>= put_delimited x12 (msg_Payload m) |>= put_uint x08 (msg_Type m);
  Ok (dAtA, zlen dAtA - i).

Definition V11Share_MarshalToSizedBuffer (m : V11Share) (dAtA : list byte) : res (list byte * Z) :=
  '(dAtA, i) ← put_bytes (share_unrecognized m) (dAtA, zlen dAtA)
    |>= put_repeated x0a V11Endpoint_MarshalToSizedBuffer (share_Share m);
  Ok (dAtA, zlen dAtA - i).

Definition V11Handshake_MarshalToSizedBuffer (m : V11Handshake) (dAtA : list byte)
    : res (list byte * Z) :=
  '(dAtA, i) ← put_bytes (hs_unrecognized m) (dAtA, zlen dAtA)
    |>= put_repeated x3a V11Endpoint_MarshalToSizedBuffer (hs_Alternatives m)
    |>= put_uint x30 (hs_Loopback m)
    |>= put_delimited x2a (str_bytes (hs_ListenPort m))
    |>= put_uint x20 (hs_NodeID m)
    |>= put_uint x18 (hs_Version m)
    |>= put_uint x10 (hs_Network m)
    |>= put_uint x08 (hs_Type m);
  Ok (dAtA, zlen dAtA - i).

(** [Size] *)
Definition size_uint (v : Z) : Z := if negb (v =? 0) then 1 + sovProtocolV11 (u64 v) else 0.
Definition size_delimited (l : Z) : Z := if 0 <? l then 1 + l + sovProtocolV11 (u64 l) else 0.
Definition size_repeated {A} (size : A → Z) (l : list A) : Z :=
  foldr (λ e n, 1 + size e + sovProtocolV11 (u64 (size e)) + n) 0 l.

Definition V11Endpoint_Size (m : V11Endpoint) : Z :=
  size_delimited (zlen (str_bytes (Host m))) + size_delimited (zlen (str_bytes (HostPort m)))
  + zlen (ep_unrecognized m).
Definition V11Msg_Size (m : V11Msg) : Z :=
  size_uint (msg_Type m) + size_delimited (zlen (msg_Payload m)) + zlen (msg_unrecognized m).
Definition V11Share_Size (m : V11Share) : Z :=
  size_repeated V11Endpoint_Size (share_Share m) + zlen (share_unrecognized m).
Definition V11Handshake_Size (m : V11Handshake) : Z :=
  size_uint (hs_Type m) + size_uint (hs_Network m) + size_uint (hs_Version m)
  + size_uint (hs_NodeID m) + size_delimited (zlen (str_bytes (hs_ListenPort m)))
  + size_uint (hs_Loopback m) + size_repeated V11Endpoint_Size (hs_Alternatives m)
  + zlen (hs_unrecognized m).

(** [Marshal]: a zeroed buffer of [Size] bytes, filled from its end *)
Definition marshal_message {M} (size : M → Z) (to_buffer : M → list byte → res (list byte * Z))
    (m : M) : res (list byte) :=
  '(dAtA, n) ← to_buffer m (replicate (Z.to_nat (size m)) x00);
  subslice dAtA 0 n.
Definition V11Endpoint_Marshal : V11Endpoint → res (list byte) :=
  marshal_message V11Endpoint_Size V11Endpoint_MarshalToSizedBuffer.
Definition V11Msg_Marshal : V11Msg → res (list byte) :=
  marshal_message V11Msg_Size V11Msg_MarshalToSizedBuffer.
Definition V11Share_Marshal : V11Share → res (list byte) :=
  marshal_message V11Share_Size V11Share_MarshalToSizedBuffer.
Definition V11Handshake_Marshal : V11Handshake → res (list byte) :=
  marshal_message V11Handshake_Size V11Handshake_MarshalToSizedBuffer.

Example Msg_wire : V11Msg_Marshal (MkV11Msg 6 [x61; x62] []) = Ok [x08; x06; x12; x02; x61; x62].
Proof. vm_compute. reflexivity. Qed.
Example Msg_wire_back :
  V11Msg_Unmarshal [x08; xac; x02; x12; x02; x61; x62; x18; x01] V11Msg_zero
  = Ok (MkV11Msg 300 [x61; x62] [x18; x01]).
Proof. vm_compute. reflexivity. Qed.
