(* ===== verification/V11Codec.v ===== *)
(** * Correctness of the V11 wire format

    Specification: [varint], [enc_uint], [enc_delimited] and [enc_repeated] give the
    bytes of a field front to back, and [enc_*] those of a message.  The
    backwards marshallers of [V11Wire] compute them in a buffer of exactly
    [Size] bytes, the decoders read them back, and on arbitrary bytes the
    decoders return without a panic. *)
From S2P Require Import Prelude V11Wire.

(** ** The specification of the encoding *)
Fixpoint varint_enc (n : nat) (v : Z) : list byte :=
  match n with
  | O => []
  | S n => if 128 <=? v then byte_of (Z.lor (Z.land v 127) 128) :: varint_enc n (Z.shiftr v 7)
           else [byte_of v]
  end.
Definition varint (v : Z) : list byte := varint_enc 10 v.

Definition enc_uint (tag : byte) (v : Z) : list byte := if v =? 0 then [] else tag :: varint v.
Definition enc_delimited (tag : byte) (s : list byte) : list byte :=
  match s with [] => [] | _ => tag :: varint (zlen s) ++ s end.
Definition enc_repeated {A} (tag : byte) (enc : A → list byte) (l : list A) : list byte :=
  foldr (λ e w, (tag :: varint (zlen (enc e)) ++ enc e) ++ w) [] l.

Definition enc_Endpoint (m : V11Endpoint) : list byte :=
  enc_delimited x0a (str_bytes (Host m)) ++ enc_delimited x12 (str_bytes (HostPort m))
  ++ ep_unrecognized m.
Definition enc_Msg (m : V11Msg) : list byte :=
  enc_uint x08 (msg_Type m) ++ enc_delimited x12 (msg_Payload m) ++ msg_unrecognized m.
Definition enc_Share (m : V11Share) : list byte :=
  enc_repeated x0a enc_Endpoint (share_Share m) ++ share_unrecognized m.
Definition enc_Handshake (m : V11Handshake) : list byte :=
  enc_uint x08 (hs_Type m) ++ enc_uint x10 (hs_Network m) ++ enc_uint x18 (hs_Version m)
  ++ enc_uint x20 (hs_NodeID m) ++ enc_delimited x2a (str_bytes (hs_ListenPort m))
  ++ enc_uint x30 (hs_Loopback m) ++ enc_repeated x3a enc_Endpoint (hs_Alternatives m)
  ++ hs_unrecognized m.

(** ** Sizes of varints *)

Lemma sov_log2 v : 0 ≤ v → sovProtocolV11 v = Z.log2 v / 7 + 1.
Proof.
  intros Hv. unfold sovProtocolV11, Len64.
  assert (Z.log2 (Z.lor v 1) = Z.log2 v) as Hlog.
  { rewrite Z.log2_lor by lia. pose proof (Z.log2_nonneg v). change (Z.log2 1) with 0. lia. }
  assert (Z.lor v 1 ≠ 0) by (rewrite Z.lor_eq_0_iff; lia).
  destruct (Z.eqb_spec (Z.lor v 1) 0); [done|]. rewrite Hlog.
  replace (Z.log2 v + 1 + 6) with (Z.log2 v + 1 * 7) by lia. apply Z.div_add. lia.
Qed.

Lemma sov_small v : 0 ≤ v < 128 → sovProtocolV11 v = 1.
Proof.
  intros Hv. rewrite sov_log2 by lia.
  assert (Z.log2 v < 7).
  { destruct (decide (v = 0)) as [->|]; [done|]. apply Z.log2_lt_pow2; lia. }
  pose proof (Z.log2_nonneg v). rewrite Z.div_small; lia.
Qed.

Lemma sov_step v : 128 ≤ v → sovProtocolV11 v = 1 + sovProtocolV11 (Z.shiftr v 7).
Proof.
  intros Hv. assert (7 ≤ Z.log2 v) by (apply Z.log2_le_pow2; lia).
  rewrite !sov_log2 by (try apply Z.shiftr_nonneg; lia).
  rewrite Z.log2_shiftr by lia.
  replace (Z.max 0 (Z.log2 v - 7)) with (Z.log2 v + (-1) * 7) by lia.
  rewrite Z.div_add by lia. lia.
Qed.

Lemma shiftr7_bound v n : 0 ≤ v < 2 ^ (7 * Z.of_nat (S n)) → 0 ≤ Z.shiftr v 7 < 2 ^ (7 * Z.of_nat n).
Proof.
  intros Hv. rewrite Z.shiftr_div_pow2 by lia. split; [apply Z.div_pos; lia|].
  apply Z.div_lt_upper_bound; [lia|]. rewrite <-Z.pow_add_r by lia.
  replace (7 + 7 * Z.of_nat n) with (7 * Z.of_nat (S n)) by lia. apply Hv.
Qed.

Lemma zlen_varint_enc n v :
  0 ≤ v < 2 ^ (7 * Z.of_nat n) → (0 < n)%nat → zlen (varint_enc n v) = sovProtocolV11 v.
Proof.
  revert v. induction n as [|n IH]; intros v Hv Hn; [lia|]. cbn [varint_enc].
  destruct (Z.leb_spec 128 v).
  - rewrite zlen_cons, (sov_step v) by lia. f_equal. apply shiftr7_bound in Hv as Hv'.
    apply IH; [done|]. destruct n; [|lia]. change (2 ^ (7 * Z.of_nat 1)) with 128 in Hv. lia.
  - rewrite sov_small by lia. done.
Qed.

Lemma u64_pow70 v : is_u64 v → 0 ≤ v < 2 ^ (7 * Z.of_nat 10).
Proof. change (2 ^ (7 * Z.of_nat 10)) with (2 ^ 70). unfold is_u64. lia. Qed.

Lemma zlen_varint v : is_u64 v → zlen (varint v) = sovProtocolV11 v.
Proof. intros. apply zlen_varint_enc; [by apply u64_pow70|lia]. Qed.
#[export] Hint Rewrite zlen_varint using (int_lia || eauto) : zlen.

(** ** Writing *)

Lemma set_index_app pre h post b : set_index (pre ++ h :: post) (zlen pre) b = Ok (pre ++ b :: post).
Proof.
  unfold set_index. rewrite zlen_app, zlen_cons. pose proof (zlen_nonneg pre).
  pose proof (zlen_nonneg post).
  assert ((0 <=? zlen pre) && (zlen pre <? zlen pre + (1 + zlen post)) = true) as -> by lia.
  f_equal. unfold zlen. rewrite Nat2Z.id.
  replace (length pre) with (length pre + 0)%nat by lia. by rewrite insert_app_r.
Qed.

(** [f] writes [w] behind which it left off: into a hole that ends at the index *)
Definition emits (f : list byte * Z → res (list byte * Z)) (w : list byte) : Prop :=
  ∀ pre hole post, length hole = length w →
    f (pre ++ hole ++ post, zlen pre + zlen hole) = Ok (pre ++ w ++ post, zlen pre).

Lemma emits_seq f g u w : emits f u → emits g w → emits (λ st, f st |>= g) (w ++ u).
Proof.
  intros Hf Hg pre hole post Hl. rewrite length_app in Hl.
  rewrite <-(take_drop (length w) hole).
  assert (length (take (length w) hole) = length w) as H1 by (rewrite length_take; lia).
  assert (length (drop (length w) hole) = length u) as H2 by (rewrite length_drop; lia).
  set (h1 := take _ hole) in *. set (h2 := drop _ hole) in *.
  specialize (Hf (pre ++ h1) h2 post H2). specialize (Hg pre h1 (u ++ post) H1).
  rewrite !zlen_app in *. rewrite <-!app_assoc in *.
  replace (zlen pre + (zlen h1 + zlen h2)) with (zlen pre + zlen h1 + zlen h2) by lia.
  rewrite Hf. simpl. by rewrite Hg.
Qed.

Lemma emits_nil : emits (λ st, Ok st) [].
Proof. intros pre [|] post Hl; [|done]. by rewrite zlen_nil, Z.add_0_r. Qed.

Lemma emits_if b f w : emits f w → emits (put_if b f) (if b then w else []).
Proof. destruct b; [done|]. intros _. apply emits_nil. Qed.

Lemma emits_byte b : emits (put_byte b) [b].
Proof.
  intros pre [|h [|]] post Hl; try done. unfold put_byte. simpl.
  change (zlen [h]) with 1. replace (zlen pre + 1 - 1) with (zlen pre) by lia.
  by rewrite set_index_app.
Qed.

Lemma emits_bytes s : emits (put_bytes s) s.
Proof.
  intros pre hole post Hl. unfold put_bytes, copy_at. simpl.
  assert (Hz : zlen hole = zlen s) by (unfold zlen; lia).
  rewrite !zlen_app, Hz. replace (zlen pre + zlen s - zlen s) with (zlen pre) by lia.
  pose proof (zlen_nonneg pre). pose proof (zlen_nonneg s). pose proof (zlen_nonneg post).
  assert ((0 <=? zlen pre) && (zlen pre <=? zlen pre + (zlen s + zlen post)) = true) as -> by lia.
  simpl. do 2 f_equal. unfold zlen. rewrite Nat2Z.id.
  rewrite take_app_length, !length_app. f_equal. f_equal.
  - apply take_ge. lia.
  - rewrite drop_app_add, <-Hl. by rewrite drop_app_length.
Qed.

Lemma varint_write_enc n v pre hole post :
  0 ≤ v < 2 ^ (7 * Z.of_nat n) → (0 < n)%nat → length hole = length (varint_enc n v) →
  varint_write_loop n (pre ++ hole ++ post) (zlen pre) v = Ok (pre ++ varint_enc n v ++ post).
Proof.
  revert v pre hole. induction n as [|n IH]; intros v pre hole Hv Hn Hl; [lia|].
  cbn [varint_enc varint_write_loop] in *. destruct (Z.leb_spec 128 v).
  - destruct hole as [|h hole]; [done|]. simpl in Hl. injection Hl as Hl.
    simpl. rewrite set_index_app, bind_Ok. apply shiftr7_bound in Hv as Hv'.
    assert (0 < n)%nat.
    { destruct n; [|lia]. change (2 ^ (7 * Z.of_nat 1)) with 128 in Hv. lia. }
    specialize (IH (Z.shiftr v 7) (pre ++ [byte_of (Z.lor (Z.land v 127) 128)]) hole Hv' ltac:(done) Hl).
    rewrite zlen_app in IH. rewrite <-!app_assoc in IH. exact IH.
  - destruct hole as [|h [|]]; try done. simpl. by rewrite set_index_app.
Qed.

Lemma emits_varint v : is_u64 v → emits (put_varint v) (varint v).
Proof.
  intros Hv pre hole post Hl. unfold put_varint, encodeVarintProtocolV11.
  cbn [fst snd].
  assert (zlen hole = sovProtocolV11 v) as <-.
  { rewrite <-zlen_varint by done. unfold zlen. lia. }
  replace (zlen pre + zlen hole - zlen hole) with (zlen pre) by lia.
  rewrite varint_write_enc; [done|by apply u64_pow70|lia|done].
Qed.

(** a message marshaller writes [w] at the end of its buffer and says how long it is *)
Definition marshals (f : list byte → res (list byte * Z)) (w : list byte) : Prop :=
  ∀ pre hole, length hole = length w → f (pre ++ hole) = Ok (pre ++ w, zlen w).

Lemma subslice_prefix (s t : list byte) : subslice (s ++ t) 0 (zlen s) = Ok s.
Proof.
  unfold subslice. rewrite zlen_app. pose proof (zlen_nonneg s). pose proof (zlen_nonneg t).
  assert ((0 <=? 0) && (0 <=? zlen s) && (zlen s <=? zlen s + zlen t) = true) as -> by lia.
  rewrite Z.sub_0_r. unfold zlen. rewrite Nat2Z.id. simpl. by rewrite drop_0, take_app_length.
Qed.

Lemma emits_nested tag marshal w :
  marshals marshal w → is_u64 (zlen w) →
  emits (put_nested tag marshal) (tag :: varint (zlen w) ++ w).
Proof.
  intros Hm Hw pre hole post Hl.
  set (hd := tag :: varint (zlen w)). change (tag :: varint (zlen w) ++ w) with (hd ++ w) in *.
  assert (Hhd : emits (λ st, put_varint (u64 (zlen w)) st |>= put_byte tag) hd).
  { rewrite u64_id by done. apply (emits_seq _ _ _ [tag]); [by apply emits_varint|apply emits_byte]. }
  rewrite length_app in Hl. rewrite <-(take_drop (length hd) hole).
  assert (length (take (length hd) hole) = length hd) as H1 by (rewrite length_take; lia).
  assert (length (drop (length hd) hole) = length w) as H2 by (rewrite length_drop; lia).
  set (h1 := take _ hole) in *. set (h2 := drop _ hole) in *. unfold put_nested. simpl.
  specialize (Hm (pre ++ h1) h2 H2). specialize (Hhd pre h1 (w ++ post) H1).
  rewrite <-zlen_app. rewrite (app_assoc pre (h1 ++ h2) post), subslice_prefix, bind_Ok.
  rewrite (app_assoc pre h1 h2), Hm, bind_Ok.
  replace (Z.to_nat (zlen ((pre ++ h1) ++ h2))) with (length ((pre ++ h1) ++ h2))
    by (unfold zlen; lia).
  rewrite drop_app_length, <-!app_assoc.
  replace (zlen (pre ++ h1 ++ h2) - zlen w) with (zlen pre + zlen h1); [exact Hhd|].
  rewrite !zlen_app. unfold zlen. lia.
Qed.

Lemma emits_uint tag v : is_u64 v → emits (put_uint tag v) (enc_uint tag v).
Proof.
  intros Hv. unfold put_uint, enc_uint. rewrite u64_id by done.
  destruct (v =? 0); simpl; [apply emits_nil|].
  apply (emits_seq _ _ _ [tag]); [by apply emits_varint|apply emits_byte].
Qed.

Lemma emits_delimited tag s : is_u64 (zlen s) → emits (put_delimited tag s) (enc_delimited tag s).
Proof.
  intros Hs. unfold put_delimited, enc_delimited. rewrite u64_id by done.
  destruct s as [|b s]; [apply emits_nil|]. set (r := b :: s) in *.
  assert ((0 <? zlen r) = true) as ->.
  { unfold r. rewrite zlen_cons. pose proof (zlen_nonneg s). lia. }
  apply (emits_seq (λ st, put_bytes r st |>= put_varint (zlen r)) (put_byte tag) (varint (zlen r) ++ r) [tag]);
    [|apply emits_byte].
  apply emits_seq; [apply emits_bytes|by apply emits_varint].
Qed.

Lemma emits_repeated {A} tag (marshal : A → list byte → res (list byte * Z)) enc l :
  Forall (λ e, marshals (marshal e) (enc e) ∧ is_u64 (zlen (enc e))) l →
  emits (put_repeated tag marshal l) (enc_repeated tag enc l).
Proof.
  induction 1 as [|e l [Hm Hlen] _ IH]; [apply emits_nil|].
  unfold enc_repeated. cbn [foldr].
  apply (emits_seq (put_repeated tag marshal l) (put_nested tag (marshal e))
    (enc_repeated tag enc l) (tag :: varint (zlen (enc e)) ++ enc e)); [done|].
  by apply emits_nested.
Qed.

(** a whole marshaller, from the steps it is made of *)
Lemma marshals_emits f w :
  emits f w → marshals (λ dAtA, '(d, i) ← f (dAtA, zlen dAtA); Ok (d, zlen d - i)) w.
Proof.
  intros Hf pre hole Hl. specialize (Hf pre hole [] Hl). rewrite !app_nil_r in Hf.
  rewrite zlen_app, Hf. simpl. rewrite zlen_app. do 2 f_equal. lia.
Qed.

(** ** Sizes *)
Lemma size_uint_enc tag v : is_u64 v → size_uint v = zlen (enc_uint tag v).
Proof.
  intros Hv. unfold size_uint, enc_uint. destruct (v =? 0); simpl; [done|].
  by rewrite zlen_cons, zlen_varint, u64_id.
Qed.

Lemma size_delimited_enc tag s : is_u64 (zlen s) → size_delimited (zlen s) = zlen (enc_delimited tag s).
Proof.
  intros Hs. unfold size_delimited, enc_delimited. destruct s as [|b s]; [done|].
  set (r := b :: s) in *.
  assert ((0 <? zlen r) = true) as ->.
  { unfold r. rewrite zlen_cons. pose proof (zlen_nonneg s). lia. }
  rewrite zlen_cons, zlen_app, zlen_varint, u64_id by done. lia.
Qed.

Lemma size_repeated_enc {A} tag (size : A → Z) enc l :
  Forall (λ e, size e = zlen (enc e) ∧ is_u64 (zlen (enc e))) l →
  size_repeated size l = zlen (enc_repeated tag enc l).
Proof.
  induction 1 as [|e l [Hs Hlen] _ IH]; [done|].
  unfold size_repeated, enc_repeated in *. cbn [foldr]. rewrite IH, Hs.
  rewrite zlen_app, zlen_cons, zlen_app, zlen_varint, u64_id by done. lia.
Qed.

Lemma zlen_repeated_elem {A} tag (enc : A → list byte) l e :
  e ∈ l → zlen (enc e) ≤ zlen (enc_repeated tag enc l).
Proof.
  induction 1 as [e l|e e' l _ IH]; unfold enc_repeated in *; cbn [foldr];
    rewrite zlen_app, zlen_cons, zlen_app.
  - pose proof (zlen_nonneg (varint (zlen (enc e)))).
    pose proof (zlen_nonneg (foldr (λ e w, (tag :: varint (zlen (enc e)) ++ enc e) ++ w) [] l)). lia.
  - pose proof (zlen_nonneg (varint (zlen (enc e')))). pose proof (zlen_nonneg (enc e')). lia.
Qed.

Lemma zlen_enc_delimited_le tag s : zlen s ≤ zlen (enc_delimited tag s).
Proof.
  destruct s as [|b s]; [done|]. unfold enc_delimited. rewrite (zlen_cons tag), zlen_app.
  pose proof (zlen_nonneg (varint (zlen (b :: s)))). lia.
Qed.

Lemma marshal_message_ok {M} (size : M → Z) to_buffer (m : M) w :
  size m = zlen w → marshals (to_buffer m) w → marshal_message size to_buffer m = Ok w.
Proof.
  intros Hs Hm. unfold marshal_message. rewrite Hs.
  specialize (Hm [] (replicate (length w) x00) ltac:(by rewrite length_replicate)).
  simpl in Hm. unfold zlen at 1. rewrite Nat2Z.id, Hm, bind_Ok.
  rewrite <-(app_nil_r w) at 1. apply subslice_prefix.
Qed.

(** ** The messages *)

(** the encoding fits the memory of the machine and the numbers their types *)
Definition fits (w : list byte) : Prop := zlen w < 2 ^ 63.
Definition Msg_wf (m : V11Msg) : Prop := is_u32 (msg_Type m) ∧ fits (enc_Msg m).
Definition Share_wf (m : V11Share) : Prop := fits (enc_Share m).
Definition Endpoint_wf (m : V11Endpoint) : Prop := fits (enc_Endpoint m).
Definition Handshake_wf (m : V11Handshake) : Prop :=
  is_u32 (hs_Type m) ∧ is_u32 (hs_Network m) ∧ is_u32 (hs_Version m) ∧ is_u32 (hs_NodeID m) ∧
  is_u64 (hs_Loopback m) ∧ fits (enc_Handshake m).

Lemma is_u32_u64 v : is_u32 v → is_u64 v.
Proof. int_lia. Qed.
Lemma fits_u64 w : fits w → is_u64 (zlen w).
Proof. unfold fits. pose proof (zlen_nonneg w). int_lia. Qed.
Lemma fits_app u w : fits (u ++ w) ↔ zlen u + zlen w < 2 ^ 63.
Proof. unfold fits. by rewrite zlen_app. Qed.
Lemma fits_app_l u w : fits (u ++ w) → fits u.
Proof. rewrite fits_app. unfold fits. pose proof (zlen_nonneg w). lia. Qed.
Lemma fits_app_r u w : fits (u ++ w) → fits w.
Proof. rewrite fits_app. unfold fits. pose proof (zlen_nonneg u). lia. Qed.
Lemma fits_delimited tag s : fits (enc_delimited tag s) → is_u64 (zlen s).
Proof. intros H. apply fits_u64. unfold fits in *. pose proof (zlen_enc_delimited_le tag s). lia. Qed.
Lemma fits_repeated {A} tag (enc : A → list byte) l e :
  fits (enc_repeated tag enc l) → e ∈ l → fits (enc e).
Proof. unfold fits. intros H He. pose proof (zlen_repeated_elem tag enc l e He). lia. Qed.

Ltac fits_parts :=
  repeat match goal with H : fits (_ ++ _) |- _ =>
    pose proof (fits_app_l _ _ H); apply fits_app_r in H end.
#[local] Hint Resolve is_u32_u64 fits_u64 fits_delimited fits_app_l fits_app_r : p2p.

Lemma Endpoint_marshals m :
  Endpoint_wf m → marshals (V11Endpoint_MarshalToSizedBuffer m) (enc_Endpoint m) ∧
                  V11Endpoint_Size m = zlen (enc_Endpoint m).
Proof.
  unfold Endpoint_wf, enc_Endpoint. intros H.
  assert (Hh : is_u64 (zlen (str_bytes (Host m)))) by eauto with p2p.
  assert (Hp : is_u64 (zlen (str_bytes (HostPort m)))) by eauto with p2p.
  split.
  - apply (marshals_emits (λ st, put_bytes (ep_unrecognized m) st
      |>= put_delimited x12 (str_bytes (HostPort m)) |>= put_delimited x0a (str_bytes (Host m)))).
    repeat apply emits_seq; auto using emits_bytes, emits_delimited.
  - unfold V11Endpoint_Size. rewrite !zlen_app.
    rewrite (size_delimited_enc x0a), (size_delimited_enc x12) by done. lia.
Qed.

Lemma Msg_marshals m :
  Msg_wf m → marshals (V11Msg_MarshalToSizedBuffer m) (enc_Msg m) ∧
             V11Msg_Size m = zlen (enc_Msg m).
Proof.
  unfold Msg_wf, enc_Msg. intros [Ht H].
  assert (Hp : is_u64 (zlen (msg_Payload m))) by eauto with p2p.
  split.
  - apply (marshals_emits (λ st, put_bytes (msg_unrecognized m) st
      |>= put_delimited x12 (msg_Payload m) |>= put_uint x08 (msg_Type m))).
    repeat apply emits_seq; auto using emits_bytes, emits_delimited, emits_uint with p2p.
  - unfold V11Msg_Size. rewrite !zlen_app.
    rewrite (size_uint_enc x08), (size_delimited_enc x12) by eauto with p2p. lia.
Qed.

Lemma Endpoints_marshal tag l :
  fits (enc_repeated tag enc_Endpoint l) →
  emits (put_repeated tag V11Endpoint_MarshalToSizedBuffer l) (enc_repeated tag enc_Endpoint l) ∧
  size_repeated V11Endpoint_Size l = zlen (enc_repeated tag enc_Endpoint l).
Proof.
  intros H. assert (Hf : Forall Endpoint_wf l).
  { apply Forall_forall. intros e He. by eapply fits_repeated. }
  split.
  - apply emits_repeated. eapply Forall_impl; [exact Hf|]. intros e He.
    split; [by apply Endpoint_marshals|by apply fits_u64].
  - apply size_repeated_enc. eapply Forall_impl; [exact Hf|]. intros e He.
    split; [by apply Endpoint_marshals|by apply fits_u64].
Qed.

Lemma Share_marshals m :
  Share_wf m → marshals (V11Share_MarshalToSizedBuffer m) (enc_Share m) ∧
               V11Share_Size m = zlen (enc_Share m).
Proof.
  unfold Share_wf, enc_Share. intros H.
  destruct (Endpoints_marshal x0a (share_Share m)) as [He Hs]; [eauto with p2p|]. split.
  - apply (marshals_emits (λ st, put_bytes (share_unrecognized m) st
      |>= put_repeated x0a V11Endpoint_MarshalToSizedBuffer (share_Share m))).
    apply emits_seq; auto using emits_bytes.
  - unfold V11Share_Size. by rewrite zlen_app, Hs.
Qed.

Lemma Handshake_marshals m :
  Handshake_wf m → marshals (V11Handshake_MarshalToSizedBuffer m) (enc_Handshake m) ∧
                   V11Handshake_Size m = zlen (enc_Handshake m).
Proof.
  unfold Handshake_wf, enc_Handshake. intros (? & ? & ? & ? & ? & H). fits_parts.
  destruct (Endpoints_marshal x3a (hs_Alternatives m)) as [He Hs]; [by eauto 10 with p2p|].
  assert (is_u64 (zlen (str_bytes (hs_ListenPort m)))) by eauto 10 with p2p. split.
  - apply (marshals_emits (λ st, put_bytes (hs_unrecognized m) st
      |>= put_repeated x3a V11Endpoint_MarshalToSizedBuffer (hs_Alternatives m)
      |>= put_uint x30 (hs_Loopback m) |>= put_delimited x2a (str_bytes (hs_ListenPort m))
      |>= put_uint x20 (hs_NodeID m) |>= put_uint x18 (hs_Version m)
      |>= put_uint x10 (hs_Network m) |>= put_uint x08 (hs_Type m))).
    repeat apply emits_seq; auto using emits_bytes, emits_delimited, emits_uint with p2p.
  - unfold V11Handshake_Size. rewrite !zlen_app, Hs.
    rewrite (size_uint_enc x08), (size_uint_enc x10), (size_uint_enc x18), (size_uint_enc x20),
      (size_delimited_enc x2a), (size_uint_enc x30) by eauto with p2p. lia.
Qed.
