(* ===== verification/V11Decode.v ===== *)
(** * Decoding the V11 wire format

    The decoders read back what the specification of [V11Codec] encodes, and
    return without a panic on every slice of bytes. *)
From S2P Require Import Prelude V11Wire V11Codec.

(** ** Reading varints *)

Lemma varint_bits v : Z.lor (Z.land v 127) (Z.shiftl (Z.shiftr v 7) 7) = v.
Proof.
  apply Z.bits_inj'. intros n Hn. change 127 with (Z.ones 7).
  rewrite Z.lor_spec, Z.land_spec, Z.shiftl_spec, Z.testbit_ones_nonneg by lia.
  destruct (Z.ltb_spec n 7).
  - rewrite (Z.testbit_neg_r _ (n - 7)) by lia. by rewrite andb_true_r, orb_false_r.
  - rewrite Z.shiftr_spec by lia. rewrite andb_false_r. simpl. f_equal. lia.
Qed.

Lemma continuation_byte v :
  byte_val (byte_of (Z.lor (Z.land v 127) 128)) = Z.lor (Z.land v 127) 128 ∧
  128 ≤ Z.lor (Z.land v 127) 128 ∧
  Z.land (Z.lor (Z.land v 127) 128) 127 = Z.land v 127.
Proof.
  change 127 with (Z.ones 7). rewrite !Z.land_ones by lia.
  pose proof (Z.mod_pos_bound v (2 ^ 7) ltac:(lia)) as Hm. set (m := v mod 2 ^ 7) in *.
  assert (Z.lor m 128 = m + 128) as ->.
  { rewrite <-Z.lxor_lor, <-Z.add_nocarry_lxor; [done|..];
      apply Z.bits_inj'; intros n Hn; rewrite Z.land_spec, Z.bits_0;
      change 128 with (2 ^ 7); rewrite Z.pow2_bits_eqb by lia;
      (destruct (Z.eqb_spec 7 n) as [<-|]; [|apply andb_false_r]);
      rewrite (Z.bits_above_log2 m 7); try done; try lia;
      (destruct (decide (m = 0)) as [->|]; [done|apply Z.log2_lt_pow2; lia]). }
  rewrite byte_val_of, Z.mod_small by lia. split_and!; [done|lia|].
  rewrite (Z.add_comm m 128). change 128 with (1 * 2 ^ 7).
  rewrite Z.add_comm, Z.mod_add by lia. apply Z.mod_small. lia.
Qed.

Lemma at_index_app pre b post : at_index (pre ++ b :: post) (zlen pre) = Ok b.
Proof.
  unfold at_index. pose proof (zlen_nonneg pre).
  assert ((zlen pre <? 0) = false) as -> by lia.
  unfold zlen. rewrite Nat2Z.id. by rewrite list_lookup_middle.
Qed.

Lemma varint_loop_enc n fuel conv B v pre suf shift acc :
  (∀ z, 0 ≤ z < B → conv z = z) → B ≤ 2 ^ 64 →
  0 ≤ v < 2 ^ (7 * Z.of_nat n) → (0 < n)%nat → (n ≤ fuel)%nat →
  0 ≤ shift < 64 → v * 2 ^ shift < B →
  varint_loop fuel conv (pre ++ varint_enc n v ++ suf) (zlen pre) shift acc =
  Ok (Z.lor acc (Z.shiftl v shift), zlen (pre ++ varint_enc n v)).
Proof.
  intros Hconv HB. revert fuel v pre shift acc.
  induction n as [|n IH]; intros fuel v pre shift acc Hv Hn Hf Hs HvB; [lia|].
  destruct fuel as [|fuel]; [lia|]. cbn [varint_enc varint_loop].
  assert ((64 <=? shift) = false) as -> by lia.
  assert (Hpow : 0 < 2 ^ shift) by (apply Z.pow_pos_nonneg; lia).
  assert (Hland : 0 ≤ Z.land v 127 ≤ v).
  { change 127 with (Z.ones 7). rewrite Z.land_ones by lia.
    split; [apply Z.mod_pos_bound; lia|apply Z.mod_le; lia]. }
  destruct (Z.leb_spec 128 v) as [Hbig|Hsmall]; cbn [app].
  - rewrite at_index_app, bind_Ok. rewrite !zlen_app, !zlen_cons, zlen_app.
    pose proof (zlen_nonneg (varint_enc n (Z.shiftr v 7))). pose proof (zlen_nonneg suf).
    match goal with |- context [?x <=? zlen pre] => assert ((x <=? zlen pre) = false) as -> by lia end.
    destruct (continuation_byte v) as (-> & Hge & ->).
    match goal with |- context [?x <? 128] => assert ((x <? 128) = false) as -> by lia end.
    apply shiftr7_bound in Hv as Hv'.
    assert (0 < n)%nat.
    { destruct n; [|lia]. change (2 ^ (7 * Z.of_nat 1)) with 128 in Hv. lia. }
    assert (Hdiv : 1 ≤ Z.shiftr v 7 ∧ Z.shiftr v 7 * 2 ^ 7 ≤ v).
    { rewrite Z.shiftr_div_pow2 by lia. split; [apply Z.div_le_lower_bound; lia|].
      rewrite Z.mul_comm. apply Z.mul_div_le. lia. }
    assert (Hs7 : 2 ^ (shift + 7) = 2 ^ 7 * 2 ^ shift) by (rewrite Z.pow_add_r by lia; lia).
    assert (shift + 7 < 64).
    { apply (Z.pow_lt_mono_r_iff 2); [lia..|]. nia. }
    rewrite Hconv by (rewrite Z.shiftl_mul_pow2 by lia; nia).
    specialize (IH fuel (Z.shiftr v 7) (pre ++ [byte_of (Z.lor (Z.land v 127) 128)]) (shift + 7)
      (Z.lor acc (Z.shiftl (Z.land v 127) shift)) Hv' ltac:(done) ltac:(lia) ltac:(lia)
      ltac:(nia)).
    rewrite <-!app_assoc in IH. cbn [app] in IH.
    replace (zlen pre + 1) with (zlen (pre ++ [byte_of (Z.lor (Z.land v 127) 128)]))
      by (by rewrite zlen_app).
    rewrite IH. f_equal. f_equal.
    + rewrite <-Z.lor_assoc. f_equal. rewrite (Z.add_comm shift 7).
      rewrite <-Z.shiftl_shiftl by lia. by rewrite <-Z.shiftl_lor, varint_bits.
    + rewrite !zlen_app, zlen_cons. change (zlen [_]) with 1. lia.
  - rewrite at_index_app, bind_Ok. rewrite !zlen_app, !zlen_cons. change (zlen (@nil byte)) with 0.
    pose proof (zlen_nonneg suf).
    match goal with |- context [?x <=? zlen pre] => assert ((x <=? zlen pre) = false) as -> by lia end.
    rewrite byte_val_of, (Z.mod_small v 256) by lia.
    assert ((v <? 128) = true) as -> by lia.
    assert (Z.land v 127 = v) as ->.
    { change 127 with (Z.ones 7). rewrite Z.land_ones by lia. apply Z.mod_small. lia. }
    rewrite Hconv by (rewrite Z.shiftl_mul_pow2 by lia; nia). done.
Qed.

Lemma read_varint_enc conv B v pre suf :
  (∀ z, 0 ≤ z < B → conv z = z) → B ≤ 2 ^ 64 → 0 ≤ v < B →
  read_varint conv (pre ++ varint v ++ suf) (zlen pre) = Ok (v, zlen (pre ++ varint v)).
Proof.
  intros Hc HB Hv. unfold read_varint, varint.
  rewrite (varint_loop_enc 10 11 conv B v pre suf 0 0 Hc HB) by (try apply u64_pow70; int_lia).
  by rewrite Z.lor_0_l, Z.shiftl_0_r.
Qed.

(** the conversions to an accumulator type, on the values the type has *)
Definition conv_ok (conv : Z → Z) (B : Z) : Prop := B ≤ 2 ^ 64 ∧ ∀ z, 0 ≤ z < B → conv z = z.
Lemma conv_u32 : conv_ok u32 (2 ^ 32).
Proof. split; [lia|]. exact u32_id. Qed.
Lemma conv_u64 : conv_ok u64 (2 ^ 64).
Proof. split; [lia|]. exact u64_id. Qed.
Lemma conv_u64_int : conv_ok u64 (2 ^ 63).
Proof. split; [lia|]. intros z Hz. apply u64_id. int_lia. Qed.
Lemma conv_i64 : conv_ok i64 (2 ^ 63).
Proof. split; [lia|]. intros z Hz. apply i64_id. int_lia. Qed.
#[export] Hint Resolve conv_u32 conv_u64 conv_u64_int conv_i64 : p2p.

Lemma subslice_mid pre s post :
  subslice (pre ++ s ++ post) (zlen pre) (zlen (pre ++ s)) = Ok s.
Proof.
  unfold subslice. rewrite !zlen_app. pose proof (zlen_nonneg pre). pose proof (zlen_nonneg s).
  pose proof (zlen_nonneg post).
  assert ((0 <=? zlen pre) && (zlen pre <=? zlen pre + zlen s) &&
          (zlen pre + zlen s <=? zlen pre + (zlen s + zlen post)) = true) as -> by lia.
  replace (zlen pre + zlen s - zlen pre) with (zlen s) by lia.
  unfold zlen. rewrite !Nat2Z.id, drop_app_length. by rewrite take_app_length.
Qed.

Lemma read_delimited_enc conv s pre suf :
  conv_ok conv (2 ^ 63) → zlen (pre ++ (varint (zlen s) ++ s) ++ suf) < 2 ^ 63 →
  read_delimited conv (pre ++ (varint (zlen s) ++ s) ++ suf) (zlen pre) =
  Ok (s, zlen (pre ++ varint (zlen s) ++ s)).
Proof.
  intros [HB Hc] Hfit. unfold read_delimited. rewrite !zlen_app in Hfit.
  pose proof (zlen_nonneg pre). pose proof (zlen_nonneg s). pose proof (zlen_nonneg suf).
  pose proof (zlen_nonneg (varint (zlen s))). rewrite <-(app_assoc (varint _)).
  rewrite (read_varint_enc conv (2 ^ 63)) by (done || lia). rewrite bind_Ok.
  rewrite (i64_id (zlen s)) by int_lia. rewrite (zlen_app pre (varint _)).
  rewrite i64_id by int_lia.
  assert ((zlen s <? 0) = false) as -> by lia.
  assert ((zlen pre + zlen (varint (zlen s)) + zlen s <? 0) = false) as -> by lia.
  rewrite !zlen_app.
  match goal with |- context [?x <? ?y] => assert ((x <? y) = false) as -> by lia end.
  rewrite <-(zlen_app pre (varint _)), <-(zlen_app _ s), (app_assoc pre (varint _) (s ++ suf)).
  rewrite subslice_mid, bind_Ok. do 2 f_equal. rewrite !zlen_app. lia.
Qed.

Lemma tag_parts num wt :
  0 < num < 16 → 0 ≤ wt < 8 →
  i32 (Z.shiftr (8 * num + wt) 3) = num ∧ Z.land (8 * num + wt) 7 = wt.
Proof.
  intros Hn Hw. rewrite Z.shiftr_div_pow2 by lia. change 7 with (Z.ones 3).
  rewrite Z.land_ones by lia. change (2 ^ 3) with 8. rewrite (Z.add_comm (8 * num)), (Z.mul_comm 8).
  rewrite Z.div_add, Z.mod_add, Z.div_small, (Z.mod_small wt) by lia. split; [|done].
  unfold i32. rewrite Z.mod_small; lia.
Qed.

(** ** The loop over the fields of a message *)
Section Loop.
Context {M : Type} (field : Z → Z → list byte → Z → M → option (res (M * Z))).
Context (add_unrecognized : list byte → M → M).

(** the loop reads [w], in [k] turns, and takes [m] to [m'] *)
Definition decodes (k : nat) (w : list byte) (m m' : M) : Prop :=
  ∀ pre suf fuel, zlen (pre ++ w ++ suf) < 2 ^ 63 →
    unmarshal_loop field add_unrecognized (k + fuel) (pre ++ w ++ suf) (zlen pre) m =
    unmarshal_loop field add_unrecognized fuel (pre ++ w ++ suf) (zlen (pre ++ w)) m'.
Definition decoded (w : list byte) (m m' : M) : Prop :=
  ∃ k, (k ≤ length w)%nat ∧ decodes k w m m'.

Lemma decoded_nil m : decoded [] m m.
Proof. exists O. split; [done|]. intros pre suf fuel _. by rewrite app_nil_r. Qed.

Lemma decoded_app u w m1 m2 m3 : decoded u m1 m2 → decoded w m2 m3 → decoded (u ++ w) m1 m3.
Proof.
  intros (k1 & Hk1 & H1) (k2 & Hk2 & H2). exists (k1 + k2)%nat.
  split; [rewrite length_app; lia|]. intros pre suf fuel Hfit.
  rewrite <-app_assoc in *. rewrite <-Nat.add_assoc, H1 by done.
  specialize (H2 (pre ++ u) suf fuel). rewrite <-!app_assoc in H2. by apply H2.
Qed.

Lemma decoded_message w m m' :
  decoded w m m' → zlen w < 2 ^ 63 →
  unmarshal_message field add_unrecognized w m = Ok m'.
Proof.
  intros (k & Hk & H) Hfit. unfold unmarshal_message.
  specialize (H [] [] (length w - k)%nat). simpl in H. rewrite app_nil_r in H.
  replace (k + (length w - k))%nat with (length w) in H by lia.
  change 0 with (zlen (@nil byte)). rewrite H by done.
  destruct (length w - k)%nat; simpl; rewrite Z.leb_refl, Z.ltb_irrefl; done.
Qed.

(** one turn, at a tag of one byte *)
Lemma decoded_tag tag body m m' :
  let fieldNum := i32 (Z.shiftr (byte_val tag) 3) in
  let wireType := Z.land (byte_val tag) 7 in
  byte_val tag < 128 → (wireType =? 4) = false → (fieldNum <=? 0) = false →
  (∀ pre suf, zlen (pre ++ body ++ suf) < 2 ^ 63 →
     field fieldNum wireType (pre ++ body ++ suf) (zlen pre) m =
     Some (Ok (m', zlen (pre ++ body)))) →
  decoded (tag :: body) m m'.
Proof.
  intros fieldNum wireType Htag Hw Hn Hf. exists 1%nat. split; [simpl; lia|].
  intros pre suf fuel Hfit. cbn [Nat.add unmarshal_loop].
  pose proof (zlen_nonneg body). pose proof (zlen_nonneg suf). pose proof (zlen_nonneg pre).
  assert ((zlen (pre ++ (tag :: body) ++ suf) <=? zlen pre) = false) as ->.
  { rewrite !zlen_app, zlen_cons. lia. }
  replace (pre ++ (tag :: body) ++ suf) with ((pre ++ [tag]) ++ body ++ suf) in *
    by (by rewrite <-app_assoc).
  unfold unmarshal_step. rewrite <-(app_assoc pre) at 1.
  assert ([tag] = varint (byte_val tag)) as Hvar.
  { unfold varint. cbn [varint_enc]. pose proof (byte_val_range tag).
    assert ((128 <=? byte_val tag) = false) as -> by lia. by rewrite byte_of_val. }
  rewrite Hvar at 1. rewrite (read_varint_enc u64 (2 ^ 64)).
  2: exact u64_id. 2: lia. 2: { pose proof (byte_val_range tag). lia. }
  rewrite <-Hvar, bind_Ok. fold fieldNum wireType. rewrite Hw, Hn, Hf by done.
  rewrite bind_Ok. by rewrite <-(app_assoc pre [tag] body).
Qed.

Lemma decoded_uint tag fieldNum conv B v m m' :
  byte_val tag = 8 * fieldNum → 0 < fieldNum < 16 → conv_ok conv B → 0 ≤ v < B →
  (v = 0 → m' = m) →
  (∀ dAtA i i', read_varint conv dAtA i = Ok (v, i') →
     field fieldNum 0 dAtA i m = Some (Ok (m', i'))) →
  decoded (enc_uint tag v) m m'.
Proof.
  intros Htag Hnum [HB Hc] Hv Hz Hf. unfold enc_uint.
  destruct (Z.eqb_spec v 0) as [->|]; [rewrite Hz by done; apply decoded_nil|].
  destruct (tag_parts fieldNum 0) as [E1 E2]; [lia..|]. rewrite Z.add_0_r, <-Htag in E1, E2.
  apply decoded_tag; rewrite ?E1, ?E2; [lia|done|lia|].
  intros pre suf _. apply Hf. by apply (read_varint_enc conv B).
Qed.

Lemma decoded_tagged tag fieldNum conv s m m' :
  byte_val tag = 8 * fieldNum + 2 → 0 < fieldNum < 15 → conv_ok conv (2 ^ 63) →
  (∀ dAtA i i', read_delimited conv dAtA i = Ok (s, i') →
     field fieldNum 2 dAtA i m = Some (Ok (m', i'))) →
  decoded (tag :: varint (zlen s) ++ s) m m'.
Proof.
  intros Htag Hnum Hc Hf.
  destruct (tag_parts fieldNum 2) as [E1 E2]; [lia..|]. rewrite <-Htag in E1, E2.
  apply decoded_tag; rewrite ?E1, ?E2; [lia|done|lia|].
  intros pre suf Hfit. apply Hf. by apply read_delimited_enc.
Qed.

Lemma decoded_delimited tag fieldNum conv s m m' :
  byte_val tag = 8 * fieldNum + 2 → 0 < fieldNum < 15 → conv_ok conv (2 ^ 63) →
  (s = [] → m' = m) →
  (∀ dAtA i i', read_delimited conv dAtA i = Ok (s, i') →
     field fieldNum 2 dAtA i m = Some (Ok (m', i'))) →
  decoded (enc_delimited tag s) m m'.
Proof.
  intros Htag Hnum Hc Hz Hf. destruct s as [|b s]; [rewrite Hz by done; apply decoded_nil|].
  by eapply decoded_tagged.
Qed.

Lemma decoded_repeated {A} tag fieldNum conv (enc : A → list byte) (f : list A → M) l acc :
  byte_val tag = 8 * fieldNum + 2 → 0 < fieldNum < 15 → conv_ok conv (2 ^ 63) →
  (∀ dAtA i i' e acc, e ∈ l → read_delimited conv dAtA i = Ok (enc e, i') →
     field fieldNum 2 dAtA i (f acc) = Some (Ok (f (acc ++ [e]), i'))) →
  decoded (enc_repeated tag enc l) (f acc) (f (acc ++ l)).
Proof.
  intros Htag Hnum Hc Hf. revert acc. induction l as [|e l IH]; intros acc.
  { rewrite app_nil_r. apply decoded_nil. }
  unfold enc_repeated. cbn [foldr]. apply decoded_app with (m2 := f (acc ++ [e])).
  - eapply decoded_tagged; [done..|]. intros dAtA i i'. apply Hf. left.
  - replace (acc ++ e :: l) with ((acc ++ [e]) ++ l) by (by rewrite <-app_assoc).
    apply IH. intros. apply Hf; [by right|done].
Qed.
End Loop.

(** ** Messages decode to themselves *)

(** runs a [field] function on a known field number and a successful read *)
Ltac run_field :=
  intros dAtA i i' Hread; unfold V11Endpoint_field, V11Msg_field, V11Share_field, V11Handshake_field,
    expect_wire; simpl; rewrite Hread; simpl; rewrite ?bytes_str_bytes; reflexivity.

Lemma Endpoint_decoded m :
  Endpoint_wf m → ep_unrecognized m = [] →
  V11Endpoint_Unmarshal (enc_Endpoint m) V11Endpoint_zero = Ok m.
Proof.
  intros Hwf Hu. apply decoded_message; [|done].
  destruct m as [h p u]; simpl in *; subst. unfold enc_Endpoint. simpl.
  apply decoded_app with (m2 := MkV11Endpoint h EmptyString []).
  - apply (decoded_delimited _ _ x0a 1 u64 (str_bytes h)); [done|lia|auto with p2p|..].
    + intros E. by rewrite <-(bytes_str_bytes h), E.
    + run_field.
  - apply decoded_app with (m2 := MkV11Endpoint h p []); [|apply decoded_nil].
    apply (decoded_delimited _ _ x12 2 u64 (str_bytes p)); [done|lia|auto with p2p|..].
    + intros E. by rewrite <-(bytes_str_bytes p), E.
    + run_field.
Qed.

Lemma Msg_decoded m :
  Msg_wf m → msg_unrecognized m = [] → V11Msg_Unmarshal (enc_Msg m) V11Msg_zero = Ok m.
Proof.
  intros [Ht Hfit] Hu. apply decoded_message; [|done].
  destruct m as [t p u]; simpl in *; subst. unfold enc_Msg. simpl.
  apply decoded_app with (m2 := MkV11Msg t [] []).
  - apply (decoded_uint _ _ x08 1 u32 (2 ^ 32)); [done|lia|auto with p2p|done|by intros ->|].
    run_field.
  - apply decoded_app with (m2 := MkV11Msg t p []); [|apply decoded_nil].
    apply (decoded_delimited _ _ x12 2 i64 p); [done|lia|auto with p2p|by intros ->|].
    run_field.
Qed.

(** every endpoint of a list decodes from its own encoding *)
Definition plain (l : list V11Endpoint) : Prop := Forall (λ e, ep_unrecognized e = []) l.

Lemma Endpoint_elem_decoded tag l e :
  fits (enc_repeated tag enc_Endpoint l) → plain l → e ∈ l →
  V11Endpoint_Unmarshal (enc_Endpoint e) V11Endpoint_zero = Ok e.
Proof.
  intros Hfit Hp He. apply Endpoint_decoded.
  - by eapply fits_repeated.
  - unfold plain in Hp. rewrite Forall_forall in Hp. auto.
Qed.

Lemma Share_decoded m :
  Share_wf m → plain (share_Share m) → share_unrecognized m = [] →
  V11Share_Unmarshal (enc_Share m) V11Share_zero = Ok m.
Proof.
  intros Hwf Hp Hu. apply decoded_message; [|done].
  destruct m as [l u]; simpl in *; subst. unfold Share_wf, enc_Share in *. simpl in *.
  apply decoded_app with (m2 := MkV11Share l []); [|apply decoded_nil].
  apply (decoded_repeated _ _ x0a 1 i64 enc_Endpoint (λ l, MkV11Share l []) l []);
    [done|lia|auto with p2p|].
  intros dAtA i i' e acc He Hread. unfold V11Share_field, expect_wire. simpl.
  rewrite Hread. simpl. by rewrite (Endpoint_elem_decoded x0a l) by eauto using fits_app_l.
Qed.

Lemma Handshake_decoded m :
  Handshake_wf m → plain (hs_Alternatives m) → hs_unrecognized m = [] →
  V11Handshake_Unmarshal (enc_Handshake m) V11Handshake_zero = Ok m.
Proof.
  intros (H1 & H2 & H3 & H4 & H6 & Hfit) Hp Hu. apply decoded_message; [|done].
  destruct m as [ty nw ve id lp lb al u]; simpl in *; subst. unfold enc_Handshake in *. simpl in *.
  apply decoded_app with (m2 := MkV11Handshake ty 0 0 0 EmptyString 0 [] []).
  { apply (decoded_uint _ _ x08 1 u32 (2 ^ 32)); [done|lia|auto with p2p|done|by intros ->|].
    run_field. }
  apply decoded_app with (m2 := MkV11Handshake ty nw 0 0 EmptyString 0 [] []).
  { apply (decoded_uint _ _ x10 2 u32 (2 ^ 32)); [done|lia|auto with p2p|done|by intros ->|].
    run_field. }
  apply decoded_app with (m2 := MkV11Handshake ty nw ve 0 EmptyString 0 [] []).
  { apply (decoded_uint _ _ x18 3 u32 (2 ^ 32)); [done|lia|auto with p2p|done|by intros ->|].
    run_field. }
  apply decoded_app with (m2 := MkV11Handshake ty nw ve id EmptyString 0 [] []).
  { apply (decoded_uint _ _ x20 4 u32 (2 ^ 32)); [done|lia|auto with p2p|done|by intros ->|].
    run_field. }
  apply decoded_app with (m2 := MkV11Handshake ty nw ve id lp 0 [] []).
  { apply (decoded_delimited _ _ x2a 5 u64 (str_bytes lp)); [done|lia|auto with p2p|..].
    - intros E. by rewrite <-(bytes_str_bytes lp), E.
    - run_field. }
  apply decoded_app with (m2 := MkV11Handshake ty nw ve id lp lb [] []).
  { apply (decoded_uint _ _ x30 6 u64 (2 ^ 64)); [done|lia|auto with p2p|done|by intros ->|].
    run_field. }
  apply decoded_app with (m2 := MkV11Handshake ty nw ve id lp lb al []); [|apply decoded_nil].
  apply (decoded_repeated _ _ x3a 7 i64 enc_Endpoint
    (λ l, MkV11Handshake ty nw ve id lp lb l []) al []); [done|lia|auto with p2p|].
  intros dAtA i i' e acc He Hread. unfold V11Handshake_field, expect_wire. simpl.
  rewrite Hread. simpl. rewrite (Endpoint_elem_decoded x3a al); [done| |done|done].
  by do 6 apply fits_app_r in Hfit; eapply fits_app_l.
Qed.

(** ** The decoders are total

    [l < 2^63 - 8] is no restriction: a Go slice of [2^63] bytes does not fit
    the address space. *)
Definition slice_ok (dAtA : list byte) : Prop := zlen dAtA < 2 ^ 63 - 8.

Lemma at_index_Ok dAtA i : 0 ≤ i < zlen dAtA → ∃ b, at_index dAtA i = Ok b.
Proof.
  intros Hi. unfold at_index. assert ((i <? 0) = false) as -> by lia.
  destruct (lookup_lt_is_Some_2 dAtA (Z.to_nat i)) as [b Hb]; [unfold zlen in Hi; lia|].
  rewrite Hb. eauto.
Qed.

Lemma varint_loop_total fuel conv dAtA i shift acc :
  0 ≤ i → 64 ≤ shift + 7 * (Z.of_nat fuel - 1) → (0 < fuel)%nat → 0 ≤ shift →
  match varint_loop fuel conv dAtA i shift acc with
  | Ok (_, i') => i < i' ≤ zlen dAtA
  | Err _ => True
  | _ => False
  end.
Proof.
  revert i shift acc. induction fuel as [|fuel IH]; intros i shift acc Hi Hfuel Hpos Hs; [lia|].
  cbn [varint_loop]. destruct (Z.leb_spec 64 shift); [done|].
  destruct (Z.leb_spec (zlen dAtA) i); [done|].
  destruct (at_index_Ok dAtA i) as [b ->]; [lia|]. simpl.
  destruct (byte_val b <? 128); [simpl; lia|].
  specialize (IH (i + 1) (shift + 7)
    (Z.lor acc (conv (Z.shiftl (Z.land (byte_val b) 127) shift)))).
  destruct (varint_loop _ _ _ _ _ _) as [[v i']| | |]; try done; try (apply IH; lia).
  destruct IH; lia.
Qed.

Lemma read_varint_total conv dAtA i :
  0 ≤ i →
  match read_varint conv dAtA i with
  | Ok (_, i') => i < i' ≤ zlen dAtA
  | Err _ => True
  | _ => False
  end.
Proof. intros. unfold read_varint. apply varint_loop_total; lia. Qed.

Lemma subslice_Ok s lo hi :
  0 ≤ lo ≤ hi → hi ≤ zlen s → ∃ t, subslice s lo hi = Ok t ∧ zlen t = hi - lo.
Proof.
  intros Hlo Hhi. unfold subslice.
  assert ((0 <=? lo) && (lo <=? hi) && (hi <=? zlen s) = true) as -> by lia.
  eexists. split; [done|]. unfold zlen in *. rewrite length_take, length_drop. lia.
Qed.

(** a sum of an index and a length, in 64 bits, is the sum or negative *)
Lemma i64_add i n : 0 ≤ i < 2 ^ 63 → 0 ≤ n < 2 ^ 63 → i64 (i + n) = i + n ∨ i64 (i + n) < 0.
Proof.
  intros Hi Hn. destruct (decide (i + n < 2 ^ 63)); [left; apply i64_id; int_lia|right].
  unfold i64. replace (i + n + 2 ^ 63) with (i + n - 2 ^ 63 + 1 * 2 ^ 64) by lia.
  rewrite Z.mod_add, Z.mod_small by lia. lia.
Qed.

Lemma read_delimited_total conv dAtA i :
  0 ≤ i → slice_ok dAtA →
  match read_delimited conv dAtA i with
  | Ok (s, i') => i < i' ≤ zlen dAtA ∧ slice_ok s
  | Err _ => True
  | _ => False
  end.
Proof.
  intros Hi Hok. unfold slice_ok in *. unfold read_delimited.
  pose proof (read_varint_total conv dAtA i Hi) as Hv.
  destruct (read_varint conv dAtA i) as [[n j]| | |]; simpl; try done.
  destruct (Z.ltb_spec (i64 n) 0); [done|]. pose proof (i64_range n) as Hr. unfold is_i64 in Hr.
  destruct (i64_add j (i64 n)) as [E|E]; [lia..| |].
  - rewrite E. destruct (Z.ltb_spec (j + i64 n) 0); [done|].
    destruct (Z.ltb_spec (zlen dAtA) (j + i64 n)); [done|].
    destruct (subslice_Ok dAtA j (j + i64 n)) as (t & -> & Ht); [lia..|]. simpl. lia.
  - destruct (Z.ltb_spec (i64 (j + i64 n)) 0); [done|lia].
Qed.

Lemma is_i64_shiftr z : is_i64 z ↔ Z.shiftr z 63 = 0 ∨ Z.shiftr z 63 = -1.
Proof.
  rewrite Z.shiftr_div_pow2 by lia. unfold is_i64.
  pose proof (Z.div_mod z (2 ^ 63) ltac:(lia)). pose proof (Z.mod_pos_bound z (2 ^ 63) ltac:(lia)).
  set (q := z / 2 ^ 63) in *. lia.
Qed.

Lemma is_i64_lor a b : is_i64 a → is_i64 b → is_i64 (Z.lor a b).
Proof.
  rewrite !is_i64_shiftr, Z.shiftr_lor. intros [-> | ->] [-> | ->]; [left|right..]; done.
Qed.

(** an [int] accumulator stays an [int] *)
Lemma varint_loop_i64 fuel dAtA i shift acc v j :
  is_i64 acc → varint_loop fuel i64 dAtA i shift acc = Ok (v, j) → is_i64 v.
Proof.
  revert i shift acc. induction fuel as [|fuel IH]; intros i shift acc Hacc; cbn [varint_loop]; [done|].
  destruct (64 <=? shift); [done|]. destruct (zlen dAtA <=? i); [done|].
  destruct (at_index dAtA i) as [b| | |]; simpl; try done.
  assert (is_i64 (Z.lor acc (i64 (Z.shiftl (Z.land (byte_val b) 127) shift))))
    by (apply is_i64_lor; auto with p2p).
  destruct (byte_val b <? 128); [by intros [= <- <-]|by apply IH].
Qed.

Lemma skip_field_total wt dAtA i depth :
  0 < i ≤ zlen dAtA → slice_ok dAtA → 0 ≤ depth →
  match skip_field wt dAtA i depth with
  | Ok (i', d') => (i' < 0 ∨ i ≤ i' < 2 ^ 63) ∧ 0 ≤ d'
  | Err _ => True
  | _ => False
  end.
Proof.
  unfold slice_ok. intros Hi Hok Hd. unfold skip_field.
  destruct (wt =? 0).
  { pose proof (read_varint_total u64 dAtA i ltac:(lia)) as H.
    destruct (read_varint u64 dAtA i) as [[v j]| | |]; simpl; try done. lia. }
  destruct (wt =? 1); [rewrite i64_id by int_lia; lia|].
  destruct (wt =? 2).
  { pose proof (read_varint_total i64 dAtA i ltac:(lia)) as H.
    destruct (read_varint i64 dAtA i) as [[v j]| | |] eqn:E; simpl; try done.
    destruct (Z.ltb_spec v 0); [done|]. split; [|done].
    apply varint_loop_i64 in E; [|int_lia]. 
    pose proof (i64_range (j + v)). unfold is_i64 in *. destruct (i64_add j v); lia. }
  destruct (wt =? 3); [lia|].
  destruct (wt =? 4); [destruct (Z.eqb_spec depth 0); [done|lia]|].
  destruct (wt =? 5); [rewrite i64_id by int_lia; lia|done].
Qed.

Lemma skip_loop_total fuel dAtA i depth :
  0 ≤ i → slice_ok dAtA → 0 ≤ depth → zlen dAtA - i ≤ Z.of_nat fuel →
  match skip_loop fuel dAtA i depth with
  | Ok n => 0 < n < 2 ^ 63
  | Err _ => True
  | _ => False
  end.
Proof.
  revert i depth. induction fuel as [|fuel IH]; intros i depth Hi Hok Hd Hf; cbn [skip_loop];
    destruct (Z.leb_spec (zlen dAtA) i); try done; [lia|].
  pose proof (read_varint_total u64 dAtA i Hi) as Hv.
  destruct (read_varint u64 dAtA i) as [[wire j]| | |]; cbn [mbind outcome_bind]; try done.
  pose proof (skip_field_total (Z.land wire 7) dAtA j depth ltac:(lia) Hok Hd) as Hs.
  destruct (skip_field _ dAtA j depth) as [[k d]| | |]; cbn [mbind outcome_bind]; try done.
  destruct (Z.ltb_spec k 0); [done|]. destruct (d =? 0); [lia|]. apply IH; [lia|done|lia|lia].
Qed.

(** a message decoder is total when each of its fields is *)
Section Total.
Context {M : Type} (field : Z → Z → list byte → Z → M → option (res (M * Z))).
Context (add_unrecognized : list byte → M → M).

Definition field_ok (dAtA : list byte) (i : Z) (r : res (M * Z)) : Prop :=
  match r with
  | Ok (_, i') => i < i' ≤ zlen dAtA
  | Err _ => True
  | _ => False
  end.
Hypothesis field_total : ∀ num wt dAtA i m,
  0 ≤ i → slice_ok dAtA → from_option (field_ok dAtA i) True (field num wt dAtA i m).

Lemma unknown_field_total dAtA i m :
  0 ≤ i < zlen dAtA → slice_ok dAtA → field_ok dAtA i (unknown_field add_unrecognized dAtA i m).
Proof.
  intros Hi Hok. unfold slice_ok in Hok. unfold unknown_field.
  destruct (subslice_Ok dAtA i (zlen dAtA)) as (rest & -> & Hrest); [lia..|].
  cbn [mbind outcome_bind]. unfold skipProtocolV11.
  pose proof (skip_loop_total (length rest) rest 0 0 ltac:(lia)) as Hs.
  destruct (skip_loop _ rest 0 0) as [n| | |]; cbn [mbind outcome_bind];
    try (apply Hs; unfold slice_ok, zlen in *; lia); try done.
  assert (0 < n < 2 ^ 63) by (apply Hs; unfold slice_ok, zlen in *; lia).
  destruct (Z.ltb_spec n 0); [done|].
  destruct (i64_add i n) as [E|E]; [lia..| |].
  - rewrite E. destruct (Z.ltb_spec (i + n) 0); [done|].
    destruct (Z.ltb_spec (zlen dAtA) (i + n)); [done|].
    destruct (subslice_Ok dAtA i (i + n)) as (t & -> & _); [lia..|]. simpl. lia.
  - destruct (Z.ltb_spec (i64 (i + n)) 0); [done|lia].
Qed.

Lemma unmarshal_step_total dAtA i m :
  0 ≤ i < zlen dAtA → slice_ok dAtA →
  field_ok dAtA i (unmarshal_step field add_unrecognized dAtA i m).
Proof.
  intros Hi Hok. unfold unmarshal_step.
  pose proof (read_varint_total u64 dAtA i ltac:(lia)) as Hv.
  destruct (read_varint u64 dAtA i) as [[wire j]| | |]; cbn [mbind outcome_bind]; try done.
  destruct (_ =? 4); [done|]. destruct (_ <=? 0); [done|].
  set (num := i32 _). set (wt := Z.land wire 7).
  pose proof (field_total num wt dAtA j m ltac:(lia) Hok) as Hf.
  destruct (field num wt dAtA j m) as [r|]; simpl in Hf.
  - destruct r as [[m' k]| | |]; simpl in *; try done. lia.
  - by apply unknown_field_total.
Qed.

Lemma unmarshal_loop_total fuel dAtA i m :
  0 ≤ i ≤ zlen dAtA → slice_ok dAtA → zlen dAtA - i ≤ Z.of_nat fuel →
  returns (unmarshal_loop field add_unrecognized fuel dAtA i m).
Proof.
  revert i m. induction fuel as [|fuel IH]; intros i m Hi Hok Hf; cbn [unmarshal_loop];
    destruct (Z.leb_spec (zlen dAtA) i); try (by destruct (_ <? _)); [lia|].
  pose proof (unmarshal_step_total dAtA i m ltac:(lia) Hok) as Hs.
  destruct (unmarshal_step _ _ dAtA i m) as [[m' j]| | |]; simpl in *; try done.
  apply IH; [lia|done|lia].
Qed.

Lemma unmarshal_message_total dAtA m :
  slice_ok dAtA → returns (unmarshal_message field add_unrecognized dAtA m).
Proof.
  intros Hok. pose proof (zlen_nonneg dAtA). apply unmarshal_loop_total; [lia|done|].
  unfold zlen. lia.
Qed.
End Total.

(** one field: the wire type, then a varint or a delimited value *)
Lemma expect_varint_total {M} (f : Z → M) conv want wt dAtA i :
  0 ≤ i →
  field_ok dAtA i (expect_wire want wt ('(v, i) ← read_varint conv dAtA i; Ok (f v, i))).
Proof.
  intros Hi. unfold expect_wire. destruct (negb _); [done|].
  pose proof (read_varint_total conv dAtA i Hi) as Hv.
  by destruct (read_varint conv dAtA i) as [[v j]| | |].
Qed.

Lemma expect_delimited_total {M} (f : list byte → res M) conv want wt dAtA i :
  0 ≤ i → slice_ok dAtA → (∀ s, slice_ok s → returns (f s)) →
  field_ok dAtA i (expect_wire want wt
    ('(s, i) ← read_delimited conv dAtA i; m ← f s; Ok (m, i))).
Proof.
  intros Hi Hok Hf. unfold expect_wire. destruct (negb _); [done|].
  pose proof (read_delimited_total conv dAtA i Hi Hok) as Hv.
  destruct (read_delimited conv dAtA i) as [[s j]| | |]; simpl; try done.
  destruct Hv as [Hj Hs]. specialize (Hf s Hs). by destruct (f s).
Qed.

Lemma returns_field_ok {M} dAtA i (r : res (M * Z)) : field_ok dAtA i r → returns r.
Proof. by destruct r as [[]| | |]. Qed.

Lemma expect_bytes_total {M} (f : list byte → M) conv want wt dAtA i :
  0 ≤ i → slice_ok dAtA →
  field_ok dAtA i (expect_wire want wt ('(s, i) ← read_delimited conv dAtA i; Ok (f s, i))).
Proof. intros. by apply (expect_delimited_total (λ s, Ok (f s))). Qed.

(** closes the goal [field_ok] of a [field] function, case by case *)
Ltac field_cases :=
  intros num wt d i m' Hi Hok;
  repeat match goal with
  | |- from_option _ _ (if ?b then _ else _) => destruct b; simpl
  end;
  first [ done
        | apply expect_varint_total; done
        | apply expect_bytes_total; done
        | apply expect_delimited_total; eauto ].

Lemma Endpoint_Unmarshal_total dAtA m : slice_ok dAtA → returns (V11Endpoint_Unmarshal dAtA m).
Proof. apply unmarshal_message_total. unfold V11Endpoint_field. field_cases. Qed.

Lemma expect_endpoint_total {M} (f : V11Endpoint → M) want wt dAtA i :
  0 ≤ i → slice_ok dAtA →
  field_ok dAtA i (expect_wire want wt ('(s, i) ← read_delimited i64 dAtA i;
    e ← V11Endpoint_Unmarshal s V11Endpoint_zero; Ok (f e, i))).
Proof.
  intros Hi Hok. pose proof (expect_delimited_total
    (λ s, e ← V11Endpoint_Unmarshal s V11Endpoint_zero; Ok (f e)) i64 want wt dAtA i Hi Hok) as H.
  unfold expect_wire in *. destruct (negb _); [done|].
  destruct (read_delimited i64 dAtA i) as [[s j]| | |]; simpl in *; try (apply H; intros t Ht);
    try (by apply returns_bind; [apply Endpoint_Unmarshal_total|]).
  destruct (V11Endpoint_Unmarshal s _); simpl in *; apply H; intros t Ht;
    by apply returns_bind; [apply Endpoint_Unmarshal_total|].
Qed.

Lemma Msg_Unmarshal_total dAtA m : slice_ok dAtA → returns (V11Msg_Unmarshal dAtA m).
Proof. apply unmarshal_message_total. unfold V11Msg_field. field_cases. Qed.

Lemma Share_Unmarshal_total dAtA m : slice_ok dAtA → returns (V11Share_Unmarshal dAtA m).
Proof.
  apply unmarshal_message_total. intros num wt d i m' Hi Hok. unfold V11Share_field.
  destruct (num =? 1); simpl; [|done]. by apply (expect_endpoint_total (λ e, MkV11Share _ _)).
Qed.

Lemma Handshake_Unmarshal_total dAtA m : slice_ok dAtA → returns (V11Handshake_Unmarshal dAtA m).
Proof.
  apply unmarshal_message_total. intros num wt d i [ty nw ve id lp lb al un] Hi Hok.
  unfold V11Handshake_field.
  repeat match goal with
  | |- from_option _ _ (if ?b then _ else _) => destruct b; simpl
  end;
  first [ done
        | by apply (expect_varint_total (λ v, MkV11Handshake _ _ _ _ _ _ _ _))
        | apply expect_varint_total; done
        | apply expect_bytes_total; done
        | by apply (expect_endpoint_total (λ e, MkV11Handshake _ _ _ _ _ _ (_ ++ [e]) _)) ].
Qed.

(** ** Properties *)

(** Round trip of the V11 parcel: [Marshal] of an [V11Msg] never fails or
    panics, fills exactly [Size] bytes, and [Unmarshal] of them into a fresh
    message gives the parcel back. *)
Theorem V11Msg_roundtrip m :
  Msg_wf m → msg_unrecognized m = [] →
  ∃ data, V11Msg_Marshal m = Ok data ∧ zlen data = V11Msg_Size m ∧
          V11Msg_Unmarshal data V11Msg_zero = Ok m.
Proof.
  intros Hwf Hu. destruct (Msg_marshals m Hwf) as [Hm Hs].
  exists (enc_Msg m). split_and!; [by apply marshal_message_ok|done|by apply Msg_decoded].
Qed.

Theorem V11Msg_roundtrip_witness :
  ∃ data, V11Msg_Marshal (MkV11Msg 6 [x61; x62] []) = Ok data ∧
          V11Msg_Unmarshal data V11Msg_zero = Ok (MkV11Msg 6 [x61; x62] []).
Proof.
  destruct (V11Msg_roundtrip (MkV11Msg 6 [x61; x62] [])) as (d & H1 & _ & H2).
  - split; [unfold is_u32; simpl; lia|]. by vm_compute.
  - reflexivity.
  - exists d. exact (conj H1 H2).
Defined.

(** [C18] Round trip of the V11 handshake, with all its numbers, the port and the
    list of alternative endpoints. *)
Theorem V11Handshake_roundtrip m :
  Handshake_wf m → plain (hs_Alternatives m) → hs_unrecognized m = [] →
  ∃ data, V11Handshake_Marshal m = Ok data ∧ zlen data = V11Handshake_Size m ∧
          V11Handshake_Unmarshal data V11Handshake_zero = Ok m.
Proof.
  intros Hwf Hp Hu. destruct (Handshake_marshals m Hwf) as [Hm Hs].
  exists (enc_Handshake m). split_and!; [by apply marshal_message_ok|done|by apply Handshake_decoded].
Qed.

Definition example_Handshake : V11Handshake :=
  MkV11Handshake 9 4276993775 11 77 "8108" 12345678901234567890
    [MkV11Endpoint "10.0.0.1" "8108" []; MkV11Endpoint EmptyString EmptyString []] [].

Theorem V11Handshake_roundtrip_witness :
  ∃ data, V11Handshake_Marshal example_Handshake = Ok data ∧
          V11Handshake_Unmarshal data V11Handshake_zero = Ok example_Handshake.
Proof.
  destruct (V11Handshake_roundtrip example_Handshake) as (d & H1 & _ & H2).
  - unfold Handshake_wf, is_u32, is_u64. simpl. split_and!; try lia. by vm_compute.
  - apply (bool_decide_unpack (Forall _ _)). by vm_compute.
  - reflexivity.
  - exists d. exact (conj H1 H2).
Defined.

(** Round trip of the V11 peer share, a list of endpoints. *)
Theorem V11Share_roundtrip m :
  Share_wf m → plain (share_Share m) → share_unrecognized m = [] →
  ∃ data, V11Share_Marshal m = Ok data ∧ zlen data = V11Share_Size m ∧
          V11Share_Unmarshal data V11Share_zero = Ok m.
Proof.
  intros Hwf Hp Hu. destruct (Share_marshals m Hwf) as [Hm Hs].
  exists (enc_Share m). split_and!; [by apply marshal_message_ok|done|by apply Share_decoded].
Qed.

Theorem V11Share_roundtrip_witness :
  ∃ data, V11Share_Marshal (MkV11Share [MkV11Endpoint "a" "1" []] []) = Ok data ∧
          V11Share_Unmarshal data V11Share_zero = Ok (MkV11Share [MkV11Endpoint "a" "1" []] []).
Proof.
  destruct (V11Share_roundtrip (MkV11Share [MkV11Endpoint "a" "1" []] [])) as (d & H1 & _ & H2).
  - by vm_compute.
  - apply (bool_decide_unpack (Forall _ _)). by vm_compute.
  - reflexivity.
  - exists d. exact (conj H1 H2).
Defined.

(** [C17] The decoders of all four messages are total: on every slice of bytes a
    remote node can send they return the message or an error, they never index
    out of bounds and their loops end. *)
Theorem V11_decoders_total dAtA :
  slice_ok dAtA →
  returns (V11Msg_Unmarshal dAtA V11Msg_zero) ∧
  returns (V11Endpoint_Unmarshal dAtA V11Endpoint_zero) ∧
  returns (V11Share_Unmarshal dAtA V11Share_zero) ∧
  returns (V11Handshake_Unmarshal dAtA V11Handshake_zero).
Proof.
  auto using Msg_Unmarshal_total, Endpoint_Unmarshal_total, Share_Unmarshal_total,
    Handshake_Unmarshal_total.
Qed.

Theorem V11_decoders_total_witness :
  slice_ok [x0a; xff; xff] ∧ returns (V11Share_Unmarshal [x0a; xff; xff] V11Share_zero).
Proof. split; [by vm_compute|]. apply (V11_decoders_total [x0a; xff; xff]). by vm_compute. Defined.
