(* ===== verification/Protocol.v ===== *)
(** * The protocol interface ([protocol.go])

    A protocol turns handshakes and parcels into what travels over a connection and
    back.  [Protocol] has the methods of the Go interface on a protocol object [P],
    whose state (the connection and its codecs) they thread.  [ProtocolWire] is
    the contract between the two ends of a connection, from which the delivery of
    whole sequences of parcels follows for every protocol. *)
From S2P Require Import Prelude Endpoint Parcel Handshake Stream V11Wire.

(** what can go wrong in any of the protocols *)
Inductive prot_error :=
  | PE_io (e : io_error)            (* reading from or writing to the connection *)
  | PE_short_write
  | PE_signature                    (* invalid connection signature *)
  | PE_too_large                    (* above V11MaxParcelSize *)
  | PE_proto (e : proto_error)
  | PE_gob                          (* a gob value of another shape *)
  | PE_json
  | PE_version | PE_length | PE_checksum | PE_no_payload
  | PE_unsupported.

#[export] Instance prot_error_eq_dec : EqDecision prot_error.
Proof. solve_decision. Defined.

(** a method of a protocol object that returns [(A, error)] *)
Definition io (P A : Type) : Type := P → P * outcome prot_error A.

Definition io_ret {P A} (a : A) : io P A := λ p, (p, Ok a).
Definition io_err {P A} (e : prot_error) : io P A := λ p, (p, Err e).
Definition io_bind {P A B} (m : io P A) (f : A → io P B) : io P B := λ p,
  match m p with
  | (p, Ok a) => f a p
  | (p, Err e) => (p, Err e)
  | (p, Panic) => (p, Panic)
  | (p, OutOfFuel) => (p, OutOfFuel)
  end.
Notation "'do' x <- m ; k" := (io_bind m (λ x, k))
  (at level 10, x name, m at level 100, k at level 200) : go_scope.
Notation "'do_' m ; k" := (io_bind m (λ _, k))
  (at level 10, m at level 100, k at level 200) : go_scope.

(** a computation that does not touch the connection, its error as one of the protocol *)
Definition io_lift {P A E} (wrap : E → prot_error) (o : outcome E A) : io P A := λ p,
  (p, match o with Ok a => Ok a | Err e => Err (wrap e) | Panic => Panic | OutOfFuel => OutOfFuel end).

Class Protocol (P : Type) := {
  SendHandshake : Handshake → io P ();
  ReadHandshake : io P Handshake;
  Send : Parcel → io P ();
  Receive : io P Parcel;
  MakePeerShare : P → list Endpoint → outcome prot_error (list byte);
  ParsePeerShare : P → list byte → outcome prot_error (list Endpoint);
  Version : P → Z;
  Protocol_String : P → string;
}.

(** ** The contract of the two ends

    [wire_out] are the bytes a protocol object has written and [wire_in] those it has
    yet to read; [wire_up] says that writing does not fail, and [wire_link p q] that
    the codecs of the sender [p] and the receiver [q] have seen the same stream. *)
Class ProtocolWire (P : Type) `{Protocol P} := {
  wire_in : P → list byte;
  wire_out : P → list byte;
  wire_up : P → Prop;
  wire_link : P → P → Prop;
  sendable : Parcel → Prop;
  received : P → Parcel → Parcel;  (* what the remote end makes of a parcel *)
  received_data p x : ptype (received p x) = ptype x ∧ Payload (received p x) = Payload x;
  received_same p x p' : Send x p = (p', Ok tt) → received p' = received p;
  send_receive p x : wire_up p → sendable x →
    ∃ p' frame, Send x p = (p', Ok tt) ∧ wire_up p' ∧
      wire_out p' = wire_out p ++ frame ∧ wire_in p' = wire_in p ∧
      ∀ q rest, wire_link p q → wire_in q = frame ++ rest →
        ∃ q', Receive q = (q', Ok (received p x)) ∧ wire_in q' = rest ∧ wire_out q' = wire_out q ∧
          wire_link p' q';
}.

Section Sequences.
Context {P : Type} `{ProtocolWire P}.

(** what the loops of a peer do: [sendLoop] sends one parcel after the other and
    stops at the first error, [readLoop] receives [n] *)
Fixpoint send_all (l : list Parcel) : io P () :=
  match l with
  | [] => io_ret tt
  | x :: l => do_ Send x; send_all l
  end.

Fixpoint receive_n (n : nat) : io P (list Parcel) :=
  match n with
  | O => io_ret []
  | S n => do x <- Receive; do l <- receive_n n; io_ret (x :: l)
  end.

Lemma delivery l p :
  wire_up p → Forall sendable l →
  ∃ p' frames, send_all l p = (p', Ok tt) ∧ wire_up p' ∧
    wire_out p' = wire_out p ++ frames ∧ wire_in p' = wire_in p ∧
    ∀ q rest, wire_link p q → wire_in q = frames ++ rest →
      ∃ q', receive_n (length l) q = (q', Ok (received p <$> l)) ∧ wire_in q' = rest ∧
        wire_out q' = wire_out q ∧ wire_link p' q'.
Proof.
  intros Hup Hl. revert p Hup. induction Hl as [|x l Hx Hl IH]; intros p Hup.
  - exists p, []. rewrite app_nil_r. split_and!; [done..|]. intros q rest Hlq Hq. by exists q.
  - destruct (send_receive p x Hup Hx) as (p1 & f1 & Hs & Hup1 & Ho1 & Hi1 & Hr1).
    destruct (IH p1 Hup1) as (p2 & f2 & Hs2 & Hup2 & Ho2 & Hi2 & Hr2).
    exists p2, (f1 ++ f2). cbn [send_all]. unfold io_bind at 1. rewrite Hs, Hs2.
    split_and!; [done|done|by rewrite Ho2, Ho1, app_assoc|congruence|].
    intros q rest Hlq Hq. rewrite <-app_assoc in Hq.
    destruct (Hr1 q _ Hlq Hq) as (q1 & Hrecv & Hq1 & Hqo1 & Hlq1).
    destruct (Hr2 q1 rest Hlq1 Hq1) as (q2 & Hrecv2 & Hq2 & Hqo2 & Hlq2).
    exists q2. cbn [length receive_n]. unfold io_bind. rewrite Hrecv, Hrecv2, (received_same p x p1 Hs).
    split_and!; [done|done|congruence|done].
Qed.
End Sequences.
