(* ===== verification/ProtocolV11.v ===== *)
(** * Protocol 11 ([protocolV11.go])

    Messages of protocol buffers, each after its length in four bytes, and a
    signature before the handshake.  [proto.Marshal] and [proto.Unmarshal] belong
    to github.com/golang/protobuf and are parameters; the laws say that they call
    the methods generated for the message ([protocolV11.pb.go]), as that library
    documents for messages that have them. *)
From S2P Require Import Prelude GoStd NetworkId Endpoint Parcel Configuration Handshake Stream Protocol.
From S2P Require Import V11Wire V11Codec V11Decode.

Class ProtoMessage (M : Type) := {
  pm_zero : M;
  pm_Marshal : M → outcome proto_error (list byte);
  pm_Unmarshal : list byte → M → outcome proto_error M;
}.
#[export] Instance V11Msg_message : ProtoMessage V11Msg :=
  {| pm_zero := V11Msg_zero; pm_Marshal := V11Msg_Marshal; pm_Unmarshal := V11Msg_Unmarshal |}.
#[export] Instance V11Handshake_message : ProtoMessage V11Handshake :=
  {| pm_zero := V11Handshake_zero; pm_Marshal := V11Handshake_Marshal;
     pm_Unmarshal := V11Handshake_Unmarshal |}.

(** the library *)
Class ProtoLib := {
  proto_Marshal : ∀ {M} `{ProtoMessage M}, M → outcome proto_error (list byte);
  proto_Unmarshal : ∀ {M} `{ProtoMessage M}, list byte → M → outcome proto_error M;
}.
Class ProtoLibLaws `{ProtoLib} := {
  proto_Marshal_law M `{ProtoMessage M} (m : M) : proto_Marshal m = pm_Marshal m;
  (* [proto.Unmarshal] resets the message first *)
  proto_Unmarshal_law M `{ProtoMessage M} data (m : M) :
    proto_Unmarshal data m = pm_Unmarshal data pm_zero;
}.

Definition V11MaxParcelSize : Z := 134217728.
Definition V11Signature : list byte := [x70; x62; x75; x66].

Record ProtocolV11 := MkProtocolV11 { rw : conn }.
Definition newProtocolV11 (c : conn) : ProtocolV11 := MkProtocolV11 c.

Definition readCheck (n : Z) : io ProtocolV11 (list byte) := λ v11,
  let r := ReadFull n (rw v11) in
  (MkProtocolV11 r.1, match r.2 with
                      | Ok d => Ok d
                      | Err e => Err (PE_io e)
                      | Panic => Panic
                      | OutOfFuel => OutOfFuel
                      end).

Definition writeCheck (data : list byte) : io ProtocolV11 () := λ v11,
  let '(c, (n, failed)) := Write data (rw v11) in
  (MkProtocolV11 c,
   return_err_if failed with PE_io ErrWrite;;
   return_err_if negb (n =? zlen data) with PE_short_write;;
   Ok tt).

(** the conversions between a handshake and its message *)
Definition v11_endpoint (ep : Endpoint) : V11Endpoint := MkV11Endpoint (IP ep) (Port ep) [].
Definition endpoint_of_v11 (ep : V11Endpoint) : Endpoint := MkEndpoint (Host ep) (HostPort ep).

Definition v11_handshake (hs : Handshake) : V11Handshake :=
  MkV11Handshake (u32 (h_Type hs)) (u32 (h_Network hs)) (u32 (h_Version hs)) (h_NodeID hs)
    (h_ListenPort hs) (h_Loopback hs) (v11_endpoint <$> h_Alternatives hs) [].

Definition handshake_of_v11 (m : V11Handshake) : Handshake := {|
  h_Type := u16 (hs_Type m);
  h_ListenPort := hs_ListenPort m;
  h_Loopback := hs_Loopback m;
  h_Network := u32 (hs_Network m);
  h_NodeID := hs_NodeID m;
  h_Version := u16 (hs_Version m);
  h_Alternatives := endpoint_of_v11 <$> hs_Alternatives m;
|}.

Section V11.
Context `{ProtoLib}.

Definition readMessage {M} `{ProtoMessage M} (msg : M) : io ProtocolV11 M :=
  do buf <- readCheck 4;
  let size := be_Uint32 buf in
  if V11MaxParcelSize <? size then io_err PE_too_large
  else
    do data <- readCheck size;
    io_lift PE_proto (proto_Unmarshal data msg).

Definition writeMessage {M} `{ProtoMessage M} (msg : M) : io ProtocolV11 () :=
  do data <- io_lift PE_proto (proto_Marshal msg);
  if V11MaxParcelSize <? zlen data then io_err PE_too_large
  else
    do_ writeCheck (be_PutUint32 (u32 (zlen data)));
    writeCheck data.

Definition V11_SendHandshake (hs : Handshake) : io ProtocolV11 () :=
  do_ writeCheck V11Signature;
  writeMessage (v11_handshake hs).

Definition V11_ReadHandshake : io ProtocolV11 Handshake :=
  do sig <- readCheck 4;
  if negb (bool_decide (sig = V11Signature)) then io_err PE_signature
  else
    do m <- readMessage V11Handshake_zero;
    io_ret (handshake_of_v11 m).

Definition V11_Send (p : Parcel) : io ProtocolV11 () :=
  writeMessage (MkV11Msg (u32 (ptype p)) (Payload p) []).

Definition V11_Receive : io ProtocolV11 Parcel :=
  do m <- readMessage V11Msg_zero;
  io_ret (newParcel (u16 (msg_Type m)) (msg_Payload m)).

Definition wrap_proto {A} (o : outcome proto_error A) : outcome prot_error A :=
  match o with Ok a => Ok a | Err e => Err (PE_proto e) | Panic => Panic | OutOfFuel => OutOfFuel end.

Definition V11_MakePeerShare (ps : list Endpoint) : outcome prot_error (list byte) :=
  wrap_proto (V11Share_Marshal (MkV11Share (v11_endpoint <$> ps) [])).

Definition V11_ParsePeerShare (payload : list byte) : outcome prot_error (list Endpoint) :=
  wrap_proto (V11Share_Unmarshal payload V11Share_zero) ≫= λ m,
  Ok (endpoint_of_v11 <$> share_Share m).

Definition V11_Version : Z := 11.
Definition V11_String : string := "11".

#[export] Instance V11_Protocol : Protocol ProtocolV11 := {|
  SendHandshake := V11_SendHandshake;
  ReadHandshake := V11_ReadHandshake;
  Send := V11_Send;
  Receive := V11_Receive;
  MakePeerShare := λ _, V11_MakePeerShare;
  ParsePeerShare := λ _, V11_ParsePeerShare;
  Version := λ _, V11_Version;
  Protocol_String := λ _, V11_String;
|}.
End V11.

(** the library as its documentation has it *)
Definition documented_ProtoLib : ProtoLib := {|
  proto_Marshal _ _ m := pm_Marshal m;
  proto_Unmarshal _ _ data _ := pm_Unmarshal data pm_zero;
|}.
#[export] Instance documented_laws : @ProtoLibLaws documented_ProtoLib.
Proof. by split. Qed.

(** ** Frames *)

Definition frame (data : list byte) : list byte := be_PutUint32 (zlen data) ++ data.

Definition v11_in (p : ProtocolV11) : list byte := bytes_in (rw p).
Definition v11_out (p : ProtocolV11) : list byte := c_out (rw p).
Definition v11_up (p : ProtocolV11) : Prop := c_room (rw p) = None.

(** [p'] is [p] after writing [w] *)
Definition wrote (p : ProtocolV11) (w : list byte) (p' : ProtocolV11) : Prop :=
  v11_up p' ∧ v11_out p' = v11_out p ++ w ∧ v11_in p' = v11_in p.

Lemma writeCheck_up data p :
  v11_up p → ∃ p', writeCheck data p = (p', Ok tt) ∧ wrote p data p'.
Proof.
  intros Hup. unfold writeCheck. rewrite Write_ok by done. rewrite Z.eqb_refl. by eexists.
Qed.

Lemma readCheck_stream d rest p :
  v11_in p = d ++ rest →
  ∃ p', readCheck (zlen d) p = (p', Ok d) ∧ v11_in p' = rest ∧ v11_out p' = v11_out p.
Proof.
  intros Hin. destruct (ReadFull_app d rest (rw p) Hin) as (c' & Hr & Hb & Ho & _).
  exists (MkProtocolV11 c'). unfold readCheck. by rewrite Hr.
Qed.

Section Framing.
Context `{ProtoLibLaws} {M : Type} `{ProtoMessage M}.

Lemma writeMessage_up (m : M) data p :
  v11_up p → pm_Marshal m = Ok data → zlen data ≤ V11MaxParcelSize →
  ∃ p', writeMessage m p = (p', Ok tt) ∧ wrote p (frame data) p'.
Proof.
  intros Hup Hm Hlen. unfold writeMessage, io_bind at 1, io_lift. rewrite proto_Marshal_law, Hm.
  rewrite (proj2 (Z.ltb_ge _ _)) by done. pose proof (zlen_nonneg data).
  rewrite u32_id by (unfold is_u32, V11MaxParcelSize in *; lia).
  destruct (writeCheck_up (be_PutUint32 (zlen data)) p Hup) as (p1 & Hw1 & Hup1 & Ho1 & Hi1).
  destruct (writeCheck_up data p1 Hup1) as (p2 & Hw2 & Hup2 & Ho2 & Hi2).
  exists p2. unfold io_bind. rewrite Hw1, Hw2. split; [done|].
  unfold wrote, frame. split_and!; [done| |congruence]. by rewrite Ho2, Ho1, app_assoc.
Qed.

Lemma writeMessage_too_large (m : M) data p :
  pm_Marshal m = Ok data → V11MaxParcelSize < zlen data →
  writeMessage m p = (p, Err PE_too_large).
Proof.
  intros Hm Hlen. unfold writeMessage, io_bind at 1, io_lift. rewrite proto_Marshal_law, Hm.
  by rewrite (proj2 (Z.ltb_lt _ _)) by done.
Qed.

Lemma readMessage_frame (m0 m : M) data rest p :
  zlen data ≤ V11MaxParcelSize → pm_Unmarshal data pm_zero = Ok m →
  v11_in p = frame data ++ rest →
  ∃ p', readMessage m0 p = (p', Ok m) ∧ v11_in p' = rest ∧ v11_out p' = v11_out p.
Proof.
  intros Hlen Hm Hin. unfold frame in Hin. rewrite <-app_assoc in Hin.
  destruct (readCheck_stream _ _ _ Hin) as (p1 & Hr1 & Hi1 & Ho1).
  destruct (readCheck_stream _ _ _ Hi1) as (p2 & Hr2 & Hi2 & Ho2).
  assert (Hlen4 : zlen (be_PutUint32 (zlen data)) = 4)
    by (unfold zlen; by rewrite be_PutUint32_length).
  rewrite Hlen4 in Hr1. pose proof (zlen_nonneg data). exists p2.
  unfold readMessage, io_bind at 1. rewrite Hr1.
  rewrite be_Uint32_Put by (unfold is_u32, V11MaxParcelSize in *; lia).
  rewrite (proj2 (Z.ltb_ge _ _)) by done. unfold io_bind, io_lift. rewrite Hr2.
  rewrite proto_Unmarshal_law, Hm. split_and!; [done..|congruence].
Qed.
End Framing.

(** ** Parcels and handshakes from one end to the other *)

Definition v11_msg (x : Parcel) : V11Msg := MkV11Msg (ptype x) (Payload x) [].
(** the encoded message is within the limit on a parcel *)
Definition v11_sendable (x : Parcel) : Prop :=
  is_u16 (ptype x) ∧ zlen (enc_Msg (v11_msg x)) ≤ V11MaxParcelSize.

Lemma v11_msg_codec x :
  is_u16 (ptype x) → zlen (enc_Msg (v11_msg x)) < 2 ^ 63 →
  V11Msg_Marshal (v11_msg x) = Ok (enc_Msg (v11_msg x)) ∧
  V11Msg_Unmarshal (enc_Msg (v11_msg x)) V11Msg_zero = Ok (v11_msg x).
Proof.
  intros Ht Hlen. assert (Hwf : Msg_wf (v11_msg x)).
  { split; [unfold is_u16, is_u32 in *; simpl; lia|done]. }
  destruct (Msg_marshals _ Hwf) as [Hm Hs].
  split; [by apply marshal_message_ok|by apply Msg_decoded].
Qed.

Lemma zlen_varint_le v : is_u64 v → zlen (varint v) ≤ 10.
Proof.
  intros Hv. rewrite zlen_varint by done. unfold sovProtocolV11, Len64. unfold is_u64 in Hv.
  assert (Hp : 0 < Z.lor v 1).
  { assert (0 ≤ Z.lor v 1) by (apply Z.lor_nonneg; lia).
    enough (Z.lor v 1 ≠ 0) by lia. rewrite Z.lor_eq_0_iff. lia. }
  rewrite (proj2 (Z.eqb_neq _ _)) by lia.
  assert (Z.log2 (Z.lor v 1) < 64).
  { rewrite Z.log2_lor by lia. change (Z.log2 1) with 0. pose proof (Z.log2_nonneg v).
    destruct (decide (v = 0)) as [->|]; [done|].
    assert (Z.log2 v < 64) by (apply Z.log2_lt_pow2; lia). lia. }
  enough ((Z.log2 (Z.lor v 1) + 1 + 6) / 7 < 11) by lia. apply Z.div_lt_upper_bound; lia.
Qed.

(** ** How long the encodings are *)

Lemma zlen_enc_uint_le tag v : is_u64 v → zlen (enc_uint tag v) ≤ 11.
Proof.
  intros Hv. unfold enc_uint. case_match; [done|]. rewrite zlen_cons. pose proof (zlen_varint_le v Hv). lia.
Qed.

Lemma zlen_enc_delimited_ge tag s : zlen s < 2 ^ 63 → zlen (enc_delimited tag s) ≤ zlen s + 11.
Proof.
  intros Hs. unfold enc_delimited. destruct s as [|b l]; [done|]. set (w := b :: l) in *.
  rewrite zlen_cons, zlen_app. pose proof (zlen_nonneg w).
  pose proof (zlen_varint_le (zlen w) ltac:(unfold is_u64; lia)). lia.
Qed.

Lemma zlen_enc_repeated_le {A} tag (enc : A → list byte) l n :
  n < 2 ^ 63 → Forall (λ e, zlen (enc e) ≤ n) l → zlen (enc_repeated tag enc l) ≤ zlen l * (n + 11).
Proof.
  intros Hn. induction 1 as [|e l He _ IH]; [done|]. unfold enc_repeated in *. cbn [foldr].
  rewrite !zlen_app, !zlen_cons, zlen_app. pose proof (zlen_nonneg (enc e)).
  pose proof (zlen_varint_le (zlen (enc e)) ltac:(unfold is_u64; lia)). lia.
Qed.

(** the overhead of the encoding: two tags, the type and the length *)
Lemma enc_Msg_size x :
  is_u16 (ptype x) → zlen (Payload x) < 2 ^ 62 →
  zlen (Payload x) ≤ zlen (enc_Msg (v11_msg x)) ≤ zlen (Payload x) + 22.
Proof.
  intros Ht Hp. unfold enc_Msg. cbn [v11_msg msg_Type msg_Payload msg_unrecognized].
  rewrite app_nil_r, zlen_app. pose proof (zlen_enc_delimited_le x12 (Payload x)).
  pose proof (zlen_nonneg (enc_uint x08 (ptype x))).
  pose proof (zlen_enc_uint_le x08 (ptype x) ltac:(unfold is_u16, is_u64 in *; lia)).
  pose proof (zlen_enc_delimited_ge x12 (Payload x) ltac:(lia)). lia.
Qed.

Definition v11_hs_sendable (hs : Handshake) : Prop :=
  is_u16 (h_Type hs) ∧ is_u32 (h_Network hs) ∧ is_u16 (h_Version hs) ∧ is_u32 (h_NodeID hs) ∧
  is_u64 (h_Loopback hs) ∧ zlen (enc_Handshake (v11_handshake hs)) ≤ V11MaxParcelSize.

Lemma endpoint_of_v11_endpoint (l : list Endpoint) : endpoint_of_v11 <$> (v11_endpoint <$> l) = l.
Proof. rewrite <-list_fmap_compose. induction l as [|[] l IH]; [done|]. cbn. by rewrite IH. Qed.

Lemma plain_endpoints (l : list Endpoint) : plain (v11_endpoint <$> l).
Proof. apply Forall_fmap, Forall_true. done. Qed.

Lemma v11_hs_sendable_wf hs : v11_hs_sendable hs → Handshake_wf (v11_handshake hs).
Proof.
  intros (Ht & Hn & Hv & Hid & Hl & Hlen). unfold Handshake_wf, fits, V11MaxParcelSize in *.
  split_and!; try apply u32_range; try done. lia.
Qed.

Lemma v11_handshake_codec hs :
  v11_hs_sendable hs →
  V11Handshake_Marshal (v11_handshake hs) = Ok (enc_Handshake (v11_handshake hs)) ∧
  V11Handshake_Unmarshal (enc_Handshake (v11_handshake hs)) V11Handshake_zero = Ok (v11_handshake hs) ∧
  handshake_of_v11 (v11_handshake hs) = hs.
Proof.
  intros Hs. pose proof (v11_hs_sendable_wf hs Hs) as Hwf. destruct Hs as (Ht & Hn & Hv & Hid & Hl & Hlen).
  unfold is_u16 in *.
  destruct (Handshake_marshals _ Hwf) as [Hm Hsize]. split_and!.
  - by apply marshal_message_ok.
  - apply Handshake_decoded; [done|apply plain_endpoints|done].
  - unfold handshake_of_v11, v11_handshake. simpl. rewrite endpoint_of_v11_endpoint.
    rewrite (u32_id (h_Type hs)), (u32_id (h_Version hs)), !(u32_id (h_Network hs))
      by (done || unfold is_u32; lia).
    rewrite !u16_id by done. by destruct hs.
Qed.

Section Wire.
Context `{ProtoLibLaws}.

Lemma V11_send_receive p x :
  v11_up p → v11_sendable x →
  ∃ p' frame, Send x p = (p', Ok tt) ∧ v11_up p' ∧
    v11_out p' = v11_out p ++ frame ∧ v11_in p' = v11_in p ∧
    ∀ q rest, True → v11_in q = frame ++ rest →
      ∃ q', Receive q = (q', Ok (newParcel (ptype x) (Payload x))) ∧
        v11_in q' = rest ∧ v11_out q' = v11_out q ∧ True.
Proof.
  intros Hup [Ht Hlen].
  destruct (v11_msg_codec x Ht) as [Hm Hu]; [unfold V11MaxParcelSize in Hlen; lia|].
  destruct (writeMessage_up (v11_msg x) (enc_Msg (v11_msg x)) p) as (p' & Hw & Hup' & Ho & Hi);
    [done|exact Hm|done|].
  assert (Hu32 : u32 (ptype x) = ptype x) by (apply u32_id; unfold is_u16, is_u32 in *; lia).
  exists p', (frame (enc_Msg (v11_msg x))). cbn. unfold V11_Send. rewrite Hu32.
  split_and!; [done..|]. intros q rest _ Hq.
  destruct (readMessage_frame V11Msg_zero (v11_msg x) (enc_Msg (v11_msg x)) rest q)
    as (q' & Hr & Hq' & Hqo); [done|exact Hu|done|].
  exists q'. unfold V11_Receive, io_bind. rewrite Hr. simpl. by rewrite u16_id.
Qed.

#[export] Instance V11_Wire : ProtocolWire ProtocolV11 := {|
  wire_in := v11_in;
  wire_out := v11_out;
  wire_up := v11_up;
  wire_link := λ _ _, True;
  sendable := v11_sendable;
  received := λ _ x, newParcel (ptype x) (Payload x);
  received_data _ _ := conj eq_refl eq_refl;
  received_same _ _ _ _ := eq_refl;
  send_receive := V11_send_receive;
|}.
End Wire.

(** ** Properties *)

Lemma readCheck_spec n p :
  0 ≤ n →
  let '(p', r) := readCheck n p in
  v11_out p' = v11_out p ∧
  if n <=? zlen (v11_in p)
  then r = Ok (take (Z.to_nat n) (v11_in p)) ∧ v11_in p' = drop (Z.to_nat n) (v11_in p)
  else r = Err (PE_io (if decide (v11_in p = []) then EOF else UnexpectedEOF)) ∧ v11_in p' = [].
Proof.
  intros Hn. pose proof (ReadFull_stream n (rw p) Hn) as H. unfold readCheck.
  destruct (ReadFull n (rw p)) as [c' r]. destruct H as (? & _ & H). split; [done|].
  unfold v11_in in *. cbn [fst snd rw]. by destruct (n <=? _); destruct H as [-> ?].
Qed.

(** what a computation on a protocol does depends on the bytes of the stream only,
    and is an answer *)
Definition stream_fun {A} (m : io ProtocolV11 A) : Prop :=
  ∀ p1 p2, v11_in p1 = v11_in p2 →
    (m p1).2 = (m p2).2 ∧ v11_in (m p1).1 = v11_in (m p2).1 ∧ returns (m p1).2.

Lemma stream_fun_ret {A} (a : A) : stream_fun (io_ret a).
Proof. intros p1 p2 Hin. done. Qed.
Lemma stream_fun_err {A} e : stream_fun (@io_err _ A e).
Proof. intros p1 p2 Hin. done. Qed.

Lemma stream_fun_lift {A E} (wrap : E → prot_error) (o : outcome E A) :
  returns o → stream_fun (io_lift wrap o).
Proof. intros Ho p1 p2 Hin. split_and!; [done..|]. by destruct o. Qed.

Lemma stream_fun_bind {A B} (m : io ProtocolV11 A) (f : A → io ProtocolV11 B) :
  stream_fun m → (∀ p a, (m p).2 = Ok a → stream_fun (f a)) → stream_fun (io_bind m f).
Proof.
  intros Hm Hf p1 p2 Hin. destruct (Hm p1 p2 Hin) as (Hr & Hi & Hret).
  specialize (Hf p1). unfold io_bind. destruct (m p1) as [p1' r], (m p2) as [p2' r2].
  simpl in *. subst r2. destruct r as [a|e| |]; try done. by apply (Hf a).
Qed.

Lemma stream_fun_readCheck n : 0 ≤ n → stream_fun (readCheck n).
Proof.
  intros Hn p1 p2 Hin. pose proof (readCheck_spec n p1 Hn) as H1. pose proof (readCheck_spec n p2 Hn) as H2.
  destruct (readCheck n p1) as [p1' r1], (readCheck n p2) as [p2' r2].
  destruct H1 as [_ H1], H2 as [_ H2]. rewrite <-Hin in H2. simpl.
  by destruct (n <=? zlen (v11_in p1)); destruct H1 as [-> ->], H2 as [-> ->].
Qed.

Lemma readCheck_length n p d : 0 ≤ n → (readCheck n p).2 = Ok d → zlen d = n.
Proof.
  intros Hn. pose proof (readCheck_spec n p Hn) as H. destruct (readCheck n p) as [p' r].
  destruct H as [_ H]. simpl. intros ->. destruct (Z.leb_spec n (zlen (v11_in p))); [|naive_solver].
  destruct H as [[= ->] _]. unfold zlen in *. rewrite length_take. lia.
Qed.

Section Properties.
Context `{ProtoLibLaws}.

Lemma stream_fun_readMessage {M} `{ProtoMessage M} (m0 : M) :
  (∀ data, slice_ok data → returns (pm_Unmarshal data pm_zero)) → stream_fun (readMessage m0).
Proof.
  intros Htot. apply stream_fun_bind; [by apply stream_fun_readCheck|]. intros p buf _. cbv zeta.
  destruct (Z.ltb_spec V11MaxParcelSize (be_Uint32 buf)); [apply stream_fun_err|].
  pose proof (be_Uint32_range buf) as Hr. unfold is_u32 in Hr.
  apply stream_fun_bind; [apply stream_fun_readCheck; lia|]. intros p' data Hd.
  apply stream_fun_lift. rewrite proto_Unmarshal_law. apply Htot.
  apply readCheck_length in Hd; [|lia]. unfold slice_ok. rewrite Hd.
  unfold V11MaxParcelSize in *. lia.
Qed.

Lemma V11_ReadHandshake_stream : stream_fun V11_ReadHandshake.
Proof.
  apply stream_fun_bind; [by apply stream_fun_readCheck|]. intros p sig _.
  destruct (negb _); [apply stream_fun_err|].
  apply stream_fun_bind; [|intros; apply stream_fun_ret].
  apply stream_fun_readMessage. intros. by apply Handshake_Unmarshal_total.
Qed.

(** [C19] Robustness of the V11 receiver: whatever bytes a remote node sends and
    however the network cuts them up, reading a handshake or a parcel gives a value
    or an error (it neither panics nor runs on), and gives the same one for the
    same bytes in other chunks. *)
Theorem V11_receive_robust p1 p2 :
  v11_in p1 = v11_in p2 →
  (returns (V11_Receive p1).2 ∧ (V11_Receive p1).2 = (V11_Receive p2).2) ∧
  (returns (V11_ReadHandshake p1).2 ∧ (V11_ReadHandshake p1).2 = (V11_ReadHandshake p2).2).
Proof.
  intros Hin. assert (stream_fun V11_Receive) as Hrecv.
  { apply stream_fun_bind; [|intros; apply stream_fun_ret].
    apply stream_fun_readMessage. intros. by apply Msg_Unmarshal_total. }
  pose proof V11_ReadHandshake_stream as Hhs.
  destruct (Hrecv p1 p2 Hin) as (? & _ & ?), (Hhs p1 p2 Hin) as (? & _ & ?). done.
Qed.

(** [C5] Delivery over V11: parcels within the size limit, sent one after the other
    on an open connection, arrive at the other end in order, with their types and
    payloads, whatever else follows in the stream. *)
Theorem V11_delivery l p :
  v11_up p → Forall v11_sendable l →
  ∃ p' bytes, send_all l p = (p', Ok tt) ∧ v11_out p' = v11_out p ++ bytes ∧
    ∀ q rest, v11_in q = bytes ++ rest →
      ∃ q', receive_n (length l) q = (q', Ok ((λ x, newParcel (ptype x) (Payload x)) <$> l)) ∧
        v11_in q' = rest.
Proof.
  intros Hup Hl. destruct (delivery (P:=ProtocolV11) l p)
    as (p' & bytes & Hs & _ & Ho & _ & Hr); [exact Hup|exact Hl|].
  exists p', bytes. split_and!; [done..|]. intros q rest Hq.
  destruct (Hr q rest I Hq) as (q' & ? & ? & _). by exists q'.
Qed.

Lemma V11_handshake_through hs p :
  v11_up p → v11_hs_sendable hs →
  ∃ p' bytes, V11_SendHandshake hs p = (p', Ok tt) ∧ v11_up p' ∧ v11_in p' = v11_in p ∧ v11_out p' = v11_out p ++ bytes ∧
    take 4 bytes = V11Signature ∧
    ∀ q rest, v11_in q = bytes ++ rest →
      ∃ q', V11_ReadHandshake q = (q', Ok hs) ∧ v11_in q' = rest.
Proof.
  intros Hup Hs. destruct (v11_handshake_codec hs Hs) as (Hm & Hu & Hhs).
  destruct Hs as (_ & _ & _ & _ & _ & Hlen). set (data := enc_Handshake (v11_handshake hs)) in *.
  destruct (writeCheck_up V11Signature p Hup) as (p1 & Hw1 & Hup1 & Ho1 & Hi1).
  destruct (writeMessage_up (v11_handshake hs) data p1) as (p2 & Hw2 & Hup2 & Ho2 & Hi2);
    [done|exact Hm|done|].
  exists p2, (V11Signature ++ frame data). unfold V11_SendHandshake, io_bind at 1. rewrite Hw1.
  split_and!; [done|done|by rewrite Hi2|by rewrite Ho2, Ho1, app_assoc|done|].
  intros q rest Hq. rewrite <-app_assoc in Hq.
  destruct (readCheck_stream _ _ _ Hq) as (q1 & Hr1 & Hq1 & _).
  destruct (readMessage_frame V11Handshake_zero (v11_handshake hs) data rest q1)
    as (q2 & Hr2 & Hq2 & _); [done|exact Hu|done|].
  exists q2. split; [|done]. unfold V11_ReadHandshake, io_bind at 1.
  change (zlen V11Signature) with 4 in Hr1. rewrite Hr1. rewrite bool_decide_true by done.
  cbn [negb]. unfold io_bind. rewrite Hr2. unfold io_ret. by rewrite Hhs.
Qed.

(** The V11 handshake arrives as it was sent, alternatives included, and the
    receiver stands right behind it in the stream. *)
Theorem V11_handshake_exchange hs p :
  v11_up p → v11_hs_sendable hs →
  ∃ p' bytes, V11_SendHandshake hs p = (p', Ok tt) ∧ v11_out p' = v11_out p ++ bytes ∧
    take 4 bytes = V11Signature ∧
    ∀ q rest, v11_in q = bytes ++ rest →
      ∃ q', V11_ReadHandshake q = (q', Ok hs) ∧ v11_in q' = rest.
Proof.
  intros Hup Hs. destruct (V11_handshake_through hs p Hup Hs) as (p' & bytes & ? & _ & _ & ? & ? & ?).
  by exists p', bytes.
Qed.

(** [C37] The size limit of V11: a sender refuses a message above the limit before it
    writes a byte, and a receiver refuses a length above it without reading, or
    allocating, what follows the length. *)
Theorem V11_size_limit x p q rest buf :
  is_u16 (ptype x) → V11MaxParcelSize < zlen (enc_Msg (v11_msg x)) → zlen (Payload x) < 2 ^ 62 →
  zlen buf = 4 → V11MaxParcelSize < be_Uint32 buf → v11_in q = buf ++ rest →
  V11_Send x p = (p, Err PE_too_large) ∧
  ∃ q', V11_Receive q = (q', Err PE_too_large) ∧ v11_in q' = rest.
Proof.
  intros Ht Hlen Hp Hb Hbig Hq. split.
  - pose proof (enc_Msg_size x Ht Hp). destruct (v11_msg_codec x Ht) as [Hm _]; [lia|].
    unfold V11_Send. rewrite u32_id by (unfold is_u16, is_u32 in *; lia).
    eapply writeMessage_too_large; [exact Hm|lia].
  - destruct (readCheck_stream _ _ _ Hq) as (q1 & Hr1 & Hi1 & _). rewrite Hb in Hr1.
    exists q1. unfold V11_Receive, io_bind at 1, readMessage, io_bind at 1. rewrite Hr1.
    by rewrite (proj2 (Z.ltb_lt _ _)) by done.
Qed.
End Properties.

(** Peer shares over V11: parsing the payload made from any list of endpoints
    that fits gives the list back, in order, and [ParsePeerShare] returns on every
    payload. *)
Theorem V11_share_roundtrip ps payload :
  zlen (enc_Share (MkV11Share (v11_endpoint <$> ps) [])) < 2 ^ 63 → slice_ok payload →
  (∃ data, V11_MakePeerShare ps = Ok data ∧ V11_ParsePeerShare data = Ok ps) ∧
  returns (V11_ParsePeerShare payload).
Proof.
  intros Hlen Hok. split.
  - set (m := MkV11Share _ _) in *. destruct (Share_marshals m Hlen) as [Hm Hs].
    exists (enc_Share m). unfold V11_MakePeerShare, V11_ParsePeerShare. fold m.
    rewrite Share_decoded by (done || apply plain_endpoints).
    rewrite (marshal_message_ok V11Share_Size V11Share_MarshalToSizedBuffer m _ Hs Hm : V11Share_Marshal m = _).
    split; [done|]. cbn. by rewrite endpoint_of_v11_endpoint.
  - unfold V11_ParsePeerShare. pose proof (Share_Unmarshal_total payload V11Share_zero Hok) as Ht.
    by destruct (V11Share_Unmarshal payload V11Share_zero).
Qed.

Theorem V11_share_roundtrip_witness :
  (∃ data, V11_MakePeerShare [ep_a; ep_v6] = Ok data ∧ V11_ParsePeerShare data = Ok [ep_a; ep_v6]) ∧
  returns (V11_ParsePeerShare [x0a; xff]).
Proof. apply V11_share_roundtrip; by vm_compute. Defined.

#[local] Existing Instance documented_ProtoLib.

Theorem V11_receive_robust_witness :
  let p1 := newProtocolV11 (MkConn [[x00; x00]; [x00; x02; x08]; [xff]] [] None) in
  let p2 := newProtocolV11 (MkConn [[x00; x00; x00; x02; x08; xff]] [] None) in
  (returns (V11_Receive p1).2 ∧ (V11_Receive p1).2 = (V11_Receive p2).2) ∧
  (returns (V11_ReadHandshake p1).2 ∧ (V11_ReadHandshake p1).2 = (V11_ReadHandshake p2).2).
Proof. apply V11_receive_robust. reflexivity. Defined.

Definition fresh_v11 : ProtocolV11 := newProtocolV11 (MkConn [] [] None).
Definition parcel_ab : Parcel := NewParcel "x" [x61; x62].

Theorem V11_delivery_witness :
  ∃ p' bytes, send_all [parcel_ab; parcel_ab] fresh_v11 = (p', Ok tt) ∧
    v11_out p' = v11_out fresh_v11 ++ bytes ∧
    ∀ q rest, v11_in q = bytes ++ rest →
      ∃ q', receive_n (length [parcel_ab; parcel_ab]) q =
          (q', Ok ((λ x, newParcel (ptype x) (Payload x)) <$> [parcel_ab; parcel_ab])) ∧
        v11_in q' = rest.
Proof.
  apply V11_delivery; [reflexivity|].
  assert (v11_sendable parcel_ab) by (split; [unfold is_u16; change (0 ≤ 6 < 2 ^ 16); lia|by vm_compute]).
  by rewrite Forall_cons, Forall_singleton.
Defined.

Definition handshake_a : Handshake :=
  MkHandshake MainNet 11 TypeHandshake 77 "8108" 12345678901234567890 [ep_a; ep_v6].

Theorem V11_handshake_exchange_witness :
  ∃ p' bytes, V11_SendHandshake handshake_a fresh_v11 = (p', Ok tt) ∧
    v11_out p' = v11_out fresh_v11 ++ bytes ∧ take 4 bytes = V11Signature ∧
    ∀ q rest, v11_in q = bytes ++ rest →
      ∃ q', V11_ReadHandshake q = (q', Ok handshake_a) ∧ v11_in q' = rest.
Proof.
  apply V11_handshake_exchange; [reflexivity|].
  unfold v11_hs_sendable, is_u16, is_u32, is_u64. cbn -[Z.pow enc_Handshake].
  unfold MainNet, TypeHandshake. split_and!; try lia. by vm_compute.
Defined.

Definition big_parcel : Parcel := newParcel TypeMessage (replicate (Z.to_nat 134217729) x61).

Theorem V11_size_limit_witness :
  V11_Send big_parcel fresh_v11 = (fresh_v11, Err PE_too_large) ∧
  ∃ q', V11_Receive (newProtocolV11 (MkConn [[xff; x00; x00; x00]; [x61]] [] None)) =
    (q', Err PE_too_large) ∧ v11_in q' = [x61].
Proof.
  assert (Hlen : zlen (Payload big_parcel) = 134217729).
  { unfold zlen, big_parcel. cbn [newParcel Payload]. rewrite length_replicate. lia. }
  assert (is_u16 (ptype big_parcel)) by (unfold is_u16; change (0 ≤ 6 < 2 ^ 16); lia).
  apply (V11_size_limit big_parcel fresh_v11 _ [x61] [xff; x00; x00; x00]);
    [done| |lia|reflexivity|reflexivity|reflexivity].
  assert (Hp : zlen (Payload big_parcel) < 2 ^ 62) by lia.
  pose proof (enc_Msg_size big_parcel ltac:(done) Hp). unfold V11MaxParcelSize. lia.
Defined.
