(* ===== verification/Rng.v ===== *)
(** * The random choices of [math/rand] ([lockSource.go])

    The generator is any source of numbers below a bound; [Perm] and [Shuffle] are
    Go's algorithms on top of it.  [lockSource] puts a mutex around the source, so
    each draw is atomic. *)
From S2P Require Import Prelude.

(** [rand_n n g] is a number in [0, n), [Int31n] or [Int63n] of the source [g], and
    the source after the draw *)
Class Rng (G : Type) := {
  rand_n : Z → G → Z * G;
  rand_n_range n g : 0 < n → 0 ≤ (rand_n n g).1 < n;
}.

Section Rng.
Context {G : Type} `{Rng G}.

(** [Intn] panics if its argument is not positive *)
Definition Intn (n : Z) (g : G) : outcome () (Z * G) :=
  if n <=? 0 then Panic else Ok (rand_n n g).

Definition swap {A} (i j : nat) (l : list A) : list A :=
  match l !! i, l !! j with
  | Some a, Some b => <[i:=b]> (<[j:=a]> l)
  | _, _ => l
  end.

(** [Shuffle(len(l), swap)]: for i := n - 1; i > 0; i-- *)
Fixpoint shuffle_loop {A} (i : nat) (l : list A) (g : G) : list A * G :=
  match i with
  | O => (l, g)
  | S i' =>
      let (j, g) := rand_n (Z.of_nat i + 1) g in
      shuffle_loop i' (swap i (Z.to_nat j) l) g
  end.
Definition Shuffle {A} (l : list A) (g : G) : list A * G := shuffle_loop (pred (length l)) l g.

(** [Perm]: for i := 0; i < n; i++ { j := Intn(i+1); m[i] = m[j]; m[j] = i }, the
    list growing by [m[i]] *)
Definition perm_step (m : list nat) (i j : nat) : list nat :=
  <[j:=i]> (m ++ [default i (m !! j)]).
Fixpoint perm_loop (k i : nat) (m : list nat) (g : G) : list nat * G :=
  match k with
  | O => (m, g)
  | S k =>
      let (j, g) := rand_n (Z.of_nat i + 1) g in
      perm_loop k (S i) (perm_step m i (Z.to_nat j)) g
  end.
Definition Perm (n : nat) (g : G) : list nat * G := perm_loop n 0 [] g.

(** ** Both rearrange, and lose or repeat nothing *)

Lemma swap_Permutation {A} i j (l : list A) : swap i j l ≡ₚ l.
Proof.
  unfold swap. destruct (l !! i) as [a|] eqn:Hi; [|done]. destruct (l !! j) as [b|] eqn:Hj; [|done].
  destruct (decide (i = j)) as [->|Hne].
  - simplify_eq. rewrite list_insert_insert_eq. by rewrite list_insert_id.
  - apply Permutation_inj. split; [by rewrite !length_insert|].
    exists (λ k, if decide (k = i) then j else if decide (k = j) then i else k). split.
    + intros k1 k2. repeat case_decide; congruence.
    + intros k. pose proof (lookup_lt_Some _ _ _ Hi). pose proof (lookup_lt_Some _ _ _ Hj).
      case_decide as Hki; [subst k|case_decide as Hkj; [subst k|]].
      * rewrite list_lookup_insert_eq by (rewrite length_insert; lia). done.
      * rewrite list_lookup_insert_ne by done. rewrite list_lookup_insert_eq by lia. done.
      * by rewrite !list_lookup_insert_ne by done.
Qed.

Lemma shuffle_loop_Permutation {A} i (l : list A) g : (shuffle_loop i l g).1 ≡ₚ l.
Proof.
  revert l g. induction i as [|i IH]; intros l g; [done|]. cbn [shuffle_loop].
  destruct (rand_n _ g) as [j g']. by rewrite IH, swap_Permutation.
Qed.

Lemma Shuffle_Permutation {A} (l : list A) g : (Shuffle l g).1 ≡ₚ l.
Proof. apply shuffle_loop_Permutation. Qed.

Lemma perm_step_Permutation m i j :
  (j ≤ length m)%nat → perm_step m i j ≡ₚ i :: m.
Proof.
  intros Hj. unfold perm_step. destruct (m !! j) as [x|] eqn:Hx; simpl.
  - rewrite insert_app_l by (by eapply lookup_lt_Some).
    rewrite <-Permutation_cons_append.
    trans (i :: <[j:=x]> m); [|by rewrite list_insert_id].
    rewrite (insert_take_drop m j i), (insert_take_drop m j x) by (by eapply lookup_lt_Some).
    rewrite <-!Permutation_middle. constructor.
  - apply lookup_ge_None_1 in Hx. assert (j = length m) as -> by lia.
    replace (length m) with (length m + 0)%nat by lia. rewrite insert_app_r. simpl.
    apply symmetry, Permutation_cons_append.
Qed.

Lemma perm_loop_Permutation k i m g :
  m ≡ₚ seq 0 i → (perm_loop k i m g).1 ≡ₚ seq 0 (i + k).
Proof.
  revert i m g. induction k as [|k IH]; intros i m g Hm; [by rewrite Nat.add_0_r|].
  cbn [perm_loop]. pose proof (rand_n_range (Z.of_nat i + 1) g ltac:(lia)) as Hj.
  destruct (rand_n _ g) as [j g']. simpl in Hj. replace (i + S k)%nat with (S i + k)%nat by lia.
  apply IH. rewrite seq_S. simpl. rewrite perm_step_Permutation.
  - rewrite Hm. apply Permutation_cons_append.
  - apply Permutation_length in Hm. rewrite length_seq in Hm. lia.
Qed.

Lemma Perm_Permutation n g : (Perm n g).1 ≡ₚ seq 0 n.
Proof. by apply (perm_loop_Permutation n 0). Qed.

Lemma Intn_Ok n g : 0 < n → ∃ i g', Intn n g = Ok (i, g') ∧ 0 ≤ i < n.
Proof.
  intros Hn. unfold Intn. rewrite (proj2 (Z.leb_gt _ _)) by done.
  pose proof (rand_n_range n g Hn). destruct (rand_n n g) as [i g']. by exists i, g'.
Qed.

Lemma seq_elements {A} (pre l : list A) :
  (seq (length pre) (length l) ≫= λ i, option_list ((pre ++ l) !! i)) = l.
Proof.
  revert pre. induction l as [|x l IH]; intros pre; [done|]. cbn [length seq mbind list_bind].
  rewrite list_lookup_middle by done. simpl. f_equal.
  specialize (IH (pre ++ [x])). rewrite length_app, <-app_assoc in IH. simpl in IH.
  by rewrite Nat.add_1_r in IH.
Qed.

(** the elements of [l] in the order of a permutation *)
Lemma permuted_elements {A} (l : list A) g :
  ((Perm (length l) g).1 ≫= λ i, option_list (l !! i)) ≡ₚ l.
Proof. rewrite Perm_Permutation. by apply reflexive_eq, (seq_elements []). Qed.
End Rng.

(** a source for examples: a linear congruential generator *)
#[export] Instance lcg : Rng Z.
Proof.
  refine {| rand_n n g := let g := u32 (1664525 * g + 1013904223) in
    (if n <=? 0 then 0 else (Z.shiftr g 8) mod n, g) |}.
  intros n g Hn. simpl. rewrite (proj2 (Z.leb_gt _ _)) by done. by apply Z.mod_pos_bound.
Defined.
