(* ===== verification/Controller.v ===== *)
(** * The controller's state ([controller.go], [controller_persistence.go])

    The peers as mutable objects shared by the components, the maps of bans and
    special endpoints, and the operations on them.  Go code that is passed a
    [*Peer] holds its address; [heap] maps the addresses to what changes about a
    peer.  The clock readings of the code are arguments in the order it takes
    them, [order] is the order in which Go visits a map. *)
From S2P Require Import Prelude GoStd Endpoint Parcel ParcelChannel PeerHashCache Configuration PeerStore.

(** the fields of a [Peer] that change while it is connected *)
Record PeerState := MkPeerState {
  ps_stopped : bool;               (* [stopper] has run and [stop] is closed *)
  ps_resend : option PeerHashCache;
  ps_send : ParcelChannel;
  ps_dropped : Z;                  (* uint64 *)
  ps_lastPeerRequest : Z;
  ps_lastPeerSend : Z;
  ps_lastSend : Z;
}.

(** [peerStatus{peer, online}] *)
Record peerStatus := MkStatus { st_peer : Peer; st_online : bool }.

Record controller := MkController {
  c_peers : PeerStore;
  heap : gmap nat PeerState;
  statuses : list peerStatus;      (* what has been sent to [peerStatus] *)
  bans : gmap string Z;            (* (ip|ip:port) -> time the ban ends *)
  bans_nil : bool;                 (* the map is nil: it reads as empty and panics when written *)
  special : gmap string bool;      (* (ip|ip:port) -> true *)
  specialEndpoints : list Endpoint;
}.

Definition set_peers (ps : PeerStore) (c : controller) : controller :=
  MkController ps (heap c) (statuses c) (bans c) (bans_nil c) (special c) (specialEndpoints c).
Definition set_bans (b : gmap string Z) (c : controller) : controller :=
  MkController (c_peers c) (heap c) (statuses c) b (bans_nil c) (special c) (specialEndpoints c).
Definition set_special (s : gmap string bool) (l : list Endpoint) (c : controller) : controller :=
  MkController (c_peers c) (heap c) (statuses c) (bans c) (bans_nil c) s l.
Definition set_heap (h : gmap nat PeerState) (c : controller) : controller :=
  MkController (c_peers c) h (statuses c) (bans c) (bans_nil c) (special c) (specialEndpoints c).

Definition peer_state (c : controller) (p : Peer) : option PeerState := heap c !! peer_ref p.
Definition is_stopped (c : controller) (p : Peer) : bool :=
  match peer_state c p with Some st => ps_stopped st | None => false end.

(** [resend.Stop()] unless it is nil *)
Definition stop_resend (o : option PeerHashCache) : outcome () (option PeerHashCache) :=
  match o with
  | None => Ok None
  | Some pr => PeerHashCache_Stop pr ≫= λ pr, Ok (Some pr)
  end.

Definition with_stopped (st : PeerState) (resend : option PeerHashCache) : PeerState :=
  MkPeerState true resend (ps_send st) (ps_dropped st) (ps_lastPeerRequest st)
    (ps_lastPeerSend st) (ps_lastSend st).

(** [Peer.Stop]: the first call stops the hash cache, closes [stop] and the
    connection and reports the peer offline; later ones do nothing *)
Definition Peer_Stop (p : Peer) (c : controller) : outcome () controller :=
  match peer_state c p with
  | None => Ok c
  | Some st =>
      if ps_stopped st then Ok c
      else
        stop_resend (ps_resend st) ≫= λ resend,
        Ok (MkController (c_peers c) (<[peer_ref p := with_stopped st resend]> (heap c))
              (statuses c ++ [MkStatus p false]) (bans c) (bans_nil c) (special c) (specialEndpoints c))
  end.

(** [Peer.Send] looks at [stop] and then, when the peer runs, sends into its channel and
    counts what has been dropped.  [gap] is what other goroutines do between the two: the
    peer may be stopped by then, and its channel closed, which makes the send panic. *)
Definition running (c : controller) (p : Peer) : bool :=
  match peer_state c p with Some st => negb (ps_stopped st) | None => false end.
Definition Peer_put (p : Peer) (parcel : option Parcel) (c : controller) : outcome () controller :=
  match peer_state c p with
  | None => Ok c
  | Some st =>
      ParcelChannel_Send (ps_send st) parcel ≫= λ '(ch, (_, dropped)),
      let st := MkPeerState (ps_stopped st) (ps_resend st) ch (u64 (ps_dropped st + u64 dropped))
                  (ps_lastPeerRequest st) (ps_lastPeerSend st) (ps_lastSend st) in
      Ok (set_heap (<[peer_ref p := st]> (heap c)) c)
  end.
Definition Peer_Send_beside (gap : controller → controller) (p : Peer) (parcel : option Parcel) (c : controller)
    : outcome () controller :=
  if running c p then Peer_put p parcel (gap c) else Ok c.

(** whether the send comes too late: the peer runs when it is looked at, and its channel is
    closed when the parcel is sent *)
Definition send_closed (c : controller) (p : Peer) : bool :=
  match peer_state c p with Some st => pc_closed (ps_send st) | None => false end.
Definition send_raced (gap : controller → controller) (c : controller) (p : Peer) : bool :=
  running c p && send_closed (gap c) p.

(** nothing happens in between *)
Definition Peer_Send : Peer → option Parcel → controller → outcome () controller := Peer_Send_beside (λ c, c).

Lemma Peer_Send_eq p parcel c :
  Peer_Send p parcel c =
  match peer_state c p with
  | None => Ok c
  | Some st => if ps_stopped st then Ok c else Peer_put p parcel c
  end.
Proof. unfold Peer_Send, Peer_Send_beside, running. destruct (peer_state c p) as [st|]; [|done]. by destruct (ps_stopped st). Qed.

Definition c_Slice (order : list Peer → list Peer) (c : controller) : list Peer * controller :=
  let (l, ps) := PeerStore_Slice order (c_peers c) in (l, set_peers ps c).

(** ** Bans *)

(** [c.bans[addr]]: a missing ban reads as the zero time *)
Definition ban_end (c : controller) (addr : string) : Z := default zero_time (bans c !! addr).

Definition isBannedEndpoint (now now' : Z) (c : controller) (ep : Endpoint) : bool :=
  (now <? ban_end c (IP ep)) || (now' <? ban_end c (Endpoint_String ep)).

Definition isBannedIP (now : Z) (c : controller) (ip : string) : bool := now <? ban_end c ip.

(** [for _, p := range l { if cond(p) { stops(p).Stop() } }] *)
Fixpoint stop_loop (cond : Peer → bool) (stops : Peer → Peer) (l : list Peer) (c : controller)
    : outcome () controller :=
  match l with
  | [] => Ok c
  | p :: l => (if cond p then Peer_Stop (stops p) c else Ok c) ≫= stop_loop cond stops l
  end.

(** [c.bans[addr] = end] *)
Definition write_ban (addr : string) (end_ : Z) (c : controller) : outcome () controller :=
  if bans_nil c then Panic else Ok (set_bans (<[addr := end_]> (bans c)) c).

(** [ban]: its loop stops [peer], not [p] *)
Definition ban (order : list Peer → list Peer) (hash : string) (duration now : Z) (c : controller)
    : outcome () controller :=
  match PeerStore_Get (c_peers c) hash with
  | None => Ok c
  | Some peer =>
      let ip := IP (peer_Endpoint peer) in
      let end_ := now + duration in
      let end_ := match bans c !! ip with
                  | Some existing => if end_ <? existing then existing else end_
                  | None => end_
                  end in
      write_ban ip end_ c ≫= λ c,
      write_ban (Endpoint_String (peer_Endpoint peer)) end_ c ≫= λ c,
      let (l, c) := c_Slice order c in
      stop_loop (λ p, bool_decide (IP (peer_Endpoint p) = ip)) (λ _, peer) l c
  end.

Definition banEndpoint (order : list Peer → list Peer) (ep : Endpoint) (duration now : Z)
    (c : controller) : outcome () controller :=
  write_ban (Endpoint_String ep) (now + duration) c ≫= λ c,
  if 0 <? duration then
    let (l, c) := c_Slice order c in
    stop_loop (λ p, bool_decide (peer_Endpoint p = ep)) (λ p, p) l c
  else Ok c.

Definition disconnect (hash : string) (c : controller) : outcome () controller :=
  match PeerStore_Get (c_peers c) hash with
  | Some peer => Peer_Stop peer c
  | None => Ok c
  end.

(** ** Special endpoints *)

Definition isSpecial (c : controller) (ep : Endpoint) : bool :=
  default false (special c !! Endpoint_String ep).
Definition isSpecialIP (c : controller) (ip : string) : bool := default false (special c !! ip).

Fixpoint register_special (eps : list Endpoint) (m : gmap string bool) : gmap string bool :=
  match eps with
  | [] => m
  | ep :: eps => register_special eps (<[IP ep := true]> (<[Endpoint_String ep := true]> m))
  end.

Definition setSpecial (raw : string) (c : controller) : controller :=
  if bool_decide (raw = EmptyString) then set_special ∅ [] c
  else match parseSpecial raw with
       | Ok eps => set_special (register_special eps ∅) eps c
       | _ => c
       end.

(** ** The peer cache *)

(** [Bans] is [None] for a nil map *)
Record PeerCache := MkPeerCache { Bans : option (gmap string Z); Peers : list Endpoint }.

Definition newPeerCache : PeerCache := MkPeerCache (Some ∅) [].

(** [createPeerCache]: the bans that have run out are also dropped from the live map *)
Definition createPeerCache (order : list Peer → list Peer) (now : Z) (c : controller)
    : PeerCache * controller :=
  let live := filter (λ kv, ¬ kv.2 < now) (bans c) in
  let c := set_bans live c in
  let (l, c) := c_Slice order c in
  (MkPeerCache (Some live) (peer_Endpoint <$> l), c).

(** The bans that have run out are deleted while the loaded map is visited, which
    reads the clock once per ban: [now addr] is that reading. *)
Definition prune_loaded (now : string → Z) (pc : PeerCache) : PeerCache :=
  MkPeerCache ((λ b : gmap string Z, filter (λ kv, ¬ kv.2 < now kv.1) b) <$> Bans pc) (Peers pc).

Inductive cache_error := ErrReadFile | ErrJsonUnmarshal | ErrJsonMarshal | ErrWriteFile.

(** [json.Marshal] of a cache and [json.Unmarshal] of a file's bytes over a cache *)
Class CacheJson := {
  json_Marshal : PeerCache → option (list byte);
  json_Unmarshal : list byte → PeerCache → option PeerCache;
}.

(** the peer file, [None] while there is none *)
Definition file : Type := option (list byte).

Section Persistence.
Context `{CacheJson}.

(** [writes]: whether the file system lets the file be written *)
Definition WriteToFile (writes : bool) (pc : PeerCache) (old : file) : file * outcome cache_error () :=
  match json_Marshal pc with
  | None => (old, Err ErrJsonMarshal)
  | Some data => if writes then (Some data, Ok tt) else (old, Err ErrWriteFile)
  end.

Definition loadPeerCache (now : string → Z) (f : file) : outcome cache_error PeerCache :=
  match f with
  | None => Err ErrReadFile
  | Some data =>
      match json_Unmarshal data newPeerCache with
      | None => Err ErrJsonUnmarshal
      | Some pc => Ok (prune_loaded now pc)
      end
  end.

(** the wrappers of the controller; no file is configured by an empty name *)
Definition writePeerCache (conf : Configuration) (order : list Peer → list Peer) (now : Z)
    (writes : bool) (c : controller) (f : file) : controller * file * outcome cache_error () :=
  if str_empty (PeerCacheFile conf) then (c, f, Ok tt)
  else
    let (pc, c) := createPeerCache order now c in
    let (f, r) := WriteToFile writes pc f in (c, f, r).

Definition controller_loadPeerCache (conf : Configuration) (now : string → Z) (f : file)
    : outcome cache_error (option PeerCache) :=
  if str_empty (PeerCacheFile conf) then Ok None
  else loadPeerCache now f ≫= λ pc, Ok (Some pc).

(** the bans and the bootstrap endpoints [newController] starts with *)
Definition initial_cache (conf : Configuration) (now : string → Z) (f : file)
    : option (gmap string Z) * list Endpoint :=
  match controller_loadPeerCache conf now f with
  | Ok (Some pc) => (Bans pc, Peers pc)
  | _ => (Some ∅, [])
  end.
End Persistence.

(** [c.bans = cache.Bans] *)
Definition load_bans (b : option (gmap string Z)) (c : controller) : controller :=
  MkController (c_peers c) (heap c) (statuses c) (default ∅ b) (bool_decide (b = None)) (special c)
    (specialEndpoints c).

(** ** The invariant

    The stored peers are objects on the heap, an address names one object, a peer that is
    not stopped has a running hash cache, and the map of bans can be written. *)
Record controller_wf (c : controller) : Prop := {
  cw_store : PeerStore_wf (c_peers c);
  cw_heap : ∀ h p, peers (c_peers c) !! h = Some p → is_Some (heap c !! peer_ref p);
  cw_refs : ∀ h h' p q, peers (c_peers c) !! h = Some p → peers (c_peers c) !! h' = Some q →
    peer_ref p = peer_ref q → p = q;
  cw_resend : ∀ i st pr, heap c !! i = Some st → ps_stopped st = false →
    ps_resend st = Some pr → phc_stopped pr = false;
  cw_bans : bans_nil c = false;
}.

(** what is the same before and after an operation that only stops peers, those of
    which [S] holds the addresses *)
Record stops (S : gset nat) (c c' : controller) : Prop := {
  stops_peers : c_peers c' = c_peers c;
  stops_bans : bans c' = bans c ∧ bans_nil c' = bans_nil c;
  stops_special : special c' = special c ∧ specialEndpoints c' = specialEndpoints c;
  stops_dom : dom (heap c') = dom (heap c);
  stops_stopped : ∀ p, is_stopped c' p = is_stopped c p || bool_decide (peer_ref p ∈ S ∧ is_Some (peer_state c p));
}.

Lemma stops_refl c : stops ∅ c c.
Proof. split; try done. intros p. rewrite bool_decide_false by set_solver. by rewrite orb_false_r. Qed.

Lemma stops_trans S1 S2 c1 c2 c3 : stops S1 c1 c2 → stops S2 c2 c3 → stops (S1 ∪ S2) c1 c3.
Proof.
  intros [? [] [] Hd1 Hs1] [? [] [] Hd2 Hs2]. split; try congruence; [split; congruence..|].
  intros p. rewrite Hs2, Hs1, <-orb_assoc. f_equal.
  assert (is_Some (peer_state c2 p) ↔ is_Some (peer_state c1 p)) as Hp.
  { unfold peer_state. by rewrite <-!elem_of_dom, Hd1. }
  apply Bool.eq_iff_eq_true. rewrite orb_true_iff, !bool_decide_eq_true, Hp. set_solver.
Qed.

Lemma Peer_Stop_spec p c :
  controller_wf c → ∃ c', Peer_Stop p c = Ok c' ∧ controller_wf c' ∧ stops {[peer_ref p]} c c'.
Proof.
  intros [Hst Hheap Hrefs Hres Hbn]. unfold Peer_Stop. destruct (peer_state c p) as [st|] eqn:Hp.
  2: { exists c. split_and!; [done..|]. split; try done. intros q.
    rewrite bool_decide_false; [by rewrite orb_false_r|].
    intros [Hq%elem_of_singleton [? Hx]]. unfold peer_state in *. congruence. }
  destruct (ps_stopped st) eqn:Hs.
  { exists c. split_and!; [done..|]. split; try done. intros q.
    destruct (decide (peer_ref q = peer_ref p)) as [Hq|Hq].
    - assert (is_stopped c q = true) as ->; [|done].
      unfold is_stopped, peer_state in *. by rewrite Hq, Hp.
    - rewrite bool_decide_false by set_solver. by rewrite orb_false_r. }
  assert (∃ r, stop_resend (ps_resend st) = Ok r) as [r Hr].
  { unfold stop_resend. destruct (ps_resend st) as [pr|] eqn:Hpr; [|by eexists].
    unfold PeerHashCache_Stop. rewrite (Hres _ _ _ Hp Hs Hpr). by eexists. }
  rewrite Hr, bind_Ok. eexists. split; [done|]. unfold peer_state in Hp. split; split; simpl; try done.
  - intros h q Hq. destruct (Hheap h q Hq) as [st' Hst'].
    destruct (decide (peer_ref p = peer_ref q)) as [->|]; [by rewrite lookup_insert_eq|].
    rewrite lookup_insert_ne by done. by eexists.
  - intros i st' pr. rewrite lookup_insert. case_decide; [by intros [= <-]|]. apply Hres.
  - rewrite dom_insert_L. apply elem_of_dom_2 in Hp. set_solver.
  - intros q. unfold is_stopped, peer_state. simpl. rewrite lookup_insert. case_decide as Hq.
    + rewrite <-Hq, Hp, Hs. rewrite bool_decide_true; [done|]. split; [set_solver|by eexists].
    + rewrite bool_decide_false by set_solver. by rewrite orb_false_r.
Qed.

Lemma stop_loop_spec cond f l c :
  controller_wf c →
  ∃ c', stop_loop cond f l c = Ok c' ∧ controller_wf c' ∧
    stops (list_to_set (peer_ref ∘ f <$> filter (λ p, cond p = true) l)) c c'.
Proof.
  revert c. induction l as [|p l IH]; intros c Hwf; [exists c; split_and!; [done..|apply stops_refl]|].
  cbn [stop_loop]. rewrite filter_cons. destruct (cond p) eqn:Hp.
  - rewrite decide_True by done.
    destruct (Peer_Stop_spec (f p) c Hwf) as (c1 & Hs & Hwf1 & Hst1).
    destruct (IH c1 Hwf1) as (c2 & Hl & Hwf2 & Hst2). exists c2. rewrite Hs, bind_Ok.
    split_and!; [done..|]. simpl. by apply (stops_trans _ _ _ c1).
  - rewrite decide_False by done. apply (IH c Hwf).
Qed.

Lemma c_Slice_spec order c l c' :
  controller_wf c → is_order order → c_Slice order c = (l, c') →
  controller_wf c' ∧ peers (c_peers c') = peers (c_peers c) ∧ heap c' = heap c ∧
  statuses c' = statuses c ∧ bans c' = bans c ∧ special c' = special c ∧
  specialEndpoints c' = specialEndpoints c ∧
  NoDup l ∧ (∀ p, p ∈ l ↔ PeerStore_Get (c_peers c) (Hash p) = Some p).
Proof.
  intros [Hst Hheap Hrefs Hres Hbn] Ho. unfold c_Slice.
  pose proof (Slice_wf order (c_peers c) Ho Hst) as Hwf'.
  destruct (PeerStore_Slice order (c_peers c)) as [l' ps] eqn:HS. intros [= <- <-].
  destruct (Slice_spec order order _ _ _ Hst Ho HS) as (? & _ & ? & _).
  assert (Hp : peers ps = peers (c_peers c)).
  { unfold PeerStore_Slice in HS. destruct (curSlice (c_peers c)); by simplify_eq. }
  split_and!; try done. split; simpl; [done|by rewrite Hp|by rewrite Hp|done|done].
Qed.

(** in a well formed controller a ban can be written *)
Lemma write_ban_Ok addr end_ c :
  controller_wf c → write_ban addr end_ c = Ok (set_bans (<[addr := end_]> (bans c)) c).
Proof. intros Hwf. unfold write_ban. by rewrite (cw_bans _ Hwf). Qed.

Lemma set_bans_wf b c : controller_wf c → controller_wf (set_bans b c).
Proof. intros [? ? ? ? ?]. by split. Qed.
#[export] Hint Resolve set_bans_wf : p2p.

Lemma stored_on_heap c h p :
  controller_wf c → peers (c_peers c) !! h = Some p → is_Some (peer_state c p).
Proof. intros Hwf. apply (cw_heap _ Hwf). Qed.

Lemma Get_hash c h p :
  controller_wf c → PeerStore_Get (c_peers c) h = Some p → Hash p = h.
Proof. intros Hwf. apply (wf_hash _ (cw_store _ Hwf)). Qed.

Lemma Endpoint_String_not_IP ep ep' : IP ep = IP ep' → Endpoint_String ep ≠ IP ep'.
Proof.
  intros <- H. apply (f_equal (λ s, length (str_bytes s))) in H.
  rewrite str_bytes_Endpoint_String, length_app in H. simpl in H. lia.
Qed.

(** when the ban of an address that bans [ip] until [end_] ends *)
Definition ban_until (c : controller) (ip : string) (end_ : Z) : Z :=
  Z.max end_ (default end_ (bans c !! ip)).

Lemma ban_lemma order hash duration now c peer :
  controller_wf c → is_order order → PeerStore_Get (c_peers c) hash = Some peer →
  ∃ c', ban order hash duration now c = Ok c' ∧ controller_wf c' ∧
    let ip := IP (peer_Endpoint peer) in
    let s := Endpoint_String (peer_Endpoint peer) in
    ban_end c' ip = ban_until c ip (now + duration) ∧
    ban_end c' s = ban_until c ip (now + duration) ∧
    (∀ a, a ≠ ip → a ≠ s → bans c' !! a = bans c !! a) ∧
    peers (c_peers c') = peers (c_peers c) ∧
    is_stopped c' peer = true ∧
    (∀ q, peer_ref q ≠ peer_ref peer → is_stopped c' q = is_stopped c q).
Proof.
  intros Hwf Ho Hg. unfold ban. rewrite Hg. set (ip := IP (peer_Endpoint peer)).
  set (s := Endpoint_String (peer_Endpoint peer)).
  assert (Hend : (match bans c !! ip with
                  | Some existing => if now + duration <? existing then existing else now + duration
                  | None => now + duration end) = ban_until c ip (now + duration)).
  { unfold ban_until. destruct (bans c !! ip) as [e|]; simpl; [|lia].
    destruct (Z.ltb_spec (now + duration) e); lia. }
  cbv zeta. rewrite Hend. set (e := ban_until c ip (now + duration)).
  rewrite write_ban_Ok, bind_Ok by done. rewrite write_ban_Ok, bind_Ok by by apply set_bans_wf.
  set (c1 := set_bans _ (set_bans _ c)). destruct (c_Slice order c1) as [l c2] eqn:HS.
  destruct (c_Slice_spec order c1 l c2) as (Hwf2 & Hp2 & Hh2 & _ & Hb2 & _ & _ & _ & Hl);
    [by apply set_bans_wf, set_bans_wf|done|done|].
  destruct (stop_loop_spec (λ p, bool_decide (IP (peer_Endpoint p) = ip)) (λ _, peer) l c2 Hwf2)
    as (c3 & -> & Hwf3 & Hst).
  exists c3. destruct Hst as [Hp3 [Hb3 _] _ _ Hst].
  assert (Hsip : s ≠ ip) by by apply Endpoint_String_not_IP.
  assert (Hin : ∀ q, is_stopped c2 q = is_stopped c q).
  { intros q. unfold is_stopped, peer_state. by rewrite Hh2. }
  split_and!; [done|done|..].
  - unfold ban_end. rewrite Hb3, Hb2. unfold c1. simpl.
    rewrite lookup_insert_ne, lookup_insert_eq by done. done.
  - unfold ban_end. rewrite Hb3, Hb2. unfold c1. simpl. by rewrite lookup_insert_eq.
  - intros a Ha1 Ha2. rewrite Hb3, Hb2. unfold c1. simpl. by rewrite !lookup_insert_ne.
  - by rewrite Hp3, Hp2.
  - rewrite Hst. apply orb_true_iff. right. apply bool_decide_eq_true. split.
    + apply elem_of_list_to_set, list_elem_of_fmap. exists peer. split; [done|].
      apply list_elem_of_filter. split; [by apply bool_decide_eq_true|].
      apply Hl. pose proof (Get_hash _ _ _ Hwf Hg) as <-. exact Hg.
    + unfold peer_state. rewrite Hh2. by apply (stored_on_heap c hash).
  - intros q Hq. rewrite Hst, Hin, bool_decide_false; [by rewrite orb_false_r|].
    rewrite elem_of_list_to_set, list_elem_of_fmap. naive_solver.
Qed.

(** [C33] [ban] closes the address of a peer and its endpoint until the given time, or
    until a longer ban of the address ends, leaves every other ban alone, and
    disconnects the peer.  It never panics.  It stops that one peer only: the
    others from the address, which its comment says it bans too, stay connected. *)
Theorem ban_spec order hash duration now c peer :
  controller_wf c → is_order order → PeerStore_Get (c_peers c) hash = Some peer →
  ∃ c', ban order hash duration now c = Ok c' ∧ controller_wf c' ∧
    let ip := IP (peer_Endpoint peer) in
    let s := Endpoint_String (peer_Endpoint peer) in
    ban_end c' ip = ban_until c ip (now + duration) ∧
    ban_end c' s = ban_until c ip (now + duration) ∧
    (∀ a, a ≠ ip → a ≠ s → bans c' !! a = bans c !! a) ∧
    peers (c_peers c') = peers (c_peers c) ∧
    is_stopped c' peer = true ∧
    (∀ q, peer_ref q ≠ peer_ref peer → is_stopped c' q = is_stopped c q).
Proof. apply ban_lemma. Qed.

Lemma banEndpoint_lemma order ep duration now c :
  controller_wf c → is_order order →
  ∃ c', banEndpoint order ep duration now c = Ok c' ∧ controller_wf c' ∧
    (∀ t, now ≤ t → isBannedEndpoint t t c' ep =
      isBannedIP t c (IP ep) || (t <? now + duration)) ∧
    (∀ a, a ≠ Endpoint_String ep → bans c' !! a = bans c !! a) ∧
    (∀ h p, peers (c_peers c) !! h = Some p → is_stopped c' p =
       is_stopped c p || (0 <? duration) && bool_decide (peer_Endpoint p = ep)).
Proof.
  intros Hwf Ho. unfold banEndpoint. rewrite write_ban_Ok, bind_Ok by done. set (c1 := set_bans _ c).
  assert (Hwf1 : controller_wf c1) by by apply set_bans_wf.
  assert (Hban : ∀ c' t, bans c' = bans c1 → now ≤ t → isBannedEndpoint t t c' ep =
    isBannedIP t c (IP ep) || (t <? now + duration)).
  { intros c' t Hb Ht. unfold isBannedEndpoint, isBannedIP, ban_end. rewrite Hb. unfold c1. simpl.
    rewrite lookup_insert_ne by by apply Endpoint_String_not_IP. by rewrite lookup_insert_eq. }
  assert (Hother : ∀ c' a, bans c' = bans c1 → a ≠ Endpoint_String ep → bans c' !! a = bans c !! a).
  { intros c' a -> Ha. unfold c1. simpl. by rewrite lookup_insert_ne. }
  destruct (Z.ltb_spec 0 duration) as [Hd|Hd].
  2: { exists c1. split_and!; try done; [by intros; apply Hban|by intros; apply Hother|].
       intros h p Hp. simpl. by rewrite orb_false_r. }
  destruct (c_Slice order c1) as [l c2] eqn:HS.
  destruct (c_Slice_spec order c1 l c2) as (Hwf2 & Hp2 & Hh2 & _ & Hb2 & _ & _ & _ & Hl); [done..|].
  destruct (stop_loop_spec (λ p, bool_decide (peer_Endpoint p = ep)) (λ p, p) l c2 Hwf2)
    as (c3 & -> & Hwf3 & [Hp3 [Hb3 _] _ _ Hst]).
  exists c3. split_and!; try done.
  - intros t Ht. apply Hban; [congruence|done].
  - intros a Ha. apply Hother; [congruence|done].
  - intros h p Hp. rewrite Hst.
    assert (Hs : peer_state c2 p = peer_state c p) by (unfold peer_state; by rewrite Hh2).
    assert (is_stopped c2 p = is_stopped c p) as -> by (unfold is_stopped; by rewrite Hs).
    f_equal. apply bool_decide_ext. rewrite Hs, elem_of_list_to_set, list_elem_of_fmap. split.
    + intros [(q & Hq & [He Hin]%list_elem_of_filter) _]. apply bool_decide_eq_true in He.
      apply Hl in Hin. by rewrite (cw_refs _ Hwf _ _ p q Hp Hin Hq).
    + intros He. split; [|by apply (stored_on_heap c h)]. exists p. split; [done|].
      apply list_elem_of_filter. split; [by apply bool_decide_eq_true|]. apply Hl.
      by rewrite (Get_hash c h p).
Qed.

(** [banEndpoint]: a positive duration bans the endpoint until its end and stops
    exactly the connected peers of that endpoint; zero lifts the ban of the
    endpoint, which is then banned only as long as its address is.  It never
    panics and leaves all other bans alone. *)
Theorem banEndpoint_spec order ep duration now c :
  controller_wf c → is_order order →
  ∃ c', banEndpoint order ep duration now c = Ok c' ∧ controller_wf c' ∧
    (∀ t, now ≤ t → isBannedEndpoint t t c' ep =
      isBannedIP t c (IP ep) || (t <? now + duration)) ∧
    (∀ a, a ≠ Endpoint_String ep → bans c' !! a = bans c !! a) ∧
    (∀ h p, peers (c_peers c) !! h = Some p → is_stopped c' p =
       is_stopped c p || (0 <? duration) && bool_decide (peer_Endpoint p = ep)).
Proof. apply banEndpoint_lemma. Qed.

(** A ban through [ban] can cut short a longer ban of the endpoint: only the ban
    of the address is compared with the new one. *)
Theorem ban_shortens_endpoint_ban order hash duration now c peer existing :
  controller_wf c → is_order order → PeerStore_Get (c_peers c) hash = Some peer →
  bans c !! IP (peer_Endpoint peer) = None →
  bans c !! Endpoint_String (peer_Endpoint peer) = Some existing → now + duration < existing →
  ∃ c', ban order hash duration now c = Ok c' ∧
    isBannedEndpoint (now + duration) (now + duration) c (peer_Endpoint peer) = true ∧
    isBannedEndpoint (now + duration) (now + duration) c' (peer_Endpoint peer) = false.
Proof.
  intros Hwf Ho Hg Hip Hs Hlt.
  destruct (ban_lemma order hash duration now c peer Hwf Ho Hg) as (c' & Hb & _ & H1 & H2 & _).
  exists c'. split; [done|]. unfold isBannedEndpoint. rewrite H1, H2. unfold ban_until, ban_end.
  rewrite Hip, Hs. simpl. rewrite Z.max_id, Z.ltb_irrefl. split; [|done].
  rewrite (proj2 (Z.ltb_lt _ existing)) by done. apply orb_true_r.
Qed.

(** A map of bans that is nil, as a peer file whose bans are null leaves it: nobody is
    banned, and the first ban panics. *)
Theorem nil_bans_panic order hash duration now c peer ep :
  bans_nil c = true → PeerStore_Get (c_peers c) hash = Some peer →
  ban order hash duration now c = Panic ∧ banEndpoint order ep duration now c = Panic.
Proof. intros Hn Hg. unfold ban, banEndpoint, write_ban. rewrite Hg, Hn. done. Qed.

(** [disconnect] stops the peer of the hash and no other, and bans nobody. *)
Theorem disconnect_spec hash c :
  controller_wf c →
  ∃ c', disconnect hash c = Ok c' ∧ controller_wf c' ∧ bans c' = bans c ∧
    (∀ h p, peers (c_peers c) !! h = Some p →
      is_stopped c' p = is_stopped c p || bool_decide (h = hash)).
Proof.
  intros Hwf. unfold disconnect, PeerStore_Get.
  destruct (peers (c_peers c) !! hash) as [peer|] eqn:Hg.
  - destruct (Peer_Stop_spec peer c Hwf) as (c' & -> & Hwf' & [_ [Hb _] _ _ Hst]).
    exists c'. split_and!; try done. intros h p Hp. rewrite Hst. f_equal. apply bool_decide_ext.
    rewrite elem_of_singleton. split.
    + intros [Hr _]. rewrite <-(Get_hash c h p), <-(Get_hash c hash peer) by done.
      by rewrite (cw_refs _ Hwf _ _ _ _ Hp Hg Hr).
    + intros ->. simplify_eq. split; [done|by apply (stored_on_heap c hash)].
  - exists c. split_and!; try done. intros h p Hp. rewrite bool_decide_false; [by rewrite orb_false_r|].
    intros ->. congruence.
Qed.

(** ** Special endpoints *)

Lemma register_special_lookup eps m a :
  register_special eps m !! a =
    if decide (Exists (λ ep, a = Endpoint_String ep ∨ a = IP ep) eps) then Some true else m !! a.
Proof.
  revert m. induction eps as [|ep eps IH]; intros m; [done|]. cbn [register_special].
  rewrite IH. rewrite !lookup_insert.
  destruct (decide (Exists _ eps)) as [He|He].
  - rewrite decide_True by (by right). done.
  - destruct (decide (IP ep = a)) as [<-|Hip]; [by rewrite decide_True by (left; by right)|].
    destruct (decide (Endpoint_String ep = a)) as [<-|Hs]; [by rewrite decide_True by (left; by left)|].
    rewrite decide_False; [done|]. intros [[-> | ->]|]%Exists_cons; done.
Qed.

(** After [setSpecial] with a list of endpoints without IPv6 hosts, the special
    endpoints are the listed ones, in order, and the special addresses their IPs; an
    empty setting clears them, and one that does not parse changes nothing. *)
Theorem setSpecial_spec raw c :
  match parseSpecial raw with
  | Ok eps => raw ≠ EmptyString →
      specialEndpoints (setSpecial raw c) = eps ∧
      (Forall (λ ep, c_colon ∉ str_bytes (IP ep)) eps → ∀ ep, Endpoint_Valid ep = true →
        isSpecial (setSpecial raw c) ep = bool_decide (ep ∈ eps) ∧
        (c_colon ∉ str_bytes (IP ep) →
         isSpecialIP (setSpecial raw c) (IP ep) = bool_decide (IP ep ∈ IP <$> eps)))
  | _ => raw ≠ EmptyString → setSpecial raw c = c
  end ∧
  specialEndpoints (setSpecial EmptyString c) = [] ∧
  (∀ ep, isSpecial (setSpecial EmptyString c) ep = false).
Proof.
  split; [|split; [done|]]; [|intros ep; unfold isSpecial, setSpecial; rewrite bool_decide_true by done;
    simpl; by rewrite lookup_empty].
  unfold setSpecial. destruct (parseSpecial raw) as [eps|e| |] eqn:Hp;
    intros Hne; rewrite bool_decide_false by done; try done.
  split; [done|]. intros Hno ep Hv. rewrite Forall_forall in Hno.
  apply parseSpecial_items_Ok in Hp as [Hvs _]. rewrite Forall_forall in Hvs.
  assert (Hcolon : c_colon ∈ str_bytes (Endpoint_String ep)).
  { rewrite str_bytes_Endpoint_String. set_solver. }
  unfold isSpecial, isSpecialIP. cbn [set_special special].
  rewrite !register_special_lookup, !lookup_empty.
  split; [|intros Hip]; (destruct (decide _) as [He|He]; simpl; symmetry;
    [apply bool_decide_eq_true|apply bool_decide_eq_false]).
  - apply Exists_exists in He as (e & He & [Hs|Hs]).
    + by rewrite (Endpoint_String_inj ep e) by eauto.
    + exfalso. apply (Hno e He). by rewrite <-Hs.
  - intros Hin. apply He, Exists_exists. exists ep. eauto.
  - apply Exists_exists in He as (e & He & [Hs|Hs]).
    + exfalso. apply Hip. rewrite Hs, str_bytes_Endpoint_String. set_solver.
    + rewrite Hs. by apply list_elem_of_fmap_2.
  - intros (e & Hs & Hin)%list_elem_of_fmap. apply He, Exists_exists. eauto.
Qed.

(** ** The peer cache *)

Section Restart.
Context `{CacheJson}.

Lemma ban_end_filter now (b : gmap string Z) a t :
  now ≤ t → zero_time ≤ now →
  (t <? default zero_time (filter (λ kv, ¬ kv.2 < now) b !! a)) = (t <? default zero_time (b !! a)).
Proof.
  intros Ht Hz. rewrite map_lookup_filter. destruct (b !! a) as [e|]; simpl; [|done].
  case_guard as Hd; simpl; [done|]. assert (e < now) by lia.
  rewrite !(proj2 (Z.ltb_ge _ _)) by lia. done.
Qed.

(** What a node saves and finds again when it starts later, if the text of its cache
    reads back: the same bans from then on, and the endpoint of every peer that was
    connected.  Saving drops no ban in force. *)
Lemma restart_lemma conf order now now2 c old c' f :
  let pc := (createPeerCache order now c).1 in
  (∀ data, json_Marshal pc = Some data → json_Unmarshal data newPeerCache = Some pc) →
  controller_wf c → is_order order → zero_time ≤ now →
  (∀ a, now ≤ now2 a) → str_empty (PeerCacheFile conf) = false →
  writePeerCache conf order now true c old = (c', f, Ok tt) →
  ∃ b, (initial_cache conf now2 f).1 = Some b ∧
  (∀ a t, now2 a ≤ t → (t <? default zero_time (b !! a)) = isBannedIP t c a) ∧
  (∀ a t, now ≤ t → isBannedIP t c' a = isBannedIP t c a) ∧
  (∀ ep, ep ∈ (initial_cache conf now2 f).2 ↔
     ∃ h p, peers (c_peers c) !! h = Some p ∧ peer_Endpoint p = ep).
Proof.
  intros pc Hjson Hwf Ho Hz Hnow2 Hconf. unfold writePeerCache, initial_cache, controller_loadPeerCache.
  rewrite Hconf. unfold pc, createPeerCache in *. clear pc. set (live := filter _ (bans c)) in *.
  destruct (c_Slice order (set_bans live c)) as [l c2] eqn:HS. cbn [fst] in Hjson.
  destruct (c_Slice_spec order (set_bans live c) l c2) as (_ & _ & _ & _ & Hb & _ & _ & _ & Hl);
    [by apply set_bans_wf|done|done|]. simpl in Hb, Hl.
  unfold WriteToFile. destruct (json_Marshal _) as [data|] eqn:Hj; [|done].
  intros [= <- <-]. specialize (Hjson _ eq_refl). cbn [loadPeerCache]. rewrite Hjson, bind_Ok.
  cbn [fst snd prune_loaded Bans Peers]. unfold isBannedIP, ban_end. eexists. split; [done|]. split_and!.
  - intros a t Ht. specialize (Hnow2 a). rewrite <-(ban_end_filter now (bans c) a t) by lia. fold live.
    rewrite map_lookup_filter. destruct (live !! a) as [e|]; simpl; [|done].
    case_guard as Hd; simpl; [done|]. simpl in Hd.
    rewrite !(proj2 (Z.ltb_ge _ _)) by lia. done.
  - intros a t Ht. rewrite Hb. by apply ban_end_filter.
  - intros ep. rewrite list_elem_of_fmap. split.
    + intros (p & -> & Hp%Hl). by exists (Hash p), p.
    + intros (h & p & Hp & <-). exists p. split; [done|]. apply Hl. unfold PeerStore_Get.
      by rewrite (Get_hash c h p).
Qed.
End Restart.

(** ** Examples *)

(** no cache has a text *)
Definition no_json : CacheJson := {| json_Marshal _ := None; json_Unmarshal _ _ := None |}.

Definition fresh_state : PeerState :=
  MkPeerState false (Some (MkPHC [∅; ∅] 0 false)) (newParcelChannel 5) 0 0 0 0.
(** two connected peers from one address *)
Definition ctl_ab : controller :=
  MkController store_ab {[ 1%nat := fresh_state; 3%nat := fresh_state ]} [] ∅ false ∅ [].

Lemma store_ab_peers h p : peers store_ab !! h = Some p → p = peer_a ∨ p = peer_b.
Proof.
  assert (H : map_Forall (λ _ p, p = peer_a ∨ p = peer_b) (peers store_ab)).
  { apply (bool_decide_unpack _). by vm_compute. }
  apply H.
Qed.

Lemma ctl_ab_wf : controller_wf ctl_ab.
Proof.
  split.
  - apply reachable_wf, store_ab_reachable.
  - intros h p [->| ->]%store_ab_peers; apply (bool_decide_unpack _); by vm_compute.
  - intros h h' p q [->| ->]%store_ab_peers [->| ->]%store_ab_peers; simpl; done.
  - intros i st pr. unfold ctl_ab. simpl.
    rewrite lookup_insert, lookup_singleton. repeat case_decide; intros; simplify_eq/=; done.
  - done.
Qed.

Lemma is_order_id : is_order (λ l, l).
Proof. by intros l. Qed.

Theorem ban_spec_witness :
  ∃ c', ban (λ l, l) (Hash peer_a) 100 7 ctl_ab = Ok c' ∧ is_stopped c' peer_a = true ∧
    is_stopped c' peer_b = false ∧ isBannedEndpoint 106 106 c' (peer_Endpoint peer_b) = true.
Proof.
  destruct (ban_spec (λ l, l) (Hash peer_a) 100 7 ctl_ab peer_a) as (c' & Hb & _ & H1 & _ & _ & _ & H5 & H6);
    [apply ctl_ab_wf|apply is_order_id|by vm_compute|].
  exists c'. split; [exact Hb|]. split; [exact H5|]. split.
  - rewrite (H6 peer_b) by done. by vm_compute.
  - unfold isBannedEndpoint. change (IP (peer_Endpoint peer_b)) with (IP (peer_Endpoint peer_a)).
    rewrite H1. by vm_compute.
Defined.

Theorem banEndpoint_spec_witness :
  ∃ c', banEndpoint (λ l, l) ep_a 100 7 ctl_ab = Ok c' ∧ isBannedEndpoint 106 106 c' ep_a = true.
Proof.
  destruct (banEndpoint_spec (λ l, l) ep_a 100 7 ctl_ab) as (c' & Hb & _ & H1 & _);
    [apply ctl_ab_wf|apply is_order_id|].
  exists c'. split; [exact Hb|]. rewrite (H1 106) by lia. by vm_compute.
Defined.

Theorem ban_shortens_endpoint_ban_witness :
  let c := set_bans {[ Endpoint_String ep_a := 1000 ]} ctl_ab in
  ∃ c', ban (λ l, l) (Hash peer_a) 100 7 c = Ok c' ∧
    isBannedEndpoint (7 + 100) (7 + 100) c ep_a = true ∧
    isBannedEndpoint (7 + 100) (7 + 100) c' ep_a = false.
Proof.
  apply (ban_shortens_endpoint_ban (λ l, l) (Hash peer_a) 100 7
    (set_bans {[ Endpoint_String ep_a := 1000 ]} ctl_ab) peer_a 1000);
    [apply set_bans_wf, ctl_ab_wf|apply is_order_id|by vm_compute|by vm_compute|by vm_compute|lia].
Defined.

Theorem disconnect_spec_witness :
  ∃ c', disconnect (Hash peer_b) ctl_ab = Ok c' ∧ controller_wf c' ∧ bans c' = bans ctl_ab ∧
    (∀ h p, peers (c_peers ctl_ab) !! h = Some p →
      is_stopped c' p = is_stopped ctl_ab p || bool_decide (h = Hash peer_b)).
Proof. apply disconnect_spec, ctl_ab_wf. Defined.

Theorem setSpecial_spec_witness :
  specialEndpoints (setSpecial "52.17.183.121:8108" ctl_ab) = [ep_a] ∧
  isSpecial (setSpecial "52.17.183.121:8108" ctl_ab) ep_a = true.
Proof.
  destruct (setSpecial_spec "52.17.183.121:8108" ctl_ab) as [H _].
  assert (Hp : parseSpecial "52.17.183.121:8108" = Ok [ep_a]) by (by vm_compute).
  rewrite Hp in H. destruct H as [H1 H2]; [done|]. split; [exact H1|].
  destruct (H2 ltac:(apply (bool_decide_unpack _); by vm_compute) ep_a ltac:(by vm_compute)) as [H3 _].
  rewrite H3. by vm_compute.
Defined.

Theorem nil_bans_panic_witness :
  ban (λ l, l) (Hash peer_a) 100 7 (load_bans None ctl_ab) = Panic ∧
  banEndpoint (λ l, l) ep_a 100 7 (load_bans None ctl_ab) = Panic.
Proof. apply (nil_bans_panic (λ l, l) (Hash peer_a) 100 7 (load_bans None ctl_ab) peer_a ep_a); by vm_compute. Defined.
