(* ===== verification/Online.v ===== *)
(** * Peers coming online and going offline ([manageOnline], [Peer.Stop])

    One goroutine, [manageOnline], owns the peer store and reads [peerStatus], a
    channel of ten slots.  The handshakes announce new peers on it and [Peer.Stop]
    announces their end, each from its own goroutine, so a status may wait to be
    sent, and statuses may overtake each other. *)
From S2P Require Import Prelude GoStd Endpoint PeerStore Controller.

#[export] Instance peerStatus_eq_dec : EqDecision peerStatus.
Proof. solve_decision. Defined.

(** [make(chan peerStatus, 10)] *)
Definition status_cap : nat := 10.

Inductive manager :=
  | MIdle                       (* at the [select] *)
  | MStopping (old new : Peer). (* in [old.Stop()], about to send that [old] is offline *)

Record online_state := MkOnline {
  on_store : PeerStore;
  on_objects : gmap nat Peer;   (* the peers created so far, by address *)
  on_stopped : gset nat;        (* those whose [stopper] has run *)
  on_chan : list peerStatus;
  on_waiting : list peerStatus; (* goroutines about to send *)
  on_manager : manager;
}.

(** [c.peers.Add] when an error is only logged *)
Definition add_or_log (ps : PeerStore) (p : Peer) : PeerStore :=
  match PeerStore_Add ps (Some p) with Ok ps => ps | _ => ps end.

(** one step of [manageOnline]; [None] when it has to wait.  [old.Stop()] waits for
    a call of [Stop] that is still running in another goroutine ([sync.Once]): the
    one status that call is about to send is then the one the manager waits for. *)
Definition manageOnline_step (s : online_state) : option online_state :=
  match on_manager s with
  | MIdle =>
      match on_chan s with
      | [] => None
      | MkStatus p true :: chan =>
          match PeerStore_Get (on_store s) (Hash p) with
          | Some old =>
              if decide (peer_ref old ∈ on_stopped s) then
                if decide (MkStatus old false ∈ on_waiting s) then
                  Some (MkOnline (on_store s) (on_objects s) (on_stopped s) chan
                          (filter (λ st, st ≠ MkStatus old false) (on_waiting s)) (MStopping old p))
                else
                Some (MkOnline (add_or_log (PeerStore_Remove (on_store s) (Some old)) p)
                        (on_objects s) (on_stopped s) chan (on_waiting s) MIdle)
              else
                Some (MkOnline (on_store s) (on_objects s) ({[peer_ref old]} ∪ on_stopped s)
                        chan (on_waiting s) (MStopping old p))
          | None =>
              Some (MkOnline (add_or_log (on_store s) p) (on_objects s) (on_stopped s)
                      chan (on_waiting s) MIdle)
          end
      | MkStatus p false :: chan =>
          Some (MkOnline (PeerStore_Remove (on_store s) (Some p)) (on_objects s) (on_stopped s)
                  chan (on_waiting s) MIdle)
      end
  | MStopping old new =>
      if decide (length (on_chan s) < status_cap)%nat then
        Some (MkOnline (add_or_log (PeerStore_Remove (on_store s) (Some old)) new)
                (on_objects s) (on_stopped s) (on_chan s ++ [MkStatus old false]) (on_waiting s) MIdle)
      else None
  end.

Inductive action :=
  | AConnect (p : Peer)   (* a handshake succeeds and makes the peer [p] *)
  | AStop (p : Peer)      (* [p.Stop()] runs, in a goroutine other than the manager *)
  | ASend (i : nat)       (* the [i]-th waiting goroutine sends *)
  | AManager.

Definition online_step (s : online_state) (a : action) : option online_state :=
  match a with
  | AConnect p =>
      match on_objects s !! peer_ref p with
      | Some _ => None
      | None => Some (MkOnline (on_store s) (<[peer_ref p := p]> (on_objects s)) (on_stopped s)
                        (on_chan s) (on_waiting s ++ [MkStatus p true]) (on_manager s))
      end
  | AStop p =>
      if decide (on_objects s !! peer_ref p = Some p ∧ peer_ref p ∉ on_stopped s) then
        Some (MkOnline (on_store s) (on_objects s) ({[peer_ref p]} ∪ on_stopped s)
                (on_chan s) (on_waiting s ++ [MkStatus p false]) (on_manager s))
      else None
  | ASend i =>
      match on_waiting s !! i with
      | Some st =>
          if decide (length (on_chan s) < status_cap)%nat then
            Some (MkOnline (on_store s) (on_objects s) (on_stopped s) (on_chan s ++ [st])
                    (delete i (on_waiting s)) (on_manager s))
          else None
      | None => None
      end
  | AManager => manageOnline_step s
  end.

Definition online_init : online_state := MkOnline NewPeerStore ∅ ∅ [] [] MIdle.

Definition step (s s' : online_state) : Prop := ∃ a, online_step s a = Some s'.

Fixpoint online_exec (s : online_state) (l : list action) : option online_state :=
  match l with
  | [] => Some s
  | a :: l => match online_step s a with Some s => online_exec s l | None => None end
  end.

Lemma online_exec_rtc s l s' : online_exec s l = Some s' → rtc step s s'.
Proof.
  revert s. induction l as [|a l IH]; simpl; intros s H; [by simplify_eq|].
  destruct (online_step s a) as [s1|] eqn:Ha; [|done].
  eapply rtc_l; [by exists a|by apply IH].
Qed.

(** ** What always holds *)

#[local] Arguments PeerStore_Remove : simpl never.
#[local] Arguments PeerStore_Get : simpl never.
#[local] Arguments add_or_log : simpl never.

(** nothing the manager does is refused by the store *)
Record online_inv (s : online_state) : Prop := {
  oi_store : PeerStore_wf (on_store s);
  oi_chan : (length (on_chan s) ≤ status_cap)%nat;
  oi_manager : ∀ old new, on_manager s = MStopping old new →
    PeerStore_Get (on_store s) (Hash new) = Some old ∧ peer_ref old ∈ on_stopped s;
}.

Lemma add_or_log_wf ps p : PeerStore_wf ps → PeerStore_wf (add_or_log ps p).
Proof.
  intros Hwf. unfold add_or_log. destruct (PeerStore_Add ps (Some p)) eqn:HA; try done.
  by eapply Add_wf.
Qed.

Lemma Remove_Get ps p h :
  PeerStore_wf ps → PeerStore_Get ps h = Some p →
  peers (PeerStore_Remove ps (Some p)) = delete h (peers ps).
Proof.
  intros Hwf Hg. pose proof (wf_hash _ Hwf h p Hg) as Hh. unfold PeerStore_Remove, PeerStore_Get in *.
  rewrite Hh, Hg. by rewrite decide_True.
Qed.

Lemma add_or_log_peers ps p :
  PeerStore_Get ps (Hash p) = None → peers (add_or_log ps p) = <[Hash p := p]> (peers ps).
Proof. unfold add_or_log, PeerStore_Add, PeerStore_Get. by intros ->. Qed.

(** replacing the peer of a hash *)
Lemma replace_peers ps old new :
  PeerStore_wf ps → PeerStore_Get ps (Hash new) = Some old →
  peers (add_or_log (PeerStore_Remove ps (Some old)) new) = <[Hash new := new]> (peers ps).
Proof.
  intros Hwf Hg. pose proof (Remove_Get ps old _ Hwf Hg) as Hr.
  rewrite add_or_log_peers; [by rewrite Hr, insert_delete_eq|].
  unfold PeerStore_Get. by rewrite Hr, lookup_delete_eq.
Qed.

Lemma step_inv s s' : online_inv s → step s s' → online_inv s'.
Proof.
  intros [Hwf Hc Hm] [a Ha]. destruct a as [p|p|i|]; simpl in Ha.
  - destruct (on_objects s !! peer_ref p); simplify_eq. by split.
  - case_decide as Hd; simplify_eq. split; simpl; [done..|]. intros old new H.
    destruct (Hm old new H). split; [done|set_solver].
  - destruct (on_waiting s !! i); [|done]. case_decide; simplify_eq.
    split; simpl; [done| |done]. rewrite length_app. simpl. lia.
  - unfold manageOnline_step in Ha. destruct (on_manager s) as [|old new] eqn:Em.
    + destruct (on_chan s) as [|[p []] chan] eqn:Ec; simplify_eq; simpl in Hc.
      * destruct (PeerStore_Get (on_store s) (Hash p)) as [old|] eqn:Hg;
          [case_decide; [case_decide|]|]; simplify_eq; split; simpl; try done; try lia.
        -- by intros ? ? [= <- <-].
        -- by apply add_or_log_wf, Remove_wf.
        -- intros ? ? [= <- <-]. split; [done|set_solver].
        -- by apply add_or_log_wf.
      * split; simpl; [by apply Remove_wf|lia|done].
    + case_decide; simplify_eq. split; simpl; [by apply add_or_log_wf, Remove_wf| |done].
      rewrite length_app. simpl. lia.
Qed.

Lemma reachable_inv s : rtc step online_init s → online_inv s.
Proof.
  assert (Hi : online_inv online_init).
  { split; simpl; [apply NewPeerStore_wf|lia|done]. }
  intros H. induction H as [|s1 s2 s3 Hs _ IH]; [done|]. apply IH. by eapply step_inv.
Qed.

(** What [manageOnline] does with a status, in every reachable state: a peer that
    comes online ends up in the store under its hash, in place of a peer it may
    replace, which is stopped and reported offline first; the store never refuses
    it.  A peer that goes offline leaves the store only if it is the very object
    stored under its hash. *)
Theorem manageOnline_spec s s' :
  rtc step online_init s → manageOnline_step s = Some s' →
  PeerStore_wf (on_store s') ∧
  match on_manager s, on_chan s with
  | MIdle, MkStatus p true :: _ =>
      peers (on_store s') = <[Hash p := p]> (peers (on_store s)) ∧ on_manager s' = MIdle ∨
      ∃ old, PeerStore_Get (on_store s) (Hash p) = Some old ∧ on_manager s' = MStopping old p ∧
        on_stopped s' = {[peer_ref old]} ∪ on_stopped s ∧ on_store s' = on_store s
  | MIdle, MkStatus p false :: _ =>
      peers (on_store s') = if decide (PeerStore_Get (on_store s) (Hash p) = Some p)
                            then delete (Hash p) (peers (on_store s)) else peers (on_store s)
  | MStopping old new, _ =>
      peers (on_store s') = <[Hash new := new]> (peers (on_store s)) ∧
      on_chan s' = on_chan s ++ [MkStatus old false] ∧ on_manager s' = MIdle
  | MIdle, [] => False
  end.
Proof.
  intros Hr Hs. pose proof (reachable_inv s Hr) as Hinv.
  destruct (step_inv s s' Hinv ltac:(by exists AManager)) as [Hwf' _ _]. split; [done|].
  destruct Hinv as [Hwf _ Hm]. unfold manageOnline_step in Hs.
  destruct (on_manager s) as [|old new] eqn:Em.
  - destruct (on_chan s) as [|[p []] chan]; [done|..].
    + destruct (PeerStore_Get (on_store s) (Hash p)) as [old|] eqn:Hg;
        [case_decide; [case_decide|]|]; simplify_eq/=.
      * right. exists old. split_and!; [done|done|set_solver|done].
      * left. by rewrite replace_peers.
      * right. by exists old.
      * left. by rewrite add_or_log_peers.
    + simplify_eq/=. case_decide as Hg; [by rewrite (Remove_Get _ _ (Hash p))|].
      unfold PeerStore_Remove, PeerStore_Get in *.
      destruct (peers (on_store s) !! Hash p) as [old|]; [|done].
      by rewrite decide_False by congruence.
  - case_decide; simplify_eq/=. destruct (Hm old new eq_refl). by rewrite replace_peers.
Qed.

(** peers for the examples: [n] with its own hash, or the hash of another *)
Definition peer_n (ref : nat) (hash : string) : Peer := MkPeer ref hash ep_a true.
Definition zombie_run : list action :=
  [AConnect peer_a; AStop peer_a; ASend 1; ASend 0; AManager; AManager].

Theorem manageOnline_spec_witness :
  match online_exec online_init (take 4 zombie_run) with
  | Some s => match manageOnline_step s with
              | Some s' => PeerStore_wf (on_store s') ∧ on_manager s' = MIdle
              | None => False
              end
  | None => False
  end.
Proof.
  destruct (online_exec online_init (take 4 zombie_run)) as [s|] eqn:Hs; [|by vm_compute in Hs].
  destruct (manageOnline_step s) as [s'|] eqn:Hm.
  2: { vm_compute in Hs. injection Hs as <-. by vm_compute in Hm. }
  destruct (manageOnline_spec s s' (online_exec_rtc _ _ _ Hs) Hm) as [Hwf _]. split; [exact Hwf|].
  vm_compute in Hs. injection Hs as <-. vm_compute in Hm. by injection Hm as <-.
Defined.

(** a stopped peer that is stored, with no word about its name on the way *)
Record zombie (p : Peer) (s : online_state) : Prop := {
  zo_inv : online_inv s;
  zo_stored : PeerStore_Get (on_store s) (Hash p) = Some p;
  zo_stopped : peer_ref p ∈ on_stopped s;
  zo_objects q : on_objects s !! peer_ref q = Some q → Hash q = Hash p → q = p;
  zo_statuses st : st ∈ on_chan s ++ on_waiting s → Hash (st_peer st) ≠ Hash p;
  zo_manager old new : on_manager s = MStopping old new → Hash old ≠ Hash p ∧ Hash new ≠ Hash p;
}.

(** any step but the connection of a peer named [h] *)
Definition step_but (h : string) (s s' : online_state) : Prop :=
  ∃ a, online_step s a = Some s' ∧ ∀ q, a = AConnect q → Hash q ≠ h.

(** the manager leaves the names alone about which it hears nothing *)
Lemma manager_keeps s s' h :
  online_inv s → manageOnline_step s = Some s' →
  (∀ st, st ∈ on_chan s → Hash (st_peer st) ≠ h) →
  (∀ old new, on_manager s = MStopping old new → Hash new ≠ h) →
  PeerStore_Get (on_store s') h = PeerStore_Get (on_store s) h.
Proof.
  intros [Hwf _ Hm] Hs Hc Hn. unfold manageOnline_step in Hs.
  destruct (on_manager s) as [|old new] eqn:Em.
  - destruct (on_chan s) as [|[p []] chan] eqn:Ec; [done|..]; pose proof (Hc _ (list_elem_of_here _ _)) as Hp; simpl in Hp.
    + destruct (PeerStore_Get (on_store s) (Hash p)) as [old|] eqn:Hg;
        [case_decide; [case_decide|]|]; simplify_eq/=; try done.
      * unfold PeerStore_Get. by rewrite (replace_peers _ _ _ Hwf Hg), lookup_insert_ne.
      * unfold PeerStore_Get. by rewrite (add_or_log_peers _ _ Hg), lookup_insert_ne.
    + simplify_eq/=. unfold PeerStore_Get, PeerStore_Remove.
      destruct (peers (on_store s) !! Hash p); [|done]. case_decide; [|done]. simpl. by rewrite lookup_delete_ne.
  - case_decide; simplify_eq/=. destruct (Hm old new eq_refl) as [Hg _].
    unfold PeerStore_Get. rewrite (replace_peers _ _ _ Hwf Hg), lookup_insert_ne; [done|]. by eapply Hn.
Qed.

Lemma zombie_step p s s' : zombie p s → step_but (Hash p) s s' → zombie p s'.
Proof.
  intros [Hi Hg Hst Ho Hs Hm] (a & Ha & Hbut). pose proof (step_inv s s' Hi ltac:(by exists a)) as Hi'.
  destruct a as [q|q|i|]; simpl in Ha.
  - specialize (Hbut q eq_refl). destruct (on_objects s !! peer_ref q); simplify_eq. split; simpl; try done.
    + intros q'. rewrite lookup_insert. case_decide; [by intros [= ->]|apply Ho].
    + intros st. rewrite app_assoc, elem_of_app, list_elem_of_singleton. intros [?| ->]; [by apply Hs|done].
  - case_decide as Hd; simplify_eq. destruct Hd as [Hq Hr]. split; simpl; try done; [set_solver|].
    intros st. rewrite app_assoc, elem_of_app, list_elem_of_singleton. intros [?| ->]; [by apply Hs|].
    simpl. intros Hh. apply Hr. by rewrite (Ho q Hq Hh).
  - destruct (on_waiting s !! i) as [st|] eqn:Hw; [|done]. case_decide; simplify_eq. split; simpl; try done.
    intros st'. rewrite <-app_assoc. intros Hin. apply Hs. revert Hin. rewrite !elem_of_app, list_elem_of_singleton.
    intros [?|[->|Hin]]; [by left|right; by eapply list_elem_of_lookup_2|right].
    by eapply elem_of_submseteq; [exact Hin|apply submseteq_delete].
  - assert (Hg' : PeerStore_Get (on_store s') (Hash p) = Some p).
    { rewrite (manager_keeps s s' (Hash p) Hi Ha); [done|set_solver|]. intros old new Em. by apply (Hm old new Em). }
    unfold manageOnline_step in Ha. destruct (on_manager s) as [|old new] eqn:Em.
    + destruct (on_chan s) as [|[q up] chan] eqn:Ec; [done|].
      assert (Hq : Hash q ≠ Hash p) by (apply (Hs (MkStatus q up)); by left).
      assert (Hmem : ∀ st, st ∈ chan ++ on_waiting s → Hash (st_peer st) ≠ Hash p) by (intros; apply Hs; by right).
      destruct up; [|by simplify_eq; split].
      destruct (PeerStore_Get (on_store s) (Hash q)) as [old|] eqn:Hgq; [|by simplify_eq; split].
      pose proof (wf_hash _ (oi_store _ Hi) _ _ Hgq) as Hold.
      assert (Hman : ∀ o n, MStopping old q = MStopping o n → Hash o ≠ Hash p ∧ Hash n ≠ Hash p).
      { intros ? ? [= <- <-]. by rewrite Hold. }
      case_decide; [case_decide|]; simplify_eq; split; simpl in *; try done.
      * intros st. rewrite elem_of_app, list_elem_of_filter. intros Hin. apply Hmem. rewrite elem_of_app. tauto.
      * apply elem_of_union. by right.
    + destruct (Hm _ _ eq_refl) as [Hold Hnew]. case_decide; simplify_eq. split; simpl in *; try done.
      intros st. rewrite <-app_assoc, !elem_of_app, list_elem_of_singleton.
      intros [?|[->|?]]; [|done|]; apply Hs, elem_of_app; auto.
Qed.

(** [C26] Statuses may overtake each other: when the connection of a new peer fails
    before its handshake goroutine has announced it, the offline status can be
    handled first, and then the store holds a stopped peer although every status
    has been handled.  Whatever happens then, the peer stays in the store, stopped and
    with nothing on the way that would remove it, for as long as no other peer of the
    same name connects. *)
Theorem online_zombie :
  ∃ s p, rtc step online_init s ∧ on_chan s = [] ∧ on_waiting s = [] ∧ on_manager s = MIdle ∧
    ∀ s', rtc (step_but (Hash p)) s s' →
      PeerStore_Get (on_store s') (Hash p) = Some p ∧ peer_ref p ∈ on_stopped s' ∧
      MkStatus p false ∉ on_chan s' ++ on_waiting s' ∧ online_step s' (AStop p) = None.
Proof.
  destruct (online_exec online_init zombie_run) as [s|] eqn:Hs; [|by vm_compute in Hs].
  pose proof (online_exec_rtc _ _ _ Hs) as Hrtc. exists s, peer_a. split; [done|].
  assert (Ho : map_Forall (λ _ q, q = peer_a) (on_objects s)).
  { vm_compute in Hs. injection Hs as <-. apply (bool_decide_unpack _). by vm_compute. }
  assert (on_chan s = [] ∧ on_waiting s = [] ∧ on_manager s = MIdle ∧
    PeerStore_Get (on_store s) (Hash peer_a) = Some peer_a ∧ peer_ref peer_a ∈ on_stopped s)
    as (Hc & Hw & Hm & Hg & Hst).
  { clear Ho Hrtc. vm_compute in Hs. injection Hs as <-.
    by split_and!. }
  assert (Hz : zombie peer_a s).
  { split; [by apply reachable_inv|done|done| | |by rewrite Hm].
    - intros q Hq _. exact (Ho _ q Hq).
    - rewrite Hc, Hw. by intros st []%not_elem_of_nil. }
  split_and!; [done..|]. clear Hg Hst. intros s' Hr.
  assert (zombie peer_a s') as [_ Hg Hst _ Hsts _].
  { clear -Hz Hr. induction Hr as [|s1 s2 s3 Hstep _ IH]; [done|]. apply IH. by eapply zombie_step. }
  split_and!; [done|done|by intros Hin%Hsts|]. simpl. by rewrite decide_False by tauto.
Qed.

(** ** The deadlock of the manager *)

Definition stuck (old new : Peer) (q : list peerStatus) (s : online_state) : Prop :=
  on_manager s = MStopping old new ∧ on_chan s = q ∧ length q = status_cap.

Lemma stuck_step old new q s s' : stuck old new q s → step s s' → stuck old new q s'.
Proof.
  intros (Hm & Hc & Hl) [[p|p|i|] Ha]; simpl in Ha.
  - destruct (on_objects s !! peer_ref p); by simplify_eq.
  - case_decide; by simplify_eq.
  - destruct (on_waiting s !! i); [|done]. case_decide; [|done]. rewrite Hc, Hl in *. lia.
  - unfold manageOnline_step in Ha. rewrite Hm, Hc, Hl in Ha. done.
Qed.

Definition deadlock_run : list action :=
  [AConnect (peer_n 1 "a"); ASend 0; AManager; AConnect (peer_n 2 "a"); ASend 0] ++
  ((λ i, AConnect (peer_n (3 + i) "b")) <$> seq 0 10) ++ replicate 9 (ASend 0) ++
  [AManager; ASend 0].

(** [C27] [manageOnline] can block for ever: it stops a replaced peer itself, and that
    sends on the channel only it reads.  When ten statuses are queued by then, it
    waits for itself, and in every continuation the queue stays as it is. *)
Theorem manageOnline_deadlock :
  ∃ s old new, rtc step online_init s ∧ on_manager s = MStopping old new ∧
    ∀ s', rtc step s s' → on_manager s' = MStopping old new ∧ on_chan s' = on_chan s ∧
      on_chan s' ≠ [] ∧ manageOnline_step s' = None.
Proof.
  destruct (online_exec online_init deadlock_run) as [s|] eqn:Hs; [|by vm_compute in Hs].
  exists s, (peer_n 1 "a"), (peer_n 2 "a").
  assert (Hst : stuck (peer_n 1 "a") (peer_n 2 "a") (on_chan s) s).
  { vm_compute in Hs. injection Hs as <-. done. }
  split; [by eapply online_exec_rtc|]. split; [apply Hst|].
  intros s' Hr. assert (Hst' : stuck (peer_n 1 "a") (peer_n 2 "a") (on_chan s) s').
  { clear Hs. remember (on_chan s) as q. clear Heqq.
    induction Hr as [|s1 s2 s3 H1 _ IH]; [done|]. apply IH. by eapply stuck_step. }
  destruct Hst' as (Hm & Hc & Hl). split_and!; [done|done|rewrite Hc; by destruct (on_chan s)|].
  unfold manageOnline_step. rewrite Hm, Hc, Hl. done.
Qed.

(** ** When announcements keep their order

    The zombie needs the two statuses of a peer to swap.  As long as nobody stops a
    peer before it has been announced, every stopped peer leaves the store. *)
Definition orderly (s : online_state) (a : action) : Prop :=
  match a with AStop p => MkStatus p true ∉ on_waiting s | _ => True end.
Definition orderly_step (s s' : online_state) : Prop :=
  ∃ a, orderly s a ∧ online_step s a = Some s'.

(** the end of [p] is still to be handled *)
Definition end_pending (s : online_state) (p : Peer) : Prop :=
  MkStatus p false ∈ on_chan s ∨ MkStatus p false ∈ on_waiting s ∨
  ∃ new, on_manager s = MStopping p new.

Record orderly_inv (s : online_state) : Prop := {
  or_inv : online_inv s;
  or_stored_obj : ∀ h p, PeerStore_Get (on_store s) h = Some p → on_objects s !! peer_ref p = Some p;
  or_status_obj : ∀ st, st ∈ on_chan s ++ on_waiting s →
    on_objects s !! peer_ref (st_peer st) = Some (st_peer st);
  or_stopped_obj : ∀ i, i ∈ on_stopped s → is_Some (on_objects s !! i);
  or_new_obj : ∀ old new, on_manager s = MStopping old new → on_objects s !! peer_ref new = Some new;
  (* a peer is announced once: no online status of a peer that is stored or being added *)
  or_stored_once : ∀ h p, PeerStore_Get (on_store s) h = Some p →
    MkStatus p true ∉ on_chan s ++ on_waiting s;
  or_new_once : ∀ old new, on_manager s = MStopping old new →
    MkStatus new true ∉ on_chan s ++ on_waiting s;
  or_once : NoDup (filter (λ st, st_online st = true) (on_chan s ++ on_waiting s));
  (* stopped peers and their statuses *)
  or_waiting : ∀ p, MkStatus p true ∈ on_waiting s → peer_ref p ∉ on_stopped s;
  or_chan : ∀ p l1 l2, on_chan s = l1 ++ MkStatus p true :: l2 → peer_ref p ∈ on_stopped s →
    MkStatus p false ∈ l2 ∨ MkStatus p false ∈ on_waiting s;
  or_stored : ∀ h p, PeerStore_Get (on_store s) h = Some p → peer_ref p ∈ on_stopped s →
    end_pending s p;
  or_new : ∀ old new, on_manager s = MStopping old new → peer_ref new ∈ on_stopped s →
    MkStatus new false ∈ on_chan s ∨ MkStatus new false ∈ on_waiting s;
}.

Lemma connect_orderly s s' p : orderly_inv s → online_step s (AConnect p) = Some s' → orderly_inv s'.
Proof.
  intros [Hi Ho Hs Hso Hn Hso1 Hn1 H1 Hw Hc Hst Hnew] Ha.
  pose proof (step_inv s s' Hi ltac:(by exists (AConnect p))) as Hi'. simpl in Ha.
  destruct (on_objects s !! peer_ref p) eqn:Hp; simplify_eq.
  assert (Hne : ∀ q, on_objects s !! peer_ref q = Some q → peer_ref p ≠ peer_ref q ∧ p ≠ q).
  { intros q Hq. split; intros E; [rewrite E in Hp|subst q]; congruence. }
  split; simpl; try done.
  - intros h q Hq%Ho. rewrite lookup_insert_ne by by apply Hne. done.
  - intros st. rewrite app_assoc, elem_of_app, list_elem_of_singleton. intros [Hin| ->].
    + apply Hs in Hin. rewrite lookup_insert_ne by by apply Hne. done.
    + apply lookup_insert_eq.
  - intros i Hin%Hso. rewrite lookup_insert. case_decide; [by eexists|done].
  - intros old new Hm%Hn. rewrite lookup_insert_ne by by apply Hne. done.
  - intros h q Hq. rewrite app_assoc, not_elem_of_app, list_elem_of_singleton.
    split; [by eapply Hso1|]. intros [= ->]. by destruct (Hne p (Ho _ _ Hq)).
  - intros old new Hm. rewrite app_assoc, not_elem_of_app, list_elem_of_singleton.
    split; [by eapply Hn1|]. intros [= ->]. by destruct (Hne p (Hn _ _ Hm)).
  - rewrite app_assoc, filter_app. apply NoDup_app. split_and!; [done| |apply NoDup_singleton].
    intros st [_ Hin%Hs]%list_elem_of_filter [-> | []%not_elem_of_nil]%elem_of_cons.
    simpl in Hin. congruence.
  - intros q. rewrite elem_of_app, list_elem_of_singleton. intros [Hin|[= ->]]; [by apply Hw|].
    intros [x Hx]%Hso. congruence.
  - intros q l1 l2 Hq Hstop. destruct (Hc q l1 l2 Hq Hstop); [by left|right; set_solver].
  - intros h q Hq Hstop. destruct (Hst h q Hq Hstop) as [|[|]];
      [by left|right; left; set_solver|by right; right].
  - intros old new Hm Hstop. destruct (Hnew old new Hm Hstop); [by left|right; set_solver].
Qed.

Lemma stop_orderly s s' p :
  orderly_inv s → orderly s (AStop p) → online_step s (AStop p) = Some s' → orderly_inv s'.
Proof.
  intros [Hi Ho Hs Hso Hn Hso1 Hn1 H1 Hw Hc Hst Hnew] Hord Ha.
  pose proof (step_inv s s' Hi ltac:(by exists (AStop p))) as Hi'. simpl in Ha, Hord.
  case_decide as Hd; [|done]. destruct Hd as [Hp Hps]. simplify_eq.
  assert (Heq : ∀ q, on_objects s !! peer_ref q = Some q → peer_ref q = peer_ref p → q = p).
  { intros q Hq E. rewrite E in Hq. congruence. }
  assert (Hin : ∀ q, MkStatus q true ∈ on_chan s ++ on_waiting s ++ [MkStatus p false] ↔
    MkStatus q true ∈ on_chan s ++ on_waiting s) by (intros q; set_solver).
  split; simpl; try done.
  - intros st. rewrite app_assoc, elem_of_app, list_elem_of_singleton. intros [Hst'| ->]; [by apply Hs|done].
  - intros i [->%elem_of_singleton|Hi0]%elem_of_union; [by eexists|by apply Hso].
  - intros h q Hq. rewrite Hin. by eapply Hso1.
  - intros old new Hm. rewrite Hin. by eapply Hn1.
  - rewrite app_assoc, filter_app. simpl. by rewrite app_nil_r.
  - intros q Hq. assert (Hq' : MkStatus q true ∈ on_waiting s) by set_solver.
    apply not_elem_of_union. split; [|by apply Hw]. intros E%elem_of_singleton.
    apply Hord. rewrite <-(Heq q); [done| |done]. apply (Hs (MkStatus q true)). set_solver.
  - intros q l1 l2 Hq [E%elem_of_singleton|Hstop]%elem_of_union.
    + rewrite (Heq q); [right; set_solver| |done]. apply (Hs (MkStatus q true)). rewrite Hq. set_solver.
    + destruct (Hc q l1 l2 Hq Hstop); [by left|right; set_solver].
  - intros h q Hq [E%elem_of_singleton|Hstop]%elem_of_union.
    + rewrite (Heq q (Ho _ _ Hq) E). right. left. simpl. set_solver.
    + destruct (Hst h q Hq Hstop) as [|[|]]; [by left|right; left; simpl; set_solver|by right; right].
  - intros old new Hm [E%elem_of_singleton|Hstop]%elem_of_union.
    + rewrite (Heq new (Hn _ _ Hm) E). right. set_solver.
    + destruct (Hnew old new Hm Hstop); [by left|right; set_solver].
Qed.

Lemma app_snoc_inv {A} (l l1 l2 : list A) (x y : A) :
  l ++ [x] = l1 ++ y :: l2 →
  (x = y ∧ l2 = [] ∧ l = l1) ∨ ∃ l2', l2 = l2' ++ [x] ∧ l = l1 ++ y :: l2'.
Proof.
  destruct l2 as [|z l2 _] using rev_ind.
  - intros [-> ->]%app_inj_tail. by left.
  - rewrite app_comm_cons, app_assoc. intros [-> ->]%app_inj_tail. right. by exists l2.
Qed.

Lemma send_orderly s s' i : orderly_inv s → online_step s (ASend i) = Some s' → orderly_inv s'.
Proof.
  intros [Hi Ho Hs Hso Hn Hso1 Hn1 H1 Hw Hc Hst Hnew] Ha.
  pose proof (step_inv s s' Hi ltac:(by exists (ASend i))) as Hi'. simpl in Ha.
  destruct (on_waiting s !! i) as [st|] eqn:Hst0; [|done]. case_decide; simplify_eq.
  pose proof (delete_Permutation _ _ _ Hst0) as Hperm.
  assert (Hin : ∀ x, x ∈ on_waiting s ↔ x = st ∨ x ∈ delete i (on_waiting s)).
  { intros x. rewrite <-elem_of_cons. by apply elem_of_Permutation_proper. }
  assert (Hall : on_chan s ++ on_waiting s ≡ₚ (on_chan s ++ [st]) ++ delete i (on_waiting s)).
  { rewrite <-app_assoc. simpl. by f_equiv. }
  assert (Hmove : ∀ x, x ∈ on_waiting s → x ∈ on_chan s ++ [st] ∨ x ∈ delete i (on_waiting s)).
  { intros x. rewrite Hin. set_solver. }
  split; simpl; try done.
  - intros x. rewrite <-Hall. apply Hs.
  - intros h q Hq. rewrite <-Hall. by eapply Hso1.
  - intros old new Hm. rewrite <-Hall. by eapply Hn1.
  - by rewrite <-Hall.
  - intros q Hq. apply Hw, Hin. by right.
  - intros q l1 l2 Hq Hstop. apply app_snoc_inv in Hq as [(-> & -> & <-)|(l2' & -> & Hq)].
    + exfalso. apply (Hw q); [|done]. by eapply list_elem_of_lookup_2.
    + destruct (Hc q l1 l2' Hq Hstop) as [|[->|]%Hin]; [left; set_solver|left; set_solver|by right].
  - intros h q Hq Hstop. destruct (Hst h q Hq Hstop) as [|[Hq'|]]; simpl.
    + left. simpl. set_solver.
    + destruct (Hmove _ Hq'); [by left|by right; left].
    + by right; right.
  - intros old new Hm Hstop. destruct (Hnew old new Hm Hstop) as [|Hq']; [left; set_solver|].
    by apply Hmove.
Qed.

(** the manager puts [p] into the store, which then has [p] and what it had *)
Lemma insert_Get ps ps' p h q :
  peers ps' = <[Hash p := p]> (peers ps) →
  PeerStore_Get ps' h = Some q → q = p ∨ PeerStore_Get ps h = Some q.
Proof. unfold PeerStore_Get. intros ->. rewrite lookup_insert. case_decide; naive_solver. Qed.

Lemma announced_once s p chan :
  orderly_inv s → on_chan s = MkStatus p true :: chan → MkStatus p true ∉ chan ++ on_waiting s.
Proof.
  intros Hor Hc Hin. pose proof (or_once _ Hor) as H1. rewrite Hc in H1. cbn [app] in H1.
  rewrite filter_cons_True in H1 by done. apply NoDup_cons in H1 as [H1 _].
  apply H1, list_elem_of_filter. done.
Qed.

Lemma manager_add_orderly s p chan store :
  orderly_inv s → on_manager s = MIdle → on_chan s = MkStatus p true :: chan →
  peers store = <[Hash p := p]> (peers (on_store s)) →
  online_inv (MkOnline store (on_objects s) (on_stopped s) chan (on_waiting s) MIdle) →
  orderly_inv (MkOnline store (on_objects s) (on_stopped s) chan (on_waiting s) MIdle).
Proof.
  intros Hor Em Ec Hps Hi'. pose proof (announced_once s p chan Hor Ec) as Honce.
  destruct Hor as [Hi Ho Hs Hso Hn Hso1 Hn1 H1 Hw Hc Hst Hnew].
  assert (Hmem : ∀ x, x ∈ chan ++ on_waiting s → x ∈ on_chan s ++ on_waiting s) by (rewrite Ec; set_solver).
  assert (Hpo : on_objects s !! peer_ref p = Some p).
  { apply (Hs (MkStatus p true)). rewrite Ec. set_solver. }
  split; simpl; try done.
  - intros h q Hq. by destruct (insert_Get _ _ _ _ _ Hps Hq) as [->|?%Ho].
  - intros st Hin. by apply Hs, Hmem.
  - intros h q Hq. destruct (insert_Get _ _ _ _ _ Hps Hq) as [->|Hq']; [done|].
    intros Hin. by apply (Hso1 h q Hq'), Hmem.
  - rewrite Ec in H1. cbn [app] in H1. rewrite filter_cons_True in H1 by done.
    by apply NoDup_cons in H1 as [_ ?].
  - intros q l1 l2 Hq Hstop. apply (Hc q (MkStatus p true :: l1)); [|done]. by rewrite Ec, Hq.
  - intros h q Hq Hstop. destruct (insert_Get _ _ _ _ _ Hps Hq) as [->|Hq'].
    + destruct (Hc p [] chan Ec Hstop); [by left|by right; left].
    + destruct (Hst h q Hq' Hstop) as [Hin|[Hin|[new Hin]]]; [left|by right; left|congruence].
      rewrite Ec in Hin. simpl in *. set_solver.
Qed.

Lemma manager_replace_orderly s p chan old :
  orderly_inv s → on_manager s = MIdle → on_chan s = MkStatus p true :: chan →
  PeerStore_Get (on_store s) (Hash p) = Some old →
  let s' := MkOnline (on_store s) (on_objects s) ({[peer_ref old]} ∪ on_stopped s)
              chan (on_waiting s) (MStopping old p) in
  online_inv s' → orderly_inv s'.
Proof.
  intros Hor Em Ec Hg s' Hi'. pose proof (announced_once s p chan Hor Ec) as Honce.
  destruct Hor as [Hi Ho Hs Hso Hn Hso1 Hn1 H1 Hw Hc Hst Hnew].
  pose proof (Ho _ _ Hg) as Hold. pose proof (Hso1 _ _ Hg) as Hold1.
  assert (Hmem : ∀ x, x ∈ chan ++ on_waiting s → x ∈ on_chan s ++ on_waiting s) by (rewrite Ec; set_solver).
  assert (Heq : ∀ q, on_objects s !! peer_ref q = Some q → peer_ref q ∈ ({[peer_ref old]} : gset nat) → q = old).
  { intros q Hq E%elem_of_singleton. rewrite E in Hq. congruence. }
  assert (Hpo : on_objects s !! peer_ref p = Some p).
  { apply (Hs (MkStatus p true)). rewrite Ec. set_solver. }
  unfold s'. split; simpl; try done.
  - intros st Hin. by apply Hs, Hmem.
  - intros i [->%elem_of_singleton|Hin]%elem_of_union; [by eexists|by apply Hso].
  - by intros ? ? [= <- <-].
  - intros h q Hq Hin. by apply (Hso1 h q Hq), Hmem.
  - by intros ? ? [= <- <-].
  - rewrite Ec in H1. cbn [app] in H1. rewrite filter_cons_True in H1 by done.
    by apply NoDup_cons in H1 as [_ ?].
  - intros q Hq. apply not_elem_of_union. split; [|by apply Hw]. intros E%Heq.
    + subst q. apply Hold1. set_solver.
    + apply (Hs (MkStatus q true)). set_solver.
  - intros q l1 l2 Hq [E%Heq|Hstop]%elem_of_union.
    + subst q. exfalso. apply Hold1, Hmem. rewrite Hq. set_solver.
    + apply (Hs (MkStatus q true)), Hmem. rewrite Hq. set_solver.
    + apply (Hc q (MkStatus p true :: l1)); [|done]. by rewrite Ec, Hq.
  - intros h q Hq [E%Heq|Hstop]%elem_of_union; [subst q; by right; right; exists p|by eapply Ho|].
    destruct (Hst h q Hq Hstop) as [Hin|[Hin|[new Hin]]]; [left|by right; left|congruence].
    rewrite Ec in Hin. simpl in *. set_solver.
  - intros ? ? [= <- <-] [E%Heq|Hstop]%elem_of_union; [|done|].
    + exfalso. apply Hold1. rewrite Ec, <-E. set_solver.
    + by apply (Hc p [] chan).
Qed.

Lemma manager_takeover_orderly s p chan old :
  orderly_inv s → on_manager s = MIdle → on_chan s = MkStatus p true :: chan →
  PeerStore_Get (on_store s) (Hash p) = Some old →
  let waiting := filter (λ st, st ≠ MkStatus old false) (on_waiting s) in
  let s' := MkOnline (on_store s) (on_objects s) (on_stopped s) chan waiting (MStopping old p) in
  online_inv s' → orderly_inv s'.
Proof.
  intros Hor Em Ec Hg waiting s' Hi'. pose proof (announced_once s p chan Hor Ec) as Honce.
  destruct Hor as [Hi Ho Hs Hso Hn Hso1 Hn1 H1 Hw Hc Hst Hnew].
  pose proof (Hso1 _ _ Hg) as Hold1.
  assert (Hin : ∀ x, x ∈ waiting ↔ x ≠ MkStatus old false ∧ x ∈ on_waiting s).
  { intros x. unfold waiting. by rewrite list_elem_of_filter. }
  assert (Hsub : ∀ x, x ∈ chan ++ waiting → x ∈ chan ++ on_waiting s).
  { intros x. rewrite !elem_of_app, Hin. naive_solver. }
  assert (Hmem : ∀ x, x ∈ chan ++ on_waiting s → x ∈ on_chan s ++ on_waiting s) by (rewrite Ec; set_solver).
  assert (Hmove : ∀ q, q ≠ old → MkStatus q false ∈ on_waiting s → MkStatus q false ∈ waiting).
  { intros q Hq. rewrite Hin. naive_solver. }
  unfold s'. split; simpl; try done.
  - intros st Hx. by apply Hs, Hmem, Hsub.
  - intros ? ? [= <- <-]. apply (Hs (MkStatus p true)). rewrite Ec. set_solver.
  - intros h q Hq Hx. by apply (Hso1 h q Hq), Hmem, Hsub.
  - intros ? ? [= <- <-]. by intros ?%Hsub.
  - rewrite Ec in H1. cbn [app] in H1. rewrite filter_cons_True in H1 by done.
    apply NoDup_cons in H1 as [_ H1]. rewrite filter_app in *. unfold waiting.
    by rewrite list_filter_filter_l by (by intros ? H ->).
  - intros q [_ Hq]%Hin. by apply Hw.
  - intros q l1 l2 Hq Hstop. assert (q ≠ old).
    { intros ->. apply Hold1, Hmem. rewrite Hq. set_solver. }
    destruct (Hc q (MkStatus p true :: l1) l2) as [|]; [by rewrite Ec, Hq|done|by left|right; by apply Hmove].
  - intros h q Hq Hstop. destruct (decide (q = old)) as [->|]; [by right; right; exists p|].
    destruct (Hst h q Hq Hstop) as [Hx|[Hx|[new Hx]]]; [left|right; left; by apply Hmove|congruence].
    rewrite Ec in Hx. simpl in *. set_solver.
  - intros ? ? [= <- <-] Hstop. assert (p ≠ old).
    { intros ->. apply Hold1. rewrite Ec. set_solver. }
    destruct (Hc p [] chan Ec Hstop); [by left|right; by apply Hmove].
Qed.

Lemma manager_offline_orderly s p chan :
  orderly_inv s → on_manager s = MIdle → on_chan s = MkStatus p false :: chan →
  let s' := MkOnline (PeerStore_Remove (on_store s) (Some p)) (on_objects s) (on_stopped s)
              chan (on_waiting s) MIdle in
  online_inv s' → orderly_inv s'.
Proof.
  intros [Hi Ho Hs Hso Hn Hso1 Hn1 H1 Hw Hc Hst Hnew] Em Ec s' Hi'. destruct Hi as [Hwf _ _].
  assert (Hmem : ∀ x, x ∈ chan ++ on_waiting s → x ∈ on_chan s ++ on_waiting s) by (rewrite Ec; set_solver).
  assert (Hget : ∀ h q, PeerStore_Get (PeerStore_Remove (on_store s) (Some p)) h = Some q →
    PeerStore_Get (on_store s) h = Some q ∧ q ≠ p).
  { intros h q Hq. destruct (decide (PeerStore_Get (on_store s) (Hash p) = Some p)) as [Hg|Hg].
    - unfold PeerStore_Get in Hq. rewrite (Remove_Get _ _ _ Hwf Hg) in Hq.
      apply lookup_delete_Some in Hq as [Hne Hq]. split; [done|]. intros ->.
      by rewrite (wf_hash _ Hwf _ _ Hq) in Hne.
    - assert (PeerStore_Remove (on_store s) (Some p) = on_store s) as E.
      { unfold PeerStore_Remove, PeerStore_Get in *.
        destruct (peers (on_store s) !! Hash p); [|done]. by rewrite decide_False by congruence. }
      rewrite E in Hq. split; [done|]. intros ->. apply Hg.
      by rewrite (wf_hash _ Hwf _ _ Hq). }
  unfold s'. split; simpl; try done.
  - intros h q [Hq _]%Hget. by eapply Ho.
  - intros st Hin. by apply Hs, Hmem.
  - intros h q [Hq _]%Hget Hin. by apply (Hso1 h q Hq), Hmem.
  - rewrite Ec in H1. cbn [app] in H1. by rewrite filter_cons_False in H1.
  - intros q l1 l2 Hq Hstop. apply (Hc q (MkStatus p false :: l1)); [|done]. by rewrite Ec, Hq.
  - intros h q [Hq Hne]%Hget Hstop.
    destruct (Hst h q Hq Hstop) as [Hin|[Hin|[new Hin]]]; [left|by right; left|congruence].
    rewrite Ec in Hin. apply elem_of_cons in Hin as [[= ->]|]; [done|simpl; done].
Qed.

Lemma manager_finish_orderly s old new store :
  orderly_inv s → on_manager s = MStopping old new →
  peers store = <[Hash new := new]> (peers (on_store s)) →
  let s' := MkOnline store (on_objects s) (on_stopped s) (on_chan s ++ [MkStatus old false])
              (on_waiting s) MIdle in
  online_inv s' → orderly_inv s'.
Proof.
  intros [Hi Ho Hs Hso Hn Hso1 Hn1 H1 Hw Hc Hst Hnew] Em Hps s' Hi'.
  destruct (oi_manager _ Hi _ _ Em) as [Hg _].
  assert (Hmem : ∀ q, MkStatus q true ∈ (on_chan s ++ [MkStatus old false]) ++ on_waiting s →
    MkStatus q true ∈ on_chan s ++ on_waiting s) by (intros q; set_solver).
  unfold s'. split; simpl; try done.
  - intros h q Hq. destruct (insert_Get _ _ _ _ _ Hps Hq) as [->|?%Ho]; [by eapply Hn|done].
  - intros st Hin. destruct (decide (st = MkStatus old false)) as [->|]; [by eapply Ho|].
    apply Hs. set_solver.
  - intros h q Hq Hin%Hmem. destruct (insert_Get _ _ _ _ _ Hps Hq) as [->|Hq'];
      [by eapply Hn1|by eapply Hso1].
  - rewrite !filter_app in *. simpl. by rewrite app_nil_r.
  - intros q l1 l2 Hq Hstop. apply app_snoc_inv in Hq as [(? & _)|(l2' & -> & Hq)]; [done|].
    destruct (Hc q l1 l2' Hq Hstop); [left; set_solver|by right].
  - intros h q Hq Hstop. destruct (insert_Get _ _ _ _ _ Hps Hq) as [->|Hq'].
    + destruct (Hnew _ _ Em Hstop); [left; simpl; set_solver|by right; left].
    + destruct (Hst h q Hq' Hstop) as [|[|[new' Hm]]]; [left; simpl; set_solver|by right; left|].
      left. simpl. rewrite Em in Hm. injection Hm as <- <-. set_solver.
Qed.

Lemma manager_orderly s s' : orderly_inv s → online_step s AManager = Some s' → orderly_inv s'.
Proof.
  intros Hor Ha. pose proof (or_inv _ Hor) as Hi.
  pose proof (step_inv s s' Hi ltac:(by exists AManager)) as Hi'. simpl in Ha.
  destruct Hi as [Hwf _ Hm]. unfold manageOnline_step in Ha.
  destruct (on_manager s) as [|old new] eqn:Em.
  - destruct (on_chan s) as [|[p []] chan] eqn:Ec; [done|..].
    + destruct (PeerStore_Get (on_store s) (Hash p)) as [old|] eqn:Hg;
        [case_decide; [case_decide|]|]; simplify_eq.
      * by apply manager_takeover_orderly.
      * apply (manager_add_orderly s p); [done|done|done|by apply replace_peers|done].
      * by apply manager_replace_orderly.
      * apply (manager_add_orderly s p); [done|done|done|by apply add_or_log_peers|done].
    + simplify_eq. by apply manager_offline_orderly.
  - case_decide; simplify_eq. destruct (Hm _ _ eq_refl).
    apply (manager_finish_orderly s old new); [done|done|by apply replace_peers|done].
Qed.

Lemma orderly_reachable s : rtc orderly_step online_init s → orderly_inv s.
Proof.
  assert (Hi : orderly_inv online_init).
  { split; simpl; try done; try (intros; set_solver).
    - split; simpl; [apply NewPeerStore_wf|lia|done].
    - apply NoDup_nil_2. }
  intros H. induction H as [|s1 s2 s3 [[p|p|i|] [Hord Hs]] _ IH]; [done|..]; apply IH.
  - by eapply connect_orderly.
  - by eapply stop_orderly.
  - by eapply send_orderly.
  - by eapply manager_orderly.
Qed.

(** [C10] While nobody stops a peer before it is announced, the store forgets every
    peer that has been stopped: a stopped peer that is still stored has its offline
    status on the way, so once all statuses have been handled only running peers
    are stored. *)
Theorem orderly_no_zombie s h p :
  rtc orderly_step online_init s → PeerStore_Get (on_store s) h = Some p →
  peer_ref p ∈ on_stopped s →
  (MkStatus p false ∈ on_chan s ∨ MkStatus p false ∈ on_waiting s ∨
   ∃ new, on_manager s = MStopping p new) ∧
  ¬ (on_chan s = [] ∧ on_waiting s = [] ∧ on_manager s = MIdle).
Proof.
  intros Hr Hg Hstop. pose proof (or_stored _ (orderly_reachable s Hr) h p Hg Hstop) as Hp.
  split; [exact Hp|]. intros (Hc & Hw & Hm). unfold end_pending in Hp. rewrite Hc, Hw, Hm in Hp.
  destruct Hp as [Hin|[Hin|[new Hin]]]; [set_solver..|done].
Qed.

#[export] Instance orderly_dec s a : Decision (orderly s a).
Proof. destruct a; simpl; apply _. Defined.

Fixpoint orderly_exec (s : online_state) (l : list action) : option online_state :=
  match l with
  | [] => Some s
  | a :: l =>
      if decide (orderly s a) then
        match online_step s a with Some s => orderly_exec s l | None => None end
      else None
  end.

Lemma orderly_exec_rtc s l s' : orderly_exec s l = Some s' → rtc orderly_step s s'.
Proof.
  revert s. induction l as [|a l IH]; simpl; intros s H; [by simplify_eq|].
  case_decide; [|done]. destruct (online_step s a) as [s1|] eqn:Ha; [|done].
  eapply rtc_l; [by exists a|by apply IH].
Qed.

Theorem orderly_no_zombie_witness :
  match orderly_exec online_init [AConnect peer_a; ASend 0; AManager; AStop peer_a] with
  | Some s => PeerStore_Get (on_store s) (Hash peer_a) = Some peer_a ∧
      (MkStatus peer_a false ∈ on_chan s ∨ MkStatus peer_a false ∈ on_waiting s ∨
       ∃ new, on_manager s = MStopping peer_a new)
  | None => False
  end.
Proof.
  destruct (orderly_exec _ _) as [s|] eqn:Hs; [|by vm_compute in Hs].
  assert (Hg : PeerStore_Get (on_store s) (Hash peer_a) = Some peer_a).
  { vm_compute in Hs. injection Hs as <-. reflexivity. }
  split; [exact Hg|].
  destruct (orderly_no_zombie s (Hash peer_a) peer_a) as [H _]; [by eapply orderly_exec_rtc|done| |exact H].
  vm_compute in Hs. injection Hs as <-. reflexivity.
Defined.
