(* ===== verification/Routing.v ===== *)
(** * Routing parcels to peers ([controller_routing.go])

    Which peers a parcel from the application goes to: all, some at random besides
    the special ones, one at random, or the one it is addressed to; peers that
    have sent the same payload themselves are left out when the filter is on. *)
From S2P Require Import Prelude GoStd Sha Endpoint Parcel ParcelChannel PeerHashCache Configuration PeerStore.
From S2P Require Import Controller Rng.

Section Routing.
Context {G : Type} `{Rng G}.
Context (order : list Peer → list Peer).

(** [p.resend.Has(hash)]: the cache is a nil pointer unless the filter is on *)
Definition resend_Has (c : controller) (p : Peer) (hash : Digest) : outcome () bool :=
  match peer_state c p ≫= ps_resend with
  | Some pr => PeerHashCache_Has pr hash
  | None => Panic
  end.

Fixpoint no_resend_loop (c : controller) (hash : Digest) (l : list Peer) : outcome () (list Peer) :=
  match l with
  | [] => Ok []
  | p :: l =>
      resend_Has c p hash ≫= λ has : bool,
      no_resend_loop c hash l ≫= λ filtered,
      Ok (if has then filtered else p :: filtered)
  end.

Definition selectNoResendPeers (payload : list byte) (c : controller)
    : outcome () (list Peer * controller) :=
  let (all, c) := c_Slice order c in
  if zlen all =? 0 then Ok ([], c)
  else no_resend_loop c (sha1_Sum payload) all ≫= λ l, Ok (l, c).

Definition selectBroadcastPeers (c : controller) (peers : list Peer) (fanout : Z) (g : G)
    : list Peer * G :=
  if zlen peers <=? fanout then (peers, g)
  else
    let special := filter (λ p, isSpecial c (peer_Endpoint p) = true) peers in
    let regular := filter (λ p, isSpecial c (peer_Endpoint p) = false) peers in
    if zlen regular <? fanout then (special ++ regular, g)
    else
      let (regular, g) := Shuffle regular g in
      (special ++ take (Z.to_nat fanout) regular, g).

(** [peers[rng.Intn(len(peers))]] *)
Definition pick (peers : list Peer) (g : G) : outcome () (Peer * G) :=
  Intn (zlen peers) g ≫= λ '(i, g),
  match peers !! Z.to_nat i with Some p => Ok (p, g) | None => Panic end.

Definition randomPeer (c : controller) (g : G) : outcome () (option Peer * controller * G) :=
  let (peers, c) := c_Slice order c in
  if 0 <? zlen peers then pick peers g ≫= λ '(p, g), Ok (Some p, c, g) else Ok (None, c, g).

Definition randomPeerConditional (condition : Peer → bool) (c : controller) (g : G)
    : outcome () (option Peer * controller * G) :=
  let (peers, c) := c_Slice order c in
  let filtered := filter (λ p, condition p = true) peers in
  if 0 <? zlen filtered then pick filtered g ≫= λ '(p, g), Ok (Some p, c, g) else Ok (None, c, g).

(** [for _, p := range selection { p.Send(parcel) }] *)
Fixpoint send_loop (parcel : Parcel) (l : list Peer) (c : controller) : outcome () controller :=
  match l with
  | [] => Ok c
  | p :: l => Peer_Send p (Some parcel) c ≫= send_loop parcel l
  end.

Definition broadcast_selection (conf : Configuration) (payload : list byte) (c : controller)
    : outcome () (list Peer * controller) :=
  if PeerResendFilter conf then selectNoResendPeers payload c else Ok (c_Slice order c).

(** one turn of [route], for the parcel it has received *)
Definition route (conf : Configuration) (parcel : Parcel) (c : controller) (g : G)
    : outcome () (controller * G) :=
  if bool_decide (Address parcel = FullBroadcast) then
    broadcast_selection conf (Payload parcel) c ≫= λ '(selection, c),
    send_loop parcel selection c ≫= λ c, Ok (c, g)
  else if bool_decide (Address parcel = Broadcast) then
    broadcast_selection conf (Payload parcel) c ≫= λ '(selection, c),
    let (selection, g) := selectBroadcastPeers c selection (Fanout conf) g in
    send_loop parcel selection c ≫= λ c, Ok (c, g)
  else if bool_decide (Address parcel = EmptyString) || bool_decide (Address parcel = RandomPeer) then
    randomPeer c g ≫= λ '(random, c, g),
    match random with
    | Some p => Peer_Send p (Some parcel) c ≫= λ c, Ok (c, g)
    | None => Ok (c, g)
    end
  else
    match PeerStore_Get (c_peers c) (Address parcel) with
    | Some p => Peer_Send p (Some parcel) c ≫= λ c, Ok (c, g)
    | None => Ok (c, g)
    end.

(** ** The selections *)

Lemma special_regular (P : Peer → bool) l :
  filter (λ p, P p = true) l ++ filter (λ p, P p = false) l ≡ₚ l.
Proof.
  induction l as [|p l IH]; [done|]. rewrite !filter_cons. destruct (P p) eqn:E; simpl.
  - by rewrite IH.
  - by rewrite <-Permutation_middle, IH.
Qed.

Lemma selectBroadcastPeers_lemma c peers fanout g :
  0 ≤ fanout →
  let special := filter (λ p, isSpecial c (peer_Endpoint p) = true) peers in
  let regular := filter (λ p, isSpecial c (peer_Endpoint p) = false) peers in
  let l := (selectBroadcastPeers c peers fanout g).1 in
  l ⊆+ peers ∧ special ⊆+ l ∧
  zlen l = Z.min (zlen peers) (zlen special + Z.min fanout (zlen regular)).
Proof.
  intros Hf special regular l. unfold l, selectBroadcastPeers. fold special regular.
  pose proof (special_regular (λ p, isSpecial c (peer_Endpoint p)) peers) as Hp.
  cbv beta in Hp. fold special regular in Hp.
  assert (Hlen : zlen peers = zlen special + zlen regular).
  { rewrite <-zlen_app. unfold zlen. by rewrite Hp. }
  pose proof (zlen_nonneg special). pose proof (zlen_nonneg regular).
  destruct (Z.leb_spec (zlen peers) fanout).
  { simpl. split_and!; [done| |lia]. rewrite <-Hp. by apply submseteq_inserts_r. }
  destruct (Z.ltb_spec (zlen regular) fanout).
  { simpl. split_and!; [by rewrite Hp|by apply submseteq_inserts_r|]. rewrite zlen_app. lia. }
  pose proof (Shuffle_Permutation regular g) as Hs. destruct (Shuffle regular g) as [r g']. simpl in *.
  split_and!.
  - rewrite <-Hp. apply submseteq_app; [done|]. rewrite <-Hs. apply submseteq_take.
  - by apply submseteq_inserts_r.
  - rewrite zlen_app. unfold zlen at 2. rewrite length_take, Hs. unfold zlen in *. lia.
Qed.

(** The peers chosen for a broadcast are among those offered, none twice; every
    special one is chosen, and [fanout] of the others, or all others if they are
    fewer (with at most [fanout] offered, everybody is chosen). *)
Theorem selectBroadcastPeers_spec c peers fanout g :
  0 ≤ fanout →
  let special := filter (λ p, isSpecial c (peer_Endpoint p) = true) peers in
  let regular := filter (λ p, isSpecial c (peer_Endpoint p) = false) peers in
  let l := (selectBroadcastPeers c peers fanout g).1 in
  l ⊆+ peers ∧ special ⊆+ l ∧
  zlen l = Z.min (zlen peers) (zlen special + Z.min fanout (zlen regular)).
Proof. apply selectBroadcastPeers_lemma. Qed.

(** the caches of the peers, when the filter is on *)
Definition caches_ok (c : controller) : Prop :=
  ∀ h p, peers (c_peers c) !! h = Some p →
    ∃ st pr, peer_state c p = Some st ∧ ps_resend st = Some pr ∧ phc_wf pr.

Definition has_sent (c : controller) (p : Peer) (hash : Digest) : bool :=
  match peer_state c p ≫= ps_resend with Some pr => spec_has (phc_view pr) hash | None => false end.

Lemma no_resend_loop_spec c hash l :
  (∀ p, p ∈ l → ∃ st pr, peer_state c p = Some st ∧ ps_resend st = Some pr ∧ phc_wf pr) →
  no_resend_loop c hash l = Ok (filter (λ p, has_sent c p hash = false) l).
Proof.
  induction l as [|p l IH]; intros Hl; [done|]. cbn [no_resend_loop].
  destruct (Hl p) as (st & pr & Hp & Hpr & Hwf); [by left|].
  assert (resend_Has c p hash = Ok (has_sent c p hash)) as ->.
  { unfold resend_Has, has_sent. rewrite Hp. simpl. rewrite Hpr. by apply Has_view. }
  rewrite bind_Ok, IH by (intros; apply Hl; by right). rewrite bind_Ok, filter_cons.
  by destruct (has_sent c p hash).
Qed.

(** [c'] is [c] but for the cached slice of its peers *)
Record sliced (c c' : controller) : Prop := {
  sl_peers : peers (c_peers c') = peers (c_peers c);
  sl_heap : heap c' = heap c;
  sl_rest : statuses c' = statuses c ∧ bans c' = bans c ∧ special c' = special c;
}.

Lemma c_Slice_sliced c l c' :
  controller_wf c → is_order order → c_Slice order c = (l, c') →
  sliced c c' ∧ NoDup l ∧ (∀ p, p ∈ l ↔ PeerStore_Get (c_peers c) (Hash p) = Some p).
Proof.
  intros Hwf Ho HS. destruct (c_Slice_spec order c l c' Hwf Ho HS) as (_ & ? & ? & ? & ? & ? & _ & ? & ?).
  done.
Qed.

Lemma selectNoResendPeers_lemma payload c :
  controller_wf c → is_order order → caches_ok c →
  ∃ l c', selectNoResendPeers payload c = Ok (l, c') ∧ sliced c c' ∧ NoDup l ∧
    ∀ p, p ∈ l ↔ PeerStore_Get (c_peers c) (Hash p) = Some p ∧ has_sent c p (sha1_Sum payload) = false.
Proof.
  intros Hwf Ho Hc. unfold selectNoResendPeers. destruct (c_Slice order c) as [all c1] eqn:HS.
  destruct (c_Slice_sliced c all c1 Hwf Ho HS) as (Hsl & Hnd & Hin). pose proof (sl_heap _ _ Hsl) as Hh.
  assert (Hsent : ∀ p hash, has_sent c1 p hash = has_sent c p hash).
  { intros p hash. unfold has_sent, peer_state. by rewrite Hh. }
  destruct (Z.eqb_spec (zlen all) 0) as [H0|_].
  - apply zlen_0 in H0. subst all. exists [], c1. split_and!; [done|done|done|].
    intros p. rewrite <-Hin. set_solver.
  - rewrite no_resend_loop_spec.
    + eexists _, c1. split_and!; [done|done|by apply NoDup_filter|].
      intros p. rewrite list_elem_of_filter, Hin, Hsent. tauto.
    + intros p Hp%Hin. destruct (Hc _ _ Hp) as (st & pr & Hst & ? & ?). exists st, pr.
      split; [|done]. unfold peer_state in *. by rewrite Hh.
Qed.

(** The resend filter keeps exactly the connected peers that have not themselves
    sent the payload, as far as their caches remember, and never panics when every
    peer has a cache. *)
Theorem selectNoResendPeers_spec payload c :
  controller_wf c → is_order order → caches_ok c →
  ∃ l c', selectNoResendPeers payload c = Ok (l, c') ∧ NoDup l ∧
    ∀ p, p ∈ l ↔ PeerStore_Get (c_peers c) (Hash p) = Some p ∧ has_sent c p (sha1_Sum payload) = false.
Proof.
  intros Hwf Ho Hc. destruct (selectNoResendPeers_lemma payload c Hwf Ho Hc) as (l & c' & ? & _ & ?).
  by exists l, c'.
Qed.

(** ** Delivery *)

(** the channels of running peers are open, and have room for a parcel *)
Definition channels_ok (c : controller) : Prop :=
  ∀ i st, heap c !! i = Some st → ps_stopped st = false →
    pc_closed (ps_send st) = false ∧ pc_wf (ps_send st) ∧ 0 < pc_cap (ps_send st).

(** exactly the running peers of [l] get [parcel], at the end of their channels, and
    otherwise lose at most their oldest parcels *)
Record delivered (parcel : Parcel) (l : list Peer) (c c' : controller) : Prop := {
  dl_peers : peers (c_peers c') = peers (c_peers c);
  dl_rest : statuses c' = statuses c ∧ bans c' = bans c ∧ special c' = special c;
  dl_in p st : p ∈ l → peer_state c p = Some st → ps_stopped st = false →
    ∃ st' k, peer_state c' p = Some st' ∧ ps_stopped st' = false ∧ ps_resend st' = ps_resend st ∧
      pc_items (ps_send st') = drop k (pc_items (ps_send st)) ++ [Some parcel];
  dl_out i : i ∉ peer_ref <$> l ∨ (∃ st, heap c !! i = Some st ∧ ps_stopped st = true) →
    heap c' !! i = heap c !! i;
}.

Lemma Peer_Send_delivered parcel p c :
  channels_ok c →
  ∃ c', Peer_Send p (Some parcel) c = Ok c' ∧ channels_ok c' ∧ delivered parcel [p] c c'.
Proof.
  intros Hch. rewrite Peer_Send_eq. unfold Peer_put. destruct (peer_state c p) as [st|] eqn:Hp.
  2: { exists c. split_and!; [done..|]. split; [done|done| |done].
       intros q st ->%list_elem_of_singleton. congruence. }
  destruct (ps_stopped st) eqn:Hs.
  { exists c. split_and!; [done..|]. split; [done|done| |done].
    intros q st' ->%list_elem_of_singleton. congruence. }
  destruct (Hch _ _ Hp Hs) as (Hopen & Hwf & Hcap).
  destruct (Send_open (ps_send st) (Some parcel) Hwf Hcap Hopen) as [HS Hwf'].
  rewrite HS, bind_Ok. eexists. split; [done|]. unfold peer_state in Hp. split.
  - intros i st'. simpl. rewrite lookup_insert. case_decide as Hi; [|apply Hch].
    intros [= <-] _. done.
  - split; simpl; [done|done|..].
    + intros q st' ->%list_elem_of_singleton Hq Hs'. unfold peer_state in *. simpl.
      rewrite lookup_insert_eq. simplify_eq. eexists _, _. split; [done|]. done.
    + intros i [Hi|(st' & Hi & Hs')].
      * rewrite lookup_insert_ne; [done|]. intros <-. apply Hi. simpl. by left.
      * rewrite lookup_insert_ne; [done|]. congruence.
Qed.

Lemma send_loop_delivered parcel l c :
  channels_ok c → NoDup (peer_ref <$> l) →
  ∃ c', send_loop parcel l c = Ok c' ∧ channels_ok c' ∧ delivered parcel l c c'.
Proof.
  intros Hch Hnd. revert c Hch. induction l as [|p l IH]; intros c Hch.
  { exists c. split_and!; [done..|]. split; try done. intros p st []%not_elem_of_nil. }
  rewrite fmap_cons in Hnd. apply NoDup_cons in Hnd as [Hp Hnd].
  destruct (Peer_Send_delivered parcel p c Hch) as (c1 & Hs & Hch1 & [Hp1 (?&?&?) Hin1 Hout1]).
  destruct (IH Hnd c1 Hch1) as (c2 & Hl & Hch2 & [Hp2 (?&?&?) Hin2 Hout2]).
  exists c2. cbn [send_loop]. rewrite Hs, bind_Ok. split_and!; [done..|].
  split; [congruence|split_and!; congruence|..].
  - intros q st [->|Hq]%elem_of_cons Hst Hrun.
    + destruct (Hin1 p st) as (st' & k & Hst' & Hr & Hres & Hi); [by left|done|done|].
      exists st', k. unfold peer_state in *. rewrite Hout2 by by left. done.
    + assert (Hne : peer_ref q ∉ peer_ref <$> [p]).
      { simpl. intros E%list_elem_of_singleton. apply Hp. rewrite <-E. by apply list_elem_of_fmap_2. }
      destruct (Hin2 q st Hq) as (st' & k & Hst'); [|done|by exists st', k].
      unfold peer_state in *. rewrite Hout1; [done|by left].
  - intros i Hi. rewrite Hout2, Hout1; [done|..].
    + destruct Hi as [Hi|Hi]; [left|by right]. simpl. intros E%list_elem_of_singleton.
      apply Hi. rewrite fmap_cons. subst i. by left.
    + destruct Hi as [Hi|(st & Hi & Hs')]; [left; rewrite fmap_cons in Hi; set_solver|].
      right. exists st. split; [|done]. rewrite Hout1; [done|]. right. by exists st.
Qed.

(** the addresses of stored peers are distinct *)
Lemma stored_refs c l :
  controller_wf c → NoDup l → (∀ p, p ∈ l → PeerStore_Get (c_peers c) (Hash p) = Some p) →
  NoDup (peer_ref <$> l).
Proof.
  intros Hwf Hnd Hl. apply NoDup_fmap_2_strong; [|done].
  intros p q Hp%Hl Hq%Hl. by apply (cw_refs _ Hwf (Hash p) (Hash q)).
Qed.

(** the peers a parcel is offered to *)
Definition eligible (conf : Configuration) (payload : list byte) (c : controller) (p : Peer) : Prop :=
  PeerStore_Get (c_peers c) (Hash p) = Some p ∧
  (PeerResendFilter conf = true → has_sent c p (sha1_Sum payload) = false).

(** [l] are the peers [route] may send a parcel for [address] to *)
Definition route_targets (conf : Configuration) (parcel : Parcel) (c : controller) (l : list Peer) : Prop :=
  if bool_decide (Address parcel = FullBroadcast) then
    ∀ p, p ∈ l ↔ eligible conf (Payload parcel) c p
  else if bool_decide (Address parcel = Broadcast) then
    ∃ all, NoDup all ∧ (∀ p, p ∈ all ↔ eligible conf (Payload parcel) c p) ∧
      let special := filter (λ p, isSpecial c (peer_Endpoint p) = true) all in
      let regular := filter (λ p, isSpecial c (peer_Endpoint p) = false) all in
      l ⊆+ all ∧ special ⊆+ l ∧
      zlen l = Z.min (zlen all) (zlen special + Z.min (Fanout conf) (zlen regular))
  else if bool_decide (Address parcel = EmptyString) || bool_decide (Address parcel = RandomPeer) then
    (PeerStore_Total (c_peers c) = 0 ∧ l = []) ∨
    ∃ p, l = [p] ∧ PeerStore_Get (c_peers c) (Hash p) = Some p
  else l = option_list (PeerStore_Get (c_peers c) (Address parcel)).

Lemma broadcast_selection_spec conf payload c :
  controller_wf c → is_order order → (PeerResendFilter conf = true → caches_ok c) →
  ∃ l c', broadcast_selection conf payload c = Ok (l, c') ∧ sliced c c' ∧ NoDup l ∧
    ∀ p, p ∈ l ↔ eligible conf payload c p.
Proof.
  intros Hwf Ho Hc. unfold broadcast_selection, eligible. destruct (PeerResendFilter conf).
  - destruct (selectNoResendPeers_lemma payload c Hwf Ho (Hc eq_refl)) as (l & c' & ? & ? & ? & Hin).
    exists l, c'. split_and!; try done. intros p. rewrite Hin. naive_solver.
  - destruct (c_Slice order c) as [l c'] eqn:HS.
    destruct (c_Slice_sliced c l c' Hwf Ho HS) as (? & ? & Hin). exists l, c'.
    split_and!; try done. intros p. rewrite Hin. naive_solver.
Qed.

Lemma delivered_sliced parcel l c c1 c2 :
  sliced c c1 → delivered parcel l c1 c2 → delivered parcel l c c2.
Proof.
  intros [Hp1 Hh1 (?&?&?)] [Hp2 (?&?&?) Hin Hout]. split; [congruence|split_and!; congruence|..].
  - intros p st. unfold peer_state. rewrite <-Hh1. apply Hin.
  - intros i. rewrite <-Hh1. apply Hout.
Qed.

Lemma channels_sliced c c1 : sliced c c1 → channels_ok c → channels_ok c1.
Proof. intros [_ Hh _] Hc i st. rewrite Hh. apply Hc. Qed.

Lemma pick_spec l g : 0 < zlen l → ∃ p g', pick l g = Ok (p, g') ∧ p ∈ l.
Proof.
  intros Hl. unfold pick. destruct (Intn_Ok (zlen l) g Hl) as (i & g' & -> & Hi). rewrite bind_Ok.
  unfold zlen in Hi. destruct (lookup_lt_is_Some_2 l (Z.to_nat i)) as [p Hp]; [lia|].
  exists p, g'. rewrite Hp. split; [done|]. by eapply list_elem_of_lookup_2.
Qed.

Lemma randomPeer_spec c g :
  controller_wf c → is_order order →
  ∃ r c' g', randomPeer c g = Ok (r, c', g') ∧ sliced c c' ∧
    match r with
    | Some p => PeerStore_Get (c_peers c) (Hash p) = Some p
    | None => PeerStore_Total (c_peers c) = 0
    end.
Proof.
  intros Hwf Ho. unfold randomPeer. destruct (c_Slice order c) as [l c'] eqn:HS.
  destruct (c_Slice_sliced c l c' Hwf Ho HS) as (Hsl & Hnd & Hin).
  destruct (Z.ltb_spec 0 (zlen l)) as [Hl|Hl].
  - destruct (pick_spec l g Hl) as (p & g' & -> & Hp%Hin). rewrite bind_Ok. by eexists (Some p), c', g'.
  - exists None, c', g. split_and!; [done..|]. pose proof (zlen_nonneg l).
    assert (l = []) as -> by (apply zlen_0; lia). unfold PeerStore_Total.
    enough (peers (c_peers c) = ∅) as -> by by rewrite map_size_empty.
    apply map_empty. intros h. destruct (peers (c_peers c) !! h) as [p|] eqn:Hp; [|done].
    exfalso. apply (not_elem_of_nil p), Hin. by rewrite (Get_hash c h p).
Qed.

End Routing.

(** ** Examples *)

Lemma ctl_ab_heap i st : heap ctl_ab !! i = Some st → st = fresh_state.
Proof. unfold ctl_ab. simpl. rewrite lookup_insert, lookup_singleton. repeat case_decide; naive_solver. Qed.

Lemma ctl_ab_channels : channels_ok ctl_ab.
Proof.
  intros i st ->%ctl_ab_heap _. simpl. split; [done|]. unfold pc_wf, zlen. simpl. lia.
Qed.

Lemma ctl_ab_caches : caches_ok ctl_ab.
Proof.
  intros h p [->| ->]%store_ab_peers; eexists _, _;
    (split; [reflexivity|split; [reflexivity|unfold phc_wf, zlen; simpl; lia]]).
Qed.

Theorem selectBroadcastPeers_spec_witness :
  let l := (selectBroadcastPeers ctl_ab [peer_a; peer_b] 1 7).1 in
  l ⊆+ [peer_a; peer_b] ∧ zlen l = 1.
Proof.
  destruct (selectBroadcastPeers_spec ctl_ab [peer_a; peer_b] 1 7 ltac:(lia)) as (H1 & _ & H3).
  split; [exact H1|]. rewrite H3. by vm_compute.
Defined.

Theorem selectNoResendPeers_spec_witness :
  ∃ l c', selectNoResendPeers (λ l, l) [x61] ctl_ab = Ok (l, c') ∧ NoDup l ∧
    ∀ p, p ∈ l ↔ PeerStore_Get (c_peers ctl_ab) (Hash p) = Some p ∧
      has_sent ctl_ab p (sha1_Sum [x61]) = false.
Proof. apply selectNoResendPeers_spec; [apply ctl_ab_wf|apply is_order_id|apply ctl_ab_caches]. Defined.

