(* ===== verification/Cat.v ===== *)
(** * The CAT rounds and peer sharing ([controller_cat.go])

    Once per round some peers are dropped at random so that the network mixes;
    peers tell each other about endpoints; the replenish loop dials new ones. *)
From S2P Require Import Prelude GoStd Endpoint Parcel ParcelChannel PeerHashCache Configuration PeerStore.
From S2P Require Import Handshake Stream Protocol Controller Rng.

Record cat := MkCat {
  cat_ctl : controller;
  lastRound : Z;
  rounds : Z;     (* int *)
}.

Section Cat.
Context {G : Type} `{Rng G}.
Context (order : list Peer → list Peer).
Context (conf : Configuration).

(** [for _, i := range perm { ... peers[i] ... }]: the peers in the order of a
    permutation of their indices; an index out of range panics *)
Fixpoint peers_at (peers : list Peer) (perm : list nat) : outcome () (list Peer) :=
  match perm with
  | [] => Ok []
  | i :: perm =>
      match peers !! i with
      | Some p => peers_at peers perm ≫= λ l, Ok (p :: l)
      | None => Panic
      end
  end.

(** the loop that stops peers, [dropped] of them so far *)
Fixpoint drop_peers (toDrop dropped : Z) (l : list Peer) (c : controller) : outcome () controller :=
  match l with
  | [] => Ok c
  | p :: l =>
      if isSpecial c (peer_Endpoint p) then drop_peers toDrop dropped l c
      else
        Peer_Stop p c ≫= λ c,
        let dropped := dropped + 1 in
        if toDrop <=? dropped then Ok c else drop_peers toDrop dropped l c
  end.

(** [runCatRound]; an error of writing the cache is only logged *)
Definition runCatRound `{CacheJson} (now now' now_cache : Z) (writes : bool) (f : file) (s : cat) (g : G)
    : outcome () (cat * file * G) :=
  if time_since now (lastRound s) <? RoundTime conf then Ok (s, f, g)
  else
    let '(c, f, _) := writePeerCache conf order now_cache writes (cat_ctl s) f in
    let (peers, c) := c_Slice order c in
    let toDrop := zlen peers - i64 (DropTo conf) in
    (if 0 <? toDrop then
       let (perm, g) := Perm (length peers) g in
       peers_at peers perm ≫= λ l,
       drop_peers toDrop 0 l c ≫= λ c, Ok (c, g)
     else Ok (c, g)) ≫= λ '(c, g),
    Ok (MkCat c now' (i64 (rounds s + 1)), f, g).

(** ** Peer shares *)

(** the loop of [processPeerShare]: nil as soon as an endpoint is invalid *)
Fixpoint share_loop (now : Z) (c : controller) (l res : list Endpoint) : list Endpoint :=
  match l with
  | [] => res
  | ep :: l =>
      if negb (Endpoint_Valid ep) then []
      else share_loop now c l (if isBannedEndpoint now now c ep then res else res ++ [ep])
  end.

Definition processPeerShare {P} `{Protocol P} (prot : P) (now : Z) (c : controller) (parcel : Parcel)
    : list Endpoint :=
  match ParsePeerShare prot (Payload parcel) with
  | Ok l => share_loop now c l []
  | _ => []
  end.

(** [uint(len(list))] is compared with the [uint] of the configuration *)
Definition shuffleTrimShare (l : list Endpoint) (g : G) : list Endpoint * G :=
  if zlen l =? 0 then ([], g)
  else
    let (l, g) := Shuffle l g in
    (if PeerShareAmount conf <? zlen l then take (Z.to_nat (PeerShareAmount conf)) l else l, g).

Fixpoint make_share_loop (exclude : Endpoint) (l : list Peer) (acc : list Endpoint) : list Endpoint :=
  match l with
  | [] => acc
  | p :: l =>
      if Endpoint_Equal exclude (peer_Endpoint p) then make_share_loop exclude l acc
      else
        let acc := acc ++ [peer_Endpoint p] in
        if PeerShareAmount conf <=? zlen acc then acc else make_share_loop exclude l acc
  end.

Definition makePeerShare (exclude : Endpoint) (c : controller) (g : G)
    : outcome () (list Endpoint * controller * G) :=
  let (peers, c) := c_Slice order c in
  let (perm, g) := Perm (length peers) g in
  peers_at peers perm ≫= λ l, Ok (make_share_loop exclude l [], c, g).

Definition sharePeers {P} `{Protocol P} (prot : P) (peer : Peer) (l : list Endpoint) (c : controller)
    : outcome () controller :=
  match MakePeerShare prot l with
  | Ok payload =>
      if zlen payload =? 0 then Ok c
      else Peer_Send peer (Some (newParcel TypePeerResponse payload)) c
  | Err _ => Ok c
  | Panic => Panic
  | OutOfFuel => OutOfFuel
  end.

(** ** Peers in random order *)

Lemma peers_at_spec peers perm :
  perm ≡ₚ seq 0 (length peers) → ∃ l, peers_at peers perm = Ok l ∧ l ≡ₚ peers.
Proof.
  intros Hperm.
  assert (Hin : ∀ perm', (∀ i, i ∈ perm' → (i < length peers)%nat) →
    peers_at peers perm' = Ok (perm' ≫= λ i, option_list (peers !! i))).
  { clear. intros perm'. induction perm' as [|i perm' IH]; intros Hi; [done|]. cbn [peers_at].
    destruct (lookup_lt_is_Some_2 peers i) as [p Hp]; [apply Hi; by left|].
    rewrite Hp, IH by (intros; apply Hi; by right). cbn [mbind list_bind]. rewrite Hp. done. }
  eexists. split.
  - apply Hin. intros i. rewrite (elem_of_Permutation_proper _ _ _ Hperm), elem_of_seq. lia.
  - rewrite Hperm. by apply reflexive_eq, (seq_elements []).
Qed.

Lemma random_order peers g :
  ∃ l, peers_at peers (Perm (length peers) g).1 = Ok l ∧ l ≡ₚ peers.
Proof. apply peers_at_spec, Perm_Permutation. Qed.

Lemma drop_peers_spec toDrop dropped l c :
  controller_wf c → dropped < toDrop →
  ∃ c', drop_peers toDrop dropped l c = Ok c' ∧ controller_wf c' ∧
    stops (list_to_set (peer_ref <$>
      take (Z.to_nat (toDrop - dropped)) (filter (λ p, isSpecial c (peer_Endpoint p) = false) l))) c c'.
Proof.
  revert c dropped. induction l as [|p l IH]; intros c dropped Hwf Hd.
  { exists c. rewrite filter_nil, take_nil. split_and!; [done..|apply stops_refl]. }
  cbn [drop_peers]. rewrite filter_cons. destruct (isSpecial c (peer_Endpoint p)) eqn:Hs.
  { rewrite decide_False by done. by apply IH. }
  rewrite decide_True by done.
  destruct (Peer_Stop_spec p c Hwf) as (c1 & -> & Hwf1 & Hst1). rewrite bind_Ok. cbv zeta.
  assert (Z.to_nat (toDrop - dropped) = S (Z.to_nat (toDrop - (dropped + 1)))) as -> by lia.
  cbn [take]. rewrite fmap_cons. cbn [list_to_set].
  destruct (Z.leb_spec toDrop (dropped + 1)).
  - exists c1. split_and!; [done..|]. replace (Z.to_nat (toDrop - (dropped + 1))) with 0%nat by lia.
    rewrite take_0. simpl. by rewrite union_empty_r_L.
  - destruct (IH c1 (dropped + 1) Hwf1) as (c2 & -> & Hwf2 & Hst2); [lia|].
    exists c2. split_and!; [done..|]. apply (stops_trans _ _ _ c1); [done|].
    destruct (stops_special _ _ _ Hst1) as [Hsp _]. unfold isSpecial in *. by rewrite Hsp in Hst2.
Qed.

Lemma writePeerCache_frame `{CacheJson} now writes c f c' f' r :
  controller_wf c → is_order order → writePeerCache conf order now writes c f = (c', f', r) →
  controller_wf c' ∧ peers (c_peers c') = peers (c_peers c) ∧ heap c' = heap c ∧ special c' = special c.
Proof.
  intros Hwf Ho. unfold writePeerCache. destruct (str_empty (PeerCacheFile conf)); [by intros [= <- <- <-]|].
  unfold createPeerCache. destruct (c_Slice order (set_bans _ c)) as [l c1] eqn:HS.
  destruct (c_Slice_spec order _ l c1 (set_bans_wf _ _ Hwf) Ho HS) as (? & ? & ? & _ & _ & ? & _).
  destruct (WriteToFile _ _ f) as [f1 r1]. by intros [= <- <- <-].
Qed.

(** [C16] A CAT round: once [RoundTime] has passed, the round drops as many peers as
    exceed [DropTo], chosen among those that are not special (all of these if they
    are fewer), and stops nobody else; before that it does nothing.  It never
    panics. *)
Theorem runCatRound_spec `{CacheJson} now now' now_cache writes f s g :
  controller_wf (cat_ctl s) → is_order order → 0 ≤ DropTo conf < 2 ^ 63 →
  if time_since now (lastRound s) <? RoundTime conf
  then runCatRound now now' now_cache writes f s g = Ok (s, f, g)
  else
    ∃ c' f' g' all D,
      runCatRound now now' now_cache writes f s g = Ok (MkCat c' now' (i64 (rounds s + 1)), f', g') ∧
      controller_wf c' ∧ NoDup all ∧
      (∀ p, p ∈ all ↔ PeerStore_Get (c_peers (cat_ctl s)) (Hash p) = Some p) ∧
      D ⊆+ filter (λ p, isSpecial (cat_ctl s) (peer_Endpoint p) = false) all ∧
      zlen D = Z.max 0 (Z.min (zlen all - DropTo conf)
        (zlen (filter (λ p, isSpecial (cat_ctl s) (peer_Endpoint p) = false) all))) ∧
      (∀ p, p ∈ all → is_stopped c' p = is_stopped (cat_ctl s) p || bool_decide (p ∈ D)).
Proof.
  intros Hwf Ho Hdrop. unfold runCatRound. destruct (_ <? RoundTime conf); [done|].
  destruct (writePeerCache conf order now_cache writes (cat_ctl s) f) as [[c1 f1] r1] eqn:HW.
  destruct (writePeerCache_frame _ _ _ _ _ _ _ Hwf Ho HW) as (Hwf1 & Hp1 & Hh1 & Hsp1).
  destruct (c_Slice order c1) as [all c2] eqn:HS.
  destruct (c_Slice_spec order c1 all c2 Hwf1 Ho HS) as (Hwf2 & Hp2 & Hh2 & _ & _ & Hsp2 & _ & Hnd & Hin).
  assert (Hin' : ∀ p, p ∈ all ↔ PeerStore_Get (c_peers (cat_ctl s)) (Hash p) = Some p).
  { intros p. rewrite Hin. unfold PeerStore_Get. by rewrite Hp1. }
  assert (Hstop : ∀ p, is_stopped c2 p = is_stopped (cat_ctl s) p).
  { intros p. unfold is_stopped, peer_state. by rewrite Hh2, Hh1. }
  assert (Hspec : ∀ p, isSpecial c2 (peer_Endpoint p) = isSpecial (cat_ctl s) (peer_Endpoint p)).
  { intros p. unfold isSpecial. by rewrite Hsp2, Hsp1. }
  rewrite (i64_id (DropTo conf)) by (unfold is_i64; lia). pose proof (zlen_nonneg all).
  set (reg := filter (λ p, isSpecial (cat_ctl s) (peer_Endpoint p) = false) all).
  assert (zlen reg ≤ zlen all) by apply Nat2Z.inj_le, length_filter.
  pose proof (zlen_nonneg reg).
  destruct (Z.ltb_spec 0 (zlen all - DropTo conf)) as [Hd|Hd].
  2: { rewrite bind_Ok. exists c2, f1, g, all, []. split_and!; try done.
       - apply submseteq_nil_l.
       - rewrite zlen_nil. lia.
       - intros p _. rewrite Hstop, bool_decide_false by apply not_elem_of_nil. by rewrite orb_false_r. }
  destruct (random_order all g) as (l & Hl & Hperm). destruct (Perm (length all) g) as [perm g'].
  simpl in Hl. rewrite Hl, bind_Ok.
  destruct (drop_peers_spec (zlen all - DropTo conf) 0 l c2 Hwf2) as (c3 & -> & Hwf3 & Hst); [lia|].
  rewrite Z.sub_0_r in Hst. rewrite bind_Ok, bind_Ok.
  set (D := take _ _) in Hst. exists c3, f1, g', all, D.
  assert (HD : filter (λ p, isSpecial c2 (peer_Endpoint p) = false) l ≡ₚ reg).
  { rewrite (list_filter_iff _ (λ p, isSpecial (cat_ctl s) (peer_Endpoint p) = false) l)
      by (intros p; by rewrite Hspec). unfold reg. by rewrite Hperm. }
  assert (Hsub : D ⊆+ reg) by (unfold D; rewrite <-HD; apply submseteq_take).
  change (filter (λ p, isSpecial (cat_ctl s) (peer_Endpoint p) = false) all) with reg.
  split_and!; try done.
  - unfold D, zlen at 1. rewrite length_take, HD. unfold zlen in *. lia.
  - intros p Hp. rewrite (stops_stopped _ _ _ Hst), Hstop. f_equal. apply bool_decide_ext.
    rewrite elem_of_list_to_set, list_elem_of_fmap. split.
    + intros [(q & Hq & HqD) _]. enough (p = q) by by subst.
      apply Hin' in Hp.
      pose proof (elem_of_submseteq _ _ _ HqD Hsub) as [_ Hq']%list_elem_of_filter.
      apply Hin' in Hq'. by apply (cw_refs _ Hwf _ _ p q Hp Hq').
    + intros HpD. split; [by exists p|]. unfold peer_state. rewrite Hh2, Hh1.
      apply Hin' in Hp. by apply (stored_on_heap (cat_ctl s) (Hash p)).
Qed.

(** ** Shares *)

Lemma make_share_loop_spec exclude l acc :
  zlen acc < PeerShareAmount conf →
  make_share_loop exclude l acc =
    acc ++ take (Z.to_nat (PeerShareAmount conf - zlen acc))
             (peer_Endpoint <$> filter (λ p, peer_Endpoint p ≠ exclude) l).
Proof.
  revert acc. induction l as [|p l IH]; intros acc Hacc.
  { by rewrite filter_nil, fmap_nil, take_nil, app_nil_r. }
  cbn [make_share_loop]. rewrite filter_cons.
  assert (Endpoint_Equal exclude (peer_Endpoint p) = bool_decide (peer_Endpoint p = exclude)) as ->.
  { unfold Endpoint_Equal. destruct exclude as [i q], (peer_Endpoint p) as [i' q']. simpl.
    apply Bool.eq_iff_eq_true. rewrite andb_true_iff, !bool_decide_eq_true. naive_solver. }
  case_bool_decide as He; [by rewrite decide_False by tauto; apply IH|].
  rewrite decide_True, fmap_cons by done. cbv zeta.
  assert (Hlen : zlen (acc ++ [peer_Endpoint p]) = zlen acc + 1) by (rewrite zlen_app; done).
  assert (Z.to_nat (PeerShareAmount conf - zlen acc) =
    S (Z.to_nat (PeerShareAmount conf - zlen (acc ++ [peer_Endpoint p])))) as -> by lia.
  cbn [take]. rewrite Hlen. destruct (Z.leb_spec (PeerShareAmount conf) (zlen acc + 1)).
  - replace (Z.to_nat (PeerShareAmount conf - (zlen acc + 1))) with 0%nat by lia. by rewrite take_0.
  - rewrite IH, <-app_assoc, Hlen by lia. done.
Qed.

(** The share made for an endpoint has the endpoints of connected peers, at random
    and each peer once, [PeerShareAmount] of them or all there are, and never the
    endpoint that asked. *)
Theorem makePeerShare_spec exclude c g :
  controller_wf c → is_order order → 0 < PeerShareAmount conf →
  ∃ l c' g' all, makePeerShare exclude c g = Ok (l, c', g') ∧ NoDup all ∧
    (∀ p, p ∈ all ↔ PeerStore_Get (c_peers c) (Hash p) = Some p) ∧
    let others := peer_Endpoint <$> filter (λ p, peer_Endpoint p ≠ exclude) all in
    l ⊆+ others ∧ zlen l = Z.min (PeerShareAmount conf) (zlen others) ∧ exclude ∉ l.
Proof.
  intros Hwf Ho Ha. unfold makePeerShare. destruct (c_Slice order c) as [all c1] eqn:HS.
  destruct (c_Slice_spec order c all c1 Hwf Ho HS) as (_ & _ & _ & _ & _ & _ & _ & Hnd & Hin).
  destruct (random_order all g) as (l & Hl & Hperm). destruct (Perm (length all) g) as [perm g'].
  simpl in Hl. rewrite Hl, bind_Ok, make_share_loop_spec by done. rewrite Z.sub_0_r.
  eexists _, c1, g', all. split; [done|]. split_and!; [done|done|..]; cbn [app].
  - rewrite <-Hperm. apply submseteq_take.
  - unfold zlen. rewrite length_take, !length_fmap, Hperm. lia.
  - intros He. eapply elem_of_submseteq in He; [|apply submseteq_take].
    apply list_elem_of_fmap in He as (p & -> & [? _]%list_elem_of_filter). done.
Qed.

Lemma shuffleTrimShare_lemma l g :
  0 ≤ PeerShareAmount conf →
  (shuffleTrimShare l g).1 ⊆+ l ∧
  zlen (shuffleTrimShare l g).1 = Z.min (PeerShareAmount conf) (zlen l).
Proof.
  intros Ha. unfold shuffleTrimShare. pose proof (zlen_nonneg l).
  destruct (Z.eqb_spec (zlen l) 0) as [He|He].
  { apply zlen_0 in He. subst l. simpl. split; [done|]. rewrite zlen_nil. lia. }
  pose proof (Shuffle_Permutation l g) as Hs. destruct (Shuffle l g) as [r g']. simpl in *.
  assert (Hlen : zlen r = zlen l) by (unfold zlen; by rewrite Hs).
  destruct (Z.ltb_spec (PeerShareAmount conf) (zlen r)); simpl.
  - split; [rewrite <-Hs; apply submseteq_take|]. unfold zlen in *. rewrite length_take. lia.
  - split; [by rewrite Hs|lia].
Qed.

(** Trimming a received share keeps [PeerShareAmount] of its endpoints at random,
    or all there are, and never repeats one. *)
Theorem shuffleTrimShare_spec l g :
  0 ≤ PeerShareAmount conf →
  (shuffleTrimShare l g).1 ⊆+ l ∧
  zlen (shuffleTrimShare l g).1 = Z.min (PeerShareAmount conf) (zlen l).
Proof. apply shuffleTrimShare_lemma. Qed.

Lemma share_loop_spec now c l res :
  share_loop now c l res =
    if decide (Forall (λ ep, Endpoint_Valid ep = true) l)
    then res ++ filter (λ ep, isBannedEndpoint now now c ep = false) l else [].
Proof.
  revert res. induction l as [|ep l IH]; intros res; [by rewrite decide_True, app_nil_r by constructor|].
  cbn [share_loop]. destruct (Endpoint_Valid ep) eqn:Hv; simpl.
  - rewrite IH, filter_cons. destruct (decide (Forall _ l)) as [Hl|Hl].
    + rewrite decide_True by by constructor.
      destruct (isBannedEndpoint now now c ep); [by rewrite decide_False|].
      by rewrite decide_True, <-app_assoc.
    + rewrite decide_False; [done|]. by intros [_ ?]%Forall_cons.
  - rewrite decide_False; [done|]. intros [? _]%Forall_cons. congruence.
Qed.

(** A received share is taken whole or not at all: if it parses and every
    endpoint in it is valid, what remains is the part that is not banned, in its
    order; one invalid endpoint discards the share. *)
Theorem processPeerShare_spec {P} `{Protocol P} (prot : P) now c parcel :
  processPeerShare prot now c parcel =
    match ParsePeerShare prot (Payload parcel) with
    | Ok l => if decide (Forall (λ ep, Endpoint_Valid ep = true) l)
              then filter (λ ep, isBannedEndpoint now now c ep = false) l else []
    | _ => []
    end.
Proof.
  unfold processPeerShare. destruct (ParsePeerShare prot (Payload parcel)); try done.
  by rewrite share_loop_spec.
Qed.
End Cat.

(** ** Examples *)

Definition cat_ab : cat := MkCat ctl_ab 0 0.
(** the default configuration with a target below two peers *)
Definition conf_drop : Configuration := set_DropTo 1 DefaultP2PConfiguration.

Theorem runCatRound_spec_witness :
  let now := Minute * 15 in
  if time_since now (lastRound cat_ab) <? RoundTime conf_drop
  then runCatRound (H0:=no_json) (λ l, l) conf_drop now now now true None cat_ab 7 = Ok (cat_ab, None, 7)
  else
    ∃ c' f' g' all D,
      runCatRound (H0:=no_json) (λ l, l) conf_drop now now now true None cat_ab 7 =
        Ok (MkCat c' now (i64 (rounds cat_ab + 1)), f', g') ∧
      controller_wf c' ∧ NoDup all ∧
      (∀ p, p ∈ all ↔ PeerStore_Get (c_peers (cat_ctl cat_ab)) (Hash p) = Some p) ∧
      D ⊆+ filter (λ p, isSpecial (cat_ctl cat_ab) (peer_Endpoint p) = false) all ∧
      zlen D = Z.max 0 (Z.min (zlen all - DropTo conf_drop)
        (zlen (filter (λ p, isSpecial (cat_ctl cat_ab) (peer_Endpoint p) = false) all))) ∧
      (∀ p, p ∈ all → is_stopped c' p = is_stopped (cat_ctl cat_ab) p || bool_decide (p ∈ D)).
Proof. apply runCatRound_spec; [apply ctl_ab_wf|apply is_order_id|simpl; lia]. Defined.

Theorem makePeerShare_spec_witness :
  ∃ l c' g' all, makePeerShare (λ l, l) DefaultP2PConfiguration ep_a ctl_ab 7 = Ok (l, c', g') ∧ NoDup all ∧
    (∀ p, p ∈ all ↔ PeerStore_Get (c_peers ctl_ab) (Hash p) = Some p) ∧
    let others := peer_Endpoint <$> filter (λ p, peer_Endpoint p ≠ ep_a) all in
    l ⊆+ others ∧ zlen l = Z.min (PeerShareAmount DefaultP2PConfiguration) (zlen others) ∧ ep_a ∉ l.
Proof. apply makePeerShare_spec; [apply ctl_ab_wf|apply is_order_id|simpl; lia]. Defined.

Theorem shuffleTrimShare_spec_witness :
  (shuffleTrimShare DefaultP2PConfiguration [ep_a; ep_v6] 7).1 ⊆+ [ep_a; ep_v6] ∧
  zlen (shuffleTrimShare DefaultP2PConfiguration [ep_a; ep_v6] 7).1 =
    Z.min (PeerShareAmount DefaultP2PConfiguration) (zlen [ep_a; ep_v6]).
Proof. apply shuffleTrimShare_spec. simpl. lia. Defined.
