(* ===== verification/Async.v ===== *)
(** * Asking a peer for endpoints ([asyncPeerRequest], the responses in [manageData])

    The replenish loop registers a channel of one slot for the answer, sends the
    request and waits for the answer or a timeout; [manageData] passes a response to
    the registered channel.  Both hold [shareMtx]: [manageData] for reading while it
    sends, the loop for writing when it registers and when it is done.  The steps
    below are what each goroutine does between two points where it may wait. *)
From S2P Require Import Prelude Parcel.

Inductive requester :=
  | RIdle
  | RWaiting (hash : string)                 (* at the [select] *)
  | RGot (hash : string) (parcel : Parcel)   (* processing the answer *)
  | RDeferred (hash : string).               (* [shareMtx.Lock()] of the deferred function *)

Inductive data_manager :=
  | DIdle
  | DSending (parcel : Parcel).              (* [async <- parcel], holding [shareMtx.RLock()] *)

Record async_state := MkAsync {
  shareListener : gset string;     (* the hashes with a channel; it is [async] below *)
  async : list Parcel;             (* [make(chan *Parcel, 1)] *)
  as_requester : requester;
  as_manager : data_manager;
  as_responses : nat;              (* responses handed to the channel since the request *)
}.

Inductive async_action :=
  | ARequest (hash : string)       (* the replenish loop asks the peer *)
  | AResponse (hash : string) (parcel : Parcel) (* manageData takes a response of the peer *)
  | APush | AReceive | ATimeout | AProcess | ACleanup.

Definition async_step (s : async_state) (a : async_action) : option async_state :=
  let 'MkAsync l ch r m n := s in
  match a, r, m with
  | ARequest h, RIdle, DIdle => Some (MkAsync ({[h]} ∪ l) [] (RWaiting h) DIdle 0)
  | AResponse h p, _, DIdle =>
      if decide (h ∈ l) then Some (MkAsync l ch r (DSending p) (S n)) else Some s
  | APush, _, DSending p =>
      if decide (length ch < 1)%nat then Some (MkAsync l (ch ++ [p]) r DIdle n) else None
  | AReceive, RWaiting h, _ =>
      match ch with p :: ch => Some (MkAsync l ch (RGot h p) m n) | [] => None end
  | ATimeout, RWaiting h, _ => Some (MkAsync l ch (RDeferred h) m n)
  | AProcess, RGot h _, _ => Some (MkAsync l ch (RDeferred h) m n)
  | ACleanup, RDeferred h, DIdle => Some (MkAsync (l ∖ {[h]}) ch RIdle DIdle n)
  | _, _, _ => None
  end.

Definition async_init : async_state := MkAsync ∅ [] RIdle DIdle 0.

Fixpoint async_exec (s : async_state) (l : list async_action) : option async_state :=
  match l with
  | [] => Some s
  | a :: l => match async_step s a with Some s => async_exec s l | None => None end
  end.

Inductive async_reachable : async_state → Prop :=
  | ar_init : async_reachable async_init
  | ar_step s a s' : async_reachable s → async_step s a = Some s' → async_reachable s'.

Lemma async_exec_reachable s l s' :
  async_reachable s → async_exec s l = Some s' → async_reachable s'.
Proof.
  revert s. induction l as [|a l IH]; simpl; intros s Hr H; [by simplify_eq|].
  destruct (async_step s a) as [s1|] eqn:Ha; [|done]. apply (IH s1); [by eapply ar_step|done].
Qed.

(** [C28] A peer that answers one request three times stops the node: the first answer is
    taken, the second fills the channel, and the third leaves [manageData] sending
    for ever with the mutex held that the loop needs to deregister the channel.
    Neither goroutine can take another step. *)
Theorem async_deadlock h p :
  ∃ s, async_reachable s ∧ as_requester s = RDeferred h ∧ as_manager s = DSending p ∧
    ∀ a, async_step s a = None.
Proof.
  destruct (async_exec async_init
    [ARequest h; AResponse h p; APush; AReceive; AResponse h p; APush; AResponse h p; AProcess])
    as [s|] eqn:Hs.
  - exists s. split; [by eapply async_exec_reachable; [constructor|]|].
    simpl in Hs. rewrite !decide_True in Hs by set_solver. simpl in Hs.
    rewrite !decide_True in Hs by set_solver. simpl in Hs.
    rewrite !decide_True in Hs by set_solver. simpl in Hs. injection Hs as <-.
    split_and!; [done|done|]. by intros [].
  - exfalso. simpl in Hs. rewrite !decide_True in Hs by set_solver. simpl in Hs.
    rewrite !decide_True in Hs by set_solver. simpl in Hs.
    by rewrite !decide_True in Hs by set_solver.
Qed.

(** ** One answer per request *)

Definition polite (s : async_state) (a : async_action) : Prop :=
  match a with AResponse h _ => h ∈ shareListener s → as_responses s = 0%nat | _ => True end.

Inductive polite_reachable : async_state → Prop :=
  | pr_init : polite_reachable async_init
  | pr_step s a s' : polite_reachable s → polite s a → async_step s a = Some s' → polite_reachable s'.

(** the channel and the sender together never hold more than the answers given, and
    the registered channel is that of the request under way *)
Record polite_inv (s : async_state) : Prop := {
  pi_room : (length (async s) + (match as_manager s with DSending _ => 1 | DIdle => 0 end)
              ≤ as_responses s ≤ 1)%nat;
  pi_listener : match as_requester s with
                | RIdle => shareListener s = ∅
                | RWaiting h | RGot h _ | RDeferred h => shareListener s = {[h]}
                end;
}.

Lemma polite_inv_step s a s' :
  polite_inv s → polite s a → async_step s a = Some s' → polite_inv s'.
Proof.
  intros [Hroom Hl] Hp Ha. destruct s as [l ch r m n]. simpl in *.
  destruct a as [h|h p| | | | |]; destruct r as [|h1|h1 p1|h1], m as [|p2]; simpl in *; simplify_eq;
    try (case_decide; simplify_eq); try (destruct ch as [|p3 ch]; simplify_eq);
    split; simpl in *; rewrite ?length_app in *; simpl in *;
    try set_solver; try lia; specialize (Hp ltac:(done)); lia.
Qed.

(** [C29] When a peer answers each request at most once, [manageData] is never held up by
    the answer and the loop always finishes: in every reachable state a pending send
    can go ahead at once, and once nothing is being sent the loop can return to
    idle. *)
Theorem async_progress s :
  polite_reachable s →
  (∀ p, as_manager s = DSending p → is_Some (async_step s APush)) ∧
  (as_manager s = DIdle → as_requester s ≠ RIdle →
   ∃ l s', async_exec s l = Some s' ∧ as_requester s' = RIdle ∧ shareListener s' = ∅).
Proof.
  intros Hr. assert (Hinv : polite_inv s).
  { induction Hr as [|s a s' _ IH Hp Ha]; [split; simpl; [lia|done]|by eapply polite_inv_step]. }
  destruct Hinv as [Hroom Hl]. destruct s as [l ch r m n]. simpl in *. split.
  - intros p ->. simpl in *. rewrite decide_True by lia. by eexists.
  - intros ->. destruct r as [|h|h p|h]; [done|..]; intros _.
    + exists [ATimeout; ACleanup]. eexists. split; [done|]. simpl. split; [done|]. set_solver.
    + exists [AProcess; ACleanup]. eexists. split; [done|]. simpl. split; [done|]. set_solver.
    + exists [ACleanup]. eexists. split; [done|]. simpl. split; [done|]. set_solver.
Qed.

Theorem async_progress_witness :
  let s := MkAsync {["h"%string]} [] (RWaiting "h") (DSending (newParcel 4 [])) 1 in
  is_Some (async_step s APush).
Proof.
  eapply (proj1 (async_progress (MkAsync {["h"%string]} [] (RWaiting "h") (DSending (newParcel 4 [])) 1) _));
    reflexivity.
  Unshelve.
  apply (pr_step (MkAsync {["h"%string]} [] (RWaiting "h") DIdle 0) (AResponse "h" (newParcel 4 [])));
    [|done|by vm_compute].
  apply (pr_step async_init (ARequest "h")); [constructor|done|].
  by vm_compute.
Defined.
