(* ===== verification/Seed.v ===== *)
(** * The seed list ([seed.go], [WebScanner] of [util.go])

    A node finds its first peers in a text file served over HTTP, one endpoint per
    line.  The response of the server is an argument; how it is cut into lines,
    which lines count and how long the result is kept is the code's. *)
From S2P Require Import Prelude GoStd Endpoint.

Definition c_newline : byte := x0a.
Definition c_return : byte := x0d.

(** ** [bufio.Scanner] with its default split function, and [WebScanner] *)

(** a line that does not fit the scanner's buffer of 64 KiB stops it *)
Definition max_line : Z := 65535.

Fixpoint until_too_long (ls : list (list byte)) : list (list byte) :=
  match ls with
  | [] => []
  | l :: ls => if max_line <? zlen l then [] else l :: until_too_long ls
  end.

Definition drop_return (l : list byte) : list byte :=
  match reverse l with c :: r => if decide (c = c_return) then reverse r else l | [] => [] end.

(** nothing follows the last line end, so the last piece counts only if not empty *)
Definition drop_empty_last (ls : list (list byte)) : list (list byte) :=
  match reverse ls with [] :: r => reverse r | _ => ls end.

Definition scan_lines (body : list byte) : list (list byte) :=
  drop_return <$> until_too_long (drop_empty_last (Split c_newline body)).

(** what [http.Get] gives: nothing, or a status code and the body as far as it was sent *)
Definition response : Type := option (Z * list byte).
Inductive web_error := ErrGet | ErrStatus (code : Z).

(** the lines passed to the closure, and the error returned *)
Definition WebScanner (r : response) : list string * option web_error :=
  match r with
  | None => ([], Some ErrGet)
  | Some (code, body) =>
      if code =? 200 then (bytes_str <$> scan_lines body, None) else ([], Some (ErrStatus code))
  end.

(** ** [seed] *)
Record seed := MkSeed {
  cache : option (list Endpoint);   (* nil until the first retrieval *)
  cacheTTL : Z;
  cacheTime : Z;
}.

Definition newSeed (ttl : Z) : seed := MkSeed None ttl zero_time.

(** the closure of [retrieve]: the endpoint a line adds *)
Definition seed_line (line : string) : option Endpoint :=
  let line := TrimSpace line in
  if bool_decide (line = EmptyString) then None
  else match SplitHostPort line with
       | None => None
       | Some (host, port) =>
           match NewEndpoint host port with Ok ep => Some ep | _ => None end
       end.

(** [now] and [now'] are the clock before and after the download; an error of the
    download is only logged *)
Definition retrieve (now now' : Z) (r : response) (s : seed) : list Endpoint * seed :=
  let fetch :=
    let eps := omap seed_line (WebScanner r).1 in
    (eps, MkSeed (Some eps) (cacheTTL s) now') in
  match cache s with
  | Some eps => if time_since now (cacheTime s) <=? cacheTTL s then (eps, s) else fetch
  | None => fetch
  end.

Definition size (now now' : Z) (r : response) (s : seed) : Z * seed :=
  let s := (retrieve now now' r s).2 in
  (zlen (default [] (cache s)), s).

(** ** Properties *)

Definition valid_cache (s : seed) : Prop :=
  ∀ eps, cache s = Some eps → Forall (λ ep, Endpoint_Valid ep = true) eps.

Lemma seed_line_valid line ep : seed_line line = Some ep → Endpoint_Valid ep = true.
Proof.
  unfold seed_line. repeat case_match; try done. intros [= <-].
  match goal with H : NewEndpoint _ _ = Ok _ |- _ => unfold NewEndpoint in H end.
  destruct (Endpoint_Valid (MkEndpoint _ _)) eqn:Hv; by simplify_eq/=.
Qed.

Lemma omap_seed_valid lines : Forall (λ ep, Endpoint_Valid ep = true) (omap seed_line lines).
Proof.
  apply Forall_forall. intros ep (line & _ & H)%list_elem_of_omap. by eapply seed_line_valid.
Qed.

Lemma retrieve_lemma now now' r s :
  valid_cache s →
  let (eps, s') := retrieve now now' r s in
  Forall (λ ep, Endpoint_Valid ep = true) eps ∧ cache s' = Some eps ∧ valid_cache s' ∧
  ((cache s = Some eps ∧ time_since now (cacheTime s) ≤ cacheTTL s ∧ s' = s) ∨
   ((cache s = None ∨ cacheTTL s < time_since now (cacheTime s)) ∧
    eps = omap seed_line (WebScanner r).1 ∧ cacheTime s' = now' ∧
    ((WebScanner r).2 ≠ None → eps = []))).
Proof.
  intros Hv. unfold retrieve.
  assert (Hnew : let eps := omap seed_line (WebScanner r).1 in
    Forall (λ ep, Endpoint_Valid ep = true) eps ∧
    valid_cache (MkSeed (Some eps) (cacheTTL s) now') ∧
    ((WebScanner r).2 ≠ None → eps = [])).
  { pose proof (omap_seed_valid (WebScanner r).1) as Ho. split_and!; [done|by intros ? [= <-]|].
    unfold WebScanner. destruct r as [[code body]|]; [|done]. by case_match. }
  destruct Hnew as (H1 & H2 & H3).
  destruct (cache s) as [eps|] eqn:Hc; [destruct (_ <=? _) eqn:Ht|]; simpl.
  - split_and!; [by apply (Hv _ Hc)|done|done|]. left. split_and!; [done|lia|done].
  - split_and!; [done..|]. right. split_and!; [right; lia|done..].
  - split_and!; [done..|]. right. split_and!; [by left|done..].
Qed.

(** What a retrieval gives: the cached list while it is fresh, which leaves the seed
    alone, and otherwise one endpoint per usable line, which is cached from then on.
    All of them are valid.  A failed download counts as an empty list, so the seed
    is then not asked again before the list is stale. *)
Theorem retrieve_spec now now' r s :
  valid_cache s →
  let (eps, s') := retrieve now now' r s in
  Forall (λ ep, Endpoint_Valid ep = true) eps ∧ cache s' = Some eps ∧ valid_cache s' ∧
  ((cache s = Some eps ∧ time_since now (cacheTime s) ≤ cacheTTL s ∧ s' = s) ∨
   ((cache s = None ∨ cacheTTL s < time_since now (cacheTime s)) ∧
    eps = omap seed_line (WebScanner r).1 ∧ cacheTime s' = now' ∧
    ((WebScanner r).2 ≠ None → eps = []))).
Proof. apply retrieve_lemma. Qed.

(** *** A list of printed endpoints is read back *)

Definition seed_file (eps : list Endpoint) : list byte :=
  eps ≫= λ ep, str_bytes (Endpoint_String ep) ++ [c_newline].

Definition seed_ok (ep : Endpoint) : Prop :=
  Endpoint_Valid ep = true ∧ (c_colon ∉ str_bytes (IP ep)) ∧
  zlen (str_bytes (Endpoint_String ep)) ≤ max_line.

Lemma graph_no_newline c : is_graph c = true → c ≠ c_newline ∧ c ≠ c_return.
Proof. by destruct c. Qed.

Lemma seed_ok_graph ep :
  seed_ok ep → Forall (λ c, is_graph c = true) (str_bytes (Endpoint_String ep)).
Proof.
  intros (Hv & Hno & _). eapply Forall_impl; [by apply Endpoint_String_graph|]. by intros ? [].
Qed.

Lemma seed_line_String ep : seed_ok ep → seed_line (Endpoint_String ep) = Some ep.
Proof.
  intros Hok. pose proof (seed_ok_graph ep Hok) as Hg. destruct Hok as (Hv & Hno & _).
  unfold seed_line, TrimSpace. rewrite TrimSpace_graph, bytes_str_bytes by done.
  rewrite bool_decide_false.
  2: { intros E%(f_equal str_bytes). rewrite str_bytes_Endpoint_String in E.
       by apply app_eq_nil in E as [_ ?]. }
  rewrite SplitHostPort_String by done. unfold NewEndpoint. destruct ep; simpl in *. by rewrite Hv.
Qed.

Lemma drop_return_graph l : Forall (λ c, is_graph c = true) l → drop_return l = l.
Proof.
  intros H. unfold drop_return. apply Forall_reverse in H. destruct (reverse l) as [|c r] eqn:Er.
  - apply (f_equal reverse) in Er. by rewrite reverse_involutive in Er.
  - apply Forall_cons_1 in H as [Hc%graph_no_newline _]. rewrite decide_False by naive_solver. done.
Qed.

Lemma Split_seed_file eps :
  Forall seed_ok eps →
  Split c_newline (seed_file eps) = (str_bytes ∘ Endpoint_String <$> eps) ++ [[]].
Proof.
  induction 1 as [|ep eps Hok _ IH]; [done|]. unfold seed_file. simpl.
  rewrite <-app_assoc. simpl. rewrite Split_app; [by f_equal|].
  intros Hc. pose proof (seed_ok_graph ep Hok) as Hg. rewrite Forall_forall in Hg.
  by apply Hg, graph_no_newline in Hc as [].
Qed.

Lemma until_too_long_all ls : Forall (λ l, zlen l ≤ max_line) ls → until_too_long ls = ls.
Proof.
  induction 1 as [|l ls Hl _ IH]; [done|]. simpl.
  destruct (max_line <? zlen l) eqn:E; [lia|]. by rewrite IH.
Qed.

Lemma scan_seed_file eps :
  Forall seed_ok eps → scan_lines (seed_file eps) = str_bytes ∘ Endpoint_String <$> eps.
Proof.
  intros H. unfold scan_lines, drop_empty_last. rewrite Split_seed_file by done.
  rewrite reverse_app. simpl. rewrite reverse_involutive, until_too_long_all.
  - rewrite <-list_fmap_compose. apply list_fmap_ext. intros i ep Hi.
    apply drop_return_graph, seed_ok_graph. by eapply Forall_lookup_1.
  - apply Forall_fmap. eapply Forall_impl; [exact H|]. by intros ? (_ & _ & ?).
Qed.

(** Round trip: the file that lists valid endpoints in their printed form, one per
    line, is retrieved as exactly those endpoints, in order. *)
Theorem retrieve_seed_file now now' ttl eps :
  Forall seed_ok eps →
  retrieve now now' (Some (200, seed_file eps)) (newSeed ttl) =
    (eps, MkSeed (Some eps) ttl now').
Proof.
  intros H. unfold retrieve. simpl.
  assert (Heps : omap seed_line (bytes_str <$> scan_lines (seed_file eps)) = eps); [|by rewrite Heps].
  rewrite scan_seed_file, <-list_fmap_compose by done.
  induction H as [|ep eps Hok _ IH]; [done|]. rewrite fmap_cons.
  assert (bytes_str (str_bytes (Endpoint_String ep)) = Endpoint_String ep) as E by apply bytes_str_bytes.
  unfold compose in *. rewrite E. cbn [omap list_omap]. rewrite seed_line_String by done. by f_equal.
Qed.

Lemma seed_ok_a : seed_ok ep_a.
Proof. split_and!; [by vm_compute|apply (bool_decide_unpack _); by vm_compute|by vm_compute]. Qed.

Theorem retrieve_seed_file_witness :
  retrieve 5 6 (Some (200, seed_file [ep_a; ep_a])) (newSeed 10) =
    ([ep_a; ep_a], MkSeed (Some [ep_a; ep_a]) 10 6).
Proof. apply retrieve_seed_file. repeat constructor; apply seed_ok_a. Defined.

Theorem retrieve_spec_witness :
  valid_cache (newSeed 10) ∧ (retrieve 5 6 None (newSeed 10)).1 = [] ∧
  cache (retrieve 5 6 None (newSeed 10)).2 = Some [].
Proof.
  split; [done|]. destruct (retrieve_spec 5 6 None (newSeed 10)) as (_ & Hc & _ & H); [done|].
  split; [|exact Hc]. destruct H as [(H & _)|(_ & H & _)]; [done|exact H].
Defined.
