(* ===== verification/Metrics.v ===== *)
(** * Traffic metrics ([metricsReadWriter.go], [Peer.statLoop], [Peer.GetMetrics])

    Every connection is wrapped in a reader and writer that counts its traffic.
    The goroutines that read and write add to four atomic counters, one more
    goroutine per peer swaps them against zero once a second and adds what it got
    to the totals of the peer. *)
From S2P Require Import Prelude GoStd Endpoint Parcel ParcelChannel PeerStore Stream Controller.

(** ** The counting reader and writer *)

Record counters := MkCounters {
  messagesWritten : Z;    (* uint64, like the others *)
  messagesRead : Z;
  bytesWritten : Z;
  bytesRead : Z;
}.

Inductive counter := MW | MR | BW | BR.
#[export] Instance counter_eq_dec : EqDecision counter.
Proof. solve_decision. Defined.

Definition counter_get (w : counter) (m : counters) : Z :=
  match w with
  | MW => messagesWritten m | MR => messagesRead m | BW => bytesWritten m | BR => bytesRead m
  end.
Definition counter_set (w : counter) (n : Z) (m : counters) : counters :=
  let 'MkCounters mw mr bw br := m in
  match w with
  | MW => MkCounters n mr bw br
  | MR => MkCounters mw n bw br
  | BW => MkCounters mw mr n br
  | BR => MkCounters mw mr bw n
  end.

(** [atomic.AddUint64] and [atomic.SwapUint64(&counter, 0)] *)
Definition AddUint64 (w : counter) (n : Z) (m : counters) : counters :=
  counter_set w (u64 (counter_get w m + n)) m.
Definition SwapUint64 (w : counter) (m : counters) : Z * counters :=
  (counter_get w m, counter_set w 0 m).

Record MetricsReadWriter := MkMetrics { mrw_rw : conn; mrw_counters : counters }.

Definition NewMetricsReadWriter (rw : conn) : MetricsReadWriter := MkMetrics rw (MkCounters 0 0 0 0).

Definition MRW_Write (p : list byte) (sc : MetricsReadWriter) : MetricsReadWriter * (Z * bool) :=
  let '(c, (n, e)) := Write p (mrw_rw sc) in
  (MkMetrics c (AddUint64 BW (u64 n) (AddUint64 MW 1 (mrw_counters sc))), (n, e)).

(** [Read] of at most [k] bytes; no data is the end of the stream, with [n] = 0 *)
Definition MRW_Read (k : nat) (sc : MetricsReadWriter) : MetricsReadWriter * option (list byte) :=
  let (l, d) := read_chunk k (c_in (mrw_rw sc)) in
  (MkMetrics (set_in l (mrw_rw sc))
     (AddUint64 BR (u64 (zlen (default [] d))) (AddUint64 MR 1 (mrw_counters sc))), d).

(** [Collect] as four swaps one after the other, [(mw, mr, bw, br)] *)
Definition Collect (m : counters) : (Z * Z * Z * Z) * counters :=
  let (mw, m) := SwapUint64 MW m in
  let (mr, m) := SwapUint64 MR m in
  let (bw, m) := SwapUint64 BW m in
  let (br, m) := SwapUint64 BR m in
  ((mw, mr, bw, br), m).

(** ** The totals of a peer and [statLoop]

    [stats_last] is what the rates [mpsUp], [mpsDown], [bpsUp] and [bpsDown] were
    last set to, before the conversion to a float. *)
Record peer_stats := MkStats { stats_total : counters; stats_last : counters }.

Definition add_totals (t m : counters) : counters :=
  MkCounters (u64 (messagesWritten t + messagesWritten m)) (u64 (messagesRead t + messagesRead m))
    (u64 (bytesWritten t + bytesWritten m)) (u64 (bytesRead t + bytesRead m)).

(** a tick of [statLoop] when nothing happens between its swaps *)
Definition statLoop_tick (sc : MetricsReadWriter) (p : peer_stats) : MetricsReadWriter * peer_stats :=
  let '((mw, mr, bw, br), m) := Collect (mrw_counters sc) in
  let got := MkCounters mw mr bw br in
  (MkMetrics (mrw_rw sc) m, MkStats (add_totals (stats_total p) got) got).

(** *** The same in steps

    [stat_todo] are the swaps that are left of a tick, [stat_regs] what they have
    given so far. *)
Record stat_system := MkStat {
  stat_counters : counters;
  stat_todo : option (list counter);
  stat_regs : counters;
  stat_peer : peer_stats;
}.

Inductive stat_action :=
  | SAdd (w : counter) (n : Z)   (* a read or a write adds [n] to a counter *)
  | STick                        (* the ticker fires *)
  | SCollect.                    (* statLoop takes its next step *)

Definition stat_step (s : stat_system) (a : stat_action) : option stat_system :=
  let 'MkStat m todo regs p := s in
  match a, todo with
  | SAdd w n, _ => Some (MkStat (AddUint64 w n m) todo regs p)
  | STick, None => Some (MkStat m (Some [MW; MR; BW; BR]) (MkCounters 0 0 0 0) p)
  | SCollect, Some (w :: todo) =>
      let (n, m) := SwapUint64 w m in Some (MkStat m (Some todo) (counter_set w n regs) p)
  | SCollect, Some [] =>
      Some (MkStat m None (MkCounters 0 0 0 0) (MkStats (add_totals (stats_total p) regs) regs))
  | _, _ => None
  end.

Fixpoint stat_run (s : stat_system) (l : list stat_action) : option stat_system :=
  match l with
  | [] => Some s
  | a :: l => match stat_step s a with Some s => stat_run s l | None => None end
  end.

Definition stat_init : stat_system :=
  let z := MkCounters 0 0 0 0 in MkStat z None z (MkStats z z).

(** ** [PeerMetrics] *)

Record PeerMetrics := MkPeerMetrics {
  pm_Hash : string;
  PeerAddress : string;
  MomentConnected : Z;
  PeerQuality : Z;           (* never set *)
  LastReceive : Z;
  LastSend : Z;
  MessagesSent : Z;
  BytesSent : Z;
  MessagesReceived : Z;
  BytesReceived : Z;
  pm_Incoming : bool;
  PeerType : string;
  ConnectionState : string;
  MPSDown : Z;               (* the floats as the integers they are made from *)
  MPSUp : Z;
  BPSDown : Z;
  BPSUp : Z;
  SendFillRatio : Z * Z;     (* as [FillRatio]: a fraction *)
  Dropped : Z;
}.

(** the rest of what a peer knows about its traffic *)
Record peer_info := MkInfo {
  pi_connected : Z;
  pi_lastReceive : Z;
  pi_prot : string;          (* the protocol's [String] *)
  pi_stats : peer_stats;
}.

Definition GetMetrics (c : controller) (p : Peer) (st : PeerState) (i : peer_info) : PeerMetrics :=
  let t := stats_total (pi_stats i) in
  let r := stats_last (pi_stats i) in
  MkPeerMetrics (Hash p) (IP (peer_Endpoint p)) (pi_connected i) 0 (pi_lastReceive i) (ps_lastSend st)
    (messagesWritten t) (bytesWritten t) (messagesRead t) (bytesRead t) (IsIncoming p)
    (if isSpecial c (peer_Endpoint p) then "special_config" else "regular")
    (String.append "v" (pi_prot i))
    (messagesRead r) (messagesWritten r) (bytesRead r) (bytesWritten r)
    (FillRatio (ps_send st)) (ps_dropped st).

(** [makeMetrics]; [info] holds the metrics fields of the peers by address *)
Definition makeMetrics (order : list Peer → list Peer) (info : Peer → PeerState * peer_info)
    (c : controller) : gmap string PeerMetrics * controller :=
  let (l, c) := c_Slice order c in
  (foldl (λ (m : gmap string PeerMetrics) p, <[Hash p := GetMetrics c p (info p).1 (info p).2]> m) ∅ l, c).

(** [Dropped] is left at zero *)
Record Info := MkNetInfo {
  Info_Peers : Z; Receiving : Z; Sending : Z; Download : Z; Upload : Z; Info_Dropped : Z }.

(** [Network.GetInfo]; the sums of floats are exact below 2^53 *)
Definition GetInfo (order : list Peer → list Peer) (info : Peer → PeerState * peer_info)
    (c : controller) : Info * controller :=
  let (l, c) := c_Slice order c in
  let sum (f : PeerMetrics → Z) :=
    foldl (λ n p, n + f (GetMetrics c p (info p).1 (info p).2)) 0 l in
  (MkNetInfo (PeerStore_Total (c_peers c)) (sum MPSDown) (sum MPSUp) (sum BPSDown) (sum BPSUp) 0, c).

(** ** Nothing is lost or counted twice *)

Lemma u64_add_l a b : u64 (u64 a + b) = u64 (a + b).
Proof. apply Zplus_mod_idemp_l. Qed.
Lemma u64_add_r a b : u64 (a + u64 b) = u64 (a + b).
Proof. apply Zplus_mod_idemp_r. Qed.

Lemma counter_get_set w w' n m :
  counter_get w (counter_set w' n m) = if decide (w = w') then n else counter_get w m.
Proof. by destruct m, w, w'. Qed.

Lemma counter_get_zero w : counter_get w (MkCounters 0 0 0 0) = 0.
Proof. by destruct w. Qed.

Lemma counter_get_totals w t m :
  counter_get w (add_totals t m) = u64 (counter_get w t + counter_get w m).
Proof. by destruct w. Qed.

(** how much has been added to a counter *)
Definition added (w : counter) (l : list stat_action) : Z :=
  foldr (λ a n, match a with SAdd w' k => if decide (w = w') then k + n else n | _ => n end) 0 l.

(** what has been added is in the counter, on its way, or in the total *)
Definition accounted (w : counter) (s : stat_system) : Z :=
  counter_get w (stat_counters s) + counter_get w (stat_regs s) +
  counter_get w (stats_total (stat_peer s)).

(** a swap that is still to come finds its register empty *)
Definition regs_empty (s : stat_system) : Prop :=
  match stat_todo s with
  | Some todo => NoDup todo ∧ ∀ w, w ∈ todo → counter_get w (stat_regs s) = 0
  | None => ∀ w, counter_get w (stat_regs s) = 0
  end.

Lemma stat_step_accounted w s a s' :
  regs_empty s → stat_step s a = Some s' →
  regs_empty s' ∧ u64 (accounted w s') = u64 (accounted w s + added w [a]).
Proof.
  destruct s as [m todo regs p]. unfold accounted, regs_empty. intros He Hs.
  destruct a as [w' n| |], todo as [[|x todo]|]; simplify_eq/=; unfold AddUint64;
    rewrite ?counter_get_set.
  1-3: split; [done|]; case_decide; [subst w'|f_equal; lia];
    rewrite <-!Z.add_assoc, u64_add_l; f_equal; lia.
  - split.
    + split; [|by intros []]. repeat constructor; set_solver.
    + rewrite counter_get_zero, (He w). f_equal. lia.
  - split; [by intros []|]. rewrite counter_get_totals.
    rewrite counter_get_zero, u64_add_r. f_equal. lia.
  - destruct He as [[Hx Hnd]%NoDup_cons He]. split.
    + split; [done|]. intros y Hy. rewrite counter_get_set. case_decide; [by subst y|]. apply He. set_solver.
    + case_decide; [subst x|f_equal; lia].
      rewrite (He w) by set_solver. f_equal. lia.
Qed.

Lemma stat_run_accounted w l s s' :
  regs_empty s → stat_run s l = Some s' → u64 (accounted w s') = u64 (accounted w s + added w l).
Proof.
  revert s. induction l as [|a l IH]; simpl; intros s He Hr.
  - simplify_eq. f_equal. lia.
  - destruct (stat_step s a) as [s1|] eqn:Ha; [|done].
    destruct (stat_step_accounted w _ _ _ He Ha) as [He1 H1]. rewrite (IH _ He1 Hr).
    rewrite <-u64_add_l, H1, u64_add_l. f_equal. simpl.
    destruct a; [case_decide|..]; lia.
Qed.

(** [C38] In every interleaving of reads, writes and the swaps of [statLoop], what has
    been counted is, modulo 2^64, in the counter, in a register of the loop or in
    the peer's total: no traffic is lost and none is counted twice. *)
Theorem metrics_accounting l s w :
  stat_run stat_init l = Some s →
  u64 (counter_get w (stat_counters s) + counter_get w (stat_regs s) +
       counter_get w (stats_total (stat_peer s))) = u64 (added w l).
Proof.
  intros H. apply (stat_run_accounted w) in H; [|by intros []].
  change (u64 (accounted w s) = u64 (added w l)). rewrite H. f_equal.
  by destruct w.
Qed.

Theorem metrics_accounting_witness :
  let l := [SAdd MW 1; SAdd BW 100; STick; SCollect; SAdd MW 1; SCollect; SCollect; SAdd BW 50;
            SCollect; SCollect] in
  match stat_run stat_init l with
  | Some s => counter_get BW (stat_counters s) = 50 ∧
      u64 (counter_get BW (stat_counters s) + counter_get BW (stat_regs s) +
           counter_get BW (stats_total (stat_peer s))) = u64 (added BW l)
  | None => False
  end.
Proof.
  intros l. destruct (stat_run stat_init l) as [s|] eqn:Hs; [|by vm_compute in Hs].
  split; [|by apply (metrics_accounting _ s BW)]. vm_compute in Hs. by injection Hs as <-.
Defined.

(** ** The wrapper is transparent and counts what passes *)

(** Writing through the wrapper writes the same bytes with the same result, and the
    two counters grow by one message and by the bytes that reached the connection,
    also when the connection fails midway; reading likewise. *)
Theorem MRW_transparent sc p k :
  (let '(sc', r) := MRW_Write p sc in
   (mrw_rw sc', r) = Write p (mrw_rw sc) ∧
   mrw_counters sc' = AddUint64 BW (u64 r.1) (AddUint64 MW 1 (mrw_counters sc)) ∧
   zlen (c_out (mrw_rw sc')) = zlen (c_out (mrw_rw sc)) + r.1) ∧
  (let '(sc', d) := MRW_Read k sc in
   (c_in (mrw_rw sc'), d) = read_chunk k (c_in (mrw_rw sc)) ∧
   c_out (mrw_rw sc') = c_out (mrw_rw sc) ∧
   mrw_counters sc' = AddUint64 BR (u64 (zlen (default [] d))) (AddUint64 MR 1 (mrw_counters sc))).
Proof.
  split.
  - unfold MRW_Write, Write. destruct (c_room (mrw_rw sc)) as [m|]; [destruct (_ <=? _) eqn:E|];
      simpl; split_and!; try done; rewrite zlen_app; try lia.
    unfold zlen in *. rewrite length_take. lia.
  - unfold MRW_Read. by destruct (read_chunk k (c_in (mrw_rw sc))) as [l d].
Qed.

(** ** [makeMetrics] and [GetInfo] *)

Lemma foldl_metrics (f : Peer → PeerMetrics) l (m : gmap string PeerMetrics) h :
  (∃ p, p ∈ l ∧ Hash p = h ∧ foldl (λ (m : gmap string PeerMetrics) p, <[Hash p := f p]> m) m l !! h = Some (f p)) ∨
  ((∀ p, p ∈ l → Hash p ≠ h) ∧ foldl (λ (m : gmap string PeerMetrics) p, <[Hash p := f p]> m) m l !! h = m !! h).
Proof.
  revert m. induction l as [|p l IH]; simpl; intros m; [right; split; [set_solver|done]|].
  destruct (IH (<[Hash p := f p]> m)) as [(q & Hq & Hh & ->)|[Hno ->]].
  - left. exists q. split_and!; [set_solver|done..].
  - rewrite lookup_insert. case_decide; [left; exists p; split_and!; [set_solver|done..]|].
    right. split; [set_solver|done].
Qed.

Lemma foldl_sum {A} (f : A → Z) l n : foldl (λ n x, n + f x) n l = n + foldr (λ x n, f x + n) 0 l.
Proof. revert n. induction l as [|x l IH]; simpl; intros n; [lia|]. rewrite IH. lia. Qed.

(** The metrics handed out have one entry per connected peer, under its hash, and
    the network's totals are the sums over those same peers. *)
Theorem makeMetrics_spec order info c :
  controller_wf c → is_order order →
  let (m, c') := makeMetrics order info c in
  let (i, _) := GetInfo order info c in
  (∀ h, m !! h = (λ p, GetMetrics c p (info p).1 (info p).2) <$> PeerStore_Get (c_peers c) h) ∧
  Info_Peers i = PeerStore_Total (c_peers c) ∧
  ∃ l, NoDup l ∧ (∀ p, p ∈ l ↔ PeerStore_Get (c_peers c) (Hash p) = Some p) ∧
    let sum f := foldr (λ p n, f (GetMetrics c p (info p).1 (info p).2) + n) 0 l in
    i = MkNetInfo (PeerStore_Total (c_peers c)) (sum MPSDown) (sum MPSUp) (sum BPSDown) (sum BPSUp) 0.
Proof.
  intros Hwf Ho. unfold makeMetrics, GetInfo. destruct (c_Slice order c) as [l c'] eqn:HS.
  destruct (c_Slice_spec order c l c' Hwf Ho HS) as (_ & Hp & _ & _ & _ & Hsp & _ & Hnd & Hl).
  assert (Hg : ∀ p, GetMetrics c' p (info p).1 (info p).2 = GetMetrics c p (info p).1 (info p).2).
  { intros p. unfold GetMetrics, isSpecial. by rewrite Hsp. }
  assert (Ht : PeerStore_Total (c_peers c') = PeerStore_Total (c_peers c)).
  { unfold PeerStore_Total. by rewrite Hp. }
  split_and!.
  - intros h. destruct (foldl_metrics (λ p, GetMetrics c' p (info p).1 (info p).2) l ∅ h)
      as [(p & Hin & <- & ->)|[Hno ->]].
    + apply Hl in Hin as ->. simpl. by rewrite Hg.
    + rewrite lookup_empty. destruct (PeerStore_Get (c_peers c) h) as [p|] eqn:Hgp; [|done].
      pose proof (Get_hash _ _ _ Hwf Hgp) as E. subst h. by apply Hl, Hno in Hgp.
  - done.
  - exists l. split_and!; [done..|]. rewrite Ht, !foldl_sum. simpl.
    f_equal; induction l; simpl; try done.
Qed.

Definition info_ab (p : Peer) : PeerState * peer_info :=
  (fresh_state, MkInfo 1 2 "10" (MkStats (MkCounters 3 4 5 6) (MkCounters 1 1 (Z.of_nat (peer_ref p)) 2))).

Theorem makeMetrics_spec_witness :
  (makeMetrics (λ l, l) info_ab ctl_ab).1 !! Hash peer_b =
    Some (GetMetrics ctl_ab peer_b (info_ab peer_b).1 (info_ab peer_b).2) ∧
  Info_Peers (GetInfo (λ l, l) info_ab ctl_ab).1 = 2.
Proof.
  pose proof (makeMetrics_spec (λ l, l) info_ab ctl_ab ctl_ab_wf is_order_id) as Hm.
  destruct (makeMetrics (λ l, l) info_ab ctl_ab) as [m c].
  destruct (GetInfo (λ l, l) info_ab ctl_ab) as [i c'].
  destruct Hm as (Hm & Hi & _). cbn [fst]. rewrite Hm, Hi. split; by vm_compute.
Defined.
