(* ===== verification/Readers.v ===== *)
(** * Readers of a buffer

    A decoder takes a value off the front of a list of bytes and returns the rest.
    That it returns, with enough fuel, follows from how much it takes. *)
From S2P Require Import Prelude.

(** a reader of a buffer answers with an error, or with a rest that is no longer
    than the buffer ([shrinks]), and shorter unless the buffer is empty ([consumes])
    or in any case ([needs_input]) *)
Definition rest_ok {E A} (P : nat → Prop) (o : outcome E (A * list byte)) : Prop :=
  match o with Ok (_, r) => P (length r) | Err _ => True | _ => False end.
Definition shrinks {E A} (b : list byte) (o : outcome E (A * list byte)) : Prop :=
  rest_ok (λ n, n ≤ length b)%nat o.
Definition consumes {E A} (b : list byte) (o : outcome E (A * list byte)) : Prop :=
  rest_ok (λ n, n ≤ length b ∧ (b ≠ [] → n < length b))%nat o.
Definition needs_input {E A} (b : list byte) (o : outcome E (A * list byte)) : Prop :=
  rest_ok (λ n, n < length b)%nat o.

Lemma rest_ok_impl {E A} (P Q : nat → Prop) (o : outcome E (A * list byte)) :
  rest_ok P o → (∀ n, P n → Q n) → rest_ok Q o.
Proof. destruct o as [[a r]| | |]; simpl; naive_solver. Qed.

Lemma rest_ok_bind {E A B} (P Q : nat → Prop) (o : outcome E (A * list byte))
    (f : A * list byte → outcome E (B * list byte)) :
  rest_ok P o → (∀ a r, P (length r) → rest_ok Q (f (a, r))) → rest_ok Q (o ≫= f).
Proof. destruct o as [[a r]| | |]; simpl; naive_solver. Qed.

