(* ===== verification/Gob.v ===== *)
(** * Go's [encoding/gob], as far as protocols 9 and 10 use it

    A gob stream is a sequence of messages, each after its length: definitions of
    types, each sent once by an encoder, and values.  The receiver matches the
    fields of a received struct with its own by name.  Sent are structs of unsigned
    integers, strings, byte slices and structs; received is whatever the remote
    node makes of it, except that values of a map or interface type in fields the
    receiver does not know are read as errors here. *)
From S2P Require Import Prelude GoStd Stream.

Inductive gob_error := GE_io (e : io_error) | GE_bad.
#[export] Instance gob_error_eq_dec : EqDecision gob_error.
Proof. solve_decision. Defined.

Definition or_bad {A} (o : option A) : outcome gob_error A :=
  match o with Some a => Ok a | None => Err GE_bad end.

(** [tooBig] of a 64-bit machine: no message or string is longer *)
Definition tooBig : Z := 2 ^ 33.

(** ** Integers and byte strings *)

Definition e_uint (n : Z) : list byte :=
  if n <? 128 then [byte_of n]
  else let k := Z.to_nat (Z.log2 n / 8 + 1) in
       byte_of (256 - Z.of_nat k) :: reverse (le_bytes k n).
Definition e_int (i : Z) : list byte := e_uint (if i <? 0 then 2 * (- i - 1) + 1 else 2 * i).
Definition e_bytes (l : list byte) : list byte := e_uint (zlen l) ++ l.

Definition d_uint (b : list byte) : outcome gob_error (Z * list byte) :=
  match b with
  | [] => Err GE_bad
  | c :: b =>
      let v := byte_val c in
      if v <? 128 then Ok (v, b)
      else
        let k := 256 - v in
        if (8 <? k) || (zlen b <? k) then Err GE_bad
        else Ok (le_value (reverse (take (Z.to_nat k) b)), drop (Z.to_nat k) b)
  end.
Definition d_int (b : list byte) : outcome gob_error (Z * list byte) :=
  d_uint b ≫= λ '(u, b), Ok (if Z.odd u then - (u / 2) - 1 else u / 2, b).
Definition d_bytes (b : list byte) : outcome gob_error (list byte * list byte) :=
  d_uint b ≫= λ '(n, b),
  if zlen b <? n then Err GE_bad else Ok (take (Z.to_nat n) b, drop (Z.to_nat n) b).

(** ** Types and values *)

(** the Go types of either end *)
Inductive gtype :=
  | TUint (max : Z)
  | TInt
  | TString
  | TBytes
  | TSlice (t : gtype)
  | TStruct (name : string) (fields : list (string * gtype)).

(** a value; a struct to send lists all its fields, a received one those that came,
    and [GNil] is a field without a value *)
Inductive gval :=
  | GNil
  | GUint (n : Z)
  | GInt (i : Z)
  | GBytes (l : list byte)
  | GSlice (l : list gval)
  | GStruct (fields : list (string * gval)).

(** fields with a zero value are not sent, except structs *)
Definition is_zero (v : gval) : bool :=
  match v with
  | GNil => true
  | GUint n => n =? 0
  | GInt i => i =? 0
  | GBytes l => zlen l =? 0
  | GSlice l => zlen l =? 0
  | GStruct _ => false
  end.

(** a field goes as the distance to the last one sent and its value; a zero ends *)
Fixpoint e_value (v : gval) : list byte :=
  match v with
  | GNil => []
  | GUint n => e_uint n
  | GInt i => e_int i
  | GBytes l => e_bytes l
  | GSlice l => e_uint (zlen l) ++ (fix go l := match l with [] => [] | v :: l => e_value v ++ go l end) l
  | GStruct fs =>
      (fix go (last i : Z) fs :=
         match fs with
         | [] => e_uint 0
         | (_, v) :: fs =>
             if is_zero v then go last (i + 1) fs
             else e_uint (i - last) ++ e_value v ++ go i (i + 1) fs
         end) (-1) 0 fs
  end.

(** *** What a receiver knows of the sender's types *)

Record wire := MkWire {
  w_array : option (Z * Z);             (* element, length *)
  w_slice : option Z;
  w_struct : option (list (string * Z)); (* names and types of the fields *)
  w_encoded : bool;                     (* a type with an encoding of its own *)
}.
Definition struct_wire (fs : list (string * Z)) : wire := MkWire None None (Some fs) false.

(** the types of the messages that define types *)
Definition builtin_types : gmap Z wire := list_to_map
  [(16, struct_wire [("ArrayT", 17); ("SliceT", 19); ("StructT", 20); ("MapT", 23);
                     ("GobEncoderT", 24); ("BinaryMarshalerT", 24); ("TextMarshalerT", 24)]);
   (17, struct_wire [("CommonType", 18); ("Elem", 2); ("Len", 2)]);
   (18, struct_wire [("Name", 6); ("Id", 2)]);
   (19, struct_wire [("CommonType", 18); ("Elem", 2)]);
   (20, struct_wire [("CommonType", 18); ("Field", 22)]);
   (21, struct_wire [("Name", 6); ("Id", 2)]);
   (22, MkWire None (Some 21) None false);
   (23, struct_wire [("CommonType", 18); ("Key", 2); ("Elem", 2)]);
   (24, struct_wire [("CommonType", 18)])]%string.

Definition t_CommonType : gtype := TStruct "CommonType" [("Name", TString); ("Id", TInt)].
Definition t_fieldType : gtype := TStruct "fieldType" [("Name", TString); ("Id", TInt)].
Definition t_wireType : gtype :=
  let gobEncoder := TStruct "gobEncoderType" [("CommonType", t_CommonType)] in
  TStruct "wireType"
    [("ArrayT", TStruct "arrayType" [("CommonType", t_CommonType); ("Elem", TInt); ("Len", TInt)]);
     ("SliceT", TStruct "sliceType" [("CommonType", t_CommonType); ("Elem", TInt)]);
     ("StructT", TStruct "structType" [("CommonType", t_CommonType); ("Field", TSlice t_fieldType)]);
     ("MapT", TStruct "mapType" [("CommonType", t_CommonType); ("Key", TInt); ("Elem", TInt)]);
     ("GobEncoderT", gobEncoder); ("BinaryMarshalerT", gobEncoder); ("TextMarshalerT", gobEncoder)].

(** ** Decoding a value *)

Fixpoint assoc {A} (n : string) (l : list (string * A)) : option A :=
  match l with [] => None | (m, a) :: l => if String.eqb n m then Some a else assoc n l end.

(** can a value of type [id] be skipped: are the types it is made of known *)
Fixpoint ignorable (fuel : nat) (types : gmap Z wire) (seen : list Z) (id : Z) : bool :=
  if (1 <=? id) && (id <=? 8) || bool_decide (id ∈ seen) then true
  else match fuel, types !! id with
       | S fuel, Some w =>
           match w_array w, w_slice w, w_struct w with
           | Some (e, _), _, _ => ignorable fuel types (id :: seen) e
           | None, Some e, _ => ignorable fuel types (id :: seen) e
           | None, None, Some fs =>
               forallb (λ f, negb (bool_decide (f.1 = EmptyString)) && ignorable fuel types (id :: seen) f.2) fs
           | None, None, None => w_encoded w
           end
       | _, _ => false
       end.

(** [compileDec]: does the received type [id] fit the Go type [t] *)
Fixpoint compile (types : gmap Z wire) (t : gtype) (id : Z) : bool :=
  match t with
  | TUint _ => id =? 3
  | TInt => id =? 2
  | TString => id =? 6
  | TBytes => id =? 5
  | TSlice t => match types !! id ≫= w_slice with Some e => compile types t e | None => false end
  | TStruct _ fs =>
      match types !! id ≫= w_struct with
      | None => false
      | Some wfs =>
          forallb (λ w : string * Z,
            negb (bool_decide (w.1 = EmptyString)) &&
            (fix field fs :=
               match fs with
               | [] => ignorable (S (size types)) types [] w.2
               | (n, t) :: fs => if decide (w.1 = n) then compile types t w.2 else field fs
               end) fs) wfs
      end
  end.

(** [lt] is the Go type to decode into, or none when the value is skipped *)
Fixpoint d_value (fuel : nat) (types : gmap Z wire) (lt : option gtype) (id : Z) (b : list byte)
    : outcome gob_error (gval * list byte) :=
  match fuel with
  | O => OutOfFuel
  | S fuel =>
      match lt with
      | Some (TUint max) =>
          d_uint b ≫= λ '(u, b), if max <? u then Err GE_bad else Ok (GUint u, b)
      | Some TInt => d_int b ≫= λ '(i, b), Ok (GInt i, b)
      | Some TString | Some TBytes => d_bytes b ≫= λ '(l, b), Ok (GBytes l, b)
      | Some (TSlice t) =>
          or_bad (types !! id ≫= w_slice) ≫= λ e,
          d_uint b ≫= λ '(n, b),
          if zlen b <? n then Err GE_bad
          else d_elems fuel types (Some t) e (Z.to_nat n) b ≫= λ '(l, b), Ok (GSlice l, b)
      | Some (TStruct _ fs) =>
          or_bad (types !! id ≫= w_struct) ≫= λ wfs,
          d_fields fuel types (Some fs) wfs (-1) b ≫= λ '(vs, b), Ok (GStruct vs, b)
      | None =>
          if (1 <=? id) && (id <=? 4) then d_uint b ≫= λ '(_, b), Ok (GNil, b)
          else if (id =? 5) || (id =? 6) then d_bytes b ≫= λ '(_, b), Ok (GNil, b)
          else if id =? 7 then
            d_uint b ≫= λ '(_, b), d_uint b ≫= λ '(_, b), Ok (GNil, b)
          else
            or_bad (types !! id) ≫= λ w,
            match w_array w, w_slice w, w_struct w with
            | Some (e, len), _, _ =>
                d_uint b ≫= λ '(n, b),
                if negb (n =? len) || (zlen b <? n) then Err GE_bad
                else d_elems fuel types None e (Z.to_nat n) b ≫= λ '(_, b), Ok (GNil, b)
            | None, Some e, _ =>
                d_uint b ≫= λ '(n, b),
                if zlen b <? n then Err GE_bad
                else d_elems fuel types None e (Z.to_nat n) b ≫= λ '(_, b), Ok (GNil, b)
            | None, None, Some wfs =>
                d_fields fuel types None wfs (-1) b ≫= λ '(_, b), Ok (GNil, b)
            | None, None, None =>
                if w_encoded w then d_bytes b ≫= λ '(_, b), Ok (GNil, b) else Err GE_bad
            end
      end
  end
with d_elems (fuel : nat) (types : gmap Z wire) (lt : option gtype) (id : Z) (n : nat) (b : list byte)
    : outcome gob_error (list gval * list byte) :=
  match n, fuel with
  | O, _ => Ok ([], b)
  | _, O => OutOfFuel
  | S n, S fuel =>
      if decide (b = []) then Err GE_bad
      else
        d_value fuel types lt id b ≫= λ '(v, b),
        d_elems fuel types lt id n b ≫= λ '(l, b), Ok (v :: l, b)
  end
with d_fields (fuel : nat) (types : gmap Z wire) (fs : option (list (string * gtype)))
    (wfs : list (string * Z)) (last : Z) (b : list byte)
    : outcome gob_error (list (string * gval) * list byte) :=
  match fuel with
  | O => OutOfFuel
  | S fuel =>
      if decide (b = []) then Ok ([], [])
      else
        d_uint b ≫= λ '(delta, b),
        if delta =? 0 then Ok ([], b)
        else
          let i := last + delta in
          if zlen wfs <=? i then Err GE_bad
          else
            or_bad (wfs !! Z.to_nat i) ≫= λ '(n, id),
            let lt := match fs with Some fs => assoc n fs | None => None end in
            d_value fuel types lt id b ≫= λ '(v, b),
            d_fields fuel types fs wfs i b ≫= λ '(vs, b),
            Ok (match lt with Some _ => (n, v) :: vs | None => vs end, b)
  end.

Definition value_fuel (b : list byte) : nat := 2 * length b + 3.

(** [decodeValue] *)
Definition decodeValue (types : gmap Z wire) (t : gtype) (id : Z) (b : list byte)
    : outcome gob_error (gval * list byte) :=
  if compile types t id then d_value (value_fuel b) types (Some t) id b else Err GE_bad.

(** at the top of a message some field has to match *)
Definition matched (types : gmap Z wire) (t : gtype) (id : Z) : bool :=
  match t, types !! id ≫= w_struct with
  | TStruct _ fs, Some wfs =>
      (zlen fs =? 0) || (zlen wfs =? 0) || existsb (λ w, bool_decide (w.1 ∈ fs.*1)) wfs
  | _, _ => true
  end.

(** ** Encoder and decoder on a connection *)

(** Both ends of a protocol object: the types its decoder has seen and those its
    encoder has sent, by name.  [type_id] are the numbers the process has given to
    its types. *)
Record gob := MkGob {
  gob_conn : conn;
  gob_types : gmap Z wire;
  gob_sent : gset string;
}.
Definition newGob (c : conn) : gob := MkGob c builtin_types ∅.

Definition set_conn (c : conn) (g : gob) : gob := MkGob c (gob_types g) (gob_sent g).

Section Gob.
Context (type_id : string → Z).

Definition wire_id (t : gtype) : Z :=
  match t with
  | TUint _ => 3 | TInt => 2 | TString => 6 | TBytes => 5
  | TSlice _ => 0
  | TStruct n _ => type_id n
  end.

(** the struct types a type is made of, in the order an encoder defines them *)
Fixpoint defs (t : gtype) : list (string * list (string * gtype)) :=
  match t with
  | TStruct n fs =>
      (n, fs) :: (fix go fs := match fs with [] => [] | (_, t) :: fs => defs t ++ go fs end) fs
  | _ => []
  end.

(** the definition of a struct, as a value of [wireType] *)
Definition wireType_of (d : string * list (string * gtype)) : gval :=
  GStruct [("ArrayT", GNil); ("SliceT", GNil);
    ("StructT", GStruct
      [("CommonType", GStruct [("Name", GBytes (str_bytes d.1)); ("Id", GInt (type_id d.1))]);
       ("Field", GSlice ((λ f, GStruct [("Name", GBytes (str_bytes f.1)); ("Id", GInt (wire_id f.2))]) <$> d.2))]);
    ("MapT", GNil); ("GobEncoderT", GNil); ("BinaryMarshalerT", GNil); ("TextMarshalerT", GNil)]%string.

Definition writeMessage (m : list byte) (g : gob) : gob * outcome gob_error () :=
  if tooBig <? zlen m then (g, Err GE_bad)
  else
    let '(c, (_, failed)) := Write (e_bytes m) (gob_conn g) in
    (set_conn c g, if failed then Err (GE_io ErrWrite) else Ok tt).

Definition def_message (d : string * list (string * gtype)) : list byte :=
  e_int (- type_id d.1) ++ e_value (wireType_of d).
Definition value_message (t : gtype) (v : gval) : list byte := e_int (wire_id t) ++ e_value v.

Fixpoint send_defs (ds : list (string * list (string * gtype))) (g : gob)
    : gob * outcome gob_error () :=
  match ds with
  | [] => (g, Ok tt)
  | d :: ds =>
      if decide (d.1 ∈ gob_sent g) then send_defs ds g
      else match writeMessage (def_message d) g with
           | (g, Ok _) => send_defs ds (MkGob (gob_conn g) (gob_types g) ({[d.1]} ∪ gob_sent g))
           | r => r
           end
  end.

Definition Encode (t : gtype) (v : gval) (g : gob) : gob * outcome gob_error () :=
  match send_defs (defs t) g with
  | (g, Ok _) => writeMessage (value_message t v) g
  | r => r
  end.

(** *** Decoding *)

Definition read (n : Z) (g : gob) : gob * outcome gob_error (list byte) :=
  let r := ReadFull n (gob_conn g) in
  (set_conn r.1 g, match r.2 with
                   | Ok d => Ok d
                   | Err e => Err (GE_io e)
                   | Panic => Panic
                   | OutOfFuel => OutOfFuel
                   end).

Definition unexpected (e : gob_error) : gob_error :=
  match e with GE_io EOF => GE_io UnexpectedEOF | _ => e end.

(** [decodeUintReader] *)
Definition read_uint (g : gob) : gob * outcome gob_error Z :=
  match read 1 g with
  | (g, Ok b) =>
      let v := le_value b in
      if v <? 128 then (g, Ok v)
      else
        let k := 256 - v in
        if 8 <? k then (g, Err GE_bad)
        else match read k g with
             | (g, Ok b) => (g, Ok (le_value (reverse b)))
             | (g, Err e) => (g, Err (unexpected e))
             | (g, Panic) => (g, Panic)
             | (g, OutOfFuel) => (g, OutOfFuel)
             end
  | (g, Err e) => (g, Err e)
  | (g, Panic) => (g, Panic)
  | (g, OutOfFuel) => (g, OutOfFuel)
  end.

Definition recvMessage (g : gob) : gob * outcome gob_error (list byte) :=
  match read_uint g with
  | (g, Ok n) =>
      if tooBig <=? n then (g, Err GE_bad)
      else match read n g with
           | (g, Err e) => (g, Err (unexpected e))
           | r => r
           end
  | (g, Err e) => (g, Err e)
  | (g, Panic) => (g, Panic)
  | (g, OutOfFuel) => (g, OutOfFuel)
  end.

Definition int_of (v : option gval) : Z := match v with Some (GInt i) => i | _ => 0 end.
Definition uint_of (v : option gval) : Z := match v with Some (GUint n) => n | _ => 0 end.
Definition bytes_of (v : option gval) : list byte := match v with Some (GBytes l) => l | _ => [] end.
Definition fields_of (v : gval) : list (string * gval) := match v with GStruct fs => fs | _ => [] end.

(** the received [wireType] *)
Definition wire_of (v : gval) : wire :=
  let fs := fields_of v in
  let field (x y : string) := assoc x fs ≫= λ v, Some (assoc y (fields_of v)) in
  MkWire
    ((λ e, (int_of e, int_of (default None (field "ArrayT" "Len")))) <$> field "ArrayT" "Elem")
    (int_of <$> field "SliceT" "Elem")
    ((λ v, match v with
           | Some (GSlice l) => (λ f, (bytes_str (bytes_of (assoc "Name" (fields_of f))), int_of (assoc "Id" (fields_of f)))) <$> l
           | _ => []
           end) <$> field "StructT" "Field")
    (bool_decide (is_Some (assoc "GobEncoderT" fs)) || bool_decide (is_Some (assoc "BinaryMarshalerT" fs))
     || bool_decide (is_Some (assoc "TextMarshalerT" fs)))%string.

(** [recvType(id)] on the rest of a message, which it has to use up *)
Definition recvType (id : Z) (b : list byte) (g : gob) : outcome gob_error gob :=
  if (id <? 64) || bool_decide (is_Some (gob_types g !! id)) then Err GE_bad
  else
    decodeValue (gob_types g) t_wireType 16 b ≫= λ '(v, rest),
    if decide (rest = []) then Ok (MkGob (gob_conn g) (<[id := wire_of v]> (gob_types g)) (gob_sent g))
    else Err GE_bad.

(** [Decode] into a value of type [t]: messages until one holds a value *)
Fixpoint decode_loop (fuel : nat) (first : bool) (t : gtype) (g : gob) : gob * outcome gob_error gval :=
  match fuel with
  | O => (g, OutOfFuel)
  | S fuel =>
      match recvMessage g with
      | (g, Ok b) =>
          match d_int b with
          | Ok (id, b) =>
              if 0 <=? id then
                (g, if compile (gob_types g) t id && matched (gob_types g) t id then
                      decodeValue (gob_types g) t id b ≫= λ '(v, _), Ok v
                    else Err GE_bad)
              else match recvType (- id) b g with
                   | Ok g => decode_loop fuel false t g
                   | Err e => (g, Err e)
                   | Panic => (g, Panic)
                   | OutOfFuel => (g, OutOfFuel)
                   end
          | Err e => (g, Err e)
          | Panic => (g, Panic)
          | OutOfFuel => (g, OutOfFuel)
          end
      | (g, Err e) => (g, Err (if first then e else unexpected e))
      | (g, Panic) => (g, Panic)
      | (g, OutOfFuel) => (g, OutOfFuel)
      end
  end.

Definition Decode (t : gtype) (g : gob) : gob * outcome gob_error gval :=
  decode_loop (S (length (bytes_in (gob_conn g)))) true t g.
End Gob.

(** the stream for a struct of the package documentation's example *)
Example gob_point :
  let ids := λ _ : string, 65 in
  let t := TStruct "Point" [("X", TInt); ("Y", TInt)] in
  let v := GStruct [("X", GInt 22); ("Y", GInt 33)] in
  let g := (Encode ids t v (newGob (MkConn [] [] None))).1 in
  c_out (gob_conn g) =
    [x1f; xff; x81; x03; x01; x01; x05; x50; x6f; x69; x6e; x74; x01; xff; x82; x00; x01; x02;
     x01; x01; x58; x01; x04; x00; x01; x01; x59; x01; x04; x00; x00; x00;
     x07; xff; x82; x01; x2c; x01; x42; x00] ∧
  (Decode t (newGob (MkConn [c_out (gob_conn g)] [] None))).2 = Ok v.
Proof. by vm_compute. Qed.
