(* ===== verification/GobSpec.v ===== *)
(** * What [encoding/gob] guarantees

    A value that an encoder sends is decoded as itself at the other end, with its
    type definitions going ahead once, and decoding returns on every stream. *)
From S2P Require Import Prelude Readers GoStd Stream Gob.

(** ** Integers and byte strings *)

Lemma e_uint_cons n : ∃ c l, e_uint n = c :: l.
Proof. unfold e_uint. case_match; by eexists _, _. Qed.

(** the bytes after the first and their number *)
Lemma e_uint_spec n :
  0 ≤ n < 2 ^ 64 →
  (n < 128 ∧ e_uint n = [byte_of n] ∧ byte_val (byte_of n) = n) ∨
  (128 ≤ n ∧ ∃ k c, 1 ≤ k ≤ 8 ∧ byte_val c = 256 - k ∧ e_uint n = c :: reverse (le_bytes (Z.to_nat k) n) ∧
    le_value (le_bytes (Z.to_nat k) n) = n).
Proof.
  intros Hn. unfold e_uint. destruct (Z.ltb_spec n 128).
  - left. split_and!; [done|done|]. rewrite byte_val_of. apply Z.mod_small. lia.
  - right. split; [done|]. set (k := Z.log2 n / 8 + 1).
    assert (Hl : Z.log2 n < 64) by (apply Z.log2_lt_pow2; lia).
    pose proof (Z.log2_nonneg n). pose proof (Z.div_mod (Z.log2 n) 8 ltac:(lia)).
    pose proof (Z.mod_pos_bound (Z.log2 n) 8 ltac:(lia)).
    exists k, (byte_of (256 - Z.of_nat (Z.to_nat k))). split_and!; [lia|lia| |done|].
    + rewrite byte_val_of, Z2Nat.id by lia. apply Z.mod_small. lia.
    + rewrite le_value_bytes. apply Z.mod_small. rewrite Z2Nat.id by lia.
      split; [lia|]. apply Z.log2_lt_cancel. rewrite Z.log2_pow2; lia.
Qed.

Lemma d_e_uint n rest : 0 ≤ n < 2 ^ 64 → d_uint (e_uint n ++ rest) = Ok (n, rest).
Proof.
  intros Hn. destruct (e_uint_spec n Hn) as [(Hs & -> & Hv)|(Hs & k & c & Hk & Hc & -> & Hv)].
  - simpl. rewrite Hv. by rewrite (proj2 (Z.ltb_lt _ _)) by lia.
  - simpl. rewrite Hc. rewrite (proj2 (Z.ltb_ge _ _)) by lia.
    replace (256 - (256 - k)) with k by lia.
    assert (Hlen : length (reverse (le_bytes (Z.to_nat k) n)) = Z.to_nat k).
    { by rewrite length_reverse, le_bytes_length. }
    rewrite zlen_app. unfold zlen at 1. rewrite Hlen. pose proof (zlen_nonneg rest).
    rewrite (proj2 (Z.ltb_ge _ _)), (proj2 (Z.ltb_ge _ _)) by lia. cbn [orb].
    rewrite take_app_length', drop_app_length' by done. by rewrite reverse_involutive, Hv.
Qed.

Lemma d_e_int i rest : is_i64 i → d_int (e_int i ++ rest) = Ok (i, rest).
Proof.
  unfold is_i64. intros Hi. unfold d_int, e_int. rewrite d_e_uint by (case_match; lia).
  rewrite bind_Ok. destruct (Z.ltb_spec i 0).
  - replace (2 * (- i - 1) + 1) with (1 + 2 * (- i - 1)) by lia.
    rewrite Z.odd_add_mul_2, (Z.mul_comm 2), Z.div_add by lia.
    change (Z.odd 1) with true. change (1 / 2) with 0. do 2 f_equal. lia.
  - rewrite Z.odd_mul. simpl. rewrite Z.mul_comm, Z.div_mul by lia. done.
Qed.

Lemma d_e_bytes l rest : zlen l < 2 ^ 64 → d_bytes (e_bytes l ++ rest) = Ok (l, rest).
Proof.
  intros Hl. pose proof (zlen_nonneg l). unfold d_bytes, e_bytes.
  rewrite <-app_assoc, d_e_uint by lia. rewrite bind_Ok, zlen_app. pose proof (zlen_nonneg rest).
  rewrite (proj2 (Z.ltb_ge _ _)) by lia.
  unfold zlen. by rewrite take_app_length', drop_app_length' by lia.
Qed.

(** ** Values and types *)

Fixpoint gtype_ind' (P : gtype → Prop) (HU : ∀ m, P (TUint m)) (HI : P TInt) (HS : P TString)
    (HB : P TBytes) (HL : ∀ t, P t → P (TSlice t))
    (HT : ∀ n fs, Forall (λ f : string * gtype, P f.2) fs → P (TStruct n fs)) (t : gtype) : P t :=
  let rec := gtype_ind' P HU HI HS HB HL HT in
  match t with
  | TUint m => HU m
  | TInt => HI
  | TString => HS
  | TBytes => HB
  | TSlice t => HL t (rec t)
  | TStruct n fs => HT n fs
      ((fix go fs : Forall (λ f : string * gtype, P f.2) fs :=
          match fs with
          | [] => List.Forall_nil _
          | (n, t) :: fs => List.Forall_cons _ (n, t) _ (rec t) (go fs)
          end) fs)
  end.

(** [v] is a value of the type [t] *)
Fixpoint typed (t : gtype) (v : gval) : Prop :=
  match t, v with
  | TUint max, GUint n => 0 ≤ n ≤ max ∧ max < 2 ^ 64
  | TInt, GInt i => is_i64 i
  | TString, GBytes l | TBytes, GBytes l => zlen l < 2 ^ 64
  | TSlice t, GSlice l =>
      zlen l < 2 ^ 64 ∧ (fix go l := match l with [] => True | v :: l => typed t v ∧ go l end) l
  | TStruct _ fs, GStruct vs =>
      (fix go fs vs :=
         match fs, vs with
         | [], [] => True
         | (n, t) :: fs, (m, v) :: vs => n = m ∧ (v = GNil ∨ typed t v) ∧ go fs vs
         | _, _ => False
         end) fs vs
  | _, _ => False
  end.

(** what arrives of a value: the fields that are not zero *)
Fixpoint norm (v : gval) : gval :=
  match v with
  | GSlice l => GSlice ((fix go l := match l with [] => [] | v :: l => norm v :: go l end) l)
  | GStruct fs =>
      GStruct ((fix go fs :=
                  match fs with
                  | [] => []
                  | (n, v) :: fs => if is_zero v then go fs else (n, norm v) :: go fs
                  end) fs)
  | _ => v
  end.

(** the received type [id] is the type [t] *)
Fixpoint links (types : gmap Z wire) (t : gtype) (id : Z) : Prop :=
  match t with
  | TUint _ => id = 3
  | TInt => id = 2
  | TString => id = 6
  | TBytes => id = 5
  | TSlice t => ∃ e, types !! id ≫= w_slice = Some e ∧ links types t e
  | TStruct _ fs => NoDup fs.*1 ∧ ∃ wfs, types !! id ≫= w_struct = Some wfs ∧
      (fix go fs wfs :=
         match fs, wfs with
         | [], [] => True
         | (n, t) :: fs, (m, w) :: wfs => n = m ∧ n ≠ EmptyString ∧ links types t w ∧ go fs wfs
         | _, _ => False
         end) fs wfs
  end.

(** the loops over the fields and elements, by name *)
Fixpoint e_fields (last i : Z) (fs : list (string * gval)) : list byte :=
  match fs with
  | [] => e_uint 0
  | (_, v) :: fs =>
      if is_zero v then e_fields last (i + 1) fs
      else e_uint (i - last) ++ e_value v ++ e_fields i (i + 1) fs
  end.
Fixpoint e_elems (l : list gval) : list byte :=
  match l with [] => [] | v :: l => e_value v ++ e_elems l end.
Fixpoint norm_fields (fs : list (string * gval)) : list (string * gval) :=
  match fs with
  | [] => []
  | (n, v) :: fs => if is_zero v then norm_fields fs else (n, norm v) :: norm_fields fs
  end.
Definition typed_elems (t : gtype) : list gval → Prop :=
  fix go l := match l with [] => True | v :: l => typed t v ∧ go l end.
Fixpoint typed_fields (fs : list (string * gtype)) (vs : list (string * gval)) : Prop :=
  match fs, vs with
  | [], [] => True
  | (n, t) :: fs, (m, v) :: vs => n = m ∧ (v = GNil ∨ typed t v) ∧ typed_fields fs vs
  | _, _ => False
  end.
Definition links_fields (types : gmap Z wire) : list (string * gtype) → list (string * Z) → Prop :=
  fix go fs wfs :=
    match fs, wfs with
    | [], [] => True
    | (n, t) :: fs, (m, w) :: wfs => n = m ∧ n ≠ EmptyString ∧ links types t w ∧ go fs wfs
    | _, _ => False
    end.

Lemma e_value_struct fs : e_value (GStruct fs) = e_fields (-1) 0 fs.
Proof. done. Qed.
Lemma e_value_slice l : e_value (GSlice l) = e_uint (zlen l) ++ e_elems l.
Proof. done. Qed.
Lemma norm_struct fs : norm (GStruct fs) = GStruct (norm_fields fs).
Proof. done. Qed.
Lemma norm_slice l : norm (GSlice l) = GSlice (norm <$> l).
Proof. done. Qed.

Lemma e_value_nonempty t v : typed t v → e_value v ≠ [].
Proof.
  destruct t, v; simpl; try done; intros _.
  - destruct (e_uint_cons n) as (c & l & ->). done.
  - unfold e_int. case_match; match goal with |- e_uint ?n ≠ _ => by destruct (e_uint_cons n) as (? & ? & ->) end.
  - unfold e_bytes. by destruct (e_uint_cons (zlen l)) as (c & k & ->).
  - unfold e_bytes. by destruct (e_uint_cons (zlen l)) as (c & k & ->).
  - by destruct (e_uint_cons (zlen l)) as (c & k & ->).
  - change (e_fields (-1) 0 fields0 ≠ []). generalize (-1), 0.
    induction fields0 as [|[n v] vs IH]; intros last i; [done|]. simpl.
    destruct (is_zero v); [apply IH|]. by destruct (e_uint_cons (i - last)) as (c & k & ->).
Qed.

Lemma e_fields_nonempty last i vs : e_fields last i vs ≠ [].
Proof.
  revert last i. induction vs as [|[n v] vs IH]; intros last i; [done|]. simpl.
  destruct (is_zero v); [apply IH|]. by destruct (e_uint_cons (i - last)) as (c & k & ->).
Qed.

(** ** A sent value is decoded as itself *)

Definition decodes (types : gmap Z wire) (t : gtype) : Prop :=
  ∀ id v fuel rest, links types t id → typed t v → (2 * length (e_value v) + 2 ≤ fuel)%nat →
    d_value fuel types (Some t) id (e_value v ++ rest) = Ok (norm v, rest).

Lemma d_elems_e types t id l fuel rest :
  decodes types t → links types t id → typed_elems t l →
  (2 * length (e_elems l) + 3 ≤ fuel)%nat →
  d_elems fuel types (Some t) id (length l) (e_elems l ++ rest) = Ok (norm <$> l, rest).
Proof.
  intros Hd Hl. revert fuel. induction l as [|v l IH]; intros fuel Ht Hf.
  { by destruct fuel. }
  destruct Ht as [Hv Ht]. pose proof (e_value_nonempty t v Hv) as Hne.
  destruct fuel as [|fuel]; [lia|]. cbn [length d_elems e_elems] in *. rewrite length_app in Hf.
  assert (0 < length (e_value v))%nat by (destruct (e_value v); [done|simpl; lia]).
  rewrite <-app_assoc. rewrite decide_False.
  2: { by intros [? _]%app_eq_nil. }
  rewrite Hd by (done || lia). rewrite bind_Ok, IH by (done || lia). done.
Qed.

Lemma assoc_app_here {A} (pre fs : list (string * A)) n t :
  NoDup (pre ++ (n, t) :: fs).*1 → assoc n (pre ++ (n, t) :: fs) = Some t.
Proof.
  induction pre as [|[m u] pre IH]; cbn; intros Hnd.
  - by rewrite String.eqb_refl.
  - apply NoDup_cons in Hnd as [Hm Hnd]. rewrite (proj2 (String.eqb_neq _ _)); [by apply IH|].
    intros ->. apply Hm. rewrite fmap_app. simpl. set_solver.
Qed.

Lemma d_fields_e types pre fs wpre wfs vs last fuel rest :
  Forall (λ f, decodes types f.2) fs →
  NoDup (pre ++ fs).*1 → length pre = length wpre →
  links_fields types fs wfs → typed_fields fs vs →
  -1 ≤ last < zlen pre → zlen (pre ++ fs) < 2 ^ 32 →
  (2 * length (e_fields last (zlen pre) vs) + 1 ≤ fuel)%nat →
  d_fields fuel types (Some (pre ++ fs)) (wpre ++ wfs) last (e_fields last (zlen pre) vs ++ rest)
    = Ok (norm_fields vs, rest).
Proof.
  intros Hd. revert pre wpre wfs vs last fuel.
  induction Hd as [|[n t] fs Hd _ IH]; intros pre wpre wfs vs last fuel Hnd Hlen Hl Ht Hlast Hz Hf;
    destruct wfs as [|[m w] wfs], vs as [|[m' v] vs]; try done.
  - destruct fuel as [|fuel]; [simpl in Hf; lia|]. done.
  - destruct Hl as (<- & Hne & Hw & Hl), Ht as (<- & Hv & Ht).
    assert (Hshift : pre ++ (n, t) :: fs = (pre ++ [(n, t)]) ++ fs) by by rewrite <-app_assoc.
    assert (Hwshift : wpre ++ (n, w) :: wfs = (wpre ++ [(n, w)]) ++ wfs) by by rewrite <-app_assoc.
    assert (Hzp : zlen (pre ++ [(n, t)]) = zlen pre + 1) by by rewrite zlen_app.
    cbn [e_fields norm_fields] in *. destruct (is_zero v) eqn:Hzero.
    + rewrite Hshift, Hwshift, <-Hzp. apply IH; try done; rewrite <-?Hshift, ?Hzp; try done; [|lia].
      rewrite !length_app. simpl. lia.
    + destruct Hv as [->|Hv]; [done|]. destruct fuel as [|fuel]; [lia|].
      destruct (e_uint_cons (zlen pre - last)) as (c0 & l0 & Hc0).
      cbn [d_fields]. rewrite <-!app_assoc. rewrite decide_False by by rewrite Hc0.
      rewrite !length_app in Hf. assert (0 < length (e_uint (zlen pre - last)))%nat by (rewrite Hc0; simpl; lia).
      rewrite zlen_app in Hz. pose proof (zlen_nonneg ((n, t) :: fs)).
      rewrite d_e_uint by lia. rewrite bind_Ok. rewrite (proj2 (Z.eqb_neq _ _)) by lia.
      replace (last + (zlen pre - last)) with (zlen pre) by lia. cbv zeta.
      assert (zlen wpre = zlen pre) as Hwz by (unfold zlen; by rewrite Hlen).
      rewrite zlen_app, zlen_cons, Hwz. pose proof (zlen_nonneg wfs).
      rewrite (proj2 (Z.leb_gt _ _)) by lia.
      assert ((wpre ++ (n, w) :: wfs) !! Z.to_nat (zlen pre) = Some (n, w)) as ->.
      { unfold zlen. rewrite Nat2Z.id, Hlen. by apply list_lookup_middle. }
      cbn [or_bad]. rewrite bind_Ok, assoc_app_here by done.
      pose proof (e_fields_nonempty (zlen pre) (zlen pre + 1) vs) as Hrest.
      assert (0 < length (e_fields (zlen pre) (zlen pre + 1) vs))%nat
        by (destruct (e_fields _ _ vs); [done|simpl; lia]).
      rewrite Hd by (done || lia). rewrite bind_Ok.
      rewrite Hshift, Hwshift, <-Hzp, IH.
      * by rewrite bind_Ok.
      * by rewrite <-Hshift.
      * rewrite !length_app. simpl. lia.
      * done.
      * done.
      * lia.
      * rewrite <-Hshift, zlen_app. done.
      * rewrite Hzp. lia.
Qed.

(** no type has that many fields *)
Fixpoint small_type (t : gtype) : Prop :=
  match t with
  | TSlice t => small_type t
  | TStruct _ fs => zlen fs < 2 ^ 32 ∧
      (fix go fs := match fs with [] => True | (_, t) :: fs => small_type t ∧ go fs end) fs
  | _ => True
  end.

Lemma d_value_e types t : small_type t → decodes types t.
Proof.
  induction t as [max| | | |t IH|name fs IH] using gtype_ind'; intros Hsm id v fuel rest Hl Ht Hf;
    destruct fuel as [|fuel]; try lia; destruct v; try done; cbn [d_value e_value norm].
  - destruct Ht. rewrite d_e_uint, bind_Ok by lia. by rewrite (proj2 (Z.ltb_ge _ _)) by lia.
  - by rewrite d_e_int, bind_Ok.
  - by rewrite d_e_bytes, bind_Ok.
  - by rewrite d_e_bytes, bind_Ok.
  - destruct Hl as (e & -> & Hl), Ht as [Hlen Ht]. cbn [or_bad]. rewrite bind_Ok.
    change (e_value (GSlice l)) with (e_uint (zlen l) ++ e_elems l) in Hf.
    change ((fix go l := match l with [] => [] | v :: l => e_value v ++ go l end) l) with (e_elems l).
    change (norm (GSlice l)) with (norm (GSlice l)). rewrite <-app_assoc.
    pose proof (zlen_nonneg l). rewrite d_e_uint, bind_Ok by lia.
    assert (Hle : zlen l ≤ zlen (e_elems l)).
    { clear -Ht. induction l as [|v l IHl]; [done|]. destruct Ht as [Hv Ht]. specialize (IHl Ht).
      cbn [e_elems]. rewrite zlen_cons, zlen_app. pose proof (e_value_nonempty t v Hv).
      assert (zlen (e_value v) ≠ 0) by (by intros ?%zlen_0). pose proof (zlen_nonneg (e_value v)). lia. }
    rewrite zlen_app. pose proof (zlen_nonneg rest). rewrite (proj2 (Z.ltb_ge _ _)) by lia.
    unfold zlen at 1. rewrite Nat2Z.id. destruct (e_uint_cons (zlen l)) as (c & k & Hc).
    rewrite Hc in Hf. simpl in Hf. rewrite length_app in Hf.
    rewrite d_elems_e; [done|by apply IH|done|exact Ht|lia].
  - destruct Hl as (Hnd & wfs & -> & Hl), Hsm as [Hz Hsm]. cbn [or_bad]. rewrite bind_Ok.
    rewrite e_value_struct in Hf.
    change ((fix go (last i : Z) fs := match fs with
         | [] => e_uint 0
         | (_, v) :: fs => if is_zero v then go last (i + 1) fs
             else e_uint (i - last) ++ e_value v ++ go i (i + 1) fs
         end) (-1) 0 fields) with (e_fields (-1) 0 fields).
    rewrite (d_fields_e types [] fs [] wfs); try done.
    + clear -IH Hsm. induction IH as [|[n t] fs Ht _ IHf]; [done|]. destruct Hsm as [? ?].
      constructor; [by apply Ht|by apply IHf].
    + rewrite zlen_nil. lia.
Qed.

(** ** The size of a value *)

Fixpoint size_bound (v : gval) : Z :=
  match v with
  | GNil => 0
  | GUint _ | GInt _ => 9
  | GBytes l => 9 + zlen l
  | GSlice l => 9 + (fix go l := match l with [] => 0 | v :: l => size_bound v + go l end) l
  | GStruct fs => 9 + (fix go fs := match fs with [] => 0 | (_, v) :: fs => 9 + size_bound v + go fs end) fs
  end.

Lemma e_uint_size n : 0 ≤ n < 2 ^ 64 → zlen (e_uint n) ≤ 9.
Proof.
  intros Hn. destruct (e_uint_spec n Hn) as [(_ & -> & _)|(_ & k & c & Hk & _ & -> & _)]; [done|].
  rewrite zlen_cons. unfold zlen. rewrite length_reverse, le_bytes_length. lia.
Qed.

Lemma e_int_size i : is_i64 i → zlen (e_int i) ≤ 9.
Proof. unfold is_i64. intros Hi. apply e_uint_size. case_match; lia. Qed.

Lemma e_value_size t v : small_type t → typed t v → zlen (e_value v) ≤ size_bound v.
Proof.
  revert v. induction t as [max| | | |t IH|name fs IH] using gtype_ind'; intros v Hsm Ht; destruct v; try done.
  - destruct Ht. apply e_uint_size. lia.
  - by apply e_int_size.
  - simpl in *. unfold e_bytes. rewrite zlen_app. pose proof (e_uint_size (zlen l)). pose proof (zlen_nonneg l). lia.
  - simpl in *. unfold e_bytes. rewrite zlen_app. pose proof (e_uint_size (zlen l)). pose proof (zlen_nonneg l). lia.
  - destruct Ht as [Hlen Ht]. rewrite e_value_slice, zlen_app. cbn [size_bound].
    pose proof (e_uint_size (zlen l)). pose proof (zlen_nonneg l).
    assert (zlen (e_elems l) ≤ (fix go l := match l with [] => 0 | v :: l => size_bound v + go l end) l); [|lia].
    clear -Ht IH Hsm. induction l as [|v l IHl]; [done|]. destruct Ht as [Hv Ht].
    cbn [e_elems]. rewrite zlen_app. specialize (IH v Hsm Hv). specialize (IHl Ht). lia.
  - destruct Hsm as [Hz Hsm]. rewrite e_value_struct. cbn [size_bound].
    assert (H : ∀ last i, -1 ≤ last < i → i + zlen fs < 2 ^ 33 →
      zlen (e_fields last i fields) ≤ 9 + (fix go fs := match fs with [] => 0 | (_, v) :: fs => 9 + size_bound v + go fs end) fields);
      [|apply H; lia].
    clear Hz. revert fields Ht. induction IH as [|[n t] fs Ht0 _ IHf]; intros [|[m v] vs] Ht last i Hl Hi; try done.
    destruct Ht as (-> & Hv & Ht), Hsm as [Hst Hsm]. rewrite zlen_cons in Hi. cbn [e_fields].
    assert (Hnn : 0 ≤ size_bound v).
    { destruct Hv as [->|Hv]; [done|]. specialize (Ht0 v Hst Hv). pose proof (zlen_nonneg (e_value v)). cbn in *. lia. }
    destruct (is_zero v) eqn:Ez.
    + specialize (IHf Hsm vs Ht last (i + 1) ltac:(lia) ltac:(lia)). cbn beta iota in *. lia.
    + rewrite !zlen_app. pose proof (zlen_nonneg fs). pose proof (e_uint_size (i - last) ltac:(lia)).
      specialize (IHf Hsm vs Ht i (i + 1) ltac:(lia) ltac:(lia)).
      destruct Hv as [->|Hv]; [done|]. specialize (Ht0 v Hst Hv). cbn beta iota in *. lia.
Qed.

(** what a receiver finds under a name in what has arrived of a struct *)
Lemma assoc_not_in {A} n (fs : list (string * A)) : n ∉ fs.*1 → assoc n fs = None.
Proof.
  induction fs as [|[m a] fs IH]; [done|]. cbn. rewrite not_elem_of_cons. intros [Hn Hin].
  rewrite (proj2 (String.eqb_neq _ _)) by done. by apply IH.
Qed.
Lemma assoc_norm n fs :
  NoDup fs.*1 → assoc n (norm_fields fs) =
    match assoc n fs with Some v => if is_zero v then None else Some (norm v) | None => None end.
Proof.
  assert (Hsub : ∀ fs m, m ∉ fs.*1 → m ∉ (norm_fields fs).*1).
  { clear. intros fs m. induction fs as [|[k a] fs IH]; [done|]. cbn. rewrite not_elem_of_cons. intros [Hk Hm].
    destruct (is_zero a); [by apply IH|]. cbn. apply not_elem_of_cons. split; [done|by apply IH]. }
  induction fs as [|[m v] fs IH]; [done|]. cbn. intros [Hm Hnd]%NoDup_cons. destruct (String.eqb_spec n m) as [->|Hne].
  - destruct (is_zero v); cbn; [|by rewrite String.eqb_refl]. by apply assoc_not_in, Hsub.
  - destruct (is_zero v); [by apply IH|]. cbn. rewrite (proj2 (String.eqb_neq _ _)) by done. by apply IH.
Qed.
Lemma uint_norm n fs : NoDup fs.*1 → uint_of (assoc n (norm_fields fs)) = uint_of (assoc n fs).
Proof.
  intros H. rewrite assoc_norm by done. destruct (assoc n fs) as [v|]; [|done].
  destruct v as [|k| | | |]; cbn; try (by case_match); try done.
  destruct (Z.eqb_spec k 0) as [->|]; done.
Qed.
Lemma bytes_norm n fs : NoDup fs.*1 → bytes_of (assoc n (norm_fields fs)) = bytes_of (assoc n fs).
Proof.
  intros H. rewrite assoc_norm by done. destruct (assoc n fs) as [v|]; [|done].
  destruct v as [| | |l| |]; cbn; try (by case_match); try done.
  destruct (Z.eqb_spec (zlen l) 0) as [E|]; [|done]. by apply zlen_0 in E as ->.
Qed.

(** ** Received types *)

Lemma links_mono types types' t id : types ⊆ types' → links types t id → links types' t id.
Proof.
  intros Hs. revert id. induction t as [| | | |t IH|name fs IH] using gtype_ind'; intros id; try done.
  - intros (e & He & Hl). exists e. split; [|by apply IH].
    apply bind_Some in He as (w & Hw & He). by rewrite (lookup_weaken _ _ _ _ Hw Hs).
  - intros (Hnd & wfs & He & Hl). split; [done|]. exists wfs.
    apply bind_Some in He as (w & Hw & He). rewrite (lookup_weaken _ _ _ _ Hw Hs). split; [done|].
    clear -IH Hl. revert wfs Hl. induction IH as [|[n t] fs Ht _ IHf]; intros wfs Hl; [done|].
    destruct wfs as [|[m w] wfs]; [done|]. destruct Hl as (? & ? & ? & Hl).
    split_and!; [done..|by apply Ht|by apply IHf].
Qed.

(** a type that is linked passes the checks of the decoder *)
Lemma compile_links types t id : links types t id → compile types t id = true.
Proof.
  revert id. induction t as [| | | |t IH|name fs IH] using gtype_ind'; intros id; simpl;
    try (intros ->; done).
  - intros (e & -> & Hl). by apply IH.
  - intros (Hnd & wfs & -> & Hl). apply forallb_forall. intros [m w] Hin%list_elem_of_In.
    assert (Hfs : ∃ t, In (m, t) fs ∧ m ≠ EmptyString ∧ compile types t w = true).
    { clear Hnd. revert wfs Hl Hin. induction IH as [|[n t] fs Ht _ IHf]; intros wfs Hl Hin;
        destruct wfs as [|[n' w'] wfs]; try done; [set_solver|].
      destruct Hl as (<- & Hne & Hl1 & Hl). apply elem_of_cons in Hin as [[= -> ->]|Hin].
      - exists t. split_and!; [by left|done|by apply Ht].
      - destruct (IHf wfs Hl Hin) as (t' & ? & ? & ?). exists t'. split_and!; [by right|done..]. }
    destruct Hfs as (t & Ht & Hne & Hc). cbn [fst snd].
    rewrite bool_decide_false by done. cbn [negb andb].
    clear IH Hl. induction fs as [|[n t'] fs IHf]; [done|]. apply NoDup_cons in Hnd as [Hn Hnd].
    destruct Ht as [[= -> ->]|Ht]; [by rewrite decide_True|].
    rewrite decide_False; [by apply IHf|]. intros ->. apply Hn, list_elem_of_fmap.
    exists (n, t). split; [done|]. by apply list_elem_of_In.
Qed.

Lemma matched_links types t id : links types t id → matched types t id = true.
Proof.
  destruct t as [| | | | |name fs]; try done. intros (_ & wfs & Hw & Hl). unfold matched. rewrite Hw.
  destruct fs as [|[n t] fs]; [done|]. destruct wfs as [|[m w] wfs]; [done|].
  destruct Hl as (-> & _). cbn. rewrite bool_decide_true by set_solver. by rewrite orb_true_r.
Qed.

Lemma decodeValue_e types t id v rest :
  small_type t → links types t id → typed t v →
  decodeValue types t id (e_value v ++ rest) = Ok (norm v, rest).
Proof.
  intros Hs Hl Ht. unfold decodeValue. rewrite compile_links by done.
  apply d_value_e; [done..|]. unfold value_fuel. rewrite length_app. lia.
Qed.

(** ** Messages *)

Lemma read_stream n g d rest :
  bytes_in (gob_conn g) = d ++ rest → n = zlen d →
  ∃ c, read n g = (set_conn c g, Ok d) ∧ bytes_in c = rest ∧ c_out c = c_out (gob_conn g).
Proof.
  intros Hb ->. destruct (ReadFull_app d rest (gob_conn g) Hb) as (c & Hr & Hc & Ho & _).
  exists c. unfold read. by rewrite Hr.
Qed.

Lemma read_uint_e n g rest :
  0 ≤ n < 2 ^ 64 → bytes_in (gob_conn g) = e_uint n ++ rest →
  ∃ c, read_uint g = (set_conn c g, Ok n) ∧ bytes_in c = rest ∧ c_out c = c_out (gob_conn g).
Proof.
  intros Hn Hb. unfold read_uint.
  destruct (e_uint_spec n Hn) as [(Hs & He & Hv)|(Hs & k & b & Hk & Hc & He & Hv)]; rewrite He in Hb.
  - destruct (read_stream 1 g [byte_of n] rest) as (c & -> & Hr & Ho); [done..|].
    assert (le_value [byte_of n] = n) as -> by (cbn; lia).
    rewrite (proj2 (Z.ltb_lt _ _)) by lia. by exists c.
  - destruct (read_stream 1 g [b] (reverse (le_bytes (Z.to_nat k) n) ++ rest))
      as (c & -> & Hr & Ho); [done..|].
    assert (le_value [b] = 256 - k) as -> by (cbn; lia).
    rewrite (proj2 (Z.ltb_ge _ _)) by lia. replace (256 - (256 - k)) with k by lia. cbv zeta.
    rewrite (proj2 (Z.ltb_ge _ _)) by lia.
    destruct (read_stream k (set_conn c g) (reverse (le_bytes (Z.to_nat k) n)) rest)
      as (c' & -> & Hr' & Ho'); [done| |].
    { unfold zlen. rewrite length_reverse, le_bytes_length. lia. }
    exists c'. rewrite reverse_involutive, Hv. split_and!; [done|done|]. by rewrite Ho'.
Qed.

Lemma recvMessage_e m g rest :
  zlen m < tooBig → bytes_in (gob_conn g) = e_bytes m ++ rest →
  ∃ c, recvMessage g = (set_conn c g, Ok m) ∧ bytes_in c = rest ∧ c_out c = c_out (gob_conn g).
Proof.
  intros Hm Hb. pose proof (zlen_nonneg m). unfold e_bytes in Hb. rewrite <-app_assoc in Hb.
  assert (tooBig < 2 ^ 64) by (unfold tooBig; lia).
  destruct (read_uint_e (zlen m) g (m ++ rest)) as (c & Hr & Hc & Ho); [lia|done|].
  unfold recvMessage. rewrite Hr, (proj2 (Z.leb_gt _ _)) by lia.
  destruct (read_stream (zlen m) (set_conn c g) m rest) as (c' & -> & Hc' & Ho'); [done..|].
  exists c'. split_and!; [done|done|]. by rewrite Ho'.
Qed.

Lemma gob_writeMessage_up m g :
  c_room (gob_conn g) = None → zlen m ≤ tooBig →
  ∃ c, writeMessage m g = (set_conn c g, Ok tt) ∧ c_room c = None ∧
    c_out c = c_out (gob_conn g) ++ e_bytes m ∧ c_in c = c_in (gob_conn g).
Proof.
  intros Hr Hm. unfold writeMessage. rewrite (proj2 (Z.ltb_ge _ _)) by lia.
  rewrite Write_ok by done. by eexists.
Qed.

(** ** Type definitions *)

Section Linked.
Context (type_id : string → Z).

(** the definitions of the types in use *)
Context (D : list (string * list (string * gtype))).

Definition def_wire (d : string * list (string * gtype)) : wire :=
  struct_wire ((λ f, (f.1, wire_id type_id f.2)) <$> d.2).

(** the numbers of the types are numbers of user types, all different, and the
    definitions are of a size that can be sent *)
Record ids_ok : Prop := {
  ids_range : ∀ d, d ∈ D → 64 ≤ type_id d.1 < 2 ^ 62;
  ids_inj : ∀ d d', d ∈ D → d' ∈ D → type_id d.1 = type_id d'.1 → d = d';
  ids_typed : ∀ d, d ∈ D → typed t_wireType (wireType_of type_id d);
  ids_size : ∀ d, d ∈ D → zlen (def_message type_id d) < tooBig;
}.
Context (Hids : ids_ok).

(** a decoder that has seen what an encoder has sent *)
Record gob_link (sent : gset string) (types : gmap Z wire) : Prop := {
  gl_builtin : builtin_types ⊆ types;
  gl_sent : ∀ d, d ∈ D → d.1 ∈ sent → types !! type_id d.1 = Some (def_wire d);
  gl_unsent : ∀ d, d ∈ D → d.1 ∉ sent → types !! type_id d.1 = None;
}.

Lemma wire_of_norm d : wire_of (norm (wireType_of type_id d)) = def_wire d.
Proof.
  destruct d as [n fs]. unfold wire_of, def_wire, struct_wire, wireType_of.
  rewrite norm_struct. cbn [fst snd].
  assert (Hf : (λ f, (bytes_str (bytes_of (assoc "Name" (fields_of f))), int_of (assoc "Id" (fields_of f))))
      <$> (norm <$> ((λ f : string * gtype, GStruct [("Name"%string, GBytes (str_bytes f.1)); ("Id"%string, GInt (wire_id type_id f.2))]) <$> fs))
    = (λ f, (f.1, wire_id type_id f.2)) <$> fs).
  { rewrite <-!list_fmap_compose. apply list_fmap_ext. intros i [m t] _. unfold compose. cbn [fst snd].
    rewrite norm_struct. cbn [norm_fields is_zero].
    destruct (Z.eqb_spec (zlen (str_bytes m)) 0) as [E|E].
    - apply zlen_0 in E. assert (m = EmptyString) as -> by (by rewrite <-(bytes_str_bytes m), E).
      destruct (Z.eqb_spec (wire_id type_id t) 0) as [->|]; done.
    - destruct (Z.eqb_spec (wire_id type_id t) 0) as [->|]; cbn -[bytes_str str_bytes]; by rewrite bytes_str_bytes. }
  set (fields := (λ f : string * gtype, _) <$> fs) in *. cbn [norm_fields is_zero].
  rewrite norm_struct. cbn [norm_fields is_zero]. rewrite norm_struct.
  destruct (Z.eqb_spec (zlen fields) 0) as [E|E].
  - apply zlen_0 in E. rewrite E in Hf. by rewrite <-Hf.
  - rewrite norm_slice. by rewrite <-Hf.
Qed.

Lemma links_wireType types : builtin_types ⊆ types → links types t_wireType 16.
Proof.
  intros Hs. apply (links_mono builtin_types); [done|].
  vm_compute.
  repeat match goal with
    | |- True => exact I
    | |- NoDup _ => apply (bool_decide_unpack _); vm_compute; exact I
    | |- _ ∧ _ => split
    | |- ∃ _, _ => eexists
    | |- _ = _ => reflexivity
    | |- _ → False => discriminate
    | _ => progress hnf
    end.
Qed.

(** structs of structs and basic values, as an encoder can define them *)
Fixpoint gt_ok (t : gtype) : Prop :=
  match t with
  | TStruct _ fs => NoDup fs.*1 ∧
      (fix go fs := match fs with [] => True | (n, t) :: fs => n ≠ EmptyString ∧ gt_ok t ∧ go fs end) fs
  | TSlice _ => False
  | _ => True
  end.

Lemma links_defs t types :
  gt_ok t → (∀ d, d ∈ defs t → types !! type_id d.1 = Some (def_wire d)) →
  links types t (wire_id type_id t).
Proof.
  induction t as [| | | |t IH|name fs IH] using gtype_ind'; intros Hok Hd; try done.
  destruct Hok as [Hnd Hok]. split; [done|]. exists ((λ f, (f.1, wire_id type_id f.2)) <$> fs).
  cbn [wire_id]. pose proof (Hd (name, fs) ltac:(by left)) as Hw. cbn in Hw. rewrite Hw.
  split; [done|].
  assert (Hsub : ∀ d, d ∈ (fix go fs := match fs with [] => [] | (_, t) :: fs => defs t ++ go fs end) fs →
    types !! type_id d.1 = Some (def_wire d)).
  { intros d Hin. apply Hd. simpl. by right. }
  clear Hnd Hd Hw. induction IH as [|[n t] fs Ht _ IHf]; [done|]. destruct Hok as (Hn & Ht' & Hok).
  cbn. split; [done|]. split; [done|]. split.
  - apply Ht; [done|]. intros d Hin. apply Hsub, elem_of_app. by left.
  - apply IHf; [done|]. intros d Hin. apply Hsub, elem_of_app. by right.
Qed.

Lemma gob_link_def sent types d :
  gob_link sent types → d ∈ D → d.1 ∉ sent →
  gob_link ({[d.1]} ∪ sent) (<[type_id d.1 := def_wire d]> types).
Proof.
  intros [Hb Hs Hu] Hd Hn. split.
  - etrans; [exact Hb|]. apply insert_subseteq. by apply Hu.
  - intros d' Hd' Hin. rewrite lookup_insert. case_decide as E.
    + by rewrite (ids_inj Hids d d' Hd Hd' E).
    + apply Hs; [done|]. apply elem_of_union in Hin as [Hin%elem_of_singleton|]; [|done].
      by rewrite Hin in E.
  - intros d' Hd' Hin. rewrite lookup_insert_ne; [apply Hu; set_solver|].
    intros E%(ids_inj Hids); [subst d'; set_solver|done..].
Qed.

Lemma recvType_def g sent d :
  gob_link sent (gob_types g) → d ∈ D → d.1 ∉ sent →
  recvType (type_id d.1) (e_value (wireType_of type_id d)) g =
    Ok (MkGob (gob_conn g) (<[type_id d.1 := def_wire d]> (gob_types g)) (gob_sent g)).
Proof.
  intros [Hb _ Hu] Hd Hn. pose proof (ids_range Hids d Hd). unfold recvType.
  rewrite (proj2 (Z.ltb_ge _ _)) by lia. rewrite bool_decide_false by by rewrite Hu; [intros []|..].
  cbn [orb]. rewrite <-(app_nil_r (e_value _)), decodeValue_e.
  - rewrite bind_Ok, decide_True by done. by rewrite wire_of_norm.
  - cbv. repeat split.
  - by apply links_wireType.
  - by apply ids_typed.
Qed.

Lemma defs_exchange ds p :
  c_room (gob_conn p) = None → (∀ d, d ∈ ds → d ∈ D) →
  ∃ p' frames, send_defs type_id ds p = (p', Ok tt) ∧ c_room (gob_conn p') = None ∧
    c_out (gob_conn p') = c_out (gob_conn p) ++ frames ∧ c_in (gob_conn p') = c_in (gob_conn p) ∧
    gob_types p' = gob_types p ∧
    (∀ n, n ∈ gob_sent p' ↔ n ∈ gob_sent p ∨ n ∈ ds.*1) ∧
    ∀ fuel first t q rest,
      gob_link (gob_sent p) (gob_types q) → bytes_in (gob_conn q) = frames ++ rest →
      (length frames < fuel)%nat →
      ∃ fuel' first' q', decode_loop fuel first t q = decode_loop fuel' first' t q' ∧
        (fuel ≤ fuel' + length frames)%nat ∧ bytes_in (gob_conn q') = rest ∧
        c_out (gob_conn q') = c_out (gob_conn q) ∧ gob_sent q' = gob_sent q ∧
        gob_link (gob_sent p') (gob_types q').
Proof.
  revert p. induction ds as [|d ds IH]; intros p Hup HD.
  { exists p, []. rewrite app_nil_r. split_and!; try done; [set_solver|].
    intros fuel first t q rest Hl Hb Hf. exists fuel, first, q. split_and!; [done|lia|done..]. }
  assert (Hd : d ∈ D) by (apply HD; set_solver).
  assert (HD' : ∀ d, d ∈ ds → d ∈ D) by (intros; apply HD; set_solver).
  cbn [send_defs]. case_decide as Hs.
  { destruct (IH p Hup HD') as (p' & frames & ? & ? & ? & ? & ? & Hn & Hx). exists p', frames.
    split_and!; try done. intros n. rewrite Hn. set_solver. }
  pose proof (ids_size Hids d Hd) as Hsize.
  destruct (gob_writeMessage_up (def_message type_id d) p Hup ltac:(lia)) as (c & Hw & Hc & Ho & Hi).
  rewrite Hw. cbn [gob_conn gob_types gob_sent set_conn].
  destruct (IH (MkGob c (gob_types p) ({[d.1]} ∪ gob_sent p)) Hc HD')
    as (p' & frames & Hs' & Hup' & Ho' & Hi' & Ht' & Hn & Hx).
  exists p', (e_bytes (def_message type_id d) ++ frames).
  split_and!; [done|done| | |done| |].
  - rewrite Ho'. cbn. by rewrite Ho, app_assoc.
  - rewrite Hi'. cbn. by rewrite Hi.
  - intros n. rewrite Hn. cbn. set_solver.
  - intros fuel first t q rest Hl Hb Hf. rewrite <-app_assoc in Hb.
    destruct (recvMessage_e _ q _ Hsize Hb) as (c1 & Hr & Hc1 & Ho1).
    destruct fuel as [|fuel]; [lia|]. rewrite length_app in Hf.
    pose proof (ids_range Hids d Hd) as Hrange.
    assert (0 < length (e_bytes (def_message type_id d)))%nat.
    { unfold e_bytes. destruct (e_uint_cons (zlen (def_message type_id d))) as (? & ? & ->). simpl. lia. }
    set (q1 := MkGob c1 (<[type_id d.1 := def_wire d]> (gob_types q)) (gob_sent q)).
    destruct (Hx fuel false t q1 rest) as (fuel' & first' & q' & Hloop & Hf' & Hb' & Hoq & Hsq & Hlq);
      [by apply (gob_link_def _ _ d Hl)|exact Hc1| |].
    { lia. }
    exists fuel', first', q'. cbn [decode_loop]. rewrite Hr. unfold def_message at 1.
    rewrite d_e_int by (unfold is_i64; lia). rewrite (proj2 (Z.leb_gt _ _)) by lia.
    rewrite Z.opp_involutive. rewrite (recvType_def _ (gob_sent p)) by done.
    split_and!; [exact Hloop|rewrite length_app; lia|done| |done|done].
    rewrite Hoq. cbn. done.
Qed.

(** [Decode] gives what [Encode] has sent, and stands behind it in the stream; the
    two ends agree on the types sent so far, before and after. *)
Lemma gob_exchange t v p :
  c_room (gob_conn p) = None → (∀ d, d ∈ defs t → d ∈ D) → gt_ok t → small_type t →
  typed t v → 0 ≤ wire_id type_id t < 2 ^ 62 → zlen (value_message type_id t v) < tooBig →
  (∃ n fs, t = TStruct n fs) →
  ∃ p' frames, Encode type_id t v p = (p', Ok tt) ∧ c_room (gob_conn p') = None ∧
    c_out (gob_conn p') = c_out (gob_conn p) ++ frames ∧ c_in (gob_conn p') = c_in (gob_conn p) ∧
    gob_types p' = gob_types p ∧
    (∀ n, n ∈ gob_sent p' ↔ n ∈ gob_sent p ∨ n ∈ (defs t).*1) ∧
    ∀ q rest, gob_link (gob_sent p) (gob_types q) → bytes_in (gob_conn q) = frames ++ rest →
      ∃ q', Decode t q = (q', Ok (norm v)) ∧ bytes_in (gob_conn q') = rest ∧
        c_out (gob_conn q') = c_out (gob_conn q) ∧ gob_sent q' = gob_sent q ∧
        gob_link (gob_sent p') (gob_types q').
Proof.
  intros Hup HD Hok Hsm Hv Hid Hsize Hstruct.
  destruct (defs_exchange (defs t) p Hup HD)
    as (p1 & frames & Hs & Hup1 & Ho1 & Hi1 & Ht1 & Hn & Hx).
  destruct (gob_writeMessage_up (value_message type_id t v) p1 Hup1 ltac:(lia)) as (c & Hw & Hc & Ho & Hi).
  exists (set_conn c p1), (frames ++ e_bytes (value_message type_id t v)).
  unfold Encode. rewrite Hs, Hw. cbn [gob_conn gob_types gob_sent set_conn].
  split_and!; [done|done|by rewrite Ho, Ho1, app_assoc|by rewrite Hi, Hi1|done|done|].
  intros q rest Hl Hb. rewrite <-app_assoc in Hb. unfold Decode.
  edestruct (Hx (S (length (bytes_in (gob_conn q)))) true t q) as (fuel & first & q1 & Hloop & Hf & Hb1 & Hoq & Hsq & Hlq);
    [done|exact Hb| |].
  { rewrite Hb, length_app. lia. }
  rewrite Hloop. destruct fuel as [|fuel]; [rewrite Hb, length_app in Hf; lia|].
  destruct (recvMessage_e _ q1 _ Hsize Hb1) as (c1 & Hr & Hc1 & Hoc1). cbn [decode_loop]. rewrite Hr.
  unfold value_message. rewrite d_e_int by (unfold is_i64; lia). rewrite (proj2 (Z.leb_le _ _)) by lia.
  assert (Hlinks : links (gob_types q1) t (wire_id type_id t)).
  { apply links_defs; [done|]. intros d Hd. apply (gl_sent _ _ Hlq); [by apply HD|].
    apply Hn. right. apply list_elem_of_fmap. by exists d. }
  cbn [gob_types set_conn]. rewrite compile_links, matched_links by done. cbn [andb].
  rewrite <-(app_nil_r (e_value v)), decodeValue_e by done. rewrite bind_Ok.
  eexists. split_and!; [done|done| |done|done]. cbn. by rewrite Hoc1.
Qed.
End Linked.

Lemma ids_ok_sub type_id D D' : ids_ok type_id D → (∀ d, d ∈ D' → d ∈ D) → ids_ok type_id D'.
Proof. intros [] Hs. split; eauto. Qed.

(** the link speaks of the types in use only *)
Lemma gob_link_weaken type_id D D' sent sent' types :
  gob_link type_id D sent types → (∀ d, d ∈ D' → d ∈ D) →
  (∀ d, d ∈ D' → d.1 ∈ sent' ↔ d.1 ∈ sent) → gob_link type_id D' sent' types.
Proof.
  intros [Hb Hs Hu] HD Hsent. split; [done|intros d Hd Hin|intros d Hd Hin].
  - apply Hs; [by apply HD|]. by apply Hsent.
  - apply Hu; [by apply HD|]. by rewrite <-(Hsent d Hd).
Qed.

(** ** Decoding always returns *)

Lemma d_uint_needs b : needs_input b (d_uint b).
Proof.
  unfold d_uint. destruct b as [|c b]; [done|]. cbv zeta. case_match; simpl; [lia|].
  case_match; [done|]. simpl. rewrite length_drop. lia.
Qed.

Lemma d_int_needs b : needs_input b (d_int b).
Proof. eapply rest_ok_bind; [apply d_uint_needs|]. intros n r Hr. exact Hr. Qed.

Lemma d_bytes_needs b : needs_input b (d_bytes b).
Proof.
  eapply rest_ok_bind; [apply d_uint_needs|]. intros n r Hr. case_match; [done|]. simpl in *.
  rewrite length_drop. lia.
Qed.

#[local] Ltac leaf := first [apply d_uint_needs|apply d_int_needs|apply d_bytes_needs].

Lemma or_bad_rest {A B} (P : nat → Prop) (o : option A) (f : A → outcome gob_error (B * list byte)) :
  (∀ a, rest_ok P (f a)) → rest_ok P (or_bad o ≫= f).
Proof. intros H. destruct o; [apply H|done]. Qed.

Definition value_total (fuel : nat) : Prop := ∀ types lt id b,
  (2 * length b + 3 ≤ fuel)%nat → consumes b (d_value fuel types lt id b).
Definition elems_total (fuel : nat) : Prop := ∀ types lt id n b,
  (2 * length b + 4 ≤ fuel)%nat → shrinks b (d_elems fuel types lt id n b).
Definition fields_total (fuel : nat) : Prop := ∀ types fs wfs last b,
  (2 * length b + 2 ≤ fuel)%nat → consumes b (d_fields fuel types fs wfs last b).

Lemma d_elems_step fuel : value_total fuel → elems_total fuel → elems_total (S fuel).
Proof.
  intros Hv He types lt id [|n] b Hf; [unfold shrinks; simpl; lia|]. cbn [d_elems]. case_decide as Hb; [done|].
  eapply rest_ok_bind; [apply Hv; lia|]. intros v r [_ Hr]. specialize (Hr Hb).
  eapply rest_ok_bind; [apply He; lia|]. simpl. intros l r' Hr'. lia.
Qed.

Lemma d_fields_step fuel : value_total fuel → fields_total fuel → fields_total (S fuel).
Proof.
  intros Hv Hfs types fs wfs last b Hf. cbn [d_fields]. case_decide as Hb; [by subst b|].
  eapply rest_ok_bind; [leaf|]. intros delta r Hr. cbv beta zeta in *.
  case_match; [simpl; split; [lia|done]|]. case_match; [done|].
  apply or_bad_rest. intros [n id].
  eapply rest_ok_bind; [apply Hv; lia|]. intros v r1 [Hr1 _].
  eapply rest_ok_bind; [apply Hfs; lia|]. intros vs r2 [Hr2 _]. simpl. lia.
Qed.

Lemma d_value_step fuel : elems_total fuel → fields_total fuel → value_total (S fuel).
Proof.
  intros He Hfs types lt id b Hf. cbn [d_value].
  assert (Hneeds : ∀ A (o : outcome gob_error (A * list byte)), needs_input b o → consumes b o).
  { intros A o Ho. eapply rest_ok_impl; [exact Ho|]. simpl. intros; cbv beta in *; lia. }
  assert (Hseq : ∀ lt' e (n : nat) (g : list gval → gval) r, (length r < length b)%nat →
    needs_input b (d_elems fuel types lt' e n r ≫= λ '(l, r), Ok (g l, r))).
  { intros. eapply rest_ok_bind; [apply He; lia|]. simpl. intros; cbv beta in *; lia. }
  assert (Hstr : ∀ fs wfs (g : list (string * gval) → gval),
    consumes b (d_fields fuel types fs wfs (-1) b ≫= λ '(vs, r), Ok (g vs, r))).
  { intros. eapply rest_ok_bind; [apply Hfs; lia|]. by intros vs r Hr. }
  destruct lt as [[max| | | |t|name fs]|].
  - apply Hneeds. eapply rest_ok_bind; [leaf|]. intros u r Hr. by case_match.
  - apply Hneeds. eapply rest_ok_bind; [leaf|]. by intros i r Hr.
  - apply Hneeds. eapply rest_ok_bind; [leaf|]. by intros i r Hr.
  - apply Hneeds. eapply rest_ok_bind; [leaf|]. by intros i r Hr.
  - apply Hneeds. apply or_bad_rest. intros e. eapply rest_ok_bind; [leaf|]. intros n r Hr.
    cbv beta in *. case_match; [done|]. by apply Hseq.
  - apply or_bad_rest. intros wfs. apply (Hstr _ _ GStruct).
  - case_match; [|case_match; [|case_match]].
    + apply Hneeds. eapply rest_ok_bind; [leaf|]. by intros i r Hr.
    + apply Hneeds. eapply rest_ok_bind; [leaf|]. by intros i r Hr.
    + apply Hneeds. eapply rest_ok_bind; [leaf|]. intros u r Hr.
      eapply rest_ok_bind; [leaf|]. simpl in *. lia.
    + apply or_bad_rest. intros w. destruct (w_array w) as [[e len]|].
      * apply Hneeds. eapply rest_ok_bind; [leaf|]. intros n r Hr. cbv beta in *.
        case_match; [done|]. by apply (Hseq _ _ _ (λ _, GNil)).
      * destruct (w_slice w) as [e|].
        -- apply Hneeds. eapply rest_ok_bind; [leaf|]. intros n r Hr. cbv beta in *.
           case_match; [done|]. by apply (Hseq _ _ _ (λ _, GNil)).
        -- destruct (w_struct w) as [wfs|]; [apply (Hstr _ _ (λ _, GNil))|].
           case_match; [|done]. apply Hneeds. eapply rest_ok_bind; [leaf|]. by intros i r Hr.
Qed.

Lemma d_total fuel : value_total fuel ∧ elems_total fuel ∧ fields_total fuel.
Proof.
  induction fuel as [|fuel (Hv & He & Hf)]; [by split_and!; intros ? **; lia|].
  split_and!; [by apply d_value_step|by apply d_elems_step|by apply d_fields_step].
Qed.

Lemma decodeValue_total types t id b : consumes b (decodeValue types t id b).
Proof.
  unfold decodeValue. case_match; [|done]. apply d_total. unfold value_fuel. lia.
Qed.

(** reading from the connection returns, and a message takes something from it *)
Definition conn_bytes (g : gob) : nat := length (bytes_in (gob_conn g)).

Lemma read_total n g :
  0 ≤ n →
  match read n g with
  | (g', Ok d) => (conn_bytes g' + Z.to_nat n = conn_bytes g)%nat ∧ zlen d = n
  | (g', Err _) => True
  | _ => False
  end.
Proof.
  intros Hn. unfold read, conn_bytes. pose proof (ReadFull_stream n (gob_conn g) Hn) as H.
  destruct (ReadFull n (gob_conn g)) as [c r]. destruct H as (_ & _ & H). cbn [fst snd].
  destruct (Z.leb_spec n (zlen (bytes_in (gob_conn g)))); destruct H as [-> Hb]; [|done].
  cbn [gob_conn set_conn]. rewrite Hb, length_drop. unfold zlen in *. rewrite length_take. lia.
Qed.

Lemma recvMessage_total g :
  match recvMessage g with
  | (g', Ok _) => (conn_bytes g' < conn_bytes g)%nat
  | (g', Err _) => True
  | _ => False
  end.
Proof.
  unfold recvMessage, read_uint.
  pose proof (read_total 1 g ltac:(lia)) as H1. destruct (read 1 g) as [g1 [b| | |]]; try done.
  destruct H1 as [H1 Hlen]. pose proof (le_value_range b) as Hv. rewrite Hlen in Hv.
  change (2 ^ (8 * 1)) with 256 in Hv. cbv zeta. destruct (_ <? 128).
  - destruct (tooBig <=? _); [done|].
    pose proof (read_total (le_value b) g1 ltac:(lia)) as H2.
    destruct (read (le_value b) g1) as [g2 [d| | |]]; try done. lia.
  - destruct (8 <? 256 - le_value b); [done|].
    pose proof (read_total (256 - le_value b) g1 ltac:(lia)) as H2.
    destruct (read _ g1) as [g2 [d| | |]]; try done.
    destruct (tooBig <=? _); [done|]. pose proof (le_value_range (reverse d)).
    pose proof (read_total (le_value (reverse d)) g2 ltac:(lia)) as H3.
    destruct (read (le_value (reverse d)) g2) as [g3 [m| | |]]; try done. lia.
Qed.

(** Decoding returns on every stream, a value or an error: no input makes it panic,
    and the fuel of the model is enough. *)
Lemma Decode_total t g : returns (Decode t g).2.
Proof.
  unfold Decode. fold (conn_bytes g). assert (Hf : (conn_bytes g < S (conn_bytes g))%nat) by lia.
  revert Hf. generalize (S (conn_bytes g)) as fuel, true as first. intros fuel. revert g.
  induction fuel as [|fuel IH]; intros g first Hf; [lia|]. cbn [decode_loop].
  pose proof (recvMessage_total g) as Hr. destruct (recvMessage g) as [g1 [b| | |]]; try done.
  pose proof (d_int_needs b) as Hd. destruct (d_int b) as [[id b1]| | |]; try done.
  destruct (0 <=? id).
  - cbn [snd]. case_match; [|done]. pose proof (decodeValue_total (gob_types g1) t id b1) as Hv.
    by destruct (decodeValue (gob_types g1) t id b1) as [[v r]| | |].
  - unfold recvType. destruct ((- id <? 64) || _); [done|].
    pose proof (decodeValue_total (gob_types g1) t_wireType 16 b1) as Hv.
    destruct (decodeValue (gob_types g1) t_wireType 16 b1) as [[v r]| | |]; try done.
    cbn. case_decide; [|done]. apply IH. unfold conn_bytes in *. simpl. lia.
Qed.

(** ** A decoder does not write *)

Definition same_writer (g g' : gob) : Prop :=
  c_out (gob_conn g') = c_out (gob_conn g) ∧ c_room (gob_conn g') = c_room (gob_conn g) ∧
  gob_sent g' = gob_sent g.

#[export] Instance same_writer_preorder : PreOrder same_writer.
Proof. split; [by intros g|]. intros g1 g2 g3 (? & ? & ?) (? & ? & ?). unfold same_writer. by split_and!; etrans. Qed.

Lemma read_writer n g : same_writer g (read n g).1.
Proof. by unfold read, ReadFull. Qed.

Lemma recvMessage_writer g : same_writer g (recvMessage g).1.
Proof.
  assert (H : same_writer g (read_uint g).1).
  { unfold read_uint. pose proof (read_writer 1 g) as H1. destruct (read 1 g) as [g1 [b| | |]]; try done.
    cbv zeta. destruct (_ <? 128); [done|]. destruct (8 <? _); [done|].
    pose proof (read_writer (256 - le_value b) g1) as H2.
    destruct (read _ g1) as [g2 [b2| | |]]; by etrans. }
  unfold recvMessage. destruct (read_uint g) as [g1 [n| | |]]; try done. destruct (tooBig <=? n); [done|].
  pose proof (read_writer n g1) as H1. destruct (read n g1) as [g2 [b2| | |]]; by etrans.
Qed.

Lemma Decode_writer t g : same_writer g (Decode t g).1.
Proof.
  unfold Decode. generalize (S (length (bytes_in (gob_conn g)))) as fuel, true as first. intros fuel.
  revert g. induction fuel as [|fuel IH]; intros g first; [done|]. cbn [decode_loop].
  pose proof (recvMessage_writer g) as Hr. destruct (recvMessage g) as [g1 [b| | |]]; try done.
  destruct (d_int b) as [[i b1]| | |]; try done. destruct (0 <=? i); [done|].
  unfold recvType. destruct (_ || _); [done|].
  destruct (decodeValue (gob_types g1) t_wireType 16 b1) as [[v r]| | |]; try done.
  cbn. case_decide; [|done]. etrans; [exact Hr|]. etrans; [|apply IH]. done.
Qed.
