(* ===== verification/Json.v ===== *)
(** * Go's [encoding/json], as far as the package uses it

    Values are printed in the compact form of [json.Marshal] and read by the grammar
    of [json.Unmarshal]; matching a value with a Go struct is left to the users,
    who find the field of a key as Go does, ignoring case.  A string is kept as it is
    written between its quotes: [escape] writes one and [unquote] reads it, and a
    [time.Time] is read from the text as it stands. *)
From S2P Require Import Prelude Readers GoStd.

Inductive json :=
  | JNull
  | JBool (b : bool)
  | JNum (lit : list byte)
  | JStr (raw : list byte)
  | JArr (l : list json)
  | JObj (l : list (list byte * json)).

Definition lit (s : string) : list byte := str_bytes s.
Definition c_quote : byte := x22.
Definition c_backslash : byte := x5c.
Definition c_lbrace : byte := x7b.
Definition c_rbrace : byte := x7d.

(** ** UTF-8 *)

Definition is_cont : byte → bool := in_range x80 xbf.

(** the length of the character a list starts with, 0 if it is not valid UTF-8 *)
Definition utf8_len (l : list byte) : nat :=
  match l with
  | a :: l =>
      if in_range x00 x7f a then 1
      else match l with
      | b :: l =>
          if in_range xc2 xdf a && is_cont b then 2
          else match l with
          | c :: l =>
              let second :=
                if decide (a = xe0) then in_range xa0 xbf b
                else if decide (a = xed) then in_range x80 x9f b else is_cont b in
              if in_range xe0 xef a && second && is_cont c then 3
              else match l with
              | d :: _ =>
                  let second :=
                    if decide (a = xf0) then in_range x90 xbf b
                    else if decide (a = xf4) then in_range x80 x8f b else is_cont b in
                  if in_range xf0 xf4 a && second && is_cont c && is_cont d then 4 else 0
              | [] => 0
              end
          | [] => 0
          end
      | [] => 0
      end
  | [] => 0
  end%nat.

(** [utf8.EncodeRune] *)
Definition utf8_encode (r : Z) : list byte :=
  let cont k := byte_of (128 + Z.shiftr r k mod 64) in
  if r <? 128 then [byte_of r]
  else if r <? 2048 then [byte_of (192 + Z.shiftr r 6); cont 0]
  else if r <? 65536 then [byte_of (224 + Z.shiftr r 12); cont 6; cont 0]
  else [byte_of (240 + Z.shiftr r 18); cont 12; cont 6; cont 0].
Definition replacement : list byte := [xef; xbf; xbd].   (* U+FFFD *)

(** ** Printing *)

Definition hex_lower (d : Z) : byte := byte_of (if d <? 10 then 48 + d else 87 + d).

(** a character below 128, with the characters of HTML escaped as well *)
Definition quote_ascii (c : byte) : list byte :=
  if decide (c = c_quote ∨ c = c_backslash) then [c_backslash; c]
  else if decide (c = x0a) then lit "\n"
  else if decide (c = x0d) then lit "\r"
  else if decide (c = x09) then lit "\t"
  else if in_range x00 x1f c || bool_decide (c ∈ [x3c; x3e; x26]) then
    lit "\u00" ++ [hex_lower (byte_val c / 16); hex_lower (byte_val c mod 16)]
  else [c].

Fixpoint quote_loop (fuel : nat) (l : list byte) : list byte :=
  match fuel, l with
  | S fuel, c :: l' =>
      if in_range x00 x7f c then quote_ascii c ++ quote_loop fuel l'
      else match utf8_len l with
           | O => lit "\ufffd" ++ quote_loop fuel l'
           | n =>
               (if decide (take n l = [xe2; x80; xa8]) then lit "\u2028"
                else if decide (take n l = [xe2; x80; xa9]) then lit "\u2029"
                else take n l) ++ quote_loop fuel (drop n l)
           end
  | _, _ => []
  end.
Definition escape (l : list byte) : list byte := quote_loop (length l) l.
(** a string as it is written *)
Definition quoted (raw : list byte) : list byte := c_quote :: raw ++ [c_quote].

Fixpoint print (v : json) : list byte :=
  match v with
  | JNull => lit "null"
  | JBool b => lit (if b then "true" else "false")
  | JNum l => l
  | JStr raw => quoted raw
  | JArr l =>
      match l with
      | [] => lit "[]"
      | v :: l => c_lbracket :: print v ++
          (fix go l := match l with [] => [c_rbracket] | v :: l => c_comma :: print v ++ go l end) l
      end
  | JObj l =>
      match l with
      | [] => lit "{}"
      | (k, v) :: l => c_lbrace :: quoted k ++ c_colon :: print v ++
          (fix go l :=
             match l with
             | [] => [c_rbrace]
             | (k, v) :: l => c_comma :: quoted k ++ c_colon :: print v ++ go l
             end) l
      end
  end.

(** the decimal form of a number *)
Fixpoint dec_digits (fuel : nat) (n : Z) (acc : list byte) : list byte :=
  match fuel with
  | O => acc
  | S fuel =>
      let acc := byte_of (48 + n mod 10) :: acc in
      if n <? 10 then acc else dec_digits fuel (n / 10) acc
  end.
Definition print_nat (n : Z) : list byte := dec_digits (S (Z.to_nat (Z.log2 n))) n [].

(** ** Parsing *)

Definition jres (A : Type) : Type := outcome () (A * list byte).
Definition bad {A} : outcome () A := Err tt.

Fixpoint skip_space (l : list byte) : list byte :=
  match l with
  | c :: l' => if bool_decide (c ∈ [x20; x09; x0a; x0d]) then skip_space l' else l
  | [] => []
  end.

Fixpoint digits_span (l : list byte) : list byte * list byte :=
  match l with
  | c :: l' => if is_digit c then let (d, r) := digits_span l' in (c :: d, r) else ([], l)
  | [] => ([], [])
  end.

(** a number as it is written *)
Definition p_digits1 (l : list byte) : jres (list byte) :=
  let (d, r) := digits_span l in if decide (d = []) then bad else Ok (d, r).
Definition p_int (l : list byte) : jres (list byte) :=
  match l with
  | c :: r => if decide (c = x30) then Ok ([c], r) else p_digits1 l
  | [] => bad
  end.
Definition p_frac (l : list byte) : jres (list byte) :=
  match l with
  | c :: r => if decide (c = c_dot) then p_digits1 r ≫= λ '(d, r), Ok (c :: d, r) else Ok ([], l)
  | [] => Ok ([], l)
  end.
Definition p_exp (l : list byte) : jres (list byte) :=
  match l with
  | c :: r =>
      if bool_decide (c ∈ [x65; x45]) then
        match r with
        | s :: r' =>
            if bool_decide (s ∈ [c_plus; c_minus]) then p_digits1 r' ≫= λ '(d, r), Ok (c :: s :: d, r)
            else p_digits1 r ≫= λ '(d, r), Ok (c :: d, r)
        | [] => bad
        end
      else Ok ([], l)
  | [] => Ok ([], l)
  end.
Definition p_number (l : list byte) : jres (list byte) :=
  let '(s, l) := match l with c :: r => if decide (c = c_minus) then ([c], r) else ([], l) | [] => ([], l) end in
  p_int l ≫= λ '(i, l), p_frac l ≫= λ '(f, l), p_exp l ≫= λ '(e, l), Ok (s ++ i ++ f ++ e, l).

Definition hex_val (c : byte) : option Z :=
  if is_digit c then Some (byte_val c - 48)
  else if in_range x61 x66 c then Some (byte_val c - 87)
  else if in_range x41 x46 c then Some (byte_val c - 55)
  else None.
Definition p_hex4 (l : list byte) : jres Z :=
  match l with
  | a :: b :: c :: d :: r =>
      match hex_val a, hex_val b, hex_val c, hex_val d with
      | Some a, Some b, Some c, Some d => Ok (((a * 16 + b) * 16 + c) * 16 + d, r)
      | _, _, _, _ => bad
      end
  | _ => bad
  end.

(** what follows a backslash: the bytes it stands for *)
Definition p_escape (l : list byte) : jres (list byte) :=
  match l with
  | c :: r =>
      if bool_decide (c ∈ [c_quote; c_backslash; x2f]) then Ok ([c], r)
      else if decide (c = x62) then Ok ([x08], r)
      else if decide (c = x66) then Ok ([x0c], r)
      else if decide (c = x6e) then Ok ([x0a], r)
      else if decide (c = x72) then Ok ([x0d], r)
      else if decide (c = x74) then Ok ([x09], r)
      else if decide (c = x75) then
        p_hex4 r ≫= λ '(u, r),
        if (55296 <=? u) && (u <? 57344) then
          (* half of a surrogate pair *)
          match r with
          | x5c :: x75 :: r' =>
              match p_hex4 r' with
              | Ok (u', r'') =>
                  if (u <? 56320) && (56320 <=? u') && (u' <? 57344)
                  then Ok (utf8_encode (65536 + (u - 55296) * 1024 + (u' - 56320)), r'')
                  else Ok (replacement, r)
              | _ => Ok (replacement, r)
              end
          | _ => Ok (replacement, r)
          end
        else Ok (utf8_encode u, r)
      else bad
  | [] => bad
  end.

(** the rest of a string after its opening quote, unquoted *)
Fixpoint p_chars (fuel : nat) (l : list byte) : jres (list byte) :=
  match fuel with
  | O => OutOfFuel
  | S fuel =>
      match l with
      | [] => bad
      | c :: r =>
          if decide (c = c_quote) then Ok ([], r)
          else if decide (c = c_backslash) then
            p_escape r ≫= λ '(u, r), p_chars fuel r ≫= λ '(s, r), Ok (u ++ s, r)
          else if in_range x00 x1f c then bad
          else match utf8_len l with
               | O => p_chars fuel r ≫= λ '(s, r), Ok (replacement ++ s, r)
               | n => p_chars fuel (drop n l) ≫= λ '(s, r), Ok (take n l ++ s, r)
               end
      end
  end.
(** a string as it is written *)
Definition p_string (l : list byte) : jres (list byte) :=
  match l with
  | c :: r =>
      if decide (c = c_quote) then
        p_chars (length l) r ≫= λ '(_, r'), Ok (take (length r - length r' - 1) r, r')
      else bad
  | [] => bad
  end.
Definition unquote (raw : list byte) : list byte :=
  match p_chars (S (length raw)) (raw ++ [c_quote]) with Ok (s, _) => s | _ => [] end.

Definition p_lit (s : string) (v : json) (l : list byte) : jres json :=
  match strip_prefix (lit s) l with Some r => Ok (v, r) | None => bad end.

Fixpoint p_value (fuel : nat) (l : list byte) : jres json :=
  match fuel with
  | O => OutOfFuel
  | S fuel =>
      match skip_space l with
      | [] => bad
      | c :: r =>
          if decide (c = c_lbracket) then
            match skip_space r with
            | c' :: r' =>
                if decide (c' = c_rbracket) then Ok (JArr [], r')
                else p_elems fuel r ≫= λ '(l, r), Ok (JArr l, r)
            | [] => bad
            end
          else if decide (c = c_lbrace) then
            match skip_space r with
            | c' :: r' =>
                if decide (c' = c_rbrace) then Ok (JObj [], r')
                else p_members fuel r ≫= λ '(l, r), Ok (JObj l, r)
            | [] => bad
            end
          else if decide (c = c_quote) then p_string (c :: r) ≫= λ '(s, r), Ok (JStr s, r)
          else if decide (c = x6e) then p_lit "null" JNull (c :: r)
          else if decide (c = x74) then p_lit "true" (JBool true) (c :: r)
          else if decide (c = x66) then p_lit "false" (JBool false) (c :: r)
          else p_number (c :: r) ≫= λ '(n, r), Ok (JNum n, r)
      end
  end
with p_elems (fuel : nat) (l : list byte) : jres (list json) :=
  match fuel with
  | O => OutOfFuel
  | S fuel =>
      p_value fuel l ≫= λ '(v, l),
      match skip_space l with
      | c :: r =>
          if decide (c = c_comma) then p_elems fuel r ≫= λ '(vs, r), Ok (v :: vs, r)
          else if decide (c = c_rbracket) then Ok ([v], r)
          else bad
      | [] => bad
      end
  end
with p_members (fuel : nat) (l : list byte) : jres (list (list byte * json)) :=
  match fuel with
  | O => OutOfFuel
  | S fuel =>
      p_string (skip_space l) ≫= λ '(k, l),
      match skip_space l with
      | c :: r =>
          if decide (c = c_colon) then
            p_value fuel r ≫= λ '(v, l),
            match skip_space l with
            | c :: r =>
                if decide (c = c_comma) then p_members fuel r ≫= λ '(ms, r), Ok ((k, v) :: ms, r)
                else if decide (c = c_rbrace) then Ok ([(k, v)], r)
                else bad
            | [] => bad
            end
          else bad
      | [] => bad
      end
  end.

Definition json_fuel (l : list byte) : nat := 2 * length l + 2.

(** a whole text *)
Definition parse (l : list byte) : outcome () json :=
  p_value (json_fuel l) l ≫= λ '(v, r),
  if decide (skip_space r = []) then Ok v else bad.

(** ** Fields *)

(** does a key name a field, ignoring case: a [k] and an [s] also match the Kelvin
    sign and the long s *)
Fixpoint eq_fold (name key : list byte) : bool :=
  match name, key with
  | [], [] => true
  | n :: name, k :: key =>
      let upper c := if is_lower c then byte_of (byte_val c - 32) else c in
      bool_decide (upper n = upper k) && eq_fold name key
      || match k :: key with
         | xc5 :: xbf :: key => bool_decide (upper n = x53) && eq_fold name key
         | xe2 :: x84 :: xaa :: key => bool_decide (upper n = x4b) && eq_fold name key
         | _ => false
         end
  | _, _ => false
  end.

(** the values given for a field, in order *)
Definition field (name : string) (ms : list (list byte * json)) : list json :=
  omap (λ m : list byte * json, if eq_fold (lit name) (unquote m.1) then Some m.2 else None) ms.

(** a string field: its last value counts, null leaves it as it is, anything else is
    an error *)
Definition string_field_from (init : string) (name : string) (ms : list (list byte * json)) : option string :=
  foldl (λ o v, match o, v with
                | Some _, JStr raw => Some (bytes_str (unquote raw))
                | Some s, JNull => Some s
                | _, _ => None
                end) (Some init) (field name ms).
Definition string_field : string → list (list byte * json) → option string := string_field_from EmptyString.

(** a text with single quotes for the double ones *)
Definition double_quotes (s : string) : list byte :=
  (λ c, if decide (c = x27) then c_quote else c) <$> str_bytes s.
Example json_example :
  parse (double_quotes "{ 'a': [1, -2.5e3, true], 'b': 'x\u00e9\n' }") =
    Ok (JObj [(lit "a", JArr [JNum (lit "1"); JNum (lit "-2.5e3"); JBool true]);
              (lit "b", JStr (lit "x\u00e9\n"))]) ∧
  unquote (lit "x\u00e9\n") = [x78; xc3; xa9; x0a].
Proof. split; by vm_compute. Qed.
