(* ===== verification/JsonSpec.v ===== *)
(** * What [encoding/json] guarantees

    Parsing returns on every text, and gives back a value that was printed. *)
From S2P Require Import Prelude Readers GoStd Json.

(** ** Parsing returns *)

Lemma skip_space_length l : (length (skip_space l) ≤ length l)%nat.
Proof. induction l as [|c l IH]; simpl; [done|]. case_bool_decide; simpl; lia. Qed.

Lemma digits_span_length l : (length (digits_span l).2 ≤ length l)%nat ∧
  ((digits_span l).1 ≠ [] → (length (digits_span l).2 < length l)%nat).
Proof.
  induction l as [|c l [IH _]]; simpl; [done|]. destruct (is_digit c); [|simpl; split; [lia|done]].
  destruct (digits_span l) as [d r]. simpl in *. lia.
Qed.

Lemma p_digits1_needs l : needs_input l (p_digits1 l).
Proof.
  unfold p_digits1. destruct (digits_span_length l) as [_ H]. destruct (digits_span l) as [d r].
  case_decide; [done|]. by apply H.
Qed.

Lemma p_int_needs l : needs_input l (p_int l).
Proof.
  destruct l as [|c r]; [done|]. unfold p_int. case_decide; [simpl; lia|]. apply p_digits1_needs.
Qed.

Lemma p_frac_shrinks l : shrinks l (p_frac l).
Proof.
  destruct l as [|c r]; [unfold shrinks; simpl; lia|]. unfold p_frac. case_decide; [|simpl; lia].
  eapply rest_ok_bind; [apply p_digits1_needs|]. simpl. lia.
Qed.

Lemma p_exp_shrinks l : shrinks l (p_exp l).
Proof.
  destruct l as [|c r]; [unfold shrinks; simpl; lia|]. unfold p_exp. case_bool_decide; [|simpl; lia].
  destruct r as [|s r]; [done|]. case_bool_decide;
    (eapply rest_ok_bind; [apply p_digits1_needs|]; simpl; lia).
Qed.

Lemma p_number_needs l : needs_input l (p_number l).
Proof.
  unfold p_number. assert (Hsign : ∃ s l', match l with
      | c :: r => if decide (c = c_minus) then ([c], r) else ([], l) | [] => ([], l) end = (s, l')
      ∧ (length l' ≤ length l)%nat).
  { destruct l as [|c r]; [by eexists _, _|]. case_decide; eexists _, _; (split; [done|]; simpl; lia). }
  destruct Hsign as (s & l' & -> & Hl).
  eapply rest_ok_bind; [apply p_int_needs|]. intros i r1 H1.
  eapply rest_ok_bind; [apply p_frac_shrinks|]. intros f r2 H2.
  eapply rest_ok_bind; [apply p_exp_shrinks|]. simpl in *. lia.
Qed.

Lemma p_hex4_needs l : needs_input l (p_hex4 l).
Proof. destruct l as [|a [|b [|c [|d r]]]]; try done. simpl. repeat case_match; simpl; lia || done. Qed.

Lemma p_escape_needs l : needs_input l (p_escape l).
Proof.
  destruct l as [|c r]; [done|]. unfold p_escape.
  repeat (case_match; [simpl; lia|]); try done.
  destruct (decide (c = x75)); [|done].
  eapply rest_ok_bind; [apply p_hex4_needs|]. intros u r1 Hr1. cbv beta.
  destruct ((55296 <=? u) && _); [|simpl in *; lia].
  assert (Hrepl : rest_ok (λ n, n < length (c :: r))%nat (Ok (E := ()) (replacement, r1))) by (simpl in *; lia).
  destruct r1 as [|x r1]; [done|]. destruct x; try done. destruct r1 as [|y r1]; [done|]. destruct y; try done.
  pose proof (p_hex4_needs r1) as Hx. destruct (p_hex4 r1) as [[u' r2]| | |]; try done.
  destruct ((u <? 56320) && _ && _); [|done]. simpl in *. lia.
Qed.

Lemma p_chars_needs fuel l : (length l < fuel)%nat → needs_input l (p_chars fuel l).
Proof.
  revert l. induction fuel as [|fuel IH]; intros l Hf; [lia|]. destruct l as [|c r]; [done|].
  cbn [p_chars]. simpl in Hf. case_decide; [simpl; lia|]. case_decide.
  { eapply rest_ok_bind; [apply p_escape_needs|]. intros u r1 Hr1. cbv beta in *.
    eapply rest_ok_bind; [apply IH; lia|]. simpl. lia. }
  case_match; [done|]. destruct (utf8_len (c :: r)) as [|n].
  - eapply rest_ok_bind; [apply IH; lia|]. simpl. lia.
  - eapply rest_ok_bind; [apply IH; simpl; rewrite length_drop; lia|].
    simpl. rewrite length_drop. lia.
Qed.

Lemma p_string_needs l : needs_input l (p_string l).
Proof.
  destruct l as [|c r]; [done|]. unfold p_string. case_decide; [|done].
  eapply rest_ok_bind; [apply p_chars_needs; simpl; lia|]. simpl. lia.
Qed.

Lemma strip_prefix_length p l r : strip_prefix p l = Some r → (length r + length p = length l)%nat.
Proof.
  revert l. induction p as [|c p IH]; intros [|d l]; simpl; intros H; simplify_eq; try (simpl; lia).
  case_decide; [|done]. apply IH in H. lia.
Qed.

Lemma p_lit_needs s v l : lit s ≠ [] → needs_input l (p_lit s v l).
Proof.
  intros Hs. unfold p_lit. destruct (strip_prefix (lit s) l) as [r|] eqn:E; [|done].
  apply strip_prefix_length in E. assert (length (lit s) ≠ 0%nat) by (by intros ?%nil_length_inv).
  simpl. lia.
Qed.

Definition value_total (fuel : nat) : Prop := ∀ l,
  (2 * length l + 1 ≤ fuel)%nat → needs_input l (p_value fuel l).
Definition elems_total (fuel : nat) : Prop := ∀ l,
  (2 * length l + 2 ≤ fuel)%nat → needs_input l (p_elems fuel l).
Definition members_total (fuel : nat) : Prop := ∀ l,
  (2 * length l + 2 ≤ fuel)%nat → needs_input l (p_members fuel l).

Lemma p_value_step fuel : elems_total fuel → members_total fuel → value_total (S fuel).
Proof.
  intros He Hm l Hf. cbn [p_value]. pose proof (skip_space_length l) as Hs.
  destruct (skip_space l) as [|c r]; [done|]. simpl in Hs. pose proof (skip_space_length r) as Hr.
  repeat case_decide.
  - destruct (skip_space r) as [|c' r']; [done|]. simpl in *. case_decide; [simpl; lia|].
    eapply rest_ok_bind; [apply He; lia|]. simpl. lia.
  - destruct (skip_space r) as [|c' r']; [done|]. simpl in *. case_decide; [simpl; lia|].
    eapply rest_ok_bind; [apply Hm; lia|]. simpl. lia.
  - eapply rest_ok_bind; [apply p_string_needs|]. simpl. lia.
  - eapply rest_ok_impl; [by apply p_lit_needs|]. simpl. lia.
  - eapply rest_ok_impl; [by apply p_lit_needs|]. simpl. lia.
  - eapply rest_ok_impl; [by apply p_lit_needs|]. simpl. lia.
  - eapply rest_ok_bind; [apply p_number_needs|]. simpl. lia.
Qed.

Lemma p_elems_step fuel : value_total fuel → elems_total fuel → elems_total (S fuel).
Proof.
  intros Hv He l Hf. cbn [p_elems]. eapply rest_ok_bind; [apply Hv; lia|]. intros v r Hr. cbv beta in *.
  pose proof (skip_space_length r) as Hs. destruct (skip_space r) as [|c r']; [done|]. simpl in Hs.
  case_decide; [|case_decide; [simpl; lia|done]].
  eapply rest_ok_bind; [apply He; lia|]. simpl. lia.
Qed.

Lemma p_members_step fuel : value_total fuel → members_total fuel → members_total (S fuel).
Proof.
  intros Hv Hm l Hf. cbn [p_members]. pose proof (skip_space_length l).
  eapply rest_ok_bind; [apply p_string_needs|]. intros k r Hr. cbv beta in *.
  pose proof (skip_space_length r) as Hs. destruct (skip_space r) as [|c r']; [done|]. simpl in Hs.
  case_decide; [|done]. eapply rest_ok_bind; [apply Hv; lia|]. intros v r1 Hr1. cbv beta in *.
  pose proof (skip_space_length r1) as Hs1. destruct (skip_space r1) as [|c' r2]; [done|]. simpl in Hs1.
  case_decide; [|case_decide; [simpl; lia|done]].
  eapply rest_ok_bind; [apply Hm; lia|]. simpl. lia.
Qed.

Lemma p_total fuel : value_total fuel ∧ elems_total fuel ∧ members_total fuel.
Proof.
  induction fuel as [|fuel (Hv & He & Hm)]; [by split_and!; intros ? **; lia|].
  split_and!; [by apply p_value_step|by apply p_elems_step|by apply p_members_step].
Qed.

Lemma parse_total l : returns (parse l).
Proof.
  unfold parse. pose proof (proj1 (p_total (json_fuel l)) l) as H. unfold json_fuel in *.
  specialize (H ltac:(lia)). destruct (p_value _ l) as [[v r]| | |]; try done.
  cbn. by case_decide.
Qed.

(** ** Printed values *)

Definition ascii (l : list byte) : Prop := Forall (λ c, in_range x00 x7f c = true) l.

Lemma p_chars_quote_ascii c fuel r :
  in_range x00 x7f c = true →
  p_chars (S fuel) (quote_ascii c ++ r) = p_chars fuel r ≫= λ '(s, r), Ok (c :: s, r).
Proof. destruct c; try discriminate; intros _; reflexivity. Qed.

Lemma quote_loop_ascii fuel l :
  ascii l → (length l ≤ fuel)%nat → quote_loop fuel l = l ≫= quote_ascii.
Proof.
  intros H. revert fuel. induction H as [|c l Hc _ IH]; intros fuel Hf; [by destruct fuel|].
  destruct fuel as [|fuel]; [simpl in Hf; lia|]. cbn [quote_loop]. rewrite Hc.
  rewrite IH by (simpl in Hf; lia). done.
Qed.

Lemma quote_ascii_nonempty c : (0 < length (quote_ascii c))%nat.
Proof. destruct c; simpl; lia. Qed.

Lemma p_chars_quote l fuel rest :
  ascii l → (length l < fuel)%nat →
  p_chars fuel ((l ≫= quote_ascii) ++ c_quote :: rest) = Ok (l, rest).
Proof.
  intros H. revert fuel. induction H as [|c l Hc _ IH]; intros fuel Hf;
    (destruct fuel as [|fuel]; [simpl in Hf; lia|]); [done|].
  rewrite bind_cons, <-app_assoc, p_chars_quote_ascii, IH by (done || simpl in Hf; lia). done.
Qed.

(** what is written between quotes is read up to the closing one *)
Definition str_ok (raw : list byte) : Prop := ∀ rest, p_string (quoted raw ++ rest) = Ok (raw, rest).

Lemma quoted_app raw rest : quoted raw ++ rest = c_quote :: raw ++ c_quote :: rest.
Proof. unfold quoted. by rewrite <-app_comm_cons, <-app_assoc. Qed.

Lemma str_ok_chars raw s :
  (∀ fuel rest, (length raw < fuel)%nat → p_chars fuel (raw ++ c_quote :: rest) = Ok (s, rest)) →
  str_ok raw ∧ unquote raw = s.
Proof.
  intros Hc. split.
  - intros rest. rewrite quoted_app. unfold p_string. rewrite decide_True by done.
    rewrite Hc, bind_Ok by (simpl; rewrite length_app; simpl; lia).
    do 2 f_equal. rewrite length_app. apply take_app_length'. simpl. lia.
  - unfold unquote. by rewrite Hc by lia.
Qed.

Lemma escape_ascii l : ascii l → str_ok (escape l) ∧ unquote (escape l) = l.
Proof.
  intros H. apply str_ok_chars. intros fuel rest. unfold escape. rewrite quote_loop_ascii by done. intros Hf.
  apply p_chars_quote; [done|]. eapply Nat.le_lt_trans; [|exact Hf].
  clear. induction l as [|c l IH]; [done|]. rewrite bind_cons, length_app.
  pose proof (quote_ascii_nonempty c). simpl. lia.
Qed.

(** characters that stand for themselves *)
Definition plain (c : byte) : bool :=
  in_range x20 x7f c && negb (bool_decide (c ∈ [c_quote; c_backslash; x3c; x3e; x26])).
Lemma plain_quote c : plain c = true → in_range x00 x7f c = true ∧ quote_ascii c = [c].
Proof. destruct c; try discriminate; intros _; split; reflexivity. Qed.

Lemma plain_ok l : forallb plain l = true → escape l = l ∧ str_ok l ∧ unquote l = l.
Proof.
  intros H. assert (ascii l ∧ l ≫= quote_ascii = l) as [Ha Hq].
  { induction l as [|c l IH]; [by split; [constructor|]|]. cbn [forallb] in H.
    apply andb_true_iff in H as [[Hc Hq]%plain_quote H]. destruct (IH H) as [? E].
    split; [by constructor|]. rewrite bind_cons, Hq, E. done. }
  assert (He : escape l = l) by (unfold escape; by rewrite quote_loop_ascii).
  split; [done|]. rewrite <-He at 1 2. by apply escape_ascii.
Qed.

(** decimal numbers without a leading zero *)
Definition num_ok (l : list byte) : Prop :=
  Forall (λ c, is_digit c = true) l ∧ match l with [] => False | [_] => True | c :: _ => c ≠ x30 end.
(** what may follow a number *)
Definition num_end (l : list byte) : Prop :=
  match l with [] => True | c :: _ => c ∈ [c_comma; c_rbracket; c_rbrace] end.

Lemma digits_span_app l rest :
  Forall (λ c, is_digit c = true) l → num_end rest → digits_span (l ++ rest) = (l, rest).
Proof.
  intros H Hr. induction H as [|c l Hc _ IH]; simpl.
  - destruct rest as [|c rest]; [done|]. simpl in *.
    destruct (is_digit c) eqn:E; [|done]. exfalso.
    repeat (apply elem_of_cons in Hr as [->|Hr]; [done|]). by apply not_elem_of_nil in Hr.
  - by rewrite Hc, IH.
Qed.

Lemma num_end_frac_exp rest : num_end rest → p_frac rest = Ok ([], rest) ∧ p_exp rest = Ok ([], rest).
Proof.
  destruct rest as [|c rest]; [done|]. simpl. intros Hr.
  repeat (apply elem_of_cons in Hr as [->|Hr]; [done|]). by apply not_elem_of_nil in Hr.
Qed.

Lemma p_number_print l rest : num_ok l → num_end rest → p_number (l ++ rest) = Ok (l, rest).
Proof.
  intros [Hd Hz] Hr. destruct l as [|c l]; [done|]. unfold p_number.
  pose proof (Forall_inv Hd) as Hc. simpl in Hc. rewrite <-app_comm_cons.
  rewrite decide_False by (by intros ->).
  assert (Hint : p_int (c :: l ++ rest) = Ok (c :: l, rest)).
  { unfold p_int. destruct (decide (c = x30)) as [->|Hc0].
    - destruct l; [done|]. done.
    - unfold p_digits1. rewrite app_comm_cons, digits_span_app by done. done. }
  rewrite Hint, bind_Ok. destruct (num_end_frac_exp rest Hr) as [-> E]. rewrite bind_Ok, E, bind_Ok.
  cbn. by rewrite app_nil_r.
Qed.

Lemma dec_digits_ok fuel n acc :
  0 ≤ n < 2 ^ Z.of_nat fuel → Forall (λ c, is_digit c = true) acc →
  Forall (λ c, is_digit c = true) (dec_digits fuel n acc) ∧
  (acc = [] ∨ n ≠ 0 → (0 < fuel)%nat → match dec_digits fuel n acc with
   | [] => False | [_] => True | c :: _ => c ≠ x30 end).
Proof.
  revert n acc. induction fuel as [|fuel IH]; intros n acc Hn Hacc; [split; [done|lia]|].
  cbn [dec_digits]. pose proof (Z.mod_pos_bound n 10 ltac:(lia)).
  assert (Hdig : is_digit (byte_of (48 + n mod 10)) = true ∧
    (n mod 10 ≠ 0 → byte_of (48 + n mod 10) ≠ x30)).
  { assert (n mod 10 = 0 ∨ n mod 10 = 1 ∨ n mod 10 = 2 ∨ n mod 10 = 3 ∨ n mod 10 = 4 ∨ n mod 10 = 5 ∨
      n mod 10 = 6 ∨ n mod 10 = 7 ∨ n mod 10 = 8 ∨ n mod 10 = 9) as Hcases by lia.
    repeat (destruct Hcases as [->|Hcases]; [done|]). rewrite Hcases. done. }
  destruct Hdig as [Hdig Hnz]. destruct (Z.ltb_spec n 10).
  - split; [by constructor|]. intros Ho _. rewrite Z.mod_small in * by lia.
    destruct acc; [done|]. apply Hnz. destruct Ho as [?|?]; [done|lia].
  - pose proof (Z.div_mod n 10 ltac:(lia)).
    destruct fuel as [|fuel]; [change (2 ^ Z.of_nat 1) with 2 in Hn; lia|].
    assert (n / 10 < 2 ^ Z.of_nat (S fuel)).
    { rewrite Nat2Z.inj_succ, Z.pow_succ_r in Hn by lia. lia. }
    destruct (IH (n / 10) (byte_of (48 + n mod 10) :: acc)) as [Hall Hhead]; [lia|by constructor|].
    split; [done|]. intros _ _. apply Hhead; [right; lia|lia].
Qed.

Lemma print_nat_ok n : 0 ≤ n → num_ok (print_nat n).
Proof.
  intros Hn. unfold print_nat, num_ok.
  destruct (dec_digits_ok (S (Z.to_nat (Z.log2 n))) n []) as [Hd Hh]; [|constructor|].
  - split; [done|]. destruct (decide (n = 0)) as [->|]; [done|].
    pose proof (Z.log2_nonneg n). rewrite Nat2Z.inj_succ, Z2Nat.id by done.
    apply (Z.log2_spec n). lia.
  - split; [done|]. apply Hh; [by left|lia].
Qed.

(** ** A printed value parses back *)

Fixpoint json_ind' (P : json → Prop) (HN : P JNull) (HB : ∀ b, P (JBool b)) (HM : ∀ l, P (JNum l))
    (HS : ∀ s, P (JStr s)) (HA : ∀ l, Forall P l → P (JArr l))
    (HO : ∀ l, Forall (λ m : list byte * json, P m.2) l → P (JObj l)) (v : json) : P v :=
  let rec := json_ind' P HN HB HM HS HA HO in
  match v with
  | JNull => HN
  | JBool b => HB b
  | JNum l => HM l
  | JStr s => HS s
  | JArr l => HA l
      ((fix go l : Forall P l :=
          match l with [] => List.Forall_nil _ | v :: l => List.Forall_cons _ v _ (rec v) (go l) end) l)
  | JObj l => HO l
      ((fix go l : Forall (λ m : list byte * json, P m.2) l :=
          match l with
          | [] => List.Forall_nil _
          | (k, v) :: l => List.Forall_cons _ (k, v) _ (rec v) (go l)
          end) l)
  end.

(** well written strings and decimal numbers *)
Fixpoint json_ok (v : json) : Prop :=
  match v with
  | JNum l => num_ok l
  | JStr raw => str_ok raw
  | JArr l => (fix go l := match l with [] => True | v :: l => json_ok v ∧ go l end) l
  | JObj l => (fix go l := match l with [] => True | (k, v) :: l => str_ok k ∧ json_ok v ∧ go l end) l
  | _ => True
  end.

Definition print_elems : list json → list byte :=
  fix go l := match l with [] => [c_rbracket] | v :: l => c_comma :: print v ++ go l end.
Definition print_members : list (list byte * json) → list byte :=
  fix go l :=
    match l with
    | [] => [c_rbrace]
    | (k, v) :: l => c_comma :: quoted k ++ c_colon :: print v ++ go l
    end.

(** the first character of a value is none of those that end or separate values *)
Definition starts (l : list byte) : Prop :=
  match l with
  | [] => False
  | c :: _ => c ∉ [x20; x09; x0a; x0d; c_rbracket; c_rbrace]
  end.

Lemma print_starts v : json_ok v → starts (print v).
Proof.
  destruct v as [|[]|l|s|l|l]; intros Hok;
    try (apply (bool_decide_unpack (_ ∉ _)); vm_compute; reflexivity).
  - simpl in *. destruct Hok as [Hd Hz]. destruct l as [|c l]; [done|]. apply Forall_inv in Hd. simpl.
    intros Hin. repeat (apply elem_of_cons in Hin as [->|Hin]; [done|]). by apply not_elem_of_nil in Hin.
  - destruct l; apply (bool_decide_unpack (_ ∉ _)); vm_compute; reflexivity.
  - destruct l as [|[k v] l]; apply (bool_decide_unpack (_ ∉ _)); vm_compute; reflexivity.
Qed.

Lemma skip_space_starts l rest : starts l → skip_space (l ++ rest) = l ++ rest.
Proof.
  destruct l as [|c l]; [done|]. simpl. intros H. rewrite bool_decide_false; [done|]. set_solver.
Qed.

Lemma quoted_starts k : starts (quoted k).
Proof. apply (bool_decide_unpack (_ ∉ _)); vm_compute; reflexivity. Qed.
#[local] Arguments quoted : simpl never.
#[local] Arguments print : simpl never.

Definition reads_back (v : json) : Prop := ∀ fuel rest,
  json_ok v → num_end rest → (2 * length (print v) + 1 ≤ fuel)%nat →
  p_value fuel (print v ++ rest) = Ok (v, rest).

Lemma p_elems_print v l fuel rest :
  reads_back v → Forall reads_back l → json_ok v → json_ok (JArr l) → num_end rest →
  (2 * (length (print v) + length (print_elems l)) + 1 ≤ fuel)%nat →
  p_elems fuel (print v ++ print_elems l ++ rest) = Ok (v :: l, rest).
Proof.
  intros Hv H. revert v Hv fuel. induction H as [|w l Hw _ IH]; intros v Hv fuel Hokv Hok Hr Hf;
    (destruct fuel as [|fuel]; [lia|]); cbn [p_elems].
  - rewrite Hv; [|done| |simpl in Hf; lia]; [done|]. simpl. set_solver.
  - destruct Hok as [Hokw Hok].
    change (print_elems (w :: l)) with (c_comma :: print w ++ print_elems l) in *.
    simpl in Hf. rewrite length_app in Hf. rewrite <-app_comm_cons, <-app_assoc.
    rewrite Hv; [|done| |lia]; [|simpl; set_solver]. rewrite bind_Ok.
    cbn [skip_space]. rewrite bool_decide_false, decide_True by (done || set_solver).
    rewrite IH by (done || lia). done.
Qed.

Lemma p_members_print k v l fuel rest :
  str_ok k → reads_back v → Forall (λ m, reads_back m.2) l → json_ok v → json_ok (JObj l) →
  num_end rest →
  (2 * (length (quoted k) + 1 + length (print v) + length (print_members l)) + 1 ≤ fuel)%nat →
  p_members fuel (quoted k ++ c_colon :: print v ++ print_members l ++ rest) = Ok ((k, v) :: l, rest).
Proof.
  intros Hk Hv H. revert k v Hk Hv fuel. induction H as [|[k' w] l Hw _ IH]; intros k v Hk Hv fuel Hokv Hok Hr Hf;
    (destruct fuel as [|fuel]; [lia|]); cbn [p_members].
  - rewrite skip_space_starts by apply quoted_starts. rewrite Hk, bind_Ok.
    cbn [skip_space]. rewrite bool_decide_false, decide_True by (done || set_solver).
    rewrite Hv; [|done| |simpl in Hf; lia]; [done|]. simpl. set_solver.
  - destruct Hok as (Hk' & Hokw & Hok).
    change (print_members ((k', w) :: l)) with (c_comma :: quoted k' ++ c_colon :: print w ++ print_members l) in *.
    simpl in Hf. rewrite !length_app in Hf. simpl in Hf. rewrite !length_app in Hf.
    rewrite <-app_comm_cons, <-app_assoc. rewrite <-app_comm_cons, <-app_assoc.
    rewrite skip_space_starts by apply quoted_starts. rewrite Hk, bind_Ok.
    cbn [skip_space]. rewrite bool_decide_false, decide_True by (done || set_solver).
    rewrite Hv; [|done| |lia]; [|simpl; set_solver]. rewrite bind_Ok.
    cbn [skip_space]. rewrite bool_decide_false, decide_True by (done || set_solver).
    rewrite IH; [done|done|exact Hw|done|exact Hok|done|unfold quoted; cbn [length]; rewrite !length_app; simpl; lia].
Qed.

Lemma p_value_print v : reads_back v.
Proof.
  induction v as [|b|l|s|l IH|l IH] using json_ind'; intros fuel rest Hok Hr Hf;
    (destruct fuel as [|fuel]; [lia|]); cbn [p_value].
  - done.
  - by destruct b.
  - pose proof (print_starts (JNum l) Hok) as Hst. change (print (JNum l)) with l in *.
    rewrite skip_space_starts by done.
    destruct l as [|c l]; [done|]. destruct Hok as [Hd Hz]. pose proof (Forall_inv Hd) as Hc.
    rewrite <-app_comm_cons. rewrite !decide_False by (by intros ->).
    rewrite app_comm_cons, p_number_print by done. done.
  - change (print (JStr s)) with (quoted s) in *. rewrite skip_space_starts by apply quoted_starts.
    unfold quoted at 1. rewrite <-app_comm_cons. rewrite !decide_False, decide_True by done.
    change (p_string (quoted s ++ rest) ≫= (λ '(s, r), Ok (JStr s, r)) = Ok (JStr s, rest)).
    simpl in Hok. by rewrite Hok.
  - destruct l as [|v l]; [done|]. apply Forall_cons_1 in IH as [Hv IH]. destruct Hok as [Hokv Hok].
    change (print (JArr (v :: l))) with (c_lbracket :: print v ++ print_elems l) in *.
    pose proof (print_starts v Hokv) as Hst. simpl in Hf. rewrite length_app in Hf.
    rewrite skip_space_starts by (simpl; set_solver). rewrite <-app_comm_cons, <-app_assoc.
    rewrite decide_True by done. rewrite skip_space_starts by done.
    destruct (print v ++ print_elems l ++ rest) as [|c r] eqn:E; [by destruct (print v)|].
    rewrite decide_False.
    2: { destruct (print v); [done|]. simpl in *. simplify_eq. set_solver. }
    rewrite <-E, p_elems_print by (done || lia). done.
  - destruct l as [|[k v] l]; [done|]. apply Forall_cons_1 in IH as [Hv IH].
    destruct Hok as (Hk & Hokv & Hok).
    change (print (JObj ((k, v) :: l))) with (c_lbrace :: quoted k ++ c_colon :: print v ++ print_members l) in *.
    simpl in Hf. rewrite !length_app in Hf. simpl in Hf. rewrite length_app in Hf.
    rewrite skip_space_starts by (simpl; set_solver). rewrite <-app_comm_cons, <-app_assoc.
    rewrite <-app_comm_cons, <-app_assoc.
    rewrite decide_False, decide_True by done. rewrite skip_space_starts by apply quoted_starts.
    unfold quoted at 1. rewrite <-app_comm_cons. rewrite decide_False by done.
    change (p_members fuel (quoted k ++ c_colon :: print v ++ print_members l ++ rest)
      ≫= (λ '(l, r), Ok (JObj l, r)) = Ok (JObj ((k, v) :: l), rest)).
    rewrite p_members_print; [done|done|exact Hv|exact IH|done|exact Hok|done|].
    unfold quoted in *; cbn [length] in *; rewrite ?length_app in *; simpl in *; lia.
Qed.

(** a value with well written strings parses back *)
Lemma parse_print v : json_ok v → parse (print v) = Ok v.
Proof.
  intros Hok. unfold parse. rewrite <-(app_nil_r (print v)) at 2.
  rewrite p_value_print; [|done|done|unfold json_fuel; lia]. by rewrite bind_Ok, decide_True.
Qed.
