(* ===== verification/GoTime.v ===== *)
(** * Times as JSON (Go 1.13's [time] package)

    A [time.Time] is nanoseconds since the Unix epoch; the offset in seconds of its
    location is an argument where it is printed.  [format_time] is
    [Time.Format(time.RFC3339Nano)] and [parse_time] what [Time.UnmarshalJSON] makes of
    the JSON text of a value: [time.Parse] with a quoted [time.RFC3339], which also
    accepts a fraction, an hour of one digit and any zone of two numbers. *)
From S2P Require Import Prelude GoStd Json JsonSpec.

(** ** The calendar *)

Definition isLeap (year : Z) : bool := (year mod 4 =? 0) && (negb (year mod 100 =? 0) || (year mod 400 =? 0)).
Definition daysBefore (month : Z) : Z :=
  default 0 ([0; 31; 59; 90; 120; 151; 181; 212; 243; 273; 304; 334; 365] !! Z.to_nat month).
Definition daysIn (month year : Z) : Z :=
  if (month =? 2) && isLeap year then 29 else daysBefore month - daysBefore (month - 1).

(** [absDate]: the year and the day in it, from the days since January 1, year 1 *)
Definition year_of_day (d : Z) : Z * Z :=
  let y := 400 * (d / 146097) in
  let d := d mod 146097 in
  let n := d / 36524 in
  let n := n - Z.shiftr n 2 in
  let y := y + 100 * n in
  let d := d - 36524 * n in
  let n := d / 1461 in
  let y := y + 4 * n in
  let d := d - 1461 * n in
  let n := d / 365 in
  let n := n - Z.shiftr n 2 in
  (y + n + 1, d - 365 * n).

(** the month and the day in it, from the day in the year *)
Definition month_of_day (leap : bool) (day : Z) : Z * Z :=
  if leap && (day =? 59) then (2, 29)
  else
    let day := if leap && (59 <? day) then day - 1 else day in
    let month := day / 31 in
    if daysBefore (month + 1) <=? day then (month + 2, day - daysBefore (month + 1) + 1)
    else (month + 1, day - daysBefore month + 1).

Definition absDate (d : Z) : Z * Z * Z :=
  let (year, yday) := year_of_day d in
  let (month, day) := month_of_day (isLeap year) yday in
  (year, month, day).

(** [Date]: the days since January 1, year 1 *)
Definition days_of (year month day : Z) : Z :=
  let y := year - 1 in
  let d := 146097 * (y / 400) in
  let y := y mod 400 in
  let d := d + 36524 * (y / 100) in
  let y := y mod 100 in
  let d := d + 1461 * (y / 4) in
  let d := d + 365 * (y mod 4) in
  let d := d + daysBefore (month - 1) in
  let d := if isLeap year && (3 <=? month) then d + 1 else d in
  d + (day - 1).

Definition day_seconds : Z := 86400.
(** the Unix epoch, in seconds since year 1 *)
Definition epoch : Z := 62135596800.

(** ** Printing *)

Definition dig (n : Z) : byte := byte_of (48 + n).

(** [appendInt] for numbers that are not negative *)
Definition append_int (width : nat) (n : Z) : list byte :=
  let l := print_nat n in replicate (width - length l) x30 ++ l.

Fixpoint digits_n (k : nat) (n : Z) : list byte :=
  match k with O => [] | S k => digits_n k (n / 10) ++ [dig (n mod 10)] end.
Fixpoint trim_zeros (l : list byte) : list byte :=
  match l with
  | [] => []
  | c :: l => match trim_zeros l with [] => if decide (c = x30) then [] else [c] | t => c :: t end
  end.

(** [formatNano] with nine digits, trimmed *)
Definition format_nano (ns : Z) : list byte :=
  match trim_zeros (digits_n 9 ns) with [] => [] | l => c_dot :: l end.

Definition format_zone (offset : Z) : list byte :=
  if offset =? 0 then lit "Z"
  else
    let zone := Z.quot offset 60 in
    (if zone <? 0 then c_minus else c_plus) ::
      append_int 2 (Z.abs zone / 60) ++ c_colon :: append_int 2 (Z.abs zone mod 60).

Definition local_seconds (offset t : Z) : Z := t / Second + offset + epoch.
Definition time_year (offset t : Z) : Z := (absDate (local_seconds offset t / day_seconds)).1.1.

Definition format_time (offset t : Z) : list byte :=
  let s := local_seconds offset t in
  let '(year, month, day) := absDate (s / day_seconds) in
  let s := s mod day_seconds in
  append_int 4 year ++ c_minus :: append_int 2 month ++ c_minus :: append_int 2 day ++
  lit "T" ++ append_int 2 (s / 3600) ++ c_colon :: append_int 2 (s mod 3600 / 60) ++ c_colon :: append_int 2 (s mod 60) ++
  format_nano (t mod Second) ++ format_zone offset.

(** [Time.MarshalJSON], without the quotes: it fails for years of more than four digits *)
Definition Time_MarshalJSON (offset t : Z) : option (list byte) :=
  let y := time_year offset t in
  if (y <? 0) || (10000 <=? y) then None else Some (format_time offset t).

(** ** Parsing *)

Definition skip_char (c : byte) (l : list byte) : option (list byte) :=
  match l with c' :: l => if decide (c' = c) then Some l else None | [] => None end.

(** [getnum]: two digits, or one unless [fixed] *)
Definition getnum (fixed : bool) (l : list byte) : option (Z * list byte) :=
  match l with
  | a :: r =>
      if is_digit a then
        match r with
        | b :: r' => if is_digit b then Some ((byte_val a - 48) * 10 + (byte_val b - 48), r')
                     else if fixed then None else Some (byte_val a - 48, r)
        | [] => if fixed then None else Some (byte_val a - 48, r)
        end
      else None
  | [] => None
  end.

(** the package's own [atoi]: an optional sign and digits, even none *)
Definition time_atoi (l : list byte) : option Z :=
  match l with
  | c :: r =>
      if decide (c = c_minus) then Z.opp <$> digits_value 0 r
      else if decide (c = c_plus) then digits_value 0 r
      else digits_value 0 l
  | [] => Some 0
  end.

Definition parse_year (l : list byte) : option (Z * list byte) :=
  match l with
  | a :: b :: c :: d :: r => if is_digit a then y ← time_atoi [a; b; c; d]; Some (y, r) else None
  | _ => None
  end.

(** a fraction, which the layout does not have *)
Definition parse_nano (l : list byte) : option (Z * list byte) :=
  match l with
  | p :: d :: _ =>
      if bool_decide (p = c_dot) && is_digit d then
        let (ds, r) := digits_span (tail l) in
        n ← digits_value 0 ds;
        if n <? Second then Some (n * 10 ^ Z.max 0 (9 - zlen ds), r) else None
      else Some (0, l)
  | _ => Some (0, l)
  end.

Definition parse_zone (l : list byte) : option (Z * list byte) :=
  match l with
  | c :: r =>
      if decide (c = x5a) then Some (0, r)
      else match r with
           | h1 :: h2 :: p :: m1 :: m2 :: r =>
               if decide (p = c_colon) then
                 h ← time_atoi [h1; h2]; m ← time_atoi [m1; m2];
                 let o := (h * 60 + m) * 60 in
                 if decide (c = c_plus) then Some (o, r)
                 else if decide (c = c_minus) then Some (- o, r)
                 else None
               else None
           | _ => None
           end
  | [] => None
  end.

Definition in_range_z (lo hi n : Z) : bool := (lo <=? n) && (n <=? hi).

(** [time.Parse("\"2006-01-02T15:04:05Z07:00\"", text)] *)
Definition parse_time (text : list byte) : option Z :=
  l ← skip_char c_quote text;
  '(year, l) ← parse_year l; l ← skip_char c_minus l;
  '(month, l) ← getnum true l; l ← skip_char c_minus l;
  '(day, l) ← getnum true l; l ← skip_char x54 l;
  '(hour, l) ← getnum false l; l ← skip_char c_colon l;
  '(min, l) ← getnum true l; l ← skip_char c_colon l;
  '(sec, l) ← getnum true l;
  '(ns, l) ← parse_nano l;
  '(offset, l) ← parse_zone l;
  l ← skip_char c_quote l;
  if bool_decide (l = []) && in_range_z 1 12 month && in_range_z 0 23 hour && in_range_z 0 59 min &&
     in_range_z 0 59 sec && in_range_z 1 (daysIn month year) day
  then Some ((days_of year month day * day_seconds + hour * 3600 + min * 60 + sec - epoch - offset) * Second + ns)
  else None.

(** [Time.UnmarshalJSON] of a value, for a time that is [init]: null leaves it; no
    text of a value that is not a string is a time *)
Definition Time_UnmarshalJSON (init : Z) (v : json) : option Z :=
  match v with
  | JNull => Some init
  | JStr raw => parse_time (quoted raw)
  | _ => None
  end.

Example time_example :
  format_time 0 zero_time = lit "0001-01-01T00:00:00Z" ∧
  format_time (-19800) (1582934400 * Second + 120000000) = lit "2020-02-28T18:30:00.12-05:30" ∧
  parse_time (quoted (lit "2020-02-29T5:00:00.5+01:00")) = Some (1582948800 * Second + 500000000).
Proof. split_and!; by vm_compute. Qed.

(** ** The calendar is consistent *)

Local Ltac Zify.zify_post_hook ::= Z.to_euclidean_division_equations.

(** a bool function that holds from 0 to [n - 1] *)
Fixpoint check_below (n : nat) (f : Z → bool) : bool :=
  match n with O => true | S n => f (Z.of_nat n) && check_below n f end.
Lemma check_below_spec n f k : check_below n f = true → 0 ≤ k < Z.of_nat n → f k = true.
Proof.
  induction n as [|n IH]; [lia|]. cbn [check_below]. intros [Hn Hb]%andb_true_iff Hk.
  destruct (decide (k = Z.of_nat n)) as [->|]; [done|]. apply IH; [done|lia].
Qed.

Lemma check_below_dec n (P : Z → Prop) `{∀ k, Decision (P k)} k :
  check_below n (λ k, bool_decide (P k)) = true → 0 ≤ k < Z.of_nat n → P k.
Proof. intros Hc Hk. pose proof (check_below_spec n _ k Hc Hk) as Hb. by apply bool_decide_eq_true in Hb. Qed.

Lemma div_mod_is n d q r : n = d * q + r → 0 ≤ r < d → n / d = q ∧ n mod d = r.
Proof.
  intros H Hr. split; [symmetry; apply (Z.div_unique_pos n d q r)|symmetry; apply (Z.mod_unique_pos n d q r)]; lia.
Qed.

Lemma isLeap_period y q : isLeap (y + 400 * q) = isLeap y.
Proof.
  unfold isLeap. replace (y + 400 * q) with (y + (100 * q) * 4) at 1 by lia. rewrite Z.mod_add by lia.
  replace (y + 400 * q) with (y + (4 * q) * 100) at 1 by lia. rewrite Z.mod_add by lia.
  replace (y + 400 * q) with (y + q * 400) by lia. by rewrite Z.mod_add by lia.
Qed.

(** the last of four years is a leap year, but for the last of a hundred that are not the
    last of four hundred *)
Lemma isLeap_cycle a b c q :
  0 ≤ a < 4 → 0 ≤ b < 25 → 0 ≤ c < 4 →
  isLeap (400 * q + 100 * a + 4 * b + c + 1) = (c =? 3) && (negb (b =? 24) || (a =? 3)).
Proof.
  intros Ha Hb Hc. replace (400 * q + 100 * a + 4 * b + c + 1) with (100 * a + 4 * b + c + 1 + 400 * q) by lia.
  rewrite isLeap_period.
  pose proof (check_below_spec 400 (λ k, Bool.eqb (isLeap (k + 1))
    ((k mod 4 =? 3) && (negb (k mod 100 / 4 =? 24) || (k / 100 =? 3)))) (100 * a + 4 * b + c)) as H.
  specialize (H ltac:(vm_compute; reflexivity) ltac:(lia)). apply Bool.eqb_prop in H. rewrite H.
  destruct (div_mod_is (100 * a + 4 * b + c) 4 (25 * a + b) c) as [_ ->]; [lia..|].
  destruct (div_mod_is (100 * a + 4 * b + c) 100 a (4 * b + c)) as [-> ->]; [lia..|].
  by destruct (div_mod_is (4 * b + c) 4 b c) as [-> _]; [lia..|].
Qed.

(** the part of a cycle of four parts, the last of which is a day longer *)
Lemma quarter_spec n w :
  0 < w → 0 ≤ n ≤ 4 * w →
  let a := n / w - n / w / 4 in
  0 ≤ a < 4 ∧ 0 ≤ n - w * a ∧ (n - w * a < w ∨ a = 3 ∧ n - w * a ≤ w).
Proof.
  intros Hw Hn a. pose proof (Z.div_mod n w ltac:(lia)) as Hdm. pose proof (Z.mod_pos_bound n w Hw) as Hm.
  set (p := n / w) in *. set (m := n mod w) in *. clearbody p m.
  assert (0 ≤ p ≤ 4) by (clear a; nia).
  assert (p < 4 ∧ a = p ∨ p = 4 ∧ a = 3) as Ha by (unfold a; clear -H; lia). clearbody a.
  destruct Ha as [[? ->]|[-> ->]]; lia.
Qed.

(** the days before a year, as [Date] counts them *)
Definition days_before_year (year : Z) : Z :=
  let y := year - 1 in 146097 * (y / 400) + 36524 * (y mod 400 / 100) + 1461 * (y mod 100 / 4) + 365 * (y mod 4).

Lemma year_of_day_spec d :
  let (year, yday) := year_of_day d in
  d = days_before_year year + yday ∧ 0 ≤ yday < (if isLeap year then 366 else 365).
Proof.
  unfold year_of_day, days_before_year. rewrite !Z.shiftr_div_pow2 by lia. change (2 ^ 2) with 4.
  set (q := d / 146097). set (r := d mod 146097). assert (d = 146097 * q + r ∧ 0 ≤ r < 146097) by lia.
  destruct (quarter_spec r 36524 ltac:(lia) ltac:(lia)) as (Ha & Hs0 & Hs).
  set (a := r / 36524 - r / 36524 / 4) in *. set (s := r - 36524 * a) in *. clearbody a.
  set (b := s / 1461). assert (0 ≤ b < 25) by lia.
  set (u := s - 1461 * b). assert (0 ≤ u < 1461) by lia.
  destruct (quarter_spec u 365 ltac:(lia) ltac:(lia)) as (Hc & Hu0 & Hu).
  set (c := u / 365 - u / 365 / 4) in *. clearbody c.
  replace (400 * q + 100 * a + 4 * b + c + 1 - 1) with (400 * q + (100 * a + 4 * b + c)) by lia.
  set (k := 100 * a + 4 * b + c).
  destruct (div_mod_is (400 * q + k) 400 q k) as [-> ->]; [lia..|].
  destruct (div_mod_is k 100 a (4 * b + c)) as [-> _]; [lia..|].
  destruct (div_mod_is (400 * q + k) 100 (4 * q + a) (4 * b + c)) as [_ ->]; [lia..|].
  destruct (div_mod_is (4 * b + c) 4 b c) as [-> _]; [lia..|].
  destruct (div_mod_is (400 * q + k) 4 (100 * q + 25 * a + b) c) as [_ ->]; [lia..|].
  split; [lia|]. rewrite isLeap_cycle by lia.
  destruct (Z.eqb_spec c 3); destruct (Z.eqb_spec b 24); destruct (Z.eqb_spec a 3); cbn [andb orb negb]; lia.
Qed.

Lemma month_of_day_spec (leap : bool) day :
  0 ≤ day < (if leap then 366 else 365) →
  let (m, d) := month_of_day leap day in
  1 ≤ m ≤ 12 ∧ 1 ≤ d ≤ (if (m =? 2) && leap then 29 else daysBefore m - daysBefore (m - 1)) ∧
  daysBefore (m - 1) + (if leap && (3 <=? m) then 1 else 0) + (d - 1) = day.
Proof.
  intros Hd.
  pose proof (check_below_spec (if leap then 366 else 365) (λ day, let (m, d) := month_of_day leap day in
    in_range_z 1 12 m && in_range_z 1 (if (m =? 2) && leap then 29 else daysBefore m - daysBefore (m - 1)) d &&
    (daysBefore (m - 1) + (if leap && (3 <=? m) then 1 else 0) + (d - 1) =? day)) day) as H.
  specialize (H ltac:(destruct leap; vm_compute; reflexivity) ltac:(destruct leap; lia)).
  cbv beta in H. destruct (month_of_day leap day) as [m d]. unfold in_range_z in H. destruct ((m =? 2) && leap); lia.
Qed.

(** a day is a date that exists, and the date is that day *)
Lemma absDate_spec d :
  let '(year, month, day) := absDate d in
  days_of year month day = d ∧ 1 ≤ month ≤ 12 ∧ 1 ≤ day ≤ daysIn month year.
Proof.
  unfold absDate. pose proof (year_of_day_spec d) as Hy. destruct (year_of_day d) as [year yday].
  destruct Hy as [Hd Hyd]. pose proof (month_of_day_spec (isLeap year) yday) as Hm.
  specialize (Hm ltac:(destruct (isLeap year); lia)).
  destruct (month_of_day (isLeap year) yday) as [month day]. destruct Hm as (Hm & Hday & Hsum).
  split_and!; [|lia|lia|lia|exact (proj2 Hday)]. unfold days_of, days_before_year in *.
  replace ((year - 1) mod 400 mod 100) with ((year - 1) mod 100) by lia.
  replace ((year - 1) mod 100 mod 4) with ((year - 1) mod 4) by lia.
  destruct (isLeap year && (3 <=? month)); lia.
Qed.

(** ** A printed time reads back *)

Lemma dig_val n : 0 ≤ n < 10 → byte_val (dig n) = 48 + n.
Proof. intros Hn. unfold dig. rewrite byte_val_of. lia. Qed.
Lemma dig_digit n : 0 ≤ n < 10 → is_digit (dig n) = true.
Proof.
  intros Hn. unfold is_digit, in_range. rewrite dig_val by done.
  change (byte_val x30) with 48. change (byte_val x39) with 57. lia.
Qed.

Lemma append_int_2 n : 0 ≤ n < 100 → append_int 2 n = [dig (n / 10); dig (n mod 10)].
Proof.
  apply (check_below_dec 100 (λ n, append_int 2 n = [dig (n / 10); dig (n mod 10)])). by vm_compute.
Qed.
Lemma append_int_4 n :
  0 ≤ n < 10000 → append_int 4 n = [dig (n / 1000); dig (n / 100 mod 10); dig (n / 10 mod 10); dig (n mod 10)].
Proof.
  apply (check_below_dec (Z.to_nat 10000) (λ n, append_int 4 n =
    [dig (n / 1000); dig (n / 100 mod 10); dig (n / 10 mod 10); dig (n mod 10)])). by vm_compute.
Qed.

Lemma digits_value_dig v n l : 0 ≤ n < 10 → digits_value v (dig n :: l) = digits_value (v * 10 + n) l.
Proof. intros Hn. cbn [digits_value]. rewrite dig_digit, dig_val by done. f_equal. lia. Qed.

Lemma getnum_append n fixed l : 0 ≤ n < 100 → getnum fixed (append_int 2 n ++ l) = Some (n, l).
Proof.
  intros Hn. rewrite append_int_2 by done. cbn [app getnum]. rewrite !dig_digit, !dig_val by lia. do 2 f_equal. lia.
Qed.

Lemma dig_sign n : 0 ≤ n < 10 → dig n ≠ c_minus ∧ dig n ≠ c_plus ∧ dig n ≠ c_dot.
Proof. intros Hn. split_and!; intros E; pose proof (dig_digit n Hn) as Hd; by rewrite E in Hd. Qed.

Lemma time_atoi_dig n : 0 ≤ n < 100 → time_atoi [dig (n / 10); dig (n mod 10)] = Some n.
Proof.
  intros Hn. destruct (dig_sign (n / 10)) as (Hm & Hp & _); [lia|].
  unfold time_atoi. rewrite !decide_False by done. rewrite !digits_value_dig by lia. cbn [digits_value]. f_equal. lia.
Qed.

Lemma parse_year_append n l : 0 ≤ n < 10000 → parse_year (append_int 4 n ++ l) = Some (n, l).
Proof.
  intros Hn. rewrite append_int_4 by done. cbn [app]. unfold parse_year. rewrite dig_digit by lia.
  destruct (dig_sign (n / 1000)) as (Hm & Hp & _); [lia|].
  unfold time_atoi. rewrite !decide_False by done. rewrite !digits_value_dig by lia. cbn. do 2 f_equal. lia.
Qed.

(** the digits of a fraction, less the zeros at the end *)
Lemma digits_value_app v l k : digits_value v (l ++ k) = digits_value v l ≫= λ w, digits_value w k.
Proof. revert v. induction l as [|c l IH]; intros v; [done|]. simpl. by destruct (is_digit c). Qed.

Lemma digits_value_zeros v k : digits_value v (replicate k x30) = Some (v * 10 ^ Z.of_nat k).
Proof.
  revert v. induction k as [|k IH]; intros v; [simpl; f_equal; lia|].
  change (replicate (S k) x30) with (dig 0 :: replicate k x30). rewrite digits_value_dig, IH by lia.
  f_equal. rewrite Nat2Z.inj_succ, Z.pow_succ_r by lia. lia.
Qed.

Lemma digits_n_spec k n :
  0 ≤ n < 10 ^ Z.of_nat k → digits_value 0 (digits_n k n) = Some n ∧ length (digits_n k n) = k ∧
  Forall (λ c, is_digit c = true) (digits_n k n).
Proof.
  revert n. induction k as [|k IH]; intros n Hn.
  { change (10 ^ Z.of_nat 0) with 1 in Hn. replace n with 0 by lia. by split_and!. }
  rewrite Nat2Z.inj_succ, Z.pow_succ_r in Hn by lia. cbn [digits_n].
  destruct (IH (n / 10)) as (Hv & Hl & Hd).
  { set (p := 10 ^ Z.of_nat k) in *. clearbody p. lia. }
  split_and!.
  - rewrite digits_value_app, Hv. simpl. rewrite dig_digit, dig_val by lia. f_equal. lia.
  - rewrite length_app, Hl. simpl. lia.
  - apply Forall_app. split; [done|]. constructor; [apply dig_digit; lia|constructor].
Qed.

Lemma trim_zeros_app l : ∃ k, l = trim_zeros l ++ replicate k x30.
Proof.
  induction l as [|c l [k IH]]; [by exists 0%nat|]. cbn [trim_zeros].
  destruct (trim_zeros l) as [|d t] eqn:E.
  - case_decide as Hc; [exists (S k); by rewrite Hc, IH|exists k; by rewrite IH at 1].
  - exists k. by rewrite IH at 1.
Qed.

(** the text after the seconds starts with none of a digit and a point *)
Definition zone_start (l : list byte) : Prop :=
  match l with c :: _ => is_digit c = false ∧ c ≠ c_dot | [] => True end.

Lemma digits_span_stop l rest :
  Forall (λ c, is_digit c = true) l → zone_start rest → digits_span (l ++ rest) = (l, rest).
Proof.
  intros H Hr. induction H as [|c l Hc _ IH]; cbn [digits_span app]; [|by rewrite Hc, IH].
  destruct rest as [|c rest]; [done|]. cbn [digits_span]. by rewrite (proj1 Hr).
Qed.

Lemma parse_nano_format ns l : 0 ≤ ns < Second → zone_start l → parse_nano (format_nano ns ++ l) = Some (ns, l).
Proof.
  intros Hns Hl. unfold format_nano. destruct (digits_n_spec 9 ns) as (Hv & Hlen & Hd); [exact Hns|].
  destruct (trim_zeros_app (digits_n 9 ns)) as [k Hk]. set (t := trim_zeros (digits_n 9 ns)) in *. clearbody t.
  rewrite Hk in Hv, Hd, Hlen. rewrite digits_value_app in Hv. apply Forall_app in Hd as [Hd _].
  destruct (digits_value 0 t) as [v|] eqn:Ht; [|done]. simpl in Hv. rewrite digits_value_zeros in Hv.
  injection Hv as Hv. rewrite length_app, length_replicate in Hlen.
  destruct t as [|d t].
  - injection Ht as <-. assert (ns = 0) as -> by lia. unfold parse_nano. cbn [app].
    destruct l as [|p [|d l]]; [done..|]. by rewrite bool_decide_false by apply Hl.
  - pose proof (Forall_inv Hd) as Hdig. change (is_digit d = true) in Hdig. unfold parse_nano. cbn [app tail].
    rewrite bool_decide_true, Hdig by done. cbn [andb].
    change (d :: t ++ l) with ((d :: t) ++ l). rewrite digits_span_stop by done. rewrite Ht. simpl.
    assert (Hp : 0 < 10 ^ Z.of_nat k) by lia. assert (v ≤ ns) by nia.
    rewrite (proj2 (Z.ltb_lt v Second)) by lia.
    replace (Z.max 0 (9 - zlen (d :: t))) with (Z.of_nat k) by (unfold zlen; lia). by rewrite Hv.
Qed.

Lemma parse_zone_format offset l :
  offset mod 60 = 0 → Z.abs offset < 360000 → parse_zone (format_zone offset ++ l) = Some (offset, l).
Proof.
  intros Hm Hr. unfold format_zone. destruct (Z.eqb_spec offset 0) as [->|Hz]; [done|].
  assert (Hq : Z.quot offset 60 = offset / 60).
  { symmetry. apply Z.quot_unique_exact; lia. }
  rewrite Hq. set (z := offset / 60). assert (offset = z * 60) by lia. clearbody z. subst offset.
  rewrite !append_int_2 by lia. cbn [app]. unfold parse_zone. rewrite decide_False by (by destruct (z <? 0)). rewrite decide_True by done.
  rewrite !time_atoi_dig by lia.
  simpl. destruct (Z.ltb_spec z 0); [|rewrite decide_True by done; do 2 f_equal; lia].
  rewrite decide_False, decide_True by done. do 2 f_equal. lia.
Qed.

(** times that JSON can carry: four digits of year, a zone of whole minutes *)
Record printable (offset t : Z) : Prop := {
  pt_minutes : offset mod 60 = 0;
  pt_zone : Z.abs offset < 360000;
  pt_year : 0 ≤ time_year offset t < 10000;
}.

Lemma zone_start_format offset l : zone_start (format_zone offset ++ l).
Proof. unfold format_zone. destruct (offset =? 0); [by split|]. by destruct (_ <? 0). Qed.

Lemma parse_format_time offset t : printable offset t → parse_time (quoted (format_time offset t)) = Some t.
Proof.
  intros [Hm Hr Hy]. unfold time_year in Hy. rewrite <-(app_nil_r (quoted _)), quoted_app. unfold format_time.
  set (s := local_seconds offset t) in *. pose proof (absDate_spec (s / day_seconds)) as Hd.
  destruct (absDate (s / day_seconds)) as [[year month] day]. cbn [fst] in Hy. destruct Hd as (Hd & Hmo & Hday).
  assert (Hs : 0 ≤ s mod day_seconds < 86400) by (unfold day_seconds; lia).
  assert (Hdi : daysIn month year ≤ 31).
  { unfold daysIn. destruct ((month =? 2) && isLeap year); [lia|].
    assert (month ∈ [1; 2; 3; 4; 5; 6; 7; 8; 9; 10; 11; 12]) as Hin by (rewrite !elem_of_cons; lia).
    repeat (apply elem_of_cons in Hin as [->|Hin]; [by vm_compute|]). by apply not_elem_of_nil in Hin. }
  set (sod := s mod day_seconds) in *. unfold parse_time. cbn [skip_char]. rewrite decide_True by done. simpl.
  repeat (rewrite <-?app_assoc, <-?app_comm_cons;
    first [rewrite parse_year_append by lia|rewrite getnum_append by lia]; simpl).
  rewrite <-?app_assoc, parse_nano_format; [|unfold Second; lia|apply zone_start_format]. simpl.
  rewrite parse_zone_format by done. simpl.
  unfold in_range_z. rewrite !(proj2 (Z.leb_le _ _)) by lia. cbn [andb].
  f_equal. rewrite Hd. unfold local_seconds, day_seconds, Second in *. lia.
Qed.

Lemma append_int_digits w n : 0 ≤ n → Forall (λ c, is_digit c = true) (append_int w n).
Proof.
  intros Hn. unfold append_int. apply Forall_app. split; [by apply Forall_replicate|]. by apply print_nat_ok.
Qed.

Lemma trim_zeros_digits l : Forall (λ c, is_digit c = true) l → Forall (λ c, is_digit c = true) (trim_zeros l).
Proof. intros H. destruct (trim_zeros_app l) as [k Hk]. rewrite Hk in H. by apply Forall_app in H as [H _]. Qed.

(** no character of a time needs to be escaped *)
Lemma format_time_plain offset t : 0 ≤ time_year offset t → forallb plain (format_time offset t) = true.
Proof.
  intros Hy. apply forallb_forall, List.Forall_forall. unfold time_year in Hy. unfold format_time.
  pose proof (absDate_spec (local_seconds offset t / day_seconds)) as Hd.
  destruct (absDate (local_seconds offset t / day_seconds)) as [[year month] day]. cbn [fst] in Hy.
  destruct Hd as (_ & Hmo & Hday).
  assert (Hi : ∀ w n, 0 ≤ n → Forall (λ c, plain c = true) (append_int w n)).
  { intros w n Hn. apply (Forall_impl _ _ _ (append_int_digits w n Hn)). by intros []. }
  assert (Hn : Forall (λ c, plain c = true) (format_nano (t mod Second))).
  { unfold format_nano. destruct (digits_n_spec 9 (t mod Second)) as (_ & _ & Hds); [unfold Second; simpl; lia|].
    apply trim_zeros_digits in Hds. destruct (trim_zeros _); [done|]. constructor; [done|].
    apply (Forall_impl _ _ _ Hds). by intros []. }
  assert (Hz : Forall (λ c, plain c = true) (format_zone offset)).
  { unfold format_zone. destruct (offset =? 0); [by repeat constructor|].
    constructor; [by destruct (_ <? 0)|]. apply Forall_app. split; [apply Hi; lia|].
    constructor; [done|]. apply Hi. lia. }
  unfold day_seconds.
  repeat first [apply Hi; lia|done|by repeat constructor|apply Forall_app; split|apply Forall_cons; split].
Qed.

(** a time in a JSON text is written so that it reads back *)
Lemma Time_roundtrip offset t init :
  printable offset t →
  ∃ raw, Time_MarshalJSON offset t = Some raw ∧ str_ok raw ∧ Time_UnmarshalJSON init (JStr raw) = Some t.
Proof.
  intros Hp. pose proof (pt_year _ _ Hp) as Hy. exists (format_time offset t). split_and!.
  - unfold Time_MarshalJSON. rewrite (proj2 (Z.ltb_ge _ _)), (proj2 (Z.leb_gt _ _)) by lia. done.
  - apply plain_ok, format_time_plain. lia.
  - by apply parse_format_time.
Qed.
