(* ===== verification/GoFmt.v ===== *)
(** * Numbers and tables in text ([fmt], [text/tabwriter], [time.Time.String])

    What the debugging pages print: [%d], [%.2f] of a [float64] that is not negative,
    columns of cells, and times. *)
From S2P Require Import Prelude GoStd Json JsonSpec GoTime.

Definition c_space : byte := x20.
Definition c_tab : byte := x09.
Definition c_nl : byte := x0a.

(** ** Floats

    The nearest [float64] of a quotient, [m * 2 ^ e] with a mantissa of 53 bits; the
    numbers here are far from the ends of the range of exponents. *)
Record float64 := MkFloat { f_mantissa : Z; f_exponent : Z }.

(** the nearest integer, the even one of two *)
Definition half_even (a b : Z) : Z :=
  let q := a / b in
  let r := 2 * (a mod b) in
  if r <? b then q else if b <? r then q + 1 else if Z.even q then q else q + 1.

(** [2 ^ e] as a fraction *)
Definition pow2_num (e : Z) : Z := 2 ^ Z.max 0 e.
Definition pow2_den (e : Z) : Z := 2 ^ Z.max 0 (- e).

Definition float_quot (a b : Z) : float64 :=
  if a =? 0 then MkFloat 0 0
  else
    let e := Z.log2 a - Z.log2 b in
    let e := if a * pow2_den e <? b * pow2_num e then e - 1 else e in
    let e := e - 52 in
    MkFloat (half_even (a * pow2_den e) (b * pow2_num e)) e.
(** [float64(n)] *)
Definition float_of (n : Z) : float64 := float_quot n 1.
(** [x / 1024], which is exact *)
Definition float_div_1024 (x : float64) : float64 := MkFloat (f_mantissa x) (f_exponent x - 10).
(** [uint64(x)]; a value of 2^64 depends on the machine *)
Definition uint64_of (x : float64) : Z := u64 (f_mantissa x * pow2_num (f_exponent x) / pow2_den (f_exponent x)).

(** the hundredths [%.2f] prints *)
Definition hundredths (x : float64) : Z :=
  half_even (100 * f_mantissa x * pow2_num (f_exponent x)) (pow2_den (f_exponent x)).
Definition fmt_2f (x : float64) : list byte :=
  let n := hundredths x in print_nat (n / 100) ++ c_dot :: digits_n 2 (n mod 100).
(** [%.2f] of [float64(a) / float64(b)] for numbers that floats hold exactly *)
Definition fmt_ratio (r : Z * Z) : list byte :=
  if r.2 =? 0 then lit (if r.1 =? 0 then "NaN" else "+Inf") else fmt_2f (float_quot r.1 r.2).

(** ** Tables

    [tabwriter.NewWriter(buf, 0, 0, 3, ' ', 0)] for lines of equally many cells, each
    ended by a tab: a column is as wide as its widest cell, in characters, and three
    blanks.  The cells have no tabs, line ends or other control characters. *)
Fixpoint rune_loop (fuel : nat) (l : list byte) : nat :=
  match fuel, l with
  | S fuel, _ :: l' => S (rune_loop fuel match utf8_len l with O => l' | n => drop n l end)
  | _, _ => O
  end.
Definition RuneCount (l : list byte) : nat := rune_loop (length l) l.

Fixpoint column_widths (rows : list (list (list byte))) : list nat :=
  match rows with
  | [] => []
  | [r] => (λ c, RuneCount c + 3)%nat <$> r
  | r :: rows => zip_with Nat.max ((λ c, RuneCount c + 3)%nat <$> r) (column_widths rows)
  end.
Definition padded (w : nat) (cell : list byte) : list byte := cell ++ replicate (w - RuneCount cell) c_space.
Definition table_line (widths : list nat) (r : list (list byte)) : list byte :=
  concat (zip_with padded widths r) ++ [c_nl].
Definition table (rows : list (list (list byte))) : list byte := concat (table_line (column_widths rows) <$> rows).

(** ** Times *)

(** what a [time.Time] has besides the instant: its zone and the monotonic clock *)
Record stamp := MkStamp { zone_offset : Z; zone_name : list byte; monotonic : option Z }.

Definition format_date (offset t : Z) : list byte :=
  let '(year, month, day) := absDate (local_seconds offset t / day_seconds) in
  append_int 4 year ++ c_minus :: append_int 2 month ++ c_minus :: append_int 2 day.
Definition format_clock (offset t : Z) : list byte :=
  let s := local_seconds offset t mod day_seconds in
  append_int 2 (s / 3600) ++ c_colon :: append_int 2 (s mod 3600 / 60) ++ c_colon :: append_int 2 (s mod 60).
(** ["2006-01-02 15:04:05"] *)
Definition format_short (offset t : Z) : list byte := format_date offset t ++ c_space :: format_clock offset t.
(** ["-0700"] *)
Definition format_numeric_zone (offset : Z) : list byte :=
  let zone := Z.quot offset 60 in
  (if zone <? 0 then c_minus else c_plus) :: append_int 2 (Z.abs zone / 60) ++ append_int 2 (Z.abs zone mod 60).
Definition format_monotonic (m : Z) : list byte :=
  let a := Z.abs m in
  let m1 := a / Second in
  lit " m=" ++ (if m <? 0 then c_minus else c_plus) ::
    (if m1 / Second =? 0 then print_nat m1 else print_nat (m1 / Second) ++ append_int 9 (m1 mod Second)) ++
    c_dot :: append_int 9 (a mod Second).

(** [Time.String] *)
Definition time_String (s : stamp) (t : Z) : list byte :=
  format_short (zone_offset s) t ++ format_nano (t mod Second) ++
  c_space :: format_numeric_zone (zone_offset s) ++
  c_space :: (if decide (zone_name s = []) then format_numeric_zone (zone_offset s) else zone_name s) ++
  match monotonic s with Some m => format_monotonic m | None => [] end.

Example fmt_example :
  fmt_2f (float_of 17) = lit "17.00" ∧ fmt_ratio (1, 8) = lit "0.12" ∧ fmt_ratio (1, 200) = lit "0.01" ∧
  fmt_2f (float_div_1024 (float_of 1536)) = lit "1.50" ∧
  time_String (MkStamp 3600 (lit "CET") (Some 1500000000)) 500000000 = lit "1970-01-01 01:00:00.5 +0100 CET m=+1.500000000" ∧
  table [[lit "a"; lit "bcd"]; [lit "xyz"; []]] = lit "a     bcd   " ++ c_nl :: lit "xyz         " ++ [c_nl].
Proof. split_and!; by vm_compute. Qed.

(** ** What the numbers are *)

Lemma half_even_exact q b : 0 < b → half_even (q * b) b = q.
Proof. intros Hb. unfold half_even. rewrite Z.div_mul, Z.mod_mul by lia. by rewrite (proj2 (Z.ltb_lt _ _)) by lia. Qed.

Lemma half_even_bounds a b lo hi : 0 < b → lo * b ≤ a ≤ hi * b → lo ≤ half_even a b ≤ hi.
Proof.
  intros Hb Ha. unfold half_even. pose proof (Z.div_mod a b ltac:(lia)) as Hd.
  pose proof (Z.mod_pos_bound a b Hb) as Hm. set (q := a / b) in *. set (r := a mod b) in *. clearbody q r. subst a.
  assert (lo ≤ q) by nia. assert (q ≤ hi) by nia. assert (0 < r → q < hi) by nia.
  destruct (Z.ltb_spec (2 * r) b); [lia|]. destruct (Z.ltb_spec b (2 * r)); [lia|]. destruct (Z.even q); lia.
Qed.

Lemma pow2_den_pos e : 0 < pow2_den e.
Proof. apply Z.pow_pos_nonneg; lia. Qed.
Lemma pow2_num_pos e : 0 < pow2_num e.
Proof. apply Z.pow_pos_nonneg; lia. Qed.

(** integers of 53 bits are floats *)
Lemma float_of_exact n :
  0 ≤ n < 2 ^ 53 → ∃ k, 0 ≤ k ∧ f_exponent (float_of n) = - k ∧ f_mantissa (float_of n) = n * 2 ^ k.
Proof.
  intros Hn. unfold float_of, float_quot. destruct (Z.eqb_spec n 0) as [->|Hnz]; [by exists 0|].
  change (Z.log2 1) with 0. rewrite Z.sub_0_r. assert (Hl : 0 ≤ Z.log2 n ≤ 52).
  { split; [apply Z.log2_nonneg|]. apply (Z.lt_succ_r _ 52). apply Z.log2_lt_pow2; lia. }
  match goal with |- context [MkFloat _ (?x - 52)] => set (e := x) end.
  assert (He : e ≤ 52) by (unfold e; destruct (_ <? _); lia).
  clearbody e. exists (52 - e). cbn [f_exponent f_mantissa]. split_and!; [lia|lia|].
  unfold pow2_num, pow2_den. rewrite (Z.max_l 0 (e - 52)), (Z.max_r 0 (- (e - 52))) by lia.
  replace (- (e - 52)) with (52 - e) by lia. rewrite <-(Z.mul_1_r (n * _)) at 1. apply half_even_exact. lia.
Qed.

Lemma pow2_neg k : 0 ≤ k → pow2_num (- k) = 1 ∧ pow2_den (- k) = 2 ^ k.
Proof. intros Hk. unfold pow2_num, pow2_den. rewrite Z.max_l, Z.max_r, Z.opp_involutive by lia. done. Qed.

Lemma fmt_2f_of n : 0 ≤ n < 2 ^ 53 → fmt_2f (float_of n) = print_nat n ++ lit ".00".
Proof.
  intros Hn. destruct (float_of_exact n Hn) as (k & Hk & He & Hm). unfold fmt_2f, hundredths. rewrite He, Hm.
  destruct (pow2_neg k Hk) as [-> ->]. replace (100 * (n * 2 ^ k) * 1) with (100 * n * 2 ^ k) by lia.
  rewrite half_even_exact by (apply Z.pow_pos_nonneg; lia).
  rewrite (Z.mul_comm 100 n), Z.div_mul, Z.mod_mul by lia. done.
Qed.

Lemma uint64_of_exact n : 0 ≤ n < 2 ^ 53 → uint64_of (float_of n) = n.
Proof.
  intros Hn. destruct (float_of_exact n Hn) as (k & Hk & He & Hm). unfold uint64_of. rewrite He, Hm.
  destruct (pow2_neg k Hk) as [-> ->]. rewrite Z.mul_1_r, Z.div_mul by (apply Z.pow_nonzero; lia).
  unfold u64. apply Z.mod_small. lia.
Qed.

(** a part of a whole is printed as a number from 0.00 to 1.00 *)
Lemma ratio_hundredths a b : 0 ≤ a ≤ b → 0 < b → 0 ≤ hundredths (float_quot a b) ≤ 100.
Proof.
  intros Ha Hb. unfold float_quot. destruct (Z.eqb_spec a 0) as [->|Hnz]; [by vm_compute|].
  set (e := Z.log2 a - Z.log2 b). pose proof (Z.log2_le_mono a b ltac:(lia)) as Hlog. assert (He : e ≤ 0) by lia.
  match goal with |- context [MkFloat _ ?x] => set (f := x) end. assert (Hf : f ≤ -52) by (unfold f; destruct (_ <? _); lia). clearbody f.
  destruct (pow2_neg (- f) ltac:(lia)) as [H1 H2]. rewrite Z.opp_involutive in *.
  unfold hundredths. cbn [f_mantissa f_exponent]. rewrite H1, H2, !Z.mul_1_r.
  assert (0 < 2 ^ - f) by (apply Z.pow_pos_nonneg; lia).
  pose proof (half_even_bounds (a * 2 ^ - f) b 0 (2 ^ - f) Hb ltac:(nia)). apply half_even_bounds; nia.
Qed.
