(* ===== verification/Crc.v ===== *)
(** * The checksum of protocol 9 ([hash/crc32] with the Koopman polynomial)

    The table driven algorithm of the standard library, and that it notices every
    change of a single byte. *)
From S2P Require Import Prelude GoStd.

(** the bits of the polynomial, reversed *)
Definition Koopman : Z := 0xeb31d82e.

(** one bit of a table entry *)
Definition crc_bit (poly c : Z) : Z :=
  if Z.odd c then Z.lxor (Z.shiftr c 1) poly else Z.shiftr c 1.
Definition MakeTable (poly : Z) : list Z :=
  (λ i, Nat.iter 8 (crc_bit poly) (Z.of_nat i)) <$> seq 0 256.

(** [crcTable] of [parcel.go] *)
Definition crcTable : list Z := Eval vm_compute in MakeTable Koopman.

(** [crc = tab[byte(crc)^v] ^ (crc >> 8)] *)
Definition crc_step (tab : list Z) (crc : Z) (v : byte) : Z :=
  Z.lxor (default 0 (tab !! Z.to_nat (Z.lxor (crc mod 256) (byte_val v)))) (Z.shiftr crc 8).
(** [^crc] on 32 bits *)
Definition complement (crc : Z) : Z := Z.lxor crc (2 ^ 32 - 1).

Definition Checksum (data : list byte) (tab : list Z) : Z :=
  complement (foldl (crc_step tab) (complement 0) data).

(** the published check value of CRC-32K *)
Example crc_check : Checksum (str_bytes "123456789") crcTable = 0x2d3dd0ae.
Proof. by vm_compute. Qed.

(** ** Single byte errors *)

Lemma lxor_range n x y : 0 ≤ x < 2 ^ n → 0 ≤ y < 2 ^ n → 0 ≤ Z.lxor x y < 2 ^ n.
Proof.
  intros Hx Hy. assert (Hn : 0 ≤ n) by (destruct (Z.leb_spec 0 n); [done|rewrite Z.pow_neg_r in Hx; lia]).
  assert (0 ≤ Z.lxor x y) by (apply Z.lxor_nonneg; lia). split; [done|].
  destruct (decide (Z.lxor x y = 0)) as [->|]; [apply Z.pow_pos_nonneg; lia|].
  apply Z.log2_lt_pow2; [lia|]. pose proof (Z.log2_lxor x y ltac:(lia) ltac:(lia)).
  assert (∀ z, 0 ≤ z < 2 ^ n → Z.log2 z < n ∨ z = 0) as Hlog.
  { intros z Hz. destruct (decide (z = 0)); [by right|left]. apply Z.log2_lt_pow2; lia. }
  destruct (decide (n = 0)) as [->|]; [change (2 ^ 0) with 1 in *; assert (x = 0) by lia; assert (y = 0) by lia; subst; done|].
  destruct (Hlog x Hx) as [| ->], (Hlog y Hy) as [| ->]; change (Z.log2 0) with 0 in *; lia.
Qed.

(** the entries are words whose top bytes all differ, which the table shows *)
Definition top (z : Z) : Z := Z.shiftr z 24.

Lemma table_top i :
  0 ≤ i < 256 → ∃ t, crcTable !! Z.to_nat i = Some t ∧ 0 ≤ t < 2 ^ 32.
Proof.
  intros Hi. destruct (lookup_lt_is_Some_2 crcTable (Z.to_nat i)) as [t Ht].
  { change (length crcTable) with 256%nat. lia. }
  exists t. split; [done|]. assert (Hall : Forall (λ t, 0 ≤ t < 2 ^ 32) crcTable).
  { apply (bool_decide_unpack _). by vm_compute. }
  by eapply Forall_lookup_1 in Hall.
Qed.

Lemma table_top_inj i j ti tj :
  crcTable !! i = Some ti → crcTable !! j = Some tj → top ti = top tj → i = j.
Proof.
  intros Hi Hj E. assert (Hnd : NoDup (top <$> crcTable)).
  { apply (bool_decide_unpack _). by vm_compute. }
  eapply NoDup_lookup; [exact Hnd| |]; rewrite list_lookup_fmap, ?Hi, ?Hj; simpl; by rewrite ?E.
Qed.

(** what the next word says about the entry used and the last word *)
Lemma crc_step_top crc v :
  is_u32 crc → ∃ t, crcTable !! Z.to_nat (Z.lxor (crc mod 256) (byte_val v)) = Some t ∧
    crc_step crcTable crc v = Z.lxor t (Z.shiftr crc 8) ∧ top (crc_step crcTable crc v) = top t ∧
    is_u32 (crc_step crcTable crc v).
Proof.
  unfold is_u32. intros Hc. pose proof (byte_val_range v).
  pose proof (Z.mod_pos_bound crc 256 ltac:(lia)).
  destruct (table_top (Z.lxor (crc mod 256) (byte_val v))) as (t & Ht & Hr).
  { apply (lxor_range 8); change (2 ^ 8) with 256; lia. }
  exists t. unfold crc_step. rewrite Ht. cbn [default from_option]. split; [done|]. split; [done|]. split.
  - unfold top. rewrite Z.shiftr_lxor, Z.shiftr_shiftr by lia.
    assert (Z.shiftr crc (8 + 24) = 0) as ->; [|by rewrite Z.lxor_0_r].
    rewrite Z.shiftr_div_pow2 by lia. apply Z.div_small. lia.
  - apply (lxor_range 32); [done|]. rewrite Z.shiftr_div_pow2 by lia.
    split; [apply Z.div_pos; lia|]. apply Z.div_lt_upper_bound; lia.
Qed.

Lemma crc_step_inj crc crc' v v' :
  is_u32 crc → is_u32 crc' → crc_step crcTable crc v = crc_step crcTable crc' v' →
  Z.shiftr crc 8 = Z.shiftr crc' 8 ∧ Z.lxor (crc mod 256) (byte_val v) = Z.lxor (crc' mod 256) (byte_val v').
Proof.
  intros Hc Hc' E.
  destruct (crc_step_top crc v Hc) as (t & Ht & Es & Htop & _).
  destruct (crc_step_top crc' v' Hc') as (t' & Ht' & Es' & Htop' & _).
  assert (Hi : Z.to_nat (Z.lxor (crc mod 256) (byte_val v)) = Z.to_nat (Z.lxor (crc' mod 256) (byte_val v'))).
  { eapply table_top_inj; [done..|]. by rewrite <-Htop, <-Htop', E. }
  rewrite Hi, Ht' in Ht. injection Ht as ->. split.
  - rewrite Es, Es' in E. apply (f_equal (Z.lxor t)) in E.
    by rewrite <-!Z.lxor_assoc, !Z.lxor_nilpotent, !Z.lxor_0_l in E.
  - pose proof (byte_val_range v). pose proof (byte_val_range v').
    pose proof (Z.mod_pos_bound crc 256 ltac:(lia)). pose proof (Z.mod_pos_bound crc' 256 ltac:(lia)).
    pose proof (lxor_range 8 (crc mod 256) (byte_val v)) as Hx1.
    pose proof (lxor_range 8 (crc' mod 256) (byte_val v')) as Hx2.
    change (2 ^ 8) with 256 in *. apply Z2Nat.inj; lia.
Qed.

Lemma crc_word crc : crc = 256 * Z.shiftr crc 8 + crc mod 256.
Proof. rewrite Z.shiftr_div_pow2 by lia. apply Z.div_mod. done. Qed.

Lemma crc_fold_inj data crc crc' :
  is_u32 crc → is_u32 crc' →
  foldl (crc_step crcTable) crc data = foldl (crc_step crcTable) crc' data → crc = crc'.
Proof.
  revert crc crc'. induction data as [|v data IH]; simpl; intros crc crc' Hc Hc' E; [done|].
  destruct (crc_step_top crc v Hc) as (_ & _ & _ & _ & H1).
  destruct (crc_step_top crc' v Hc') as (_ & _ & _ & _ & H2).
  apply IH in E; [|done..]. apply crc_step_inj in E as [Eh El]; [|done..].
  apply (f_equal (λ z, Z.lxor z (byte_val v))) in El.
  rewrite !Z.lxor_assoc, !Z.lxor_nilpotent, !Z.lxor_0_r in El.
  rewrite (crc_word crc), (crc_word crc'), Eh, El. done.
Qed.

Lemma crc_fold_range data crc : is_u32 crc → is_u32 (foldl (crc_step crcTable) crc data).
Proof.
  revert crc. induction data as [|v data IH]; simpl; intros crc Hc; [done|].
  apply IH. by destruct (crc_step_top crc v Hc) as (_ & _ & _ & _ & ?).
Qed.

Lemma Checksum_range data : is_u32 (Checksum data crcTable).
Proof.
  unfold Checksum, complement, is_u32. apply (lxor_range 32); [|lia]. apply crc_fold_range.
  unfold is_u32, complement. vm_compute. done.
Qed.

(** two texts that differ in one byte have different checksums *)
Lemma Checksum_one_byte pre post v v' :
  v ≠ v' → Checksum (pre ++ v :: post) crcTable ≠ Checksum (pre ++ v' :: post) crcTable.
Proof.
  intros Hv E. unfold Checksum, complement in E.
  apply (f_equal (λ z, Z.lxor z (2 ^ 32 - 1))) in E.
  rewrite !Z.lxor_assoc, !Z.lxor_nilpotent, !Z.lxor_0_r in E.
  rewrite !foldl_app in E. simpl in E.
  assert (Hc : is_u32 (foldl (crc_step crcTable) (Z.lxor 0 (2 ^ 32 - 1)) pre)).
  { apply crc_fold_range. vm_compute. done. }
  set (crc := foldl _ _ pre) in *.
  destruct (crc_step_top crc v Hc) as (_ & _ & _ & _ & H1).
  destruct (crc_step_top crc v' Hc) as (_ & _ & _ & _ & H2).
  apply crc_fold_inj in E; [|done..]. apply crc_step_inj in E as [_ El]; [|done..].
  apply (f_equal (Z.lxor (crc mod 256))) in El.
  rewrite <-!Z.lxor_assoc, !Z.lxor_nilpotent, !Z.lxor_0_l in El. by apply Hv, byte_val_inj.
Qed.
