(* ===== verification/ProtocolV9.v ===== *)
(** * Protocol 9 ([protocolV9.go])

    The legacy protocol: every parcel and handshake is a [V9Msg] in a gob stream,
    with a header that repeats the network, the length and a checksum; peer shares
    are JSON lists of the old package's peers. *)
From S2P Require Import Prelude GoStd NetworkId Endpoint Parcel Configuration Handshake Stream.
From S2P Require Import Gob GobSpec Json JsonSpec GoTime Crc Protocol.

(** ** The messages *)

Record V9Header := MkV9Header {
  V9_Network : Z;
  V9_Version : Z;
  V9_Type : Z;
  V9_Length : Z;
  V9_TargetPeer : string;
  V9_Crc32 : Z;
  V9_PartNo : Z;
  V9_PartsTotal : Z;
  V9_NodeID : Z;
  V9_PeerAddress : string;
  V9_PeerPort : string;
  V9_AppHash : string;
  V9_AppType : string;
}.
Record V9Msg := MkV9Msg { V9_Header : V9Header; V9_Payload : list byte }.

Definition t_V9Header : gtype := TStruct "V9Header"
  [("Network", TUint (2 ^ 32 - 1)); ("Version", TUint (2 ^ 16 - 1)); ("Type", TUint (2 ^ 16 - 1));
   ("Length", TUint (2 ^ 32 - 1)); ("TargetPeer", TString); ("Crc32", TUint (2 ^ 32 - 1));
   ("PartNo", TUint (2 ^ 16 - 1)); ("PartsTotal", TUint (2 ^ 16 - 1)); ("NodeID", TUint (2 ^ 64 - 1));
   ("PeerAddress", TString); ("PeerPort", TString); ("AppHash", TString); ("AppType", TString)].
Definition t_V9Msg : gtype := TStruct "V9Msg" [("Header", t_V9Header); ("Payload", TBytes)].

Definition GString (s : string) : gval := GBytes (str_bytes s).
Definition V9Header_to (h : V9Header) : gval := GStruct
  [("Network", GUint (V9_Network h)); ("Version", GUint (V9_Version h)); ("Type", GUint (V9_Type h));
   ("Length", GUint (V9_Length h)); ("TargetPeer", GString (V9_TargetPeer h)); ("Crc32", GUint (V9_Crc32 h));
   ("PartNo", GUint (V9_PartNo h)); ("PartsTotal", GUint (V9_PartsTotal h)); ("NodeID", GUint (V9_NodeID h));
   ("PeerAddress", GString (V9_PeerAddress h)); ("PeerPort", GString (V9_PeerPort h));
   ("AppHash", GString (V9_AppHash h)); ("AppType", GString (V9_AppType h))]%string.
Definition V9Msg_to (m : V9Msg) : gval :=
  GStruct [("Header", V9Header_to (V9_Header m)); ("Payload", GBytes (V9_Payload m))]%string.

(** the received fields, the others zero *)
Definition V9Header_of (v : gval) : V9Header :=
  let fs := fields_of v in
  let u n := uint_of (assoc n fs) in
  let s n := bytes_str (bytes_of (assoc n fs)) in
  (MkV9Header (u "Network") (u "Version") (u "Type") (u "Length") (s "TargetPeer") (u "Crc32")
    (u "PartNo") (u "PartsTotal") (u "NodeID") (s "PeerAddress") (s "PeerPort") (s "AppHash") (s "AppType"))%string.
Definition V9Msg_of (v : gval) : V9Msg :=
  let fs := fields_of v in
  MkV9Msg (V9Header_of (default (GStruct []) (assoc "Header" fs))) (bytes_of (assoc "Payload" fs)).

(** [V9Msg.Valid] *)
Definition V9Msg_Valid (m : V9Msg) : outcome prot_error () :=
  return_err_if negb (V9_Version (V9_Header m) =? 9) with PE_version;;
  return_err_if zlen (V9_Payload m) =? 0 with PE_no_payload;;
  return_err_if negb (V9_Length (V9_Header m) =? u32 (zlen (V9_Payload m))) with PE_length;;
  return_err_if negb (Checksum (V9_Payload m) crcTable =? V9_Crc32 (V9_Header m)) with PE_checksum;;
  Ok tt.

(** ** The protocol *)

Record ProtocolV9 := MkProtocolV9 {
  v9_network : Z;
  v9_nodeID : Z;
  v9_port : string;
  v9_gob : gob;      (* [decoder] and [encoder] *)
}.

(** what an encoder and a decoder answer, as a protocol does *)
Definition wrap_gob {A} (o : outcome gob_error A) : outcome prot_error A :=
  match o with
  | Ok a => Ok a
  | Err (GE_io e) => Err (PE_io e)
  | Err GE_bad => Err PE_gob
  | Panic => Panic
  | OutOfFuel => OutOfFuel
  end.
Definition wrap_json {A} (o : outcome () A) : outcome prot_error A :=
  match o with Ok a => Ok a | Err _ => Err PE_json | Panic => Panic | OutOfFuel => OutOfFuel end.

Definition newProtocolV9 (netw nodeID : Z) (listenPort : string) (g : gob) : ProtocolV9 :=
  MkProtocolV9 netw nodeID listenPort g.

(** *** JSON of endpoints *)

Definition endpoint_json (ep : Endpoint) : json :=
  JObj [(lit "ip", JStr (escape (str_bytes (IP ep)))); (lit "port", JStr (escape (str_bytes (Port ep))))].
(** a nil slice is printed as null, and the package makes no empty ones *)
Definition list_json (l : list json) : json := match l with [] => JNull | _ => JArr l end.

Definition endpoint_of_json (v : json) : outcome () Endpoint :=
  match v with
  | JNull => Ok (MkEndpoint EmptyString EmptyString)
  | JObj ms =>
      match string_field "ip" ms, string_field "port" ms with
      | Some ip, Some port => Ok (MkEndpoint ip port)
      | _, _ => Err tt
      end
  | _ => Err tt
  end.

Fixpoint map_ok {E A B} (f : A → outcome E B) (l : list A) : outcome E (list B) :=
  match l with
  | [] => Ok []
  | a :: l => f a ≫= λ b, map_ok f l ≫= λ bs, Ok (b :: bs)
  end.

(** [json.Unmarshal] into a slice *)
Definition unmarshal_list {A} (f : json → outcome () A) (payload : list byte) : outcome prot_error (list A) :=
  wrap_json (parse payload ≫= λ v,
    match v with
    | JNull => Ok []
    | JArr l => map_ok f l
    | _ => Err tt
    end).

Definition marshal_endpoints (eps : list Endpoint) : list byte :=
  print (list_json (endpoint_json <$> eps)).
Definition unmarshal_endpoints : list byte → outcome prot_error (list Endpoint) :=
  unmarshal_list endpoint_of_json.

(** *** Handshakes *)

Section V9.
Context (type_id : string → Z).

Definition v9_handshake_msg (h : Handshake) : V9Msg :=
  let payload := match h_Alternatives h with
                 | [] => le_PutUint64 (h_Loopback h)
                 | eps => marshal_endpoints eps
                 end in
  MkV9Msg
    (MkV9Header (h_Network h) (h_Version h) (h_Type h) (u32 (zlen payload)) "" (Checksum payload crcTable)
       0 0 (h_NodeID h) "" (h_ListenPort h) "NetworkMessage" "Network")
    payload.

(** with the encoder of protocol 9 or 10 *)
Definition v9SendHandshake (h : Handshake) (g : gob) : gob * outcome prot_error () :=
  let r := Encode type_id t_V9Msg (V9Msg_to (v9_handshake_msg h)) g in (r.1, wrap_gob r.2).

Definition set_gob (g : gob) (v9 : ProtocolV9) : ProtocolV9 :=
  MkProtocolV9 (v9_network v9) (v9_nodeID v9) (v9_port v9) g.
Definition with_gob {A} (f : gob → gob * outcome prot_error A) : io ProtocolV9 A := λ v9,
  let r := f (v9_gob v9) in (set_gob r.1 v9, r.2).

(** the handshake goes as a peer request *)
Definition as_peer_request (h : Handshake) : Handshake :=
  if h_Type h =? TypeHandshake then
    MkHandshake (h_Network h) (h_Version h) TypePeerRequest (h_NodeID h) (h_ListenPort h)
      (h_Loopback h) (h_Alternatives h)
  else h.
Definition V9_SendHandshake (h : Handshake) : io ProtocolV9 () :=
  with_gob (v9SendHandshake (as_peer_request h)).

Definition v9_read : io ProtocolV9 V9Msg :=
  with_gob (λ g, let r := Decode t_V9Msg g in (r.1, wrap_gob r.2 ≫= λ v, Ok (V9Msg_of v))).

Definition V9_ReadHandshake : io ProtocolV9 Handshake :=
  do msg <- v9_read;
  let header := V9_Header msg in
  let hs loopback alternatives :=
    MkHandshake (V9_Network header) (V9_Version header) (V9_Type header) (u32 (V9_NodeID header))
      (V9_PeerPort header) loopback alternatives in
  if V9_Type header =? TypeRejectAlternative then
    do alternatives <- io_lift (λ e, e) (unmarshal_endpoints (V9_Payload msg));
    io_ret (hs 0 alternatives)
  else if zlen (V9_Payload msg) =? 8 then io_ret (hs (le_Uint64 (V9_Payload msg)) [])
  else io_ret (hs 0 []).

(** *** Parcels *)

Definition v9_parcel_msg (v9 : ProtocolV9) (p : Parcel) : V9Msg :=
  MkV9Msg
    (MkV9Header (v9_network v9) 9 (ptype p) (u32 (zlen (Payload p))) (Address p)
       (Checksum (Payload p) crcTable) 0 0 (v9_nodeID v9) "" (v9_port v9) "NetworkMessage" "Network")
    (Payload p).

Definition V9_Send (p : Parcel) : io ProtocolV9 () := λ v9,
  with_gob (λ g, let r := Encode type_id t_V9Msg (V9Msg_to (v9_parcel_msg v9 p)) g in
                 (r.1, wrap_gob r.2)) v9.

Definition V9_Receive : io ProtocolV9 Parcel :=
  do msg <- v9_read;
  do_ io_lift (λ e, e) (V9Msg_Valid msg);
  io_ret (MkParcel (V9_Type (V9_Header msg)) (V9_TargetPeer (V9_Header msg)) (V9_Payload msg)).

Definition V9_ProtocolVersion : Z := 9.
Definition V9_String : string := "9".

(** *** Peer shares *)

(** [V9Share] as [MakePeerShare] fills it in: the zero time, an empty map of sources *)
Definition V9Share_json (network : Z) (ep : Endpoint) : json :=
  let num n := JNum (print_nat n) in
  JObj [(lit "QualityScore", num 20);
        (lit "Address", JStr (escape (str_bytes (IP ep))));
        (lit "Port", JStr (escape (str_bytes (Port ep))));
        (lit "NodeID", num 1);
        (lit "Hash", JStr (escape (str_bytes (IP ep))));
        (lit "Location", num (IP2LocationQuick (IP ep)));
        (lit "Network", num network);
        (lit "Type", num 0);
        (lit "Connections", num 1);
        (lit "LastContact", JStr (format_time 0 zero_time));
        (lit "Source", JObj [])].

Definition V9_MakePeerShare (v9 : ProtocolV9) (ps : list Endpoint) : outcome prot_error (list byte) :=
  Ok (print (list_json (V9Share_json (v9_network v9) <$> ps))).

(** does time.Time accept a JSON value *)
Definition time_ok (v : json) : bool := bool_decide (is_Some (Time_UnmarshalJSON zero_time v)).

(** an integer field accepts integers of its width and null *)
Definition int_ok (lo hi : Z) (v : json) : bool :=
  match v with
  | JNull => true
  | JNum l =>
      match l with
      | c :: r =>
          if decide (c = c_minus) then
            (lo <? 0) && match digits_value 0 r with Some n => lo <=? - n | None => false end
          else match digits_value 0 l with Some n => n <=? hi | None => false end
      | [] => false
      end
  | _ => false
  end.
Definition string_ok (v : json) : bool := match v with JNull | JStr _ => true | _ => false end.
Definition source_ok (v : json) : bool :=
  match v with
  | JNull => true
  | JObj ms => forallb (λ m : list byte * json, time_ok m.2) ms
  | _ => false
  end.

(** an element of the list: only the address and the port are used *)
Definition V9Share_of_json (v : json) : outcome () Endpoint :=
  match v with
  | JNull => Ok (MkEndpoint EmptyString EmptyString)
  | JObj ms =>
      let all (ok : json → bool) n := forallb ok (field n ms) in
      let u32_ok := int_ok 0 (2 ^ 32 - 1) in
      if all (int_ok (- 2 ^ 31) (2 ^ 31 - 1)) "QualityScore"%string &&
         all (int_ok 0 (2 ^ 64 - 1)) "NodeID"%string && all string_ok "Hash"%string &&
         all u32_ok "Location"%string && all u32_ok "Network"%string &&
         all (int_ok 0 255) "Type"%string &&
         all (int_ok (- 2 ^ 63) (2 ^ 63 - 1)) "Connections"%string &&
         all time_ok "LastContact"%string && all source_ok "Source"%string then
        match string_field "Address" ms, string_field "Port" ms with
        | Some ip, Some port => Ok (MkEndpoint ip port)
        | _, _ => Err tt
        end
      else Err tt
  | _ => Err tt
  end.

Definition V9_ParsePeerShare (payload : list byte) : outcome prot_error (list Endpoint) :=
  unmarshal_list V9Share_of_json payload.

#[export] Instance V9_Protocol : Protocol ProtocolV9 := {|
  SendHandshake := V9_SendHandshake;
  ReadHandshake := V9_ReadHandshake;
  Send := V9_Send;
  Receive := V9_Receive;
  MakePeerShare := V9_MakePeerShare;
  ParsePeerShare := λ _, V9_ParsePeerShare;
  Version := λ _, V9_ProtocolVersion;
  Protocol_String := λ _, V9_String;
|}.
End V9.

(** a parcel and a handshake through a connection *)
Definition ids3 (n : string) : Z :=
  if String.eqb n "V9Msg" then 65 else if String.eqb n "V9Header" then 66 else 67.
Definition v9_of (c : conn) : ProtocolV9 := newProtocolV9 MainNet 7 "8108" (newGob c).
Example v9_parcel_through :
  let p := (V9_Send ids3 (NewParcel "x" [x61; x62]) (v9_of (MkConn [] [] None))).1 in
  (V9_Receive (v9_of (MkConn [c_out (gob_conn (v9_gob p))] [] None))).2 =
    Ok (NewParcel "x" [x61; x62]).
Proof. by vm_compute. Qed.

(** ** The messages through gob *)

#[local] Arguments e_value : simpl never.

Lemma V9Header_through h : V9Header_of (norm (V9Header_to h)) = h.
Proof.
  unfold V9Header_of, V9Header_to. rewrite norm_struct. cbn [fields_of].
  rewrite !uint_norm, !bytes_norm by (apply (bool_decide_unpack _); by vm_compute).
  cbn -[bytes_str str_bytes]. rewrite !bytes_str_bytes. by destruct h.
Qed.

Lemma V9Msg_through m : V9Msg_of (norm (V9Msg_to m)) = m.
Proof.
  unfold V9Msg_of, V9Msg_to. rewrite norm_struct. cbn [fields_of].
  rewrite bytes_norm, assoc_norm by (apply (bool_decide_unpack _); by vm_compute).
  cbn -[norm V9Header_of]. rewrite V9Header_through. by destruct m.
Qed.

(** a message within the widths of its fields *)
Record v9_msg_ok (m : V9Msg) : Prop := {
  mo_Network : is_u32 (V9_Network (V9_Header m));
  mo_Version : is_u16 (V9_Version (V9_Header m));
  mo_Type : is_u16 (V9_Type (V9_Header m));
  mo_Length : is_u32 (V9_Length (V9_Header m));
  mo_Crc32 : is_u32 (V9_Crc32 (V9_Header m));
  mo_PartNo : is_u16 (V9_PartNo (V9_Header m));
  mo_PartsTotal : is_u16 (V9_PartsTotal (V9_Header m));
  mo_NodeID : is_u64 (V9_NodeID (V9_Header m));
  mo_size : zlen (str_bytes (V9_TargetPeer (V9_Header m))) + zlen (str_bytes (V9_PeerAddress (V9_Header m))) +
    zlen (str_bytes (V9_PeerPort (V9_Header m))) + zlen (str_bytes (V9_AppHash (V9_Header m))) +
    zlen (str_bytes (V9_AppType (V9_Header m))) + zlen (V9_Payload m) ≤ 2 ^ 32;
}.

Lemma V9Msg_typed m : v9_msg_ok m → typed t_V9Msg (V9Msg_to m).
Proof.
  intros [H1 H2 H3 H4 H5 H6 H7 H8 Hs]. unfold is_u16, is_u32, is_u64 in *.
  pose proof (zlen_nonneg (str_bytes (V9_TargetPeer (V9_Header m)))).
  pose proof (zlen_nonneg (str_bytes (V9_PeerAddress (V9_Header m)))).
  pose proof (zlen_nonneg (str_bytes (V9_PeerPort (V9_Header m)))).
  pose proof (zlen_nonneg (str_bytes (V9_AppHash (V9_Header m)))).
  pose proof (zlen_nonneg (str_bytes (V9_AppType (V9_Header m)))).
  pose proof (zlen_nonneg (V9_Payload m)).
  cbn -[Z.pow Z.sub str_bytes]. repeat (first [exact I|split; [reflexivity|]|split; [right|]|split]); lia.
Qed.

Lemma V9_small : small_type t_V9Msg.
Proof. vm_compute. repeat split. Qed.
Lemma V9_gt_ok : gt_ok t_V9Msg.
Proof.
  repeat first [exact I|reflexivity|discriminate|split|apply (bool_decide_unpack (NoDup _)); vm_compute; reflexivity].
Qed.

Section V9Wire.
Context (type_id : string → Z) (D : list (string * list (string * gtype))).
Context (Hids : ids_ok type_id D) (HD : ∀ d, d ∈ defs t_V9Msg → d ∈ D).

Lemma V9_id_range : 0 ≤ wire_id type_id t_V9Msg < 2 ^ 62.
Proof.
  pose proof (ids_range _ _ Hids ("V9Msg"%string, [("Header"%string, t_V9Header); ("Payload"%string, TBytes)])) as H.
  simpl in H. unfold wire_id, t_V9Msg. destruct H; [|lia]. apply HD. by left.
Qed.

Lemma V9Msg_size m : v9_msg_ok m → zlen (value_message type_id t_V9Msg (V9Msg_to m)) < tooBig.
Proof.
  intros Hok. pose proof (e_value_size _ _ V9_small (V9Msg_typed m Hok)) as Hv.
  pose proof V9_id_range as Hid. unfold value_message. rewrite zlen_app.
  pose proof (e_int_size (wire_id type_id t_V9Msg) ltac:(unfold is_i64; lia)).
  destruct Hok as [_ _ _ _ _ _ _ _ Hs]. cbn -[Z.pow str_bytes zlen e_value] in Hv. unfold tooBig. lia.
Qed.

(** a V9 message sent by one end arrives at the other *)
Lemma V9Msg_exchange m g :
  c_room (gob_conn g) = None → v9_msg_ok m →
  ∃ g' frame, Encode type_id t_V9Msg (V9Msg_to m) g = (g', Ok tt) ∧ c_room (gob_conn g') = None ∧
    c_out (gob_conn g') = c_out (gob_conn g) ++ frame ∧ c_in (gob_conn g') = c_in (gob_conn g) ∧
    gob_types g' = gob_types g ∧
    (∀ n, n ∈ gob_sent g' ↔ n ∈ gob_sent g ∨ n ∈ (defs t_V9Msg).*1) ∧
    ∀ q rest, gob_link type_id D (gob_sent g) (gob_types q) → bytes_in (gob_conn q) = frame ++ rest →
      ∃ q' v, Decode t_V9Msg q = (q', Ok v) ∧ V9Msg_of v = m ∧ bytes_in (gob_conn q') = rest ∧
        c_out (gob_conn q') = c_out (gob_conn q) ∧ gob_sent q' = gob_sent q ∧
        gob_link type_id D (gob_sent g') (gob_types q').
Proof.
  intros Hup Hok.
  destruct (gob_exchange type_id D Hids t_V9Msg (V9Msg_to m) g Hup HD V9_gt_ok V9_small
    (V9Msg_typed m Hok) V9_id_range (V9Msg_size m Hok)) as (g' & frame & He & Hup' & Ho & Hi & Ht & Hse & Hx).
  { by eexists _, _. }
  exists g', frame. split_and!; [done..|]. intros q rest Hl Hb.
  destruct (Hx q rest Hl Hb) as (q' & Hd & Hb' & Hoq & Hsq & Hlq).
  exists q', (norm (V9Msg_to m)). split_and!; [done|apply V9Msg_through|done..].
Qed.

Definition v9_in (p : ProtocolV9) : list byte := bytes_in (gob_conn (v9_gob p)).
Definition v9_out (p : ProtocolV9) : list byte := c_out (gob_conn (v9_gob p)).
Definition v9_up (p : ProtocolV9) : Prop :=
  c_room (gob_conn (v9_gob p)) = None ∧ is_u32 (v9_network p) ∧ is_u32 (v9_nodeID p) ∧
  zlen (str_bytes (v9_port p)) ≤ 2 ^ 20.
Definition v9_link (p q : ProtocolV9) : Prop :=
  gob_link type_id D (gob_sent (v9_gob p)) (gob_types (v9_gob q)).
Definition v9_sendable (x : Parcel) : Prop :=
  is_u16 (ptype x) ∧ Payload x ≠ [] ∧ zlen (Payload x) + zlen (str_bytes (Address x)) ≤ 2 ^ 31.

#[local] Instance V9_this : Protocol ProtocolV9 := V9_Protocol type_id.

Lemma V9_send_receive p x :
  v9_up p → v9_sendable x →
  ∃ p' frame, V9_Send type_id x p = (p', Ok tt) ∧ v9_up p' ∧
    v9_out p' = v9_out p ++ frame ∧ v9_in p' = v9_in p ∧
    ∀ q rest, v9_link p q → v9_in q = frame ++ rest →
      ∃ q', V9_Receive q = (q', Ok x) ∧ v9_in q' = rest ∧ v9_out q' = v9_out q ∧ v9_link p' q'.
Proof.
  intros (Hup & Hn & Hid & Hport) (Ht & Hne & Hlen). unfold v9_in, v9_out, v9_up, v9_link in *.
  pose proof (zlen_nonneg (Payload x)). pose proof (zlen_nonneg (str_bytes (Address x))).
  set (m := v9_parcel_msg p x).
  assert (Hok : v9_msg_ok m).
  { unfold is_u16, is_u32, is_u64 in *. split; unfold is_u16, is_u32, is_u64; cbn -[Z.pow str_bytes]; try lia.
    - apply u32_range.
    - apply Checksum_range.
    - change (zlen (str_bytes "")) with 0. change (zlen (str_bytes "NetworkMessage")) with 14.
      change (zlen (str_bytes "Network")) with 7. lia. }
  destruct (V9Msg_exchange m (v9_gob p) Hup Hok) as (g' & frame & He & Hup' & Ho & Hi & Htg & _ & Hx).
  exists (set_gob g' p), frame. unfold V9_Send, with_gob. fold m. rewrite He. cbn [fst snd v9_gob set_gob].
  split_and!; [done|done|done|done|done|done|unfold bytes_in; by rewrite Hi|].
  intros q rest Hl Hb. destruct (Hx (v9_gob q) rest Hl Hb) as (q' & v & Hd & Hv & Hb' & Hoq & Hsq & Hlq).
  exists (set_gob q' q). split_and!; [|done..].
  unfold V9_Receive, v9_read, with_gob, io_bind. rewrite Hd. cbn [fst snd wrap_gob]. rewrite bind_Ok, Hv.
  unfold io_lift, V9Msg_Valid. cbn [m v9_parcel_msg V9_Header V9_Payload V9_Version V9_Length V9_Crc32].
  rewrite !Z.eqb_refl. cbn [negb].
  destruct (Z.eqb_spec (zlen (Payload x)) 0) as [E|_]; [by apply zlen_0 in E|]. by destruct x.
Qed.

#[export] Instance V9_Wire : ProtocolWire ProtocolV9 := {|
  wire_in := v9_in;
  wire_out := v9_out;
  wire_up := v9_up;
  wire_link := v9_link;
  sendable := v9_sendable;
  received := λ _ x, x;
  received_data _ _ := conj eq_refl eq_refl;
  received_same _ _ _ _ := eq_refl;
  send_receive := V9_send_receive;
|}.
End V9Wire.
