(* ===== verification/ProtocolV10.v ===== *)
(** * Protocol 10 ([protocolV10.go])

    A parcel is a gob of its type and its payload; the handshake is the one of
    protocol 9, and peer shares are JSON lists of endpoints. *)
From S2P Require Import Prelude GoStd NetworkId Endpoint Parcel Configuration Handshake Stream.
From S2P Require Import Gob GobSpec Json JsonSpec Crc Protocol ProtocolV9.

Record V10Msg := MkV10Msg { V10_Type : Z; V10_Payload : list byte }.

Definition t_V10Msg : gtype := TStruct "V10Msg" [("Type", TUint (2 ^ 16 - 1)); ("Payload", TBytes)].
Definition V10Msg_to (m : V10Msg) : gval :=
  GStruct [("Type", GUint (V10_Type m)); ("Payload", GBytes (V10_Payload m))]%string.
Definition V10Msg_of (v : gval) : V10Msg :=
  MkV10Msg (uint_of (assoc "Type"%string (fields_of v))) (bytes_of (assoc "Payload"%string (fields_of v))).

(** [decoder] and [encoder] *)
Record ProtocolV10 := MkProtocolV10 { v10_gob : gob }.
Definition newProtocolV10 (g : gob) : ProtocolV10 := MkProtocolV10 g.

Definition with_gob10 {A} (f : gob → gob * outcome prot_error A) : io ProtocolV10 A := λ v10,
  let r := f (v10_gob v10) in (MkProtocolV10 r.1, r.2).

Section V10.
Context (type_id : string → Z).

Definition V10_SendHandshake (h : Handshake) : io ProtocolV10 () :=
  with_gob10 (v9SendHandshake type_id h).
(** read by protocol 9, then upgraded *)
Definition V10_ReadHandshake : io ProtocolV10 Handshake := io_err PE_unsupported.

Definition V10_Send (p : Parcel) : io ProtocolV10 () :=
  with_gob10 (λ g, let r := Encode type_id t_V10Msg (V10Msg_to (MkV10Msg (ptype p) (Payload p))) g in
                   (r.1, wrap_gob r.2)).

Definition V10_Receive : io ProtocolV10 Parcel :=
  do msg <- with_gob10 (λ g, let r := Decode t_V10Msg g in (r.1, wrap_gob r.2 ≫= λ v, Ok (V10Msg_of v)));
  if zlen (V10_Payload msg) =? 0 then io_err PE_no_payload
  else io_ret (newParcel (V10_Type msg) (V10_Payload msg)).

Definition V10_ProtocolVersion : Z := 10.
Definition V10_String : string := "10".

(** a [V10Share] is an [Endpoint], with the names it has in JSON *)
Definition V10Share_json (ep : Endpoint) : json := endpoint_json ep.

Definition V10_MakePeerShare (share : list Endpoint) : outcome prot_error (list byte) :=
  Ok (print (list_json (V10Share_json <$> share))).
Definition V10_ParsePeerShare (payload : list byte) : outcome prot_error (list Endpoint) :=
  unmarshal_endpoints payload.

#[export] Instance V10_Protocol : Protocol ProtocolV10 := {|
  SendHandshake := V10_SendHandshake;
  ReadHandshake := V10_ReadHandshake;
  Send := V10_Send;
  Receive := V10_Receive;
  MakePeerShare := λ _, V10_MakePeerShare;
  ParsePeerShare := λ _, V10_ParsePeerShare;
  Version := λ _, V10_ProtocolVersion;
  Protocol_String := λ _, V10_String;
|}.
End V10.
