(* ===== verification/Legacy.v ===== *)
(** * What protocols 9 and 10 promise

    The two ends of a legacy connection: parcels and handshakes through gob, their
    checksums, and peer shares through JSON. *)
From S2P Require Import Prelude GoStd NetworkId Endpoint Parcel Configuration Handshake Stream.
From S2P Require Import Gob GobSpec Json JsonSpec GoTime Crc V11Wire Protocol ProtocolV9 ProtocolV10.

(** ** The types of the package in gob *)

Definition legacy_defs : list (string * list (string * gtype)) := defs t_V9Msg ++ defs t_V10Msg.

(** gob numbers types from 64 on, each its own *)
Record type_ids (id : string → Z) : Prop := {
  ti_V9Msg : 64 ≤ id "V9Msg" < 2 ^ 31;
  ti_V9Header : 64 ≤ id "V9Header" < 2 ^ 31;
  ti_V10Msg : 64 ≤ id "V10Msg" < 2 ^ 31;
  ti_12 : id "V9Msg" ≠ id "V9Header";
  ti_13 : id "V9Msg" ≠ id "V10Msg";
  ti_23 : id "V9Header" ≠ id "V10Msg";
}.

Lemma legacy_cases d :
  d ∈ legacy_defs →
  d = ("V9Msg", [("Header", t_V9Header); ("Payload", TBytes)])%string ∨
  d = ("V9Header", match t_V9Header with TStruct _ fs => fs | _ => [] end)%string ∨
  d = ("V10Msg", [("Type", TUint (2 ^ 16 - 1)); ("Payload", TBytes)])%string.
Proof.
  unfold legacy_defs, t_V10Msg. simpl. rewrite !elem_of_cons, elem_of_nil. naive_solver.
Qed.

Section TypeIds.
Context (id : string → Z) (Hti : type_ids id).

Lemma legacy_typed d : d ∈ legacy_defs → typed t_wireType (wireType_of id d).
Proof.
  destruct Hti. intros [-> | [-> | ->]]%legacy_cases; cbn -[Z.pow];
    repeat first [exact I|reflexivity|left; reflexivity|split|right]; unfold is_i64; try lia; by vm_compute.
Qed.

Lemma legacy_size d : d ∈ legacy_defs → zlen (def_message id d) < tooBig.
Proof.
  intros Hd. pose proof (legacy_typed d Hd) as Ht. unfold def_message. rewrite zlen_app.
  assert (Hsm : small_type t_wireType) by (vm_compute; repeat split).
  pose proof (e_value_size _ _ Hsm Ht) as Hv.
  assert (Hr : is_i64 (- id d.1)).
  { destruct Hti. unfold is_i64. by destruct (legacy_cases d Hd) as [-> | [-> | ->]]; simpl; lia. }
  pose proof (e_int_size (- id d.1) Hr). assert (size_bound (wireType_of id d) < 2 ^ 20); [|unfold tooBig; lia].
  by destruct (legacy_cases d Hd) as [-> | [-> | ->]]; vm_compute.
Qed.

Lemma legacy_ids : ids_ok id legacy_defs.
Proof.
  split; [|intros d d' Hd Hd' E|apply legacy_typed|apply legacy_size].
  - destruct Hti. by intros d [-> | [-> | ->]]%legacy_cases; simpl; lia.
  - destruct Hti. destruct (legacy_cases d Hd) as [-> | [-> | ->]],
      (legacy_cases d' Hd') as [-> | [-> | ->]]; done.
Qed.

Lemma V9_in_legacy d : d ∈ defs t_V9Msg → d ∈ legacy_defs.
Proof. unfold legacy_defs. rewrite elem_of_app. by left. Qed.
Lemma V10_in_legacy d : d ∈ defs t_V10Msg → d ∈ legacy_defs.
Proof. unfold legacy_defs. rewrite elem_of_app. by right. Qed.

End TypeIds.

(** ** Parcels of protocol 10 *)

Lemma V10Msg_through m : V10Msg_of (norm (V10Msg_to m)) = m.
Proof.
  unfold V10Msg_of, V10Msg_to. rewrite norm_struct. cbn [fields_of].
  rewrite bytes_norm, uint_norm by (apply (bool_decide_unpack _); by vm_compute). by destruct m.
Qed.

Section V10Wire.
Context (id : string → Z) (D : list (string * list (string * gtype))).
Context (Hids : ids_ok id D) (HD : ∀ d, d ∈ defs t_V10Msg → d ∈ D).

Definition v10_in (p : ProtocolV10) : list byte := bytes_in (gob_conn (v10_gob p)).
Definition v10_out (p : ProtocolV10) : list byte := c_out (gob_conn (v10_gob p)).
Definition v10_up (p : ProtocolV10) : Prop := c_room (gob_conn (v10_gob p)) = None.
Definition v10_link (p q : ProtocolV10) : Prop :=
  gob_link id D (gob_sent (v10_gob p)) (gob_types (v10_gob q)).
Definition v10_sendable (x : Parcel) : Prop :=
  is_u16 (ptype x) ∧ Payload x ≠ [] ∧ zlen (Payload x) ≤ 2 ^ 31.

Lemma V10_send_receive p x :
  v10_up p → v10_sendable x →
  ∃ p' frame, V10_Send id x p = (p', Ok tt) ∧ v10_up p' ∧
    v10_out p' = v10_out p ++ frame ∧ v10_in p' = v10_in p ∧
    ∀ q rest, v10_link p q → v10_in q = frame ++ rest →
      ∃ q', V10_Receive q = (q', Ok (newParcel (ptype x) (Payload x))) ∧ v10_in q' = rest ∧
        v10_out q' = v10_out q ∧ v10_link p' q'.
Proof.
  intros Hup (Ht & Hne & Hlen). unfold v10_in, v10_out, v10_up, v10_link in *.
  pose proof (zlen_nonneg (Payload x)). set (m := MkV10Msg (ptype x) (Payload x)).
  assert (Hty : typed t_V10Msg (V10Msg_to m)).
  { unfold is_u16 in Ht. cbn -[Z.pow Z.sub]. repeat split; try right; try lia; split; lia. }
  assert (Hsm : small_type t_V10Msg) by (vm_compute; repeat split).
  assert (Hid : 0 ≤ wire_id id t_V10Msg < 2 ^ 62).
  { pose proof (ids_range _ _ Hids _ (HD ("V10Msg"%string, _) ltac:(by left))) as Hr. simpl in *. lia. }
  destruct (gob_exchange id D Hids t_V10Msg (V10Msg_to m) (v10_gob p) Hup HD)
    as (g' & frame & He & Hup' & Ho & Hi & Htg & _ & Hx); [|exact Hsm|exact Hty|exact Hid| |by eexists _, _|].
  { repeat first [exact I|reflexivity|discriminate|split|apply (bool_decide_unpack (NoDup _)); vm_compute; reflexivity]. }
  { pose proof (e_value_size _ _ Hsm Hty) as Hv. unfold value_message. rewrite zlen_app.
    pose proof (e_int_size (wire_id id t_V10Msg) ltac:(unfold is_i64; lia)).
    cbn -[Z.pow zlen e_value] in Hv. unfold tooBig. lia. }
  exists (MkProtocolV10 g'), frame. unfold V10_Send, with_gob10. fold m. rewrite He. cbn [fst snd v10_gob].
  split_and!; [done|done|done|unfold bytes_in; by rewrite Hi|].
  intros q rest Hl Hb. destruct (Hx (v10_gob q) rest Hl Hb) as (q' & Hd & Hb' & Hoq & Hsq & Hlq).
  exists (MkProtocolV10 q'). split_and!; [|done..].
  unfold V10_Receive, with_gob10, io_bind. rewrite Hd. cbn [fst snd wrap_gob].
  rewrite bind_Ok, V10Msg_through. cbn [m V10_Payload V10_Type].
  destruct (Z.eqb_spec (zlen (Payload x)) 0) as [E|_]; [by apply zlen_0 in E|]. done.
Qed.

#[local] Instance V10_this : Protocol ProtocolV10 := V10_Protocol id.
#[export] Instance V10_Wire : ProtocolWire ProtocolV10 := {|
  wire_in := v10_in;
  wire_out := v10_out;
  wire_up := v10_up;
  wire_link := v10_link;
  sendable := v10_sendable;
  received := λ _ x, newParcel (ptype x) (Payload x);
  received_data _ _ := conj eq_refl eq_refl;
  received_same _ _ _ _ := eq_refl;
  send_receive := V10_send_receive;
|}.
End V10Wire.

(** ** JSON lists *)

Lemma map_ok_fmap {E A B} (f : A → outcome E B) (g : B → A) l :
  Forall (λ b, f (g b) = Ok b) l → map_ok f (g <$> l) = Ok l.
Proof. induction 1 as [|b l Hb _ IH]; [done|]. cbn. by rewrite Hb, bind_Ok, IH. Qed.

Lemma map_ok_returns {E A B} (f : A → outcome E B) l : (∀ a, returns (f a)) → returns (map_ok f l).
Proof.
  intros Hf. induction l as [|a l IH]; [done|]. cbn. apply returns_bind; [done|]. intros b _.
  by apply returns_bind.
Qed.

Lemma unmarshal_list_returns {A} (f : json → outcome () A) payload :
  (∀ v, returns (f v)) → returns (unmarshal_list f payload).
Proof.
  intros Hf. unfold unmarshal_list.
  assert (H : returns (parse payload ≫= λ v,
    match v with JNull => Ok [] | JArr l => map_ok f l | _ => Err tt end)).
  { apply returns_bind; [apply parse_total|]. intros [] _; try done. by apply map_ok_returns. }
  by destruct (parse payload ≫= _).
Qed.

Lemma unmarshal_list_print {A} (f : json → outcome () A) (g : A → json) l :
  Forall (λ a, json_ok (g a) ∧ f (g a) = Ok a) l →
  unmarshal_list f (print (list_json (g <$> l))) = Ok l.
Proof.
  intros Hl. apply Forall_and in Hl as [Hok Hf]. unfold unmarshal_list. rewrite parse_print, bind_Ok.
  - destruct l as [|a l]; [done|]. change (wrap_json (map_ok f (g <$> a :: l)) = Ok (a :: l)).
    by rewrite (map_ok_fmap f g (a :: l) Hf).
  - destruct l as [|a l]; [done|]. cbn. apply Forall_cons in Hok as [Ha Hok]. split; [done|].
    clear -Hok. induction Hok as [|b l Hb _ IH]; [done|]. split; [exact Hb|exact IH].
Qed.

(** endpoints of 7-bit characters, as every endpoint in use is: the package's
    endpoints are IP addresses in text and decimal ports *)
Definition ascii_endpoint (ep : Endpoint) : Prop := ascii (str_bytes (IP ep)) ∧ ascii (str_bytes (Port ep)).

Lemma lit_ascii s : forallb (in_range x00 x7f) (str_bytes s) = true → ascii (lit s).
Proof.
  unfold ascii, lit. induction (str_bytes s) as [|c l IH]; [done|].
  cbn [forallb]. intros [Hc Hl]%andb_true_iff. constructor; [done|by apply IH].
Qed.

Lemma endpoint_json_ok ep :
  ascii_endpoint ep → json_ok (endpoint_json ep) ∧ endpoint_of_json (endpoint_json ep) = Ok ep.
Proof.
  intros [Hi Hp]. destruct (escape_ascii _ Hi) as [Hei Hui]. destruct (escape_ascii _ Hp) as [Hep Hup]. split.
  - pose proof (proj1 (proj2 (plain_ok (lit "ip") eq_refl))). pose proof (proj1 (proj2 (plain_ok (lit "port") eq_refl))).
    by repeat split.
  - unfold endpoint_of_json, endpoint_json, string_field. destruct ep as [ip port]. cbn [IP Port].
    assert (Hf : ∀ v w, field "ip" [(lit "ip", v); (lit "port", w)] = [v] ∧
                        field "port" [(lit "ip", v); (lit "port", w)] = [w]) by (intros; by vm_compute).
    unfold string_field_from.
    destruct (Hf (JStr (escape (str_bytes ip))) (JStr (escape (str_bytes port)))) as [-> ->].
    cbn -[bytes_str str_bytes]. simpl in Hui, Hup. by rewrite Hui, Hup, !bytes_str_bytes.
Qed.

Lemma endpoints_roundtrip eps :
  Forall ascii_endpoint eps → unmarshal_endpoints (marshal_endpoints eps) = Ok eps.
Proof.
  intros H. apply unmarshal_list_print. by apply (Forall_impl _ _ _ H), endpoint_json_ok.
Qed.

(** *** The old package's peers *)

Definition share_members (v1 v2 v3 v4 v5 v6 v7 v8 v9 v10 v11 : json) : list (list byte * json) :=
  [(lit "QualityScore", v1); (lit "Address", v2); (lit "Port", v3); (lit "NodeID", v4); (lit "Hash", v5);
   (lit "Location", v6); (lit "Network", v7); (lit "Type", v8); (lit "Connections", v9);
   (lit "LastContact", v10); (lit "Source", v11)].

(** no name of a field is another in upper or lower case *)
Lemma share_fields v1 v2 v3 v4 v5 v6 v7 v8 v9 v10 v11 :
  let ms := share_members v1 v2 v3 v4 v5 v6 v7 v8 v9 v10 v11 in
  (λ n, field n ms) <$> ["QualityScore"; "Address"; "Port"; "NodeID"; "Hash"; "Location"; "Network";
    "Type"; "Connections"; "LastContact"; "Source"]%string =
  [[v1]; [v2]; [v3]; [v4]; [v5]; [v6]; [v7]; [v8]; [v9]; [v10]; [v11]].
Proof. by vm_compute. Qed.

Lemma digits_value_dec fuel n acc :
  0 ≤ n < 2 ^ Z.of_nat fuel → digits_value 0 (dec_digits fuel n acc) = digits_value n acc.
Proof.
  revert n acc. induction fuel as [|fuel IH]; intros n acc Hn.
  { change (2 ^ Z.of_nat 0) with 1 in Hn. by replace n with 0 by lia. }
  cbn [dec_digits]. pose proof (Z.mod_pos_bound n 10 ltac:(lia)) as Hm.
  pose proof (Z.div_mod n 10 ltac:(lia)) as Hdm.
  assert (Hd : ∀ v, digits_value v (byte_of (48 + n mod 10) :: acc) = digits_value (v * 10 + n mod 10) acc).
  { intros v. cbn [digits_value]. unfold is_digit, in_range.
    rewrite byte_val_of, Z.mod_small by lia.
    rewrite !(proj2 (Z.leb_le _ _)) by (change (byte_val x30) with 48; change (byte_val x39) with 57; lia). cbn [andb]. f_equal. lia. }
  destruct (Z.ltb_spec n 10).
  - rewrite Hd. f_equal. rewrite Z.mod_small in * by lia. lia.
  - rewrite IH.
    + rewrite Hd. f_equal. lia.
    + rewrite Nat2Z.inj_succ, Z.pow_succ_r in Hn by lia. lia.
Qed.

Lemma digits_value_print n : 0 ≤ n → digits_value 0 (print_nat n) = Some n.
Proof.
  intros Hn. unfold print_nat. rewrite digits_value_dec; [done|]. split; [done|].
  destruct (decide (n = 0)) as [->|]; [done|].
  rewrite Nat2Z.inj_succ, Z2Nat.id by apply Z.log2_nonneg. apply (Z.log2_spec n). lia.
Qed.

(** integer fields accept the numbers of their width *)
Lemma int_ok_print lo hi n : 0 ≤ n ≤ hi → int_ok lo hi (JNum (print_nat n)) = true.
Proof.
  intros Hn. destruct (print_nat_ok n ltac:(lia)) as [Hd Hnil]. pose proof (digits_value_print n ltac:(lia)) as Hv.
  unfold int_ok. destruct (print_nat n) as [|c r]; [done|].
  rewrite decide_False by (apply Forall_inv in Hd; by intros ->). rewrite Hv. apply Z.leb_le; lia.
Qed.

Lemma IP2LocationQuick_range s : is_u32 (IP2LocationQuick s).
Proof. unfold IP2LocationQuick. destruct (ParseIP s); [apply be_Uint32_range|]. unfold is_u32. lia. Qed.

Section Shares.

Lemma V9Share_json_ok network ep :
  is_u32 network → ascii_endpoint ep →
  json_ok (V9Share_json network ep) ∧ V9Share_of_json (V9Share_json network ep) = Ok ep.
Proof.
  intros Hn [Hi Hp]. pose proof (IP2LocationQuick_range (IP ep)) as Hl. unfold is_u32 in *.
  destruct (escape_ascii _ Hi) as [Hei Hui]. destruct (escape_ascii _ Hp) as [Hep Hup].
  set (num n := JNum (print_nat n)). set (str s := JStr (escape (str_bytes s))).
  change (V9Share_json network ep) with (JObj (share_members (num 20) (str (IP ep)) (str (Port ep)) (num 1)
    (str (IP ep)) (num (IP2LocationQuick (IP ep))) (num network) (num 0) (num 1)
    (JStr (format_time 0 zero_time)) (JObj []))).
  split.
  - assert (Hnum : ∀ n, 0 ≤ n → num_ok (print_nat n)) by exact print_nat_ok.
    cbn [share_members json_ok num str].
    repeat first [exact I|split|apply Hnum; lia|exact Hei|exact Hep|apply plain_ok; reflexivity].
  - set (tm := JStr (format_time 0 zero_time)).
    assert (Htime : time_ok tm = true) by by vm_compute. clearbody tm.
    unfold V9Share_of_json, string_field, string_field_from.
    pose proof (share_fields (num 20) (str (IP ep)) (str (Port ep)) (num 1)
      (str (IP ep)) (num (IP2LocationQuick (IP ep))) (num network) (num 0) (num 1) tm (JObj [])) as Hf.
    set (ms := share_members _ _ _ _ _ _ _ _ _ _ _) in *. clearbody ms. cbn in Hf.
    injection Hf as -> -> -> -> -> -> -> -> -> -> ->. cbn [forallb].
    unfold num, str. rewrite !int_ok_print by lia. rewrite Htime.
    cbn -[bytes_str str_bytes]. rewrite Hui, Hup, !bytes_str_bytes. by destruct ep.
Qed.

Lemma V9_share_parses network eps :
  is_u32 network → Forall ascii_endpoint eps →
  unmarshal_list (V9Share_of_json) (print (list_json (V9Share_json network <$> eps))) = Ok eps.
Proof.
  intros Hn H. apply unmarshal_list_print. apply (Forall_impl _ _ _ H). intros ep. by apply V9Share_json_ok.
Qed.

Lemma V9Share_of_json_returns v : returns (V9Share_of_json v).
Proof. destruct v; try done. cbn. case_match; [|done]. by repeat case_match. Qed.
End Shares.

Lemma endpoint_of_json_returns v : returns (endpoint_of_json v).
Proof. destruct v; try done. cbn. by repeat case_match. Qed.

Lemma unmarshal_endpoints_returns payload : returns (unmarshal_endpoints payload).
Proof. apply unmarshal_list_returns, endpoint_of_json_returns. Qed.

(** ** Handshakes *)

Record v9_hs_ok (h : Handshake) : Prop := {
  ho_Network : is_u32 (h_Network h);
  ho_Version : is_u16 (h_Version h);
  ho_Type : is_u16 (h_Type h);
  ho_NodeID : is_u32 (h_NodeID h);
  ho_Loopback : is_u64 (h_Loopback h);
  ho_Alternatives : Forall ascii_endpoint (h_Alternatives h);
  ho_size : zlen (str_bytes (h_ListenPort h)) + zlen (marshal_endpoints (h_Alternatives h)) ≤ 2 ^ 31;
}.

Lemma v9_handshake_payload h :
  let payload := V9_Payload (v9_handshake_msg h) in
  (h_Alternatives h = [] → payload = le_PutUint64 (h_Loopback h)) ∧
  (h_Alternatives h ≠ [] → payload = marshal_endpoints (h_Alternatives h) ∧ zlen payload ≠ 8).
Proof.
  unfold v9_handshake_msg. destruct (h_Alternatives h) as [|ep l]; [done|]. split; [done|].
  intros _. cbn [V9_Payload]. split; [done|].
  set (rest := print_elems (endpoint_json <$> l)).
  change (marshal_endpoints (ep :: l)) with (c_lbracket ::
    (c_lbrace :: quoted (lit "ip") ++ c_colon :: quoted (escape (str_bytes (IP ep))) ++
     (c_comma :: quoted (lit "port") ++ c_colon :: quoted (escape (str_bytes (Port ep))) ++ [c_rbrace])) ++ rest).
  autorewrite with zlen.
  change (zlen (quoted (lit "ip"))) with 4. change (zlen (quoted (lit "port"))) with 6.
  pose proof (zlen_nonneg (quoted (escape (str_bytes (IP ep))))). pose proof (zlen_nonneg (quoted (escape (str_bytes (Port ep))))).
  pose proof (zlen_nonneg rest). lia.
Qed.

Lemma v9_handshake_msg_ok h : v9_hs_ok h → v9_msg_ok (v9_handshake_msg h).
Proof.
  intros [Hn Hv Ht Hid _ _ Hs]. destruct (v9_handshake_payload h) as [Hp1 Hp2].
  assert (Hpay : zlen (V9_Payload (v9_handshake_msg h)) ≤ 8 + zlen (marshal_endpoints (h_Alternatives h))).
  { pose proof (zlen_nonneg (marshal_endpoints (h_Alternatives h))).
    destruct (decide (h_Alternatives h = [])) as [E|E].
    - rewrite Hp1 by done. unfold zlen at 1, le_PutUint64. rewrite le_bytes_length. lia.
    - rewrite (proj1 (Hp2 E)). lia. }
  unfold is_u16, is_u32, is_u64 in *.
  split; unfold is_u16, is_u32, is_u64; cbn -[Z.pow str_bytes]; try lia.
  - apply u32_range.
  - apply Checksum_range.
  - change (zlen (str_bytes "")) with 0. change (zlen (str_bytes "NetworkMessage")) with 14.
    change (zlen (str_bytes "Network")) with 7.
    match goal with |- _ + zlen ?p ≤ _ => change p with (V9_Payload (v9_handshake_msg h)) end. lia.
Qed.

Lemma V9_ReadHandshake_total p : returns (V9_ReadHandshake p).2.
Proof.
  pose proof (Decode_total t_V9Msg (v9_gob p)) as H9.
  unfold V9_ReadHandshake, v9_read, with_gob, io_bind. cbn [fst snd].
  destruct (Decode t_V9Msg (v9_gob p)) as [g [v|[]| |]]; try done. cbn [snd wrap_gob]. rewrite bind_Ok.
  destruct (_ =? TypeRejectAlternative); [|by case_match].
  unfold io_lift. pose proof (unmarshal_endpoints_returns (V9_Payload (V9Msg_of v))).
  by destruct (unmarshal_endpoints _).
Qed.

(** what the other end makes of a handshake: the loopback number and the
    alternatives share one field *)
Definition v9_arrives (h : Handshake) : Handshake :=
  MkHandshake (h_Network h) (h_Version h) (h_Type h) (h_NodeID h) (h_ListenPort h)
    (if h_Type h =? TypeRejectAlternative then 0
     else match h_Alternatives h with [] => h_Loopback h | _ => 0 end)
    (if h_Type h =? TypeRejectAlternative then h_Alternatives h else []).

Lemma V9_read_handshake q q' v h :
  Decode t_V9Msg (v9_gob q) = (q', Ok v) → V9Msg_of v = v9_handshake_msg h → v9_hs_ok h →
  V9_ReadHandshake q = (set_gob q' q,
    if (h_Type h =? TypeRejectAlternative) && bool_decide (h_Alternatives h = []) then
      unmarshal_endpoints (le_PutUint64 (h_Loopback h)) ≫= λ eps,
        Ok (MkHandshake (h_Network h) (h_Version h) (h_Type h) (h_NodeID h) (h_ListenPort h) 0 eps)
    else Ok (v9_arrives h)).
Proof.
  intros Hd Hv [_ _ _ Hid Hl Halt _]. destruct (v9_handshake_payload h) as [Hp1 Hp2].
  unfold V9_ReadHandshake, v9_read, with_gob, io_bind, v9_arrives. rewrite Hd. cbn [fst snd wrap_gob].
  rewrite bind_Ok, Hv.
  change (V9_Type (V9_Header (v9_handshake_msg h))) with (h_Type h).
  change (V9_Network (V9_Header (v9_handshake_msg h))) with (h_Network h).
  change (V9_Version (V9_Header (v9_handshake_msg h))) with (h_Version h).
  change (V9_NodeID (V9_Header (v9_handshake_msg h))) with (h_NodeID h).
  change (V9_PeerPort (V9_Header (v9_handshake_msg h))) with (h_ListenPort h).
  rewrite u32_id by done. destruct (h_Type h =? TypeRejectAlternative); cbn [andb].
  - case_bool_decide as E.
    + rewrite (Hp1 E). unfold io_lift. by destruct (unmarshal_endpoints _).
    + destruct (Hp2 E) as [-> _]. unfold io_lift. by rewrite endpoints_roundtrip.
  - destruct (h_Alternatives h) as [|ep l] eqn:E.
    + rewrite Hp1 by done. unfold zlen at 1, le_PutUint64 at 1. rewrite le_bytes_length.
      cbn -[le_Uint64 le_PutUint64]. by rewrite le_Uint64_Put.
    + destruct (Hp2 ltac:(done)) as [_ Hne]. by rewrite (proj2 (Z.eqb_neq _ _) Hne).
Qed.

(** A handshake of protocol 9 or 10 through gob: [g] is the codec it is sent with. *)
Lemma handshake_exchange id h g :
  type_ids id → c_room (gob_conn g) = None → v9_hs_ok h →
  ∃ g' bytes, v9SendHandshake id h g = (g', Ok tt) ∧ c_room (gob_conn g') = None ∧
    c_out (gob_conn g') = c_out (gob_conn g) ++ bytes ∧ c_in (gob_conn g') = c_in (gob_conn g) ∧
    gob_types g' = gob_types g ∧
    (∀ n, n ∈ gob_sent g' ↔ n ∈ gob_sent g ∨ n ∈ (defs t_V9Msg).*1) ∧
    ∀ q rest, gob_link id legacy_defs (gob_sent g) (gob_types (v9_gob q)) → v9_in q = bytes ++ rest →
      ∃ q', V9_ReadHandshake q =
          (q', if (h_Type h =? TypeRejectAlternative) && bool_decide (h_Alternatives h = []) then
                 unmarshal_endpoints (le_PutUint64 (h_Loopback h)) ≫= λ eps,
                   Ok (MkHandshake (h_Network h) (h_Version h) (h_Type h) (h_NodeID h) (h_ListenPort h) 0 eps)
               else Ok (v9_arrives h)) ∧
        v9_in q' = rest ∧ v9_out q' = v9_out q ∧ gob_sent (v9_gob q') = gob_sent (v9_gob q) ∧
        set_gob (v9_gob q) q' = q ∧
        gob_link id legacy_defs (gob_sent g') (gob_types (v9_gob q')).
Proof.
  intros Hti Hup Hok.
  destruct (V9Msg_exchange id legacy_defs (legacy_ids id Hti) V9_in_legacy (v9_handshake_msg h) g Hup
    (v9_handshake_msg_ok h Hok)) as (g' & frame & He & Hup' & Ho & Hi & Ht & Hse & Hx).
  exists g', frame. split_and!; [unfold v9SendHandshake; by rewrite He|done..|].
  intros q rest Hl Hb. destruct (Hx (v9_gob q) rest Hl Hb) as (q' & v & Hd & Hv & Hb' & Hoq & Hsq & Hlq).
  exists (set_gob q' q). split_and!; [|done|done|done|by destruct q|done].
  by apply (V9_read_handshake q q' v h Hd Hv Hok).
Qed.

(** the codecs of two new ends agree *)
Lemma fresh_link id : type_ids id → gob_link id legacy_defs ∅ builtin_types.
Proof.
  intros [H1 H2 H3 _ _ _]. split; [done|set_solver|]. intros d Hd _.
  assert (Hnone : ∀ i, 64 ≤ i → builtin_types !! i = None).
  { intros i Hi. unfold builtin_types. apply not_elem_of_list_to_map. simpl.
    rewrite !elem_of_cons, elem_of_nil. lia. }
  apply Hnone. by destruct (legacy_cases d Hd) as [-> | [-> | ->]]; simpl; lia.
Qed.

(** ** Properties *)

(** the codecs of a sender [p] and a receiver [q] agree on the types of parcels *)
Definition v9_linked (id : string → Z) : ProtocolV9 → ProtocolV9 → Prop := v9_link id (defs t_V9Msg).
Definition v10_linked (id : string → Z) : ProtocolV10 → ProtocolV10 → Prop := v10_link id (defs t_V10Msg).

Section Properties.
Context (id : string → Z) (Hti : type_ids id).

(** [C6] Delivery over protocols 9 and 10: parcels sent one after the other over an
    open connection arrive in order at any end whose decoder has followed the
    stream: protocol 9 delivers type, payload and address, protocol 10 type and
    payload. *)
Theorem legacy_delivery :
  (∀ l p, v9_up p → Forall v9_sendable l →
    ∃ p' bytes, send_all (H:=V9_Protocol id) l p = (p', Ok tt) ∧ v9_out p' = v9_out p ++ bytes ∧
      ∀ q rest, v9_linked id p q → v9_in q = bytes ++ rest →
        ∃ q', receive_n (H:=V9_Protocol id) (length l) q = (q', Ok l) ∧ v9_in q' = rest ∧
          v9_linked id p' q') ∧
  (∀ l p, v10_up p → Forall v10_sendable l →
    ∃ p' bytes, send_all (H:=V10_Protocol id) l p = (p', Ok tt) ∧ v10_out p' = v10_out p ++ bytes ∧
      ∀ q rest, v10_linked id p q → v10_in q = bytes ++ rest →
        ∃ q', receive_n (H:=V10_Protocol id) (length l) q =
            (q', Ok ((λ x, newParcel (ptype x) (Payload x)) <$> l)) ∧ v10_in q' = rest ∧
          v10_linked id p' q').
Proof.
  assert (Hi9 : ids_ok id (defs t_V9Msg)) by apply (ids_ok_sub _ _ _ (legacy_ids id Hti) V9_in_legacy).
  assert (Hi10 : ids_ok id (defs t_V10Msg)) by apply (ids_ok_sub _ _ _ (legacy_ids id Hti) V10_in_legacy).
  split; intros l p Hup Hl.
  - destruct (delivery (H0:=V9_Wire id _ Hi9 (λ d Hd, Hd)) l p)
      as (p' & bytes & Hs & _ & Ho & _ & Hr); [exact Hup|exact Hl|].
    exists p', bytes. split_and!; [done..|]. intros q rest Hq Hb.
    destruct (Hr q rest Hq Hb) as (q' & Hrecv & ? & _ & ?). exists q'. split_and!; [|done..].
    by rewrite list_fmap_id in Hrecv.
  - destruct (delivery (H0:=V10_Wire id _ Hi10 (λ d Hd, Hd)) l p)
      as (p' & bytes & Hs & _ & Ho & _ & Hr); [exact Hup|exact Hl|].
    exists p', bytes. split_and!; [done..|]. intros q rest Hq Hb.
    destruct (Hr q rest Hq Hb) as (q' & Hrecv & ? & _ & ?). by exists q'.
Qed.

(** The handshake of protocols 9 and 10 arrives, and the receiver stands right
    behind it: protocol 9 sends a handshake as a peer request; the loopback number
    arrives when no alternatives are sent, and alternatives arrive when the
    handshake is a rejection. *)
Theorem legacy_handshake_exchange h g :
  c_room (gob_conn g) = None → v9_hs_ok h →
  (h_Type h = TypeRejectAlternative → h_Alternatives h ≠ []) →
  ∃ g' bytes, c_out (gob_conn g') = c_out (gob_conn g) ++ bytes ∧
    (∀ p h', v9_gob p = g → as_peer_request h' = h → V9_SendHandshake id h' p = (set_gob g' p, Ok tt)) ∧
    (∀ p, v10_gob p = g → V10_SendHandshake id h p = (MkProtocolV10 g', Ok tt)) ∧
    ∀ q rest, gob_link id legacy_defs (gob_sent g) (gob_types (v9_gob q)) → v9_in q = bytes ++ rest →
      ∃ q', V9_ReadHandshake q = (q', Ok (v9_arrives h)) ∧ v9_in q' = rest ∧
        gob_link id legacy_defs (gob_sent g') (gob_types (v9_gob q')).
Proof.
  intros Hup Hok Hrej. destruct (handshake_exchange id h g Hti Hup Hok)
    as (g' & bytes & Hs & _ & Ho & _ & _ & _ & Hx).
  exists g', bytes. split_and!; [done| | |].
  - intros p h' <- Hh. unfold V9_SendHandshake, with_gob. by rewrite Hh, Hs.
  - intros p <-. unfold V10_SendHandshake, with_gob10. by rewrite Hs.
  - intros q rest Hl Hb. destruct (Hx q rest Hl Hb) as (q' & Hr & Hb' & _ & _ & _ & Hlq).
    exists q'. split_and!; [|done..]. rewrite Hr.
    destruct (Z.eqb_spec (h_Type h) TypeRejectAlternative) as [E|]; [|done].
    by rewrite bool_decide_false by auto.
Qed.

(** [C20] A rejection without alternatives, as [RejectWithShare] makes it when it knows
    no other peers, is sent without an error over protocols 9 and 10, and the remote
    node cannot read it: in place of the list of alternatives it finds the loopback
    number, eight zero bytes. *)
Theorem legacy_reject_unreadable h g :
  c_room (gob_conn g) = None → v9_hs_ok h →
  h_Type h = TypeRejectAlternative → h_Alternatives h = [] → h_Loopback h = 0 →
  ∃ g' bytes, v9SendHandshake id h g = (g', Ok tt) ∧ c_out (gob_conn g') = c_out (gob_conn g) ++ bytes ∧
    ∀ q rest, gob_link id legacy_defs (gob_sent g) (gob_types (v9_gob q)) → v9_in q = bytes ++ rest →
      (V9_ReadHandshake q).2 = Err PE_json.
Proof.
  intros Hup Hok Ht Ha Hl0. destruct (handshake_exchange id h g Hti Hup Hok)
    as (g' & bytes & Hs & _ & Ho & _ & _ & _ & Hx).
  exists g', bytes. split_and!; [done|done|]. intros q rest Hl Hb.
  destruct (Hx q rest Hl Hb) as (q' & Hr & _). by rewrite Hr, Ht, Ha, Hl0.
Qed.

(** Whatever bytes arrive, in whatever chunks, reading a handshake or a parcel
    over protocols 9 and 10 and parsing a peer share returns, with a value or an
    error: it neither panics nor runs on. *)
Theorem legacy_receivers_total p9 p10 payload :
  returns (V9_Receive p9).2 ∧ returns (V9_ReadHandshake p9).2 ∧ returns (V10_Receive p10).2 ∧
  returns (V9_ParsePeerShare payload) ∧ returns (V10_ParsePeerShare payload).
Proof.
  pose proof (Decode_total t_V9Msg (v9_gob p9)) as H9.
  pose proof (Decode_total t_V10Msg (v10_gob p10)) as H10.
  split_and!; [|apply V9_ReadHandshake_total| |apply unmarshal_list_returns, V9Share_of_json_returns|apply unmarshal_endpoints_returns].
  - unfold V9_Receive, v9_read, with_gob, io_bind. cbn [fst snd].
    destruct (Decode t_V9Msg (v9_gob p9)) as [g [v|[]| |]]; try done. cbn [snd wrap_gob]. rewrite bind_Ok.
    unfold io_lift, V9Msg_Valid. by repeat case_match.
  - unfold V10_Receive, with_gob10, io_bind. cbn [fst snd].
    destruct (Decode t_V10Msg (v10_gob p10)) as [g [v|[]| |]]; try done. cbn [snd wrap_gob]. rewrite bind_Ok.
    by case_match.
Qed.

(** [C21] The checksum of protocol 9: the message made for a parcel is valid, and one
    with any single byte of the payload changed on the way is refused for its
    checksum. *)
Theorem V9_checksum p x pre v v' post :
  Payload x = pre ++ v :: post → v ≠ v' →
  V9Msg_Valid (v9_parcel_msg p x) = Ok tt ∧
  V9Msg_Valid (MkV9Msg (V9_Header (v9_parcel_msg p x)) (pre ++ v' :: post)) = Err PE_checksum.
Proof.
  intros Hx Hv. assert (Hlen : zlen (pre ++ v' :: post) = zlen (pre ++ v :: post)).
  { by autorewrite with zlen. }
  assert (Hne : (zlen (pre ++ v :: post) =? 0) = false).
  { apply Z.eqb_neq. autorewrite with zlen. pose proof (zlen_nonneg pre). pose proof (zlen_nonneg post). lia. }
  unfold V9Msg_Valid, v9_parcel_msg. cbn [V9_Header V9_Payload V9_Version V9_Length V9_Crc32].
  rewrite Hlen, Hx, Hne, !Z.eqb_refl. split; [done|]. cbn [negb].
  by rewrite (proj2 (Z.eqb_neq _ _)) by (intros E; by apply (Checksum_one_byte pre post v v')).
Qed.

(** Peer shares over protocols 9 and 10: parsing the JSON made from any list of
    endpoints gives the list back, in order. *)
Theorem legacy_share_roundtrip v9 ps :
  is_u32 (v9_network v9) → Forall ascii_endpoint ps →
  (∃ data, V9_MakePeerShare v9 ps = Ok data ∧ V9_ParsePeerShare data = Ok ps) ∧
  (∃ data, V10_MakePeerShare ps = Ok data ∧ V10_ParsePeerShare data = Ok ps).
Proof.
  intros Hn Hps. split; eexists; (split; [reflexivity|]).
  - by apply V9_share_parses.
  - by apply endpoints_roundtrip.
Qed.

End Properties.

(** ** Concrete connections *)

Lemma ids3_ok : type_ids ids3.
Proof. by split; vm_compute. Qed.

Definition fresh_gob : gob := newGob (MkConn [] [] None).
Definition gob_reading (input : list byte) : gob := newGob (MkConn [input] [] None).

Lemma fresh_v9_linked id p q :
  type_ids id → gob_sent (v9_gob p) = ∅ → gob_types (v9_gob q) = builtin_types → v9_linked id p q.
Proof.
  intros Hti Hp Hq. unfold v9_linked, v9_link. rewrite Hp, Hq.
  eapply gob_link_weaken; [by apply fresh_link|apply V9_in_legacy|intros; reflexivity].
Qed.

Theorem legacy_delivery_witness :
  let p := v9_of (MkConn [] [] None) in
  let x := NewParcel "x" [x61; x62] in
  (∃ p' bytes, send_all (H:=V9_Protocol ids3) [x; x] p = (p', Ok tt) ∧ v9_out p' = v9_out p ++ bytes ∧
    ∀ q rest, v9_linked ids3 p q → v9_in q = bytes ++ rest →
      ∃ q', receive_n (H:=V9_Protocol ids3) 2 q = (q', Ok [x; x]) ∧ v9_in q' = rest ∧
        v9_linked ids3 p' q') ∧
  v9_linked ids3 p p.
Proof.
  split.
  - apply (proj1 (legacy_delivery ids3 ids3_ok) [NewParcel "x" [x61; x62]; NewParcel "x" [x61; x62]]).
    + split_and!; [reflexivity|by vm_compute..].
    + apply Forall_forall. intros x [-> | [->|[]%elem_of_nil]%elem_of_cons]%elem_of_cons; by vm_compute.
  - apply fresh_v9_linked; [exact ids3_ok|reflexivity..].
Defined.

Definition reject_ab : Handshake :=
  MkHandshake MainNet 10 TypeRejectAlternative 77 "8108" 0 [ep_a; ep_a].
Definition reject_none : Handshake :=
  MkHandshake MainNet 10 TypeRejectAlternative 77 "8108" 0 [].

Lemma ep_a_ascii : ascii_endpoint ep_a.
Proof. by split; apply lit_ascii. Qed.

Lemma reject_ok l : Forall ascii_endpoint l → zlen (marshal_endpoints l) ≤ 1000 →
  v9_hs_ok (MkHandshake MainNet 10 TypeRejectAlternative 77 "8108" 0 l).
Proof.
  intros Hl Hz. split; cbn [h_Network h_Version h_Type h_NodeID h_Loopback h_Alternatives h_ListenPort];
    [by vm_compute..|done|change (zlen (str_bytes "8108")) with 4; lia].
Qed.

Theorem legacy_handshake_exchange_witness :
  let h := reject_ab in
  ∃ g' bytes, c_out (gob_conn g') = c_out (gob_conn fresh_gob) ++ bytes ∧
    (∀ p h', v9_gob p = fresh_gob → as_peer_request h' = h → V9_SendHandshake ids3 h' p = (set_gob g' p, Ok tt)) ∧
    (∀ p, v10_gob p = fresh_gob → V10_SendHandshake ids3 h p = (MkProtocolV10 g', Ok tt)) ∧
    ∀ q rest, gob_link ids3 legacy_defs (gob_sent fresh_gob) (gob_types (v9_gob q)) → v9_in q = bytes ++ rest →
      ∃ q', V9_ReadHandshake q = (q', Ok (v9_arrives h)) ∧ v9_in q' = rest ∧
        gob_link ids3 legacy_defs (gob_sent g') (gob_types (v9_gob q')).
Proof.
  apply legacy_handshake_exchange; [apply ids3_ok|reflexivity| |done].
  apply reject_ok; [repeat constructor; apply ep_a_ascii|by vm_compute].
Defined.

Theorem legacy_reject_unreadable_witness :
  ∃ g' bytes, v9SendHandshake ids3 reject_none fresh_gob = (g', Ok tt) ∧
    c_out (gob_conn g') = c_out (gob_conn fresh_gob) ++ bytes ∧
    ∀ q rest, gob_link ids3 legacy_defs (gob_sent fresh_gob) (gob_types (v9_gob q)) → v9_in q = bytes ++ rest →
      (V9_ReadHandshake q).2 = Err PE_json.
Proof.
  apply legacy_reject_unreadable; [apply ids3_ok|reflexivity| |reflexivity..].
  apply reject_ok; [constructor|by vm_compute].
Defined.

Theorem legacy_receivers_total_witness :
  let q9 := v9_of (MkConn [[x0a; xff]; [x00]] [] None) in
  let q10 := newProtocolV10 (gob_reading [x05; xff; x81]) in
  returns (V9_Receive q9).2 ∧ returns (V9_ReadHandshake q9).2 ∧ returns (V10_Receive q10).2 ∧
  returns (V9_ParsePeerShare [x5b; x7b]) ∧ returns (V10_ParsePeerShare [x5b; x7b]).
Proof. apply legacy_receivers_total. Defined.

Theorem V9_checksum_witness :
  let p := v9_of (MkConn [] [] None) in
  let x := NewParcel "x" [x61; x62; x63] in
  V9Msg_Valid (v9_parcel_msg p x) = Ok tt ∧
  V9Msg_Valid (MkV9Msg (V9_Header (v9_parcel_msg p x)) [x61; x00; x63]) = Err PE_checksum.
Proof. by apply (V9_checksum _ (NewParcel "x" [x61; x62; x63]) [x61] x62 x00 [x63]). Defined.

Theorem legacy_share_roundtrip_witness :
  (∃ data, V9_MakePeerShare (v9_of (MkConn [] [] None)) [ep_a; ep_a] = Ok data ∧
    V9_ParsePeerShare data = Ok [ep_a; ep_a]) ∧
  (∃ data, V10_MakePeerShare [ep_a; ep_a] = Ok data ∧ V10_ParsePeerShare data = Ok [ep_a; ep_a]).
Proof.
  apply legacy_share_roundtrip; [by vm_compute|repeat constructor; apply ep_a_ascii].
Defined.
