(* ===== verification/PeerFile.v ===== *)
(** * The text of the peer file ([controller_persistence.go])

    What [json.Marshal] and [json.Unmarshal] make of a [PeerCache]: the instance of
    [CacheJson] for the code as it is.  The times of the bans are printed in their
    locations, whose offsets are an argument. *)
From stdpp Require Import sorting.
From S2P Require Import Prelude GoStd Endpoint Parcel ParcelChannel PeerHashCache Configuration PeerStore.
From S2P Require Import Controller Json JsonSpec GoTime Protocol ProtocolV9 Legacy.

(** ** Writing *)

(** a Go map is written in the order of its keys *)
Definition key_le (x y : string * Z) : Prop := String.leb x.1 y.1 = true.
#[local] Instance key_le_dec : RelDecision key_le := λ x y, bool_eq_dec (String.leb x.1 y.1) true.
Definition sorted_bans (m : gmap string Z) : list (string * Z) := merge_sort key_le (map_to_list m).

Section Codec.
(** the offset in seconds of the location of a ban's time *)
Context (zone : string → Z → Z).

Definition ban_member (kv : string * Z) : option (list byte * json) :=
  raw ← Time_MarshalJSON (zone kv.1 kv.2) kv.2; Some (escape (str_bytes kv.1), JStr raw).
Definition bans_json (b : option (gmap string Z)) : option json :=
  match b with
  | None => Some JNull
  | Some m => ms ← mapM ban_member (sorted_bans m); Some (JObj ms)
  end.

(** [createPeerCache] makes a slice for the peers even if there are none *)
Definition PeerCache_json (pc : PeerCache) : option json :=
  b ← bans_json (Bans pc);
  Some (JObj [(lit "bans", b); (lit "peers", JArr (endpoint_json <$> Peers pc))]).

(** ** Reading *)

Definition read_ban (o : option (gmap string Z)) (kv : list byte * json) : option (gmap string Z) :=
  m ← o; t ← Time_UnmarshalJSON zero_time kv.2; Some (<[bytes_str (unquote kv.1) := t]> m).

(** a map keeps what it has and a nil one is made *)
Definition read_bans (b : option (gmap string Z)) (v : json) : option (option (gmap string Z)) :=
  match v with
  | JNull => Some None
  | JObj ms =>
      m ← foldl read_ban (Some (default ∅ b)) ms; Some (Some m)
  | _ => None
  end.

Definition read_endpoint (init : Endpoint) (v : json) : option Endpoint :=
  match v with
  | JNull => Some init
  | JObj ms =>
      ip ← string_field_from (IP init) "ip" ms;
      port ← string_field_from (Port init) "port" ms;
      Some (MkEndpoint ip port)
  | _ => None
  end.

(** a slice of endpoints: the memory it has used so far and its length *)
Record slice := MkSlice { sl_memory : list Endpoint; sl_len : nat }.
Definition empty_slice : slice := MkSlice [] 0.
Definition slice_items (s : slice) : list Endpoint := take (sl_len s) (sl_memory s).

(** the elements of an array go where the elements of the slice are, and a field that
    is not given keeps what is there *)
Fixpoint read_elems (memory : list Endpoint) (l : list json) : option (list Endpoint) :=
  match l with
  | [] => Some []
  | v :: l =>
      ep ← read_endpoint (default (MkEndpoint EmptyString EmptyString) (head memory)) v;
      eps ← read_elems (tail memory) l; Some (ep :: eps)
  end.
Definition read_peers (s : slice) (v : json) : option slice :=
  match v with
  | JNull | JArr [] => Some empty_slice
  | JArr l =>
      eps ← read_elems (sl_memory s) l;
      Some (MkSlice (eps ++ drop (length eps) (sl_memory s)) (length eps))
  | _ => None
  end.

(** the values given for a field, one after the other *)
Definition read_field {A} (f : A → json → option A) (init : A) (vs : list json) : option A :=
  foldl (λ o v, a ← o; f a v) (Some init) vs.

Definition PeerCache_of_json (pc : PeerCache) (v : json) : option PeerCache :=
  match v with
  | JNull => Some pc
  | JObj ms =>
      b ← read_field read_bans (Bans pc) (field "bans" ms);
      s ← read_field read_peers (MkSlice (Peers pc) (length (Peers pc))) (field "peers" ms);
      Some (MkPeerCache b (slice_items s))
  | _ => None
  end.

Definition Go_json : CacheJson := {|
  json_Marshal pc := print <$> PeerCache_json pc;
  json_Unmarshal data pc :=
    match parse data with Ok v => PeerCache_of_json pc v | _ => None end;
|}.
End Codec.

(** bans without a location count as UTC; the second list of peers is shorter, its first
    element has no port and its second is null *)
Example peer_file_example :
  json_Unmarshal (CacheJson:=Go_json (λ _ _, 0)) (double_quotes
    "{'bans':{'1.2.3.4':'1970-01-01T00:00:01.5Z','b':null},
      'peers':[{'ip':'a','port':'1'},{'ip':'b','port':'2'},{'ip':'c','port':'3'}],
      'PEERS':[{'ip':'d'},null]}") newPeerCache =
  Some (MkPeerCache (Some (<["1.2.3.4"%string := 1500000000]> (<["b"%string := zero_time]> ∅)))
    [MkEndpoint "d" "1"; MkEndpoint "b" "2"]).
Proof. by vm_compute. Qed.

(** ** The file reads back *)

Section Roundtrip.
Context (zone : string → Z → Z).

(** a ban that JSON can carry: an address of 7-bit characters, as the package's are, and a
    time with a year of four digits in a zone of whole minutes *)
Definition ban_ok (kv : string * Z) : Prop := ascii (str_bytes kv.1) ∧ printable (zone kv.1 kv.2) kv.2.

Lemma ban_member_ok kv :
  ban_ok kv →
  ∃ raw, ban_member zone kv = Some (escape (str_bytes kv.1), JStr raw) ∧ str_ok raw ∧
    Time_UnmarshalJSON zero_time (JStr raw) = Some kv.2.
Proof.
  intros [_ Hp]. destruct (Time_roundtrip _ _ zero_time Hp) as (raw & Hm & Hraw & Hu).
  exists raw. unfold ban_member. by rewrite Hm.
Qed.

Definition put_ban (m : gmap string Z) (kv : string * Z) : gmap string Z := <[kv.1 := kv.2]> m.

(** the members written are read one by one *)
Lemma members_read l m0 :
  Forall ban_ok l →
  ∃ ms, mapM (ban_member zone) l = Some ms ∧ json_ok (JObj ms) ∧
    foldl read_ban (Some m0) ms = Some (foldl put_ban m0 l).
Proof.
  intros H. revert m0. induction H as [|kv l Hkv _ IH]; intros m0; [by exists []|].
  destruct (ban_member_ok kv Hkv) as (raw & Hb & Hraw & Hu).
  destruct (escape_ascii _ (proj1 Hkv)) as [Hesc Hunq].
  destruct (IH (put_ban m0 kv)) as (ms & Hms & Hok & Hf).
  exists ((escape (str_bytes kv.1), JStr raw) :: ms). cbn [mapM]. rewrite Hb. simpl. rewrite Hms. simpl.
  split_and!; [done|done|done|done|]. simpl in Hu. rewrite Hunq, Hu, bytes_str_bytes. simpl. exact Hf.
Qed.

(** putting the pairs of a map into an empty one gives the map *)
Lemma foldl_insert_lookup (l : list (string * Z)) (m0 : gmap string Z) a :
  NoDup l.*1 →
  foldl put_ban m0 l !! a =
  match list_to_map (M:=gmap string Z) l !! a with Some t => Some t | None => m0 !! a end.
Proof.
  revert m0. induction l as [|[k t] l IH]; intros m0 Hnd; [done|].
  apply NoDup_cons in Hnd as [Hk Hnd]. cbn [foldl]. rewrite IH by done. simpl.
  unfold put_ban. cbn [fst snd].
  rewrite !lookup_insert. case_decide as E; [|done]. subst a.
  by rewrite (not_elem_of_list_to_map_1 l k) by exact Hk.
Qed.

Lemma sorted_bans_insert m : foldl put_ban ∅ (sorted_bans m) = m.
Proof.
  assert (Hp : sorted_bans m ≡ₚ map_to_list m) by apply merge_sort_Permutation.
  assert (Hnd : NoDup (sorted_bans m).*1) by (rewrite Hp; apply NoDup_fst_map_to_list).
  apply map_eq. intros a. rewrite foldl_insert_lookup by done.
  rewrite (list_to_map_proper _ _ Hnd Hp), list_to_map_to_list, lookup_empty. by destruct (m !! a).
Qed.

Lemma bans_read m b :
  map_Forall (λ a t, ban_ok (a, t)) m → default ∅ b = ∅ →
  ∃ v, bans_json zone (Some m) = Some v ∧ json_ok v ∧ read_bans b v = Some (Some m).
Proof.
  intros Hm Hb. destruct (members_read (sorted_bans m) ∅) as (ms & Hms & Hok & Hf).
  { apply Forall_forall. intros [a t] Hin. apply (Hm a t).
    apply elem_of_map_to_list. unfold sorted_bans in Hin. by rewrite merge_sort_Permutation in Hin. }
  exists (JObj ms). unfold bans_json. rewrite Hms. split_and!; [done|done|].
  unfold read_bans. rewrite Hb, Hf, sorted_bans_insert. done.
Qed.

Lemma read_endpoint_json init ep : ascii_endpoint ep → read_endpoint init (endpoint_json ep) = Some ep.
Proof.
  intros [Hi Hp]. destruct (escape_ascii _ Hi) as [_ Hui]. destruct (escape_ascii _ Hp) as [_ Hup].
  destruct ep as [ip port]. unfold read_endpoint, endpoint_json, string_field_from. cbn [IP Port] in *.
  assert (Hf : ∀ v w, field "ip" [(lit "ip", v); (lit "port", w)] = [v] ∧
                      field "port" [(lit "ip", v); (lit "port", w)] = [w]) by (intros; by vm_compute).
  destruct (Hf (JStr (escape (str_bytes ip))) (JStr (escape (str_bytes port)))) as [-> ->].
  cbn -[bytes_str str_bytes unquote escape]. by rewrite Hui, Hup, !bytes_str_bytes.
Qed.

Lemma read_elems_json eps memory : Forall ascii_endpoint eps → read_elems memory (endpoint_json <$> eps) = Some eps.
Proof.
  intros H. revert memory. induction H as [|ep eps Hep _ IH]; intros memory; [done|].
  rewrite fmap_cons. cbn [read_elems]. rewrite read_endpoint_json by done. cbn [mbind option_bind]. by rewrite IH.
Qed.

Lemma peers_read eps :
  Forall ascii_endpoint eps →
  json_ok (JArr (endpoint_json <$> eps)) ∧
  ∃ s, read_peers empty_slice (JArr (endpoint_json <$> eps)) = Some s ∧ slice_items s = eps.
Proof.
  intros H. split.
  - induction H as [|ep eps Hep _ IH]; [done|]. split; [by apply endpoint_json_ok|exact IH].
  - destruct eps as [|ep eps]; [by eexists|]. pose proof (read_elems_json (ep :: eps) [] H) as Hr.
    unfold read_peers. rewrite fmap_cons in *. cbn [sl_memory empty_slice]. rewrite Hr. eexists. split; [done|].
    unfold slice_items. cbn [sl_len sl_memory]. by rewrite take_app_length.
Qed.

(** what is written of a cache reads back *)
Lemma PeerCache_roundtrip m eps :
  map_Forall (λ a t, ban_ok (a, t)) m → Forall ascii_endpoint eps →
  ∃ data, json_Marshal (CacheJson:=Go_json zone) (MkPeerCache (Some m) eps) = Some data ∧
    json_Unmarshal (CacheJson:=Go_json zone) data newPeerCache = Some (MkPeerCache (Some m) eps).
Proof.
  intros Hm He. destruct (bans_read m (Bans newPeerCache) Hm eq_refl) as (v & Hv & Hvok & Hr).
  destruct (peers_read eps He) as (Hpok & s & Hs & Hi).
  set (ms := [(lit "bans", v); (lit "peers", JArr (endpoint_json <$> eps))]).
  assert (Hok : json_ok (JObj ms)).
  { split; [exact (proj1 (proj2 (plain_ok (lit "bans") eq_refl)))|]. split; [done|].
    split; [exact (proj1 (proj2 (plain_ok (lit "peers") eq_refl)))|]. split; [done|exact I]. }
  exists (print (JObj ms)). split.
  - unfold json_Marshal, Go_json, PeerCache_json. cbn [Bans Peers]. by rewrite Hv.
  - unfold json_Unmarshal, Go_json. rewrite parse_print by done. unfold PeerCache_of_json.
    assert (∀ w, field "bans" [(lit "bans", v); (lit "peers", w)] = [v] ∧
                 field "peers" [(lit "bans", v); (lit "peers", w)] = [w]) as Hf by (intros; by vm_compute).
    unfold ms. destruct (Hf (JArr (endpoint_json <$> eps))) as [-> ->].
    unfold read_field. cbn [foldl mbind option_bind]. rewrite Hr. cbn [mbind option_bind].
    change (MkSlice (Peers newPeerCache) (length (Peers newPeerCache))) with empty_slice. rewrite Hs.
    cbn [mbind option_bind]. by rewrite Hi.
Qed.
End Roundtrip.

(** ** Restarts *)


(** A peer file whose bans are null, in whatever spelling of the key, leaves the node it
    starts without a map of bans: its first ban panics. *)
Theorem null_bans_file zone conf now text ms v order ep duration now' c :
  str_empty (PeerCacheFile conf) = false →
  parse text = Ok (JObj ms) → field "bans" ms = v ++ [JNull] → field "peers" ms = [] →
  read_field read_bans (Some ∅) v ≠ None →
  let bans := (initial_cache (H:=Go_json zone) conf now (Some text)).1 in
  bans = None ∧ banEndpoint order ep duration now' (load_bans bans c) = Panic.
Proof.
  intros Hconf Ht Hb Hp Hr. cbv zeta. assert ((initial_cache (H:=Go_json zone) conf now (Some text)).1 = None) as ->.
  2: { split; [done|]. reflexivity. }
  unfold initial_cache, controller_loadPeerCache, loadPeerCache. rewrite Hconf. cbn [json_Unmarshal Go_json].
  rewrite Ht. unfold PeerCache_of_json. rewrite Hb, Hp. unfold read_field in *. rewrite foldl_app.
  cbn [Bans newPeerCache Peers]. destruct (foldl _ (Some (Some ∅)) v); [|done]. done.
Qed.

(** ** Examples *)

Definition ctl_a : controller :=
  MkController store_a {[ 1%nat := fresh_state ]} []
    {[ "1.2.3.4"%string := 100; "5.6.7.8"%string := 5 ]} false ∅ [].
Definition conf_file : Configuration :=
  let d := DefaultP2PConfiguration in
  MkConfiguration (Network d) (NodeID d) (NodeName d) (PeerRequestInterval d)
    (PeerReseedInterval d) (PeerIPLimitIncoming d) (PeerIPLimitOutgoing d) (Special d)
    "peers.json" (PeerCacheAge d) (PeerShareAmount d) (PeerShareTimeout d)
    (RoundTime d) (TargetPeers d) (MaxPeers d) (DropTo d) (MinReseed d) (MaxIncoming d)
    (Fanout d) (SeedURL d) (BindIP d) (ListenPort d) (ListenLimit d) (PingInterval d)
    (RedialInterval d) (ManualBan d) (HandshakeTimeout d) (DialTimeout d) (ReadDeadline d)
    (WriteDeadline d) (ProtocolVersion d) (ProtocolVersionMinimum d) (ChannelCapacity d)
    (EnablePrometheus d) (PeerResendFilter d) (PeerResendBuckets d) (PeerResendInterval d).

Lemma ctl_a_wf : controller_wf ctl_a.
Proof.
  assert (H : ∀ h p, peers store_a !! h = Some p → p = peer_a).
  { enough (map_Forall (λ _ p, p = peer_a) (peers store_a)) as Ha by exact Ha.
    apply (bool_decide_unpack _). by vm_compute. }
  split.
  - apply reachable_wf, (sr_add NewPeerStore (Some peer_a)); [constructor|by vm_compute].
  - intros h p ->%H. apply (bool_decide_unpack _). by vm_compute.
  - by intros h h' p q ->%H ->%H.
  - intros i st pr. unfold ctl_a. simpl. rewrite lookup_singleton.
    repeat case_decide; intros; simplify_eq/=; done.
  - done.
Qed.


(** the bans of the file are read before its null *)
Theorem null_bans_file_witness :
  let text := double_quotes "{'bans':{'1.2.3.4':'2030-01-01T00:00:00Z'},'Bans':null}" in
  let bans := (initial_cache (H:=Go_json (λ _ _, 0)) conf_file (λ _, 7) (Some text)).1 in
  bans = None ∧ banEndpoint (λ l, l) ep_a 100 7 (load_bans bans ctl_a) = Panic.
Proof.
  cbv zeta. eapply null_bans_file with (v := [_]); [reflexivity|vm_compute; reflexivity|by vm_compute..].
Defined.
