(* ===== verification/Connections.v ===== *)
(** * Making connections ([controller_connections.go])

    Incoming and outgoing handshakes: which connections are let in, which protocol
    is spoken, and what is kept of a connection.  The remote side is the stream of
    bytes that arrives on the [conn]; deadlines show as the end of that stream. *)
From S2P Require Import Prelude GoStd NetworkId Endpoint Parcel ParcelChannel PeerHashCache Configuration.
From S2P Require Import PeerStore Handshake Stream Gob Json Crc V11Wire Protocol ProtocolV9 ProtocolV10 ProtocolV11.
From S2P Require Import Rng Dialer Controller Cat.

(** a [Protocol] of any version, as the interface value the code holds *)
Inductive any_protocol :=
  | Any9 (p : ProtocolV9)
  | Any10 (p : ProtocolV10)
  | Any11 (p : ProtocolV11).

Definition any_conn (p : any_protocol) : conn :=
  match p with
  | Any9 p => gob_conn (v9_gob p)
  | Any10 p => gob_conn (v10_gob p)
  | Any11 p => rw p
  end.

Inductive connect_error :=
  | CE_dial (e : dial_error)
  | CE_refused                      (* [allowIncoming] *)
  | CE_protocol (e : prot_error)
  | CE_handshake (e : handshake_error)
  | CE_below_minimum
  | CE_unsupported
  | CE_loopback
  | CE_rejected.

#[export] Instance connect_error_eq_dec : EqDecision connect_error.
Proof. solve_decision. Defined.

Definition ce_protocol {A} (o : outcome prot_error A) : outcome connect_error A :=
  match o with Ok a => Ok a | Err e => Err (CE_protocol e) | Panic => Panic | OutOfFuel => OutOfFuel end.
Definition ce_handshake {A} (o : outcome handshake_error A) : outcome connect_error A :=
  match o with Ok a => Ok a | Err e => Err (CE_handshake e) | Panic => Panic | OutOfFuel => OutOfFuel end.

Definition set_Version (v : Z) (h : Handshake) : Handshake :=
  MkHandshake (h_Network h) v (h_Type h) (h_NodeID h) (h_ListenPort h) (h_Loopback h) (h_Alternatives h).

(** [%08x] *)
Definition format_08x (n : Z) : string :=
  let s := hex_digits 16 n [] in bytes_str (replicate (8 - length s) x30 ++ s).

(** [newPeer], without starting its loops: the peer at the address [ref] and what
    changes about it *)
Definition peer_Hash (ep : Endpoint) (id : Z) : string :=
  (Endpoint_String ep +:+ " " +:+ format_08x id)%string.
Definition newPeer (conf : Configuration) (ref : nat) (id : Z) (ep : Endpoint) (incoming : bool)
    : outcome () (Peer * PeerState) :=
  (if PeerResendFilter conf then NewPeerHashCache (PeerResendBuckets conf) ≫= λ pr, Ok (Some pr) else Ok None)
  ≫= λ resend,
  Ok (MkPeer ref (peer_Hash ep id) ep incoming,
      MkPeerState false resend (newParcelChannel (ChannelCapacity conf)) 0 zero_time zero_time zero_time).

(** the end of a handshake: what has become of the connection and the controller *)
Record maneuver := MkManeuver {
  mv_conn : conn;
  mv_closed : bool;
  mv_ctl : controller;
  mv_parcels : list (Peer * Parcel);       (* sent to [peerData] *)
  mv_alternatives : list Endpoint;
  mv_result : outcome connect_error (Peer * any_protocol);
}.

Section Connections.
Context {G : Type} `{Rng G} `{ProtoLib}.
Context (type_id : string → Z).
Context (order : list Peer → list Peer).
Context (conf : Configuration) (instanceID : Z).

(** *** The methods of the interface value *)

Definition any_io {P A} (wrap : P → any_protocol) (r : P * outcome prot_error A)
    : any_protocol * outcome prot_error A := (wrap r.1, r.2).

#[export] Instance Any_Protocol : Protocol any_protocol := {|
  SendHandshake := λ h p, match p with
    | Any9 p => any_io Any9 (V9_SendHandshake type_id h p)
    | Any10 p => any_io Any10 (V10_SendHandshake type_id h p)
    | Any11 p => any_io Any11 (V11_SendHandshake h p)
    end;
  ReadHandshake := λ p, match p with
    | Any9 p => any_io Any9 (V9_ReadHandshake p)
    | Any10 p => any_io Any10 (V10_ReadHandshake p)
    | Any11 p => any_io Any11 (V11_ReadHandshake p)
    end;
  Send := λ x p, match p with
    | Any9 p => any_io Any9 (V9_Send type_id x p)
    | Any10 p => any_io Any10 (V10_Send type_id x p)
    | Any11 p => any_io Any11 (V11_Send x p)
    end;
  Receive := λ p, match p with
    | Any9 p => any_io Any9 (V9_Receive p)
    | Any10 p => any_io Any10 (V10_Receive p)
    | Any11 p => any_io Any11 (V11_Receive p)
    end;
  MakePeerShare := λ p l, match p with
    | Any9 p => V9_MakePeerShare p l
    | Any10 _ => V10_MakePeerShare l
    | Any11 _ => V11_MakePeerShare l
    end;
  ParsePeerShare := λ p l, match p with
    | Any9 _ => V9_ParsePeerShare l
    | Any10 _ => V10_ParsePeerShare l
    | Any11 _ => V11_ParsePeerShare l
    end;
  Version := λ p, match p with Any9 _ => V9_ProtocolVersion | Any10 _ => V10_ProtocolVersion | Any11 _ => V11_Version end;
  Protocol_String := λ p, match p with Any9 _ => V9_String | Any10 _ => V10_String | Any11 _ => V11_String end;
|}.

(** ** Which connections are let in *)

Definition allowIncoming (now : Z) (c : controller) (addr : string) : outcome connect_error () :=
  return_err_if isBannedIP now c addr with CE_refused;;
  return_err_if (MaxIncoming conf <=? u64 (PeerStore_Total (c_peers c))) && negb (isSpecialIP c addr)
    with CE_refused;;
  return_err_if (0 <? PeerIPLimitIncoming conf) && (PeerIPLimitIncoming conf <=? u64 (PeerStore_Count (c_peers c) addr))
    with CE_refused;;
  Ok tt.

(** ** Which protocol is spoken *)

(** A reader with a buffer is put on the connection: its [Peek] leaves the bytes to be
    read by the protocol. *)
Definition Peek (n : Z) (c : conn) : outcome prot_error (list byte) :=
  if zlen (bytes_in c) <? n then Err (PE_io EOF) else Ok (take (Z.to_nat n) (bytes_in c)).

Definition detectProtocolFromFirstMessage (c : conn)
    : conn * outcome connect_error (any_protocol * Handshake) :=
  match Peek 4 c with
  | Ok sig =>
      if bool_decide (sig = V11Signature) then
        let r := V11_ReadHandshake (newProtocolV11 c) in
        (rw r.1,
         ce_protocol r.2 ≫= λ hs,
         ce_handshake (Handshake_Valid hs conf) ≫= λ _,
         Ok (Any11 r.1, hs))
      else
        let r := V9_ReadHandshake (newProtocolV9 (Network conf) (NodeID conf) (ListenPort conf) (newGob c)) in
        (gob_conn (v9_gob r.1),
         ce_protocol r.2 ≫= λ hs,
         ce_handshake (Handshake_Valid hs conf) ≫= λ _,
         return_err_if h_Version hs <? ProtocolVersionMinimum conf with CE_below_minimum;;
         let hs := if (h_Version hs =? 10) && (ProtocolVersion conf =? 9) then set_Version 9 hs else hs in
         if h_Version hs =? 9 then Ok (Any9 r.1, hs)
         else if h_Version hs =? 10 then Ok (Any10 (newProtocolV10 (v9_gob r.1)), hs)
         else Err CE_unsupported)
  | Err e => (c, Err (CE_protocol e))
  | Panic => (c, Panic)
  | OutOfFuel => (c, OutOfFuel)
  end.

Definition selectProtocol (c : conn) : any_protocol :=
  if ProtocolVersion conf =? 11 then Any11 (newProtocolV11 c)
  else if ProtocolVersion conf =? 10 then Any10 (newProtocolV10 (newGob c))
  else Any9 (newProtocolV9 (Network conf) (NodeID conf) (ListenPort conf) (newGob c)).

(** ** The handshakes *)

Definition RejectWithShare (c : conn) (share : list Endpoint) : conn * outcome prot_error () :=
  let h := newHandshake conf 0 in
  let h := MkHandshake (h_Network h) (h_Version h) TypeRejectAlternative (h_NodeID h) (h_ListenPort h)
             (h_Loopback h) share in
  let r := SendHandshake h (selectProtocol c) in
  (any_conn r.1, r.2).

(** the peer of a handshake that succeeded: it is reported online, and a peer request
    is passed on *)
Definition establish (ref : nat) (id : Z) (ep : Endpoint) (incoming : bool) (typ : Z)
    (prot : any_protocol) (ctl : controller) : maneuver :=
  match newPeer conf ref id ep incoming with
  | Ok (peer, st) =>
      let ctl := MkController (c_peers ctl) (<[ref := st]> (heap ctl)) (statuses ctl ++ [MkStatus peer true])
                   (bans ctl) (bans_nil ctl) (special ctl) (specialEndpoints ctl) in
      let req := newParcel TypePeerRequest (str_bytes "Peer Request") in
      let parcels := if typ =? TypePeerRequest then [(peer, MkParcel (ptype req) (Hash peer) (Payload req))] else [] in
      MkManeuver (any_conn prot) false ctl parcels [] (Ok (peer, prot))
  | Err _ | Panic => MkManeuver (any_conn prot) false ctl [] [] Panic
  | OutOfFuel => MkManeuver (any_conn prot) false ctl [] [] OutOfFuel
  end.

(** the connection is closed and the error returned *)
Definition hs_fail (c : conn) (ctl : controller) (e : outcome connect_error (Peer * any_protocol)) : maneuver :=
  MkManeuver c true ctl [] [] e.

(** an error, a panic or a lack of fuel, without a value *)
Definition no_value {E A B} (o : outcome E A) : outcome E B :=
  match o with Err e => Err e | OutOfFuel => OutOfFuel | _ => Panic end.

Definition set_Port (port : string) (ep : Endpoint) : Endpoint := MkEndpoint (IP ep) port.

Definition handshakeIncoming (now : Z) (ref : nat) (con : conn) (ep : Endpoint) (ctl : controller) (g : G)
    : outcome () (maneuver * G) :=
  match allowIncoming now ctl (IP ep) with
  | Ok _ =>
      let (c, detected) := detectProtocolFromFirstMessage con in
      Ok (match detected with
          | Ok (prot, handshake) =>
              let reply := set_Version (h_Version handshake) (newHandshake conf instanceID) in
              let sent := SendHandshake reply prot in
              match sent.2 with
              | Ok _ =>
                  establish ref (h_NodeID handshake) (set_Port (h_ListenPort handshake) ep) true
                    (h_Type handshake) sent.1 ctl
              | e => hs_fail (any_conn sent.1) ctl (no_value (ce_protocol e))
              end
          | e => hs_fail c ctl (no_value e)
          end, g)
  | _ =>
      makePeerShare order conf ep ctl g ≫= λ '(share, ctl, g),
      let r := RejectWithShare con share in
      match r.2 with
      | Ok _ | Err _ => Ok (hs_fail r.1 ctl (Err CE_refused), g)
      | Panic => Panic
      | OutOfFuel => OutOfFuel
      end
  end.

(** a new protocol object reads the reply, but the types the desired one has sent
    are known to the other end: protocol 9 keeps its encoder *)
Definition keep_encoder (desired prot : any_protocol) : any_protocol :=
  match prot with
  | Any9 v9new =>
      let with_sent (g : gob) :=
        Any9 (set_gob (MkGob (gob_conn (v9_gob v9new)) (gob_types (v9_gob v9new)) (gob_sent g)) v9new) in
      match desired with
      | Any10 d => with_sent (v10_gob d)
      | Any9 d => with_sent (v9_gob d)
      | Any11 _ => prot
      end
  | _ => prot
  end.

Definition handshakeOutgoing (ref : nat) (con : conn) (ep : Endpoint) (ctl : controller) : maneuver :=
  let handshake := newHandshake conf instanceID in
  let desired := SendHandshake handshake (selectProtocol con) in
  match desired.2 with
  | Ok _ =>
      let (c, detected) := detectProtocolFromFirstMessage (any_conn desired.1) in
      match detected with
      | Ok (prot, reply) =>
          if h_Loopback reply =? h_Loopback handshake then hs_fail c ctl (Err CE_loopback)
          else
            let prot := keep_encoder desired.1 prot in
            if h_Type reply =? TypeRejectAlternative then
              MkManeuver c true ctl [] (h_Alternatives reply) (Err CE_rejected)
            else establish ref (h_NodeID reply) ep false (h_Type reply) prot ctl
      | e => hs_fail c ctl (no_value e)
      end
  | e => hs_fail (any_conn desired.1) ctl (no_value (ce_protocol e))
  end.

(** ** Dialing *)

Record dialed := MkDialed {
  dd_dialer : Dialer;
  dd_ctl : controller;
  dd_parcels : list (Peer * Parcel);
  dd_peer : option (Peer * any_protocol);
  dd_alternatives : list Endpoint;
}.

Definition fifty_years : Z := Hour * 24 * 365 * 50.

(** [con]: the connection the operating system makes, if it does *)
Definition controller_Dial (now now' now_ban : Z) (con : option conn) (ref : nat) (ep : Endpoint)
    (d : Dialer) (ctl : controller) : outcome () dialed :=
  match Dialer_Dial now now' con d ep with
  | (d, Ok con) =>
      let m := handshakeOutgoing ref con ep ctl in
      match mv_result m with
      | Ok peer => Ok (MkDialed d (mv_ctl m) (mv_parcels m) (Some peer) [])
      | Err CE_loopback =>
          banEndpoint order ep fifty_years now_ban (mv_ctl m) ≫= λ ctl,
          Ok (MkDialed d ctl (mv_parcels m) None [])
      | Err _ =>
          if 0 <? zlen (mv_alternatives m)
          then Ok (MkDialed d (mv_ctl m) (mv_parcels m) None (mv_alternatives m))
          else Ok (MkDialed d (mv_ctl m) (mv_parcels m) None [])
      | Panic => Panic
      | OutOfFuel => OutOfFuel
      end
  | (d, _) => Ok (MkDialed d ctl [] None [])
  end.

End Connections.
