(* ===== verification/ConnectionsSpec.v ===== *)
(** * What the handshakes establish

    Two nodes that make a connection agree on a protocol, and their protocol objects
    understand each other from then on; what dialing leaves behind. *)
From S2P Require Import Prelude GoStd NetworkId Endpoint Parcel ParcelChannel PeerHashCache Configuration.
From S2P Require Import PeerStore Handshake Stream Gob GobSpec Json JsonSpec Crc V11Wire V11Codec V11Decode.
From S2P Require Import Protocol ProtocolV9 ProtocolV10 ProtocolV11 Legacy.
From S2P Require Import Rng Dialer Controller Cat Connections.

(** ** Reading a handshake leaves the writing side alone *)

Definition conn_writer (c c' : conn) : Prop := c_out c' = c_out c ∧ c_room c' = c_room c.

Definition v11_reads {A} (m : io ProtocolV11 A) : Prop := ∀ p, conn_writer (rw p) (rw (m p).1).

Lemma v11_reads_check n : v11_reads (readCheck n).
Proof. by intros p. Qed.
Lemma v11_reads_bind {A B} (m : io ProtocolV11 A) (f : A → io ProtocolV11 B) :
  v11_reads m → (∀ a, v11_reads (f a)) → v11_reads (io_bind m f).
Proof.
  intros Hm Hf p. unfold io_bind. specialize (Hm p). destruct (m p) as [p1 [a| | |]]; try done.
  destruct Hm as [Ho Hr], (Hf a p1) as [Ho' Hr']. cbn [fst] in *. split; congruence.
Qed.
Lemma v11_reads_handshake `{ProtoLib} : v11_reads V11_ReadHandshake.
Proof.
  apply v11_reads_bind; [apply v11_reads_check|]. intros sig. destruct (negb _); [done|].
  apply v11_reads_bind; [|done]. apply v11_reads_bind; [apply v11_reads_check|]. intros buf. cbv zeta.
  destruct (_ <? _); [done|]. by apply v11_reads_bind; [apply v11_reads_check|].
Qed.

Lemma V9_ReadHandshake_writer p : same_writer (v9_gob p) (v9_gob (V9_ReadHandshake p).1).
Proof.
  unfold V9_ReadHandshake, v9_read, with_gob, io_bind. cbn [fst snd].
  pose proof (Decode_writer t_V9Msg (v9_gob p)) as Hw.
  destruct (Decode t_V9Msg (v9_gob p)) as [g [v|[]| |]]; try done. cbn [fst snd wrap_gob] in *. rewrite bind_Ok.
  destruct (_ =? TypeRejectAlternative); [|by case_match].
  unfold io_lift. by destruct (unmarshal_endpoints _).
Qed.

(** ** The first bytes *)

(** a message that defines a type does not start like the signature of protocol 11 *)
Lemma def_not_signature i r rest :
  64 ≤ i < 2 ^ 31 → zlen (e_int (- i) ++ r) < 2 ^ 64 →
  4 ≤ zlen (e_bytes (e_int (- i) ++ r) ++ rest) →
  take 4 (e_bytes (e_int (- i) ++ r) ++ rest) ≠ V11Signature.
Proof.
  intros Hi Hlen _. unfold e_bytes. set (n := zlen (e_int (- i) ++ r)) in *.
  assert (0 ≤ n) by apply zlen_nonneg. clearbody n.
  unfold e_int. rewrite (proj2 (Z.ltb_lt _ _)) by lia. rewrite Z.opp_involutive.
  destruct (e_uint_spec n ltac:(lia)) as [(Hn & -> & _)|(Hn & k & c & Hk & Hc & -> & _)].
  - destruct (e_uint_spec (2 * (i - 1) + 1) ltac:(lia)) as [(Hi' & -> & Hv)|(_ & k & c & Hk & Hc & -> & _)];
      simpl; unfold V11Signature; intros [= _ E _]; apply (f_equal byte_val) in E.
    + rewrite Hv in E. change (byte_val x62) with 98 in E. lia.
    + rewrite Hc in E. change (byte_val x62) with 98 in E. lia.
  - simpl. unfold V11Signature. intros [= E _]. apply (f_equal byte_val) in E. rewrite Hc in E.
    change (byte_val x70) with 112 in E. lia.
Qed.

(** what a new encoder sends for a handshake *)
Lemma handshake_first id h g g' bytes :
  type_ids id → c_room (gob_conn g) = None → gob_sent g = ∅ →
  v9SendHandshake id h g = (g', Ok tt) → c_out (gob_conn g') = c_out (gob_conn g) ++ bytes →
  4 ≤ zlen bytes ∧ take 4 bytes ≠ V11Signature.
Proof.
  intros Hti Hup Hsent Hs Ho. unfold v9SendHandshake in Hs.
  set (d := ("V9Msg", [("Header", t_V9Header); ("Payload", TBytes)])%string).
  assert (Hd : d ∈ legacy_defs) by by left.
  pose proof (legacy_size id Hti d Hd) as Hsize.
  destruct (Encode id t_V9Msg (V9Msg_to (v9_handshake_msg h)) g) as [g2 r2] eqn:He.
  cbn [fst snd] in Hs. assert (g2 = g') as -> by congruence.
  assert (r2 = Ok tt) as -> by (by destruct r2 as [[]|[]| |]; simplify_eq/=). clear Hs.
  unfold Encode in He. change (defs t_V9Msg) with (d :: defs t_V9Header) in He. cbn [send_defs] in He.
  rewrite Hsent in He. rewrite decide_False in He by set_solver.
  destruct (gob_writeMessage_up (def_message id d) g Hup) as (c & Hw & Hc & Hco & _); [lia|].
  rewrite Hw in He. set (g1 := MkGob _ _ _) in He.
  destruct (defs_exchange id legacy_defs (legacy_ids id Hti) (defs t_V9Header) g1 Hc)
    as (g3 & frames & Hs3 & Hup3 & Ho3 & _).
  { intros d' Hd'. apply V9_in_legacy. by right. }
  rewrite Hs3 in He. unfold Gob.writeMessage in He. case_match; [done|]. rewrite Write_ok in He by done.
  simplify_eq/=. rewrite Ho3 in Ho. cbn [g1 gob_conn set_conn] in Ho. rewrite Hco in Ho.
  rewrite <-!app_assoc in Ho. apply app_inv_head in Ho. subst bytes.
  set (rest := frames ++ _).
  assert (Hlen : 4 ≤ zlen (e_bytes (def_message id d) ++ rest)).
  { unfold e_bytes. rewrite !zlen_app. pose proof (zlen_nonneg rest).
    pose proof (zlen_nonneg (e_uint (zlen (def_message id d)))).
    enough (4 ≤ zlen (def_message id d)) by lia. unfold def_message. rewrite zlen_app.
    pose proof (zlen_nonneg (e_int (- id d.1))).
    assert (∃ l, e_value (wireType_of id d) = [x03; x01; x01; x05] ++ l) as [l ->] by (by eexists).
    rewrite zlen_app. pose proof (zlen_nonneg l). change (zlen [x03; x01; x01; x05]) with 4. lia. }
  split; [done|]. unfold def_message in *. apply def_not_signature; [apply Hti|unfold tooBig in *; lia|done].
Qed.

(** ** A handshake that arrives *)

(** the handshakes of a connection that is made: without alternatives, each field
    within its width *)
Record plain_hs (h : Handshake) : Prop := {
  pl_Network : is_u32 (h_Network h);
  pl_Version : is_u16 (h_Version h);
  pl_Type : is_u16 (h_Type h);
  pl_NodeID : is_u32 (h_NodeID h);
  pl_Loopback : is_u64 (h_Loopback h);
  pl_ListenPort : zlen (str_bytes (h_ListenPort h)) ≤ 2 ^ 20;
  pl_Alternatives : h_Alternatives h = [];
  pl_accepts : h_Type h ≠ TypeRejectAlternative;
}.

Lemma plain_v9_ok h : plain_hs h → v9_hs_ok h.
Proof.
  intros [? ? ? ? ? ? Ha _]. split; try done; rewrite Ha; [constructor|].
  change (zlen (marshal_endpoints [])) with 4. lia.
Qed.

Lemma plain_v9_arrives h : plain_hs h → v9_arrives h = h.
Proof.
  intros [? ? ? ? ? ? Ha Ht]. unfold v9_arrives. rewrite (proj2 (Z.eqb_neq _ _) Ht), Ha.
  destruct h. simpl in *. by subst.
Qed.

Lemma plain_v11_ok h : plain_hs h → v11_hs_sendable h.
Proof.
  intros [Hn Hv Ht Hid Hl Hp Ha _]. unfold v11_hs_sendable. split_and!; [done..|].
  unfold enc_Handshake. cbn [v11_handshake hs_Type hs_Network hs_Version hs_NodeID hs_ListenPort hs_Loopback
    hs_Alternatives hs_unrecognized]. rewrite Ha. cbn [fmap list_fmap enc_repeated foldr].
  autorewrite with zlen. unfold is_u16, is_u32, is_u64, V11MaxParcelSize in *.
  pose proof (zlen_enc_delimited_ge x2a (str_bytes (h_ListenPort h)) ltac:(lia)).
  pose proof (u32_range (h_Type h)). pose proof (u32_range (h_Network h)). pose proof (u32_range (h_Version h)).
  pose proof (λ tag v Hv, zlen_enc_uint_le tag v Hv) as Hu. unfold is_u32, is_u64 in *.
  pose proof (Hu x08 (u32 (h_Type h)) ltac:(lia)). pose proof (Hu x10 (u32 (h_Network h)) ltac:(lia)).
  pose proof (Hu x18 (u32 (h_Version h)) ltac:(lia)). pose proof (Hu x20 (h_NodeID h) ltac:(lia)).
  pose proof (Hu x30 (h_Loopback h) ltac:(lia)). lia.
Qed.

Section Arrival.
Context `{ProtoLibLaws}.

(** the version both ends speak after a handshake of version [v] of the legacy format *)
Definition downgraded (conf : Configuration) (v : Z) : Z :=
  if (v =? 10) && (ProtocolVersion conf =? 9) then 9 else v.

Lemma legacy_arrival id h g :
  type_ids id → plain_hs h → c_room (gob_conn g) = None → gob_sent g = ∅ →
  ∃ g' bytes, v9SendHandshake id h g = (g', Ok tt) ∧ c_room (gob_conn g') = None ∧
    c_out (gob_conn g') = c_out (gob_conn g) ++ bytes ∧ c_in (gob_conn g') = c_in (gob_conn g) ∧
    gob_types g' = gob_types g ∧ (∀ n, n ∈ gob_sent g' ↔ n ∈ (defs t_V9Msg).*1) ∧
    ∀ conf c rest,
      bytes_in c = bytes ++ rest → c_room c = None → Handshake_Valid h conf = Ok tt →
      h_Version h ∈ [9; 10] →
      ∃ q, v9_in q = rest ∧ v9_out q = c_out c ∧ c_room (gob_conn (v9_gob q)) = None ∧
        gob_sent (v9_gob q) = ∅ ∧
        newProtocolV9 (Network conf) (NodeID conf) (ListenPort conf) (v9_gob q) = q ∧
        gob_link id legacy_defs (gob_sent g') (gob_types (v9_gob q)) ∧
        let v := downgraded conf (h_Version h) in
        detectProtocolFromFirstMessage conf c =
          (gob_conn (v9_gob q),
           Ok (if v =? 9 then Any9 q else Any10 (newProtocolV10 (v9_gob q)), set_Version v h)).
Proof.
  intros Hti Hpl Hup Hsent. pose proof (plain_v9_ok h Hpl) as Hok.
  destruct (handshake_exchange id h g Hti Hup Hok) as (g' & bytes & Hs & Hup' & Ho & Hi & Ht & Hse & Hx).
  exists g', bytes. split_and!; [done..| |].
  { intros n. rewrite Hse, Hsent. set_solver. }
  intros conf c rest Hb Hroom Hvalid Hver.
  set (q0 := newProtocolV9 (Network conf) (NodeID conf) (ListenPort conf) (newGob c)).
  assert (Hl : gob_link id legacy_defs (gob_sent g) (gob_types (v9_gob q0))).
  { rewrite Hsent. by apply fresh_link. }
  destruct (Hx q0 rest Hl Hb) as (q & Hr & Hb' & Hoq & Hsq & Hset & Hlq).
  rewrite plain_v9_arrives in Hr by done.
  rewrite (proj2 (Z.eqb_neq _ _) (pl_accepts _ Hpl)) in Hr. cbn [andb] in Hr.
  pose proof (V9_ReadHandshake_writer q0) as (_ & Hrq & _). rewrite Hr in Hrq. cbn [fst] in Hrq.
  exists q. split_and!; [done|done|by rewrite Hrq|by rewrite Hsq| |done|].
  { destruct q as [n i p gq]. unfold set_gob, q0, newProtocolV9 in *. by simplify_eq/=. }
  cbv zeta. destruct (handshake_first id h g g' bytes Hti Hup Hsent Hs Ho) as [Hlen Hsig].
  unfold detectProtocolFromFirstMessage, Peek. rewrite Hb, zlen_app. pose proof (zlen_nonneg rest).
  rewrite (proj2 (Z.ltb_ge _ _)) by lia. change (Z.to_nat 4) with 4%nat.
  rewrite take_app_le by (unfold zlen in Hlen; lia). rewrite bool_decide_false by done.
  fold q0. rewrite Hr. cbn [fst snd ce_protocol]. rewrite bind_Ok, Hvalid. cbn [ce_handshake]. rewrite bind_Ok.
  pose proof (proj1 (Handshake_Valid_Ok h conf) Hvalid) as [Hmin _].
  rewrite (proj2 (Z.ltb_ge _ _)) by done. unfold downgraded.
  assert (Hid : set_Version (h_Version h) h = h) by by destruct h.
  rewrite !elem_of_cons, elem_of_nil in Hver. destruct Hver as [E|[E|[]]]; rewrite E in Hid |- *.
  - cbn -[set_Version]. by rewrite Hid, E.
  - destruct (ProtocolVersion conf =? 9); cbn -[set_Version]; [done|]. by rewrite Hid, E.
Qed.
End Arrival.

(** *** Any protocol *)

Definition any_gob (p : any_protocol) : option gob :=
  match p with Any9 p => Some (v9_gob p) | Any10 p => Some (v10_gob p) | Any11 _ => None end.
Definition any_up (p : any_protocol) : Prop := c_room (any_conn p) = None.
(** no type has been sent yet *)
Definition any_fresh (p : any_protocol) : Prop :=
  match any_gob p with Some g => gob_sent g = ∅ | None => True end.
(** the codecs of a sender and a receiver agree *)
Definition codec_link (id : string → Z) (p q : any_protocol) : Prop :=
  match any_gob p, any_gob q with
  | Some g, Some g' => gob_link id legacy_defs (gob_sent g) (gob_types g')
  | None, None => True
  | _, _ => False
  end.
(** the handshake as the protocol sends it *)
Definition on_wire (p : any_protocol) (h : Handshake) : Handshake :=
  match p with Any9 _ => as_peer_request h | _ => h end.
(** protocol 9 or 10 *)
Definition is_legacy (p : any_protocol) : Prop := is_Some (any_gob p).
(** protocol 9 puts the settings of its node into every message *)
Definition any_conf (conf : Configuration) (p : any_protocol) : Prop :=
  match p with
  | Any9 p => newProtocolV9 (Network conf) (NodeID conf) (ListenPort conf) (v9_gob p) = p
  | _ => True
  end.
(** what is read with [p] when it has been sent as version [v] *)
Definition read_with (conf : Configuration) (p : any_protocol) (v : Z) : Z :=
  match p with Any11 _ => v | _ => downgraded conf v end.

Lemma plain_on_wire p h : plain_hs h → plain_hs (on_wire p h).
Proof.
  intros Hp. destruct p; [|done|done]. simpl. unfold as_peer_request. destruct (_ =? _); [|done].
  by destruct Hp.
Qed.
Lemma on_wire_fields p h :
  h_Version (on_wire p h) = h_Version h ∧ h_Loopback (on_wire p h) = h_Loopback h ∧
  h_NodeID (on_wire p h) = h_NodeID h ∧ h_ListenPort (on_wire p h) = h_ListenPort h.
Proof. destruct p; [|done|done]. simpl. unfold as_peer_request. by destruct (_ =? _). Qed.
Lemma on_wire_Valid p h conf : Handshake_Valid (on_wire p h) conf = Handshake_Valid h conf.
Proof. destruct p; [|done|done]. simpl. unfold as_peer_request. by destruct (_ =? _). Qed.

Section Negotiation.
Context `{ProtoLibLaws}.

Lemma v11_arrival h p :
  plain_hs h → v11_up p →
  ∃ p' bytes, V11_SendHandshake h p = (p', Ok tt) ∧ v11_up p' ∧ v11_in p' = v11_in p ∧
    v11_out p' = v11_out p ++ bytes ∧
    ∀ conf c rest, bytes_in c = bytes ++ rest → c_room c = None → Handshake_Valid h conf = Ok tt →
      ∃ q, v11_in q = rest ∧ v11_out q = c_out c ∧ v11_up q ∧
        detectProtocolFromFirstMessage conf c = (rw q, Ok (Any11 q, h)).
Proof.
  intros Hpl Hup. destruct (V11_handshake_through h p Hup (plain_v11_ok h Hpl))
    as (p' & bytes & Hs & Hup' & Hi & Ho & Hsig & Hx).
  exists p', bytes. split_and!; [done..|]. intros conf c rest Hb Hroom Hvalid.
  destruct (Hx (newProtocolV11 c) rest Hb) as (q & Hr & Hq).
  pose proof (v11_reads_handshake (newProtocolV11 c)) as [Hoq Hrq]. rewrite Hr in Hoq, Hrq. cbn [fst] in *.
  exists q. split_and!; [done|done|by unfold v11_up; rewrite Hrq|].
  assert (Hlen : 4 ≤ zlen bytes).
  { apply (f_equal length) in Hsig. rewrite length_take in Hsig.
    change (length V11Signature) with 4%nat in Hsig. unfold zlen. lia. }
  unfold detectProtocolFromFirstMessage, Peek. rewrite Hb, zlen_app. pose proof (zlen_nonneg rest).
  rewrite (proj2 (Z.ltb_ge _ _)) by lia. change (Z.to_nat 4) with 4%nat.
  rewrite take_app_le by (unfold zlen in Hlen; lia). rewrite bool_decide_true by done.
  rewrite Hr. cbn [fst snd ce_protocol]. rewrite bind_Ok, Hvalid. cbn [ce_handshake]. by rewrite bind_Ok.
Qed.

Section OneWay.
Context (id : string → Z) (Hti : type_ids id).
#[local] Instance the_protocol : Protocol any_protocol := Any_Protocol id.

(** A handshake sent with [p] arrives: the receiver finds the protocol, reads what
    has been sent, and stands behind it with a codec that agrees with the sender's. *)
Definition arrives (p : any_protocol) (h : Handshake) : Prop :=
  ∃ p' bytes, SendHandshake h p = (p', Ok tt) ∧ any_up p' ∧ Version p' = Version p ∧
    c_out (any_conn p') = c_out (any_conn p) ++ bytes ∧ bytes_in (any_conn p') = bytes_in (any_conn p) ∧
    match any_gob p, any_gob p' with
    | Some g, Some g' => gob_types g' = gob_types g ∧ (∀ n, n ∈ gob_sent g' ↔ n ∈ (defs t_V9Msg).*1)
    | None, None => True
    | _, _ => False
    end ∧ (∀ conf, any_conf conf p → any_conf conf p') ∧
    ∀ conf c rest,
      bytes_in c = bytes ++ rest → c_room c = None → Handshake_Valid h conf = Ok tt →
      (is_legacy p → h_Version h ∈ [9; 10]) →
      let v := read_with conf p (h_Version h) in
      ∃ q, detectProtocolFromFirstMessage conf c = (any_conn q, Ok (q, set_Version v (on_wire p h))) ∧
        bytes_in (any_conn q) = rest ∧ c_out (any_conn q) = c_out c ∧ any_up q ∧ any_fresh q ∧
        codec_link id p' q ∧ any_conf conf q ∧ Version q = match p with Any11 _ => 11 | _ => v end.

(** through gob, [wrap] puts the codec [g] back into the protocol object *)
Lemma arrives_legacy p h g wrap :
  plain_hs h → c_room (gob_conn g) = None → gob_sent g = ∅ →
  any_gob p = Some g → any_conn p = gob_conn g → (∀ g', any_gob (wrap g') = Some g') →
  (∀ g', any_conn (wrap g') = gob_conn g') → (∀ g', Version (wrap g') = Version p) →
  (∀ g' conf, any_conf conf p → any_conf conf (wrap g')) → (∀ g' r, v9SendHandshake id (on_wire p h) g = (g', r) → SendHandshake h p = (wrap g', r)) →
  arrives p h.
Proof.
  intros Hpl Hup Hfresh Hg Hc Hwg Hwc Hwver Hwconf Hsend. pose proof (on_wire_fields p h) as (Hwv & _).
  destruct (legacy_arrival id (on_wire p h) g Hti (plain_on_wire p h Hpl) Hup Hfresh)
    as (g' & bytes & Hs & Hup' & Ho & Hi & Ht & Hse & Hx).
  exists (wrap g'), bytes. rewrite (Hsend _ _ Hs), Hg, Hwg. unfold any_up. rewrite !Hwc, Hc.
  split_and!; [done|done|done|done|unfold bytes_in; by rewrite Hi|done|done|intros conf; apply Hwconf|].
  intros conf c rest Hb Hroom Hvalid Hv. rewrite <-(on_wire_Valid p) in Hvalid.
  assert (Hv' : h_Version h ∈ [9; 10]) by (apply Hv; unfold is_legacy; rewrite Hg; by eexists).
  destruct (Hx conf c rest Hb Hroom Hvalid) as (q & Hq & Hoq & Hupq & Hsq & Hnew & Hlq & Hd);
    [by rewrite Hwv|].
  rewrite Hwv in Hd. cbv zeta.
  assert (Hrw : read_with conf p (h_Version h) = downgraded conf (h_Version h)) by by destruct p.
  rewrite Hrw. set (v := downgraded conf (h_Version h)) in *.
  assert (Hvq : v = 9 ∨ v = 10).
  { unfold v, downgraded. rewrite !elem_of_cons, elem_of_nil in Hv'. destruct Hv' as [->|[->|[]]]; [by left|].
    destruct (ProtocolVersion conf =? 9); [by left|by right]. }
  exists (if v =? 9 then Any9 q else Any10 (newProtocolV10 (v9_gob q))).
  unfold codec_link, any_fresh. rewrite Hwg.
  destruct Hvq as [Ev|Ev]; rewrite Ev in Hd |- *; cbn -[set_Version]; split_and!; try done; by destruct p.
Qed.

Lemma arrival p h : plain_hs h → any_up p → any_fresh p → arrives p h.
Proof.
  intros Hpl Hup Hfresh. destruct p as [p|p|p].
  - apply (arrives_legacy _ _ (v9_gob p) (λ g, Any9 (set_gob g p))); try done.
    { intros g' conf. simpl. destruct p. unfold newProtocolV9, set_gob. simpl. by intros [= <- <- <-]. }
    intros g' r E.
    cbn. unfold V9_SendHandshake, with_gob, any_io. simpl in E. by rewrite E.
  - apply (arrives_legacy _ _ (v10_gob p) (λ g, Any10 (MkProtocolV10 g))); try done. intros g' r E.
    cbn. unfold V10_SendHandshake, with_gob10, any_io. simpl in E. by rewrite E.
  - destruct (v11_arrival h p Hpl Hup) as (p' & bytes & Hs & Hup' & Hi & Ho & Hx).
    exists (Any11 p'), bytes. cbn [SendHandshake the_protocol Any_Protocol]. rewrite Hs.
    split_and!; [done..|]. intros conf c rest Hb Hroom Hvalid _.
    destruct (Hx conf c rest Hb Hroom Hvalid) as (q & Hq & Hoq & Hupq & Hd).
    exists (Any11 q). simpl. split_and!; try done. rewrite Hd. by destruct h.
Qed.
End OneWay.

Lemma detect_writer conf c : conn_writer c (detectProtocolFromFirstMessage conf c).1.
Proof.
  unfold detectProtocolFromFirstMessage. destruct (Peek 4 c); try done. case_bool_decide; cbn [fst].
  - apply v11_reads_handshake.
  - pose proof (V9_ReadHandshake_writer (newProtocolV9 (Network conf) (NodeID conf) (ListenPort conf) (newGob c)))
      as (? & ? & _). by split.
Qed.

Lemma detect_conn conf c c' prot hs :
  detectProtocolFromFirstMessage conf c = (c', Ok (prot, hs)) → any_conn prot = c'.
Proof.
  unfold detectProtocolFromFirstMessage. destruct (Peek 4 c); try done. case_bool_decide; intros [= <- E].
  - apply bind_Ok_inv in E as (h1 & _ & E). apply bind_Ok_inv in E as ([] & _ & E). by simplify_eq.
  - apply bind_Ok_inv in E as (h1 & _ & E). apply bind_Ok_inv in E as ([] & _ & E).
    apply return_err_if_Ok in E as [_ E]. cbv zeta in E. repeat case_match; by simplify_eq.
Qed.

Lemma keep_encoder_conn d p : any_conn (keep_encoder d p) = any_conn p.
Proof. destruct p as [p| |]; [|done..]. by destruct d. Qed.
Lemma keep_encoder_Version id d p :
  Version (Protocol:=Any_Protocol id) (keep_encoder d p) = Version (Protocol:=Any_Protocol id) p.
Proof. destruct p as [p| |]; [|done..]. by destruct d. Qed.

Lemma keep_encoder_conf conf d p : any_conf conf p → any_conf conf (keep_encoder d p).
Proof.
  destruct p as [[n i port g]| |]; [|done..]. simpl. unfold newProtocolV9, set_gob. simpl.
  intros [= <- <- <-]. by destruct d.
Qed.

Lemma establish_conn conf ref id ep incoming typ prot ctl :
  mv_conn (establish conf ref id ep incoming typ prot ctl) = any_conn prot.
Proof. unfold establish. by destruct (newPeer conf ref id ep incoming) as [[]| | |]. Qed.

Lemma newPeer_ok conf ref id ep incoming :
  (PeerResendFilter conf = true → 0 ≤ PeerResendBuckets conf) →
  ∃ st, newPeer conf ref id ep incoming = Ok (MkPeer ref (peer_Hash ep id) ep incoming, st) ∧
    ps_stopped st = false ∧ ∀ pr, ps_resend st = Some pr → phc_stopped pr = false.
Proof.
  intros Hb. unfold newPeer. destruct (PeerResendFilter conf).
  - unfold NewPeerHashCache. rewrite (proj2 (Z.ltb_ge _ _)) by auto.
    eexists. split_and!; [done|done|]. by intros pr [= <-].
  - by eexists.
Qed.

(** what the dialing side has written when it is done *)
Lemma outgoing_out id conf i ref c ep ctl p' :
  SendHandshake (Protocol:=Any_Protocol id) (newHandshake conf i) (selectProtocol conf c) = (p', Ok tt) →
  c_out (mv_conn (handshakeOutgoing id conf i ref c ep ctl)) = c_out (any_conn p').
Proof.
  intros Hs. unfold handshakeOutgoing. rewrite Hs. cbn [fst snd].
  pose proof (detect_writer conf (any_conn p')) as [Hw _].
  destruct (detectProtocolFromFirstMessage conf (any_conn p')) as [c' d] eqn:Hd. cbn [fst] in Hw.
  destruct d as [[prot reply]| | |]; try done. apply detect_conn in Hd.
  destruct (_ =? _); [done|]. destruct (_ =? TypeRejectAlternative); [done|].
  by rewrite establish_conn, keep_encoder_conn, Hd.
Qed.
(** a configuration nodes connect with *)
Record conf_ok (conf : Configuration) : Prop := {
  co_Network : is_u32 (Network conf);
  co_NodeID : is_u32 (NodeID conf);
  co_Version : ProtocolVersion conf ∈ [9; 10; 11];
  co_port : port_in_range (ListenPort conf);
  co_port_length : zlen (str_bytes (ListenPort conf)) ≤ 2 ^ 20;
  co_buckets : PeerResendFilter conf = true → 0 ≤ PeerResendBuckets conf;
}.

Lemma newHandshake_plain conf i v :
  conf_ok conf → is_u64 i → is_u16 v → plain_hs (set_Version v (newHandshake conf i)).
Proof. intros [] Hi Hv. split; try done; unfold TypeHandshake; unfold is_u16; simpl; lia. Qed.

Lemma newHandshake_accepted conf conf' i v :
  conf_ok conf → Network conf = Network conf' → ProtocolVersionMinimum conf' ≤ v →
  Handshake_Valid (set_Version v (newHandshake conf i)) conf' = Ok tt.
Proof. intros [] Hn Hv. apply Handshake_Valid_Ok. by split_and!. Qed.

Lemma selectProtocol_facts id conf c :
  conf_ok conf →
  any_conn (selectProtocol conf c) = c ∧ any_fresh (selectProtocol conf c) ∧
  any_conf conf (selectProtocol conf c) ∧
  Version (Protocol:=Any_Protocol id) (selectProtocol conf c) = ProtocolVersion conf ∧
  match any_gob (selectProtocol conf c) with Some g => gob_types g = builtin_types | None => True end.
Proof.
  intros Hok. pose proof (co_Version _ Hok) as Hv. unfold selectProtocol.
  rewrite !elem_of_cons, elem_of_nil in Hv. destruct Hv as [->|[->|[->|[]]]]; by split_and!.
Qed.

(** the version two nodes speak, [a] the one that dials *)
Definition agreed (a b : Configuration) : Z := downgraded b (ProtocolVersion a).

(** the protocol objects understand each other: what [legacy_delivery] and
    [V11_delivery] ask of a sender and a receiver *)
Definition linked (id : string → Z) (p q : any_protocol) : Prop :=
  match p, q with
  | Any9 p, Any9 q => v9_linked id p q
  | Any10 p, Any10 q => v10_linked id p q
  | Any11 _, Any11 _ => True
  | _, _ => False
  end.
Definition ready (p : any_protocol) : Prop :=
  match p with Any9 p => v9_up p | Any10 p => v10_up p | Any11 p => v11_up p end.

Lemma ready_up conf p : conf_ok conf → any_conf conf p → any_up p → ready p.
Proof.
  intros [] Hc Hup. destruct p as [p| |]; [|done..]. simpl in *. rewrite <-Hc. by unfold v9_up.
Qed.

(** only the types of parcels matter after the handshake: a protocol 10 object that
    starts with a new encoder, or a protocol 9 object that goes on with the encoder
    of the handshake, agrees with the other end *)
Lemma linked_of_codec id p q p' q' g h gp :
  any_gob p = Some g → any_gob q = Some h → gob_link id legacy_defs (gob_sent g) (gob_types h) →
  (∀ n, n ∈ gob_sent g ↔ n ∈ (defs t_V9Msg).*1) →
  (∃ h', any_gob q' = Some h' ∧ gob_types h' = gob_types h) →
  any_gob p' = Some gp →
  match p', q' with
  | Any9 _, Any9 _ => gob_sent gp = gob_sent g
  | Any10 _, Any10 _ => gob_sent gp = ∅ ∨ gob_sent gp = gob_sent g
  | _, _ => False
  end → linked id p' q'.
Proof.
  intros Hp Hq Hl Hsent (h' & Hh' & Hth) Hp' Hm. rewrite <-Hth in Hl. destruct p' as [p'|p'|p'], q' as [q'|q'|q']; try done; simplify_eq/=.
  - apply (gob_link_weaken _ _ _ _ _ _ Hl); [apply V9_in_legacy|]. intros d _. by rewrite Hm.
  - apply (gob_link_weaken _ _ _ _ _ _ Hl); [apply V10_in_legacy|]. intros d Hd.
    destruct Hm as [Hm|Hm]; rewrite Hm; [|done]. rewrite Hsent.
    assert (d.1 = "V10Msg"%string) as ->.
    { unfold t_V10Msg in Hd. simpl in Hd. rewrite list_elem_of_singleton in Hd. by subst d. }
    split; [set_solver|]. intros Hin. exfalso. revert Hin. apply (bool_decide_unpack _). by vm_compute.
Qed.

Lemma Version_shape id p :
  match Version (Protocol:=Any_Protocol id) p with
  | 9 => ∃ q, p = Any9 q
  | 10 => ∃ q, p = Any10 q
  | 11 => ∃ q, p = Any11 q
  | _ => False
  end.
Proof. destruct p; by eexists. Qed.

Lemma read_with_agreed a b c :
  conf_ok a → read_with b (selectProtocol a c) (ProtocolVersion a) = agreed a b.
Proof.
  intros Hok. pose proof (co_Version _ Hok) as Hv. unfold selectProtocol, agreed, downgraded.
  rewrite !elem_of_cons, elem_of_nil in Hv. by destruct Hv as [->|[->|[->|[]]]].
Qed.

(** the two protocol objects of a connection agree: [p0] and [p] are the dialing
    node's before and after it sent its handshake, [q0] and [q] the accepting
    node's, and [r] is what the dialing node reads the reply with *)
Lemma both_linked ida idb p q0 q r v :
  codec_link ida p q0 → codec_link idb q r →
  (∀ g, any_gob p = Some g → ∀ n, n ∈ gob_sent g ↔ n ∈ (defs t_V9Msg).*1) →
  (∀ g, any_gob q = Some g → ∀ n, n ∈ gob_sent g ↔ n ∈ (defs t_V9Msg).*1) →
  match any_gob q0, any_gob q with
  | Some g, Some g' => gob_types g' = gob_types g
  | None, None => True
  | _, _ => False
  end →
  any_fresh r → v ∈ [9; 10; 11] →
  Version (Protocol:=Any_Protocol ida) q = v → Version (Protocol:=Any_Protocol ida) r = v →
  linked ida (keep_encoder p r) q ∧ linked idb q (keep_encoder p r).
Proof.
  intros Hpq Hqr Hp Hq Htypes Hfresh Hv Hvq Hvr.
  pose proof (Version_shape ida q) as Sq. pose proof (Version_shape ida r) as Sr.
  rewrite Hvq in Sq. rewrite Hvr in Sr. unfold codec_link in Hpq, Hqr.
  rewrite !elem_of_cons, elem_of_nil in Hv. destruct Hv as [->|[->|[->|[]]]];
    destruct Sq as [q' ->], Sr as [r' ->]; [| |done]; cbn [any_gob] in *;
    (destruct (any_gob q0) as [gq0|] eqn:E0; [|done]);
    (destruct (any_gob p) as [gp|] eqn:Ep; [|done]).
  - assert (Hk : ∃ k, keep_encoder p (Any9 r') = Any9 k ∧ gob_sent (v9_gob k) = gob_sent gp ∧
      gob_types (v9_gob k) = gob_types (v9_gob r')).
    { destruct p as [p|p|p]; simplify_eq/=; by eexists. }
    destruct Hk as (k & -> & Hks & Hkt). split.
    + by eapply (linked_of_codec ida p q0 (Any9 k) (Any9 q') gp gq0);
        [done..|apply (Hp gp)|eexists| |].
    + by eapply (linked_of_codec idb (Any9 q') (Any9 r') (Any9 q') (Any9 k));
        [done..|apply (Hq (v9_gob q'))|eexists| |].
  - change (keep_encoder p (Any10 r')) with (Any10 r'). split.
    + eapply (linked_of_codec ida p q0 (Any10 r') (Any10 q') gp gq0);
        [done..|by apply (Hp gp)|by eexists|done|by left].
    + eapply (linked_of_codec idb (Any10 q') (Any10 r') (Any10 q') (Any10 r'));
        [done..|by apply (Hq (v10_gob q'))|by eexists|done|by right].
Qed.

Context {G : Type} `{Rng G}.

(** the accepting side of a handshake that has arrived *)
Lemma incoming_established id order b i now ref con ep ctl g c q hs q' :
  conf_ok b → allowIncoming b now ctl (IP ep) = Ok tt →
  detectProtocolFromFirstMessage b con = (c, Ok (q, hs)) →
  SendHandshake (Protocol:=Any_Protocol id) (set_Version (h_Version hs) (newHandshake b i)) q = (q', Ok tt) →
  let peer := MkPeer ref (peer_Hash (set_Port (h_ListenPort hs) ep) (h_NodeID hs)) (set_Port (h_ListenPort hs) ep) true in
  ∃ m, handshakeIncoming id order b i now ref con ep ctl g = Ok (m, g) ∧
    mv_result m = Ok (peer, q') ∧ mv_conn m = any_conn q' ∧ mv_closed m = false ∧
    statuses (mv_ctl m) = statuses ctl ++ [MkStatus peer true].
Proof.
  intros Hok Hallow Hd Hs peer. unfold handshakeIncoming. rewrite Hallow, Hd. cbn [fst snd]. rewrite Hs. cbn [fst snd].
  unfold establish. destruct (newPeer_ok b ref (h_NodeID hs) (set_Port (h_ListenPort hs) ep) true)
    as (st & -> & _); [apply (co_buckets _ Hok)|]. by eexists.
Qed.

(** the dialing side of a handshake that is answered *)
Lemma outgoing_established id a i ref con ep ctl p c q reply :
  conf_ok a → SendHandshake (Protocol:=Any_Protocol id) (newHandshake a i) (selectProtocol a con) = (p, Ok tt) →
  detectProtocolFromFirstMessage a (any_conn p) = (c, Ok (q, reply)) →
  h_Loopback reply ≠ i → h_Type reply ≠ TypeRejectAlternative →
  let m := handshakeOutgoing id a i ref con ep ctl in
  let peer := MkPeer ref (peer_Hash ep (h_NodeID reply)) ep false in
  mv_result m = Ok (peer, keep_encoder p q) ∧ mv_conn m = any_conn q ∧ mv_closed m = false ∧
  statuses (mv_ctl m) = statuses ctl ++ [MkStatus peer true].
Proof.
  intros Hok Hs Hd Hl Ht. unfold handshakeOutgoing. rewrite Hs. cbn [fst snd]. rewrite Hd.
  change (h_Loopback (newHandshake a i)) with i.
  rewrite (proj2 (Z.eqb_neq _ _) Hl), (proj2 (Z.eqb_neq _ _) Ht). unfold establish.
  destruct (newPeer_ok a ref (h_NodeID reply) ep false) as (st & -> & _); [apply (co_buckets _ Hok)|].
  simpl. by rewrite keep_encoder_conn.
Qed.

(** all types of the handshake have been sent, and no others *)
Definition sent_handshake (p : any_protocol) : Prop :=
  ∀ g, any_gob p = Some g → ∀ n, n ∈ gob_sent g ↔ n ∈ (defs t_V9Msg).*1.

Lemma agreed_cases a b :
  conf_ok a → agreed a b ∈ [9; 10; 11] ∧ is_u16 (agreed a b) ∧ downgraded a (agreed a b) = agreed a b ∧
  (agreed a b = 11 ↔ ProtocolVersion a = 11).
Proof.
  intros Hok. pose proof (co_Version _ Hok) as Hv. unfold agreed, downgraded, is_u16.
  rewrite !elem_of_cons, elem_of_nil in *. destruct Hv as [Hv|[Hv|[Hv|[]]]]; rewrite Hv; simpl;
    [lia| |lia]. destruct (ProtocolVersion b =? 9); simpl; lia.
Qed.

(** the first half: what [a] sends arrives at [b] *)
Lemma request_arrives id a b i cA ref ep ctl :
  type_ids id → conf_ok a → Network a = Network b → ProtocolVersionMinimum b ≤ ProtocolVersion a →
  is_u64 i → c_room cA = None → c_out cA = [] →
  ∃ p, SendHandshake (Protocol:=Any_Protocol id) (newHandshake a i) (selectProtocol a cA) = (p, Ok tt) ∧
    any_up p ∧ bytes_in (any_conn p) = bytes_in cA ∧ sent_handshake p ∧
    ∀ cB rest, bytes_in cB = c_out (mv_conn (handshakeOutgoing id a i ref cA ep ctl)) ++ rest →
      c_room cB = None →
      ∃ q hs, detectProtocolFromFirstMessage b cB = (any_conn q, Ok (q, hs)) ∧
        bytes_in (any_conn q) = rest ∧ c_out (any_conn q) = c_out cB ∧ any_up q ∧ any_fresh q ∧
        codec_link id p q ∧ any_conf b q ∧
        Version (Protocol:=Any_Protocol id) q = agreed a b ∧
        h_Version hs = agreed a b ∧ h_NodeID hs = NodeID a ∧ h_ListenPort hs = ListenPort a.
Proof.
  intros Hid Hok Hnet Hmin Hi Hup Hout. destruct (agreed_cases a b Hok) as (_ & _ & _ & H11).
  pose proof (co_Version _ Hok) as Hv.
  destruct (selectProtocol_facts id a cA Hok) as (Hc & Hf & _ & Hver & _).
  assert (Hpl : plain_hs (newHandshake a i)).
  { apply (newHandshake_plain a i (ProtocolVersion a) Hok Hi).
    unfold is_u16. rewrite !elem_of_cons, elem_of_nil in Hv. lia. }
  destruct (arrival id Hid (selectProtocol a cA) (newHandshake a i) Hpl)
    as (p & bytes & Hs & Hup' & _ & Ho & Hin & Hg & _ & Hx); [by unfold any_up; rewrite Hc|done|].
  exists p. rewrite Hc in Hin. split_and!; [done|done|done| |].
  { intros g Eg. rewrite Eg in Hg. by destruct (any_gob (selectProtocol a cA)); destruct Hg. }
  intros cB rest Hb HuB. rewrite (outgoing_out id a i ref cA ep ctl p Hs), Ho, Hc, Hout in Hb.
  destruct (Hx b cB rest Hb HuB) as (q & Hd & ? & ? & ? & ? & ? & ? & Hvq).
  { exact (newHandshake_accepted a b i (ProtocolVersion a) Hok Hnet Hmin). }
  { change (h_Version (newHandshake a i)) with (ProtocolVersion a). unfold is_legacy, selectProtocol.
    rewrite !elem_of_cons, elem_of_nil in *. destruct Hv as [->|[->|[->|[]]]]; [auto|auto|].
    by intros [? ?]. }
  change (h_Version (newHandshake a i)) with (ProtocolVersion a) in *. rewrite (read_with_agreed a b cA Hok) in *.
  destruct (on_wire_fields (selectProtocol a cA) (newHandshake a i)) as (_ & _ & HN & HP).
  exists q, (set_Version (agreed a b) (on_wire (selectProtocol a cA) (newHandshake a i))).
  split_and!; try done. etrans; [exact Hvq|]. unfold selectProtocol, agreed, downgraded.
  rewrite !elem_of_cons, elem_of_nil in Hv. by destruct Hv as [->|[->|[->|[]]]].
Qed.

(** the second half: what [b] answers with [q] arrives at [a] *)
Lemma reply_arrives id a b i q :
  type_ids id → conf_ok a → conf_ok b → Network a = Network b → ProtocolVersionMinimum a ≤ agreed a b →
  is_u64 i → any_up q → any_fresh q → any_conf b q →
  Version (Protocol:=Any_Protocol id) q = agreed a b →
  ∃ q' bytes, SendHandshake (Protocol:=Any_Protocol id) (set_Version (agreed a b) (newHandshake b i)) q = (q', Ok tt) ∧
    any_up q' ∧ any_conf b q' ∧ sent_handshake q' ∧ bytes_in (any_conn q') = bytes_in (any_conn q) ∧
    c_out (any_conn q') = c_out (any_conn q) ++ bytes ∧
    Version (Protocol:=Any_Protocol id) q' = agreed a b ∧
    match any_gob q, any_gob q' with
    | Some g, Some g' => gob_types g' = gob_types g
    | None, None => True
    | _, _ => False
    end ∧
    ∀ c rest, bytes_in c = bytes ++ rest → c_room c = None →
      ∃ r reply, detectProtocolFromFirstMessage a c = (any_conn r, Ok (r, reply)) ∧
        bytes_in (any_conn r) = rest ∧ any_up r ∧ any_fresh r ∧ codec_link id q' r ∧ any_conf a r ∧
        Version (Protocol:=Any_Protocol id) r = agreed a b ∧
        h_Loopback reply = i ∧ h_Type reply ≠ TypeRejectAlternative ∧ h_NodeID reply = NodeID b.
Proof.
  intros Hid Hoka Hokb Hnet Hmin Hi Hup Hf Hconf Hver. set (v := agreed a b) in *.
  destruct (agreed_cases a b Hoka) as (Hv & Hv16 & Hdown & _). fold v in Hv, Hv16, Hdown.
  set (h := set_Version v (newHandshake b i)).
  assert (Hpl : plain_hs h) by by apply newHandshake_plain.
  destruct (arrival id Hid q h Hpl Hup Hf) as (q' & bytes & Hs & Hup' & Hver' & Ho & Hin & Hg & Hc' & Hx).
  exists q', bytes. split_and!; try done; [by apply Hc'| |by etrans; [exact Hver'|]| |].
  { intros g Eg. rewrite Eg in Hg. by destruct (any_gob q); destruct Hg. }
  { destruct (any_gob q), (any_gob q'); try done. by destruct Hg. }
  intros c rest Hb Hc. assert (Hshape := Version_shape id q). rewrite Hver in Hshape.
  destruct (Hx a c rest Hb Hc) as (r & Hd & ? & _ & ? & ? & ? & ? & Hvr).
  { by apply newHandshake_accepted. }
  { intros [g Hleg]. change (h_Version h) with v. rewrite !elem_of_cons, elem_of_nil in *.
    destruct Hv as [Hv|[Hv|[Hv|[]]]]; [auto|auto|]. rewrite Hv in Hshape. by destruct Hshape as [? ->]. }
  change (h_Version h) with v in *.
  assert (Hrw : read_with a q v = v) by (destruct q; [exact Hdown|exact Hdown|done]).
  rewrite Hrw in *. destruct (on_wire_fields q h) as (_ & HL & HN & _).
  exists r, (set_Version v (on_wire q h)). split_and!; try done.
  - etrans; [exact Hvr|]. rewrite !elem_of_cons, elem_of_nil in Hv.
    destruct Hv as [Hv|[Hv|[Hv|[]]]]; rewrite Hv in Hshape |- *; by destruct Hshape as [? ->].
  - apply (pl_accepts _ (plain_on_wire q h Hpl)).
Qed.

Lemma negotiation_lemma ida idb order a b iA iB cA cB restA restB ctlA ctlB
    refA refB epA epB now g :
  type_ids ida → type_ids idb → conf_ok a → conf_ok b → Network a = Network b →
  ProtocolVersionMinimum b ≤ ProtocolVersion a → ProtocolVersionMinimum a ≤ agreed a b →
  is_u64 iA → is_u64 iB → iA ≠ iB →
  c_room cA = None → c_room cB = None → c_out cA = [] → c_out cB = [] →
  allowIncoming b now ctlB (IP epA) = Ok tt →
  let hsA := handshakeOutgoing ida a iA refA cA epB ctlA in
  bytes_in cB = c_out (mv_conn hsA) ++ restB →
  let peerB := MkPeer refB (peer_Hash (set_Port (ListenPort a) epA) (NodeID a)) (set_Port (ListenPort a) epA) true in
  let peerA := MkPeer refA (peer_Hash epB (NodeID b)) epB false in
  ∃ hsB pB, handshakeIncoming idb order b iB now refB cB epA ctlB g = Ok (hsB, g) ∧
    mv_result hsB = Ok (peerB, pB) ∧ mv_closed hsB = false ∧ bytes_in (any_conn pB) = restB ∧
    Version (Protocol:=Any_Protocol idb) pB = agreed a b ∧ ready pB ∧
    (bytes_in cA = c_out (mv_conn hsB) ++ restA →
     ∃ pA, mv_result hsA = Ok (peerA, pA) ∧ mv_closed hsA = false ∧ bytes_in (any_conn pA) = restA ∧
       Version (Protocol:=Any_Protocol ida) pA = agreed a b ∧ ready pA ∧
       linked ida pA pB ∧ linked idb pB pA).
Proof.
  intros Hida Hidb Hca Hcb Hnet Hminb Hmina HiA HiB Hi HuA HuB HoA HoB Hallow hsA HinB peerB peerA.
  destruct (request_arrives ida a b iA cA refA epB ctlA Hida Hca Hnet Hminb HiA HuA HoA)
    as (p & HsA & HupA & HinA & HsentA & Hx).
  destruct (Hx cB restB HinB HuB)
    as (q0 & hs & HdB & Hq0in & Hq0out & Hq0up & Hq0f & Hq0l & Hq0c & Hq0v & Hhv & Hhn & Hhp).
  destruct (reply_arrives idb a b iB q0 Hidb Hca Hcb Hnet Hmina HiB Hq0up Hq0f Hq0c Hq0v)
    as (q & bytes & HsB & HupB & HcB & HsentB & HqB & HoutB & HvB & HtB & Hy).
  destruct (incoming_established idb order b iB now refB cB epA ctlB g _ q0 hs q Hcb Hallow HdB)
    as (hsB & HB & HrB & HconnB & HclB & _); [by rewrite Hhv|].
  rewrite Hhn, Hhp in HrB. exists hsB, q.
  split_and!; [done|done|done|by rewrite HqB|done|by apply (ready_up b)|].
  rewrite HconnB, HoutB, Hq0out, HoB. intros HinA'. rewrite <-HinA in HinA'.
  destruct (Hy (any_conn p) restA HinA' HupA) as (r & reply & HdA & Hrin & Hrup & Hrf & Hrl & Hrc & Hrv & HL & HT & HN).
  destruct (outgoing_established ida a iA refA cA epB ctlA p _ r reply Hca HsA HdA) as (HrA & _ & HclA & _);
    [by rewrite HL; apply not_eq_sym|done|].
  fold hsA in HrA, HclA. rewrite HN in HrA. exists (keep_encoder p r).
  destruct (both_linked ida idb p q0 q r (agreed a b)) as [Hl1 Hl2]; try done.
  { by apply agreed_cases. }
  split_and!; [done|done|by rewrite keep_encoder_conn|by rewrite keep_encoder_Version| |done|done].
  apply (ready_up a); [done| |by unfold any_up; rewrite keep_encoder_conn].
  by apply keep_encoder_conf.
Qed.

(** [C2] The handshake of two nodes.  Node [a] dials node [b]; their settings are in
    range, the networks are the same and neither's minimum version is above the
    version they agree on, which is that of [a], or 9 when that is 10 and [b] speaks
    9.  When [b] lets [a] in and reads what [a] writes, it keeps the connection as a
    peer named after [a], and when [a] then reads what [b] writes, it keeps it as
    a peer named after [b].  Both speak the agreed version, stand right behind the
    handshake in their streams, and understand each other from then on in both
    directions. *)
Theorem handshake_negotiation ida idb order a b iA iB cA cB restA restB ctlA ctlB
    refA refB epA epB now g :
  type_ids ida → type_ids idb → conf_ok a → conf_ok b → Network a = Network b →
  ProtocolVersionMinimum b ≤ ProtocolVersion a → ProtocolVersionMinimum a ≤ agreed a b →
  is_u64 iA → is_u64 iB → iA ≠ iB →
  c_room cA = None → c_room cB = None → c_out cA = [] → c_out cB = [] →
  allowIncoming b now ctlB (IP epA) = Ok tt →
  let hsA := handshakeOutgoing ida a iA refA cA epB ctlA in
  bytes_in cB = c_out (mv_conn hsA) ++ restB →
  let peerB := MkPeer refB (peer_Hash (set_Port (ListenPort a) epA) (NodeID a)) (set_Port (ListenPort a) epA) true in
  let peerA := MkPeer refA (peer_Hash epB (NodeID b)) epB false in
  ∃ hsB pB, handshakeIncoming idb order b iB now refB cB epA ctlB g = Ok (hsB, g) ∧
    mv_result hsB = Ok (peerB, pB) ∧ mv_closed hsB = false ∧ bytes_in (any_conn pB) = restB ∧
    Version (Protocol:=Any_Protocol idb) pB = agreed a b ∧ ready pB ∧
    (bytes_in cA = c_out (mv_conn hsB) ++ restA →
     ∃ pA, mv_result hsA = Ok (peerA, pA) ∧ mv_closed hsA = false ∧ bytes_in (any_conn pA) = restA ∧
       Version (Protocol:=Any_Protocol ida) pA = agreed a b ∧ ready pA ∧
       linked ida pA pB ∧ linked idb pB pA).
Proof. apply negotiation_lemma. Qed.

(** ** Every handshake ends *)

Lemma writeMessage_returns m g : returns (Gob.writeMessage m g).2.
Proof. unfold Gob.writeMessage. case_match; [done|]. destruct (Write _ _) as [c [n []]]; done. Qed.

Lemma Encode_returns id t v g : returns (Encode id t v g).2.
Proof.
  assert (Hd : ∀ ds g, returns (send_defs id ds g).2).
  { intros ds. induction ds as [|d ds IH]; intros g'; [done|]. cbn [send_defs]. case_decide; [apply IH|].
    pose proof (writeMessage_returns (def_message id d) g') as Hw.
    destruct (Gob.writeMessage (def_message id d) g') as [g2 [u| | |]]; done. }
  unfold Encode. specialize (Hd (defs t) g). destruct (send_defs id (defs t) g) as [g2 [u| | |]]; try done.
  apply writeMessage_returns.
Qed.

Lemma v9SendHandshake_returns id h g : returns (v9SendHandshake id h g).2.
Proof.
  unfold v9SendHandshake. cbn [snd]. pose proof (Encode_returns id t_V9Msg (V9Msg_to (v9_handshake_msg h)) g) as He.
  by destruct (Encode _ _ _ _) as [g' [u|[]| |]].
Qed.

Lemma writeCheck_returns data p : returns (writeCheck data p).2.
Proof. unfold writeCheck. destruct (Write data (rw p)) as [c [n []]]; [done|]. cbn [snd]. by case_match. Qed.

Lemma V11_SendHandshake_returns h p :
  Handshake_wf (v11_handshake h) → returns (V11_SendHandshake h p).2.
Proof.
  intros Hwf. destruct (Handshake_marshals _ Hwf) as [Hm0 Hs0].
  pose proof (marshal_message_ok _ _ _ _ Hs0 Hm0 : V11Handshake_Marshal (v11_handshake h) = _) as Hm.
  unfold V11_SendHandshake, io_bind. pose proof (writeCheck_returns V11Signature p) as Hr1.
  destruct (writeCheck V11Signature p) as [p1 [u| | |]]; try done.
  unfold ProtocolV11.writeMessage, io_bind, io_lift. rewrite proto_Marshal_law.
  change (pm_Marshal (v11_handshake h)) with (V11Handshake_Marshal (v11_handshake h)). rewrite Hm.
  destruct (_ <? _); [done|].
  pose proof (writeCheck_returns (be_PutUint32 (u32 (zlen (enc_Handshake (v11_handshake h))))) p1) as Hr2.
  destruct (writeCheck (be_PutUint32 _) p1) as [p2 [u2| | |]]; try done. apply writeCheck_returns.
Qed.

Lemma SendHandshake_returns id h p :
  Handshake_wf (v11_handshake h) → returns (SendHandshake (Protocol:=Any_Protocol id) h p).2.
Proof.
  intros Hwf. destruct p as [p|p|p]; cbn.
  - apply v9SendHandshake_returns.
  - apply v9SendHandshake_returns.
  - by apply V11_SendHandshake_returns.
Qed.

Lemma plain_wf h : plain_hs h → Handshake_wf (v11_handshake h).
Proof. intros Hpl. by apply v11_hs_sendable_wf, plain_v11_ok. Qed.

(** an endpoint whose parts have at most a MiB each *)
Definition short_endpoint (ep : Endpoint) : Prop :=
  zlen (str_bytes (IP ep)) ≤ 2 ^ 20 ∧ zlen (str_bytes (Port ep)) ≤ 2 ^ 20.

#[local] Instance short_endpoint_dec ep : Decision (short_endpoint ep).
Proof. unfold short_endpoint. apply _. Defined.

(** a rejection with as many as 2^32 short alternatives can be encoded *)
Lemma alternatives_wf h l :
  plain_hs h → Forall short_endpoint l → zlen l ≤ 2 ^ 32 →
  Handshake_wf (v11_handshake (MkHandshake (h_Network h) (h_Version h) TypeRejectAlternative (h_NodeID h)
    (h_ListenPort h) (h_Loopback h) l)).
Proof.
  intros Hpl Hs Hl. pose proof (plain_v11_ok h Hpl) as (_ & _ & _ & _ & _ & Hlen).
  destruct Hpl as [Hn Hv Ht Hid Hlo Hp Ha _]. split_and!; try apply u32_range; try done. unfold fits.
  assert (Hr : zlen (enc_repeated x3a enc_Endpoint (v11_endpoint <$> l)) ≤ zlen l * (2 ^ 21 + 22 + 11)).
  { etrans; [apply (zlen_enc_repeated_le _ _ _ (2 ^ 21 + 22)); [lia|]|unfold zlen; rewrite length_fmap; lia].
    apply Forall_fmap. eapply Forall_impl; [exact Hs|]. intros ep [Hi Hq]. unfold enc_Endpoint.
    unfold compose, v11_endpoint. cbn [Host HostPort ep_unrecognized]. rewrite app_nil_r, zlen_app.
    pose proof (zlen_enc_delimited_ge x0a (str_bytes (IP ep)) ltac:(lia)).
    pose proof (zlen_enc_delimited_ge x12 (str_bytes (Port ep)) ltac:(lia)). lia. }
  revert Hlen. unfold enc_Handshake. cbn [v11_handshake hs_Type hs_Network hs_Version hs_NodeID hs_ListenPort
    hs_Loopback hs_Alternatives hs_unrecognized h_Type h_Network h_Version h_NodeID h_ListenPort h_Loopback
    h_Alternatives]. rewrite Ha. cbn [fmap list_fmap enc_repeated foldr]. rewrite !zlen_app.
  pose proof (zlen_enc_uint_le x08 (u32 TypeRejectAlternative) ltac:(done)).
  pose proof (zlen_nonneg (enc_uint x08 (u32 (h_Type h)))). unfold V11MaxParcelSize. change (zlen []) with 0. lia.
Qed.

Lemma Handshake_Valid_returns h conf : returns (Handshake_Valid h conf).
Proof.
  assert (Ha : returns (check_alternatives (h_Alternatives h))).
  { induction (h_Alternatives h) as [|ep l IH]; [done|]. cbn. by case_match. }
  unfold Handshake_Valid. case_match; [done|]. case_match; [done|].
  destruct (Atoi (h_ListenPort h)); [|done]. by case_match.
Qed.

(** a detected handshake is valid *)
Lemma detect_result conf c :
  returns (detectProtocolFromFirstMessage conf c).2 ∧
  ∀ prot hs, (detectProtocolFromFirstMessage conf c).2 = Ok (prot, hs) →
    Forall (λ ep, Endpoint_Valid ep = true) (h_Alternatives hs) ∧
    (∀ p11, prot = Any11 p11 → is_u16 (h_Version hs)).
Proof.
  pose proof (λ h, Handshake_Valid_returns h conf) as Hreturns.
  unfold detectProtocolFromFirstMessage. destruct (Peek 4 c) eqn:EP; try done.
  2-3: unfold Peek in EP; by case_match.
  case_bool_decide; cbn [snd].
  - pose proof (V11_ReadHandshake_stream (newProtocolV11 c) (newProtocolV11 c) eq_refl) as (_ & _ & Hr).
    assert (Hv16 : ∀ h, (V11_ReadHandshake (newProtocolV11 c)).2 = Ok h → is_u16 (h_Version h)).
    { intros h. unfold V11_ReadHandshake, io_bind. destruct (readCheck 4 _) as [p1 [sig| | |]]; try done.
      destruct (negb _); [done|]. destruct (readMessage _ p1) as [p2 [m| | |]]; try done.
      intros [= <-]. apply u16_range. }
    destruct (V11_ReadHandshake (newProtocolV11 c)) as [p [h| | |]]; try done. cbn [ce_protocol snd].
    rewrite bind_Ok. specialize (Hreturns h). destruct (Handshake_Valid h conf) as [[]| | |] eqn:Ev; try done.
    split; [done|]. intros prot hs [= <- <-]. apply Handshake_Valid_Ok in Ev as (_ & _ & _ & ?).
    split; [done|]. intros _ _. by apply Hv16.
  - set (q0 := newProtocolV9 _ _ _ _). pose proof (V9_ReadHandshake_total q0) as Hr.
    destruct (V9_ReadHandshake q0) as [p [h| | |]]; try done. cbn [ce_protocol snd fst].
    rewrite bind_Ok. specialize (Hreturns h). destruct (Handshake_Valid h conf) as [[]| | |] eqn:Ev; try done.
    cbn [ce_handshake]. rewrite bind_Ok. apply Handshake_Valid_Ok in Ev as (_ & _ & _ & Ha).
    case_match; [done|]. cbv zeta. split; [by repeat case_match|]. intros prot hs.
    repeat case_match; intros; simplify_eq/=; done.
Qed.

(** what a handshake leaves: either a peer on an open connection, reported online,
    or a closed connection and a controller whose peers, statuses and bans are what
    they were *)
Record settled (ctl : controller) (ref : nat) (m : maneuver) : Prop := {
  se_returns : returns (mv_result m);
  se_closed : mv_closed m = negb (is_ok (mv_result m));
  se_wf : controller_wf ctl → controller_wf (mv_ctl m);
  se_peers : peers (c_peers (mv_ctl m)) = peers (c_peers ctl);
  se_bans : bans (mv_ctl m) = bans ctl;
  se_special : special (mv_ctl m) = special ctl;
  se_heap : ∀ i, i ≠ ref → heap (mv_ctl m) !! i = heap ctl !! i;
  se_statuses : statuses (mv_ctl m) = statuses ctl ++
    match mv_result m with Ok (peer, _) => [MkStatus peer true] | _ => [] end;
  se_parcels : ∀ x, x ∈ mv_parcels m → ∃ prot, mv_result m = Ok (x.1, prot) ∧ ptype x.2 = TypePeerRequest;
  se_alternatives : Forall (λ ep, Endpoint_Valid ep = true) (mv_alternatives m) ∧
    (mv_alternatives m ≠ [] → mv_result m = Err CE_rejected);
  se_peer : ∀ peer prot, mv_result m = Ok (peer, prot) →
    peer_ref peer = ref ∧ is_Some (heap (mv_ctl m) !! ref) ∧ is_stopped (mv_ctl m) peer = false;
}.

Lemma settled_fail c ctl ref e : settled ctl ref (hs_fail c ctl (Err e)).
Proof. split; try done; [by rewrite app_nil_r|set_solver]. Qed.

Lemma settled_establish conf ctl ref id ep incoming typ prot :
  conf_ok conf → settled ctl ref (establish conf ref id ep incoming typ prot ctl).
Proof.
  intros Hok. unfold establish. destruct (newPeer_ok conf ref id ep incoming) as (st & -> & Hst & Hres);
    [apply (co_buckets _ Hok)|].
  split; try done; cbn [mv_ctl mv_result mv_parcels mv_alternatives heap].
  - intros [Hw Hh Hrefs Hre Hbn]. split; simpl; [done| |done| |done].
    + intros h p Hp. rewrite lookup_insert. case_decide; [by eexists|]. by apply (Hh h).
    + intros j st' pr. rewrite lookup_insert. case_decide; [intros [= <-] _; apply Hres|apply Hre].
  - intros i Hi. by rewrite lookup_insert_ne.
  - intros x. case_match; [|set_solver]. intros ->%list_elem_of_singleton. by eexists.
  - intros peer prot' [= <- <-]. cbn [peer_ref]. unfold is_stopped, peer_state. simpl.
    by rewrite lookup_insert_eq.
Qed.

Lemma outgoing_settled id conf i ref c ep ctl :
  conf_ok conf → is_u64 i → settled ctl ref (handshakeOutgoing id conf i ref c ep ctl).
Proof.
  intros Hok Hi. unfold handshakeOutgoing.
  assert (Hpl : plain_hs (newHandshake conf i)).
  { apply (newHandshake_plain conf i (ProtocolVersion conf) Hok Hi).
    pose proof (co_Version _ Hok) as Hv. unfold is_u16. rewrite !elem_of_cons, elem_of_nil in Hv. lia. }
  pose proof (SendHandshake_returns id _ (selectProtocol conf c) (plain_wf _ Hpl)) as Hs.
  destruct (SendHandshake _ _) as [p [u|e| |]]; try done; cbn [fst snd]; [|apply settled_fail].
  destruct (detect_result conf (any_conn p)) as [Hr Ha].
  destruct (detectProtocolFromFirstMessage conf (any_conn p)) as [c' [[prot reply]|e| |]]; try done;
    [|apply settled_fail].
  destruct (_ =? _); [apply settled_fail|]. cbv zeta. destruct (_ =? TypeRejectAlternative).
  - split; try done; [by rewrite app_nil_r|set_solver|]. split; [|done]. by apply (Ha prot reply).
  - by apply settled_establish.
Qed.

Lemma outgoing_endpoint id conf i ref c ep ctl peer prot :
  conf_ok conf → mv_result (handshakeOutgoing id conf i ref c ep ctl) = Ok (peer, prot) →
  peer_Endpoint peer = ep.
Proof.
  intros Hok. unfold handshakeOutgoing. destruct (SendHandshake _ _) as [p [u|e| |]]; try done. cbn [fst snd].
  destruct (detectProtocolFromFirstMessage conf (any_conn p)) as [c' [[prot' reply]|e| |]]; try done.
  destruct (_ =? _); [done|]. cbv zeta. destruct (_ =? TypeRejectAlternative); [done|]. unfold establish.
  destruct (newPeer_ok conf ref (h_NodeID reply) ep false) as (st & -> & _); [apply (co_buckets _ Hok)|].
  by intros [= <- _].
Qed.

(** an outgoing handshake that fails leaves the controller alone *)
Lemma outgoing_fails id conf i ref c ep ctl e :
  mv_result (handshakeOutgoing id conf i ref c ep ctl) = Err e →
  mv_ctl (handshakeOutgoing id conf i ref c ep ctl) = ctl.
Proof.
  unfold handshakeOutgoing. destruct (SendHandshake _ _) as [p [u|e'| |]]; try done. cbn [fst snd].
  destruct (detectProtocolFromFirstMessage conf (any_conn p)) as [c' [[prot' reply]|e'| |]]; try done.
  destruct (_ =? _); [done|]. cbv zeta. destruct (_ =? TypeRejectAlternative); [done|].
  unfold establish. by destruct (newPeer _ _ _ _ _) as [[]|[]| |].
Qed.

Lemma Dial_lemma id order conf i now now' now_ban con ref ep d ctl :
  conf_ok conf → is_u64 i → controller_wf ctl → is_order order →
  ∃ dd, controller_Dial id order conf i now now' now_ban con ref ep d ctl = Ok dd ∧
    dd_dialer dd = (Dialer_Dial now now' con d ep).1 ∧ controller_wf (dd_ctl dd) ∧
    Forall (λ ep, Endpoint_Valid ep = true) (dd_alternatives dd) ∧
    match (Dialer_Dial now now' con d ep).2 with
    | Ok c =>
        let m := handshakeOutgoing id conf i ref c ep ctl in
        match mv_result m with
        | Ok (peer, prot) =>
            dd_peer dd = Some (peer, prot) ∧ dd_alternatives dd = [] ∧ dd_parcels dd = mv_parcels m ∧
            peer_ref peer = ref ∧ peer_Endpoint peer = ep ∧ is_stopped (dd_ctl dd) peer = false ∧
            bans (dd_ctl dd) = bans ctl ∧ statuses (dd_ctl dd) = statuses ctl ++ [MkStatus peer true]
        | Err CE_loopback =>
            dd_peer dd = None ∧ dd_alternatives dd = [] ∧ dd_parcels dd = [] ∧
            (∀ t, now_ban ≤ t → isBannedEndpoint t t (dd_ctl dd) ep =
               isBannedIP t ctl (IP ep) || (t <? now_ban + fifty_years)) ∧
            (∀ a, a ≠ Endpoint_String ep → bans (dd_ctl dd) !! a = bans ctl !! a) ∧
            (∀ h p, peers (c_peers ctl) !! h = Some p →
               is_stopped (dd_ctl dd) p = is_stopped ctl p || bool_decide (peer_Endpoint p = ep))
        | Err _ =>
            dd_peer dd = None ∧ dd_alternatives dd = mv_alternatives m ∧ dd_parcels dd = [] ∧ dd_ctl dd = ctl
        | _ => False
        end
    | _ => dd_peer dd = None ∧ dd_alternatives dd = [] ∧ dd_parcels dd = [] ∧ dd_ctl dd = ctl
    end.
Proof.
  intros Hok Hi Hwf Ho. unfold controller_Dial. destruct (Dialer_Dial now now' con d ep) as [d' r] eqn:HD.
  cbn [fst snd]. destruct r as [c| | |];
    try (eexists; split_and!; [done|done|done|exact (Forall_nil_2 _)|done..]).
  cbv zeta. pose proof (outgoing_fails id conf i ref c ep ctl) as Hfail.
  pose proof (outgoing_endpoint id conf i ref c ep ctl) as Hend.
  set (m := handshakeOutgoing id conf i ref c ep ctl) in *.
  destruct (outgoing_settled id conf i ref c ep ctl Hok Hi)
    as [Hret _ Hswf _ Hbans _ _ Hst Hpar [Hav Halt] Hpeer]. fold m in Hret, Hswf, Hbans, Hst, Hpar, Hav, Halt, Hpeer.
  destruct (mv_result m) as [[peer prot]|e| |] eqn:Hm; try done.
  - destruct (Hpeer _ _ eq_refl) as (? & _ & ?).
    eexists. split_and!; [done|done|by apply Hswf|constructor|done..|by apply (Hend peer prot)|done|done|done].
  - specialize (Hfail e eq_refl). assert (Hp0 : mv_parcels m = []).
    { destruct (mv_parcels m) as [|x l]; [done|]. destruct (Hpar x) as (? & ? & _); [by left|done]. }
    destruct (decide (e = CE_loopback)) as [->|He].
    + rewrite Hfail. destruct (banEndpoint_lemma order ep fifty_years now_ban ctl Hwf Ho)
        as (ctl' & -> & Hwf' & Hban & Hoth & Hsto). rewrite bind_Ok.
      by eexists; split_and!; [done|done|done|exact (Forall_nil_2 _)|done..].
    + assert (∃ dd, (if 0 <? zlen (mv_alternatives m)
        then Ok (MkDialed d' (mv_ctl m) (mv_parcels m) None (mv_alternatives m))
        else Ok (MkDialed d' (mv_ctl m) (mv_parcels m) None [])) = @Ok () _ dd ∧
        dd = MkDialed d' ctl [] None (mv_alternatives m)) as (dd & Hdd & ->).
      { rewrite Hfail, Hp0. destruct (Z.ltb_spec 0 (zlen (mv_alternatives m))) as [|Hl]; [by eexists|].
        assert (mv_alternatives m = []) as -> by (apply zlen_0; pose proof (zlen_nonneg (mv_alternatives m)); lia).
        by eexists. }
      eexists. split; [by destruct e|]. by destruct e; split_and!.
Qed.

(** [C13] Dialing an endpoint.  Whatever the remote side sends, [Dial] returns, and the
    attempt is remembered.  What it leaves is settled by the handshake: a peer, running
    and reported online once; or, when the other end turns out to be this node itself,
    a ban of the endpoint, and of nothing else, for fifty years, with the peers of that
    endpoint stopped; or nothing at all, with the alternatives the remote node gave.
    Alternatives are valid endpoints, and never come with a peer. *)
Theorem Dial_spec id order conf i now now' now_ban con ref ep d ctl :
  conf_ok conf → is_u64 i → controller_wf ctl → is_order order →
  ∃ dd, controller_Dial id order conf i now now' now_ban con ref ep d ctl = Ok dd ∧
    dd_dialer dd = (Dialer_Dial now now' con d ep).1 ∧ controller_wf (dd_ctl dd) ∧
    Forall (λ ep, Endpoint_Valid ep = true) (dd_alternatives dd) ∧
    match (Dialer_Dial now now' con d ep).2 with
    | Ok c =>
        let m := handshakeOutgoing id conf i ref c ep ctl in
        match mv_result m with
        | Ok (peer, prot) =>
            dd_peer dd = Some (peer, prot) ∧ dd_alternatives dd = [] ∧ dd_parcels dd = mv_parcels m ∧
            peer_ref peer = ref ∧ peer_Endpoint peer = ep ∧ is_stopped (dd_ctl dd) peer = false ∧
            bans (dd_ctl dd) = bans ctl ∧ statuses (dd_ctl dd) = statuses ctl ++ [MkStatus peer true]
        | Err CE_loopback =>
            dd_peer dd = None ∧ dd_alternatives dd = [] ∧ dd_parcels dd = [] ∧
            (∀ t, now_ban ≤ t → isBannedEndpoint t t (dd_ctl dd) ep =
               isBannedIP t ctl (IP ep) || (t <? now_ban + fifty_years)) ∧
            (∀ a, a ≠ Endpoint_String ep → bans (dd_ctl dd) !! a = bans ctl !! a) ∧
            (∀ h p, peers (c_peers ctl) !! h = Some p →
               is_stopped (dd_ctl dd) p = is_stopped ctl p || bool_decide (peer_Endpoint p = ep))
        | Err _ =>
            dd_peer dd = None ∧ dd_alternatives dd = mv_alternatives m ∧ dd_parcels dd = [] ∧ dd_ctl dd = ctl
        | _ => False
        end
    | _ => dd_peer dd = None ∧ dd_alternatives dd = [] ∧ dd_parcels dd = [] ∧ dd_ctl dd = ctl
    end.
Proof. apply Dial_lemma. Qed.

(** a refusal: the remote end is sent a share of the peers, without itself, and the
    connection is closed *)
Lemma refusal_spec id order conf i now ref con ep ctl g :
  conf_ok conf → controller_wf ctl → is_order order → 0 < PeerShareAmount conf ≤ 2 ^ 32 →
  (∀ h p, peers (c_peers ctl) !! h = Some p → short_endpoint (peer_Endpoint p)) →
  allowIncoming conf now ctl (IP ep) = Err CE_refused →
  ∃ m g' l ctl', handshakeIncoming id order conf i now ref con ep ctl g = Ok (m, g') ∧
    makePeerShare order conf ep ctl g = Ok (l, ctl', g') ∧ (ep ∉ l) ∧
    mv_conn m = (RejectWithShare id conf con l).1 ∧
    mv_result m = Err CE_refused ∧ mv_closed m = true ∧ settled ctl ref m.
Proof.
  intros Hok Hwf Ho Hamt Hshort Hallow. unfold handshakeIncoming. rewrite Hallow.
  destruct (makePeerShare_spec order conf ep ctl g Hwf Ho ltac:(lia))
    as (l & ctl' & g' & all & Hshare & _ & Hall & Hsub & Hlen & Hex).
  rewrite Hshare, bind_Ok.
  assert (Hl : Forall short_endpoint l).
  { apply Forall_forall. intros e He. eapply elem_of_submseteq in He; [|exact Hsub].
    apply list_elem_of_fmap in He as (p & -> & [_ Hp]%list_elem_of_filter). apply Hall in Hp. eauto. }
  assert (Hpl : plain_hs (newHandshake conf 0)).
  { apply (newHandshake_plain conf 0 (ProtocolVersion conf) Hok); [done|].
    pose proof (co_Version _ Hok) as Hv. unfold is_u16. rewrite !elem_of_cons, elem_of_nil in Hv. lia. }
  pose proof (SendHandshake_returns id _ (selectProtocol conf con)
    (alternatives_wf _ l Hpl Hl ltac:(lia))) as Hr.
  unfold makePeerShare in Hshare. destruct (c_Slice order ctl) as [s c1] eqn:HS.
  destruct (c_Slice_spec order ctl s c1 Hwf Ho HS) as (Hwf1 & Hp1 & Hh1 & Hst1 & Hb1 & Hsp1 & _).
  destruct (Perm (length s) g) as [perm g1]. apply bind_Ok_inv in Hshare as (pl & Hpl' & Heq). simplify_eq.
  unfold RejectWithShare. cbn [fst snd].
  destruct (SendHandshake _ _) as [c [u|e| |]] eqn:Hsent; try done; cbn [fst snd] in *;
    (eexists _, g', _, ctl'; split_and!; [done|done|done|by rewrite Hsent|done|done|]);
    (split; try done; cbn; [by intros; rewrite Hh1|by rewrite Hst1, app_nil_r|set_solver]).
Qed.

(** [C14] Incoming connections.  A connection is let in exactly when its address is not
    banned, there is room or the address is special, and the address has not used up
    its limit.  One that is let in ends with a peer that is reported online or with a
    closed connection, whatever the remote side sends; one that is refused is sent a
    share of the peers, without itself, and closed; and without a peer nothing is left
    behind.  The handshake returns in both cases. *)
Theorem handshakeIncoming_spec id order conf i now ref con ep ctl g :
  conf_ok conf → is_u64 i → controller_wf ctl → is_order order → 0 ≤ PeerIPLimitIncoming conf →
  0 < PeerShareAmount conf ≤ 2 ^ 32 →
  (∀ h p, peers (c_peers ctl) !! h = Some p → short_endpoint (peer_Endpoint p)) →
  let let_in := negb (isBannedIP now ctl (IP ep)) &&
    ((u64 (PeerStore_Total (c_peers ctl)) <? MaxIncoming conf) || isSpecialIP ctl (IP ep)) &&
    ((PeerIPLimitIncoming conf =? 0) || (u64 (PeerStore_Count (c_peers ctl) (IP ep)) <? PeerIPLimitIncoming conf)) in
  if let_in
  then ∃ m, handshakeIncoming id order conf i now ref con ep ctl g = Ok (m, g) ∧ settled ctl ref m
  else ∃ m g' l ctl', handshakeIncoming id order conf i now ref con ep ctl g = Ok (m, g') ∧
    makePeerShare order conf ep ctl g = Ok (l, ctl', g') ∧ (ep ∉ l) ∧
    mv_conn m = (RejectWithShare id conf con l).1 ∧
    mv_result m = Err CE_refused ∧ mv_closed m = true ∧ settled ctl ref m.
Proof.
  intros Hok Hi Hwf Ho Hlim Hamt Hshort let_in.
  assert (Hallow : allowIncoming conf now ctl (IP ep) = if let_in then Ok tt else Err CE_refused).
  { unfold allowIncoming, let_in. destruct (isBannedIP _ _ _); [done|]. cbn [negb andb].
    rewrite (Z.leb_antisym (u64 (PeerStore_Total _))). destruct (_ <? MaxIncoming conf), (isSpecialIP _ _); cbn;
      try done; rewrite (Z.leb_antisym (u64 (PeerStore_Count _ _)));
      destruct (u64 (PeerStore_Count _ _) <? _); cbn; rewrite ?andb_false_r, ?orb_true_r, ?andb_true_r, ?orb_false_r; try done;
      destruct (Z.ltb_spec 0 (PeerIPLimitIncoming conf)), (Z.eqb_spec (PeerIPLimitIncoming conf) 0); done || lia. }
  destruct let_in; [|by apply refusal_spec].
  unfold handshakeIncoming. rewrite Hallow. destruct (detect_result conf con) as [Hr Ha].
    destruct (detectProtocolFromFirstMessage conf con) as [c [[prot hs]|e| |]]; try done;
      [|eexists; split; [done|apply settled_fail]].
    destruct (Ha prot hs eq_refl) as [_ Hv].
    assert (Hs : returns (SendHandshake (Protocol:=Any_Protocol id)
      (set_Version (h_Version hs) (newHandshake conf i)) prot).2).
    { destruct prot as [p|p|p]; [apply v9SendHandshake_returns|apply v9SendHandshake_returns|].
      apply V11_SendHandshake_returns, plain_wf, newHandshake_plain; [done|done|by apply (Hv p)]. }
    destruct (SendHandshake _ _) as [p [u|e| |]]; try done; cbn [fst snd];
      eexists; (split; [done|]); [by apply settled_establish|apply settled_fail].
Qed.
End Negotiation.

(** ** Two nodes *)

Definition conf_version (v : Z) : Configuration :=
  let c := DefaultP2PConfiguration in
  MkConfiguration (Network c) (NodeID c) (NodeName c) (PeerRequestInterval c) (PeerReseedInterval c)
    (PeerIPLimitIncoming c) (PeerIPLimitOutgoing c) (Special c) (PeerCacheFile c) (PeerCacheAge c)
    (PeerShareAmount c) (PeerShareTimeout c) (RoundTime c) (TargetPeers c) (MaxPeers c) (DropTo c)
    (MinReseed c) (MaxIncoming c) (Fanout c) (SeedURL c) (BindIP c) (ListenPort c) (ListenLimit c)
    (PingInterval c) (RedialInterval c) (ManualBan c) (HandshakeTimeout c) (DialTimeout c) (ReadDeadline c)
    (WriteDeadline c) v 9 (ChannelCapacity c) (EnablePrometheus c) (PeerResendFilter c)
    (PeerResendBuckets c) (PeerResendInterval c).
(** the node that dials speaks 10, the other one 9 *)
Definition conf_a : Configuration := conf_version 10.
Definition conf_b : Configuration := conf_version 9.

Lemma conf_version_ok v : v ∈ [9; 10; 11] → conf_ok (conf_version v).
Proof.
  intros Hv. split; [by vm_compute|by vm_compute|exact Hv| |by vm_compute|by vm_compute].
  exists 8108. by vm_compute.
Qed.

#[local] Existing Instance documented_ProtoLib.
Definition sent_a : list byte := Eval vm_compute in
  c_out (any_conn (SendHandshake (Protocol:=Any_Protocol ids3) (newHandshake conf_a 1)
    (selectProtocol conf_a (MkConn [] [] None))).1).
Definition con_b : conn := MkConn [sent_a] [] None.
Definition sent_b : list byte := Eval vm_compute in
  match handshakeIncoming ids3 (λ l, l) conf_b 2 0 7 con_b ep_a ctl_ab 0 with
  | Ok (m, _) => c_out (mv_conn m)
  | _ => []
  end.
Definition con_a : conn := MkConn [sent_b; [x2a]] [] None.

Theorem handshake_negotiation_witness :
  agreed conf_a conf_b = 9 ∧
  let hsA := handshakeOutgoing ids3 conf_a 1 8 con_a ep_a ctl_ab in
  let peerB := MkPeer 7 (peer_Hash (set_Port (ListenPort conf_a) ep_a) (NodeID conf_a))
    (set_Port (ListenPort conf_a) ep_a) true in
  let peerA := MkPeer 8 (peer_Hash ep_a (NodeID conf_b)) ep_a false in
  ∃ hsB pB, handshakeIncoming ids3 (λ l, l) conf_b 2 0 7 con_b ep_a ctl_ab 0 = Ok (hsB, 0) ∧
    mv_result hsB = Ok (peerB, pB) ∧ mv_closed hsB = false ∧ bytes_in (any_conn pB) = [] ∧
    Version (Protocol:=Any_Protocol ids3) pB = agreed conf_a conf_b ∧ ready pB ∧
    (bytes_in con_a = c_out (mv_conn hsB) ++ [x2a] →
     ∃ pA, mv_result hsA = Ok (peerA, pA) ∧ mv_closed hsA = false ∧ bytes_in (any_conn pA) = [x2a] ∧
       Version (Protocol:=Any_Protocol ids3) pA = agreed conf_a conf_b ∧ ready pA ∧
       linked ids3 pA pB ∧ linked ids3 pB pA).
Proof.
  split; [by vm_compute|].
  exact (handshake_negotiation ids3 ids3 (λ l, l) conf_a conf_b 1 2 con_a con_b [x2a] [] ctl_ab ctl_ab
    8 7 ep_a ep_a 0 0 ids3_ok ids3_ok (conf_version_ok 10 ltac:(set_solver)) (conf_version_ok 9 ltac:(set_solver))
    eq_refl ltac:(by vm_compute) ltac:(by vm_compute) ltac:(unfold is_u64; lia) ltac:(unfold is_u64; lia) ltac:(lia)
    eq_refl eq_refl eq_refl eq_refl ltac:(by vm_compute) ltac:(by vm_compute)).
Defined.

(** a node that dials itself *)
Definition con_self : conn := MkConn [sent_a] [] None.

Definition dialer_a : Dialer := MkDialer "" 120 5 ∅.
Definition self_dial : outcome () dialed :=
  controller_Dial ids3 (λ l, l) conf_a 1 5 5 6 (Some con_self) 9 ep_a dialer_a ctl_ab.

Theorem Dial_spec_witness :
  ∃ dd, self_dial = Ok dd ∧ dd_peer dd = None ∧ isBannedEndpoint 7 7 (dd_ctl dd) ep_a = true.
Proof.
  pose proof (Dial_spec ids3 (λ l, l) conf_a 1 5 5 6 (Some con_self) 9 ep_a dialer_a ctl_ab
    (conf_version_ok 10 ltac:(set_solver)) ltac:(unfold is_u64; lia) ctl_ab_wf is_order_id) as Hd.
  fold self_dial in Hd. destruct Hd as (dd & Hdd & _ & _ & _ & Hd). exists dd. split; [exact Hdd|].
  assert (HD : (Dialer_Dial 5 5 (Some con_self) dialer_a ep_a).2 = Ok con_self) by (by vm_compute).
  rewrite HD in Hd. cbv zeta in Hd.
  assert (HM : mv_result (handshakeOutgoing ids3 conf_a 1 9 con_self ep_a ctl_ab) = Err CE_loopback)
    by (by vm_compute).
  rewrite HM in Hd. destruct Hd as (Hp & _ & _ & Hban & _). split; [exact Hp|].
  rewrite (Hban 7 ltac:(lia)). by vm_compute.
Defined.

Lemma ctl_ab_short : map_Forall (λ _ p, short_endpoint (peer_Endpoint p)) (peers (c_peers ctl_ab)).
Proof. apply (bool_decide_unpack _). by vm_compute. Qed.

Theorem handshakeIncoming_spec_witness :
  (∃ m, handshakeIncoming ids3 (λ l, l) conf_b 2 0 7 con_b ep_a ctl_ab 0 = Ok (m, 0) ∧
    settled ctl_ab 7 m) ∧
  (∃ m g' l ctl', handshakeIncoming ids3 (λ l, l) conf_b 2 0 7 con_b ep_a
      (set_bans {[IP ep_a := 5]} ctl_ab) 0 = Ok (m, g') ∧
    makePeerShare (λ l, l) conf_b ep_a (set_bans {[IP ep_a := 5]} ctl_ab) 0 = Ok (l, ctl', g') ∧ (ep_a ∉ l) ∧
    mv_conn m = (RejectWithShare ids3 conf_b con_b l).1 ∧
    mv_result m = Err CE_refused ∧ mv_closed m = true ∧ settled (set_bans {[IP ep_a := 5]} ctl_ab) 7 m).
Proof.
  assert (Hlim : 0 ≤ PeerIPLimitIncoming conf_b) by by vm_compute.
  assert (Hamt : 0 < PeerShareAmount conf_b ≤ 2 ^ 32) by by vm_compute.
  split.
  - exact (handshakeIncoming_spec ids3 (λ l, l) conf_b 2 0 7 con_b ep_a ctl_ab 0
      (conf_version_ok 9 ltac:(set_solver)) ltac:(unfold is_u64; lia) ctl_ab_wf is_order_id Hlim Hamt ctl_ab_short).
  - exact (handshakeIncoming_spec ids3 (λ l, l) conf_b 2 0 7 con_b ep_a (set_bans {[IP ep_a := 5]} ctl_ab) 0
      (conf_version_ok 9 ltac:(set_solver)) ltac:(unfold is_u64; lia) (set_bans_wf _ _ ctl_ab_wf) is_order_id Hlim
      Hamt ctl_ab_short).
Defined.
