(* ===== verification/Replenish.v ===== *)
(** * The replenish loop ([catReplenish] of [controller_cat.go])

    The loop that brings the node up to its number of connections.  Other goroutines
    work on the controller meanwhile; an [oracle] says what they have done before each
    of the loop's accesses, what the clock shows then, and what the network answers. *)
From S2P Require Import Prelude GoStd Endpoint Parcel ParcelChannel PeerHashCache Configuration PeerStore.
From S2P Require Import Handshake Stream Json Protocol ProtocolV9 ProtocolV10 ProtocolV11 Legacy Connections.
From S2P Require Import ConnectionsSpec Rng Dialer Controller Routing Cat Seed.

Record oracle := MkOracle {
  o_others : nat → controller → controller;  (* before access [k], the other goroutines *)
  o_clock : nat → nat → Z;                   (* the readings during access [k] *)
  o_con : nat → option conn;                 (* the connection a dial gets *)
  o_ref : nat → nat;                         (* the address of a new peer *)
  o_response : nat → response;               (* a download of the seed *)
  o_answer : nat → option Parcel;            (* the answer to a peer request, or a timeout *)
  o_prot : Peer → any_protocol;              (* [peer.prot] *)
  o_gap : nat → controller → controller;     (* the other goroutines in the middle of a [Send] *)
  o_waits : nat → bool;                      (* whether the loop waits for ever for [shareMtx] *)
}.

Record replenish := MkReplenish {
  rp_ctl : controller;
  rp_dialer : Dialer;
  rp_seed : seed;
  rp_lastReseed : Z;
  rp_access : nat;             (* the number of accesses so far *)
  rp_dialed : list Endpoint;   (* the endpoints given to [Dial] so far *)
}.

Section Replenish.
Context {G : Type} `{Rng G} `{ProtoLib}.
Context (type_id : string → Z).
Context (order : list Peer → list Peer).
Context (conf : Configuration) (instanceID : Z).
Context (W : oracle).

(** the next access: the others have their turn, and the number of the access *)
Definition access (s : replenish) : replenish * nat :=
  let k := rp_access s in
  (MkReplenish (o_others W k (rp_ctl s)) (rp_dialer s) (rp_seed s) (rp_lastReseed s) (S k) (rp_dialed s), k).

Definition with_ctl (c : controller) (s : replenish) : replenish :=
  MkReplenish c (rp_dialer s) (rp_seed s) (rp_lastReseed s) (rp_access s) (rp_dialed s).
Definition with_seed (sd : seed) (s : replenish) : replenish :=
  MkReplenish (rp_ctl s) (rp_dialer s) sd (rp_lastReseed s) (rp_access s) (rp_dialed s).
Definition with_lastReseed (t : Z) (s : replenish) : replenish :=
  MkReplenish (rp_ctl s) (rp_dialer s) (rp_seed s) t (rp_access s) (rp_dialed s).

(** the closure [canDial] *)
Definition canDial (ep : Endpoint) (s : replenish) : bool * replenish :=
  let (s, _) := access s in
  if PeerStore_Connected (c_peers (rp_ctl s)) ep then (false, s)
  else
    let (s, k) := access s in
    if isBannedEndpoint (o_clock W k 0) (o_clock W k 1) (rp_ctl s) ep then (false, s)
    else
      let (s, k) := access s in
      (CanDial (o_clock W k 0) (rp_dialer s) ep, s).

(** [c.Dial(ep)]: the peer, the alternatives *)
Definition replenish_Dial (ep : Endpoint) (s : replenish)
    : outcome () (option (Peer * any_protocol) * list Endpoint * replenish) :=
  let (s, k) := access s in
  controller_Dial type_id order conf instanceID (o_clock W k 0) (o_clock W k 1) (o_clock W k 2)
    (o_con W k) (o_ref W k) ep (rp_dialer s) (rp_ctl s) ≫= λ dd,
  Ok (dd_peer dd, dd_alternatives dd,
      MkReplenish (dd_ctl dd) (dd_dialer dd) (rp_seed s) (rp_lastReseed s) (rp_access s) (rp_dialed s ++ [ep])).

(** [for _, e := range eps { if canDial(e) { connect = append(connect, e) } }] *)
Fixpoint gather (eps connect : list Endpoint) (s : replenish) : list Endpoint * replenish :=
  match eps with
  | [] => (connect, s)
  | ep :: eps =>
      let (can, s) := canDial ep s in
      gather eps (if can then connect ++ [ep] else connect) s
  end.

(** the endpoints saved by the previous run *)
Fixpoint bootstrap_loop (eps : list Endpoint) (s : replenish) : outcome () replenish :=
  match eps with
  | [] => Ok s
  | ep :: eps =>
      let (can, s) := canDial ep s in
      if can then replenish_Dial ep s ≫= λ '(_, _, s), bootstrap_loop eps s
      else bootstrap_loop eps s
  end.

(** [c.seed.size()] and [c.seed.retrieve()], each an access for the clock and the web *)
Definition seed_size (s : replenish) : Z * replenish :=
  let (s, k) := access s in
  let (n, sd) := size (o_clock W k 0) (o_clock W k 1) (o_response W k) (rp_seed s) in
  (n, with_seed sd s).
Definition seed_retrieve (s : replenish) : list Endpoint * replenish :=
  let (s, k) := access s in
  let (eps, sd) := retrieve (o_clock W k 0) (o_clock W k 1) (o_response W k) (rp_seed s) in
  (eps, with_seed sd s).

(** [uint(c.seed.size()) - 1] when the seed is smaller than [MinReseed] *)
Definition min_reseed (s : replenish) : Z * replenish :=
  let (n, s) := seed_size s in
  if u64 n <? MinReseed conf then
    let (n, s) := seed_size s in (u64 (u64 n - 1), s)
  else (MinReseed conf, s).

(** The seeds when they are needed, in a random order.  The list is the one the seed
    keeps in its cache, which is shuffled with it. *)
Definition reseed (connect : list Endpoint) (s : replenish) (g : G) : list Endpoint * replenish * G :=
  let (minReseed, s) := min_reseed s in
  let (s, k) := access s in
  if (u64 (PeerStore_Total (c_peers (rp_ctl s))) <=? minReseed)
     || (PeerReseedInterval conf <? time_since (o_clock W k 0) (rp_lastReseed s)) then
    let (seeds, s) := seed_retrieve s in
    let (seeds, g) := Shuffle seeds g in
    let s := with_seed (MkSeed (Some seeds) (cacheTTL (rp_seed s)) (cacheTime (rp_seed s))) s in
    let (connect, s) := gather seeds connect s in
    let (s, k) := access s in
    (connect, with_lastReseed (o_clock W k 0) s, g)
  else (connect, s, g).

(** [asyncPeerRequest]: the time of the request is kept with the peer.  [shareMtx] is
    locked before the request and, by the deferred function, after the answer; [Err]
    stands for a lock that is never given, as when [manageData] waits with it
    ([Async.async_deadlock]). *)
Definition with_lastPeerSend (t : Z) (st : PeerState) : PeerState :=
  MkPeerState (ps_stopped st) (ps_resend st) (ps_send st) (ps_dropped st) (ps_lastPeerRequest st) t (ps_lastSend st).
Definition asyncPeerRequest (peer : Peer) (s : replenish) (g : G)
    : outcome () (option (list Endpoint) * replenish * G) :=
  let (s, k) := access s in
  return_err_if o_waits W k with tt;;
  let c := set_heap (alter (with_lastPeerSend (o_clock W k 0)) (peer_ref peer) (heap (rp_ctl s))) (rp_ctl s) in
  Peer_Send_beside (o_gap W k) peer (Some (newParcel TypePeerRequest (str_bytes "Peer Request"))) c ≫= λ c,
  let (s, k) := access (with_ctl c s) in
  return_err_if o_waits W k with tt;;
  match o_answer W k with
  | None => Ok (None, s, g)
  | Some parcel =>
      let share := processPeerShare (H0:=Any_Protocol type_id) (o_prot W peer) (o_clock W k 1) (rp_ctl s) parcel in
      let (share, g) := shuffleTrimShare conf share g in
      Ok (Some share, s, g)
  end.

(** an endpoint a random peer shares *)
Definition request_peer (connect : list Endpoint) (s : replenish) (g : G)
    : outcome () (list Endpoint * replenish * G) :=
  let (s, _) := access s in
  if 0 <? PeerStore_Total (c_peers (rp_ctl s)) then
    let (s, k) := access s in
    let due p := match peer_state (rp_ctl s) p with
                 | Some st => PeerRequestInterval conf <=? time_since (o_clock W k (peer_ref p)) (ps_lastPeerSend st)
                 | None => false
                 end in
    randomPeerConditional order due (rp_ctl s) g ≫= λ '(rand, c, g),
    let s := with_ctl c s in
    match rand with
    | None => Ok (connect, s, g)
    | Some peer =>
        asyncPeerRequest peer s g ≫= λ '(eps, s, g),
        match eps with
        | Some eps =>
            if 0 <? zlen eps then
              Intn (zlen eps) g ≫= λ '(el, g),
              match eps !! Z.to_nat el with
              | Some ep =>
                  let (can, s) := canDial ep s in
                  Ok (if can then connect ++ [ep] else connect, s, g)
              | None => Panic
              end
            else Ok (connect, s, g)
        | None => Ok (connect, s, g)
        end
    end
  else Ok (connect, s, g).

(** the loop that dials *)
Fixpoint dial_loop (fuel : nat) (attemptsLimit attempts : Z) (connect : list Endpoint) (s : replenish)
    : outcome () (Z * replenish) :=
  match fuel with
  | O => OutOfFuel
  | S fuel =>
      match connect with
      | [] => Ok (attempts, s)
      | ep :: connect =>
          if attemptsLimit <=? attempts then Ok (attempts, s)
          else
            let (s, _) := access s in
            if TargetPeers conf <=? u64 (PeerStore_Total (c_peers (rp_ctl s))) then Ok (attempts, s)
            else
              let (can, s) := canDial ep s in
              if negb can then dial_loop fuel attemptsLimit attempts connect s
              else
                replenish_Dial ep s ≫= λ '(p, alts, s),
                dial_loop fuel attemptsLimit (attempts + 1)
                  (match p with Some _ => connect ++ alts | None => connect end) s
      end
  end.

(** the loop's fuel: the endpoints there are and those a dial may add *)
Definition dial_fuel (connect : list Endpoint) : nat := S (length connect).

(** one turn of the loop; whether it sleeps for a second *)
Definition replenish_round (s : replenish) (g : G) : outcome () (bool * replenish * G) :=
  let (s, _) := access s in
  if TargetPeers conf <=? u64 (PeerStore_Total (c_peers (rp_ctl s))) then Ok (true, s, g)
  else
    let (connect, s) := gather (specialEndpoints (rp_ctl s)) [] s in
    let '(connect, s, g) := reseed connect s g in
    request_peer connect s g ≫= λ '(connect, s, g),
    dial_loop (dial_fuel connect) (zlen connect + 5) 0 connect s ≫= λ '(attempts, s),
    Ok (attempts =? 0, s, g).

(** from the start: the bootstrap, then [n] turns *)
Fixpoint replenish_turns (n : nat) (s : replenish) (g : G) : outcome () (replenish * G) :=
  match n with
  | O => Ok (s, g)
  | S n => replenish_round s g ≫= λ '(_, s, g), replenish_turns n s g
  end.
Definition catReplenish (n : nat) (bootstrap : list Endpoint) (s : replenish) (g : G) : outcome () (replenish * G) :=
  bootstrap_loop bootstrap s ≫= λ s,
  let (s, k) := access s in
  replenish_turns n (with_lastReseed (o_clock W k 0) s) g.
End Replenish.

(** ** Properties *)

Lemma sublist_Forall {A} (P : A → Prop) l k : l `sublist_of` k → Forall P k → Forall P l.
Proof.
  intros Hs. induction Hs as [|x l k _ IH|x l k _ IH]; [done|..]; intros [Hx Hk]%Forall_cons.
  - constructor; [done|by apply IH].
  - by apply IH.
Qed.

(** what the loop relies on, and the other goroutines keep *)
Record ctl_ok (c : controller) : Prop := { ck_wf : controller_wf c; ck_channels : channels_ok c }.
Record rp_ok (s : replenish) : Prop := { rk_ctl : ctl_ok (rp_ctl s); rk_seed : valid_cache (rp_seed s) }.

Lemma Peer_Stop_channels p c c' : channels_ok c → Peer_Stop p c = Ok c' → channels_ok c'.
Proof.
  intros Hch. unfold Peer_Stop. destruct (peer_state c p) as [st|]; [|by intros [= <-]].
  destruct (ps_stopped st); [by intros [= <-]|]. destruct (stop_resend _); try done. rewrite bind_Ok.
  intros [= <-] i st'. simpl. rewrite lookup_insert. case_decide; [by intros [= <-]|apply Hch].
Qed.

Lemma stop_loop_channels cond f l c c' : channels_ok c → stop_loop cond f l c = Ok c' → channels_ok c'.
Proof.
  revert c. induction l as [|p l IH]; cbn [stop_loop]; intros c Hch; [by intros [= <-]|].
  intros (c1 & Hs & Hl)%bind_Ok_inv. apply (IH c1); [|done].
  destruct (cond p); [by eapply Peer_Stop_channels|by simplify_eq].
Qed.

Lemma banEndpoint_channels order ep d now c c' :
  channels_ok c → banEndpoint order ep d now c = Ok c' → channels_ok c'.
Proof.
  intros Hch. unfold banEndpoint, write_ban. destruct (bans_nil c); [done|]. rewrite bind_Ok.
  destruct (0 <? d); [|by intros [= <-]].
  unfold c_Slice. destruct (PeerStore_Slice _ _) as [l ps]. by apply stop_loop_channels.
Qed.

Lemma Peer_put_wf p x c c' : controller_wf c → Peer_put p x c = Ok c' → controller_wf c'.
Proof.
  intros [Hw Hh Hr Hres Hbn]. unfold Peer_put. destruct (peer_state c p) as [st|] eqn:Hp; [|by intros [= <-]].
  intros ([ch [b d]] & _ & [= <-])%bind_Ok_inv. split; simpl; [done| |done| |done].
  - intros h q Hq. rewrite lookup_insert. case_decide; [by eexists|by apply (Hh h)].
  - intros i st' pr. rewrite lookup_insert. case_decide; [|apply Hres]. subst i. intros [= <-]. simpl.
    by apply (Hres (peer_ref p) st).
Qed.

Lemma Peer_Send_wf p x c c' : controller_wf c → Peer_Send p x c = Ok c' → controller_wf c'.
Proof.
  intros Hwf. rewrite Peer_Send_eq. destruct (peer_state c p) as [st|]; [|by intros [= <-]].
  destruct (ps_stopped st); [by intros [= <-]|]. by apply Peer_put_wf.
Qed.

(** what other goroutines may do in the middle of a [Send]: anything that keeps the state
    sound, to channels made with their capacity once and for all *)
Definition gap_ok (gap : controller → controller) : Prop :=
  ∀ c, ctl_ok c → ctl_ok (gap c) ∧
    ∀ i st st', heap c !! i = Some st → heap (gap c) !! i = Some st' → pc_cap (ps_send st') = pc_cap (ps_send st).

Lemma Peer_put_ok p x c :
  ctl_ok c → (∀ st, peer_state c p = Some st → 0 ≤ pc_cap (ps_send st)) →
  if send_closed c p then Peer_put p x c = Panic else ∃ c', Peer_put p x c = Ok c' ∧ ctl_ok c'.
Proof.
  intros [Hwf Hch] Hcap. pose proof (Peer_put_wf p x c) as Hput. unfold send_closed, Peer_put in *.
  destruct (peer_state c p) as [st|] eqn:Hp; [|by eexists].
  pose proof (Send_returns (ps_send st) x (Hcap st eq_refl)) as Hs.
  destruct (pc_closed (ps_send st)) eqn:Hcl; [by rewrite Hs|]. destruct Hs as [[ch [sent dropped]] Hs].
  rewrite Hs, bind_Ok in *. eexists. split; [done|]. split; [by eapply Hput|].
  intros i st'. simpl. rewrite lookup_insert. case_decide; [|apply Hch]. intros [= <-]. simpl. intros Hrun.
  destruct (Hch _ st Hp Hrun) as (Hopen & Hpwf & Hpos).
  destruct (Send_open (ps_send st) x Hpwf Hpos Hopen) as [HS Hwf']. rewrite HS in Hs. by simplify_eq.
Qed.

(** a [Send] beside other goroutines panics exactly when it is raced *)
Lemma Peer_Send_beside_ok gap p x c :
  ctl_ok c → gap_ok gap →
  if send_raced gap c p then Peer_Send_beside gap p x c = Panic
  else ∃ c', Peer_Send_beside gap p x c = Ok c' ∧ ctl_ok c'.
Proof.
  intros Hok Hgap. unfold send_raced, Peer_Send_beside. destruct (running c p) eqn:Hrun; [|by eexists].
  destruct (Hgap c Hok) as [Hok' Hcaps]. cbn [andb]. apply Peer_put_ok; [done|].
  intros st' Hst'. unfold running in Hrun. destruct (peer_state c p) as [st|] eqn:Hst; [|done].
  rewrite (Hcaps _ _ _ Hst Hst'). apply negb_true_iff in Hrun.
  destruct (ck_channels _ Hok _ _ Hst Hrun) as (_ & _ & ?). lia.
Qed.

(** nothing can go wrong when nothing happens in between *)
Lemma send_raced_alone c p : channels_ok c → send_raced (λ c, c) c p = false.
Proof.
  intros Hch. unfold send_raced, running, send_closed. destruct (peer_state c p) as [st|] eqn:Hst; [|done].
  destruct (ps_stopped st) eqn:Hs; [done|]. by destruct (Hch _ _ Hst Hs) as [-> _].
Qed.

(** ** How the loop may end early

    A [Send] that is raced panics, and a lock may never be given; nothing else. *)
Definition raced (W : oracle) : Prop := ∃ k c p, ctl_ok c ∧ send_raced (o_gap W k) c p = true.
Definition waits (W : oracle) : Prop := ∃ k, o_waits W k = true.
Definition calm (W : oracle) : Prop := ¬ raced W ∧ ¬ waits W.

Definition ends {A} (W : oracle) (r : outcome () A) (Q : A → Prop) : Prop :=
  match r with Ok a => Q a | Panic => raced W | Err _ => waits W | OutOfFuel => False end.

Lemma ends_bind {A B} W (r : outcome () A) (f : A → outcome () B) Q R :
  ends W r Q → (∀ a, Q a → ends W (f a) R) → ends W (r ≫= f) R.
Proof. destruct r; simpl; auto. Qed.
Lemma ends_mono {A} W (r : outcome () A) (Q R : A → Prop) : ends W r Q → (∀ a, Q a → R a) → ends W r R.
Proof. destruct r; simpl; auto. Qed.
Lemma ends_calm {A} W (r : outcome () A) Q : calm W → ends W r Q → ∃ a, r = Ok a ∧ Q a.
Proof. intros [Hr Hw]. destruct r; simpl; [by eexists|done..]. Qed.

Section Spec.
Context {G : Type} `{Rng G} `{ProtoLibLaws}.
Context (type_id : string → Z).
Context (order : list Peer → list Peer) (Horder : is_order order).
Context (conf : Configuration) (Hconf : conf_ok conf) (Hcap : 0 < ChannelCapacity conf).
Context (Hshare : 0 ≤ PeerShareAmount conf) (instanceID : Z) (Hid : is_u64 instanceID).
Context (W : oracle) (Hothers : ∀ k c, ctl_ok c → ctl_ok (o_others W k c)).
Context (Hgap : ∀ k, gap_ok (o_gap W k)).

Lemma outgoing_channels ref con ep ctl :
  channels_ok ctl → channels_ok (mv_ctl (handshakeOutgoing type_id conf instanceID ref con ep ctl)).
Proof.
  intros Hch. unfold handshakeOutgoing. destruct (SendHandshake _ _) as [p [u|e| |]]; try done. cbn [fst snd].
  destruct (detectProtocolFromFirstMessage conf (any_conn p)) as [c' [[prot reply]|e| |]]; try done.
  destruct (_ =? _); [done|]. cbv zeta. destruct (_ =? TypeRejectAlternative); [done|]. unfold establish, newPeer.
  destruct ((if PeerResendFilter conf then _ else _) : outcome () _); try done. rewrite bind_Ok.
  intros i st. simpl. rewrite lookup_insert. case_decide; [|apply Hch]. intros [= <-] _. simpl.
  unfold pc_wf. simpl. change (@zlen (option Parcel) []) with 0. split_and!; (done || lia).
Qed.

Lemma Dial_channels now now' now_ban con ref ep d ctl dd :
  channels_ok ctl →
  controller_Dial type_id order conf instanceID now now' now_ban con ref ep d ctl = Ok dd →
  channels_ok (dd_ctl dd).
Proof.
  intros Hch. unfold controller_Dial. destruct (Dialer_Dial now now' con d ep) as [d' [c|e| |]];
    try by intros [= <-].
  pose proof (outgoing_channels ref c ep ctl Hch) as Hm.
  destruct (mv_result _) as [peer|e| |]; [by intros [= <-]| |done..].
  destruct e; try (case_match; by intros [= <-]).
  intros (ctl' & Hb & [= <-])%bind_Ok_inv. by eapply banEndpoint_channels.
Qed.

Lemma access_ok s s' k : rp_ok s → access W s = (s', k) → rp_ok s' ∧ rp_dialed s' = rp_dialed s.
Proof. intros [Hc Hs] [= <- <-]. split; [split; [by apply Hothers|done]|done]. Qed.

#[local] Ltac next_access :=
  match goal with
  | |- context [access W ?s] =>
      let s' := fresh "s" in let k := fresh "k" in let E := fresh "E" in
      destruct (access W s) as [s' k] eqn:E;
      apply access_ok in E; [destruct E as [? ?]|done]
  end.

Lemma canDial_ok ep s b s' : rp_ok s → canDial W ep s = (b, s') → rp_ok s' ∧ rp_dialed s' = rp_dialed s.
Proof.
  intros Hok. unfold canDial. next_access. case_match; [intros [= <- <-]; by split|].
  next_access. case_match; [intros [= <- <-]; split; [done|congruence]|].
  next_access. intros [= <- <-]. split; [done|congruence].
Qed.

Lemma replenish_Dial_ok ep s :
  rp_ok s → ∃ p alts s', replenish_Dial type_id order conf instanceID W ep s = Ok (p, alts, s') ∧
    rp_ok s' ∧ rp_dialed s' = rp_dialed s ++ [ep] ∧ (p ≠ None → alts = []).
Proof.
  intros Hok. unfold replenish_Dial. next_access.
  match goal with Hs : rp_ok ?s1 |- _ => destruct Hs as [[Hwf Hch] Hseed] end.
  destruct (Dial_lemma type_id order conf instanceID (o_clock W k 0) (o_clock W k 1) (o_clock W k 2)
    (o_con W k) (o_ref W k) ep (rp_dialer s0) (rp_ctl s0) Hconf Hid Hwf Horder) as (dd & Hdd & _ & Hwf' & _ & Hp).
  rewrite Hdd, bind_Ok. eexists _, _, _. split_and!; [done| | |].
  - split; [split; [done|by eapply Dial_channels]|done].
  - simpl. congruence.
  - intros Hne. destruct (Dialer_Dial _ _ _ _ _).2 as [c| | |]; [|by destruct Hp as (? & ? & _)..].
    cbv zeta in Hp. destruct (mv_result _) as [[peer prot]|[]| |]; try done; by destruct Hp as (? & ? & _).
Qed.

Lemma dial_loop_lemma limit attempts connect s :
  rp_ok s → attempts ≤ limit →
  ∃ l s', dial_loop type_id order conf instanceID W (dial_fuel connect) limit attempts connect s =
      Ok (attempts + zlen l, s') ∧
    rp_ok s' ∧ rp_dialed s' = rp_dialed s ++ l ∧ l `sublist_of` connect ∧ attempts + zlen l ≤ limit.
Proof.
  unfold dial_fuel. revert attempts s. induction connect as [|ep connect IH]; intros attempts s Hok Hlim.
  { exists [], s. rewrite app_nil_r, zlen_nil, Z.add_0_r. by split_and!. }
  assert (Hstop : ∀ s1, rp_ok s1 → rp_dialed s1 = rp_dialed s → ∃ l s', @Ok () _ (attempts, s1) =
    Ok (attempts + zlen l, s') ∧ rp_ok s' ∧ rp_dialed s' = rp_dialed s ++ l ∧
    l `sublist_of` ep :: connect ∧ attempts + zlen l ≤ limit).
  { intros s1 Hs1 Hd1. exists [], s1. rewrite app_nil_r, zlen_nil, Z.add_0_r.
    split_and!; [done..|apply sublist_nil_l|done]. }
  cbn [length]. revert IH. generalize (S (length connect)) as n. intros n IH. cbn [dial_loop].
  destruct (Z.leb_spec limit attempts); [by apply Hstop|].
  next_access. case_match; [by apply Hstop|].
  destruct (canDial W ep s0) as [can s1] eqn:EC. apply canDial_ok in EC as [Hok1 Hd1]; [|done].
  destruct can; cbn [negb].
  - destruct (replenish_Dial_ok ep s1 Hok1) as (p & alts & s2 & HD & Hok2 & Hd2 & Halts). rewrite HD, bind_Ok.
    assert ((match p with Some _ => connect ++ alts | None => connect end) = connect) as ->.
    { destruct p; [|done]. by rewrite Halts, app_nil_r. }
    destruct (IH (attempts + 1) s2 Hok2) as (l & s3 & Hl & Hok3 & Hd3 & Hsub & Hle); [lia|].
    exists (ep :: l), s3. rewrite zlen_cons. replace (attempts + (1 + zlen l)) with (attempts + 1 + zlen l) by lia.
    split_and!; [done|done| |by apply sublist_skip|done]. rewrite Hd3, Hd2, <-app_assoc. simpl. congruence.
  - destruct (IH attempts s1 Hok1 Hlim) as (l & s3 & Hl & Hok3 & Hd3 & Hsub & Hle).
    exists l, s3. split_and!; [exact Hl|done|congruence|by apply sublist_cons|done].
Qed.

(** [C15] The dialing of the replenish loop ends, whatever the other goroutines, the
    clock and the network do: the endpoints it dials are some of those collected,
    each once and in their order, and within the limit of attempts.  The alternatives
    of a node that declines are never dialed, since they come without a peer. *)
Theorem dial_loop_terminates limit attempts connect s :
  rp_ok s → attempts ≤ limit →
  ∃ l s', dial_loop type_id order conf instanceID W (dial_fuel connect) limit attempts connect s =
      Ok (attempts + zlen l, s') ∧
    rp_ok s' ∧ rp_dialed s' = rp_dialed s ++ l ∧ l `sublist_of` connect ∧ attempts + zlen l ≤ limit.
Proof. apply dial_loop_lemma. Qed.

Lemma gather_ok eps connect s connect' s' :
  rp_ok s → gather W eps connect s = (connect', s') →
  rp_ok s' ∧ rp_dialed s' = rp_dialed s ∧ ∃ l, connect' = connect ++ l ∧ l `sublist_of` eps.
Proof.
  revert connect s. induction eps as [|ep eps IH]; intros connect s Hok; cbn [gather].
  { intros [= <- <-]. split_and!; [done..|]. exists []. by rewrite app_nil_r. }
  destruct (canDial W ep s) as [can s1] eqn:EC. apply canDial_ok in EC as [Hok1 Hd1]; [|done].
  intros HG. destruct (IH _ _ Hok1 HG) as (? & ? & l & -> & Hsub). split_and!; [done|congruence|].
  destruct can; [exists (ep :: l)|exists l]; [rewrite <-app_assoc|]; (split; [done|]).
  - by apply sublist_skip.
  - by apply sublist_cons.
Qed.

Lemma bootstrap_ok eps s :
  rp_ok s → ∃ l s', bootstrap_loop type_id order conf instanceID W eps s = Ok s' ∧ rp_ok s' ∧
    rp_dialed s' = rp_dialed s ++ l ∧ l `sublist_of` eps.
Proof.
  revert s. induction eps as [|ep eps IH]; intros s Hok; cbn [bootstrap_loop].
  { exists [], s. by rewrite app_nil_r. }
  destruct (canDial W ep s) as [can s1] eqn:EC. apply canDial_ok in EC as [Hok1 Hd1]; [|done].
  destruct can.
  - destruct (replenish_Dial_ok ep s1 Hok1) as (p & alts & s2 & -> & Hok2 & Hd2 & _). rewrite bind_Ok.
    destruct (IH s2 Hok2) as (l & s3 & -> & Hok3 & Hd3 & Hsub). exists (ep :: l), s3.
    split_and!; [done|done| |by apply sublist_skip]. rewrite Hd3, Hd2, <-app_assoc. simpl. congruence.
  - destruct (IH s1 Hok1) as (l & s3 & -> & Hok3 & Hd3 & Hsub). exists l, s3.
    split_and!; [done|done|congruence|by apply sublist_cons].
Qed.

Lemma seed_size_ok s n s' : rp_ok s → seed_size W s = (n, s') → rp_ok s' ∧ rp_dialed s' = rp_dialed s.
Proof.
  intros Hok. unfold seed_size, size. next_access. match goal with Hs : rp_ok s0 |- _ => destruct Hs as [Hctl Hseed] end.
  pose proof (retrieve_lemma (o_clock W k 0) (o_clock W k 1) (o_response W k) (rp_seed s0) Hseed) as Hr.
  destruct (retrieve _ _ _ _) as [eps sd]. destruct Hr as (_ & _ & Hv & _). by intros [= <- <-].
Qed.

Lemma seed_retrieve_ok s eps s' :
  rp_ok s → seed_retrieve W s = (eps, s') →
  rp_ok s' ∧ rp_dialed s' = rp_dialed s ∧ Forall (λ ep, Endpoint_Valid ep = true) eps.
Proof.
  intros Hok. unfold seed_retrieve. next_access. match goal with Hs : rp_ok s0 |- _ => destruct Hs as [Hctl Hseed] end.
  pose proof (retrieve_lemma (o_clock W k 0) (o_clock W k 1) (o_response W k) (rp_seed s0) Hseed) as Hr.
  destruct (retrieve _ _ _ _) as [eps' sd]. destruct Hr as (Hev & _ & Hv & _). by intros [= <- <-].
Qed.

Lemma min_reseed_ok s m s' : rp_ok s → min_reseed conf W s = (m, s') → rp_ok s' ∧ rp_dialed s' = rp_dialed s.
Proof.
  intros Hok. unfold min_reseed. destruct (seed_size W s) as [n s1] eqn:E1.
  apply seed_size_ok in E1 as [Hok1 Hd1]; [|done]. case_match; [|by intros [= <- <-]].
  destruct (seed_size W s1) as [n2 s2] eqn:E2. apply seed_size_ok in E2 as [Hok2 Hd2]; [|done].
  intros [= <- <-]. split; [done|congruence].
Qed.

Lemma reseed_ok connect s (g : G) connect' s' g' :
  rp_ok s → reseed conf W connect s g = (connect', s', g') →
  rp_ok s' ∧ rp_dialed s' = rp_dialed s ∧
  ∃ l, connect' = connect ++ l ∧ Forall (λ ep, Endpoint_Valid ep = true) l.
Proof.
  intros Hok. unfold reseed. destruct (min_reseed conf W s) as [m s1] eqn:E1.
  apply min_reseed_ok in E1 as [Hok1 Hd1]; [|done]. next_access. case_match.
  2: { intros [= <- <- <-]. split_and!; [done|congruence|]. exists []. by rewrite app_nil_r. }
  destruct (seed_retrieve W s0) as [seeds s2] eqn:E2. apply seed_retrieve_ok in E2 as (Hok2 & Hd2 & Hv); [|done].
  pose proof (Shuffle_Permutation seeds g) as Hperm. destruct (Shuffle seeds g) as [seeds' g1]. cbn [fst] in Hperm.
  assert (Hv' : Forall (λ ep, Endpoint_Valid ep = true) seeds') by by rewrite Hperm.
  set (s3 := with_seed _ s2). assert (Hok3 : rp_ok s3).
  { destruct Hok2. split; [done|]. by intros eps [= <-]. }
  assert (Hd3 : rp_dialed s3 = rp_dialed s2) by done.
  destruct (gather W seeds' connect s3) as [c4 s4] eqn:E4.
  apply gather_ok in E4 as (Hok4 & Hd4 & l & -> & Hsub); [|done].
  destruct (access W s4) as [s5 k5] eqn:E5. apply access_ok in E5 as [[Hc5 Hs5] Hd5]; [|done].
  intros [= <- <- <-]. split_and!; [done|simpl; congruence|]. exists l. split; [done|].
  by apply (sublist_Forall _ _ _ Hsub).
Qed.

(** the time of a request is kept *)
Lemma lastPeerSend_ok t i c : ctl_ok c → ctl_ok (set_heap (alter (with_lastPeerSend t) i (heap c)) c).
Proof.
  intros [[Hw Hh Hr Hres Hbn] Hch]. split; [split; simpl; try done|].
  - intros h p Hp. rewrite lookup_alter. case_decide as E; [|by apply (Hh h)].
    destruct (Hh h p Hp) as [st Hst]. rewrite E, Hst. by eexists.
  - intros j st pr. rewrite lookup_alter. case_decide; [|apply Hres]. subst j.
    destruct (heap c !! i) as [st0|] eqn:Hst; [|done]. simpl. intros [= <-]. by apply (Hres i st0).
  - intros j st. simpl. rewrite lookup_alter. case_decide; [|apply Hch]. subst j.
    destruct (heap c !! i) as [st0|] eqn:Hst; [|done]. simpl. intros [= <-]. by apply (Hch i st0).
Qed.

Lemma asyncPeerRequest_ok peer s (g : G) :
  rp_ok s →
  ends W (asyncPeerRequest type_id conf W peer s g) (λ '(eps, s', g'),
    rp_ok s' ∧ rp_dialed s' = rp_dialed s ∧ ∀ l, eps = Some l → Forall (λ ep, Endpoint_Valid ep = true) l).
Proof.
  intros Hok. unfold asyncPeerRequest. next_access. destruct (o_waits W k) eqn:Hw; [by exists k|].
  match goal with Hs : rp_ok s0 |- _ => destruct Hs as [Hctl Hseed] end.
  set (c := set_heap _ (rp_ctl s0)).
  assert (Hc : ctl_ok c) by by apply lastPeerSend_ok.
  pose proof (Peer_Send_beside_ok (o_gap W k) peer (Some (newParcel TypePeerRequest (str_bytes "Peer Request"))) c Hc (Hgap k)) as HS.
  destruct (send_raced (o_gap W k) c peer) eqn:Hraced; [rewrite HS; by exists k, c, peer|].
  destruct HS as (c' & -> & Hc'). rewrite bind_Ok.
  destruct (access W (with_ctl c' s0)) as [s2 k2] eqn:E2. apply access_ok in E2 as [Hok2 Hd2]; [|done].
  change (rp_dialed (with_ctl c' s0)) with (rp_dialed s0) in Hd2.
  destruct (o_waits W k2) eqn:Hw2; [by exists k2|].
  destruct (o_answer W k2) as [parcel|]; [|split_and!; [done|congruence|done]].
  set (share := processPeerShare _ _ _ _).
  destruct (shuffleTrimShare_lemma conf share g Hshare) as [Hsub _].
  destruct (shuffleTrimShare conf share g) as [l g1]. cbn [fst] in Hsub.
  split_and!; [done|congruence|]. intros ? [= <-].
  apply Forall_forall. intros ep Hep. pose proof (elem_of_submseteq _ _ _ Hep Hsub) as Hin. revert Hin.
  unfold share, processPeerShare. destruct (ParsePeerShare _ _) as [eps| | |]; try (by intros []%not_elem_of_nil).
  rewrite share_loop_spec. case_decide as Hall; [|by intros []%not_elem_of_nil].
  intros [_ Hin]%list_elem_of_filter. by rewrite Forall_forall in Hall; apply Hall.
Qed.

Lemma request_peer_ok connect s (g : G) :
  rp_ok s →
  ends W (request_peer type_id order conf W connect s g) (λ '(connect', s', g'),
    rp_ok s' ∧ rp_dialed s' = rp_dialed s ∧
    ∃ l, connect' = connect ++ l ∧ Forall (λ ep, Endpoint_Valid ep = true) l).
Proof.
  intros Hok. unfold request_peer.
  assert (Hnone : ∀ s1 (g1 : G), rp_ok s1 → rp_dialed s1 = rp_dialed s →
    rp_ok s1 ∧ rp_dialed s1 = rp_dialed s ∧ ∃ l, connect = connect ++ l ∧ Forall (λ ep, Endpoint_Valid ep = true) l).
  { intros s1 g1 ? ?. split_and!; [done|done|]. exists []. by rewrite app_nil_r. }
  next_access. destruct (0 <? _); [|by apply Hnone].
  next_access. match goal with Hs : rp_ok s1 |- _ => destruct Hs as [[Hwf Hch] Hseed] end.
  unfold randomPeerConditional. destruct (c_Slice order (rp_ctl s1)) as [l c] eqn:HS.
  destruct (c_Slice_spec order _ _ _ Hwf Horder HS) as (Hwfc & _).
  destruct (c_Slice_sliced order _ _ _ Hwf Horder HS) as (Hsl & _).
  assert (Hokc : rp_ok (with_ctl c s1)).
  { split; [split; [done|by eapply channels_sliced]|done]. }
  match goal with |- context [0 <? zlen ?f] => set (filtered := f); destruct (Z.ltb_spec 0 (zlen filtered)) as [Hl|Hl] end.
  2: { rewrite bind_Ok. apply Hnone; [done|done|]. simpl. congruence. }
  destruct (pick_spec filtered g Hl) as (p & g1 & -> & _).
  rewrite !bind_Ok.
  eapply ends_bind; [by apply (asyncPeerRequest_ok p (with_ctl c s1) g1)|]. intros [[eps s2] g2] (Hok2 & Hd2 & Hv).
  change (rp_dialed (with_ctl c s1)) with (rp_dialed s1) in Hd2.
  destruct eps as [eps|]; [|apply Hnone; [done|done|congruence]].
  destruct (Z.ltb_spec 0 (zlen eps)) as [He|He]; [|apply Hnone; [done|done|congruence]].
  destruct (Intn_Ok (zlen eps) g2 He) as (i & g3 & -> & Hi). rewrite bind_Ok. unfold zlen in Hi.
  destruct (lookup_lt_is_Some_2 eps (Z.to_nat i)) as [ep Hep]; [lia|]. rewrite Hep.
  destruct (canDial W ep s2) as [can s3] eqn:EC. apply canDial_ok in EC as [Hok3 Hd3]; [|done].
  destruct can; [|apply Hnone; [done|done|congruence]].
  split_and!; [done|congruence|]. exists [ep]. split; [done|].
  apply Forall_singleton. specialize (Hv eps eq_refl). rewrite Forall_forall in Hv. apply Hv.
  by eapply list_elem_of_lookup_2.
Qed.

(** One turn: what it dials are special endpoints and valid ones from the seed or from
    a peer, and it sleeps when it has dialed none. *)
Lemma replenish_round_ok s (g : G) :
  rp_ok s →
  ends W (replenish_round type_id order conf instanceID W s g) (λ '(sleeps, s', g'),
    rp_ok s' ∧ ∃ l, rp_dialed s' = rp_dialed s ++ l ∧ (sleeps = true ↔ l = []) ∧
    Forall (λ ep, ep ∈ specialEndpoints (o_others W (rp_access s) (rp_ctl s)) ∨ Endpoint_Valid ep = true) l).
Proof.
  intros Hok. unfold replenish_round. destruct (access W s) as [s0 k] eqn:E.
  assert (Hsp : specialEndpoints (rp_ctl s0) = specialEndpoints (o_others W (rp_access s) (rp_ctl s)))
    by (unfold access in E; by simplify_eq).
  rewrite <-Hsp. apply access_ok in E as [Hok0 Hd0]; [|done]. case_match.
  { split; [done|]. exists []. rewrite app_nil_r. by split_and!; [..|constructor]. }
  destruct (gather W _ [] s0) as [c1 s1] eqn:E1. apply gather_ok in E1 as (Hok1 & Hd1 & l1 & -> & Hl1); [|done].
  destruct (reseed conf W ([] ++ l1) s1 g) as [[c2 s2] g2] eqn:E2.
  apply reseed_ok in E2 as (Hok2 & Hd2 & l2 & -> & Hl2); [|done].
  eapply ends_bind; [by apply request_peer_ok|]. intros [[connect s3] g3] (Hok3 & Hd3 & l3 & -> & Hl3).
  set (connect := (([] ++ l1) ++ l2) ++ l3).
  destruct (dial_loop_lemma (zlen connect + 5) 0 connect s3 Hok3) as (l & s4 & -> & Hok4 & Hd4 & Hsub & _).
  { pose proof (zlen_nonneg connect). lia. }
  rewrite bind_Ok. split; [done|]. exists l. split_and!; [congruence| |].
  - rewrite Z.eqb_eq. pose proof (zlen_nonneg l). split; [intros; apply zlen_0; lia|by intros ->].
  - apply (sublist_Forall _ _ _ Hsub). unfold connect. rewrite !Forall_app. cbn [app]. split_and!.
    + constructor.
    + apply Forall_forall. intros ep Hep. left. revert ep Hep. apply Forall_forall, (sublist_Forall _ _ _ Hl1), Forall_forall. done.
    + eapply Forall_impl; [exact Hl2|]. by right.
    + eapply Forall_impl; [exact Hl3|]. by right.
Qed.

(** [C8] One turn of the replenish loop, among other goroutines that do what they like
    with a sound controller, also in the middle of its [Send], as long as they do not
    close the channel of the peer there and give back [shareMtx].  It ends without a
    panic and keeps the controller sound; what it dials are special endpoints and valid
    ones from the seed or shared by a peer; and it sleeps exactly when it has dialed
    nothing. *)
Theorem replenish_round_spec s (g : G) :
  rp_ok s → calm W →
  ∃ sleeps l s' g', replenish_round type_id order conf instanceID W s g = Ok (sleeps, s', g') ∧
    rp_ok s' ∧ rp_dialed s' = rp_dialed s ++ l ∧ (sleeps = true ↔ l = []) ∧
    Forall (λ ep, ep ∈ specialEndpoints (o_others W (rp_access s) (rp_ctl s)) ∨ Endpoint_Valid ep = true) l.
Proof.
  intros Hok Hcalm. destruct (ends_calm _ _ _ Hcalm (replenish_round_ok s g Hok)) as ([[sl s'] g'] & -> & Hok' & l & ?).
  by exists sl, l, s', g'.
Qed.

Lemma replenish_turns_ok n s (g : G) :
  rp_ok s →
  ends W (replenish_turns type_id order conf instanceID W n s g) (λ '(s', _),
    rp_ok s' ∧ ∃ k, rp_dialed s' = rp_dialed s ++ k).
Proof.
  revert s g. induction n as [|n IH]; intros s g Hok; cbn [replenish_turns].
  { split; [done|]. exists []. by rewrite app_nil_r. }
  eapply ends_bind; [by apply replenish_round_ok|]. intros [[sl s1] g1] (Hok1 & k1 & Hd1 & _).
  eapply ends_mono; [by apply IH|]. intros [s2 g2] (Hok2 & k2 & Hd2). split; [done|].
  exists (k1 ++ k2). by rewrite Hd2, Hd1, app_assoc.
Qed.

End Spec.

(** With an empty list of seeds the limit below which the node reseeds wraps around to
    the largest number: the node reseeds in every turn however many peers it has,
    since no number of peers is above the limit. *)
Theorem min_reseed_underflow conf W s :
  cache (rp_seed s) = Some [] → 0 < MinReseed conf →
  (∀ k i, time_since (o_clock W k i) (cacheTime (rp_seed s)) ≤ cacheTTL (rp_seed s)) →
  (min_reseed conf W s).1 = 2 ^ 64 - 1 ∧ ∀ total, u64 total <= (min_reseed conf W s).1.
Proof.
  intros Hc Hm Ht.
  assert (Hsize : ∀ s1, rp_seed s1 = rp_seed s → (seed_size W s1).1 = 0 ∧ rp_seed (seed_size W s1).2 = rp_seed s).
  { intros s1 Hs1. unfold seed_size, size, retrieve. simpl. rewrite Hs1, Hc.
    rewrite (proj2 (Z.leb_le _ _)) by apply Ht. simpl. by rewrite Hc. }
  assert (H : (min_reseed conf W s).1 = 2 ^ 64 - 1).
  { unfold min_reseed. destruct (Hsize s eq_refl) as [Hn Hs1]. destruct (seed_size W s) as [n s1]. simpl in Hn, Hs1. subst n.
    rewrite (proj2 (Z.ltb_lt _ _)) by done. destruct (Hsize s1 Hs1) as [Hn _].
    destruct (seed_size W s1) as [n2 s2]. simpl in Hn. subst n2. by vm_compute. }
  split; [exact H|]. intros total. rewrite H. pose proof (u64_range total). unfold is_u64 in *. lia.
Qed.

(** ** A node that is offline *)

#[local] Existing Instance documented_ProtoLib.
Definition offline : oracle :=
  MkOracle (λ _ c, c) (λ _ _, 1000) (λ _, None) (λ k, k) (λ _, None) (λ _, None)
    (λ _, Any11 fresh_v11) (λ _ c, c) (λ _, false).
Definition rp_a : replenish := MkReplenish ctl_ab dialer_a (newSeed 10) 0 0 [].

Lemma gap_ok_id : gap_ok (λ c, c).
Proof. intros c Hok. split; [done|]. intros i st st' Hst Hst'. congruence. Qed.
Lemma offline_calm : calm offline.
Proof.
  split; [|by intros [k Hk]]. intros (k & c & p & Hok & Hr). revert Hr. simpl.
  by rewrite send_raced_alone by apply Hok.
Qed.

Lemma rp_a_ok : rp_ok rp_a.
Proof. split; [split; [apply ctl_ab_wf|apply ctl_ab_channels]|by intros ? [=]]. Qed.

Lemma conf_a_facts : conf_ok conf_a ∧ 0 < ChannelCapacity conf_a ∧ 0 ≤ PeerShareAmount conf_a.
Proof. split; [apply conf_version_ok; set_solver|]. by vm_compute. Qed.

Theorem dial_loop_terminates_witness :
  ∃ l s', dial_loop ids3 (λ l, l) conf_a 1 offline (dial_fuel [ep_v6; ep_v6]) 7 0 [ep_v6; ep_v6] rp_a =
      Ok (0 + zlen l, s') ∧
    rp_ok s' ∧ rp_dialed s' = rp_dialed rp_a ++ l ∧ l `sublist_of` [ep_v6; ep_v6] ∧ 0 + zlen l ≤ 7.
Proof.
  destruct conf_a_facts as (Hc & Hcap & _).
  apply (dial_loop_terminates ids3 (λ l, l) is_order_id conf_a Hc Hcap 1); [unfold is_u64; lia|by intros|apply rp_a_ok|lia].
Defined.

Theorem replenish_round_spec_witness :
  ∃ sleeps l s' g', replenish_round ids3 (λ l, l) conf_a 1 offline rp_a 7 = Ok (sleeps, s', g') ∧
    rp_ok s' ∧ rp_dialed s' = rp_dialed rp_a ++ l ∧ (sleeps = true ↔ l = []) ∧
    Forall (λ ep, ep ∈ specialEndpoints (o_others offline (rp_access rp_a) (rp_ctl rp_a)) ∨ Endpoint_Valid ep = true) l.
Proof.
  destruct conf_a_facts as (Hc & Hcap & Hs).
  apply (replenish_round_spec ids3 (λ l, l) is_order_id conf_a Hc Hcap Hs 1);
    [unfold is_u64; lia|by intros|by intros; apply gap_ok_id|apply rp_a_ok|apply offline_calm].
Defined.


(** *** The panic is real

    The connections of all peers break in the middle of each [Send]. *)
Definition all_end (c : controller) : controller :=
  set_heap ((λ st, MkPeerState true (ps_resend st) (MkPC (pc_cap (ps_send st)) (pc_items (ps_send st)) true)
    (ps_dropped st) (ps_lastPeerRequest st) (ps_lastPeerSend st) (ps_lastSend st)) <$> heap c) c.
Definition breaking : oracle :=
  MkOracle (λ _ c, c) (λ _ _, Hour) (λ _, None) (λ k, k) (λ _, None) (λ _, None)
    (λ _, Any11 fresh_v11) (λ _, all_end) (λ _, false).

Lemma all_end_gap : gap_ok all_end.
Proof.
  intros c [[Hw Hh Hr Hres Hbn] _]. split; [split; [split; simpl; try done|]|].
  - intros h p Hp. rewrite lookup_fmap. destruct (Hh h p Hp) as [st ->]. by eexists.
  - intros i st pr. rewrite lookup_fmap. destruct (heap c !! i); [|done]. by intros [= <-].
  - intros i st. simpl. rewrite lookup_fmap. destruct (heap c !! i); [|done]. by intros [= <-].
  - intros i st st'. simpl. rewrite lookup_fmap. intros ->. by intros [= <-].
Qed.

Lemma catReplenish_panics :
  catReplenish ids3 (λ l, l) conf_a 1 breaking 1 [] rp_a 7 = Panic ∧ (∀ k, gap_ok (o_gap breaking k)).
Proof. split; [by vm_compute|]. intros k. apply all_end_gap. Qed.

Definition rp_no_seeds : replenish := MkReplenish ctl_ab dialer_a (MkSeed (Some []) 100 990) 0 0 [].
Theorem min_reseed_underflow_witness :
  (min_reseed conf_a offline rp_no_seeds).1 = 2 ^ 64 - 1 ∧
  ∀ total, u64 total <= (min_reseed conf_a offline rp_no_seeds).1.
Proof. apply min_reseed_underflow; [done|by vm_compute|]. intros k i. by vm_compute. Defined.
