(* ===== verification/PeerLoops.v ===== *)
(** * The loops of a peer and of the controller's data ([peer.go], [controller_routing.go])

    [readLoop] and [sendLoop] carry parcels between a connection and the channels of
    a peer, [manageData] answers what has arrived or passes it to the application.
    A turn of a loop is a function; the clock readings and the choices of [select]
    are arguments. *)
From S2P Require Import Prelude GoStd Sha Endpoint Parcel ParcelChannel PeerHashCache Configuration PeerStore.
From S2P Require Import Handshake Stream V11Wire V11Decode Gob GobSpec Json Protocol ProtocolV9 ProtocolV10.
From S2P Require Import ProtocolV11 Legacy Connections Rng Controller Routing Cat.

(** ** The loops of one connection *)

Section PeerLoops.
Context {P : Type} `{Protocol P}.

Record reader := MkReader {
  rd_prot : P;
  rd_lastReceive : Z;
  rd_ctl : controller;
}.

(** [if p.resend != nil && msg.IsApplicationMessage() { p.resend.Add(sha1.Sum(msg.Payload)) }] *)
Definition with_resend (pr : PeerHashCache) (st : PeerState) : PeerState :=
  MkPeerState (ps_stopped st) (Some pr) (ps_send st) (ps_dropped st) (ps_lastPeerRequest st)
    (ps_lastPeerSend st) (ps_lastSend st).
Definition note_payload (p : Peer) (msg : Parcel) (c : controller) : outcome () controller :=
  match peer_state c p with
  | Some st =>
      match ps_resend st with
      | Some pr =>
          if IsApplicationMessage msg then
            PeerHashCache_Add pr (sha1_Sum (Payload msg)) ≫= λ pr,
            Ok (set_heap (<[peer_ref p := with_resend pr st]> (heap c)) c)
          else Ok c
      | None => Ok c
      end
  | None => Ok c
  end.

(** one turn of [readLoop] up to [deliver]: the parcel to deliver, or the end of the loop *)
Definition readLoop_turn (now : Z) (p : Peer) (s : reader) : outcome () (reader * option Parcel) :=
  let r := Receive (rd_prot s) in
  let stop := MkReader r.1 (rd_lastReceive s) (rd_ctl s) in
  match r.2 with
  | Ok msg =>
      match Parcel_Valid (Some msg) with
      | Ok _ =>
          note_payload p msg (rd_ctl s) ≫= λ c,
          Ok (MkReader r.1 now c, Some (MkParcel (ptype msg) (Hash p) (Payload msg)))
      | _ => Ok (stop, None)
      end
  | Err _ => Ok (stop, None)
  | Panic => Panic
  | OutOfFuel => OutOfFuel
  end.

(** The loop, given the clock of each turn and whether [deliver] chooses [peerData]
    or, when the peer is stopped, [p.stop]: what has been delivered, and whether the
    loop has ended (else it is still waiting in [Receive]).  At its end the deferred
    [Stop] runs. *)
Fixpoint readLoop (turns : list (Z * bool)) (p : Peer) (s : reader) : outcome () (reader * list Parcel * bool) :=
  match turns with
  | [] => Ok (s, [], false)
  | (now, delivers) :: turns =>
      readLoop_turn now p s ≫= λ '(s, msg),
      match msg with
      | Some msg =>
          if delivers then
            readLoop turns p s ≫= λ '(s, l, ended), Ok (s, msg :: l, ended)
          else Peer_Stop p (rd_ctl s) ≫= λ c, Ok (MkReader (rd_prot s) (rd_lastReceive s) c, [], true)
      | None => Peer_Stop p (rd_ctl s) ≫= λ c, Ok (MkReader (rd_prot s) (rd_lastReceive s) c, [], true)
      end
  end.

Record writer := MkWriter { wr_prot : P; wr_lastSend : Z }.

(** [sendLoop] for the parcels it takes from the channel, each with the clock after it
    is sent: whether the loop ends with an error.  A nil parcel is skipped. *)
Fixpoint sendLoop (l : list (Z * option Parcel)) (s : writer) : outcome () (writer * bool) :=
  match l with
  | [] => Ok (s, false)
  | (_, None) :: l => sendLoop l s
  | (now, Some parcel) :: l =>
      let r := Send parcel (wr_prot s) in
      match r.2 with
      | Ok _ => sendLoop l (MkWriter r.1 now)
      | Err _ => Ok (MkWriter r.1 (wr_lastSend s), true)
      | Panic => Panic
      | OutOfFuel => OutOfFuel
      end
  end.
End PeerLoops.
Arguments reader P : clear implicits.
Arguments writer P : clear implicits.

(** the deferred calls of [sendLoop]: [p.Stop()], then [close(p.send)] *)
Definition with_send (ch : ParcelChannel) (st : PeerState) : PeerState :=
  MkPeerState (ps_stopped st) (ps_resend st) ch (ps_dropped st) (ps_lastPeerRequest st)
    (ps_lastPeerSend st) (ps_lastSend st).
Definition close_channel (ch : ParcelChannel) : outcome () ParcelChannel :=
  if pc_closed ch then Panic else Ok (MkPC (pc_cap ch) (pc_items ch) true).
Definition sendLoop_exit (p : Peer) (c : controller) : outcome () controller :=
  Peer_Stop p c ≫= λ c,
  match peer_state c p with
  | Some st =>
      close_channel (ps_send st) ≫= λ ch, Ok (set_heap (<[peer_ref p := with_send ch st]> (heap c)) c)
  | None => Ok c
  end.

(** [time.Since(p.lastSend)] *)
Definition LastSendAge (now : Z) (st : PeerState) : Z := time_since now (ps_lastSend st).

(** ** [Peer.Send] beside the end of [sendLoop]

    [Send] looks at [p.stop] first and sends into the channel afterwards; [sendLoop]
    closes both when it ends. *)
Inductive send_phase := SIdle | SChecked | SDone.
Inductive end_phase := ERunning | EStopped | EClosed.
Record send_race := MkRace { sr_send : send_phase; sr_end : end_phase; sr_chan : ParcelChannel }.
Inductive race_action := RCheck | RPut (parcel : option Parcel) | RStop | RClose.

(** [None] when the action is not the goroutine's next one *)
Definition race_step (s : send_race) (a : race_action) : outcome () (option send_race) :=
  match a, sr_send s, sr_end s with
  | RCheck, SIdle, ERunning => Ok (Some (MkRace SChecked (sr_end s) (sr_chan s)))
  | RCheck, SIdle, _ => Ok (Some (MkRace SDone (sr_end s) (sr_chan s)))
  | RPut parcel, SChecked, _ =>
      ParcelChannel_Send (sr_chan s) parcel ≫= λ '(ch, _), Ok (Some (MkRace SDone (sr_end s) ch))
  | RStop, _, ERunning => Ok (Some (MkRace (sr_send s) EStopped (sr_chan s)))
  | RClose, _, EStopped => close_channel (sr_chan s) ≫= λ ch, Ok (Some (MkRace (sr_send s) EClosed ch))
  | _, _, _ => Ok None
  end.
Fixpoint race_run (s : send_race) (l : list race_action) : outcome () (option send_race) :=
  match l with
  | [] => Ok (Some s)
  | a :: l => race_step s a ≫= λ s, match s with Some s => race_run s l | None => Ok None end
  end.

(** ** [manageData] *)

(** the goroutines it starts *)
Inductive routine :=
  | RPong (peer : Peer)
  | RShare (peer : Peer) (share : list Endpoint).

Record data_state := MkData {
  md_ctl : controller;
  md_fromNetwork : ParcelChannel;
  md_listeners : gmap string (list Parcel);  (* the channels of [shareListener], of one slot *)
  md_spawned : list routine;                 (* in the order they are started *)
}.
Definition set_ctl (c : controller) (s : data_state) : data_state :=
  MkData c (md_fromNetwork s) (md_listeners s) (md_spawned s).
Definition spawn (r : routine) (s : data_state) : data_state :=
  MkData (md_ctl s) (md_fromNetwork s) (md_listeners s) (md_spawned s ++ [r]).

Definition with_lastPeerRequest (t : Z) (st : PeerState) : PeerState :=
  MkPeerState (ps_stopped st) (ps_resend st) (ps_send st) (ps_dropped st) t
    (ps_lastPeerSend st) (ps_lastSend st).
Definition lastPeerRequest (c : controller) (p : Peer) : Z :=
  match peer_state c p with Some st => ps_lastPeerRequest st | None => zero_time end.

Section ManageData.
Context {G : Type} `{Rng G}.
Context (order : list Peer → list Peer) (conf : Configuration).

(** A turn for what it takes from [peerData]; [None] when it waits for ever for a
    listener that has an answer already.  A nil [peer] is dereferenced by a panic. *)
Definition manageData_turn (now now' : Z) (pp : option Peer * Parcel) (s : data_state) (g : G)
    : outcome () (option data_state * G) :=
  let (peer, parcel) := pp in
  if bool_decide (peer = None) && negb (IsApplicationMessage parcel) then Ok (Some s, g)
  else if ptype parcel =? TypePing then
    match peer with Some p => Ok (Some (spawn (RPong p) s), g) | None => Panic end
  else if (ptype parcel =? TypeMessage) || (ptype parcel =? TypeMessagePart) then
    ParcelChannel_Send (md_fromNetwork s) (Some (MkParcel TypeMessage (Address parcel) (Payload parcel)))
    ≫= λ '(ch, _), Ok (Some (MkData (md_ctl s) ch (md_listeners s) (md_spawned s)), g)
  else if ptype parcel =? TypePeerRequest then
    match peer with
    | None => Panic
    | Some p =>
        if PeerRequestInterval conf <=? time_since now (lastPeerRequest (md_ctl s) p) then
          let c := set_heap (alter (with_lastPeerRequest now') (peer_ref p) (heap (md_ctl s))) (md_ctl s) in
          makePeerShare order conf (peer_Endpoint p) c g ≫= λ '(share, c, g),
          Ok (Some (spawn (RShare p share) (set_ctl c s)), g)
        else Ok (Some s, g)
    end
  else if ptype parcel =? TypePeerResponse then
    match peer with
    | None => Panic
    | Some p =>
        match md_listeners s !! Hash p with
        | Some [] =>
            Ok (Some (MkData (md_ctl s) (md_fromNetwork s) (<[Hash p := [parcel]]> (md_listeners s))
                        (md_spawned s)), g)
        | Some _ => Ok (None, g)
        | None => Ok (Some s, g)
        end
    end
  else Ok (Some s, g).

(** several turns, each with its clock readings *)
Fixpoint manageData (l : list (Z * Z * (option Peer * Parcel))) (s : data_state) (g : G)
    : outcome () (option data_state * G) :=
  match l with
  | [] => Ok (Some s, g)
  | (now, now', pp) :: l =>
      manageData_turn now now' pp s g ≫= λ '(s, g),
      match s with Some s => manageData l s g | None => Ok (None, g) end
  end.

(** what a goroutine does, [prot] being the protocols of the peers *)
Definition run_routine {P} `{Protocol P} (prot : Peer → P) (r : routine) (c : controller) : outcome () controller :=
  match r with
  | RPong p => Peer_Send p (Some (newParcel TypePong (str_bytes "Pong"))) c
  | RShare p l => sharePeers (prot p) p l c
  end.
End ManageData.

(** ** [readLoop] ends with its connection *)

(** every [Receive] returns, and a parcel takes something from the stream *)
Class ProtocolTotal (P : Type) `{Protocol P} := {
  unread : P → nat;
  Receive_total p :
    match Receive p with
    | (p', Ok _) => (unread p' < unread p)%nat
    | (_, Err _) => True
    | _ => False
    end;
}.

(** a decoder takes at least one message for a value *)
Lemma Decode_shrinks t g :
  match Decode t g with
  | (g', Ok _) => (conn_bytes g' < conn_bytes g)%nat
  | (_, Err _) => True
  | _ => False
  end.
Proof.
  pose proof (Decode_total t g) as Ht. revert Ht. unfold Decode.
  generalize (S (length (bytes_in (gob_conn g)))) as fuel, true as first. intros fuel. revert g.
  induction fuel as [|fuel IH]; intros g first; [done|]. cbn [decode_loop].
  pose proof (recvMessage_total g) as Hr. destruct (recvMessage g) as [g1 [b| | |]]; try done.
  destruct (d_int b) as [[id b1]| | |]; try done. destruct (0 <=? id).
  - cbn [snd]. case_match; [|done].
    by destruct (decodeValue (gob_types g1) t id b1) as [[v r]| | |].
  - destruct (recvType (- id) b1 g1) as [g2| | |] eqn:Ht; try done. intros Hret.
    specialize (IH g2 false Hret).
    assert (conn_bytes g2 = conn_bytes g1) as Hg2.
    { unfold recvType in Ht. case_match; [done|]. apply bind_Ok_inv in Ht as ([v r] & _ & Ht).
      case_decide; [|done]. by simplify_eq. }
    destruct (decode_loop fuel false t g2) as [g3 [| | |]]; try done. lia.
Qed.

Lemma V9Msg_Valid_returns m : returns (V9Msg_Valid m).
Proof. unfold V9Msg_Valid. by repeat case_match. Qed.

Section Total.
Context (id : string → Z).

#[export] Instance V9_Total : ProtocolTotal ProtocolV9 (H:=V9_Protocol id).
Proof.
  refine {| unread := λ p : ProtocolV9, conn_bytes (v9_gob p) : nat |}.
  intros p. change (Receive p) with (V9_Receive p).
  unfold V9_Receive, v9_read, with_gob, io_bind. cbn [fst snd].
  pose proof (Decode_shrinks t_V9Msg (v9_gob p)) as Hd.
  destruct (Decode t_V9Msg (v9_gob p)) as [g [v|[]| |]]; try done. cbn [snd fst wrap_gob]. rewrite bind_Ok.
  pose proof (V9Msg_Valid_returns (V9Msg_of v)) as Hr. unfold io_lift.
  by destruct (V9Msg_Valid (V9Msg_of v)).
Defined.

#[export] Instance V10_Total : ProtocolTotal ProtocolV10 (H:=V10_Protocol id).
Proof.
  refine {| unread := λ p : ProtocolV10, conn_bytes (v10_gob p) : nat |}.
  intros p. change (Receive p) with (V10_Receive p).
  unfold V10_Receive, with_gob10, io_bind. cbn [fst snd].
  pose proof (Decode_shrinks t_V10Msg (v10_gob p)) as Hd.
  destruct (Decode t_V10Msg (v10_gob p)) as [g [v|[]| |]]; try done. cbn [snd fst wrap_gob]. rewrite bind_Ok.
  by destruct (_ =? 0).
Defined.
End Total.

Lemma readCheck_shrinks n p d p' :
  0 ≤ n → readCheck n p = (p', Ok d) → (length (v11_in p') + Z.to_nat n = length (v11_in p))%nat.
Proof.
  intros Hn E. pose proof (readCheck_spec n p Hn) as Hr. rewrite E in Hr. destruct Hr as [_ Hr].
  destruct (Z.leb_spec n (zlen (v11_in p))); [|naive_solver]. destruct Hr as [_ ->].
  rewrite length_drop. unfold zlen in *. lia.
Qed.

Section TotalV11.
Context `{ProtoLibLaws}.

Lemma readMessage_shrinks {M} `{ProtoMessage M} (m0 m : M) p p' :
  readMessage m0 p = (p', Ok m) → (length (v11_in p') < length (v11_in p))%nat.
Proof.
  unfold readMessage, io_bind. destruct (readCheck 4 p) as [p1 [buf|e| |]] eqn:E1; try done.
  apply readCheck_shrinks in E1; [|done]. cbv zeta. destruct (_ <? _); [done|].
  pose proof (be_Uint32_range buf) as [Hb _].
  destruct (readCheck (be_Uint32 buf) p1) as [p2 [data|e| |]] eqn:E2; try done.
  apply readCheck_shrinks in E2; [|done]. unfold io_lift. intros E. simplify_eq. lia.
Qed.

#[export] Instance V11_Total : ProtocolTotal ProtocolV11.
Proof.
  refine {| unread := λ p : ProtocolV11, length (v11_in p) : nat |}.
  intros p. change (Receive p) with (V11_Receive p). unfold V11_Receive, io_bind.
  assert (stream_fun (readMessage V11Msg_zero)) as Ht.
  { apply stream_fun_readMessage. intros. by apply Msg_Unmarshal_total. }
  destruct (Ht p p eq_refl) as (_ & _ & Hr).
  destruct (readMessage V11Msg_zero p) as [p' [m|e| |]] eqn:E; try done.
  by apply readMessage_shrinks in E.
Defined.

#[export] Instance Any_Total id : ProtocolTotal any_protocol (H:=Any_Protocol id).
Proof.
  refine {| unread := λ p : any_protocol, match p with
    | Any9 p => unread (H:=V9_Protocol id) p
    | Any10 p => unread (H:=V10_Protocol id) p
    | Any11 p => unread p
    end |}.
  intros [p|p|p].
  - pose proof (Receive_total (H:=V9_Protocol id) p) as Hr. simpl in *.
    by destruct (V9_Receive p) as [p' [| | |]].
  - pose proof (Receive_total (H:=V10_Protocol id) p) as Hr. simpl in *.
    by destruct (V10_Receive p) as [p' [| | |]].
  - pose proof (Receive_total p) as Hr. simpl in *. by destruct (V11_Receive p) as [p' [| | |]].
Defined.
End TotalV11.

(** the peer is on the heap, with a cache that works if it has one *)
Definition peer_ok (p : Peer) (c : controller) : Prop :=
  ∃ st, peer_state c p = Some st ∧ ∀ pr, ps_resend st = Some pr → phc_wf pr.

Lemma spec_has_add l h h' :
  l ≠ [] → spec_has (spec_add l h') h = spec_has l h || bool_decide (h = h').
Proof.
  destruct l as [|b l]; [done|]. intros _. simpl. apply Bool.eq_iff_eq_true.
  rewrite !orb_true_iff, phcBucket_Has_Add, bool_decide_eq_true. tauto.
Qed.

(** what [note_payload] does: the digest is in the peer's cache, nothing else changes *)
Record noted (p : Peer) (msg : Parcel) (c c' : controller) : Prop := {
  nt_wf : controller_wf c';
  nt_peer : peer_ok p c';
  nt_peers : c_peers c' = c_peers c;
  nt_statuses : statuses c' = statuses c;
  nt_stopped q : is_stopped c' q = is_stopped c q;
  nt_sent h : has_sent c' p h =
    has_sent c p h || bool_decide (h = sha1_Sum (Payload msg) ∧ IsApplicationMessage msg = true ∧
                                   is_Some (peer_state c p ≫= ps_resend));
  nt_has : is_Some (peer_state c' p ≫= ps_resend) ↔ is_Some (peer_state c p ≫= ps_resend);
}.

Lemma noted_same p msg c :
  controller_wf c → peer_ok p c →
  ¬ (IsApplicationMessage msg = true ∧ is_Some (peer_state c p ≫= ps_resend)) → noted p msg c c.
Proof.
  intros Hwf Hp Hno. split; try done. intros h. rewrite bool_decide_false by tauto. by rewrite orb_false_r.
Qed.

Lemma note_payload_spec p msg c :
  controller_wf c → peer_ok p c → ∃ c', note_payload p msg c = Ok c' ∧ noted p msg c c'.
Proof.
  intros Hwf Hok. pose proof Hok as (st & Hst & Hpr). unfold note_payload. rewrite Hst.
  destruct (ps_resend st) as [pr|] eqn:Hres; [|exists c; split; [done|]; apply noted_same; [done..|];
    rewrite Hst; simpl; rewrite Hres; intros [_ [? ?]]; done].
  destruct (IsApplicationMessage msg) eqn:Happ; [|exists c; split; [done|]; apply noted_same; [done..|];
    rewrite Happ; intros [? _]; done].
  destruct (Add_view pr (sha1_Sum (Payload msg)) (Hpr pr eq_refl)) as (pr' & Ha & Hwf' & Hlen & Hview).
  assert (Hstop : phc_stopped pr' = phc_stopped pr).
  { revert Ha. unfold PeerHashCache_Add, set_bucket. intros Ha.
    apply bind_Ok_inv in Ha as (b & _ & Ha). apply bind_Ok_inv in Ha as (b' & _ & Ha). by simplify_eq. }
  rewrite Ha, bind_Ok. eexists. split; [done|]. unfold peer_state in *.
  destruct Hwf as [Hstore Hheap Hrefs Hresend Hbn]. split; simpl; try done.
  - split; simpl; try done.
    + intros h q Hq. rewrite lookup_insert. case_decide; [by eexists|by eapply Hheap].
    + intros i st' pr0. rewrite lookup_insert. case_decide; [|by apply Hresend].
      intros [= <-] Hrun [= <-]. rewrite Hstop. by eapply Hresend.
  - exists (with_resend pr' st). unfold peer_state. simpl. rewrite lookup_insert_eq. split; [done|].
    by intros pr0 [= <-].
  - intros q. unfold is_stopped, peer_state. simpl. rewrite lookup_insert. case_decide as Hq; [|done].
    by rewrite <-Hq, Hst.
  - intros h. unfold has_sent, peer_state. simpl. rewrite lookup_insert_eq, Hst. simpl. rewrite Hres, Hview.
    rewrite spec_has_add.
    + f_equal. apply bool_decide_ext. split; [|tauto]. intros ->. split_and!; [done|done|by eexists].
    + specialize (Hpr pr eq_refl). unfold phc_wf, zlen in Hpr. intros E. apply (f_equal length) in E.
      rewrite length_view in E. simpl in E. lia.
  - unfold peer_state. simpl. rewrite lookup_insert_eq, Hst. simpl. rewrite Hres. split; intros; by eexists.
Qed.

Lemma peer_ok_stop p c c' : Peer_Stop p c = Ok c' → peer_ok p c → is_stopped c' p = true.
Proof.
  unfold Peer_Stop, is_stopped. intros E (st & Hst & _). rewrite Hst in E.
  destruct (ps_stopped st) eqn:Hs; [simplify_eq; by rewrite Hst|].
  apply bind_Ok_inv in E as (r & _ & E). simplify_eq. unfold peer_state. simpl. by rewrite lookup_insert_eq.
Qed.

(** [C7] The loop that reads from a peer always ends: whatever arrives on the connection and
    however the deliveries go, after at most one turn more than there are bytes to
    read the loop is over and the peer is stopped; every parcel it has delivered is valid and is
    addressed with the name of the peer it came from, and there are no more of them
    than bytes. *)
Theorem readLoop_terminates {P} `{ProtocolTotal P} turns p (s : reader P) :
  controller_wf (rd_ctl s) → peer_ok p (rd_ctl s) → (unread (rd_prot s) < length turns)%nat →
  ∃ s' l, readLoop turns p s = Ok (s', l, true) ∧ is_stopped (rd_ctl s') p = true ∧
    (length l ≤ unread (rd_prot s))%nat ∧
    Forall (λ x, Parcel_Valid (Some x) = Ok tt ∧ Address x = Hash p) l.
Proof.
  revert s. induction turns as [|[now delivers] turns IH]; intros s Hwf Hok Hlen; [simpl in Hlen; lia|].
  assert (Hend : ∀ pr t c, controller_wf c → peer_ok p c → ∃ s' : reader P,
    (Peer_Stop p c ≫= λ c, Ok (MkReader pr t c, [], true)) = Ok (s', [] : list Parcel, true) ∧
    is_stopped (rd_ctl s') p = true).
  { intros pr t c Hwf' Hok'. destruct (Peer_Stop_spec p c Hwf') as (c' & Hs & _). rewrite Hs, bind_Ok.
    eexists. split; [done|]. by eapply peer_ok_stop. }
  cbn [readLoop]. unfold readLoop_turn. pose proof (Receive_total (rd_prot s)) as Hr.
  destruct (Receive (rd_prot s)) as [p' [msg|e| |]]; try done; cbn [fst snd].
  2: { rewrite bind_Ok. cbn [rd_prot rd_ctl rd_lastReceive]. destruct (Hend p' (rd_lastReceive s) _ Hwf Hok) as (s' & -> & ?).
       exists s', []. split_and!; [done|done|simpl; lia|done]. }
  destruct (Parcel_Valid (Some msg)) as [[]|e| |] eqn:Hvalid.
  2-4: rewrite bind_Ok; cbn [rd_prot rd_ctl rd_lastReceive]; destruct (Hend p' (rd_lastReceive s) _ Hwf Hok) as (s' & -> & ?);
       exists s', []; split_and!; [done|done|simpl; lia|done].
  destruct (note_payload_spec p msg _ Hwf Hok) as (c1 & -> & [Hwf1 Hok1 _ _ _ _ _]). rewrite !bind_Ok. cbn [rd_prot rd_ctl rd_lastReceive].
  destruct delivers.
  - destruct (IH (MkReader p' now c1) Hwf1 Hok1) as (s' & l & -> & Hst & Hl & Hall); [simpl in *; lia|].
    rewrite bind_Ok. eexists s', _. simpl in Hl. split_and!; [done|done|simpl; lia|].
    constructor; [|done]. done.
  - destruct (Hend p' now c1 Hwf1 Hok1) as (s' & -> & ?).
    exists s', []. split_and!; [done|done|simpl; lia|done].
Qed.

(** ** From node to node *)

Definition from_peer (p : Peer) (x : Parcel) : Parcel := MkParcel (ptype x) (Hash p) (Payload x).
(** as the application reads it *)
Definition as_message (x : Parcel) : Parcel := MkParcel TypeMessage (Address x) (Payload x).

Section EndToEnd.
Context {P : Type} `{ProtocolWire P}.

Lemma sendLoop_send_all l (w : writer P) p' :
  send_all (omap snd l) (wr_prot w) = (p', Ok tt) →
  ∃ t, sendLoop l w = Ok (MkWriter p' t, false).
Proof.
  revert w. induction l as [|[now [x|]] l IH]; intros [p t] E; simpl in *.
  - unfold io_ret in E. simplify_eq. by exists t.
  - unfold io_bind in E. destruct (Send x p) as [p1 [[]|e| |]]; try done. by apply (IH (MkWriter p1 now)).
  - by apply (IH (MkWriter p t)).
Qed.

Lemma readLoop_receive_n turns ys (r : reader P) p q' :
  controller_wf (rd_ctl r) → peer_ok p (rd_ctl r) → Forall (λ t : Z * bool, t.2 = true) turns →
  receive_n (length turns) (rd_prot r) = (q', Ok ys) →
  Forall (λ y, Parcel_Valid (Some y) = Ok tt) ys →
  ∃ r', readLoop turns p r = Ok (r', from_peer p <$> ys, false) ∧ rd_prot r' = q' ∧
    (∀ h, has_sent (rd_ctl r) p h = true → has_sent (rd_ctl r') p h = true) ∧
    (is_Some (peer_state (rd_ctl r) p ≫= ps_resend) →
     ∀ y, y ∈ ys → IsApplicationMessage y = true → has_sent (rd_ctl r') p (sha1_Sum (Payload y)) = true).
Proof.
  revert r ys. induction turns as [|[now d] turns IH]; intros r ys Hwf Hok Hd; cbn [length receive_n].
  { intros [= <- <-] _. exists r. split_and!; [done..|]. intros _ y []%not_elem_of_nil. }
  apply Forall_cons in Hd as [Hd0 Hd]. cbn [snd] in Hd0. subst d.
  unfold io_bind, io_ret at 1. destruct (Receive (rd_prot r)) as [q1 [y|e| |]] eqn:HR; try done.
  destruct (receive_n (length turns) q1) as [q2 [ys'|e| |]] eqn:HN; try done.
  intros [= <- <-] [Hy Hys]%Forall_cons. cbn [readLoop]. unfold readLoop_turn. rewrite HR. cbn [fst snd].
  rewrite Hy. destruct (note_payload_spec p y _ Hwf Hok) as (c1 & -> & [Hwf1 Hok1 _ _ _ Hsent Hhas]).
  rewrite !bind_Ok. destruct (IH (MkReader q1 now c1) ys' Hwf1 Hok1 Hd HN Hys) as (r' & -> & Hq & Hmono & Hin).
  rewrite bind_Ok. exists r'. cbn [rd_ctl] in *. split_and!; [done|done| |].
  - intros h Hh. apply Hmono. by rewrite Hsent, Hh.
  - intros Hres z [->|Hz]%elem_of_cons Happ.
    + apply Hmono. rewrite Hsent. apply orb_true_iff. right. by apply bool_decide_true.
    + apply Hin; [by apply Hhas|done|done].
Qed.
End EndToEnd.

Lemma manageData_app {G} `{Rng G} order conf l s (g : G) :
  pc_wf (md_fromNetwork s) → pc_closed (md_fromNetwork s) = false →
  zlen (pc_items (md_fromNetwork s)) + zlen l ≤ pc_cap (md_fromNetwork s) →
  Forall (λ t : Z * Z * (option Peer * Parcel), IsApplicationMessage t.2.2 = true) l →
  manageData order conf l s g =
    Ok (Some (MkData (md_ctl s)
          (set_items (md_fromNetwork s)
             (pc_items (md_fromNetwork s) ++ ((λ t, Some (as_message t.2.2)) <$> l)))
          (md_listeners s) (md_spawned s)), g).
Proof.
  revert s. induction l as [|[[now now'] [peer x]] l IH]; intros [c ch ls sp] Hwf Hopen Hcap Hl.
  { simpl. rewrite app_nil_r. by destruct ch. }
  apply Forall_cons in Hl as [Hx Hl]. cbn [snd md_fromNetwork] in *. cbn [manageData].
  rewrite zlen_cons in Hcap. pose proof (zlen_nonneg l). pose proof (zlen_nonneg (pc_items ch)).
  assert (Hturn : manageData_turn order conf now now' (peer, x) (MkData c ch ls sp) g =
    Ok (Some (MkData c (set_items ch (pc_items ch ++ [Some (as_message x)])) ls sp), g)).
  { unfold manageData_turn. rewrite Hx, andb_false_r. pose proof Hx as Happ. unfold IsApplicationMessage in Hx.
    rewrite Hx. assert ((ptype x =? TypePing) = false) as ->.
    { apply orb_true_iff in Hx as [->%Z.eqb_eq | ->%Z.eqb_eq]; done. }
    cbn [md_fromNetwork]. unfold ParcelChannel_Send, try_send. rewrite Hopen.
    rewrite (proj2 (Z.ltb_lt _ _)) by lia. by rewrite !bind_Ok. }
  rewrite Hturn, bind_Ok. cbv beta iota. rewrite IH; cbn [md_fromNetwork md_ctl md_listeners md_spawned set_items pc_items pc_cap pc_closed].
  - rewrite fmap_cons, <-app_assoc. done.
  - destruct Hwf. split; [done|]. cbn [set_items pc_items pc_cap]. autorewrite with zlen. lia.
  - done.
  - autorewrite with zlen. lia.
  - done.
Qed.

Section Gossip.
Context {P : Type} `{ProtocolWire P} {G : Type} `{Rng G}.

Lemma gossip_lemma order conf (w : writer P) sent :
  wire_up (wr_prot w) → Forall sendable (omap snd sent) →
  Forall (λ x, IsApplicationMessage x = true ∧ Parcel_Valid (Some x) = Ok tt) (omap snd sent) →
  let xs := omap snd sent in
  ∃ w' bytes, sendLoop sent w = Ok (w', false) ∧ wire_out (wr_prot w') = wire_out (wr_prot w) ++ bytes ∧
    ∀ p turns (r : reader P) rest,
      controller_wf (rd_ctl r) → peer_ok p (rd_ctl r) →
      wire_link (wr_prot w) (rd_prot r) → wire_in (rd_prot r) = bytes ++ rest →
      length turns = length xs → Forall (λ t : Z * bool, t.2 = true) turns →
      ∃ r', readLoop turns p r = Ok (r', from_peer p <$> xs, false) ∧
        wire_in (rd_prot r') = rest ∧ wire_link (wr_prot w') (rd_prot r') ∧
        (is_Some (peer_state (rd_ctl r) p ≫= ps_resend) →
         ∀ x, x ∈ xs → has_sent (rd_ctl r') p (sha1_Sum (Payload x)) = true) ∧
        ∀ clocks s (g : G),
          pc_wf (md_fromNetwork s) → pc_closed (md_fromNetwork s) = false →
          zlen (pc_items (md_fromNetwork s)) + zlen xs ≤ pc_cap (md_fromNetwork s) →
          length clocks = length xs →
          ∃ s', manageData order conf (zip clocks ((λ x, (Some p, from_peer p x)) <$> xs)) s g = Ok (Some s', g) ∧
            pc_items (md_fromNetwork s') = pc_items (md_fromNetwork s) ++ ((λ x, Some (as_message (from_peer p x))) <$> xs) ∧
            md_ctl s' = md_ctl s ∧ md_spawned s' = md_spawned s.
Proof.
  intros Hup Hsendable Hok xs. destruct (delivery xs (wr_prot w) Hup Hsendable)
    as (p' & bytes & Hs & _ & Hout & _ & Hrecv).
  destruct (sendLoop_send_all sent w p' Hs) as [t Hloop].
  exists (MkWriter p' t), bytes. split_and!; [done|done|].
  intros p turns r rest Hwf Hpeer Hlink Hin Hlen Hturns.
  destruct (Hrecv (rd_prot r) rest Hlink Hin) as (q' & Hq & Hin' & _ & Hlink'). rewrite <-Hlen in Hq.
  assert (Hdata : ∀ x : Parcel, IsApplicationMessage (received (wr_prot w) x) = IsApplicationMessage x ∧
    Parcel_Valid (Some (received (wr_prot w) x)) = Parcel_Valid (Some x) ∧ from_peer p (received (wr_prot w) x) = from_peer p x).
  { intros x. destruct (received_data (wr_prot w) x) as [Ht Hp].
    unfold IsApplicationMessage, Parcel_Valid, from_peer. by rewrite Ht, Hp. }
  destruct (readLoop_receive_n turns (received (wr_prot w) <$> xs) r p q' Hwf Hpeer Hturns Hq) as (r' & Hr & Hpr & _ & Hsent).
  { apply Forall_fmap. eapply Forall_impl; [exact Hok|]. intros x [_ Hx].
    destruct (Hdata x) as (_ & Hv & _). unfold compose. by rewrite Hv. }
  exists r'. rewrite Hr, Hpr. split_and!; [|done|done| |].
  - do 3 f_equal. rewrite <-list_fmap_compose. apply list_fmap_ext. intros i x _. apply Hdata.
  - intros Hres x Hx. rewrite Forall_forall in Hok. destruct (Hok x Hx) as [Happ _].
    replace (Payload x) with (Payload (received (wr_prot w) x)) by apply received_data.
    apply Hsent; [done|by apply list_elem_of_fmap_2|by rewrite (proj1 (Hdata x))].
  - intros clocks s g Hch Hopen Hroom Hclk.
    assert (Hzip : (zip clocks ((λ x, (Some p, from_peer p x)) <$> xs)).*2 = (λ x, (Some p, from_peer p x)) <$> xs).
    { apply snd_zip. rewrite length_fmap. lia. }
    rewrite manageData_app; [|done|done| |].
    + eexists. split; [done|]. cbn [md_fromNetwork set_items pc_items]. split_and!; [|done|done].
      f_equal. trans ((λ y : option Peer * Parcel, Some (as_message y.2)) <$>
        (zip clocks ((λ x, (Some p, from_peer p x)) <$> xs)).*2).
      * by rewrite <-list_fmap_compose.
      * by rewrite Hzip, <-list_fmap_compose.
    + unfold zlen in *. rewrite length_zip, length_fmap. lia.
    + apply Forall_forall. intros [c y] Hy. cbn [snd].
      assert (y ∈ (λ x, (Some p, from_peer p x)) <$> xs) as (x & -> & Hx)%list_elem_of_fmap.
      { rewrite <-Hzip. apply list_elem_of_fmap. by exists (c, y). }
      rewrite Forall_forall in Hok. by destruct (Hok x Hx).
Qed.

(** Parcels of the application get through from node to node.  Those [sendLoop] of one
    node takes from its channel, if the connection carries them and they are valid,
    are what [readLoop] of the other node delivers, in order and named after the
    peer; they go into that peer's cache of payloads, so that a broadcast does not
    return them; and [manageData] puts them as messages into the channel the
    application reads, behind what is there, when there is room.  Nothing is lost,
    changed, repeated or reordered, and neither loop ends. *)
Theorem gossip_end_to_end order conf (w : writer P) sent :
  wire_up (wr_prot w) → Forall sendable (omap snd sent) →
  Forall (λ x, IsApplicationMessage x = true ∧ Parcel_Valid (Some x) = Ok tt) (omap snd sent) →
  let xs := omap snd sent in
  ∃ w' bytes, sendLoop sent w = Ok (w', false) ∧ wire_out (wr_prot w') = wire_out (wr_prot w) ++ bytes ∧
    ∀ p turns (r : reader P) rest,
      controller_wf (rd_ctl r) → peer_ok p (rd_ctl r) →
      wire_link (wr_prot w) (rd_prot r) → wire_in (rd_prot r) = bytes ++ rest →
      length turns = length xs → Forall (λ t : Z * bool, t.2 = true) turns →
      ∃ r', readLoop turns p r = Ok (r', from_peer p <$> xs, false) ∧
        wire_in (rd_prot r') = rest ∧ wire_link (wr_prot w') (rd_prot r') ∧
        (is_Some (peer_state (rd_ctl r) p ≫= ps_resend) →
         ∀ x, x ∈ xs → has_sent (rd_ctl r') p (sha1_Sum (Payload x)) = true) ∧
        ∀ clocks s (g : G),
          pc_wf (md_fromNetwork s) → pc_closed (md_fromNetwork s) = false →
          zlen (pc_items (md_fromNetwork s)) + zlen xs ≤ pc_cap (md_fromNetwork s) →
          length clocks = length xs →
          ∃ s', manageData order conf (zip clocks ((λ x, (Some p, from_peer p x)) <$> xs)) s g = Ok (Some s', g) ∧
            pc_items (md_fromNetwork s') = pc_items (md_fromNetwork s) ++ ((λ x, Some (as_message (from_peer p x))) <$> xs) ∧
            md_ctl s' = md_ctl s ∧ md_spawned s' = md_spawned s.
Proof. apply gossip_lemma. Qed.
End Gossip.

(** ** Peer requests are answered at most once per interval *)

Section Spacing.
Context {G : Type} `{Rng G}.
Context (order : list Peer → list Peer) (conf : Configuration).

(** A run of [manageData] beside the other goroutines, which leave the times of the
    last peer requests alone; [log] holds the requests answered, oldest first, with
    the clock reading kept for them. *)
Inductive share_run : data_state → list (nat * Z) → Z → Prop :=
  | sh_start s t : (∀ p, lastPeerRequest (md_ctl s) p = zero_time) → share_run s [] t
  | sh_others s log t s' :
      share_run s log t → (∀ p, lastPeerRequest (md_ctl s') p = lastPeerRequest (md_ctl s) p) →
      share_run s' log t
  | sh_turn s log t now now' peer parcel g s' g' :
      share_run s log t → t ≤ now → now ≤ now' →
      manageData_turn order conf now now' (peer, parcel) s g = Ok (Some s', g') →
      (∀ p, peer = Some p → is_Some (peer_state (md_ctl s) p)) →
      share_run s' (log ++ match drop (length (md_spawned s)) (md_spawned s') with
                           | [RShare p _] => [(peer_ref p, now')]
                           | _ => []
                           end) now'.

(** the last request of a peer that was answered *)
Definition last_answer (log : list (nat * Z)) (ref : nat) : Z :=
  foldl (λ o e, if decide (fst e = ref) then snd e else o) zero_time log.

Lemma last_answer_snoc log e ref :
  last_answer (log ++ [e]) ref = if decide (fst e = ref) then snd e else last_answer log ref.
Proof. unfold last_answer. by rewrite foldl_app. Qed.

(** what a turn does to the times of the requests: it answers none, or one that is due *)
Lemma turn_shares now now' peer parcel s g s' g' :
  manageData_turn order conf now now' (peer, parcel) s g = Ok (Some s', g') →
  (∀ p, peer = Some p → is_Some (peer_state (md_ctl s) p)) →
  (md_ctl s' = md_ctl s ∧ ∀ p l, drop (length (md_spawned s)) (md_spawned s') ≠ [RShare p l]) ∨
  ∃ p share, peer = Some p ∧ md_spawned s' = md_spawned s ++ [RShare p share] ∧
    PeerRequestInterval conf ≤ time_since now (lastPeerRequest (md_ctl s) p) ∧
    ∀ q, lastPeerRequest (md_ctl s') q =
      if decide (peer_ref q = peer_ref p) then now' else lastPeerRequest (md_ctl s) q.
Proof.
  unfold manageData_turn. intros HT Hheap.
  assert (Hno : ∀ t : data_state, md_spawned t = md_spawned s →
    ∀ p l, drop (length (md_spawned s)) (md_spawned t) ≠ [RShare p l]).
  { intros t -> p l. by rewrite drop_all. }
  destruct (bool_decide (peer = None) && negb (IsApplicationMessage parcel)).
  { simplify_eq. left. split; [done|]. by apply Hno. }
  destruct (ptype parcel =? TypePing).
  { destruct peer as [p|]; [|done]. simplify_eq. left. split; [done|]. intros q l. simpl. by rewrite drop_app_length. }
  destruct (_ || _).
  { apply bind_Ok_inv in HT as ([ch ?] & _ & HT). simplify_eq. left. split; [done|]. by apply Hno. }
  destruct (ptype parcel =? TypePeerRequest).
  - destruct peer as [p|]; [|done].
    destruct (Z.leb_spec (PeerRequestInterval conf) (time_since now (lastPeerRequest (md_ctl s) p))) as [Hdue|].
    2: { simplify_eq. left. split; [done|]. by apply Hno. }
    right. apply bind_Ok_inv in HT as ([[share c] g1] & Hm & HT). simplify_eq.
    exists p, share. split_and!; [done|done|done|]. intros q. cbn [md_ctl spawn set_ctl].
    assert (Hc : heap c = alter (with_lastPeerRequest now') (peer_ref p) (heap (md_ctl s))).
    { unfold makePeerShare, c_Slice in Hm. destruct (PeerStore_Slice _ _) as [l ps].
      destruct (Perm _ _) as [perm g2]. apply bind_Ok_inv in Hm as (? & _ & Hm). by simplify_eq. }
    unfold lastPeerRequest, peer_state. rewrite Hc. case_decide as Hq.
    + destruct (Hheap p eq_refl) as [st Hst]. unfold peer_state in Hst.
      by rewrite Hq, lookup_alter_eq, Hst.
    + by rewrite lookup_alter_ne.
  - destruct (ptype parcel =? TypePeerResponse); [|simplify_eq; left; split; [done|]; by apply Hno].
    destruct peer as [p|]; [|done]. destruct (md_listeners s !! Hash p) as [[|]|]; simplify_eq;
      left; (split; [done|]); by apply Hno.
Qed.

Definition increasing (log : list (nat * Z)) : Prop :=
  ∀ i j e e', (i < j)%nat → log !! i = Some e → log !! j = Some e' → snd e ≤ snd e'.

Lemma increasing_snoc log e :
  increasing log → Forall (λ e', snd e' ≤ snd e) log → increasing (log ++ [e]).
Proof.
  intros Hinc Hle i j e1 e2 Hij Hi Hj. pose proof (lookup_lt_Some _ _ _ Hj) as Hj'.
  rewrite length_app in Hj'. simpl in Hj'. rewrite lookup_app_l in Hi by lia.
  destruct (decide (j < length log)%nat) as [Hjl|Hjl].
  - rewrite lookup_app_l in Hj by done. by apply (Hinc i j).
  - rewrite lookup_app_r in Hj by lia. apply list_lookup_singleton_Some in Hj as [_ <-].
    rewrite Forall_forall in Hle. apply Hle. by eapply list_elem_of_lookup_2.
Qed.

Lemma share_run_inv s log t :
  share_run s log t →
  (∀ p, lastPeerRequest (md_ctl s) p = last_answer log (peer_ref p)) ∧
  Forall (λ e, snd e ≤ t) log ∧ increasing log.
Proof.
  intros Hrun. induction Hrun as [s t Hz|s log t s' _ (IH1 & IH2 & IH3) Hs|s log t now now' peer parcel g s' g' _ (IH1 & IH2 & IH3) Ht Hn HT Hheap].
  - split_and!; [done|done|]. intros i j e e' _ Hi. done.
  - split_and!; [|done|done]. intros p. by rewrite Hs.
  - destruct (turn_shares _ _ _ _ _ _ _ _ HT Hheap) as [[Hc Hno]|(p & share & -> & Hsp & _ & Hq)].
    + assert (match drop (length (md_spawned s)) (md_spawned s') with
              | [RShare p _] => [(peer_ref p, now')] | _ => [] end = []) as ->.
      { destruct (drop _ _) as [|[|p l] [|]] eqn:E; try done. by destruct (Hno p l). }
      rewrite app_nil_r, Hc. split_and!; [done| |done]. eapply Forall_impl; [exact IH2|]. simpl. lia.
    + assert (Hle : Forall (λ e, snd e ≤ now') log) by (eapply Forall_impl; [exact IH2|]; simpl; lia).
      rewrite Hsp, drop_app_length. split_and!; [| |by apply increasing_snoc].
      * intros q. rewrite Hq, last_answer_snoc. cbn [fst snd]. repeat case_decide; congruence.
      * apply Forall_app. by rewrite Forall_singleton.
Qed.

Lemma last_answer_le log ref t :
  (ref, t) ∈ log → increasing log →
  t ≤ last_answer log ref.
Proof.
  induction log as [|[r u] log IH] using rev_ind; intros Hin Hmono; [by apply not_elem_of_nil in Hin|].
  rewrite last_answer_snoc. cbn [fst snd].
  apply elem_of_app in Hin as [Hin|Hin%list_elem_of_singleton].
  - case_decide as Hr.
    + apply list_elem_of_lookup in Hin as [i Hi]. pose proof (lookup_lt_Some _ _ _ Hi) as Hlt.
      apply (Hmono i (length log) (ref, t) (r, u) Hlt).
      * by rewrite lookup_app_l.
      * by rewrite lookup_app_r, Nat.sub_diag by done.
    + apply IH; [done|]. intros i j e e' Hij Hi Hj.
      apply (Hmono i j); [done|by apply lookup_app_l_Some|by apply lookup_app_l_Some].
  - simplify_eq. rewrite decide_True by done. lia.
Qed.

(** [C25] However often a peer asks, two of its requests that are answered are at least
    [PeerRequestInterval] apart: between them the clock has moved on that far. *)
Theorem share_spacing s log t i j ref t1 t2 :
  share_run s log t → is_i64 (PeerRequestInterval conf) → 0 ≤ PeerRequestInterval conf →
  (i < j)%nat → log !! i = Some (ref, t1) → log !! j = Some (ref, t2) →
  t1 + PeerRequestInterval conf ≤ t2.
Proof.
  intros Hrun Hi64 Hpos. revert i j t1 t2.
  induction Hrun as [s t _|s log t s' _ IH _|s log t now now' peer parcel g s' g' Hrun IH Ht Hn HT Hheap];
    intros i j t1 t2 Hij Hi Hj; [done|by apply (IH i j)|].
  destruct (share_run_inv _ _ _ Hrun) as (Hlast & _ & Hinc).
  destruct (turn_shares _ _ _ _ _ _ _ _ HT Hheap) as [[Hc Hno]|(p & share & -> & Hsp & Hdue & Hq)].
  { revert Hi Hj. assert (match drop (length (md_spawned s)) (md_spawned s') with
              | [RShare p _] => [(peer_ref p, now')] | _ => [] end = []) as ->.
    { destruct (drop _ _) as [|[|p l] [|]] eqn:E; try done. by destruct (Hno p l). }
    rewrite app_nil_r. by apply IH. }
  rewrite Hsp, drop_app_length in Hi, Hj. pose proof (lookup_lt_Some _ _ _ Hj) as Hj'.
  rewrite length_app in Hj'. simpl in Hj'. rewrite lookup_app_l in Hi by lia.
  destruct (decide (j < length log)%nat) as [Hjl|Hjl].
  { rewrite lookup_app_l in Hj by done. by apply (IH i j). }
  rewrite lookup_app_r in Hj by lia. apply list_lookup_singleton_Some in Hj as [_ [= <- <-]].
  rewrite Hlast in Hdue. revert Hdue. unfold time_since.
  enough (t1 ≤ last_answer log (peer_ref p)) by int_lia.
  apply last_answer_le; [by eapply list_elem_of_lookup_2|done].
Qed.
End Spacing.

(** ** [Peer.Send] may send into a closed channel *)

#[export] Instance end_phase_eq_dec : EqDecision end_phase.
Proof. solve_decision. Defined.

Record race_ok (s : send_race) : Prop := {
  ra_wf : pc_wf (sr_chan s);
  ra_cap : 0 < pc_cap (sr_chan s);
  ra_closed : pc_closed (sr_chan s) = bool_decide (sr_end s = EClosed);
}.

Lemma race_step_spec s a :
  race_ok s →
  match race_step s a with
  | Ok (Some s') => race_ok s' ∧ (sr_send s = SDone → sr_send s' = SDone)
  | Ok None => True
  | Panic => sr_send s = SChecked ∧ sr_end s = EClosed
  | _ => False
  end.
Proof.
  destruct s as [sd en ch]. intros [Hwf Hcap Hcl]. cbn [sr_chan sr_end] in *. destruct a as [|x| |].
  - destruct sd, en; simpl; try done; (split; [by split|done]).
  - destruct sd; try done. cbn [race_step sr_send sr_end sr_chan]. destruct (pc_closed ch) eqn:Hopen.
    + symmetry in Hcl. apply bool_decide_eq_true in Hcl. subst en.
      unfold ParcelChannel_Send, try_send. by rewrite Hopen.
    + destruct (Send_open ch x Hwf Hcap Hopen) as [-> Hwf']. rewrite bind_Ok.
      split; [|done]. split; simpl; [done|done|by rewrite Hopen].
  - by destruct en.
  - destruct en; try done. unfold race_step, close_channel. cbn [sr_send sr_end sr_chan].
    simpl in Hcl. rewrite Hcl, bind_Ok. split; [by split|done].
Qed.

(** one step of a run from a state with nothing amiss *)
Lemma race_run_cons s a l :
  race_ok s →
  race_run s (a :: l) = Panic ↔
    race_step s a = Panic ∨ ∃ s', race_step s a = Ok (Some s') ∧ race_ok s' ∧ race_run s' l = Panic.
Proof.
  intros Hok. cbn [race_run]. pose proof (race_step_spec s a Hok) as Hs.
  destruct (race_step s a) as [[s'|]| | |]; try (by split; [|intros [|(? & ? & _)]]).
  - rewrite bind_Ok. destruct Hs as [Hok' _]. split; [intros; right; by exists s'|].
    intros [|(s1 & [= <-] & _ & ?)]; done.
  - split; [by left|done].
Qed.

Lemma race_done s l : race_ok s → sr_send s = SDone → race_run s l ≠ Panic.
Proof.
  revert s. induction l as [|a l IH]; intros s Hok Hd; [done|].
  rewrite race_run_cons by done. pose proof (race_step_spec s a Hok) as Hs.
  intros [Hp|(s' & Hp & Hok' & Hr)]; rewrite Hp in Hs; [destruct Hs; congruence|].
  by apply (IH s'); [|apply Hs|].
Qed.

(** a stopped peer is not sent to *)
Lemma race_refused s l :
  race_ok s → sr_send s = SIdle → sr_end s ≠ ERunning → race_run s l ≠ Panic.
Proof.
  revert s. induction l as [|a l IH]; intros s Hok Hi He; [done|].
  rewrite race_run_cons by done. pose proof (race_step_spec s a Hok) as Hs.
  intros [Hp|(s' & Hp & Hok' & Hr)]; [rewrite Hp in Hs; destruct Hs; congruence|].
  destruct s as [sd en ch]. cbn [sr_send sr_end] in Hi, He. subst sd. revert Hr.
  destruct a as [|x| |], en; try done; cbn [race_step sr_send sr_end sr_chan] in Hp; simplify_eq.
  - by apply race_done.
  - by apply race_done.
  - unfold close_channel in Hp. destruct (pc_closed ch); [done|]. rewrite bind_Ok in Hp. simplify_eq.
    by apply IH.
Qed.

(** the only way on to a panic from each state of the race *)
Lemma race_from_closed ch l :
  race_ok (MkRace SChecked EClosed ch) →
  race_run (MkRace SChecked EClosed ch) l = Panic ↔ ∃ x post, l = RPut x :: post.
Proof.
  intros Hok. pose proof (ra_closed _ Hok) as Hc. simpl in Hc.
  assert (Hput : ∀ x, race_step (MkRace SChecked EClosed ch) (RPut x) = Panic).
  { intros x. simpl. unfold ParcelChannel_Send, try_send. by rewrite Hc. }
  destruct l as [|a l]; [by split; [|intros (? & ? & ?)]|]. rewrite race_run_cons by done.
  destruct a as [|x| |]; try (by split; [intros [|(? & ? & _)]|intros (? & ? & ?)]).
  split; [by eauto|]. intros _. left. apply Hput.
Qed.

Lemma race_from_stopped ch l :
  race_ok (MkRace SChecked EStopped ch) →
  race_run (MkRace SChecked EStopped ch) l = Panic ↔ ∃ x post, l = RClose :: RPut x :: post.
Proof.
  intros Hok. destruct l as [|a l]; [by split; [|intros (? & ? & ?)]|]. rewrite race_run_cons by done.
  pose proof (race_step_spec _ a Hok) as Hs.
  destruct a as [|x| |]; try (by split; [intros [|(? & ? & _)]|intros (? & ? & ?)]).
  - split; [|by intros (? & ? & ?)]. intros [Hp|(s' & Hp & Hok' & Hr)]; [rewrite Hp in Hs; by destruct Hs|].
    exfalso. apply (race_done s' l); [done| |done]. cbn [race_step sr_send sr_end] in Hp.
    destruct (ParcelChannel_Send _ _) as [[]| | |]; by simplify_eq/=.
  - cbn [race_step sr_send sr_end sr_chan] in *. unfold close_channel in *.
    pose proof (ra_closed _ Hok) as Hc. simpl in Hc. rewrite Hc, bind_Ok in *. destruct Hs as [Hok' _].
    pose proof (race_from_closed _ l Hok') as Hl. split.
    + intros [|(s' & [= <-] & _ & Hr)]; [done|]. apply Hl in Hr as (x & post & ->). by eauto.
    + intros (x & post & [= ->]). right. eexists. split; [done|]. split; [done|]. apply Hl. by eauto.
Qed.

Lemma race_from_checked ch l :
  race_ok (MkRace SChecked ERunning ch) →
  race_run (MkRace SChecked ERunning ch) l = Panic ↔ ∃ x post, l = RStop :: RClose :: RPut x :: post.
Proof.
  intros Hok. destruct l as [|a l]; [by split; [|intros (? & ? & ?)]|]. rewrite race_run_cons by done.
  pose proof (race_step_spec _ a Hok) as Hs.
  destruct a as [|x| |]; try (by split; [intros [|(? & ? & _)]|intros (? & ? & ?)]).
  - split; [|by intros (? & ? & ?)]. intros [Hp|(s' & Hp & Hok' & Hr)]; [rewrite Hp in Hs; by destruct Hs|].
    exfalso. apply (race_done s' l); [done| |done]. cbn [race_step sr_send sr_end] in Hp.
    destruct (ParcelChannel_Send _ _) as [[]| | |]; by simplify_eq/=.
  - cbn [race_step sr_send sr_end sr_chan] in *. destruct Hs as [Hok' _].
    pose proof (race_from_stopped _ l Hok') as Hl. split.
    + intros [|(s' & [= <-] & _ & Hr)]; [done|]. apply Hl in Hr as (x & post & ->). by eauto.
    + intros (x & post & [= ->]). right. eexists. split; [done|]. split; [done|]. apply Hl. by eauto.
Qed.

(** [C30] [Peer.Send] is not safe beside the end of [sendLoop].  The program panics in
    exactly these runs: [Send] finds the peer running, then [sendLoop] stops the peer and
    closes the channel, and then [Send] puts its parcel into it.  In every other order
    the test of [p.stop] protects the send. *)
Theorem peer_send_race ch l :
  pc_wf ch → 0 < pc_cap ch → pc_closed ch = false →
  race_run (MkRace SIdle ERunning ch) l = Panic ↔
    ∃ parcel post, l = RCheck :: RStop :: RClose :: RPut parcel :: post.
Proof.
  intros Hwf Hcap Hopen. assert (Hok : ∀ sd en, en ≠ EClosed → race_ok (MkRace sd en ch)).
  { intros sd en Hen. split; simpl; [done..|]. by rewrite bool_decide_false. }
  destruct l as [|a l]; [by split; [|intros (? & ? & ?)]|]. rewrite race_run_cons by by apply Hok.
  destruct a as [|x| |]; cbn [race_step sr_send sr_end sr_chan];
    try (by split; [intros [|(? & ? & _)]|intros (? & ? & ?)]).
  - pose proof (race_from_checked ch l (Hok SChecked ERunning ltac:(done))) as Hl. split.
    + intros [|(s' & [= <-] & _ & Hr)]; [done|]. apply Hl in Hr as (x & post & ->). by eauto.
    + intros (x & post & [= ->]). right. eexists. split; [done|]. split; [by apply Hok|]. apply Hl. by eauto.
  - split; [|by intros (? & ? & ?)]. intros [|(s' & [= <-] & _ & Hr)]; [done|].
    exfalso. revert Hr. by apply race_refused; [apply Hok|..].
Qed.

(** ** Examples *)

#[local] Existing Instance documented_ProtoLib.

Lemma ctl_ab_peer_ok : peer_ok peer_a ctl_ab.
Proof.
  exists fresh_state. split; [reflexivity|]. intros pr [= <-]. split; by vm_compute.
Qed.

(** a stream that ends in the middle of a parcel *)
Theorem readLoop_terminates_witness :
  let r := MkReader (newProtocolV11 (MkConn [[x00; x00]; [x00; x02; x08]] [] None)) 0 ctl_ab in
  ∃ s' l, readLoop (replicate 6 (9, true)) peer_a r = Ok (s', l, true) ∧
    is_stopped (rd_ctl s') peer_a = true ∧ (length l ≤ 5)%nat ∧
    Forall (λ x, Parcel_Valid (Some x) = Ok tt ∧ Address x = Hash peer_a) l.
Proof.
  intros r. refine (readLoop_terminates (replicate 6 (9, true)) peer_a r ctl_ab_wf ctl_ab_peer_ok _).
  simpl. unfold v11_in, bytes_in. simpl. lia.
Defined.

Definition empty_data : data_state := MkData ctl_ab (newParcelChannel 5) ∅ [].

Theorem gossip_end_to_end_witness :
  ∃ w' bytes r' s',
    sendLoop [(5, Some parcel_ab); (6, None)] (MkWriter fresh_v11 0) = Ok (w', false) ∧
    readLoop [(7, true)] peer_a (MkReader (newProtocolV11 (MkConn [bytes] [] None)) 0 ctl_ab) =
      Ok (r', [from_peer peer_a parcel_ab], false) ∧
    manageData (λ l, l) DefaultP2PConfiguration [(8, 8, (Some peer_a, from_peer peer_a parcel_ab))] empty_data 7 =
      Ok (Some s', 7) ∧
    pc_items (md_fromNetwork s') = [Some (as_message (from_peer peer_a parcel_ab))].
Proof.
  assert (Hs : Forall v11_sendable [parcel_ab]).
  { rewrite Forall_singleton. split; [unfold is_u16; change (0 ≤ 6 < 2 ^ 16); lia|by vm_compute]. }
  destruct (gossip_end_to_end (λ l, l) DefaultP2PConfiguration (MkWriter fresh_v11 0)
    [(5, Some parcel_ab); (6, None)]) as (w' & bytes & Hsend & _ & Hx);
    [reflexivity|exact Hs|by repeat constructor|].
  destruct (Hx peer_a [(7, true)] (MkReader (newProtocolV11 (MkConn [bytes] [] None)) 0 ctl_ab) [])
    as (r' & Hr & _ & _ & _ & Hd);
    [apply ctl_ab_wf|apply ctl_ab_peer_ok|exact I|simpl; unfold v11_in, bytes_in; simpl; by rewrite !app_nil_r|done|by constructor|].
  destruct (Hd [(8, 8)] empty_data 7) as (s' & Hm & Hi & _);
    [split; by vm_compute|done|by vm_compute|done|].
  exists w', bytes, r', s'. by split_and!.
Defined.

(** a peer that asks after one hour and after two, no interval having passed before *)
Definition ctl_idle : controller :=
  set_heap (with_lastPeerRequest zero_time <$> heap ctl_ab) ctl_ab.
Definition peer_request : Parcel := MkParcel TypePeerRequest (Hash peer_a) (str_bytes "Peer Request").
Definition ask (t : Z) (s : data_state) : data_state :=
  match manageData_turn (λ l, l) DefaultP2PConfiguration t t (Some peer_a, peer_request) s 7 with
  | Ok (Some s, _) => s
  | _ => s
  end.
Definition data_0 : data_state := MkData ctl_idle (newParcelChannel 5) ∅ [].
Definition data_1 : data_state := Eval vm_compute in ask Hour data_0.
Definition data_2 : data_state := Eval vm_compute in ask (2 * Hour) data_1.

Lemma idle_run :
  share_run (λ l, l) DefaultP2PConfiguration data_2 [(1%nat, Hour); (1%nat, 2 * Hour)] (2 * Hour).
Proof.
  assert (H1 : share_run (λ l, l) DefaultP2PConfiguration data_1 [(1%nat, Hour)] Hour).
  { eapply (sh_turn _ _ data_0 [] 0 Hour Hour (Some peer_a) peer_request 7).
    - apply sh_start. intros p. unfold lastPeerRequest, peer_state. cbn [md_ctl data_0 ctl_idle set_heap heap].
      rewrite lookup_fmap. by destruct (heap ctl_ab !! peer_ref p).
    - unfold Hour, Minute, Second. lia.
    - lia.
    - by vm_compute.
    - intros p [= <-]. apply (bool_decide_unpack _). by vm_compute. }
  eapply (sh_turn _ _ data_1 [(1%nat, Hour)] Hour (2 * Hour) (2 * Hour) (Some peer_a) peer_request 7).
  - exact H1.
  - unfold Hour, Minute, Second. lia.
  - lia.
  - by vm_compute.
  - intros p [= <-]. apply (bool_decide_unpack _). by vm_compute.
Qed.

Theorem share_spacing_witness :
  Hour + PeerRequestInterval DefaultP2PConfiguration ≤ 2 * Hour.
Proof.
  apply (share_spacing (λ l, l) DefaultP2PConfiguration data_2 [(1%nat, Hour); (1%nat, 2 * Hour)] (2 * Hour) 0 1 1);
    [apply idle_run|split; by vm_compute|by vm_compute|lia|reflexivity|reflexivity].
Defined.

Theorem peer_send_race_witness :
  race_run (MkRace SIdle ERunning (newParcelChannel 5)) [RCheck; RStop; RClose; RPut (Some parcel_ab)] = Panic.
Proof. apply peer_send_race; [split; by vm_compute|done|done|by eexists _, _]. Defined.
