(* ===== verification/Network.v ===== *)
(** * The node as a whole ([network.go], [newController], [controller_run.go])

    How a node comes to be, what it can be asked to do, and its cycle of one second.
    [Prometheus] adds the instruments. *)
From S2P Require Import Prelude GoStd NetworkId Endpoint Parcel ParcelChannel PeerHashCache Configuration PeerStore.
From S2P Require Import Dialer Rng Controller Routing Cat Seed Metrics Replenish PeerLoops.

(** ** [NewNetwork] *)

Record network := MkNetwork {
  n_conf : Configuration;
  n_instanceID : Z;
  toNetwork : ParcelChannel;
  fromNetwork : ParcelChannel;
  n_cat : cat;                       (* the controller, its last round and rounds *)
  n_dialer : Dialer;
  n_seed : seed;
  n_bootstrap : list Endpoint;
}.
Definition n_ctl (n : network) : controller := cat_ctl (n_cat n).
Definition with_cat (k : cat) (n : network) : network :=
  MkNetwork (n_conf n) (n_instanceID n) (toNetwork n) (fromNetwork n) k (n_dialer n) (n_seed n) (n_bootstrap n).
Definition with_controller (c : controller) (n : network) : network :=
  with_cat (MkCat c (lastRound (n_cat n)) (rounds (n_cat n))) n.
Definition with_toNetwork (ch : ParcelChannel) (n : network) : network :=
  MkNetwork (n_conf n) (n_instanceID n) ch (fromNetwork n) (n_cat n) (n_dialer n) (n_seed n) (n_bootstrap n).

Definition set_NodeID (v : Z) (c : Configuration) : Configuration :=
  MkConfiguration (Network c) v (NodeName c) (PeerRequestInterval c)
    (PeerReseedInterval c) (PeerIPLimitIncoming c) (PeerIPLimitOutgoing c) (Special c)
    (PeerCacheFile c) (PeerCacheAge c) (PeerShareAmount c) (PeerShareTimeout c)
    (RoundTime c) (TargetPeers c) (MaxPeers c) (DropTo c) (MinReseed c) (MaxIncoming c)
    (Fanout c) (SeedURL c) (BindIP c) (ListenPort c) (ListenLimit c) (PingInterval c)
    (RedialInterval c) (ManualBan c) (HandshakeTimeout c) (DialTimeout c) (ReadDeadline c)
    (WriteDeadline c) (ProtocolVersion c) (ProtocolVersionMinimum c) (ChannelCapacity c)
    (EnablePrometheus c) (PeerResendFilter c) (PeerResendBuckets c) (PeerResendInterval c).

Inductive network_error := NE_config (e : config_error) | NE_dialer (e : dial_error).

Section NewNetwork.
Context `{CacheJson}.

(** [resolves]: whether the address to bind to resolves; [now] is the clock while the
    peer file is loaded, [now_round] when the rounds start *)
Definition newController (resolves : bool) (now_round : Z) (now : string → Z) (f : file) (conf : Configuration)
    : outcome dial_error (Dialer * cat * seed * list Endpoint) :=
  NewDialer resolves (BindIP conf) (RedialInterval conf) (DialTimeout conf) ≫= λ d,
  let c := setSpecial (Special conf) (MkController NewPeerStore ∅ [] ∅ false ∅ []) in
  let (b, boot) := initial_cache conf now f in
  Ok (d, MkCat (load_bans b c) now_round 0, newSeed (PeerReseedInterval conf), boot).

(** [draw] is [n.rng.Uint64()] *)
Definition NewNetwork (draw : Z) (resolves : bool) (now_round : Z) (now : string → Z) (f : file)
    (conf : Configuration) : outcome network_error network :=
  match Configuration_Check conf with
  | Ok _ =>
      let conf := Sanitize conf in
      let conf := if NodeID conf =? 0 then set_NodeID (StringToUint32 (NodeName conf)) conf else conf in
      match newController resolves now_round now f conf with
      | Ok (d, k, sd, boot) =>
          Ok (MkNetwork conf draw (newParcelChannel (ChannelCapacity conf)) (newParcelChannel (ChannelCapacity conf))
                k d sd boot)
      | Err e => Err (NE_dialer e)
      | Panic => Panic
      | OutOfFuel => OutOfFuel
      end
  | Err e => Err (NE_config e)
  | Panic => Panic
  | OutOfFuel => OutOfFuel
  end.
End NewNetwork.

(** ** The methods of [Network]

    [Ban], [Disconnect] and [SetSpecial] start a goroutine; these are what it does. *)

Section Methods.
Context (order : list Peer → list Peer).

Definition Network_Ban (hash : string) (now : Z) (n : network) : outcome () network :=
  ban order hash (ManualBan (n_conf n)) now (n_ctl n) ≫= λ c, Ok (with_controller c n).
Definition Network_Disconnect (hash : string) (n : network) : outcome () network :=
  disconnect hash (n_ctl n) ≫= λ c, Ok (with_controller c n).
Definition Network_SetSpecial (raw : string) (n : network) : network :=
  with_controller (setSpecial raw (n_ctl n)) n.

Definition Network_Total (n : network) : Z := PeerStore_Total (c_peers (n_ctl n)).
Definition Network_Rounds (n : network) : Z := rounds (n_cat n).

Definition Network_Send (p : option Parcel) (n : network) : outcome () network :=
  ParcelChannel_Send (toNetwork n) p ≫= λ '(ch, _), Ok (with_toNetwork ch n).
(** [None] while the channel is full and the call blocks *)
Definition Network_BlockingSend (p : option Parcel) (n : network) : outcome () (option network) :=
  try_send (toNetwork n) p ≫= λ r,
  match r with Some ch => Ok (Some (with_toNetwork ch n)) | None => Ok None end.

Definition Network_GetPeerMetrics (info : Peer → PeerState * peer_info) (n : network)
    : gmap string PeerMetrics * network :=
  let (m, c) := makeMetrics order info (n_ctl n) in (m, with_controller c n).
End Methods.

(** ** [Run] and [Stop] *)

Record life := MkLife {
  lf_stopped : bool;     (* [stopper] is closed *)
  lf_started : Z;        (* how often the loops of the controller were started *)
}.
Definition new_life : life := MkLife false 0.

Definition Network_Run (s : life) : life * outcome () () :=
  if lf_stopped s then (s, Err tt) else (MkLife (lf_stopped s) (lf_started s + 1), Ok tt).
Definition Network_Stop (s : life) : life * outcome () () :=
  if lf_stopped s then (s, Err tt) else (MkLife true (lf_started s), Ok tt).

(** calls one after the other, and what each returns *)
Inductive net_call := CRun | CStop.
#[export] Instance net_call_eq_dec : EqDecision net_call.
Proof. solve_decision. Defined.

Definition net_do (c : net_call) : life → life * outcome () () :=
  match c with CRun => Network_Run | CStop => Network_Stop end.
Fixpoint net_calls (l : list net_call) (s : life) : life * list (outcome () ()) :=
  match l with
  | [] => (s, [])
  | c :: l =>
      let (s, r) := net_do c s in
      let (s, rs) := net_calls l s in (s, r :: rs)
  end.

(** *** Calls at the same time

    A call looks at [stopper] in its [select] and acts afterwards; [net_pending] are
    the calls between the two. *)
Inductive net_step := NSelect (c : net_call) | NAct (c : net_call).
Record net_state := MkNetState { ns_life : life; ns_pending : list net_call }.

Definition without (c : net_call) (l : list net_call) : list net_call :=
  match list_find (c =.) l with Some (i, _) => take i l ++ drop (S i) l | None => l end.

(** closing a channel twice panics; [None] is not a step *)
Definition net_exec (s : net_state) (a : net_step) : outcome () (option net_state) :=
  let 'MkNetState lf pending := s in
  match a with
  | NSelect c => Ok (Some (if lf_stopped lf then s else MkNetState lf (c :: pending)))
  | NAct c =>
      if decide (c ∈ pending) then
        match c with
        | CRun => Ok (Some (MkNetState (MkLife (lf_stopped lf) (lf_started lf + 1)) (without c pending)))
        | CStop =>
            if lf_stopped lf then Panic
            else Ok (Some (MkNetState (MkLife true (lf_started lf)) (without c pending)))
        end
      else Ok None
  end.
Fixpoint net_run (s : net_state) (l : list net_step) : outcome () (option net_state) :=
  match l with
  | [] => Ok (Some s)
  | a :: l => net_exec s a ≫= λ s, match s with Some s => net_run s l | None => Ok None end
  end.

(** ** The cycle of one second *)

Section Cycle.
Context {G : Type} `{Rng G} `{CacheJson}.
Context (order : list Peer → list Peer) (conf : Configuration).

(** [runPing]: [clock] is read for each peer.  [others i] is what other goroutines do
    before the [i]-th peer is looked at, [gap i] what they do in the middle of its [Send]. *)
Definition ping : Parcel := newParcel TypePing (str_bytes "Ping").
Definition idle (clock : Peer → Z) (c : controller) (p : Peer) : bool :=
  match peer_state c p with
  | Some st => PingInterval conf <? LastSendAge (clock p) st
  | None => false
  end.
Fixpoint ping_loop (others gap : nat → controller → controller) (clock : Peer → Z) (i : nat) (l : list Peer)
    (c : controller) : outcome () controller :=
  match l with
  | [] => Ok c
  | p :: l =>
      let c := others i c in
      (if idle clock c p then Peer_Send_beside (gap i) p (Some ping) c else Ok c) ≫= ping_loop others gap clock (S i) l
  end.
Definition runPing (others gap : nat → controller → controller) (clock : Peer → Z) (c : controller)
    : outcome () controller :=
  let (l, c) := c_Slice order c in ping_loop others gap clock 0 l c.

(** [runMetrics]: what the hook is given, if there is one *)
Definition runMetrics (hook : bool) (info : Peer → PeerState * peer_info) (c : controller)
    : option (gmap string PeerMetrics) * controller :=
  let (m, c) := makeMetrics order info c in (if hook then Some m else None, c).

(** what the outside world does during a cycle *)
Record tick := MkTick {
  tk_others : nat → controller → controller;  (* the other goroutines before each of its three parts, *)
  tk_turn : nat → controller → controller;    (* before each peer of [runPing], *)
  tk_gap : nat → controller → controller;     (* and in the middle of the [Send] to it *)
  tk_now : Z; tk_now' : Z; tk_cache : Z;      (* the clock in [runCatRound] *)
  tk_writes : bool;                           (* whether the peer file can be written *)
  tk_info : Peer → PeerState * peer_info;
  tk_clock : Peer → Z;                        (* the clock in [runPing] *)
}.

(** the body of [run]'s loop: up to [runPing], and all of it *)
Definition before_pings (hook : bool) (t : tick) (f : file) (s : cat) (g : G)
    : outcome () (option (gmap string PeerMetrics) * cat * file * G) :=
  let s := MkCat (tk_others t 0 (cat_ctl s)) (lastRound s) (rounds s) in
  runCatRound order conf (tk_now t) (tk_now' t) (tk_cache t) (tk_writes t) f s g ≫= λ '(s, f, g),
  let (m, c) := runMetrics hook (tk_info t) (tk_others t 1 (cat_ctl s)) in
  Ok (m, MkCat (tk_others t 2 c) (lastRound s) (rounds s), f, g).
Definition run_cycle (hook : bool) (t : tick) (f : file) (s : cat) (g : G)
    : outcome () (option (gmap string PeerMetrics) * cat * file * G) :=
  before_pings hook t f s g ≫= λ '(m, s, f, g),
  runPing (tk_turn t) (tk_gap t) (tk_clock t) (cat_ctl s) ≫= λ c,
  Ok (m, MkCat c (lastRound s) (rounds s), f, g).

(** the loop until [stopper] is closed *)
Fixpoint run (hook : bool) (ticks : list tick) (f : file) (s : cat) (g : G) : outcome () (cat * file * G) :=
  match ticks with
  | [] => Ok (s, f, g)
  | t :: ticks => run_cycle hook t f s g ≫= λ '(_, s, f, g), run hook ticks f s g
  end.
End Cycle.

(** ** A new network *)

Section Creation.
Context `{CacheJson}.

Lemma no_peer h (p : Peer) : peers NewPeerStore !! h ≠ Some p.
Proof. unfold NewPeerStore. simpl. by rewrite lookup_empty. Qed.

(** no peers are known and nothing is on the heap *)
Lemma empty_ctl_ok (c : controller) :
  c_peers c = NewPeerStore → heap c = ∅ → (bans_nil c = false → ctl_ok c) ∧ channels_ok c ∧ caches_ok c.
Proof.
  intros Hp Hh. assert (Hch : channels_ok c).
  { unfold channels_ok. rewrite Hh. intros i st. by rewrite lookup_empty. }
  split_and!; [intros Hn; split; [split|done]|done|]; rewrite ?Hp, ?Hh; [..|done|].
  - apply NewPeerStore_wf.
  - intros h p []%no_peer.
  - intros h h' p q []%no_peer.
  - intros i st pr. by rewrite lookup_empty.
  - unfold caches_ok. rewrite Hp. intros h p []%no_peer.
Qed.

Lemma setSpecial_keeps raw c :
  c_peers (setSpecial raw c) = c_peers c ∧ heap (setSpecial raw c) = heap c.
Proof. unfold setSpecial. case_bool_decide; [done|]. by destruct (parseSpecial raw). Qed.

Lemma initial_bans_running conf now f a e :
  default ∅ (initial_cache conf now f).1 !! a = Some e → now a ≤ e.
Proof.
  unfold initial_cache, controller_loadPeerCache. destruct (str_empty _); [simpl; by rewrite lookup_empty|].
  destruct f as [data|]; [|simpl; by rewrite lookup_empty]. simpl.
  destruct (json_Unmarshal data newPeerCache) as [[[b|] l]|]; simpl; [|by rewrite lookup_empty..].
  rewrite map_lookup_filter_Some. simpl. lia.
Qed.

End Creation.

(** ** The life of a network *)

Lemma net_calls_stopped l s : lf_stopped s = true → net_calls l s = (s, (λ _, Err tt) <$> l).
Proof.
  intros Hs. induction l as [|c l IH]; [done|]. cbn [net_calls].
  assert (net_do c s = (s, Err tt)) as -> by (destruct c; unfold net_do, Network_Run, Network_Stop; by rewrite Hs).
  by rewrite IH.
Qed.

(** [C31] Calls of [Run] and [Stop] one after the other: those up to and with the first
    [Stop] succeed and all later ones fail, so that the loops are started once for
    every [Run] before it and never after.  Calls at the same time are not safe: two
    calls of [Stop] can both pass the test and then the second closes the channel
    again, which panics, and a [Run] beside a [Stop] can start the loops of a network
    that has been stopped. *)
Theorem network_lifecycle runs rest :
  net_calls (replicate runs CRun) new_life = (MkLife false (Z.of_nat runs), replicate runs (Ok tt)) ∧
  net_calls (replicate runs CRun ++ CStop :: rest) new_life =
    (MkLife true (Z.of_nat runs), replicate (S runs) (Ok tt) ++ ((λ _, Err tt) <$> rest)) ∧
  net_run (MkNetState new_life []) [NSelect CStop; NSelect CStop; NAct CStop; NAct CStop] = Panic ∧
  net_run (MkNetState new_life []) [NSelect CRun; NSelect CStop; NAct CStop; NAct CRun] =
    Ok (Some (MkNetState (MkLife true 1) [])).
Proof.
  assert (Hruns : ∀ k l n, net_calls (replicate k CRun ++ l) (MkLife false n) =
    let (s, rs) := net_calls l (MkLife false (n + Z.of_nat k)) in (s, replicate k (Ok tt) ++ rs)).
  { intros k l. induction k as [|k IH]; intros n; simpl.
    - rewrite Z.add_0_r. by destruct (net_calls l _).
    - rewrite IH. replace (n + Z.of_nat (S k)) with (n + 1 + Z.of_nat k) by lia.
      by destruct (net_calls l _). }
  split_and!.
  - pose proof (Hruns runs [] 0) as E. cbn [net_calls] in E. by rewrite !app_nil_r in E.
  - unfold new_life. rewrite Hruns. cbn [net_calls net_do Network_Stop lf_stopped lf_started].
    rewrite net_calls_stopped by done. rewrite replicate_S_end, <-app_assoc. done.
  - by vm_compute.
  - by vm_compute.
Qed.

(** ** The cycle *)

Section CycleSpec.
Context {G : Type} `{Rng G} `{CacheJson}.
Context (order : list Peer → list Peer) (Hord : is_order order) (conf : Configuration).

Lemma drop_peers_channels toDrop dropped l c c' :
  channels_ok c → drop_peers toDrop dropped l c = Ok c' → channels_ok c'.
Proof.
  revert c dropped. induction l as [|p l IH]; cbn [drop_peers]; intros c dropped Hch; [by intros [= <-]|].
  destruct (isSpecial _ _); [by apply IH|]. intros (c1 & Hs & HD)%bind_Ok_inv.
  assert (channels_ok c1) by by eapply Peer_Stop_channels.
  destruct (_ <=? _); [by simplify_eq|by eapply IH].
Qed.

Lemma Slice_ctl_ok c l c' : ctl_ok c → c_Slice order c = (l, c') → ctl_ok c'.
Proof.
  intros [Hwf Hch] HS. destruct (c_Slice_spec order c l c' Hwf Hord HS) as (? & _ & Hh & _).
  split; [done|]. unfold channels_ok. by rewrite Hh.
Qed.

Lemma runCatRound_ctl_ok now now' now_cache writes f s g :
  ctl_ok (cat_ctl s) →
  ∃ s' f' g', runCatRound order conf now now' now_cache writes f s g = Ok (s', f', g') ∧ ctl_ok (cat_ctl s').
Proof.
  intros Hok. unfold runCatRound. destruct (_ <? RoundTime conf); [by exists s, f, g|].
  destruct (writePeerCache conf order now_cache writes (cat_ctl s) f) as [[c1 f1] r1] eqn:HW.
  destruct (writePeerCache_frame _ _ _ _ _ _ _ _ _ (ck_wf _ Hok) Hord HW) as (Hwf1 & _ & Hh1 & _).
  assert (Hok1 : ctl_ok c1) by (split; [done|]; unfold channels_ok; rewrite Hh1; apply Hok).
  destruct (c_Slice order c1) as [all c2] eqn:HS. pose proof (Slice_ctl_ok _ _ _ Hok1 HS) as Hok2.
  cbv zeta. destruct (Z.ltb_spec 0 (zlen all - i64 (DropTo conf))) as [Hd|Hd].
  2: { rewrite bind_Ok. by eexists _, _, _. }
  destruct (random_order all g) as (l & Hl & _). destruct (Perm (length all) g) as [perm g'].
  simpl in Hl. rewrite Hl, bind_Ok.
  destruct (drop_peers_spec (zlen all - i64 (DropTo conf)) 0 l c2 (ck_wf _ Hok2) Hd) as (c3 & Hdrop & Hwf3 & _).
  rewrite Hdrop, !bind_Ok. eexists _, _, _. split; [done|]. split; [done|].
  by eapply drop_peers_channels; [apply Hok2|].
Qed.

(** the peers that are pinged do not depend on the pings before them *)
Lemma idle_after_send clock x p q c c' :
  Peer_Send p x c = Ok c' → idle conf clock c' q = idle conf clock c q.
Proof.
  rewrite Peer_Send_eq. unfold Peer_put, idle. destruct (peer_state c p) as [st|] eqn:Hp; [|by intros [= <-]].
  destruct (ps_stopped st); [by intros [= <-]|].
  intros ([ch [b d]] & _ & [= <-])%bind_Ok_inv. unfold peer_state in *. simpl.
  rewrite lookup_insert. case_decide as E; [|done]. rewrite <-E, Hp. done.
Qed.

(** other goroutines that do nothing *)
Definition quiet (_ : nat) (c : controller) : controller := c.

Lemma ping_loop_send clock i l c :
  channels_ok c →
  ping_loop conf quiet quiet clock i l c = send_loop ping (filter (λ p, idle conf clock c p = true) l) c.
Proof.
  revert i c. induction l as [|p l IH]; intros i c Hch; [done|]. cbn [ping_loop].
  rewrite filter_cons. change (Peer_Send_beside (quiet i)) with Peer_Send. change (quiet i c) with c.
  destruct (idle conf clock c p).
  - rewrite decide_True by done. cbn [send_loop].
    destruct (Peer_Send_delivered ping p c Hch) as (c1 & Hs & Hch1 & _). rewrite Hs, !bind_Ok, IH by done.
    f_equal. apply list_filter_iff. intros q. by rewrite (idle_after_send _ _ _ _ _ _ Hs).
  - rewrite decide_False by done. rewrite bind_Ok. by apply IH.
Qed.

Lemma send_loop_wf x l c c' : controller_wf c → send_loop x l c = Ok c' → controller_wf c'.
Proof.
  revert c. induction l as [|p l IH]; cbn [send_loop]; intros c Hwf; [by intros [= <-]|].
  intros (c1 & Hp & Hl)%bind_Ok_inv. apply (IH c1); [|done]. by eapply Peer_Send_wf.
Qed.

Lemma runPing_lemma clock c :
  ctl_ok c →
  ∃ c' l, runPing order conf quiet quiet clock c = Ok c' ∧ ctl_ok c' ∧ NoDup l ∧
    (∀ p, p ∈ l ↔ PeerStore_Get (c_peers c) (Hash p) = Some p ∧ idle conf clock c p = true) ∧
    delivered ping l c c'.
Proof.
  intros Hok. pose proof Hok as [Hwf Hch]. unfold runPing. destruct (c_Slice order c) as [all c1] eqn:HS.
  destruct (c_Slice_sliced order c all c1 Hwf Hord HS) as (Hsl & Hnd & Hin).
  pose proof (Slice_ctl_ok _ _ _ Hok HS) as [Hwf1 Hch1].
  rewrite ping_loop_send by done. set (l := filter _ all).
  assert (Hidle : ∀ p, idle conf clock c1 p = idle conf clock c p).
  { intros p. unfold idle, peer_state. by rewrite (sl_heap _ _ Hsl). }
  assert (Hl : ∀ p, p ∈ l ↔ PeerStore_Get (c_peers c) (Hash p) = Some p ∧ idle conf clock c p = true).
  { intros p. unfold l. rewrite list_elem_of_filter, Hin, Hidle. tauto. }
  assert (Hndl : NoDup l) by by apply NoDup_filter.
  destruct (send_loop_delivered order ping l c1 Hch1) as (c2 & Hs & Hch2 & Hd).
  { apply (stored_refs c l Hwf Hndl). by intros p [? _]%Hl. }
  exists c2, l. split_and!; [done| |done|done|by eapply delivered_sliced].
  split; [by eapply send_loop_wf|done].
Qed.

(** Keeping connections alive: a ping goes to every connected, running peer to which
    nothing has been sent for longer than [PingInterval], once, behind what its
    channel holds, and to no other. *)
Theorem runPing_spec clock c :
  ctl_ok c →
  ∃ c' l, runPing order conf quiet quiet clock c = Ok c' ∧ ctl_ok c' ∧ NoDup l ∧
    (∀ p, p ∈ l ↔ PeerStore_Get (c_peers c) (Hash p) = Some p ∧ idle conf clock c p = true) ∧
    delivered ping l c c'.
Proof. apply runPing_lemma. Qed.

(** *** Pings beside the other goroutines *)

(** one of the [Send]s is raced: those before it have gone through, the peer is found idle
    and running, and its channel is closed before the ping is sent *)
Definition ping_raced (others gap : nat → controller → controller) (clock : Peer → Z) (i : nat) (l : list Peer)
    (c : controller) : Prop :=
  ∃ l1 p l2 c1, l = l1 ++ p :: l2 ∧ ping_loop conf others gap clock i l1 c = Ok c1 ∧
    let k := (length l1 + i)%nat in
    idle conf clock (others k c1) p = true ∧ send_raced (gap k) (others k c1) p = true.

(** other goroutines that keep the state sound *)
Record tick_ok (t : tick) : Prop := {
  to_others i c : ctl_ok c → ctl_ok (tk_others t i c);
  to_turn i c : ctl_ok c → ctl_ok (tk_turn t i c);
  to_gap i : gap_ok (tk_gap t i);
}.

Lemma ping_loop_app others gap clock i l1 l2 c :
  ping_loop conf others gap clock i (l1 ++ l2) c =
    ping_loop conf others gap clock i l1 c ≫= ping_loop conf others gap clock (length l1 + i) l2.
Proof.
  revert i c. induction l1 as [|p l1 IH]; intros i c; [done|]. cbn [ping_loop app length].
  destruct (if idle conf clock (others i c) p then _ else _ : outcome () controller) as [c1| | |]; try done.
  rewrite !bind_Ok, IH. by replace (S (length l1) + i)%nat with (length l1 + S i)%nat by lia.
Qed.

Lemma ping_raced_panics others gap clock i l c :
  ping_raced others gap clock i l c → ping_loop conf others gap clock i l c = Panic.
Proof.
  intros (l1 & p & l2 & c1 & -> & Hl1 & Hidle & Hr). rewrite ping_loop_app, Hl1, bind_Ok.
  cbn [ping_loop]. rewrite Hidle. unfold Peer_Send_beside, send_raced in *. apply andb_prop in Hr as [-> Hcl].
  unfold Peer_put, send_closed in *. destruct (peer_state _ p); [|done].
  unfold ParcelChannel_Send, try_send. by rewrite Hcl.
Qed.

Lemma ping_loop_beside t clock i l c :
  tick_ok t → ctl_ok c →
  let r := ping_loop conf (tk_turn t) (tk_gap t) clock i l c in
  (r = Panic ↔ ping_raced (tk_turn t) (tk_gap t) clock i l c) ∧ (r = Panic ∨ ∃ c', r = Ok c' ∧ ctl_ok c').
Proof.
  intros Ht Hok r. split.
  2: { unfold r. clear r. revert i c Hok. induction l as [|p l IH]; intros i c Hok; [right; by exists c|]. cbn [ping_loop].
    pose proof (to_turn _ Ht i c Hok) as Hok'. destruct (idle conf clock _ p); [|rewrite bind_Ok; by apply IH].
    pose proof (Peer_Send_beside_ok (tk_gap t i) p (Some ping) _ Hok' (to_gap _ Ht i)) as Hs.
    destruct (send_raced _ _ _); [rewrite Hs; by left|]. destruct Hs as (c1 & -> & Hok1). by apply IH. }
  split.
  - unfold r. clear r. revert i c Hok. induction l as [|p l IH]; intros i c Hok; [done|]. cbn [ping_loop].
    pose proof (to_turn _ Ht i c Hok) as Hok'.
    assert (Hrest : ∀ c1, ctl_ok c1 →
      (if idle conf clock (tk_turn t i c) p then Peer_Send_beside (tk_gap t i) p (Some ping) (tk_turn t i c)
       else Ok (tk_turn t i c)) = Ok c1 →
      ping_loop conf (tk_turn t) (tk_gap t) clock (S i) l c1 = Panic → ping_raced (tk_turn t) (tk_gap t) clock i (p :: l) c).
    { intros c1 Hok1 Hhead (l1 & q & l2 & c2 & -> & Hl1 & Hq)%IH; [|done].
      exists (p :: l1), q, l2, c2. split; [done|]. cbn [ping_loop length]. rewrite Hhead. split; [done|].
      by replace (S (length l1) + i)%nat with (length l1 + S i)%nat by lia. }
    destruct (idle conf clock _ p) eqn:Hidle; [|rewrite bind_Ok; by apply Hrest].
    pose proof (Peer_Send_beside_ok (tk_gap t i) p (Some ping) _ Hok' (to_gap _ Ht i)) as Hs.
    destruct (send_raced _ _ _) eqn:Hr; [intros _; by exists [], p, l, c|].
    destruct Hs as (c1 & Hs & Hok1). rewrite Hs, bind_Ok. by apply Hrest.
  - apply ping_raced_panics.
Qed.

(** the pings of a cycle *)
Definition cycle_raced (t : tick) (c : controller) : Prop :=
  ping_raced (tk_turn t) (tk_gap t) (tk_clock t) 0 (c_Slice order c).1 (c_Slice order c).2.

Lemma before_pings_ok hook t f s (g : G) :
  tick_ok t → ctl_ok (cat_ctl s) →
  ∃ m s' f' g', before_pings order conf hook t f s g = Ok (m, s', f', g') ∧ ctl_ok (cat_ctl s').
Proof.
  intros Ht Hok. unfold before_pings. cbv zeta.
  destruct (runCatRound_ctl_ok (tk_now t) (tk_now' t) (tk_cache t) (tk_writes t) f
    (MkCat (tk_others t 0 (cat_ctl s)) (lastRound s) (rounds s)) g) as (s1 & f1 & g1 & -> & Hok1); [by apply Ht|].
  rewrite bind_Ok. unfold runMetrics, makeMetrics.
  destruct (c_Slice order (tk_others t 1 (cat_ctl s1))) as [l c] eqn:HS.
  eexists _, _, _, _. split; [done|]. by eapply (to_others _ Ht), Slice_ctl_ok; [apply Ht|].
Qed.

Lemma run_cycle_beside hook t f s (g : G) :
  tick_ok t → ctl_ok (cat_ctl s) →
  let r := run_cycle order conf hook t f s g in
  (r = Panic ↔ ∃ m s' f' g', before_pings order conf hook t f s g = Ok (m, s', f', g') ∧ cycle_raced t (cat_ctl s')) ∧
  (r = Panic ∨ ∃ m s' f' g', r = Ok (m, s', f', g') ∧ ctl_ok (cat_ctl s')).
Proof.
  intros Ht Hok. unfold run_cycle. destruct (before_pings_ok hook t f s g Ht Hok) as (m & s1 & f1 & g1 & -> & Hok1).
  cbv zeta. rewrite bind_Ok. unfold runPing, cycle_raced. destruct (c_Slice order (cat_ctl s1)) as [l c] eqn:HS.
  pose proof (Slice_ctl_ok _ _ _ Hok1 HS) as Hok2.
  destruct (ping_loop_beside t (tk_clock t) 0 l c Ht Hok2) as [Hiff Hor]. split.
  - transitivity (ping_raced (tk_turn t) (tk_gap t) (tk_clock t) 0 l c).
    + rewrite <-Hiff. by destruct Hor as [->|(c' & -> & _)].
    + split; [intros; eexists _, _, _, _; split; [done|]; by rewrite HS|].
      intros (? & ? & ? & ? & [= <- <- <- <-] & Hr). by rewrite HS in Hr.
  - destruct Hor as [->|(c' & -> & Hok')]; [by left|]. right. by eexists _, _, _, _.
Qed.

Lemma run_app hook l1 l2 f s (g : G) :
  run order conf hook (l1 ++ l2) f s g =
    run order conf hook l1 f s g ≫= λ '(s, f, g), run order conf hook l2 f s g.
Proof.
  revert f s g. induction l1 as [|t l1 IH]; intros f s g; [done|]. cbn [run app].
  destruct (run_cycle order conf hook t f s g) as [[[[m s1] f1] g1]| | |]; try done. by rewrite !bind_Ok, IH.
Qed.

Lemma run_ends hook ticks f s (g : G) :
  ctl_ok (cat_ctl s) → Forall tick_ok ticks →
  run order conf hook ticks f s g = Panic ∨
  ∃ s' f' g', run order conf hook ticks f s g = Ok (s', f', g') ∧ ctl_ok (cat_ctl s').
Proof.
  intros Hok Ht. revert f s g Hok. induction Ht as [|t ticks Ht _ IH]; intros f s g Hok; [right; by exists s, f, g|].
  cbn [run]. destruct (run_cycle_beside hook t f s g Ht Hok) as [_ [->|(m & s1 & f1 & g1 & -> & Hok1)]]; [by left|].
  rewrite bind_Ok. by apply IH.
Qed.

(** [C23] The loop of the controller beside the other goroutines, which act between the
    parts of a cycle, between the peers that are pinged and in the middle of every
    [Send], and keep the state sound.  Every number of cycles runs to its end and leaves the
    state sound, whatever the clock shows and whether the peer file can be written, unless
    the program panics; and it panics in exactly one case, when in one of the cycles a
    peer is found idle and running and its channel is closed before the ping is sent.
    When the others leave it alone, each idle, running peer gets one ping, behind what its
    channel holds, and no other peer does. *)
Theorem run_invariant hook ticks f s (g : G) :
  ctl_ok (cat_ctl s) → Forall tick_ok ticks →
  let r := run order conf hook ticks f s g in
  (r = Panic ∨ ∃ s' f' g', r = Ok (s', f', g') ∧ ctl_ok (cat_ctl s')) ∧
  (r = Panic ↔ ∃ pre t post s1 f1 g1 m s2 f2 g2, ticks = pre ++ t :: post ∧
     run order conf hook pre f s g = Ok (s1, f1, g1) ∧
     before_pings order conf hook t f1 s1 g1 = Ok (m, s2, f2, g2) ∧ cycle_raced t (cat_ctl s2)) ∧
  ∀ clock c, ctl_ok c → ∃ c' l, runPing order conf quiet quiet clock c = Ok c' ∧ NoDup l ∧
    (∀ p, p ∈ l ↔ PeerStore_Get (c_peers c) (Hash p) = Some p ∧ idle conf clock c p = true) ∧
    delivered ping l c c'.
Proof.
  intros Hok Ht r. split; [by apply run_ends|]. split.
  2: { intros clock c Hc. destruct (runPing_lemma clock c Hc) as (c' & l & ? & _ & ?). by exists c', l. }
  split.
  - unfold r. clear r. revert f s g Hok. induction Ht as [|t ticks Ht _ IH]; intros f s g Hok; [done|].
    cbn [run]. destruct (run_cycle_beside hook t f s g Ht Hok) as [Hiff [Hp|(m & s1 & f1 & g1 & Hp & Hok1)]].
    + intros _. apply Hiff in Hp as (m & s2 & f2 & g2 & Hb & Hr). by exists [], t, ticks, s, f, g, m, s2, f2, g2.
    + rewrite Hp, bind_Ok. intros (pre & t' & post & s2 & f2 & g2 & m' & s3 & f3 & g3 & -> & Hpre & Hrest)%IH; [|done].
      exists (t :: pre), t', post, s2, f2, g2, m', s3, f3, g3. split; [done|]. cbn [run]. by rewrite Hp, bind_Ok.
  - intros (pre & t & post & s1 & f1 & g1 & m & s2 & f2 & g2 & -> & Hpre & Hb & Hr). unfold r.
    rewrite run_app, Hpre, bind_Ok. cbn [run]. unfold run_cycle. rewrite Hb, bind_Ok. unfold runPing, cycle_raced in *.
    destruct (c_Slice order (cat_ctl s2)) as [l c0]. cbn [fst snd] in Hr. by rewrite (ping_raced_panics _ _ _ _ _ _ Hr).
Qed.
End CycleSpec.

(** ** Examples *)

#[local] Existing Instance no_json.

Definition conf_special : Configuration :=
  MkConfiguration MainNet 0 "FNode0" 5 100 0 0 "52.17.183.121:8108" "" 60 3 5 900 32 36 30 10 40 8 "" ""
    "8108" 1 15 120 600 5 5 300 300 10 9 1000 false true 3 20.


Lemma ctl_ab_ok : ctl_ok ctl_ab.
Proof. split; [apply ctl_ab_wf|apply ctl_ab_channels]. Qed.

Theorem runPing_spec_witness :
  ∃ c' l, runPing (λ l, l) DefaultP2PConfiguration quiet quiet (λ _, Hour) ctl_ab = Ok c' ∧ peer_a ∈ l ∧
    delivered ping l ctl_ab c'.
Proof.
  destruct (runPing_spec (λ l, l) is_order_id DefaultP2PConfiguration (λ _, Hour) ctl_ab ctl_ab_ok)
    as (c' & l & Hr & _ & _ & Hl & Hd).
  exists c', l. split_and!; [done| |done]. apply Hl. split; by vm_compute.
Defined.

Definition tick_a : tick := MkTick quiet quiet quiet Hour Hour Hour true info_ab (λ _, Hour).
Lemma tick_a_ok : tick_ok tick_a.
Proof. split; [done..|]. intros i. apply gap_ok_id. Qed.
Theorem run_invariant_witness :
  ∃ s' f' g', run (λ l, l) DefaultP2PConfiguration true [tick_a; tick_a] None (MkCat ctl_ab 0 0) 7 = Ok (s', f', g') ∧
    ctl_ok (cat_ctl s').
Proof.
  destruct (run_invariant (λ l, l) is_order_id DefaultP2PConfiguration true [tick_a; tick_a] None (MkCat ctl_ab 0 0) 7)
    as [[Hp|H] _]; [apply ctl_ab_ok|by repeat apply Forall_cons_2; first [apply tick_a_ok|apply Forall_nil_2]| |exact H].
  exfalso. by vm_compute in Hp.
Defined.

(** the panic is real: the connections break in the middle of the [Send]s *)
Lemma run_panics :
  let t := MkTick quiet quiet (λ _, all_end) Hour Hour Hour true info_ab (λ _, Hour) in
  tick_ok t ∧ run (λ l, l) DefaultP2PConfiguration true [t] None (MkCat ctl_ab 0 0) 7 = Panic.
Proof. split; [split; [done..|intros i; apply all_end_gap]|by vm_compute]. Qed.
