(* ===== verification/Debug.v ===== *)
(** * The picture of the connections ([DebugHalfviz] of [debug.go])

    A text with one edge per peer for a drawing tool; the low ids of test networks
    get a colour.  The ids of the remote nodes are read back from the names of the
    peers. *)
From S2P Require Import Prelude GoStd NetworkId Endpoint Configuration PeerStore Controller Connections.

(** ** [hex.DecodeString] *)
Definition fromHexChar (c : byte) : option Z :=
  let v := byte_val c in
  if (48 <=? v) && (v <=? 57) then Some (v - 48)
  else if (97 <=? v) && (v <=? 102) then Some (v - 87)
  else if (65 <=? v) && (v <=? 70) then Some (v - 55)
  else None.
Fixpoint DecodeString (l : list byte) : option (list byte) :=
  match l with
  | [] => Some []
  | a :: b :: l =>
      match fromHexChar a, fromHexChar b, DecodeString l with
      | Some x, Some y, Some d => Some (byte_of (x * 16 + y) :: d)
      | _, _, _ => None
      end
  | _ => None
  end.

(** ** [DebugHalfviz] *)

Definition c_blank : byte := x20.

(** the closure [idFromHash] *)
Definition idFromHash (s : string) : Z :=
  match Split c_blank (str_bytes s) with
  | [_; bits] =>
      if negb (zlen bits =? 8) then -1
      else match DecodeString bits with
           | None => -2
           | Some dec => le_value (take 4 dec)
           end
  | _ => -1
  end.

Definition colors : list string := ["red"; "green"; "blue"].

(** the attributes of an edge; an index out of range panics *)
Definition edge_of (nodeID id : Z) : outcome () string :=
  if (nodeID <? 4) || (id <? 4) then
    let min := if u32 id <? nodeID then u32 id else nodeID in
    if min =? 0 then Ok EmptyString
    else match colors !! Z.to_nat (min - 1) with
         | Some color => Ok (" {color:" +:+ color +:+ ", weight=3}")%string
         | None => Panic
         end
  else Ok EmptyString.

Definition newline : string := bytes_str [x0a].

Section Halfviz.
Context (order : list Peer → list Peer) (conf : Configuration).

Definition our_address : string := (BindIP conf +:+ ":" +:+ ListenPort conf)%string.
Definition halfviz_line (p : Peer) (edge : string) : string :=
  (if IsIncoming p then Endpoint_String (peer_Endpoint p) +:+ " -> " +:+ our_address +:+ edge +:+ newline
   else our_address +:+ " -> " +:+ Endpoint_String (peer_Endpoint p) +:+ edge +:+ newline)%string.

(** an id that cannot be read ends the loop with a message in place of the text:
    [Err] of the peer and the code *)
Fixpoint halfviz_loop (l : list Peer) (halfviz : string) : outcome (string * Z) string :=
  match l with
  | [] => Ok halfviz
  | p :: l =>
      let id := idFromHash (Hash p) in
      if id <? 0 then Err (Hash p, id)
      else match edge_of (NodeID conf) id with
           | Ok edge => halfviz_loop l (halfviz +:+ halfviz_line p edge)%string
           | _ => Panic
           end
  end.
Definition DebugHalfviz (c : controller) : outcome (string * Z) string * controller :=
  let (l, c) := c_Slice order c in (halfviz_loop l EmptyString, c).
End Halfviz.

(** ** The ids *)

(** [k] digits, with leading zeros *)
Fixpoint fixed_digits (k : nat) (n : Z) : list byte :=
  match k with O => [] | S k => fixed_digits k (n / 16) ++ [hex_char (n mod 16)] end.

Lemma hex_digits_acc fuel n acc : hex_digits fuel n acc = hex_digits fuel n [] ++ acc.
Proof.
  revert n acc. induction fuel as [|fuel IH]; intros n acc; [done|]. cbn [hex_digits].
  destruct (n <? 16); [done|]. rewrite IH, (IH _ [_]), <-app_assoc. done.
Qed.

Lemma fixed_zero k : fixed_digits k 0 = replicate k x30.
Proof.
  induction k as [|k IH]; [done|]. cbn [fixed_digits]. change (0 / 16) with 0. rewrite IH.
  change (hex_char (0 mod 16)) with x30. by rewrite replicate_S_end.
Qed.

Lemma fixed_pad k fuel n :
  0 ≤ n < 16 ^ Z.of_nat (S k) → (k < fuel)%nat →
  (length (hex_digits fuel n []) ≤ S k)%nat ∧
  replicate (S k - length (hex_digits fuel n [])) x30 ++ hex_digits fuel n [] = fixed_digits (S k) n.
Proof.
  revert fuel n. induction k as [|k IH]; intros [|fuel] n Hn Hf; try lia; cbn [hex_digits].
  - rewrite (proj2 (Z.ltb_lt n 16)) by lia. done.
  - replace (Z.of_nat (S (S k))) with (Z.of_nat (S k) + 1) in Hn by lia. rewrite Z.pow_add_r in Hn by lia.
    assert (Hd : fixed_digits (S (S k)) n = fixed_digits (S k) (n / 16) ++ [hex_char (n mod 16)]) by done.
    rewrite Hd. destruct (Z.ltb_spec n 16).
    + rewrite Z.div_small, fixed_zero by lia. simpl. split; [lia|]. done.
    + rewrite hex_digits_acc. destruct (IH fuel (n / 16)) as [Hl He]; [|lia|].
      { split; [apply Z.div_pos; lia|]. apply Z.div_lt_upper_bound; lia. }
      rewrite <-He, length_app. simpl. split; [lia|]. rewrite <-app_assoc. f_equal. f_equal. lia.
Qed.

Lemma fixed_digits_length k n : length (fixed_digits k n) = k.
Proof. revert n. induction k as [|k IH]; intros n; [done|]. cbn. rewrite length_app, IH. simpl. lia. Qed.

Lemma hex_digit_char d : 0 ≤ d < 16 → fromHexChar (hex_char d) = Some d.
Proof.
  intros Hd. unfold fromHexChar, hex_char. rewrite byte_val_of, Z.mod_small by (case_match; lia).
  destruct (Z.ltb_spec d 10).
  - rewrite (proj2 (Z.leb_le 48 _)), (proj2 (Z.leb_le _ 57)) by lia. simpl. f_equal. lia.
  - rewrite (proj2 (Z.leb_gt _ 57)), andb_false_r by lia.
    rewrite (proj2 (Z.leb_le 97 _)), (proj2 (Z.leb_le _ 102)) by lia. simpl. f_equal. lia.
Qed.

Lemma DecodeString_app n l d k :
  (length l ≤ n)%nat → DecodeString l = Some d → DecodeString (l ++ k) = (λ e, d ++ e) <$> DecodeString k.
Proof.
  revert l d. induction n as [|n IH]; intros [|a [|b l]] d Hn; simpl in *; try done; try lia.
  1-2: intros [= <-]; by destruct (DecodeString k).
  destruct (fromHexChar a), (fromHexChar b), (DecodeString l) as [e|] eqn:He; try done. intros [= <-].
  rewrite (IH l e) by (done || lia). by destruct (DecodeString k).
Qed.

Lemma DecodeString_fixed k n : DecodeString (fixed_digits (2 * k) n) = Some (reverse (le_bytes k n)).
Proof.
  revert n. induction k as [|k IH]; intros n; [done|].
  replace (2 * S k)%nat with (S (S (2 * k))) by lia. cbn [fixed_digits]. rewrite <-app_assoc.
  rewrite (DecodeString_app _ _ _ _ (reflexivity _) (IH _)).
  cbn [app DecodeString]. pose proof (Z.mod_pos_bound n 16 ltac:(lia)).
  pose proof (Z.mod_pos_bound (n / 16) 16 ltac:(lia)). rewrite !hex_digit_char by done. simpl.
  cbn [le_bytes]. rewrite reverse_cons, Z.div_div, Z.shiftr_div_pow2 by lia.
  change (16 * 16) with (2 ^ 8). do 3 f_equal. apply byte_val_inj. rewrite !byte_val_of.
  rewrite (Z_div_mod_eq_full n 16) at 3. rewrite (Z_div_mod_eq_full (n / 16) 16) at 2.
  replace (16 * (16 * (n / 16 / 16) + (n / 16) mod 16) + n mod 16)
    with ((n / 16) mod 16 * 16 + n mod 16 + (n / 16 / 16) * 256) by lia.
  by rewrite Z_mod_plus_full.
Qed.

Lemma format_08x_bytes id : is_u32 id → str_bytes (format_08x id) = fixed_digits 8 id.
Proof.
  intros Hid. unfold format_08x. rewrite str_bytes_str.
  destruct (fixed_pad 7 16 id) as [_ <-]; [|lia|done].
  unfold is_u32 in Hid. change (16 ^ Z.of_nat 8) with (2 ^ 32). lia.
Qed.

Lemma blank_not_digit k n : c_blank ∉ fixed_digits k n.
Proof.
  revert n. induction k as [|k IH]; intros n; [apply not_elem_of_nil|]. cbn [fixed_digits].
  rewrite elem_of_app, list_elem_of_singleton. intros [Hin|E]; [by apply (IH _ Hin)|].
  pose proof (hex_digit_char (n mod 16) ltac:(apply Z.mod_pos_bound; lia)) as Hd. by rewrite <-E in Hd.
Qed.

(** the id that is read from the name of a peer *)
Lemma idFromHash_peer ep id :
  is_u32 id → c_blank ∉ str_bytes (Endpoint_String ep) →
  idFromHash (peer_Hash ep id) = le_value (be_PutUint32 id).
Proof.
  intros Hid Hep. unfold idFromHash, peer_Hash.
  assert (Hb : str_bytes (Endpoint_String ep +:+ " " +:+ format_08x id) =
    str_bytes (Endpoint_String ep) ++ c_blank :: fixed_digits 8 id).
  { rewrite !str_bytes_app, format_08x_bytes by done. done. }
  rewrite Hb, Split_app, Split_no by (done || apply blank_not_digit).
  unfold zlen. rewrite fixed_digits_length. cbn [negb Z.eqb Z.of_nat].
  rewrite (DecodeString_fixed 4). unfold be_PutUint32. by rewrite take_ge by (by rewrite length_reverse, le_bytes_length).
Qed.

Lemma edge_of_Ok nodeID id : 0 ≤ nodeID → is_u32 id → ∃ e, edge_of nodeID id = Ok e.
Proof.
  intros Hn Hid. unfold edge_of. rewrite (u32_id id) by done.
  destruct ((nodeID <? 4) || (id <? 4)) eqn:Hlow; [|by eexists]. apply orb_true_iff in Hlow.
  rewrite !Z.ltb_lt in Hlow. cbv zeta. set (min := if id <? nodeID then id else nodeID).
  assert (Hmin : 0 ≤ min < 4) by (unfold min; unfold is_u32 in Hid; destruct (Z.ltb_spec id nodeID); lia).
  destruct (Z.eqb_spec min 0); [by eexists|].
  destruct (lookup_lt_is_Some_2 colors (Z.to_nat (min - 1))) as [color ->]; [simpl; lia|]. by eexists.
Qed.

Definition concat_strings : list string → string := foldr String.append EmptyString.

Lemma strcat_assoc (s t u : string) : ((s +:+ t) +:+ u = s +:+ (t +:+ u))%string.
Proof.
  induction s as [|a s IH]; [done|].
  change (String a ((s +:+ t) +:+ u) = String a (s +:+ (t +:+ u)))%string. by rewrite IH.
Qed.

Lemma halfviz_loop_spec conf ids l acc :
  0 ≤ NodeID conf →
  Forall (λ p, Hash p = peer_Hash (peer_Endpoint p) (ids p) ∧ is_u32 (ids p) ∧
    c_blank ∉ str_bytes (Endpoint_String (peer_Endpoint p))) l →
  ∃ edges, Forall2 (λ p e, edge_of (NodeID conf) (le_value (be_PutUint32 (ids p))) = Ok e) l edges ∧
    halfviz_loop conf l acc = Ok (acc +:+ concat_strings (zip_with (halfviz_line conf) l edges))%string.
Proof.
  intros Hn Hl. revert acc. induction Hl as [|p l (Hp & Hid & Hb) _ IH]; intros acc.
  { exists []. split; [done|]. simpl. f_equal. induction acc as [|a acc IHa]; [done|].
    change (String a acc = String a (acc +:+ EmptyString)). by rewrite <-IHa. }
  cbn [halfviz_loop]. rewrite Hp, idFromHash_peer by done.
  pose proof (le_value_range (be_PutUint32 (ids p))) as Hr. unfold zlen in Hr. rewrite be_PutUint32_length in Hr.
  change (2 ^ (8 * Z.of_nat 4)) with (2 ^ 32) in Hr.
  destruct (edge_of_Ok (NodeID conf) (le_value (be_PutUint32 (ids p))) Hn Hr) as [e He].
  rewrite (proj2 (Z.ltb_ge _ 0)) by lia. rewrite He.
  destruct (IH (acc +:+ halfviz_line conf p e)%string) as (edges & Hall & ->).
  exists (e :: edges). split; [by constructor|]. cbn [zip_with concat_strings foldr].
  by rewrite strcat_assoc.
Qed.

(** The picture has one edge for every connected peer and never fails, provided the
    peers have the names [newPeer] gives them.  But the id that decides about the
    colour is not the one in the name: its bytes are read in the reverse order, so
    that node 1 counts as node 16777216, and an edge has its colour only if the node
    of the picture has one. *)
Theorem DebugHalfviz_spec order conf c ids :
  controller_wf c → is_order order → 0 ≤ NodeID conf →
  (∀ h p, peers (c_peers c) !! h = Some p → Hash p = peer_Hash (peer_Endpoint p) (ids p) ∧
     is_u32 (ids p) ∧ c_blank ∉ str_bytes (Endpoint_String (peer_Endpoint p))) →
  (∃ l edges, NoDup l ∧ (∀ p, p ∈ l ↔ PeerStore_Get (c_peers c) (Hash p) = Some p) ∧
    Forall2 (λ p e, edge_of (NodeID conf) (le_value (be_PutUint32 (ids p))) = Ok e) l edges ∧
    (DebugHalfviz order conf c).1 = Ok (concat_strings (zip_with (halfviz_line conf) l edges))) ∧
  (∀ ep, c_blank ∉ str_bytes (Endpoint_String ep) → idFromHash (peer_Hash ep 1) = 16777216).
Proof.
  intros Hwf Ho Hn Hnames. split.
  - unfold DebugHalfviz. destruct (c_Slice order c) as [l c'] eqn:HS.
    destruct (c_Slice_spec order c l c' Hwf Ho HS) as (_ & _ & _ & _ & _ & _ & _ & Hnd & Hin).
    destruct (halfviz_loop_spec conf ids l EmptyString Hn) as (edges & Hall & ->).
    { apply Forall_forall. intros p Hp%Hin. by apply (Hnames (Hash p)). }
    by exists l, edges.
  - intros ep Hep. rewrite idFromHash_peer; [by vm_compute|unfold is_u32; lia|done].
Qed.

Definition named (ref : nat) (ep : Endpoint) (id : Z) (incoming : bool) : Peer :=
  MkPeer ref (peer_Hash ep id) ep incoming.
Definition store_named : PeerStore :=
  match PeerStore_Add NewPeerStore (Some (named 1 ep_a 2 true)) with Ok ps => ps | _ => NewPeerStore end.
Definition ctl_named : controller := MkController store_named {[ 1%nat := fresh_state ]} [] ∅ false ∅ [].

Lemma ctl_named_peer h p : peers store_named !! h = Some p → p = named 1 ep_a 2 true.
Proof.
  assert (H : map_Forall (λ _ p, p = named 1 ep_a 2 true) (peers store_named)).
  { apply (bool_decide_unpack _). by vm_compute. }
  apply H.
Qed.

Lemma ctl_named_wf : controller_wf ctl_named.
Proof.
  split.
  - apply reachable_wf, (sr_add NewPeerStore (Some (named 1 ep_a 2 true))); [apply sr_new|by vm_compute].
  - intros h p ->%ctl_named_peer. by eexists.
  - intros h h' p q ->%ctl_named_peer ->%ctl_named_peer. done.
  - intros i st pr. unfold ctl_named. simpl. rewrite lookup_singleton. case_decide; [|done].
    intros; simplify_eq/=; done.
  - done.
Qed.

Theorem DebugHalfviz_spec_witness :
  (∃ l edges, NoDup l ∧ (∀ p, p ∈ l ↔ PeerStore_Get (c_peers ctl_named) (Hash p) = Some p) ∧
    Forall2 (λ p e, edge_of (NodeID DefaultP2PConfiguration) (le_value (be_PutUint32 2)) = Ok e) l edges ∧
    (DebugHalfviz (λ l, l) DefaultP2PConfiguration ctl_named).1 =
      Ok (concat_strings (zip_with (halfviz_line DefaultP2PConfiguration) l edges))) ∧
  (∀ ep, c_blank ∉ str_bytes (Endpoint_String ep) → idFromHash (peer_Hash ep 1) = 16777216).
Proof.
  apply (DebugHalfviz_spec (λ l, l) DefaultP2PConfiguration ctl_named (λ _, 2) ctl_named_wf is_order_id).
  - by vm_compute.
  - intros h p ->%ctl_named_peer. split_and!; [done|unfold is_u32; lia|].
    apply (bool_decide_unpack _). by vm_compute.
Defined.
