(* ===== verification/DebugPages.v ===== *)
(** * The pages for debugging ([DebugMessage] and [DebugServer] of [debug.go])

    Tables of the peers, their traffic and the bans.  [info] is what a peer knows
    besides its constant part, as for [GetMetrics]. *)
From stdpp Require Import sorting.
From S2P Require Import Prelude GoStd Endpoint Parcel ParcelChannel PeerHashCache Configuration PeerStore Controller.
From S2P Require Import Json JsonSpec GoTime GoFmt Metrics Connections Debug.

(** [sort.Slice(s, ...)] by the hashes, which differ *)
Definition hash_le (p q : Peer) : Prop := String.leb (Hash p) (Hash q) = true.
#[export] Instance hash_le_dec : RelDecision hash_le := λ p q, bool_eq_dec (String.leb (Hash p) (Hash q)) true.

Definition decimal (n : Z) : list byte := print_nat n.
Definition text (s : string) : list byte := str_bytes s.

(** the closure [bps] *)
Definition bps (b : Z) : list byte :=
  if 1024 <? b then fmt_2f (float_div_1024 (float_of b)) ++ lit " KiB/s" else decimal b ++ lit " B/s".

(** [sums]; its last element is never used *)
Record debug_sums := MkSums { sum0 : Z; sum1 : Z; sum2 : Z; sum3 : Z; sum4 : Z }.

(** both rates of bytes add the upload *)
Definition add_sums (s : debug_sums) (m : PeerMetrics) : debug_sums :=
  MkSums (u64 (sum0 s + uint64_of (float_of (MPSDown m)))) (u64 (sum1 s + uint64_of (float_of (MPSUp m))))
    (u64 (sum2 s + uint64_of (float_of (BPSUp m)))) (u64 (sum3 s + uint64_of (float_of (BPSUp m))))
    (u64 (sum4 s + Dropped m)).

Definition header_row : list (list byte) :=
  lit <$> ["Hash"; "MPS Down"; "MPS Up"; "Bps Down"; "Bps up"; "Ratio"; "Dropped"; "Prot"; "Type"].
Definition ruler : list (list byte) :=
  lit <$> ["----"; "--------"; "------"; "--------"; "------"; "-----"; "-------"; "----"; "----"].

Section Pages.
Context (order : list Peer → list Peer) (info : Peer → PeerState * peer_info).

Definition metrics_of (c : controller) (p : Peer) : PeerMetrics := GetMetrics c p (info p).1 (info p).2.

Definition peer_row (c : controller) (p : Peer) : list (list byte) :=
  let m := metrics_of c p in
  [text (Hash p); fmt_2f (float_of (MPSDown m)); fmt_2f (float_of (MPSUp m)); fmt_2f (float_of (BPSDown m));
   fmt_2f (float_of (BPSUp m)); fmt_ratio (SendFillRatio m); decimal (Dropped m); text (pi_prot (info p).2);
   lit (if IsIncoming p then "Incoming" else "Outgoing")].
Definition sum_row (s : debug_sums) : list (list byte) :=
  [lit "Sum"; decimal (sum0 s); decimal (sum1 s); bps (sum2 s); bps (sum3 s); lit " "; decimal (sum4 s); []; []].

Definition online_line (conf : Configuration) (n : Z) : list byte :=
  c_nl :: lit "ONLINE: (" ++ decimal n ++ lit "/" ++ decimal (TargetPeers conf) ++ lit "/" ++
    decimal (MaxPeers conf) ++ lit ")" ++ [c_nl].
(** [zone] is the offset of the location of a ban's time, [ban_order] the order in which
    Go visits the map of bans *)
Definition bans_rows (zone : string → Z → Z) (ban_order : list (string * Z) → list (string * Z)) (c : controller)
    : list (list (list byte)) :=
  (lit <$> ["Address"; "Expires"]) :: (lit <$> ["-------"; "-------"]) ::
  ((λ kv : string * Z, [text kv.1; format_short (zone kv.1 kv.2) kv.2]) <$> ban_order (map_to_list (bans c))).

Definition DebugMessage (conf : Configuration) (zone : string → Z → Z)
    (ban_order : list (string * Z) → list (string * Z)) (c : controller) : (list byte * Z) * controller :=
  let (s, c) := c_Slice order c in
  let s := merge_sort hash_le s in
  let sums := foldl (λ n p, add_sums n (metrics_of c p)) (MkSums 0 0 0 0 0) s in
  let rows := header_row :: ruler :: (peer_row c <$> s) ++ [ruler; sum_row sums] in
  (online_line conf (zlen s) ++ table rows ++ c_nl :: lit "BANS:" ++ c_nl :: table (bans_rows zone ban_order c),
   zlen s, c).

(** *** [/stats]

    [ties] is what [sort.Slice] makes of peers that connected at the same time, and
    [stamps] what the times have besides the instant. *)
Definition connected_le (p q : Peer) : Prop := pi_connected (info p).2 ≤ pi_connected (info q).2.
#[local] Instance connected_le_dec : RelDecision connected_le := λ p q, decide (_ ≤ _).

(** a line with [n] tabs *)
Definition stat_line (n : nat) (label : string) (value : list byte) : list byte :=
  replicate n c_tab ++ lit label ++ value ++ [c_nl].
Definition fill (n m : Z) : list byte := decimal n ++ lit " / " ++ decimal m.

Definition peer_stats_text (stamps : Z → stamp) (c : controller) (p : Peer) : list byte :=
  let m := metrics_of c p in
  let send := ps_send (info p).1 in
  let time t := time_String (stamps t) t in
  stat_line 1 EmptyString (text (Endpoint_String (peer_Endpoint p))) ++
  stat_line 2 "send: " (fill (zlen (pc_items send)) (pc_cap send)) ++
  stat_line 2 "BytesReceived: " (decimal (BytesReceived m)) ++
  stat_line 2 "BytesSent: " (decimal (BytesSent m)) ++
  stat_line 2 "MessagesSent: " (decimal (MessagesSent m)) ++
  stat_line 2 "MessagesReceived: " (decimal (MessagesReceived m)) ++
  stat_line 2 "MomentConnected: " (time (MomentConnected m)) ++
  stat_line 2 "PeerQuality: " (decimal (PeerQuality m)) ++
  stat_line 2 "Incoming: " (lit (if pm_Incoming m then "true" else "false")) ++
  stat_line 2 "LastReceive: " (time (LastReceive m)) ++
  stat_line 2 "LastSend: " (time (LastSend m)) ++
  stat_line 2 "MPS Down: " (fmt_2f (float_of (MPSDown m))) ++
  stat_line 2 "MPS Up: " (fmt_2f (float_of (MPSUp m))) ++
  stat_line 2 "BPS Down: " (fmt_2f (float_of (BPSDown m))) ++
  stat_line 2 "BPS Up: " (fmt_2f (float_of (BPSUp m))) ++
  stat_line 2 "Capacity: " (fmt_ratio (SendFillRatio m)) ++
  stat_line 2 "Dropped (send): " (decimal (Dropped m)).

(** [peerData] is the length and the capacity of the channel *)
Definition stats_page (toNetwork fromNetwork : ParcelChannel) (peerData : Z * Z)
    (ties : list Peer → list Peer) (stamps : Z → stamp) (c : controller) : list byte * controller :=
  let out := lit "Channels" ++ [c_nl] ++
    stat_line 1 "ToNetwork: " (fill (zlen (pc_items toNetwork)) (pc_cap toNetwork)) ++
    stat_line 1 "FromNetwork: " (fill (zlen (pc_items fromNetwork)) (pc_cap fromNetwork)) ++
    stat_line 1 "peerData: " (fill peerData.1 peerData.2) ++
    c_nl :: lit "Peers (" ++ decimal (PeerStore_Total (c_peers c)) ++ lit ")" ++ [c_nl] in
  let (slice, c) := c_Slice order c in
  let slice := merge_sort connected_le (ties slice) in
  (out ++ concat (peer_stats_text stamps c <$> slice), c).

(** the two paths of the server; any other is not found *)
Inductive debug_path := Path_debug | Path_stats.
Definition debug_route (path : string) : option debug_path :=
  if bool_decide (path = "/debug"%string) then Some Path_debug
  else if bool_decide (path = "/stats"%string) then Some Path_stats else None.
Definition DebugServer (conf : Configuration) (toNetwork fromNetwork : ParcelChannel) (peerData : Z * Z)
    (zone : string → Z → Z) (ban_order : list (string * Z) → list (string * Z)) (ties : list Peer → list Peer)
    (stamps : Z → stamp) (path : string) (c : controller) : option (list byte) * controller :=
  match debug_route path with
  | Some Path_debug => let '(a, _, c) := DebugMessage conf zone ban_order c in (Some a, c)
  | Some Path_stats => let (out, c) := stats_page toNetwork fromNetwork peerData ties stamps c in (Some out, c)
  | None => (None, c)
  end.
End Pages.

(** ** Lines of a table *)

Definition rectangular (n : nat) (rows : list (list (list byte))) : Prop := Forall (λ r, length r = n) rows.
Definition fits (widths : list nat) (r : list (list byte)) : Prop :=
  Forall2 (λ w c, (RuneCount c + 3 ≤ w)%nat) widths r.

Lemma fits_own r : fits ((λ c, RuneCount c + 3)%nat <$> r) r.
Proof. apply Forall2_fmap_l, Forall_Forall2_diag, Forall_true. simpl. lia. Qed.

Lemma fits_max_l u v r : length u = length v → fits u r → fits (zip_with Nat.max u v) r.
Proof.
  intros Hl H. revert v Hl. induction H as [|w c u r Hw _ IH]; intros [|w' v] Hl; simplify_eq/=; constructor; [lia|].
  by apply IH.
Qed.
Lemma fits_max_r u v r : length u = length v → fits v r → fits (zip_with Nat.max u v) r.
Proof.
  intros Hl H. revert u Hl. induction H as [|w c v r Hw _ IH]; intros [|w' u] Hl; simplify_eq/=; constructor; [lia|].
  by apply IH.
Qed.

(** every column is wide enough for all of its cells *)
Lemma column_widths_fit n rows :
  rectangular n rows → rows ≠ [] → length (column_widths rows) = n ∧ Forall (fits (column_widths rows)) rows.
Proof.
  intros H. induction H as [|r rows Hr H IH]; [done|]. intros _. destruct rows as [|r' rows].
  - split; [by cbn; rewrite length_fmap|]. constructor; [apply fits_own|constructor].
  - destruct (IH ltac:(done)) as [Hl Hf]. change (column_widths (r :: r' :: rows)) with
      (zip_with Nat.max ((λ c, RuneCount c + 3)%nat <$> r) (column_widths (r' :: rows))).
    assert (Hlen : length ((λ c, RuneCount c + 3)%nat <$> r) = length (column_widths (r' :: rows)))
      by (rewrite length_fmap, Hl; done).
    split; [rewrite length_zip_with, <-Hlen, length_fmap; lia|]. constructor; [apply fits_max_l, fits_own; done|].
    apply (Forall_impl _ _ _ Hf). intros x. by apply fits_max_r.
Qed.

(** a cell of characters of one byte *)
Definition one_byte (c : list byte) : Prop := RuneCount c = length c.

Lemma table_line_length widths r :
  fits widths r → Forall one_byte r → length (table_line widths r) = S (sum_list widths).
Proof.
  intros Hf Ho. unfold table_line. rewrite length_app. simpl.
  enough (length (concat (zip_with padded widths r)) = sum_list widths) by lia.
  induction Hf as [|w c widths r Hw _ IH]; [done|]. apply Forall_cons in Ho as [Hc Ho]. simpl.
  rewrite length_app, IH by done. unfold padded. rewrite length_app, length_replicate. unfold one_byte in Hc. lia.
Qed.

(** all lines of a table are equally long, so that its columns stand below each other *)
Lemma table_lines n rows :
  rectangular n rows → rows ≠ [] → Forall (Forall one_byte) rows →
  ∃ lines w, table rows = concat lines ∧ length lines = length rows ∧ Forall (λ l, length l = w) lines.
Proof.
  intros Hr Hne Ho. destruct (column_widths_fit n rows Hr Hne) as [_ Hf].
  exists (table_line (column_widths rows) <$> rows), (S (sum_list (column_widths rows))).
  split_and!; [done|by rewrite length_fmap|]. apply Forall_fmap. apply Forall_forall. intros r Hin.
  rewrite Forall_forall in Hf, Ho. apply table_line_length; [by apply Hf|by apply Ho].
Qed.

(** ** The page of the peers *)

#[local] Instance hash_le_total : Total hash_le.
Proof. intros p q. unfold hash_le. apply String.leb_total. Qed.

Section Spec.
Context (order : list Peer → list Peer) (info : Peer → PeerState * peer_info).

Definition last_rate (w : counter) (p : Peer) : Z := counter_get w (stats_last (pi_stats (info p).2)).
Definition last_dropped (p : Peer) : Z := ps_dropped (info p).1.
Definition total (f : Peer → Z) (l : list Peer) : Z := foldr (λ p n, f p + n) 0 l.

(** rates that a float holds *)
Definition rates_ok (l : list Peer) : Prop := Forall (λ p, ∀ w, 0 ≤ last_rate w p < 2 ^ 53) l.

(** the row of a peer with such rates *)
Definition plain_row (p : Peer) : list (list byte) :=
  let rate w := print_nat (last_rate w p) ++ lit ".00" in
  [text (Hash p); rate MR; rate MW; rate BR; rate BW; fmt_ratio (FillRatio (ps_send (info p).1));
   decimal (last_dropped p); text (pi_prot (info p).2); lit (if IsIncoming p then "Incoming" else "Outgoing")].

Lemma peer_row_plain c p : (∀ w, 0 ≤ last_rate w p < 2 ^ 53) → peer_row info c p = plain_row p.
Proof.
  intros H. unfold peer_row, metrics_of, GetMetrics, plain_row, last_rate in *. cbn [MPSDown MPSUp BPSDown BPSUp].
  pose proof (H MR). pose proof (H MW). pose proof (H BR). pose proof (H BW). cbn [counter_get] in *.
  by rewrite !fmt_2f_of.
Qed.

Lemma foldl_sums c l s0 s1 s2 s3 s4 :
  rates_ok l →
  foldl (λ n p, add_sums n (metrics_of info c p)) (MkSums (u64 s0) (u64 s1) (u64 s2) (u64 s3) (u64 s4)) l =
  MkSums (u64 (s0 + total (last_rate MR) l)) (u64 (s1 + total (last_rate MW) l)) (u64 (s2 + total (last_rate BW) l))
    (u64 (s3 + total (last_rate BW) l)) (u64 (s4 + total last_dropped l)).
Proof.
  intros H. revert s0 s1 s2 s3 s4. induction H as [|p l Hp _ IH]; intros s0 s1 s2 s3 s4; [by rewrite !Z.add_0_r|].
  pose proof (Hp MR). pose proof (Hp MW). pose proof (Hp BW). unfold last_rate in *. cbn [counter_get] in *.
  cbn [foldl]. unfold add_sums at 2. unfold metrics_of, GetMetrics.
  cbn [sum0 sum1 sum2 sum3 sum4 MPSDown MPSUp BPSDown BPSUp Dropped].
  rewrite !uint64_of_exact, !u64_add_l by done. unfold metrics_of, GetMetrics in IH. rewrite IH.
  cbn [total foldr]. unfold last_dropped. by rewrite !Z.add_assoc.
Qed.

Lemma c_Slice_total c l c' :
  controller_wf c → is_order order → c_Slice order c = (l, c') → zlen l = PeerStore_Total (c_peers c).
Proof.
  intros Hwf Ho. unfold c_Slice. destruct (PeerStore_Slice order (c_peers c)) as [l' ps] eqn:HS. intros [= <- <-].
  by apply (Slice_spec order order _ _ _ (cw_store _ Hwf) Ho HS).
Qed.

(** The page of the peers has one line for every connected peer, in the order of the
    hashes, with its rates as they are, and the number of them in its first line.  The
    line of sums has the sums of the rates modulo 2^64 and is wrong in one column: the
    sum below the download is that of the upload. *)
Theorem DebugMessage_spec conf zone ban_order c :
  controller_wf c → is_order order →
  ∃ l c', Sorted hash_le l ∧ NoDup l ∧ (∀ p, p ∈ l ↔ PeerStore_Get (c_peers c) (Hash p) = Some p) ∧
    controller_wf c' ∧ bans c' = bans c ∧
    ∀ (Hrates : rates_ok l), let upload := u64 (total (last_rate BW) l) in
    DebugMessage order info conf zone ban_order c =
      (online_line conf (PeerStore_Total (c_peers c)) ++
       table (header_row :: ruler :: (plain_row <$> l) ++
         [ruler; [lit "Sum"; decimal (u64 (total (last_rate MR) l)); decimal (u64 (total (last_rate MW) l));
                  bps upload; bps upload; lit " "; decimal (u64 (total last_dropped l)); []; []]]) ++
       c_nl :: lit "BANS:" ++ c_nl :: table (bans_rows zone ban_order c),
       PeerStore_Total (c_peers c), c').
Proof.
  intros Hwf Ho. unfold DebugMessage. destruct (c_Slice order c) as [l0 c'] eqn:HS.
  destruct (c_Slice_spec order c l0 c' Hwf Ho HS) as (Hwf' & _ & _ & _ & Hb & _ & _ & Hnd & Hin).
  pose proof (c_Slice_total c l0 c' Hwf Ho HS) as Ht. set (l := merge_sort hash_le l0).
  assert (Hp : l ≡ₚ l0) by apply merge_sort_Permutation.
  exists l, c'. split_and!; [apply (Sorted_merge_sort hash_le)|by rewrite Hp|intros p; by rewrite Hp, Hin|done|done|].
  intros Hr. cbv zeta. assert (zlen l = PeerStore_Total (c_peers c)) as -> by (unfold zlen in *; by rewrite Hp).
  unfold bans_rows. rewrite Hb.
  change (MkSums 0 0 0 0 0) with (MkSums (u64 0) (u64 0) (u64 0) (u64 0) (u64 0)). rewrite foldl_sums by done.
  rewrite !Z.add_0_l. unfold sum_row. cbn [sum0 sum1 sum2 sum3 sum4].
  assert (peer_row info c' <$> l = plain_row <$> l) as ->; [|done].
  apply list_fmap_ext. intros i p Hi. apply peer_row_plain. unfold rates_ok in Hr. by apply (Forall_lookup_1 _ _ _ _ Hr Hi).
Qed.

(** The other page has one block of lines for every connected peer, those that connected
    first first, and neither page changes the peers. *)
Theorem stats_page_spec toNetwork fromNetwork peerData ties stamps c :
  controller_wf c → is_order order → is_order ties →
  ∃ l c' head, Sorted (connected_le info) l ∧ NoDup l ∧
    (∀ p, p ∈ l ↔ PeerStore_Get (c_peers c) (Hash p) = Some p) ∧
    controller_wf c' ∧ peers (c_peers c') = peers (c_peers c) ∧ heap c' = heap c ∧
    stats_page order info toNetwork fromNetwork peerData ties stamps c =
      (head ++ concat (peer_stats_text info stamps c' <$> l), c').
Proof.
  intros Hwf Ho Ht. unfold stats_page. destruct (c_Slice order c) as [l0 c'] eqn:HS.
  destruct (c_Slice_spec order c l0 c' Hwf Ho HS) as (Hwf' & Hp & Hh & _ & _ & _ & _ & Hnd & Hin).
  set (l := merge_sort (connected_le info) (ties l0)).
  assert (Hl : l ≡ₚ l0) by (unfold l; rewrite merge_sort_Permutation; apply Ht).
  assert (Total (connected_le info)) by (intros p q; unfold connected_le; lia).
  eexists l, c', _. split_and!; [apply (Sorted_merge_sort (connected_le info))|by rewrite Hl|intros p; by rewrite Hl, Hin|done..].
Qed.
End Spec.

(** ** Examples *)

Definition info_named (p : Peer) : PeerState * peer_info :=
  (fresh_state, MkInfo 0 0 "10" (MkStats (MkCounters 4 5 600 7000) (MkCounters 2 3 1536 100))).

Lemma the_only {A} (l : list A) a : NoDup l → (∀ x, x ∈ l ↔ x = a) → l = [a].
Proof.
  intros Hnd Hin. destruct l as [|x [|y l]].
  - assert (a ∈ []) as []%elem_of_nil by by apply Hin.
  - f_equal. apply Hin. by left.
  - apply NoDup_cons in Hnd as [Hx _]. exfalso. apply Hx.
    assert (x = a) as -> by (apply Hin; by left). assert (y = a) as -> by (apply Hin; by right; left). by left.
Qed.

Theorem DebugMessage_spec_witness :
  ∃ l c', bans c' = bans ctl_named ∧
    DebugMessage (λ l, l) info_named DefaultP2PConfiguration (λ _ _, 0) (λ l, l) ctl_named =
      (online_line DefaultP2PConfiguration 1 ++
       table (header_row :: ruler :: (plain_row info_named <$> l) ++
         [ruler; [lit "Sum"; lit "3"; lit "2"; lit "1.50 KiB/s"; lit "1.50 KiB/s"; lit " "; lit "0"; []; []]]) ++
       c_nl :: lit "BANS:" ++ c_nl :: table (bans_rows (λ _ _, 0) (λ l, l) ctl_named), 1, c').
Proof.
  destruct (DebugMessage_spec (λ l, l) info_named DefaultP2PConfiguration (λ _ _, 0) (λ l, l) ctl_named
    ctl_named_wf is_order_id) as (l & c' & _ & Hnd & Hin & _ & Hb & Hd).
  assert (Hl : l = [named 1 ep_a 2 true]).
  { apply the_only; [done|]. intros p. rewrite Hin. split; [by apply (ctl_named_peer (Hash p))|].
    intros ->. reflexivity. }
  exists l, c'. split; [done|]. cbv zeta in Hd. rewrite Hd.
  - assert (decimal (u64 (total (last_rate info_named MR) l)) = lit "3") as -> by (rewrite Hl; by vm_compute).
    assert (decimal (u64 (total (last_rate info_named MW) l)) = lit "2") as -> by (rewrite Hl; by vm_compute).
    assert (bps (u64 (total (last_rate info_named BW) l)) = lit "1.50 KiB/s") as -> by (rewrite Hl; by vm_compute).
    assert (decimal (u64 (total (last_dropped info_named) l)) = lit "0") as -> by (rewrite Hl; by vm_compute).
    assert (PeerStore_Total (c_peers ctl_named) = 1) as -> by (by vm_compute). reflexivity.
  - rewrite Hl. constructor; [|constructor]. intros w. cut ((0 <=? last_rate info_named w (named 1 ep_a 2 true)) && (last_rate info_named w (named 1 ep_a 2 true) <? 2 ^ 53) = true); [lia|by destruct w].
Defined.

Theorem stats_page_spec_witness :
  ∃ l c' head, NoDup l ∧ stats_page (λ l, l) info_named (newParcelChannel 5) (newParcelChannel 5) (0, 5) (λ l, l)
    (λ _, MkStamp 0 (lit "UTC") None) ctl_named =
      (head ++ concat (peer_stats_text info_named (λ _, MkStamp 0 (lit "UTC") None) c' <$> l), c').
Proof.
  destruct (stats_page_spec (λ l, l) info_named (newParcelChannel 5) (newParcelChannel 5) (0, 5) (λ l, l)
    (λ _, MkStamp 0 (lit "UTC") None) ctl_named ctl_named_wf is_order_id is_order_id)
    as (l & c' & head & _ & Hnd & _ & _ & _ & _ & Hs).
  by exists l, c', head.
Defined.
