(* ===== verification/LockSource.v ===== *)
(** * The shared source of random numbers ([lockSource.go])

    The generators of [math/rand] may not be used by several goroutines at once;
    the package puts a mutex around them.  The goroutines are modelled step by step,
    with the read and the write of the generator's state apart. *)
From S2P Require Import Prelude.

(** [rand.Source64] *)
Class Source64 (S : Type) := {
  NewSource : Z → S;
  src_Int63 : S → Z * S;
  src_Uint64 : S → Z * S;
  src_Seed : Z → S → S;
}.

Inductive source_op := Int63 | Uint64 | Seed (seed : Z).
#[export] Instance source_op_eq_dec : EqDecision source_op.
Proof. solve_decision. Defined.

Section LockSource.
Context {S : Type} `{Source64 S}.

(** a method's effect on the source, [Seed] returns nothing *)
Definition apply_op (o : source_op) (s : S) : Z * S :=
  match o with
  | Int63 => src_Int63 s
  | Uint64 => src_Uint64 s
  | Seed seed => (0, src_Seed seed s)
  end.

(** where a goroutine is in one of the methods *)
Inductive lock_phase :=
  | PIdle
  | PLocked (o : source_op)
  | PRead (o : source_op) (s : S)
  | PWritten (o : source_op) (v : Z).

Record lockSource := MkLockSource {
  ls_src : S;
  ls_mtx : option nat;                     (* the goroutine that holds the mutex *)
  ls_phase : nat → lock_phase;
  ls_log : list (source_op * Z);           (* the calls that have returned, and their results *)
}.

Definition newLockSource (seed : Z) : lockSource :=
  MkLockSource (NewSource seed) None (λ _, PIdle) [].

Definition set_phase (i : nat) (ph : lock_phase) (f : nat → lock_phase) : nat → lock_phase :=
  λ j, if decide (j = i) then ph else f j.

Inductive ls_step : lockSource → lockSource → Prop :=
  | ls_lock src f log i o :
      f i = PIdle →
      ls_step (MkLockSource src None f log) (MkLockSource src (Some i) (set_phase i (PLocked o) f) log)
  | ls_read src m f log i o :
      f i = PLocked o →
      ls_step (MkLockSource src m f log) (MkLockSource src m (set_phase i (PRead o src) f) log)
  | ls_write src m f log i o s :
      f i = PRead o s →
      ls_step (MkLockSource src m f log)
        (MkLockSource (apply_op o s).2 m (set_phase i (PWritten o (apply_op o s).1) f) log)
  | ls_unlock src m f log i o v :
      f i = PWritten o v →
      ls_step (MkLockSource src m f log)
        (MkLockSource src None (set_phase i PIdle f) (log ++ [(o, v)])).

(** the calls on a source of one's own, one after the other *)
Fixpoint replay (l : list source_op) (s : S) : list Z * S :=
  match l with
  | [] => ([], s)
  | o :: l =>
      let (v, s) := apply_op o s in
      let (vs, s) := replay l s in (v :: vs, s)
  end.

Lemma replay_snoc l o s :
  replay (l ++ [o]) s =
    ((replay l s).1 ++ [(apply_op o (replay l s).2).1], (apply_op o (replay l s).2).2).
Proof.
  revert s. induction l as [|x l IH]; intros s; simpl; [by destruct (apply_op o s)|].
  destruct (apply_op x s) as [v s1]. rewrite IH. by destruct (replay l s1).
Qed.

(** the log is what [s0] gives for its calls, and leaves the source in state [s] *)
Definition replays (s0 : S) (log : list (source_op * Z)) (s : S) : Prop :=
  replay log.*1 s0 = (log.*2, s).

Record ls_inv (s0 : S) (st : lockSource) : Prop := {
  li_owner i : ls_phase st i ≠ PIdle → ls_mtx st = Some i;
  li_free : ls_mtx st = None → replays s0 (ls_log st) (ls_src st);
  li_locked i o : ls_phase st i = PLocked o → replays s0 (ls_log st) (ls_src st);
  li_read i o s : ls_phase st i = PRead o s → s = ls_src st ∧ replays s0 (ls_log st) (ls_src st);
  li_written i o v : ls_phase st i = PWritten o v → replays s0 (ls_log st ++ [(o, v)]) (ls_src st);
  li_log : ∃ s, replays s0 (ls_log st) s;
}.

Lemma replays_snoc s0 log s o : replays s0 log s → replays s0 (log ++ [(o, (apply_op o s).1)]) (apply_op o s).2.
Proof. unfold replays. intros E. rewrite !fmap_app. cbn [fmap list_fmap fst snd]. by rewrite replay_snoc, E. Qed.

Lemma ls_inv_init seed : ls_inv (NewSource seed) (newLockSource seed).
Proof. split; try done. by exists (NewSource seed). Qed.

Lemma ls_inv_step s0 st st' : ls_inv s0 st → ls_step st st' → ls_inv s0 st'.
Proof.
  intros [Hown Hfree Hlocked Hread Hwritten Hlog] Hstep.
  destruct Hstep as [src f log i o Hi|src m f log i o Hi|src m f log i o s Hi|src m f log i o v Hi];
    cbn [ls_src ls_mtx ls_phase ls_log] in *.
  - assert (Hall : ∀ j, f j = PIdle).
    { intros j. destruct (f j) eqn:Hj; [done|..]; by specialize (Hown j ltac:(by rewrite Hj)). }
    specialize (Hfree eq_refl). split; cbn [ls_src ls_mtx ls_phase ls_log]; unfold set_phase; try done;
      intros j; case_decide; subst; rewrite ?Hall; naive_solver.
  - assert (Hall : ∀ j, j ≠ i → f j = PIdle).
    { intros j Hj. destruct (f j) eqn:Ej; [done|..];
        pose proof (Hown j ltac:(by rewrite Ej)); pose proof (Hown i ltac:(by rewrite Hi)); congruence. }
    pose proof (Hown i ltac:(by rewrite Hi)) as ->. specialize (Hlocked i o Hi).
    split; cbn [ls_src ls_mtx ls_phase ls_log]; unfold set_phase; try done;
      intros j; case_decide as Hj; subst; rewrite ?Hall by done; naive_solver.
  - assert (Hall : ∀ j, j ≠ i → f j = PIdle).
    { intros j Hj. destruct (f j) eqn:Ej; [done|..];
        pose proof (Hown j ltac:(by rewrite Ej)); pose proof (Hown i ltac:(by rewrite Hi)); congruence. }
    pose proof (Hown i ltac:(by rewrite Hi)) as ->. destruct (Hread i o s Hi) as [-> Hr].
    apply (replays_snoc _ _ _ o) in Hr.
    split; cbn [ls_src ls_mtx ls_phase ls_log]; unfold set_phase; try done;
      intros j; case_decide as Hj; subst; rewrite ?Hall by done; naive_solver.
  - assert (Hall : ∀ j, j ≠ i → f j = PIdle).
    { intros j Hj. destruct (f j) eqn:Ej; [done|..];
        pose proof (Hown j ltac:(by rewrite Ej)); pose proof (Hown i ltac:(by rewrite Hi)); congruence. }
    specialize (Hwritten i o v Hi).
    split; cbn [ls_src ls_mtx ls_phase ls_log]; unfold set_phase; try (by eexists); try done;
      intros j; case_decide as Hj; subst; rewrite ?Hall by done; naive_solver.
Qed.

(** [C32] In every interleaving of goroutines that use the shared source, what their calls
    return, in the order in which they return, is what one goroutine would get that
    makes these calls alone on a source with the same seed: no draw is lost or given
    out twice.  Never are two goroutines inside a method. *)
Theorem lockSource_serialized seed st :
  rtc ls_step (newLockSource seed) st →
  (∃ s, replay (ls_log st).*1 (NewSource seed) = ((ls_log st).*2, s) ∧ (ls_mtx st = None → s = ls_src st)) ∧
  ∀ i j, ls_phase st i ≠ PIdle → ls_phase st j ≠ PIdle → i = j.
Proof.
  intros Hrtc. assert (ls_inv (NewSource seed) st) as [Hown Hfree _ _ _ [s Hs]].
  { revert Hrtc. apply (rtc_ind_r (ls_inv (NewSource seed))); [apply ls_inv_init|].
    intros a b _ Hstep Ha. by eapply ls_inv_step. }
  split.
  - destruct (ls_mtx st) eqn:Hm; [by exists s|]. exists (ls_src st). split; [by apply Hfree|done].
  - intros i j Hi%Hown Hj%Hown. congruence.
Qed.
End LockSource.

(** two goroutines on a counter that returns its state *)
#[local] Instance counting : Source64 Z :=
  {| NewSource z := z; src_Int63 z := (z, z + 1); src_Uint64 z := (z, z + 1); src_Seed s _ := s |}.

Definition after_two : lockSource (S:=Z) :=
  MkLockSource 9 None (set_phase 1 PIdle (set_phase 1 (PWritten Uint64 8) (set_phase 1 (PRead Uint64 8)
    (set_phase 1 (PLocked Uint64) (set_phase 0 PIdle (set_phase 0 (PWritten Int63 7) (set_phase 0 (PRead Int63 7)
    (set_phase 0 (PLocked Int63) (λ _, PIdle))))))))) [(Int63, 7); (Uint64, 8)].

Theorem lockSource_serialized_witness :
  rtc ls_step (newLockSource (S:=Z) 7) after_two ∧
  ∃ s, replay (ls_log after_two).*1 (NewSource (S:=Z) 7) = ((ls_log after_two).*2, s) ∧
    (ls_mtx after_two = None → s = ls_src after_two).
Proof.
  assert (Hr : rtc ls_step (newLockSource (S:=Z) 7) after_two).
  { eapply rtc_l; [by apply (ls_lock _ _ _ 0 Int63)|]. eapply rtc_l; [by apply (ls_read _ _ _ _ 0 Int63)|].
    eapply rtc_l; [by apply (ls_write _ _ _ _ 0 Int63 7)|]. eapply rtc_l; [by apply (ls_unlock _ _ _ _ 0 Int63 7)|].
    eapply rtc_l; [by apply (ls_lock _ _ _ 1 Uint64)|]. eapply rtc_l; [by apply (ls_read _ _ _ _ 1 Uint64)|].
    eapply rtc_l; [by apply (ls_write _ _ _ _ 1 Uint64 8)|]. eapply rtc_l; [by apply (ls_unlock _ _ _ _ 1 Uint64 8)|].
    apply rtc_refl. }
  split; [exact Hr|]. apply (lockSource_serialized 7 after_two Hr).
Defined.
