(* ===== verification/Prometheus.v ===== *)
(** * The instruments of Prometheus ([prometheus.go] and the code behind [prom != nil])

    The client library is a parameter: the class [PromLib] has what the code calls,
    [PromLaws] what its documentation promises.  [Setup] creates and registers the
    instruments; the other definitions are the operations of the other files with the
    instruments they use.  With instruments that exist an operation does what it does
    without ([instruments_transparent]), which is why the other files leave them out. *)
From S2P Require Import Prelude GoStd Endpoint Parcel ParcelChannel Configuration PeerStore Handshake Stream.
From S2P Require Import Gob Json V11Wire Protocol ProtocolV11 Rng Dialer Controller Online Cat Metrics Connections.
From S2P Require Import ConnectionsSpec PeerLoops Network.

(** a [float64] as the fraction it is made from *)
Definition float : Type := Z * Z.
Definition float64 (z : Z) : float := (z, 1).

Record GaugeOpts := MkGaugeOpts { Name : string; Help : string }.
Record HistogramOpts := MkHistogramOpts { h_Name : string; h_Help : string; Buckets : list float }.

(** the client library; a [world] holds the values and what is registered *)
Class PromLib := {
  world : Type;
  gauge : Type;
  histogram : Type;
  registerer : Type;
  DefaultRegisterer : registerer;
  NewGauge : GaugeOpts → world → gauge * world;
  NewHistogram : HistogramOpts → world → histogram * world;
  ExponentialBuckets : float → float → Z → list float;
  MustRegister : registerer → gauge + histogram → world → outcome () world;
  gauge_Inc : gauge → world → world;
  gauge_Dec : gauge → world → world;
  gauge_Set : gauge → float → world → world;
  gauge_Add : gauge → float → world → world;
  histogram_Observe : histogram → float → world → world;
}.

(** what the code relies on: a new gauge is an object of its own that reads zero,
    [MustRegister] panics exactly when the name is taken, and the operations change
    the value of their instrument only *)
Class PromLaws `{PromLib} := {
  names : registerer → world → gset string;
  known : world → gauge → Prop;
  value : world → gauge → float;
  collector_name : world → gauge + histogram → string;

  NewGauge_law o w :
    let (g, w') := NewGauge o w in
    ¬ known w g ∧ known w' g ∧ value w' g = float64 0 ∧ collector_name w' (inl g) = Name o ∧
    (∀ r, names r w' = names r w) ∧ (∀ g', known w g' → known w' g' ∧ value w' g' = value w g');
  NewHistogram_law o w :
    let (h, w') := NewHistogram o w in
    collector_name w' (inr h) = h_Name o ∧
    (∀ r, names r w' = names r w) ∧ (∀ g', known w g' → known w' g' ∧ value w' g' = value w g');
  MustRegister_law r c w :
    if decide (collector_name w c ∈ names r w) then MustRegister r c w = Panic
    else ∃ w', MustRegister r c w = Ok w' ∧ names r w' = {[collector_name w c]} ∪ names r w ∧
           (∀ g, known w g → known w' g ∧ value w' g = value w g);

  Inc_law g w n : known w g → value w g = float64 n → value (gauge_Inc g w) g = float64 (n + 1);
  Dec_law g w n : known w g → value w g = float64 n → value (gauge_Dec g w) g = float64 (n - 1);
  Set_law g f w : known w g → value (gauge_Set g f w) g = f;
  Inc_other g g' w : g ≠ g' → value (gauge_Inc g w) g' = value w g';
  Dec_other g g' w : g ≠ g' → value (gauge_Dec g w) g' = value w g';
  Set_other g g' f w : g ≠ g' → value (gauge_Set g f w) g' = value w g';
  Observe_other h f g w : value (histogram_Observe h f w) g = value w g;
  Inc_known g g' w : known w g' → known (gauge_Inc g w) g';
  Dec_known g g' w : known w g' → known (gauge_Dec g w) g';
  Set_known g g' f w : known w g' → known (gauge_Set g f w) g';
  Observe_known h f g w : known w g → known (histogram_Observe h f w) g;
}.

Section Instruments.
Context `{PromLib}.

(** the fields are interfaces, [None] the nil one; a counter is made as a gauge *)
Record Prometheus := MkPrometheus {
  Connections : option gauge;
  Connecting : option gauge;
  Incoming : option gauge;
  Outgoing : option gauge;
  ToNetwork : option gauge;
  ToNetworkRatio : option gauge;
  FromNetwork : option gauge;
  FromNetworkRatio : option gauge;
  CatRounds : option gauge;
  SendRoutines : option gauge;
  ReceiveRoutines : option gauge;
  ParcelsSent : option gauge;
  ParcelsReceived : option gauge;
  Invalid : option gauge;
  AppSent : option gauge;
  AppReceived : option gauge;
  ByteRateDown : option gauge;
  ByteRateUp : option gauge;
  MessageRateDown : option gauge;
  MessageRateUp : option gauge;
  DroppedPeerSend : option gauge;
  DroppedFromNetwork : option gauge;
  DroppedToNetwork : option gauge;
  ParcelSize : option histogram;
}.

(** [new(Prometheus)] *)
Definition new_Prometheus : Prometheus :=
  MkPrometheus None None None None None None None None None None None None None None None None None None None
    None None None None None.

Definition ng (register : registerer) (name help : string) (w : world) : outcome () (option gauge * world) :=
  let (g, w) := NewGauge (MkGaugeOpts name help) w in
  MustRegister register (inl g) w ≫= λ w, Ok (Some g, w).

Definition _setup (register : registerer) (w : world) : outcome () (Prometheus * world) :=
  let ng := ng register in
  ng "factomd_p2p_peers_online" "Number of established connections" w ≫= λ '(Connections, w),
  ng "factomd_p2p_peers_connecting" "Number of connections currently dialing or awaiting handshake" w
    ≫= λ '(Connecting, w),
  ng "factomd_p2p_peers_incoming" "Number of peers that have dialed to this node" w ≫= λ '(Incoming, w),
  ng "factomd_p2p_peers_outgoing" "Number of peers that this node has dialed to" w ≫= λ '(Outgoing, w),
  ng "factomd_p2p_to_network" "The number of parcels in the ToNetwork channel" w ≫= λ '(ToNetwork, w),
  ng "factomd_p2p_to_network_ratio" "The fill ratio of the ToNetwork channel" w ≫= λ '(ToNetworkRatio, w),
  ng "factomd_p2p_from_network" "The number of parcels in the FromNetwork channel" w ≫= λ '(FromNetwork, w),
  ng "factomd_p2p_from_network_ratio" "The fill ratio of the FromNetwork channel" w ≫= λ '(FromNetworkRatio, w),
  ng "factomd_p2p_cat_rounds" "Number of CAT rounds" w ≫= λ '(CatRounds, w),
  ng "factomd_p2p_tech_sendroutines" "Number of active send routines" w ≫= λ '(SendRoutines, w),
  ng "factomd_p2p_tech_receiveroutines" "Number of active receive routines" w ≫= λ '(ReceiveRoutines, w),
  ng "factomd_p2p_parcels_sent" "Total number of parcels sent out" w ≫= λ '(ParcelsSent, w),
  ng "factomd_p2p_parcels_received" "Total number of parcels received" w ≫= λ '(ParcelsReceived, w),
  ng "factomd_p2p_parcels_invalid" "Total number of invalid parcels received" w ≫= λ '(Invalid, w),
  ng "factomd_p2p_messages_sent" "Total number of application messages sent" w ≫= λ '(AppSent, w),
  ng "factomd_p2p_messages_received" "Total number of application messages received" w ≫= λ '(AppReceived, w),
  ng "factomd_p2p_byte_rate_down" "Current rate of incoming traffic (in bytes/sec)" w ≫= λ '(ByteRateDown, w),
  ng "factomd_p2p_byte_rate_up" "Current rate of outgoing traffic (in bytes/sec)" w ≫= λ '(ByteRateUp, w),
  ng "factomd_p2p_msg_rate_down" "Current rate of incoming traffic (in messages/sec)" w
    ≫= λ '(MessageRateDown, w),
  ng "factomd_p2p_msg_rate_up" "Current rate of outgoing traffic (in messages/sec)" w ≫= λ '(MessageRateUp, w),
  ng "factomd_p2p_dropped_peer_send"
    "Number of parcels that were unable to be sent because of peer's lack of bandwidth" w
    ≫= λ '(DroppedPeerSend, w),
  ng "factomd_p2p_dropped_from_network"
    "Number of parcels that were dropped because application is not reading parcels fast enough" w
    ≫= λ '(DroppedFromNetwork, w),
  ng "factomd_p2p_dropped_to_network"
    "Number of parcels that were dropped because application is sending parcels too fast" w
    ≫= λ '(DroppedToNetwork, w),
  let (h, w) := NewHistogram (MkHistogramOpts "factomd_p2p_parcels_size"
    "Number of parcels encountered for specific sizes (in KiBi)"
    (ExponentialBuckets (float64 1) (float64 2) 16)) w in
  MustRegister register (inr h) w ≫= λ w,
  Ok (MkPrometheus Connections Connecting Incoming Outgoing ToNetwork ToNetworkRatio FromNetwork
        FromNetworkRatio CatRounds SendRoutines ReceiveRoutines ParcelsSent ParcelsReceived Invalid AppSent
        AppReceived ByteRateDown ByteRateUp MessageRateDown MessageRateUp DroppedPeerSend DroppedFromNetwork
        DroppedToNetwork (Some h), w).

(** what all networks of a process share: whether [once] has run, and the library *)
Record process := MkProcess { once_done : bool; pr_world : world }.

Definition Setup (p : Prometheus) (s : process) : outcome () (Prometheus * process) :=
  if once_done s then Ok (p, s)
  else _setup DefaultRegisterer (pr_world s) ≫= λ '(p, w), Ok (p, MkProcess true w).

(** the part of [NewNetwork] that makes [n.prom] *)
Definition NewNetwork_prom (conf : Configuration) (s : process) : outcome () (option Prometheus * process) :=
  if EnablePrometheus conf then Setup new_Prometheus s ≫= λ '(p, s), Ok (Some p, s) else Ok (None, s).

(** the methods of the interfaces; a nil one panics *)
Definition Inc (g : option gauge) (w : world) : outcome () world :=
  match g with Some g => Ok (gauge_Inc g w) | None => Panic end.
Definition Dec (g : option gauge) (w : world) : outcome () world :=
  match g with Some g => Ok (gauge_Dec g w) | None => Panic end.
Definition Set_ (g : option gauge) (f : float) (w : world) : outcome () world :=
  match g with Some g => Ok (gauge_Set g f w) | None => Panic end.
Definition Add (g : option gauge) (f : float) (w : world) : outcome () world :=
  match g with Some g => Ok (gauge_Add g f w) | None => Panic end.
Definition Observe (h : option histogram) (f : float) (w : world) : outcome () world :=
  match h with Some h => Ok (histogram_Observe h f w) | None => Panic end.

(** ** Where they are used

    [prom] is [net.prom]; each definition is an operation with the instruments of its
    lines. *)
Section Uses.
Context (prom : option Prometheus).

(** [if c.net.prom != nil { ... }] *)
Definition if_prom (f : Prometheus → world → outcome () world) (w : world) : outcome () world :=
  match prom with Some p => f p w | None => Ok w end.

(** [Connecting.Inc(); defer Connecting.Dec()] around a body *)
Definition with_Connecting {A} (body : outcome () A) (w : world) : outcome () (A * world) :=
  if_prom (λ p, Inc (Connecting p)) w ≫= λ w,
  body ≫= λ a,
  if_prom (λ p, Dec (Connecting p)) w ≫= λ w, Ok (a, w).

(** the end of a turn of [manageOnline] *)
Definition set_connections (ps : PeerStore) (p : Prometheus) (w : world) : outcome () world :=
  Set_ (Connections p) (float64 (PeerStore_Total ps)) w ≫= λ w,
  Set_ (Incoming p) (float64 (PeerStore_Incoming ps)) w ≫= λ w,
  Set_ (Outgoing p) (float64 (PeerStore_Outgoing ps)) w.
Definition manageOnline_prom (s : online_state) (w : world) : outcome () (option online_state * world) :=
  match manageOnline_step s with
  | Some s' =>
      match on_manager s' with
      | MIdle => if_prom (set_connections (on_store s')) w ≫= λ w, Ok (Some s', w)
      | MStopping _ _ => Ok (Some s', w)
      end
  | None => Ok (None, w)
  end.

Section Peers.
Context {P : Type} `{Protocol P}.

(** what a turn of [readLoop] counts of the parcel received *)
Definition count_received {E} (r : outcome E Parcel) (w : world) : outcome () world :=
  match r with
  | Ok msg =>
      match Parcel_Valid (Some msg) with
      | Ok _ =>
          if_prom (λ p w,
            Inc (ParcelsReceived p) w ≫= λ w,
            Observe (ParcelSize p) (zlen (Payload msg), 1024) w ≫= λ w,
            if IsApplicationMessage msg then Inc (AppReceived p) w else Ok w) w
      | _ => if_prom (λ p, Inc (Invalid p)) w
      end
  | _ => Ok w
  end.
Definition readLoop_turn_prom (now : Z) (p : Peer) (s : reader P) (w : world)
    : outcome () (reader P * option Parcel * world) :=
  count_received (Receive (rd_prot s)).2 w ≫= λ w,
  readLoop_turn now p s ≫= λ r, Ok (r, w).
Fixpoint read_turns_prom (turns : list (Z * bool)) (p : Peer) (s : reader P) (w : world)
    : outcome () (reader P * list Parcel * bool * world) :=
  match turns with
  | [] => Ok (s, [], false, w)
  | (now, delivers) :: turns =>
      readLoop_turn_prom now p s w ≫= λ '(s, msg, w),
      match msg with
      | Some msg =>
          if delivers then
            read_turns_prom turns p s w ≫= λ '(s, l, ended, w), Ok (s, msg :: l, ended, w)
          else Peer_Stop p (rd_ctl s) ≫= λ c, Ok (MkReader (rd_prot s) (rd_lastReceive s) c, [], true, w)
      | None => Peer_Stop p (rd_ctl s) ≫= λ c, Ok (MkReader (rd_prot s) (rd_lastReceive s) c, [], true, w)
      end
  end.
(** [Dec] is deferred: it runs when the loop has ended *)
Definition readLoop_prom (turns : list (Z * bool)) (p : Peer) (s : reader P) (w : world)
    : outcome () (reader P * list Parcel * bool * world) :=
  if_prom (λ p, Inc (ReceiveRoutines p)) w ≫= λ w,
  read_turns_prom turns p s w ≫= λ '(s, l, ended, w),
  (if (ended : bool) then if_prom (λ p, Dec (ReceiveRoutines p)) w else Ok w) ≫= λ w, Ok (s, l, ended, w).

Definition count_sent (parcel : Parcel) (w : world) : outcome () world :=
  if_prom (λ p w,
    Inc (ParcelsSent p) w ≫= λ w,
    Observe (ParcelSize p) (zlen (Payload parcel) + 32, 1024) w ≫= λ w,
    if IsApplicationMessage parcel then Inc (AppSent p) w else Ok w) w.
Fixpoint send_turns_prom (l : list (Z * option Parcel)) (s : writer P) (w : world)
    : outcome () (writer P * bool * world) :=
  match l with
  | [] => Ok (s, false, w)
  | (_, None) :: l => send_turns_prom l s w
  | (now, Some parcel) :: l =>
      let r := Send parcel (wr_prot s) in
      match r.2 with
      | Ok _ => count_sent parcel w ≫= send_turns_prom l (MkWriter r.1 now)
      | Err _ => Ok (MkWriter r.1 (wr_lastSend s), true, w)
      | Panic => Panic
      | OutOfFuel => OutOfFuel
      end
  end.
(** [stops]: whether the loop ends after these parcels because the peer or the network
    is stopped *)
Definition sendLoop_prom (l : list (Z * option Parcel)) (stops : bool) (s : writer P) (w : world)
    : outcome () (writer P * bool * world) :=
  if_prom (λ p, Inc (SendRoutines p)) w ≫= λ w,
  send_turns_prom l s w ≫= λ '(s, failed, w),
  (if failed || stops then if_prom (λ p, Dec (SendRoutines p)) w else Ok w) ≫= λ w, Ok (s, failed, w).
End Peers.

(** the counters of parcels that a full channel drops *)
Definition count_dropped (counter : Prometheus → option gauge) (dropped : Z) (w : world) : outcome () world :=
  if 0 <? dropped then if_prom (λ p, Add (counter p) (float64 dropped)) w else Ok w.

(** [c.net.fromNetwork.Send(parcel)] in [manageData] *)
Definition fromNetwork_Send (ch : ParcelChannel) (parcel : Parcel) (w : world)
    : outcome () (ParcelChannel * world) :=
  ParcelChannel_Send ch (Some (MkParcel TypeMessage (Address parcel) (Payload parcel))) ≫= λ '(ch, (_, dropped)),
  count_dropped DroppedFromNetwork dropped w ≫= λ w, Ok (ch, w).

Definition Network_Send_prom (p : option Parcel) (n : network) (w : world) : outcome () (network * world) :=
  ParcelChannel_Send (toNetwork n) p ≫= λ '(ch, (_, dropped)),
  count_dropped DroppedToNetwork dropped w ≫= λ w, Ok (with_toNetwork ch n, w).

(** [runCatRound] *)
Definition runCatRound_prom {G} `{Rng G} `{CacheJson} (order : list Peer → list Peer) (conf : Configuration)
    (now now' now_cache : Z) (writes : bool) (f : file) (s : cat) (g : G) (w : world)
    : outcome () (cat * file * G * world) :=
  (if time_since now (lastRound s) <? RoundTime conf then Ok w else if_prom (λ p, Inc (CatRounds p)) w) ≫= λ w,
  runCatRound order conf now now' now_cache writes f s g ≫= λ r, Ok (r, w).

(** [runMetrics]: the rates of all peers, and how full the channels are; the sums of
    floats are exact below 2^53, in every order *)
Definition sum_metrics (f : PeerMetrics → Z) (m : gmap string PeerMetrics) : Z :=
  map_fold (λ _ pm n, f pm + n) 0 m.
Definition set_rates (m : gmap string PeerMetrics) (toNet fromNet : ParcelChannel) (p : Prometheus) (w : world)
    : outcome () world :=
  Set_ (ByteRateDown p) (float64 (sum_metrics BPSDown m)) w ≫= λ w,
  Set_ (ByteRateUp p) (float64 (sum_metrics BPSUp m)) w ≫= λ w,
  Set_ (MessageRateUp p) (float64 (sum_metrics MPSUp m)) w ≫= λ w,
  Set_ (MessageRateDown p) (float64 (sum_metrics MPSDown m)) w ≫= λ w,
  Set_ (ToNetwork p) (float64 (zlen (pc_items toNet))) w ≫= λ w,
  Set_ (ToNetworkRatio p) (FillRatio toNet) w ≫= λ w,
  Set_ (FromNetwork p) (float64 (zlen (pc_items fromNet))) w ≫= λ w,
  Set_ (FromNetworkRatio p) (FillRatio fromNet) w.
Definition runMetrics_prom (order : list Peer → list Peer) (hook : bool) (info : Peer → PeerState * peer_info)
    (toNet fromNet : ParcelChannel) (c : controller) (w : world)
    : outcome () (option (gmap string PeerMetrics) * controller * world) :=
  let (m, _) := makeMetrics order info c in
  let r := runMetrics order hook info c in
  if_prom (set_rates m toNet fromNet) w ≫= λ w, Ok (r, w).
End Uses.
End Instruments.

(** ** [Setup] *)

Section Setup.
Context `{PromLaws}.

Definition gauges (p : Prometheus) : list (option gauge) :=
  [Connections p; Connecting p; Incoming p; Outgoing p; ToNetwork p; ToNetworkRatio p; FromNetwork p;
   FromNetworkRatio p; CatRounds p; SendRoutines p; ReceiveRoutines p; ParcelsSent p; ParcelsReceived p;
   Invalid p; AppSent p; AppReceived p; ByteRateDown p; ByteRateUp p; MessageRateDown p; MessageRateUp p;
   DroppedPeerSend p; DroppedFromNetwork p; DroppedToNetwork p].
Definition prom_names : list string :=
  ["factomd_p2p_peers_online"; "factomd_p2p_peers_connecting"; "factomd_p2p_peers_incoming";
   "factomd_p2p_peers_outgoing"; "factomd_p2p_to_network"; "factomd_p2p_to_network_ratio";
   "factomd_p2p_from_network"; "factomd_p2p_from_network_ratio"; "factomd_p2p_cat_rounds";
   "factomd_p2p_tech_sendroutines"; "factomd_p2p_tech_receiveroutines"; "factomd_p2p_parcels_sent";
   "factomd_p2p_parcels_received"; "factomd_p2p_parcels_invalid"; "factomd_p2p_messages_sent";
   "factomd_p2p_messages_received"; "factomd_p2p_byte_rate_down"; "factomd_p2p_byte_rate_up";
   "factomd_p2p_msg_rate_down"; "factomd_p2p_msg_rate_up"; "factomd_p2p_dropped_peer_send";
   "factomd_p2p_dropped_from_network"; "factomd_p2p_dropped_to_network"; "factomd_p2p_parcels_size"]%string.

(** all instruments exist *)
Definition prom_ready (p : Prometheus) : Prop := Forall is_Some (gauges p) ∧ is_Some (ParcelSize p).

(** the other instruments are untouched *)
Definition keeps (w w' : world) (g : gauge) : Prop := known w g → known w' g ∧ value w' g = value w g.

Lemma keeps_refl w g : keeps w w g.
Proof. by intros. Qed.
Lemma keeps_trans w w' w'' g : keeps w w' g → keeps w' w'' g → keeps w w'' g.
Proof. intros H1 H2 [Hk Hv]%H1. destruct (H2 Hk) as [Hk' Hv']. split; [done|congruence]. Qed.

(** [l] has been registered and [gs] made since [w0] *)
Record made (r : registerer) (w0 : world) (l : list string) (gs : list gauge) (w : world) : Prop := {
  made_names : names r w = list_to_set l ∪ names r w0;
  made_distinct : NoDup gs;
  made_zero : Forall (λ g, known w g ∧ value w g = float64 0) gs;
  made_keeps : ∀ g, keeps w0 w g;
}.

Lemma made_register r w0 l gs w1 c :
  names r w1 = list_to_set l ∪ names r w0 → NoDup gs →
  Forall (λ g, known w1 g ∧ value w1 g = float64 0) gs → (∀ g, keeps w0 w1 g) →
  collector_name w1 c ∉ l → collector_name w1 c ∉ names r w0 →
  ∃ w2, MustRegister r c w1 = Ok w2 ∧ made r w0 (collector_name w1 c :: l) gs w2.
Proof.
  intros Hn Hd Hz Hk Hl H0'. pose proof (MustRegister_law r c w1) as Hr.
  rewrite decide_False in Hr by set_solver. destruct Hr as (w3 & -> & Hn' & Hv'). exists w3.
  split; [done|]. split; [|done| |].
  - rewrite Hn', Hn. set_solver.
  - eapply Forall_impl; [exact Hz|]. intros g [Hg Hg']. destruct (Hv' g Hg) as [? ->]. done.
  - intros g. eapply keeps_trans; [apply Hk|]. intros Hg. by apply Hv'.
Qed.

Lemma ng_made r w0 l gs w name help :
  made r w0 l gs w → name ∉ l → name ∉ names r w0 →
  ∃ g w', ng r name help w = Ok (Some g, w') ∧ made r w0 (name :: l) (gs ++ [g]) w'.
Proof.
  intros [Hn Hd Hz Hk] Hl H0'. unfold ng. pose proof (NewGauge_law (MkGaugeOpts name help) w) as Hg.
  destruct (NewGauge _ w) as [g w1]. destruct Hg as (Hnew & Hkn & Hzero & Hname & Hn1 & Hk1). cbn in Hname.
  destruct (made_register r w0 l (gs ++ [g]) w1 (inl g)) as (w2 & -> & Hm); rewrite ?Hname in *; try done.
  - by rewrite Hn1.
  - apply NoDup_app. split_and!; [done| |apply NoDup_singleton]. intros x Hx ->%list_elem_of_singleton.
    rewrite Forall_forall in Hz. by destruct (Hz g Hx).
  - apply Forall_app. split; [|by constructor]. eapply Forall_impl; [exact Hz|].
    intros x [Hx Hx']. destruct (Hk1 x Hx) as [? ->]. done.
  - intros x. eapply keeps_trans; [apply Hk|]. intros ?. by apply Hk1.
  - by exists g, w2.
Qed.

(** the next [ng] of [_setup] succeeds *)
Local Ltac next_gauge Hm Hfree :=
  let g := fresh "g" in let w' := fresh "w" in
  match goal with |- context [ng ?r ?name ?help ?w] =>
    destruct (ng_made _ _ _ _ w name help Hm) as (g & w' & -> & ?);
    [apply (bool_decide_unpack _); vm_compute; exact I
    |apply Hfree, (bool_decide_unpack _); vm_compute; exact I|]
  end; clear Hm; rename select (made _ _ _ _ _) into Hm; rewrite bind_Ok; cbv beta iota.

(** [_setup] on a registry where none of the names is taken *)
Lemma _setup_lemma r w :
  (∀ x, x ∈ prom_names → x ∉ names r w) →
  ∃ p w', _setup r w = Ok (p, w') ∧ is_Some (ParcelSize p) ∧
    ∃ gs, gauges p = Some <$> gs ∧ made r w (reverse prom_names) gs w'.
Proof.
  intros Hfree.
  assert (Hm : made r w [] [] w).
  { split; [set_solver|constructor|constructor|intros; apply keeps_refl]. }
  unfold _setup. cbv zeta.
  do 23 next_gauge Hm Hfree.
  match goal with |- context [NewHistogram ?o ?w] =>
    pose proof (NewHistogram_law o w) as Hh; destruct (NewHistogram o w) as [h w24]
  end. destruct Hh as (Hname & Hn & Hk). cbn in Hname.
  destruct Hm as [Hmn Hmd Hmz Hmk].
  destruct (made_register r w _ _ w24 (inr h) (eq_trans (Hn r) Hmn) Hmd) as (w25 & -> & Hmade).
  - eapply Forall_impl; [exact Hmz|]. intros x [Hx Hx']. destruct (Hk x Hx) as [? ->]. done.
  - intros x. eapply keeps_trans; [apply Hmk|]. intros ?. by apply Hk.
  - rewrite Hname. apply (bool_decide_unpack _). vm_compute. exact I.
  - rewrite Hname. apply Hfree, (bool_decide_unpack _). vm_compute. exact I.
  - rewrite bind_Ok. rewrite Hname in Hmade. eexists _, w25. split; [done|]. split; [by eexists|].
    eexists. split; [|exact Hmade]. done.
Qed.
End Setup.

(** ** Without instruments, or with instruments that exist, nothing else changes *)

Section Transparent.
Context `{PromLib}.

(** an operation with instruments does what the operation does *)
Definition erases {A} (m : outcome () (A * world)) (plain : outcome () A) : Prop :=
  (m ≫= λ x, Ok x.1) = plain.
Definition usable (prom : option Prometheus) : Prop := ∀ p, prom = Some p → prom_ready p.

(** an operation on the instruments that always succeeds *)
Definition goes (m : outcome () world) : Prop := ∃ w, m = Ok w.

Lemma goes_bind m f : goes m → (∀ w, goes (f w)) → goes (m ≫= f).
Proof. intros [w ->] Hf. apply Hf. Qed.

Lemma goes_erases {A} m (k : world → outcome () (A * world)) plain :
  goes m → (∀ w, erases (k w) plain) → erases (m ≫= k) plain.
Proof. intros [w ->] Hk. apply Hk. Qed.

Lemma ready_gauge p g : prom_ready p → g ∈ gauges p → is_Some g.
Proof. intros [Hg _] Hin. rewrite Forall_forall in Hg. by apply Hg. Qed.

Lemma goes_Inc p (f : Prometheus → option gauge) w : prom_ready p → f p ∈ gauges p → goes (Inc (f p) w).
Proof. intros Hp Hin. destruct (ready_gauge p _ Hp Hin) as [g ->]. by eexists. Qed.
Lemma goes_Dec p (f : Prometheus → option gauge) w : prom_ready p → f p ∈ gauges p → goes (Dec (f p) w).
Proof. intros Hp Hin. destruct (ready_gauge p _ Hp Hin) as [g ->]. by eexists. Qed.
Lemma goes_Set p (f : Prometheus → option gauge) x w : prom_ready p → f p ∈ gauges p → goes (Set_ (f p) x w).
Proof. intros Hp Hin. destruct (ready_gauge p _ Hp Hin) as [g ->]. by eexists. Qed.
Lemma goes_Add p (f : Prometheus → option gauge) x w : prom_ready p → f p ∈ gauges p → goes (Add (f p) x w).
Proof. intros Hp Hin. destruct (ready_gauge p _ Hp Hin) as [g ->]. by eexists. Qed.
Lemma goes_Observe p x w : prom_ready p → goes (Observe (ParcelSize p) x w).
Proof. intros [_ [h ->]]. by eexists. Qed.

Local Ltac here := unfold gauges; rewrite ?elem_of_cons; tauto.
Local Ltac instruments :=
  repeat first [apply goes_bind; [|intros ?] | apply goes_Inc; [done|here] | apply goes_Dec; [done|here]
    | apply goes_Set; [done|here] | apply goes_Add; [done|here] | apply goes_Observe; done
    | by eexists].

Section Prom.
Context (prom : option Prometheus) (Hprom : usable prom).

Lemma if_prom_goes f w : (∀ p w, prom_ready p → goes (f p w)) → goes (if_prom prom f w).
Proof. intros Hf. destruct prom as [p|]; [by apply Hf, Hprom|by eexists]. Qed.

Lemma with_Connecting_erases {A} (body : outcome () A) w : erases (with_Connecting prom body w) body.
Proof.
  apply goes_erases; [apply if_prom_goes; intros; instruments|]. intros w1.
  destruct body as [a|e| |]; try done. unfold erases. rewrite bind_Ok.
  destruct (if_prom_goes (λ p, Dec (Connecting p)) w1) as [w2 ->]; [intros; instruments|done].
Qed.

Lemma set_connections_goes ps w : goes (if_prom prom (set_connections ps) w).
Proof. apply if_prom_goes. intros. unfold set_connections. instruments. Qed.

Lemma manageOnline_erases s w : erases (manageOnline_prom prom s w) (Ok (manageOnline_step s)).
Proof.
  unfold manageOnline_prom. destruct (manageOnline_step s) as [s'|]; [|done].
  destruct (on_manager s'); [|done]. apply goes_erases; [apply set_connections_goes|done].
Qed.

Lemma count_dropped_goes (f : Prometheus → option gauge) d w :
  (∀ p, f p ∈ gauges p) → goes (count_dropped prom f d w).
Proof.
  intros Hf. unfold count_dropped. case_match; [|by eexists]. apply if_prom_goes. intros.
  apply goes_Add; [done|apply Hf].
Qed.

Section Peers.
Context {P : Type} `{Protocol P}.

Lemma count_received_goes (r : outcome prot_error Parcel) w : goes (count_received prom r w).
Proof.
  unfold count_received. destruct r; [|by eexists..].
  case_match; (apply if_prom_goes; intros); instruments. case_match; instruments.
Qed.

Lemma readLoop_turn_erases now p s w : erases (readLoop_turn_prom prom now p s w) (readLoop_turn now p s).
Proof.
  apply goes_erases; [apply count_received_goes|]. intros w'. unfold erases.
  by destruct (readLoop_turn now p s).
Qed.

Lemma read_turns_erases turns p s w : erases (read_turns_prom prom turns p s w) (readLoop turns p s).
Proof.
  revert s w. induction turns as [|[now delivers] turns IH]; intros s w; [done|].
  cbn [read_turns_prom readLoop]. pose proof (readLoop_turn_erases now p s w) as Ht. unfold erases in *.
  destruct (readLoop_turn_prom prom now p s w) as [[[s1 msg] w1]|e| |]; rewrite <-Ht; try done.
  rewrite !bind_Ok. cbn [fst]. destruct msg as [msg|]; [destruct delivers|].
  - specialize (IH s1 w1). destruct (read_turns_prom prom turns p s1 w1) as [[[[s2 l] ended] w2]|e| |];
      by rewrite <-IH.
  - by destruct (Peer_Stop p (rd_ctl s1)).
  - by destruct (Peer_Stop p (rd_ctl s1)).
Qed.

Lemma readLoop_erases turns p s w : erases (readLoop_prom prom turns p s w) (readLoop turns p s).
Proof.
  apply goes_erases; [apply if_prom_goes; intros; instruments|]. intros w1.
  pose proof (read_turns_erases turns p s w1) as Ht. unfold erases in *.
  destruct (read_turns_prom prom turns p s w1) as [[[[s2 l] ended] w2]|e| |]; rewrite <-Ht; try done.
  rewrite !bind_Ok. destruct ended; [|done].
  destruct (if_prom_goes (λ p, Dec (ReceiveRoutines p)) w2) as [w3 ->]; [intros; instruments|done].
Qed.

Lemma count_sent_goes parcel w : goes (count_sent prom parcel w).
Proof. apply if_prom_goes. intros. instruments. case_match; instruments. Qed.

Lemma send_turns_erases l s w : erases (send_turns_prom prom l s w) (sendLoop l s).
Proof.
  revert s w. induction l as [|[now [parcel|]] l IH]; intros s w; [done| |apply IH].
  cbn [send_turns_prom sendLoop]. destruct (Send parcel (wr_prot s)) as [q [u|e| |]]; try done.
  apply goes_erases; [apply count_sent_goes|]. intros w'. apply IH.
Qed.

Lemma sendLoop_erases l stops s w : erases (sendLoop_prom prom l stops s w) (sendLoop l s).
Proof.
  apply goes_erases; [apply if_prom_goes; intros; instruments|]. intros w1.
  pose proof (send_turns_erases l s w1) as Ht. unfold erases in *.
  destruct (send_turns_prom prom l s w1) as [[[s2 failed] w2]|e| |]; rewrite <-Ht; try done.
  rewrite !bind_Ok. destruct (failed || stops); [|done].
  destruct (if_prom_goes (λ p, Dec (SendRoutines p)) w2) as [w3 ->]; [intros; instruments|done].
Qed.
End Peers.

Lemma Network_Send_erases p n w : erases (Network_Send_prom prom p n w) (Network_Send p n).
Proof.
  unfold erases, Network_Send_prom, Network_Send.
  destruct (ParcelChannel_Send (toNetwork n) p) as [[ch [b d]]|e| |]; try done. rewrite !bind_Ok.
  destruct (count_dropped_goes DroppedToNetwork d w) as [w' ->]; [intros; here|done].
Qed.

Lemma runCatRound_erases {G} `{Rng G} `{CacheJson} order conf now now' now_cache writes f s g w :
  erases (runCatRound_prom prom order conf now now' now_cache writes f s g w)
    (runCatRound order conf now now' now_cache writes f s g).
Proof.
  apply goes_erases; [case_match; [by eexists|apply if_prom_goes; intros; instruments]|].
  intros w'. unfold erases. by destruct (runCatRound _ _ _ _ _ _ _ _ _).
Qed.

Lemma runMetrics_erases order hook info toNet fromNet c w :
  erases (runMetrics_prom prom order hook info toNet fromNet c w) (Ok (runMetrics order hook info c)).
Proof.
  unfold runMetrics_prom. destruct (makeMetrics order info c).
  apply goes_erases; [apply if_prom_goes; intros; unfold set_rates; instruments|]. done.
Qed.
End Prom.
End Transparent.

(** ** What holds of the instruments *)

Section Spec.
Context `{PromLaws}.

(** Instruments do not change what the node does: when they are off, or when every
    instrument exists, each operation that uses them gives what it gives without. *)
Theorem instruments_transparent prom :
  usable prom →
  (∀ A (body : outcome () A) w, erases (with_Connecting prom body w) body) ∧
  (∀ s w, erases (manageOnline_prom prom s w) (Ok (manageOnline_step s))) ∧
  (∀ P `(Protocol P) turns p (s : reader P) w, erases (readLoop_prom prom turns p s w) (readLoop turns p s)) ∧
  (∀ P `(Protocol P) l stops (s : writer P) w, erases (sendLoop_prom prom l stops s w) (sendLoop l s)) ∧
  (∀ p n w, erases (Network_Send_prom prom p n w) (Network_Send p n)) ∧
  (∀ G `(Rng G) `(CacheJson) order conf now now' now_cache writes f s g w,
     erases (runCatRound_prom prom order conf now now' now_cache writes f s g w)
       (runCatRound order conf now now' now_cache writes f s g)) ∧
  (∀ order hook info toNet fromNet c w,
     erases (runMetrics_prom prom order hook info toNet fromNet c w) (Ok (runMetrics order hook info c))).
Proof.
  intros Hp. split_and!; intros.
  - by apply with_Connecting_erases.
  - by apply manageOnline_erases.
  - by apply readLoop_erases.
  - by apply sendLoop_erases.
  - by apply Network_Send_erases.
  - by apply runCatRound_erases.
  - by apply runMetrics_erases.
Qed.

(** [C36] Prometheus in a process with two networks.  The first network with instruments
    gets all of them, each an object of its own that reads zero and is registered.
    [Setup] does nothing for the second: its instruments are nil interfaces, and its
    first cycle, dial, incoming connection, loop of a peer or change of the peers
    panics.  Instruments are on by default. *)
Theorem second_network_panics a b s :
  EnablePrometheus a = true → EnablePrometheus b = true → once_done s = false →
  (∀ x, x ∈ prom_names → x ∉ names DefaultRegisterer (pr_world s)) →
  ∃ p q s', NewNetwork_prom a s = Ok (Some p, s') ∧ prom_ready p ∧
    (∃ gs, gauges p = Some <$> gs ∧ NoDup gs ∧ Forall (λ g, value (pr_world s') g = float64 0) gs) ∧
    (∀ x, x ∈ prom_names → x ∈ names DefaultRegisterer (pr_world s')) ∧
    NewNetwork_prom b s' = Ok (Some q, s') ∧
    (∀ A (body : outcome () A) w, with_Connecting (Some q) body w = Panic) ∧
    (∀ P `(Protocol P) turns p (r : reader P) w, readLoop_prom (Some q) turns p r w = Panic) ∧
    (∀ P `(Protocol P) l stops (r : writer P) w, sendLoop_prom (Some q) l stops r w = Panic) ∧
    (∀ order hook info toNet fromNet c w, runMetrics_prom (Some q) order hook info toNet fromNet c w = Panic) ∧
    (∀ o o' w, manageOnline_step o = Some o' → on_manager o' = MIdle → manageOnline_prom (Some q) o w = Panic).
Proof.
  intros Ha Hb Hdone Hfree.
  destruct (_setup_lemma DefaultRegisterer (pr_world s) Hfree) as (p & w & Hs & Hh & gs & Hgs & [Hn Hd Hz _]).
  exists p, new_Prometheus, (MkProcess true w). unfold NewNetwork_prom, Setup. rewrite Ha, Hb, Hdone, Hs.
  split; [done|]. split_and!.
  - split; [|done]. rewrite Hgs. apply Forall_fmap, Forall_true. by eexists.
  - exists gs. split_and!; [done..|]. eapply Forall_impl; [exact Hz|]. by intros g [_ ?].
  - intros x Hx. cbn [pr_world]. rewrite Hn. apply elem_of_union_l, elem_of_list_to_set.
    by apply elem_of_reverse.
  - done.
  - done.
  - done.
  - done.
  - intros. unfold runMetrics_prom. by destruct (makeMetrics order info c).
  - intros o o' w' Ho Hm. unfold manageOnline_prom. by rewrite Ho, Hm.
Qed.

(** *** The values *)

Lemma keeps_Inc g g' w : g ≠ g' → keeps w (gauge_Inc g w) g'.
Proof. intros Hne Hk. split; [by apply Inc_known|by apply Inc_other]. Qed.
Lemma keeps_Observe h f w g : keeps w (histogram_Observe h f w) g.
Proof. intros Hk. split; [by apply Observe_known|by apply Observe_other]. Qed.

(** an increment of the field [f] that succeeds *)
Lemma Inc_keeps p (f : Prometheus → option gauge) g w w' :
  Some g ≠ f p → Inc (f p) w = Ok w' → keeps w w' g.
Proof. intros Hne. unfold Inc. destruct (f p) as [g'|]; [|done]. intros [= <-]. apply keeps_Inc. congruence. Qed.

Section Balance.
Context (p : Prometheus) (Hd : NoDup (gauges p)).

(** the fields at different places are different instruments *)
Lemma gauge_ne (i j : nat) x y : gauges p !! i = Some x → gauges p !! j = Some y → i ≠ j → x ≠ y.
Proof. intros Hx Hy Hij ->. by apply Hij, (NoDup_lookup (gauges p) i j y). Qed.

Lemma count_received_keeps (r : outcome prot_error Parcel) g w w' :
  Some g ≠ ParcelsReceived p → Some g ≠ AppReceived p → Some g ≠ Invalid p →
  count_received (Some p) r w = Ok w' → keeps w w' g.
Proof.
  intros H1 H2 H3. unfold count_received. destruct r as [msg| | |];
    [|by intros [= <-]; apply keeps_refl..].
  destruct (Parcel_Valid (Some msg)); cbn [if_prom]; [|by intros; eapply (Inc_keeps p Invalid)..].
  intros (w1 & Hw1 & (w2 & Hw2 & Hw3)%bind_Ok_inv)%bind_Ok_inv.
  apply (keeps_trans _ w1); [by eapply (Inc_keeps p ParcelsReceived)|]. apply (keeps_trans _ w2).
  - unfold Observe in Hw2. destruct (ParcelSize p); simplify_eq. apply keeps_Observe.
  - destruct (IsApplicationMessage msg); [by eapply (Inc_keeps p AppReceived)|simplify_eq; apply keeps_refl].
Qed.

Lemma read_turns_keeps {P} `{Protocol P} turns peer s w s' l ended w' g :
  Some g = ReceiveRoutines p → read_turns_prom (Some p) turns peer s w = Ok (s', l, ended, w') → keeps w w' g.
Proof.
  intros Hg. revert s w s' l. induction turns as [|[now delivers] turns IH]; intros s w s' l; cbn [read_turns_prom].
  { intros [= <- <- <- <-]. apply keeps_refl. }
  intros ([[s1 msg] w1] & Ht & Hr)%bind_Ok_inv. apply (keeps_trans _ w1).
  { unfold readLoop_turn_prom in Ht. apply bind_Ok_inv in Ht as (w2 & Hc & (x & _ & ?)%bind_Ok_inv). simplify_eq.
    eapply count_received_keeps; [..|exact Hc]; rewrite Hg.
    - by apply (gauge_ne 10 12).
    - by apply (gauge_ne 10 15).
    - by apply (gauge_ne 10 13). }
  destruct msg as [msg|]; [destruct delivers|].
  - apply bind_Ok_inv in Hr as ([[[s2 l2] e2] w2] & Hr & ?). simplify_eq. by eapply IH.
  - apply bind_Ok_inv in Hr as (c & _ & ?). simplify_eq. apply keeps_refl.
  - apply bind_Ok_inv in Hr as (c & _ & ?). simplify_eq. apply keeps_refl.
Qed.
End Balance.

(** What the gauges of routines and connections read.  A dial or handshake that is
    over and a [readLoop] that has ended leave their gauge where it was, and one that is
    running is counted; after a status is handled, the gauges read the peers of the
    store, and those that dialed in and were dialed add up to all. *)
Theorem gauges_balance p w :
  prom_ready p → NoDup (gauges p) → (∀ g, Some g ∈ gauges p → known w g) →
  (∀ g n A (body : outcome () A) a w', Connecting p = Some g → value w g = float64 n →
     with_Connecting (Some p) body w = Ok (a, w') → value w' g = float64 n) ∧
  (∀ g n P `(Protocol P) turns peer (s s' : reader P) l ended w', ReceiveRoutines p = Some g →
     value w g = float64 n → readLoop_prom (Some p) turns peer s w = Ok (s', l, ended, w') →
     value w' g = float64 (if ended then n else n + 1)) ∧
  (∀ ps gc gi go, PeerStore_wf ps → Connections p = Some gc → Incoming p = Some gi → Outgoing p = Some go →
     ∃ w' n i o, set_connections ps p w = Ok w' ∧ value w' gc = float64 n ∧ value w' gi = float64 i ∧
       value w' go = float64 o ∧ n = Z.of_nat (size (peers ps)) ∧ n = i + o).
Proof.
  intros Hp Hd Hk. split_and!.
  - intros g n A body a w' Hg Hv. unfold with_Connecting. cbn [if_prom]. rewrite Hg. cbn [Inc Dec]. rewrite bind_Ok.
    intros (b & _ & Hb)%bind_Ok_inv. rewrite bind_Ok in Hb. simplify_eq.
    assert (Hkg : known w g) by (apply Hk; rewrite <-Hg; unfold gauges; set_solver).
    rewrite (Dec_law _ _ (n + 1)); [f_equal; lia|by apply Inc_known|by apply Inc_law].
  - intros g n P HP turns peer s s' l ended w' Hg Hv. unfold readLoop_prom. cbn [if_prom]. rewrite Hg.
    cbn [Inc Dec]. rewrite bind_Ok. intros ([[[s2 l2] e2] w2] & Hr & Hend)%bind_Ok_inv.
    assert (Hkg : known w g) by (apply Hk; rewrite <-Hg; unfold gauges; set_solver).
    destruct (read_turns_keeps p Hd turns peer s _ s2 l2 e2 w2 g (eq_sym Hg) Hr) as [Hk2 Hv2];
      [by apply Inc_known|].
    rewrite (Inc_law _ _ n) in Hv2 by done. destruct e2; rewrite bind_Ok in Hend; simplify_eq; [|done].
    rewrite (Dec_law _ _ (n + 1)); [f_equal; lia|done|done].
  - intros ps gc gi go Hwf Hc Hi Ho. unfold set_connections. rewrite Hc, Hi, Ho. cbn [Set_]. rewrite !bind_Ok.
    eexists _, _, _, _. split; [done|].
    assert (Hne : gc ≠ gi ∧ gc ≠ go ∧ gi ≠ go).
    { split_and!; intros He.
      - apply (gauge_ne p Hd 0 2 (Connections p) (Incoming p)); [done..|by rewrite ?Hc, ?Hi, ?He].
      - apply (gauge_ne p Hd 0 3 (Connections p) (Outgoing p)); [done..|by rewrite ?Hc, ?Ho, ?He].
      - apply (gauge_ne p Hd 2 3 (Incoming p) (Outgoing p)); [done..|by rewrite ?Hi, ?Ho, ?He]. }
    assert (Hkn : known w gc ∧ known w gi ∧ known w go).
    { split_and!; apply Hk; unfold gauges; rewrite Hc, Hi, Ho; set_solver. }
    destruct Hne as (? & ? & ?), Hkn as (? & ? & ?).
    rewrite (Set_other go gc), (Set_other gi gc), (Set_other go gi), !Set_law by eauto using Set_known, not_eq_sym.
    split_and!; [done..|]. symmetry. by apply in_and_out.
Qed.
End Spec.

(** ** A library that keeps the laws *)

Module DocumentedProm.
Record doc_world := MkDocWorld {
  dw_values : gmap nat float;
  dw_labels : gmap nat string;
  dw_names : gset string;
  dw_observed : list (nat * float);
}.
Definition new_object (w : doc_world) : nat := fresh (dom (dw_values w) ∪ dom (dw_labels w)).
Definition label (w : doc_world) (c : nat + nat) : string :=
  default ""%string (dw_labels w !! match c with inl n | inr n => n end).
Definition change (f : float → float) (n : nat) (w : doc_world) : doc_world :=
  MkDocWorld (alter f n (dw_values w)) (dw_labels w) (dw_names w) (dw_observed w).
Definition plus (k : float) (f : float) : float := (f.1 * k.2 + k.1 * f.2, f.2 * k.2).
Definition doc_known (w : doc_world) (n : nat) : Prop := is_Some (dw_values w !! n).
Definition doc_value (w : doc_world) (n : nat) : float := default (float64 0) (dw_values w !! n).

#[export] Instance doc_lib : PromLib := {|
  world := doc_world;
  gauge := nat;
  histogram := nat;
  registerer := unit;
  DefaultRegisterer := tt;
  NewGauge o w := let n := new_object w in
    (n, MkDocWorld (<[n := float64 0]> (dw_values w)) (<[n := Name o]> (dw_labels w)) (dw_names w) (dw_observed w));
  NewHistogram o w := let n := new_object w in
    (n, MkDocWorld (dw_values w) (<[n := h_Name o]> (dw_labels w)) (dw_names w) (dw_observed w));
  ExponentialBuckets start factor count :=
    (λ k, (start.1 * factor.1 ^ Z.of_nat k, start.2 * factor.2 ^ Z.of_nat k)) <$> seq 0 (Z.to_nat count);
  MustRegister _ c w :=
    if decide (label w c ∈ dw_names w) then Panic
    else Ok (MkDocWorld (dw_values w) (dw_labels w) ({[label w c]} ∪ dw_names w) (dw_observed w));
  gauge_Inc := change (plus (float64 1));
  gauge_Dec := change (plus (float64 (-1)));
  gauge_Set n f := change (λ _, f) n;
  gauge_Add n f := change (plus f) n;
  histogram_Observe n f w := MkDocWorld (dw_values w) (dw_labels w) (dw_names w) ((n, f) :: dw_observed w);
|}.

Lemma change_known f n m w : doc_known w m → doc_known (change f n w) m.
Proof.
  unfold doc_known, change. cbn. rewrite lookup_alter. intros Hm. case_decide; subst; [by apply fmap_is_Some|done].
Qed.
Lemma change_other f n m w : n ≠ m → doc_value (change f n w) m = doc_value w m.
Proof. intros Hne. unfold doc_value, change. cbn. by rewrite lookup_alter_ne. Qed.
Lemma change_value f n w : doc_known w n → doc_value (change f n w) n = f (doc_value w n).
Proof. unfold doc_known, doc_value, change. cbn. rewrite lookup_alter_eq. by intros [x ->]. Qed.

Lemma new_object_fresh w : dw_values w !! new_object w = None.
Proof.
  apply not_elem_of_dom. intros Hin.
  apply (is_fresh (dom (dw_values w) ∪ dom (dw_labels w))). by apply elem_of_union_l.
Qed.

#[export, program] Instance doc_laws : PromLaws := {|
  names _ w := dw_names w;
  known := doc_known;
  value := doc_value;
  collector_name := label;
|}.
Next Obligation.
  intros o w. cbn. pose proof (new_object_fresh w) as Hf. unfold doc_known, doc_value, label. cbn.
  rewrite !lookup_insert_eq, Hf. split_and!; [by intros []|by eexists|done|done|done|].
  intros g [x Hg]. rewrite lookup_insert_ne by congruence. rewrite Hg. split; [by eexists|done].
Qed.
Next Obligation.
  intros o w. cbn. unfold label. cbn. by rewrite lookup_insert_eq.
Qed.
Next Obligation. intros r c w. cbn. case_decide; [done|]. by eexists. Qed.
Next Obligation. intros g w n Hk Hv. cbn in *. rewrite change_value, Hv by done. unfold plus, float64. cbn [fst snd]. f_equal; lia. Qed.
Next Obligation. intros g w n Hk Hv. cbn in *. rewrite change_value, Hv by done. unfold plus, float64. cbn [fst snd]. f_equal; lia. Qed.
Next Obligation. intros g f w Hk. cbn in *. by rewrite change_value. Qed.
Next Obligation. intros. by apply change_other. Qed.
Next Obligation. intros. by apply change_other. Qed.
Next Obligation. intros. by apply change_other. Qed.
Next Obligation. done. Qed.
Next Obligation. intros. by apply change_known. Qed.
Next Obligation. intros. by apply change_known. Qed.
Next Obligation. intros. by apply change_known. Qed.
Next Obligation. done. Qed.

Definition fresh_process : process := MkProcess false (MkDocWorld ∅ ∅ ∅ []).
Definition doc_setup : Prometheus * world := Eval vm_compute in
  match _setup tt (pr_world fresh_process) with Ok r => r | _ => (new_Prometheus, pr_world fresh_process) end.

Lemma no_name_taken x : x ∈ prom_names → x ∉ names DefaultRegisterer (pr_world fresh_process).
Proof. intros _. apply not_elem_of_empty. Qed.

Lemma doc_ready : prom_ready doc_setup.1.
Proof. split; [|by eexists]. by repeat (constructor; [by eexists|]). Qed.
Lemma doc_distinct : NoDup (gauges doc_setup.1).
Proof. apply (bool_decide_unpack _). by vm_compute. Qed.
Lemma doc_all_known g : Some g ∈ gauges doc_setup.1 → known doc_setup.2 g.
Proof.
  assert (Ha : Forall (λ x, is_Some (x ≫= λ n, dw_values doc_setup.2 !! n)) (gauges doc_setup.1)).
  { vm_compute. by repeat (constructor; [by eexists|]). }
  rewrite Forall_forall in Ha. intros Hin. by apply (Ha (Some g)).
Qed.
End DocumentedProm.
Import DocumentedProm.

Theorem second_network_panics_witness :
  ∃ p q s', NewNetwork_prom conf_a fresh_process = Ok (Some p, s') ∧ prom_ready p ∧
    NewNetwork_prom conf_b s' = Ok (Some q, s') ∧
    (∀ order hook info toNet fromNet c w, runMetrics_prom (Some q) order hook info toNet fromNet c w = Panic).
Proof.
  destruct (second_network_panics conf_a conf_b fresh_process eq_refl eq_refl eq_refl no_name_taken)
    as (p & q & s' & Ha & Hp & _ & _ & Hb & _ & _ & _ & Hm & _).
  exists p, q, s'. split; [exact Ha|]. split; [exact Hp|]. split; [exact Hb|exact Hm].
Defined.

Theorem instruments_transparent_witness :
  ∀ s w, erases (manageOnline_prom (Some doc_setup.1) s w) (Ok (manageOnline_step s)).
Proof.
  apply (instruments_transparent (Some doc_setup.1)). intros p [= <-]. exact doc_ready.
Defined.

Theorem gauges_balance_witness :
  ∀ ps gc gi go, PeerStore_wf ps → Connections doc_setup.1 = Some gc → Incoming doc_setup.1 = Some gi →
    Outgoing doc_setup.1 = Some go →
    ∃ w' n i o, set_connections ps doc_setup.1 doc_setup.2 = Ok w' ∧ value w' gc = float64 n ∧
      value w' gi = float64 i ∧ value w' go = float64 o ∧ n = Z.of_nat (size (peers ps)) ∧ n = i + o.
Proof. apply (gauges_balance doc_setup.1 doc_setup.2 doc_ready doc_distinct doc_all_known). Defined.
