(* ===== verification/Admission.v ===== *)
(** * How many connections are let in ([listen], [handshakeIncoming], [manageOnline])

    [allowIncoming] looks at the store when a connection arrives; the peer that comes of
    it is in the store only when its handshake is over and [manageOnline] has handled its
    status.  [listen] hands each connection to a goroutine of its own, so any number of
    them may be on this way.  The system of [Online] with the connections before it. *)
From S2P Require Import Prelude GoStd Endpoint Parcel ParcelChannel PeerHashCache Configuration PeerStore.
From S2P Require Import Handshake Stream Protocol ProtocolV9 ProtocolV10 ProtocolV11 Rng Controller Online Cat Connections.

Record node := MkNode {
  nd_online : online_state;
  nd_shaking : list Endpoint;   (* let in, with their handshakes under way *)
}.
Definition nd_store (s : node) : PeerStore := on_store (nd_online s).
Definition node_init : node := MkNode online_init [].

Inductive event :=
  | EArrive (now : Z) (bans : gmap string Z) (ep : Endpoint)   (* [handshakeIncoming] starts *)
  | EDone (i : nat) (ref : nat) (id : Z) (port : string)       (* the [i]-th handshake makes a peer *)
  | EFail (i : nat)                                            (* the [i]-th handshake fails *)
  | EOnline (a : action).                                      (* anything else; dialed peers come here *)

Section Node.
Context (conf : Configuration) (special_map : gmap string bool).

(** the controller as [allowIncoming] sees it *)
Definition seen (bans : gmap string Z) (s : node) : controller :=
  MkController (nd_store s) ∅ [] bans false special_map [].

Definition node_step (s : node) (e : event) : option node :=
  match e with
  | EArrive now bans ep =>
      match allowIncoming conf now (seen bans s) (IP ep) with
      | Ok _ => Some (MkNode (nd_online s) (nd_shaking s ++ [ep]))
      | _ => Some s
      end
  | EDone i ref id port =>
      match nd_shaking s !! i with
      | Some ep =>
          match newPeer conf ref id (set_Port port ep) true with
          | Ok (p, _) =>
              match online_step (nd_online s) (AConnect p) with
              | Some o => Some (MkNode o (delete i (nd_shaking s)))
              | None => None
              end
          | _ => None
          end
      | None => None
      end
  | EFail i =>
      match nd_shaking s !! i with
      | Some _ => Some (MkNode (nd_online s) (delete i (nd_shaking s)))
      | None => None
      end
  | EOnline a =>
      match a with
      | AConnect p => if IsIncoming p then None else
          match online_step (nd_online s) a with Some o => Some (MkNode o (nd_shaking s)) | None => None end
      | _ => match online_step (nd_online s) a with Some o => Some (MkNode o (nd_shaking s)) | None => None end
      end
  end.

Fixpoint node_exec (s : node) (l : list event) : option node :=
  match l with
  | [] => Some s
  | e :: l => match node_step s e with Some s => node_exec s l | None => None end
  end.

(** ** Counting *)

(** incoming peers from the addresses of a set *)
Definition counted (Q : string → bool) (p : Peer) : bool := IsIncoming p && Q (IP (peer_Endpoint p)).
Definition how_many {A} (f : A → bool) (l : list A) : Z := zlen (filter (λ x, f x = true) l).

Definition stored (Q : string → bool) (s : node) : Z :=
  map_sum (λ p, bool_Z (counted Q p)) (peers (nd_store s)).
Definition announced (Q : string → bool) (o : online_state) : Z :=
  how_many (λ st, st_online st && counted Q (st_peer st)) (on_chan o) +
  how_many (λ st, st_online st && counted Q (st_peer st)) (on_waiting o) +
  match on_manager o with MStopping _ new => bool_Z (counted Q new) | MIdle => 0 end.
(** let in and not yet stored *)
Definition on_the_way (Q : string → bool) (s : node) : Z :=
  how_many (λ ep, Q (IP ep)) (nd_shaking s) + announced Q (nd_online s).

(** steps with at most [K] connections on the way; [len] of a map is an [int] *)
Definition step_within (Q : string → bool) (K : Z) (s s' : node) : Prop :=
  ∃ e, node_step s e = Some s' ∧ on_the_way Q s' ≤ K ∧ PeerStore_Total (nd_store s') < 2 ^ 63.

Lemma how_many_app {A} (f : A → bool) l k : how_many f (l ++ k) = how_many f l + how_many f k.
Proof. unfold how_many. by rewrite filter_app, zlen_app. Qed.
Lemma how_many_cons {A} (f : A → bool) x l : how_many f (x :: l) = bool_Z (f x) + how_many f l.
Proof. unfold how_many. rewrite filter_cons. destruct (f x); simpl; [by rewrite zlen_cons|done]. Qed.
Lemma how_many_nil {A} (f : A → bool) : how_many f [] = 0.
Proof. done. Qed.
Lemma how_many_nonneg {A} (f : A → bool) l : 0 ≤ how_many f l.
Proof. apply zlen_nonneg. Qed.
Lemma how_many_delete {A} (f : A → bool) l i x :
  l !! i = Some x → how_many f l = bool_Z (f x) + how_many f (delete i l).
Proof.
  intros Hi. rewrite <-(take_drop_middle l i x Hi) at 1. rewrite delete_take_drop, !how_many_app, how_many_cons. lia.
Qed.
Lemma how_many_filter {A} (f : A → bool) (P : A → Prop) `{∀ x, Decision (P x)} l :
  (∀ x, f x = true → P x) → how_many f (filter P l) = how_many f l.
Proof. intros HP. unfold how_many. by rewrite list_filter_filter_l. Qed.

#[local] Arguments PeerStore_Remove : simpl never.
#[local] Arguments PeerStore_Get : simpl never.
#[local] Arguments add_or_log : simpl never.

(** what is announced and stored grows only by a peer that connects *)
Lemma online_measure Q o a o' :
  online_inv o → online_step o a = Some o' →
  map_sum (λ p, bool_Z (counted Q p)) (peers (on_store o')) + announced Q o' ≤
  map_sum (λ p, bool_Z (counted Q p)) (peers (on_store o)) + announced Q o +
  match a with AConnect p => bool_Z (counted Q p) | _ => 0 end.
Proof.
  intros [Hwf _ Hm] Ha. set (f := λ p, bool_Z (counted Q p)).
  assert (Hf : ∀ p, 0 ≤ f p) by (intros p; apply bool_Z_nonneg).
  destruct a as [p|p|i|]; simpl in Ha.
  - destruct (on_objects o !! peer_ref p); simplify_eq. unfold announced. simpl.
    rewrite how_many_app, how_many_cons, how_many_nil. cbn [st_online st_peer andb]. fold (f p). lia.
  - case_decide; simplify_eq. unfold announced. simpl. rewrite how_many_app, how_many_cons, how_many_nil. simpl. lia.
  - destruct (on_waiting o !! i) as [st|] eqn:Hi; [|done]. case_decide; simplify_eq. unfold announced. simpl.
    rewrite how_many_app, how_many_cons, how_many_nil, (how_many_delete _ (on_waiting o) i st Hi). lia.
  - unfold manageOnline_step in Ha. unfold announced. destruct (on_manager o) as [|old new] eqn:Em.
    + destruct (on_chan o) as [|[p []] chan] eqn:Ec; simplify_eq; rewrite how_many_cons; cbn [st_online st_peer andb];
        fold (f p).
      * pose proof (map_sum_insert_le f (peers (on_store o)) (Hash p) p Hf).
        destruct (PeerStore_Get (on_store o) (Hash p)) as [old|] eqn:Hg;
          [case_decide; [case_decide|]|]; simplify_eq; simpl.
        -- rewrite how_many_filter; [fold (f p); lia|]. intros [q []]; [done|]. by intros [=].
        -- rewrite replace_peers by done. lia.
        -- fold (f p). lia.
        -- rewrite add_or_log_peers by done. lia.
      * simpl. assert (map_sum f (peers (PeerStore_Remove (on_store o) (Some p))) ≤ map_sum f (peers (on_store o))); [|lia].
        unfold PeerStore_Remove. destruct (peers (on_store o) !! Hash p); [|done].
        case_decide; [|done]. by apply map_sum_delete_le.
    + case_decide; simplify_eq. simpl. destruct (Hm _ _ eq_refl). rewrite replace_peers by done.
      pose proof (map_sum_insert_le f (peers (on_store o)) (Hash new) new Hf).
      rewrite how_many_app, how_many_cons, how_many_nil. simpl. fold (f new). lia.
Qed.

Lemma online_step_inv o a o' : online_inv o → online_step o a = Some o' → online_inv o'.
Proof. intros Hi Ha. apply (step_inv o); [done|by exists a]. Qed.

Definition node_inv (s : node) : Prop := online_inv (nd_online s).
Lemma node_step_inv s e s' : node_inv s → node_step s e = Some s' → node_inv s'.
Proof.
  unfold node_inv. intros Hi. destruct e as [now bans ep|i ref id port|i|a]; cbn [node_step].
  - by case_match; intros [= <-].
  - destruct (nd_shaking s !! i); [|done]. destruct (newPeer _ _ _ _ _) as [[p st]| | |]; try done.
    destruct (online_step _ _) as [o|] eqn:Ho; [|done]. intros [= <-]. by eapply online_step_inv.
  - destruct (nd_shaking s !! i); [|done]. by intros [= <-].
  - intros He. assert (∃ o, online_step (nd_online s) a = Some o ∧ s' = MkNode o (nd_shaking s)) as (o & Ho & ->).
    { destruct a; try destruct (IsIncoming p); try done; case_match; simplify_eq; by eexists. }
    by eapply online_step_inv.
Qed.

(** a peer has the address of the connection it comes from *)
Lemma newPeer_counted Q ref id port ep p st :
  newPeer conf ref id (set_Port port ep) true = Ok (p, st) → counted Q p = Q (IP ep).
Proof. intros (r & _ & [= <- <-])%bind_Ok_inv. done. Qed.

(** only an arrival that is let in adds to what is stored and on the way *)
Lemma node_measure Q s e s' :
  node_inv s → node_step s e = Some s' →
  stored Q s' + on_the_way Q s' ≤ stored Q s + on_the_way Q s +
    match e with
    | EArrive now bans ep => match allowIncoming conf now (seen bans s) (IP ep) with
                             | Ok _ => bool_Z (Q (IP ep)) | _ => 0 end
    | _ => 0
    end.
Proof.
  unfold node_inv, stored, on_the_way, nd_store. intros Hi.
  destruct e as [now bans ep|i ref id port|i|a]; cbn [node_step].
  - case_match; intros [= <-]; cbn [nd_online nd_shaking]; rewrite ?how_many_app, ?how_many_cons, ?how_many_nil; lia.
  - destruct (nd_shaking s !! i) as [ep|] eqn:Hep; [|done].
    destruct (newPeer conf ref id (set_Port port ep) true) as [[p st]| | |] eqn:Hp; try done.
    destruct (online_step _ _) as [o|] eqn:Ho; [|done]. intros [= <-]. cbn [nd_online nd_shaking].
    pose proof (online_measure Q _ _ _ Hi Ho) as Hm. cbn beta iota in Hm.
    rewrite (newPeer_counted Q _ _ _ _ _ _ Hp) in Hm.
    rewrite (how_many_delete _ (nd_shaking s) i ep Hep). lia.
  - destruct (nd_shaking s !! i) as [ep|] eqn:Hep; [|done]. intros [= <-]. cbn [nd_online nd_shaking].
    rewrite (how_many_delete (λ ep, Q (IP ep)) (nd_shaking s) i ep Hep).
    pose proof (bool_Z_nonneg (Q (IP ep))). lia.
  - intros He. assert (∃ o, online_step (nd_online s) a = Some o ∧ s' = MkNode o (nd_shaking s) ∧
      match a with AConnect p => IsIncoming p = false | _ => True end) as (o & Ho & -> & Ha).
    { destruct a; try destruct (IsIncoming p) eqn:?; try done; case_match; simplify_eq; by eexists. }
    pose proof (online_measure Q _ _ _ Hi Ho) as Hm. cbn [nd_online nd_shaking].
    destruct a as [p|?|?|]; try lia. unfold counted in Hm at 3. rewrite Ha in Hm. simpl in Hm. lia.
Qed.

(** ** The limits *)

Lemma stored_total Q s : stored Q s ≤ PeerStore_Total (nd_store s).
Proof.
  unfold stored, PeerStore_Total. rewrite <-map_sum_size. apply map_sum_le. intros p. by destruct (counted Q p).
Qed.

Lemma stored_addr a s :
  PeerStore_wf (nd_store s) → stored (λ ip, bool_decide (ip = a)) s ≤ PeerStore_Count (nd_store s) a.
Proof.
  intros Hwf. unfold PeerStore_Count, get0. rewrite (wf_connected _ Hwf).
  change (if _ =? 0 then None else Some _) with (counter (count_addr a (peers (nd_store s)))).
  rewrite counter_get0. apply map_sum_le. intros p. unfold counted, addr_uses.
  destruct (IsIncoming p), (bool_decide (IP (peer_Endpoint p) = a)), (bool_decide (Endpoint_String (peer_Endpoint p) = a));
    simpl; lia.
Qed.

Lemma Count_total a ps : PeerStore_wf ps → 0 ≤ PeerStore_Count ps a ≤ 2 * PeerStore_Total ps.
Proof.
  intros Hwf. unfold PeerStore_Count, get0. rewrite (wf_connected _ Hwf).
  change (if _ =? 0 then None else Some _) with (counter (count_addr a (peers ps))). rewrite counter_get0.
  split; [apply count_addr_nonneg|]. unfold PeerStore_Total. rewrite <-map_sum_size.
  transitivity (map_sum (λ p : Peer, 1 + 1) (peers ps)); [|rewrite map_sum_add; lia].
  apply map_sum_le. intros p. unfold addr_uses. by destruct (bool_decide _), (bool_decide _).
Qed.

(** a limit that arrivals respect is passed by less than the connections on the way *)
Lemma limit_within Q (L K : Z) s :
  1 ≤ K → 0 ≤ L →
  (∀ s now bans ep, node_inv s → PeerStore_Total (nd_store s) < 2 ^ 63 → Q (IP ep) = true →
     allowIncoming conf now (seen bans s) (IP ep) = Ok tt → stored Q s < L) →
  rtc (step_within Q K) node_init s →
  stored Q s + on_the_way Q s ≤ L + K - 1.
Proof.
  intros HK HL Hlim H.
  enough (node_inv s ∧ PeerStore_Total (nd_store s) < 2 ^ 63 ∧ stored Q s + on_the_way Q s ≤ L + K - 1) by tauto.
  assert (Hinit : node_inv node_init ∧ PeerStore_Total (nd_store node_init) < 2 ^ 63 ∧
    stored Q node_init + on_the_way Q node_init ≤ L + K - 1).
  { split_and!; [apply reachable_inv, rtc_refl|by vm_compute|]. unfold stored. simpl. rewrite map_sum_empty.
    change (on_the_way Q node_init) with 0. lia. }
  induction H as [|s1 s2 s3 (e & He & HW & HT) _ IH]; [done|]. apply IH. clear IH s3.
  destruct Hinit as (Hi & Ht & Hm). split_and!; [by eapply node_step_inv|done|].
  pose proof (node_measure Q _ _ _ Hi He) as Hstep.
  destruct e as [now bans ep|?|?|?]; [|lia..]. cbn [node_step] in He.
  destruct (allowIncoming conf now (seen bans s1) (IP ep)) as [[]| | |] eqn:Hal; [|lia..].
  destruct (Q (IP ep)) eqn:HQ; simpl in Hstep; [|lia]. simplify_eq.
  pose proof (Hlim _ _ _ _ Hi Ht HQ Hal). unfold stored, nd_store in *. cbn [nd_online] in *. lia.
Qed.

Definition not_special (ip : string) : bool := negb (default false (special_map !! ip)).

Lemma allowIncoming_room s now bans ep :
  PeerStore_Total (nd_store s) < 2 ^ 63 → not_special (IP ep) = true →
  allowIncoming conf now (seen bans s) (IP ep) = Ok tt → PeerStore_Total (nd_store s) < MaxIncoming conf.
Proof.
  intros Ht Hsp. unfold allowIncoming. destruct (isBannedIP _ _ _); [done|].
  unfold isSpecialIP. cbn [seen special c_peers]. unfold not_special in Hsp. rewrite Hsp, andb_true_r.
  unfold u64. rewrite Z.mod_small by (unfold PeerStore_Total in *; lia).
  destruct (Z.leb_spec (MaxIncoming conf) (PeerStore_Total (nd_store s))); [done|lia].
Qed.

Lemma allowIncoming_addr s now bans ep :
  PeerStore_wf (nd_store s) → PeerStore_Total (nd_store s) < 2 ^ 63 → 0 < PeerIPLimitIncoming conf →
  allowIncoming conf now (seen bans s) (IP ep) = Ok tt →
  PeerStore_Count (nd_store s) (IP ep) < PeerIPLimitIncoming conf.
Proof.
  intros Hwf Ht Hlim. pose proof (Count_total (IP ep) _ Hwf). unfold allowIncoming.
  destruct (isBannedIP _ _ _); [done|]. destruct (_ && _); [done|]. cbn [seen c_peers].
  rewrite (proj2 (Z.ltb_lt _ _) Hlim). unfold u64. rewrite Z.mod_small by lia.
  destruct (Z.leb_spec (PeerIPLimitIncoming conf) (PeerStore_Count (nd_store s) (IP ep))); [done|lia].
Qed.

Lemma on_the_way_nonneg Q s : 0 ≤ on_the_way Q s.
Proof.
  unfold on_the_way, announced. pose proof (how_many_nonneg (λ ep, Q (IP ep)) (nd_shaking s)).
  pose proof (how_many_nonneg (λ st, st_online st && counted Q (st_peer st)) (on_chan (nd_online s))).
  pose proof (how_many_nonneg (λ st, st_online st && counted Q (st_peer st)) (on_waiting (nd_online s))).
  destruct (on_manager (nd_online s)) as [|old new]; [|pose proof (bool_Z_nonneg (counted Q new))]; lia.
Qed.

(** [C3] The limits for incoming connections hold up to the connections that are let in
    and not yet stored: while there are never more than [K] of these, the store has at
    most [K - 1] incoming peers more than [MaxIncoming], those from special addresses
    aside, and at most [K - 1] more from one address than [PeerIPLimitIncoming].  One
    connection at a time keeps the limits exactly. *)
Theorem incoming_limits K s :
  1 ≤ K → 0 ≤ MaxIncoming conf →
  (rtc (step_within not_special K) node_init s → stored not_special s ≤ MaxIncoming conf + K - 1) ∧
  (∀ a, 0 < PeerIPLimitIncoming conf → rtc (step_within (λ ip, bool_decide (ip = a)) K) node_init s →
    stored (λ ip, bool_decide (ip = a)) s ≤ PeerIPLimitIncoming conf + K - 1).
Proof.
  intros HK HM. split; [intros Hr|intros a Hl Hr].
  - apply (limit_within not_special (MaxIncoming conf)) in Hr; [pose proof (on_the_way_nonneg not_special s); lia|done..|].
    intros s' now bans ep Hi Ht HQ Hal. pose proof (allowIncoming_room _ _ _ _ Ht HQ Hal).
    pose proof (stored_total not_special s'). lia.
  - set (Q := λ ip, bool_decide (ip = a)).
    apply (limit_within Q (PeerIPLimitIncoming conf)) in Hr; [pose proof (on_the_way_nonneg Q s); lia|done|lia|].
    intros s' now bans ep Hi Ht HQ%bool_decide_eq_true Hal.
    pose proof (allowIncoming_addr _ _ _ _ (oi_store _ Hi) Ht Hl Hal). subst a.
    pose proof (stored_addr (IP ep) s' (oi_store _ Hi)). unfold Q. lia.
Qed.
End Node.

(** ** The handshake in two parts

    [EArrive] and [EDone] are the beginning and the end of [handshakeIncoming]: a peer
    comes of it only if [allowIncoming] let the connection in, and it is the incoming
    peer that [newPeer] makes for the address, reported online. *)
Lemma handshakeIncoming_admits {G} `{Rng G} `{ProtoLib} id order conf i now ref con ep ctl (g : G) m g' peer prot :
  handshakeIncoming id order conf i now ref con ep ctl g = Ok (m, g') → mv_result m = Ok (peer, prot) →
  allowIncoming conf now ctl (IP ep) = Ok tt ∧
  ∃ nid port st, newPeer conf ref nid (set_Port port ep) true = Ok (peer, st) ∧
    statuses (mv_ctl m) = statuses ctl ++ [MkStatus peer true].
Proof.
  unfold handshakeIncoming. destruct (allowIncoming conf now ctl (IP ep)) as [[]|e| |] eqn:Ha.
  - destruct (detectProtocolFromFirstMessage conf con) as [c [[p hs]|e| |]]; try by intros [= <- _].
    destruct (SendHandshake _ p) as [p' [u|e| |]]; try by intros [= <- _]. cbn [fst snd]. intros [= <- _].
    unfold establish. destruct (newPeer _ _ _ _ _) as [[q st]| | |] eqn:Hp; try done. cbn. intros [= <- _].
    split; [done|]. by exists (h_NodeID hs), (h_ListenPort hs), st.
  - intros ([[share ctl'] g1] & _ & Hm)%bind_Ok_inv. revert Hm. case_match; by intros [= <- _].
  - intros ([[share ctl'] g1] & _ & Hm)%bind_Ok_inv. revert Hm. case_match; by intros [= <- _].
  - intros ([[share ctl'] g1] & _ & Hm)%bind_Ok_inv. revert Hm. case_match; by intros [= <- _].
Qed.

(** ** The bound is reached *)

Fixpoint exec_within (conf : Configuration) (sp : gmap string bool) (Q : string → bool) (K : Z) (s : node) (l : list event)
    : option node :=
  match l with
  | [] => Some s
  | e :: l =>
      match node_step conf sp s e with
      | Some s =>
          if (on_the_way Q s <=? K) && (PeerStore_Total (nd_store s) <? 2 ^ 63) then exec_within conf sp Q K s l else None
      | None => None
      end
  end.
Lemma exec_within_rtc conf sp Q K s l s' :
  exec_within conf sp Q K s l = Some s' → rtc (step_within conf sp Q K) s s'.
Proof.
  revert s. induction l as [|e l IH]; cbn [exec_within]; intros s; [by intros [= ->]|].
  destruct (node_step conf sp s e) as [s1|] eqn:He; [|done].
  destruct ((on_the_way Q s1 <=? K) && _) eqn:Hb; [|done]. intros Hl%IH.
  eapply rtc_l; [|exact Hl]. exists e. split; [done|]. lia.
Qed.

Lemma exec_within_check conf sp Q K s l (f : node → bool) :
  match exec_within conf sp Q K s l with Some s' => f s' | None => false end = true →
  ∃ s', rtc (step_within conf sp Q K) s s' ∧ f s' = true.
Proof. destruct (exec_within _ _ _ _ _ _) as [s'|] eqn:Hs; [|done]. exists s'. split; [by eapply exec_within_rtc|done]. Qed.

(** [n] connections from one address arrive before the first of them is stored *)
Definition arrivals (n from : nat) : list event :=
  replicate n (EArrive 0 ∅ ep_a) ++
  (seq from n ≫= λ k, [EDone 0 k (Z.of_nat k) "8108"; EOnline (ASend 0); EOnline AManager]).

(** with the default configuration, 35 connections one by one and then ten at once make
    45 incoming peers, where [MaxIncoming] is 36 *)
Lemma incoming_limit_passed :
  ∃ s, rtc (step_within DefaultP2PConfiguration ∅ (not_special ∅) 10) node_init s ∧
    stored (not_special ∅) s = MaxIncoming DefaultP2PConfiguration + 10 - 1 ∧
    PeerStore_Incoming (nd_store s) = 45.
Proof.
  destruct (exec_within_check DefaultP2PConfiguration ∅ (not_special ∅) 10 node_init
    ((seq 0 35 ≫= arrivals 1) ++ arrivals 10 35)
    (λ s, (stored (not_special ∅) s =? MaxIncoming DefaultP2PConfiguration + 10 - 1) && (PeerStore_Incoming (nd_store s) =? 45)))
    as (s & Hr & [? ?]%andb_prop); [by vm_compute|].
  exists s. split_and!; [done|by apply Z.eqb_eq..].
Qed.

Theorem incoming_limits_witness :
  ∃ s, stored (not_special ∅) s ≤ MaxIncoming DefaultP2PConfiguration + 10 - 1 ∧ PeerStore_Incoming (nd_store s) = 45.
Proof.
  destruct incoming_limit_passed as (s & Hr & _ & Hi). exists s. split; [|exact Hi].
  apply (proj1 (incoming_limits DefaultP2PConfiguration ∅ 10 s ltac:(lia) ltac:(by vm_compute))). exact Hr.
Defined.
