(* ===== verification/EndToEnd.v ===== *)
(** * From the application of one node to that of another

    The wire of an agreed protocol ([Any_Wire]) and the way of a parcel through two
    nodes: [route], the channel of the peer, [sendLoop], the connection, [readLoop]
    and [manageData]. *)
From S2P Require Import Prelude GoStd Endpoint Parcel ParcelChannel Configuration PeerStore Handshake Stream.
From S2P Require Import Gob GobSpec Json V11Wire Protocol ProtocolV9 ProtocolV10 ProtocolV11 Legacy Rng Controller.
From S2P Require Import Routing Connections ConnectionsSpec PeerLoops.

(** ** The protocol two nodes agree on carries parcels *)

(** what every protocol can carry *)
Definition any_sendable (x : Parcel) : Prop := v9_sendable x ∧ v10_sendable x ∧ v11_sendable x.
Definition any_received (p : any_protocol) (x : Parcel) : Parcel :=
  match p with Any9 _ => x | _ => newParcel (ptype x) (Payload x) end.

Section AnyWire.
Context `{ProtoLibLaws} (id : string → Z) (Hid : type_ids id).

#[local] Instance Any_this : Protocol any_protocol := Any_Protocol id.

Lemma any_send_receive p x :
  ready p → any_sendable x →
  ∃ p' frame, Send x p = (p', Ok tt) ∧ ready p' ∧
    c_out (any_conn p') = c_out (any_conn p) ++ frame ∧ bytes_in (any_conn p') = bytes_in (any_conn p) ∧
    ∀ q rest, linked id p q → bytes_in (any_conn q) = frame ++ rest →
      ∃ q', Receive q = (q', Ok (any_received p x)) ∧ bytes_in (any_conn q') = rest ∧
        c_out (any_conn q') = c_out (any_conn q) ∧ linked id p' q'.
Proof.
  intros Hp (H9 & H10 & H11).
  assert (Hi9 : ids_ok id (defs t_V9Msg)) by apply (ids_ok_sub _ _ _ (legacy_ids id Hid) V9_in_legacy).
  assert (Hi10 : ids_ok id (defs t_V10Msg)) by apply (ids_ok_sub _ _ _ (legacy_ids id Hid) V10_in_legacy).
  destruct p as [p|p|p].
  - destruct (V9_send_receive id _ Hi9 (λ d Hd, Hd) p x Hp H9) as (p' & frame & Hs & Hup & Ho & Hin & Hr).
    exists (Any9 p'), frame. cbn [Send Any_this Any_Protocol any_io]. rewrite Hs. split_and!; [done..|].
    intros [q|q|q] rest Hl Hb; try done. destruct (Hr q rest Hl Hb) as (q' & Hq & ? & ? & ?).
    exists (Any9 q'). cbn [Receive Any_this Any_Protocol any_io]. by rewrite Hq.
  - destruct (V10_send_receive id _ Hi10 (λ d Hd, Hd) p x Hp H10) as (p' & frame & Hs & Hup & Ho & Hin & Hr).
    exists (Any10 p'), frame. cbn [Send Any_this Any_Protocol any_io]. rewrite Hs. split_and!; [done..|].
    intros [q|q|q] rest Hl Hb; try done. destruct (Hr q rest Hl Hb) as (q' & Hq & ? & ? & ?).
    exists (Any10 q'). cbn [Receive Any_this Any_Protocol any_io]. by rewrite Hq.
  - destruct (V11_send_receive p x Hp H11) as (p' & frame & Hs & Hup & Ho & Hin & Hr).
    cbn [Send V11_Protocol] in Hs.
    exists (Any11 p'), frame. cbn [Send Any_this Any_Protocol any_io]. rewrite Hs. split_and!; [done..|].
    intros [q|q|q] rest Hl Hb; try done. destruct (Hr q rest I Hb) as (q' & Hq & ? & ? & _).
    cbn [Receive V11_Protocol] in Hq.
    exists (Any11 q'). cbn [Receive Any_this Any_Protocol any_io]. by rewrite Hq.
Qed.

Lemma any_received_data p x : ptype (any_received p x) = ptype x ∧ Payload (any_received p x) = Payload x.
Proof. by destruct p. Qed.
Lemma any_received_same p x p' : Send x p = (p', Ok tt) → any_received p' = any_received p.
Proof. destruct p; cbn; by intros [= <- _]. Qed.

#[local] Instance Any_Wire : ProtocolWire any_protocol := {|
  wire_in p := bytes_in (any_conn p);
  wire_out p := c_out (any_conn p);
  wire_up := ready;
  wire_link := linked id;
  sendable := any_sendable;
  received := any_received;
  received_data := any_received_data;
  received_same := any_received_same;
  send_receive := any_send_receive;
|}.
End AnyWire.

(** ** Parcels for one peer *)

(** the loop of [route] over the parcels it takes from [toNetwork] *)
Fixpoint route_loop {G} `{Rng G} (order : list Peer → list Peer) (conf : Configuration) (l : list Parcel)
    (c : controller) (g : G) : outcome () (controller * G) :=
  match l with
  | [] => Ok (c, g)
  | x :: l => route order conf x c g ≫= λ '(c, g), route_loop order conf l c g
  end.

(** a peer is never named like one of the addresses that stand for several *)
Definition reserved_addresses : list string := [FullBroadcast; Broadcast; EmptyString; RandomPeer].
Lemma peer_Hash_not_reserved ep id : peer_Hash ep id ∉ reserved_addresses.
Proof.
  assert (Hblank : x20 ∈ str_bytes (peer_Hash ep id)).
  { unfold peer_Hash. rewrite !str_bytes_app. rewrite elem_of_app. right. by left. }
  intros Hin.
  assert (Hno : Forall (λ s, x20 ∉ str_bytes s) reserved_addresses).
  { apply (bool_decide_unpack _). by vm_compute. }
  rewrite Forall_forall in Hno. by apply (Hno _ Hin).
Qed.

Section Direct.
Context {G : Type} `{Rng G} (order : list Peer → list Peer) (conf : Configuration).

(** a parcel for a running peer with room in its channel goes there and nowhere else *)
Lemma route_direct p st x c (g : G) :
  Hash p ∉ reserved_addresses → Address x = Hash p → PeerStore_Get (c_peers c) (Hash p) = Some p →
  heap c !! peer_ref p = Some st → ps_stopped st = false → pc_closed (ps_send st) = false →
  zlen (pc_items (ps_send st)) < pc_cap (ps_send st) →
  ∃ st', route order conf x c g = Ok (set_heap (<[peer_ref p := st']> (heap c)) c, g) ∧
    ps_stopped st' = false ∧ ps_send st' = set_items (ps_send st) (pc_items (ps_send st) ++ [Some x]).
Proof.
  intros Hres Ha Hget Hst Hrun Hopen Hroom. unfold reserved_addresses in Hres. rewrite !not_elem_of_cons in Hres.
  destruct Hres as (H1 & H2 & H3 & H4 & _). unfold route. rewrite Ha.
  rewrite !bool_decide_false by done. cbn [orb]. rewrite Hget. rewrite Peer_Send_eq. unfold Peer_put, peer_state. rewrite Hst, Hrun.
  unfold ParcelChannel_Send, try_send. rewrite Hopen, (proj2 (Z.ltb_lt _ _)) by done. rewrite !bind_Ok.
  eexists. split; [done|]. done.
Qed.

Lemma route_loop_direct p st xs c (g : G) :
  Hash p ∉ reserved_addresses → Forall (λ x, Address x = Hash p) xs →
  PeerStore_Get (c_peers c) (Hash p) = Some p →
  heap c !! peer_ref p = Some st → ps_stopped st = false → pc_closed (ps_send st) = false →
  zlen (pc_items (ps_send st)) + zlen xs ≤ pc_cap (ps_send st) →
  ∃ c' st', route_loop order conf xs c g = Ok (c', g) ∧ heap c' !! peer_ref p = Some st' ∧
    pc_items (ps_send st') = pc_items (ps_send st) ++ (Some <$> xs) ∧
    (∀ i, i ≠ peer_ref p → heap c' !! i = heap c !! i) ∧ c_peers c' = c_peers c.
Proof.
  intros Hres Hxs. revert c st. induction Hxs as [|x xs Hx _ IH]; intros c st Hget Hst Hrun Hopen Hroom.
  { exists c, st. cbn. rewrite app_nil_r. by split_and!. }
  rewrite zlen_cons in Hroom. pose proof (zlen_nonneg xs).
  destruct (route_direct p st x c g Hres Hx Hget Hst Hrun Hopen ltac:(lia)) as (st1 & Hr & Hrun1 & Hch1).
  cbn [route_loop]. rewrite Hr, bind_Ok. cbv beta iota.
  destruct (IH (set_heap (<[peer_ref p := st1]> (heap c)) c) st1) as (c' & st' & Hl & Hst' & Hi & Hothers & Hp).
  - done.
  - simpl. apply lookup_insert_eq.
  - done.
  - by rewrite Hch1.
  - rewrite Hch1. cbn [set_items pc_items pc_cap]. autorewrite with zlen. lia.
  - exists c', st'. split_and!; [done|done| | |done].
    + rewrite Hi, Hch1. cbn [set_items pc_items]. by rewrite <-app_assoc.
    + intros i Hne. rewrite Hothers by done. simpl. by rewrite lookup_insert_ne.
Qed.
End Direct.

Lemma omap_snd_zip {A B} (ts : list A) (xs : list B) :
  length ts = length xs → omap snd (zip ts (Some <$> xs)) = xs.
Proof.
  revert xs. induction ts as [|t ts IH]; intros [|x xs]; intros Hl; try done. cbn. by rewrite IH by (simpl in Hl; lia).
Qed.

(** ** The conversation *)

Section Conversation.
Context `{ProtoLibLaws} {G : Type} `{Rng G}.

(** [C1] Two nodes from the handshake to the application.  When the handshake of two nodes
    whose settings fit is over, what the application of the node that dialed sends to
    the other under the name of that peer takes this way: [route] puts it into the
    channel of the peer and of no other, [sendLoop] writes it, and from the bytes
    [readLoop] of the other node delivers it under the name that node has for the
    first one, and [manageData] puts it into the channel the application reads.  All
    parcels arrive, with their payloads, in order and once, whatever protocol was
    agreed on. *)
Theorem conversation ida idb order a b iA iB cA cB restA restB ctlA ctlB
    refA refB epA epB now (g : G) :
  type_ids ida → type_ids idb → conf_ok a → conf_ok b → Network a = Network b →
  ProtocolVersionMinimum b ≤ ProtocolVersion a → ProtocolVersionMinimum a ≤ agreed a b →
  is_u64 iA → is_u64 iB → iA ≠ iB →
  c_room cA = None → c_room cB = None → c_out cA = [] → c_out cB = [] →
  allowIncoming b now ctlB (IP epA) = Ok tt →
  let hsA := handshakeOutgoing ida a iA refA cA epB ctlA in
  bytes_in cB = c_out (mv_conn hsA) ++ restB →
  let peerB := MkPeer refB (peer_Hash (set_Port (ListenPort a) epA) (NodeID a)) (set_Port (ListenPort a) epA) true in
  let peerA := MkPeer refA (peer_Hash epB (NodeID b)) epB false in
  ∃ hsB pB, handshakeIncoming idb order b iB now refB cB epA ctlB g = Ok (hsB, g) ∧
    mv_result hsB = Ok (peerB, pB) ∧
    (bytes_in cA = c_out (mv_conn hsB) ++ restA →
     ∃ pA, mv_result hsA = Ok (peerA, pA) ∧
       ∀ xs ts t c1 st,
         Forall (λ x, Address x = Hash peerA ∧ IsApplicationMessage x = true ∧
           Parcel_Valid (Some x) = Ok tt ∧ any_sendable x) xs → length ts = length xs →
         PeerStore_Get (c_peers c1) (Hash peerA) = Some peerA → heap c1 !! refA = Some st →
         ps_stopped st = false → ps_send st = newParcelChannel (ChannelCapacity a) →
         zlen xs ≤ ChannelCapacity a →
         ∃ c2 st2 w bytes, route_loop order a xs c1 g = Ok (c2, g) ∧ heap c2 !! refA = Some st2 ∧
           (∀ i, i ≠ refA → heap c2 !! i = heap c1 !! i) ∧
           sendLoop (H:=Any_Protocol ida) (zip ts (pc_items (ps_send st2))) (MkWriter pA t) = Ok (w, false) ∧
           c_out (any_conn (wr_prot w)) = c_out (any_conn pA) ++ bytes ∧
           ∀ rest turns t' ctl s clocks,
             restB = bytes ++ rest → controller_wf ctl → peer_ok peerB ctl →
             length turns = length xs → Forall (λ t : Z * bool, t.2 = true) turns →
             pc_wf (md_fromNetwork s) → pc_closed (md_fromNetwork s) = false →
             zlen (pc_items (md_fromNetwork s)) + zlen xs ≤ pc_cap (md_fromNetwork s) →
             length clocks = length xs →
             ∃ r s', readLoop (H:=Any_Protocol idb) turns peerB (MkReader pB t' ctl) =
                 Ok (r, from_peer peerB <$> xs, false) ∧ bytes_in (any_conn (rd_prot r)) = rest ∧
               manageData order b (zip clocks ((λ x, (Some peerB, from_peer peerB x)) <$> xs)) s g = Ok (Some s', g) ∧
               pc_items (md_fromNetwork s') = pc_items (md_fromNetwork s) ++
                 ((λ x, Some (MkParcel TypeMessage (Hash peerB) (Payload x))) <$> xs)).
Proof.
  intros Hida Hidb Hca Hcb Hnet Hmb Hma HiA HiB Hi HuA HuB HoA HoB Hallow hsA HinB peerB peerA.
  destruct (negotiation_lemma ida idb order a b iA iB cA cB restA restB ctlA ctlB refA refB epA epB now g
    Hida Hidb Hca Hcb Hnet Hmb Hma HiA HiB Hi HuA HuB HoA HoB Hallow HinB)
    as (hsB & pB & HB & HrB & _ & HpB & _ & _ & Hreply).
  exists hsB, pB. split_and!; [done|done|]. intros HinA.
  destruct (Hreply HinA) as (pA & HrA & _ & _ & _ & HupA & Hlink & _). exists pA. split; [done|].
  intros xs ts t c1 st Hxs Hts Hget Hst Hrun Hch Hroom.
  assert (Hlen0 : @zlen (option Parcel) [] = 0) by done.
  destruct (route_loop_direct order a peerA st xs c1 g (peer_Hash_not_reserved _ _)) as (c2 & st2 & Hroute & Hst2 & Hitems & Hothers & _);
    [by eapply Forall_impl; [exact Hxs|]; intros x (? & _)|done|done|done|by rewrite Hch|rewrite Hch; cbn; lia|].
  rewrite Hch in Hitems. cbn [newParcelChannel pc_items app] in Hitems.
  assert (Hsent : omap snd (zip ts (pc_items (ps_send st2))) = xs) by (rewrite Hitems; by apply omap_snd_zip).
  destruct (gossip_lemma (H0:=Any_Wire ida Hida) order b (MkWriter pA t) (zip ts (pc_items (ps_send st2))))
    as (w & bytes & Hsend & Hout & Hread); rewrite ?Hsent in *.
  - done.
  - eapply Forall_impl; [exact Hxs|]. by intros x (_ & _ & _ & ?).
  - eapply Forall_impl; [exact Hxs|]. by intros x (_ & ? & ? & _).
  - exists c2, st2, w, bytes. split_and!; [done|done|done|done|done|].
    intros rest turns t' ctl s clocks Hrest Hwf Hok Hturns Hdel Hpc Hopen Hroom' Hclk.
    destruct (Hread peerB turns (MkReader pB t' ctl) rest Hwf Hok Hlink) as (r & Hr & Hin & _ & _ & Hdata);
      [cbn; congruence|done|done|].
    destruct (Hdata clocks s g Hpc Hopen Hroom' Hclk) as (s' & Hs' & Hi' & _).
    exists r, s'. split_and!; [exact Hr|done|done|]. rewrite Hi'. done.
Qed.
End Conversation.

(** ** A parcel from the node [conf_a] to the node [conf_b] *)

#[local] Existing Instance documented_ProtoLib.

Definition hello_peer_a : Peer := MkPeer 8 (peer_Hash ep_a (NodeID conf_b)) ep_a false.
Definition hello_peer_b : Peer :=
  MkPeer 7 (peer_Hash (set_Port (ListenPort conf_a) ep_a) (NodeID conf_a)) (set_Port (ListenPort conf_a) ep_a) true.
Definition hello : Parcel := MkParcel TypeMessage (Hash hello_peer_a) [x68; x69].
Definition hello_state : PeerState :=
  MkPeerState false None (newParcelChannel (ChannelCapacity conf_a)) 0 zero_time zero_time zero_time.
Definition hello_ctl_a : controller :=
  MkController (MkPeerStore {[Hash hello_peer_a := hello_peer_a]} ∅ None 0 1) {[8%nat := hello_state]} [] ∅ false ∅ [].
Definition hello_ctl_b : controller := MkController NewPeerStore {[7%nat := hello_state]} [] ∅ false ∅ [].
Definition hello_prot : any_protocol := Eval vm_compute in
  match mv_result (handshakeOutgoing ids3 conf_a 1 8 con_a ep_a ctl_ab) with
  | Ok (_, p) => p
  | _ => Any11 (newProtocolV11 con_a)
  end.
Definition hello_out : list byte := Eval vm_compute in
  match sendLoop (H:=Any_Protocol ids3) [(5, Some hello)] (MkWriter hello_prot 0) with
  | Ok (w, _) => drop (length (c_out (any_conn hello_prot))) (c_out (any_conn (wr_prot w)))
  | _ => []
  end.
Definition hello_con : conn := MkConn [sent_a; hello_out] [] None.
Definition hello_data : data_state := MkData hello_ctl_b (newParcelChannel 5) ∅ [].

Lemma hello_bytes c2 st2 w bytes :
  route_loop (λ l, l) conf_a [hello] hello_ctl_a 0 = Ok (c2, 0) → heap c2 !! 8%nat = Some st2 →
  sendLoop (H:=Any_Protocol ids3) (zip [5] (pc_items (ps_send st2))) (MkWriter hello_prot 0) = Ok (w, false) →
  c_out (any_conn (wr_prot w)) = c_out (any_conn hello_prot) ++ bytes → bytes = hello_out.
Proof.
  intros Hr Hst Hs Hb.
  assert (Hi : pc_items (ps_send st2) = [Some hello]).
  { revert Hr Hst. vm_compute. intros [= <-]. vm_compute. by intros [= <-]. }
  rewrite Hi in Hs. clear Hr Hst Hi. apply (app_inv_head (c_out (any_conn hello_prot))). rewrite <-Hb. clear Hb.
  revert Hs. vm_compute. by intros [= <-].
Qed.

Lemma hello_ctl_b_wf : controller_wf hello_ctl_b ∧ peer_ok hello_peer_b hello_ctl_b.
Proof.
  split; [split|].
  - apply reachable_wf. constructor.
  - intros h p. unfold hello_ctl_b, NewPeerStore. simpl. by rewrite lookup_empty.
  - intros h h' p q. unfold hello_ctl_b, NewPeerStore. simpl. by rewrite lookup_empty.
  - intros i st pr. unfold hello_ctl_b. simpl. intros [<- <-]%lookup_singleton_Some. done.
  - done.
  - exists hello_state. by split.
Qed.

Lemma hello_carried :
  Forall (λ x, Address x = Hash hello_peer_a ∧ IsApplicationMessage x = true ∧
    Parcel_Valid (Some x) = Ok tt ∧ any_sendable x) [hello].
Proof.
  constructor; [|constructor]. split_and!; [done|done|done|].
  unfold any_sendable, v9_sendable, v10_sendable, v11_sendable, is_u16. split_and!; by vm_compute.
Qed.

Theorem conversation_witness :
  ∃ c2 st2 w pB r s',
    route_loop (λ l, l) conf_a [hello] hello_ctl_a 0 = Ok (c2, 0) ∧ heap c2 !! 8%nat = Some st2 ∧
    sendLoop (H:=Any_Protocol ids3) (zip [5] (pc_items (ps_send st2))) (MkWriter hello_prot 0) = Ok (w, false) ∧
    readLoop (H:=Any_Protocol ids3) [(7, true)] hello_peer_b (MkReader pB 0 hello_ctl_b) =
      Ok (r, [from_peer hello_peer_b hello], false) ∧
    manageData (λ l, l) conf_b [(8, 8, (Some hello_peer_b, from_peer hello_peer_b hello))] hello_data 0 = Ok (Some s', 0) ∧
    pc_items (md_fromNetwork s') = [Some (MkParcel TypeMessage (Hash hello_peer_b) (Payload hello))].
Proof.
  destruct (conversation ids3 ids3 (λ l, l) conf_a conf_b 1 2 con_a hello_con [x2a] hello_out ctl_ab ctl_ab
    8 7 ep_a ep_a 0 0 ids3_ok ids3_ok (conf_version_ok 10 ltac:(set_solver)) (conf_version_ok 9 ltac:(set_solver))
    eq_refl ltac:(by vm_compute) ltac:(by vm_compute) ltac:(unfold is_u64; lia) ltac:(unfold is_u64; lia) ltac:(lia)
    eq_refl eq_refl eq_refl eq_refl ltac:(by vm_compute) ltac:(by vm_compute)) as (hsB & pB & HB & HrB & Hx).
  assert (HoutB : c_out (mv_conn hsB) = sent_b).
  { revert HB. vm_compute. by intros [= <-]. }
  destruct Hx as (pA & HrA & Hx); [rewrite HoutB; by vm_compute|].
  assert (HpA : pA = hello_prot).
  { revert HrA. vm_compute. by intros [= <-]. }
  subst pA.
  destruct (Hx [hello] [5] 0 hello_ctl_a hello_state hello_carried eq_refl ltac:(by vm_compute) ltac:(by vm_compute)
    eq_refl eq_refl ltac:(by vm_compute)) as (c2 & st2 & w & bytes & Hr & Hst & _ & Hs & Hb & Hread).
  pose proof (hello_bytes c2 st2 w bytes Hr Hst Hs Hb) as ->. destruct hello_ctl_b_wf as [Hwf Hok].
  destruct (Hread [] [(7, true)] 0 hello_ctl_b hello_data [(8, 8)] (eq_sym (app_nil_r _)) Hwf Hok eq_refl
    ltac:(by constructor) ltac:(split; by vm_compute) eq_refl ltac:(by vm_compute) eq_refl)
    as (r & s' & Hrl & _ & Hm & Hi).
  exists c2, st2, w, pB, r, s'. split; [exact Hr|]. split; [exact Hst|]. split; [exact Hs|].
  split; [exact Hrl|]. split; [exact Hm|exact Hi].
Defined.
